(* ===== verification/_CoqProject ===== *)
-Q . S2P
Prelude.v
GoInt.v
Shm.v
Descriptor.v
State.v
Ring.v
Queue.v
Packet.v
Layout.v
Transfer.v
Link.v
Demo.v
Fifo.v
Overrun.v
Interleave.v
Atomic.v
Concurrent.v
Producer.v
Consumer.v
Linear.v
Region.v
Setup.v
Wire.v
Heap.v
Endpoint.v
Control.v
Socket.v
Protocol.v
Trace.v
Lifecycle.v
Sessions.v
Typing.v
Typed.v
Poll.v
EndToEnd.v
Handshake.v
Connect.v
Duplex.v
Apps.v
Echo.v
Workers.v
Startup.v
Fields.v
