(* ===== verification/Prelude.v ===== *)
(** * zmemif: a verification library for the memif driver in Go

    zmemif connects two processes by packet rings in shared memory.  One process
    has a server port, the other a client port; a UNIX-domain socket carries the
    control messages with which they agree on the memory (regions) and the rings
    in it; packets then flow through the rings without the kernel, except for
    the eventfd that wakes the receiver.

    This file is the root: documentation, then the lemmas on lists and lengths
    that every other file uses.

    ** The program and the files that model it

    Values and memory.
    - [GoInt.v]: Go's fixed-width integers as [Z] with explicit wrap-around, and
      [encoding/binary]'s little-endian accessors.
    - [Shm.v]: the contents of mapped files, the calls the source makes of the
      kernel and the scheduler, and the effect monad [prog] into which Go functions
      are translated (loads and stores of shared memory, system calls, run-time
      panics, waits that never end); [run] executes a [prog] against a kernel
      (class [OS]), [wp] is total correctness: it returns.
    - [State.v]: the structs [PortCfg], [MemoryConfig], [Port], [Queue], [ring],
      [memoryRegion] (main.go, ring.go, queue.go, mem_region.go).
    - [Heap.v]: the structs [Socket], [controlChannel], [controlMsg] (socket.go,
      control_msg.go), the state that holds a process's ports and channels, and
      the monad [M] of control-plane functions; [error] results stay values.

    Data path.
    - [Descriptor.v] (descriptor.go), [Ring.v] (ring.go), [Queue.v] (queue.go and
      the copies between private buffers and shared memory), [Packet.v]
      (packet_processing.go: [ReadPacket], [WritePacket]).
    - [Layout.v], [Transfer.v], [Link.v]: where a ring and its buffers lie, what
      one slot's operations do, and the invariant of a ring shared by a producer
      and a consumer with the total-correctness rules of the two calls.
    - [Fifo.v]: the abstract specification (a FIFO of packets with a credit of
      slots) and the refinement; [Overrun.v]: receiving into a buffer that is too
      short; [Fields.v]: byte-level contracts of single fields; [Demo.v]: a
      concrete ring and kernel.

    Two processes on one ring.
    - [Interleave.v]: one access at a time ([advance]), footprints ([only_writes],
      [area]) and a rely-guarantee logic for [prog]; [Atomic.v]: the channel whose
      operations take effect in one step; [Concurrent.v]: who owns which bytes of
      a ring between two accesses; [Producer.v], [Consumer.v]: [WritePacket] and
      [ReadPacket] under interference; [Linear.v]: the two processes together.

    Setting up.
    - [Region.v] (mem_region.go, util.go) and [Setup.v], what it establishes;
      [Duplex.v]: the buffers that the two rings of a queue pair share.

    Control plane.
    - [Wire.v]: message structs and their wire format; the class [Message] is
      the contract between a message type and the channel.
    - [Endpoint.v] (port.go: accessors, [connect], [disconnect]), [Control.v]
      (control_msg.go: message queue, one function per handler, [dispatch] /
      [parseMsg], listener), [Socket.v] (socket.go, main.go and the rest of
      port.go).  Functions keep their Go names; a receiver or file name is
      prefixed where two functions share one ([Port_newRing], [Socket_NewPort],
      [listener_handleEvent]).  A loop of a Go function is a [Fixpoint] of its
      own beside it ([ReadPacket_chain], [find_port], [map_regions], ...).
    - [Protocol.v]: the handlers, message by message; [Trace.v]: kernels that
      record their calls; [Lifecycle.v]: what is released, when; [Sessions.v]:
      ports, events and teardown of a socket; [EndToEnd.v]: a whole session of
      two processes, evaluated.
    - [Typing.v], [Typed.v]: the invariant that Go's types and the driver's own
      conventions give a process's state, and that every operation keeps it.
    - [Handshake.v]: the two processes of a connection and the datagrams in flight
      between them as a step relation, for any configuration and any interleaving
      of the two pollers; [Connect.v]: what [connect] maps and reads, and the two
      ends of a ring after the handshake; [Poll.v]: the goroutine of
      [StartPolling] and the application as a step relation, with the kernel's
      side of epoll as a class.

    Applications (src/example).
    - [Apps.v]: callbacks, workers, configurations and [main] of the six programs;
      [Echo.v]: what the workers of simple_echo do to a pair of rings; [Workers.v]:
      the goroutines of a port and its wait group as a step relation; [Startup.v]:
      what [main] has set up when polling starts.

    ** What is shown

    - Data path: [Fifo.fifo_refinement] (any sequence of calls behaves as the
      bounded FIFO, in both directions), the branch-by-branch specifications of
      the two calls, the round trip of packets that fit a buffer, the error of an
      unfinished chain, and what becomes of packets that do not fit.
    - Concurrency: a sender and a receiver whose accesses interleave in any order
      take the steps of the atomic channel ([Linear.interleaved_linearizable]),
      deliver packets that fit a buffer intact, in order and without loss
      ([interleaved_order]), and every call returns after a bounded number of its
      own steps ([interleaved_calls_return]).
    - Setting up: [Setup.region_layout] (rings and the buffers of different slots do
      not overlap while the rings need less than 64 KiB and the region less than
      4 GiB), [Setup.initializeQueues_one_pair] (the rings written represent empty
      links), and what fails: [Setup.ring_area_overflow],
      [Setup.second_queue_descriptors_blank], and [Duplex.duplex_corrupts] (both
      directions use the same slots, so traffic in one overwrites the other's).
    - Wire: every message round trips in a 128-byte datagram, whatever its tail.
    - Protocol: which port an init message gets, what is negotiated, and that
      announcing a region or ring reproduces it at the peer.
    - Handshake: the two sides stay in lock step, the client's regions and rings
      are reproduced in order at the server, and the exchange ends with both ports
      connected; after it, both rings are linked and represent empty FIFOs.
    - Life cycle: [disconnect] and [close] call by call, for any kernel and any
      callback: what is released when they return, the error each refused call
      ends them with, and that they return exactly if the callback does (the
      default one: if [Wg.Wait] does and the port was never disconnected before);
      the error path of [parseMsg] after any handler's failure; the cases in which
      a port is stranded or the process panics.
    - Sockets: unique ids, defaults, routing of events, acceptance of clients,
      termination of [NewPort]; what [Socket.Delete] deletes when it returns, and
      when it does.
    - Polling: [StopPolling] wakes the goroutine and returns under fair scheduling;
      the two ways in which it does not (an undrained error channel, [epoll_wait]
      interrupted).
    - Types: every state a process reaches by API calls and events, in any order
      and under any kernel, is well typed, and only an event of a channel without
      port follows a nil pointer ([Typed.process_well_typed]).
    - Applications: the echo server is a forwarder of FIFOs, a time stamp survives
      the round trip, a packet longer than the server's buffer crashes it; a worker
      that receives in an endless loop keeps the disconnect waiting for ever, one
      that looks at [QuitChan] lets it return; [bw_test]'s receiver starts polling
      with its sixteen ports or exits.

    ** Conventions and bounds

    - Code outside the repository is a parameter: the kernel is the class [OS],
      application callbacks the class [Callbacks], errno texts [ErrnoText].
      Assumptions on them are classes of their own, each with an instance:
      [OSWrite] (a write to an eventfd leaves the mapped files alone),
      [OSEventfd] (so does creating one), [EpollLaws] (an added descriptor is
      watched, and a written eventfd is reported), [WgReturns] (every wait for a
      wait group ends), [OutsideCallbacks] (callbacks leave the driver's state
      alone; they may fail, panic, block and make calls), [QuietCallbacks] (they
      also return nil at once), [TypedCallbacks] (callbacks keep the state well
      typed).  Ancillary data is modelled after
      [syscall.ParseSocketControlMessage].
    - A [Wg.Wait()] is one call of the environment ([SysWgWait]) that answers
      whether the wait ends; if not, the run is [Blocked], which no total
      specification ([wp]) allows.  What the goroutines of a port do meanwhile is
      [Workers.v]'s step relation, which says when the answer is yes.
    - A slice of a mapped file has the capacity of its length, as mmap returns
      it.  The host is 64-bit and little-endian.
    - Loops of the data path are bounded by the [uint16] slot count the code
      decrements, so they are structurally recursive.  [connect_loop] has fuel 2
      and [delete_ccs] / [delete_ports] the length of their list; [NewPort_spec]
      and [Socket_Delete_first_only] show that it never runs out.  [exchange] in
      [EndToEnd.v] has fuel 64 for a session of eleven messages.
    - In [Fifo.v] and [Connect.v] calls on one ring are sequences of whole calls.
      In [Linear.v] the two sides interleave access by access: memory is
      sequentially consistent (the source uses no atomics; it is the order x86
      gives these stores), and one access is one load, store or [copy] of the
      model.
    - The class [Perm] of [Shm.v] restricts the bytes a [prog] may touch in a
      specification; it is proof-only and grants everything unless a file of the
      previous group says otherwise.

    ** Not modelled

    More than one application goroutine using a socket at once; standard output
    and log messages.  Of the example applications: flag parsing, the clock (a
    time stamp is an argument), and a worker that still runs after the port's
    queues were replaced (between [Connected] and the return of [Wg.Wait] a queue
    pointer is an index into the port's slices).  The DPDK program in C is not
    part of the Go library.

    ** Possible extensions

    The start-up of the client programs; the calls of the data path as steps of the
    process of [Typed.v]. *)
From stdpp Require Import base tactics list.
From coqutil Require Import Byte.
From Stdlib Require Import ZArith Lia.

#[global] Open Scope Z_scope.

(** ** Lengths and sub-lists indexed by [Z]

    Go's [len] and slice bounds are signed integers, so the library indexes
    lists by [Z]; [sub] and [splice] are only used under explicit bounds. *)

Definition zlen {A} (l : list A) : Z := Z.of_nat (length l).

(** [sub o n l] is the Go slice [l[o:o+n]] (contents only). *)
Definition sub {A} (o n : Z) (l : list A) : list A :=
  take (Z.to_nat n) (drop (Z.to_nat o) l).

(** [splice o bs l] overwrites [l] from index [o] with [bs]. *)
Definition splice {A} (o : Z) (bs l : list A) : list A :=
  take (Z.to_nat o) l ++ bs ++ drop (Z.to_nat (o + zlen bs)) l.

(** The built-in [copy(dst, src)]: the first [min(len dst, len src)] elements
    of [dst] are replaced. *)
Definition go_copy {A} (dst src : list A) : list A :=
  take (length dst) src ++ drop (length src) dst.

Definition zeros (n : Z) : list byte := replicate (Z.to_nat n) Byte.x00.

#[export] Instance byte_eq_dec : EqDecision byte.
Proof. intros a b. destruct (Byte.byte_eq_dec a b); [by left|by right]. Defined.

(** ** Automation *)

Create HintDb zlen.
Create Rewrite HintDb zlen.

(** Rewrites every list length it knows, then [lia]. *)
Ltac zlen_norm :=
  unfold zlen in *;
  repeat first
    [ rewrite length_app in * | rewrite length_take in *
    | rewrite length_drop in * | rewrite length_replicate in *
    | progress simpl length in * ].

Ltac zlia := zlen_norm; lia.

(** Case analysis on the boolean tests a definition branches on. *)
Ltac case_bool :=
  match goal with
  | |- context [if ?b then _ else _] => let E := fresh "E" in destruct b eqn:E
  end.

Ltac zbool :=
  repeat match goal with
  | H : (_ =? _) = true |- _ => apply Z.eqb_eq in H
  | H : (_ =? _) = false |- _ => apply Z.eqb_neq in H
  | H : (_ <? _) = true |- _ => apply Z.ltb_lt in H
  | H : (_ <? _) = false |- _ => apply Z.ltb_ge in H
  | H : (_ <=? _) = true |- _ => apply Z.leb_le in H
  | H : (_ <=? _) = false |- _ => apply Z.leb_gt in H
  | H : andb _ _ = true |- _ => apply andb_prop in H; destruct H
  end.

(** ** Lemmas on [zlen], [sub], [splice] and [go_copy] *)

Section lists.
Context {A : Type}.
Implicit Types l bs : list A.

Lemma zlen_nonneg l : 0 <= zlen l.
Proof. unfold zlen; lia. Qed.

Lemma zlen_app l bs : zlen (l ++ bs) = zlen l + zlen bs.
Proof. zlia. Qed.

Lemma zlen_nil_inv l : zlen l = 0 -> l = [].
Proof. destruct l; [done | unfold zlen; simpl; lia]. Qed.

Lemma length_sub o n l :
  0 <= o -> 0 <= n -> o + n <= zlen l -> length (sub o n l) = Z.to_nat n.
Proof. intros; unfold sub, zlen in *; rewrite length_take, length_drop; lia. Qed.

Lemma length_splice o bs l :
  0 <= o -> o + zlen bs <= zlen l -> length (splice o bs l) = length l.
Proof.
  intros; unfold splice, zlen in *.
  rewrite !length_app, length_take, length_drop; lia.
Qed.

Lemma zlen_sub o n l :
  0 <= o -> 0 <= n -> o + n <= zlen l -> zlen (sub o n l) = n.
Proof. intros; unfold zlen at 1; rewrite length_sub by done; lia. Qed.

Lemma zlen_splice o bs l :
  0 <= o -> o + zlen bs <= zlen l -> zlen (splice o bs l) = zlen l.
Proof. intros; unfold zlen at 1; by rewrite length_splice. Qed.

Lemma zlen_go_copy l bs : zlen (go_copy l bs) = zlen l.
Proof. unfold go_copy; zlia. Qed.

Lemma sub_full l : sub 0 (zlen l) l = l.
Proof. unfold sub, zlen. rewrite drop_0, Nat2Z.id. apply firstn_all. Qed.

Lemma lookup_sub o n l (i : nat) :
  0 <= o -> (i < Z.to_nat n)%nat -> sub o n l !! i = l !! (Z.to_nat o + i)%nat.
Proof. intros. unfold sub. rewrite lookup_take_lt by done. by rewrite lookup_drop. Qed.

Lemma lookup_splice o bs l (i : nat) :
  0 <= o -> o + zlen bs <= zlen l ->
  splice o bs l !! i =
    if decide (Z.to_nat o <= i < Z.to_nat o + length bs)%nat
    then bs !! (i - Z.to_nat o)%nat else l !! i.
Proof.
  intros Ho Hb. unfold splice. unfold zlen in *. case_decide as Hd.
  - rewrite lookup_app_r by (rewrite length_take; lia).
    rewrite length_take, lookup_app_l by lia. f_equal; lia.
  - destruct (decide (i < Z.to_nat o)%nat).
    + rewrite lookup_app_l by (rewrite length_take; lia). by rewrite lookup_take_lt.
    + rewrite !lookup_app_r by (rewrite ?length_take; lia).
      rewrite lookup_drop, length_take. f_equal; lia.
Qed.

(** Two lists of the same length that agree at every index below it. *)
Lemma list_eq_len l1 l2 :
  length l1 = length l2 ->
  (forall i, (i < length l1)%nat -> l1 !! i = l2 !! i) -> l1 = l2.
Proof.
  intros Hl H. apply list_eq. intros i.
  destruct (decide (i < length l1)%nat); [by apply H|].
  rewrite !lookup_ge_None_2 by lia. done.
Qed.

Lemma sub_splice_inside o bs l a n :
  0 <= o -> o + zlen bs <= zlen l -> o <= a -> 0 <= n -> a + n <= o + zlen bs ->
  sub a n (splice o bs l) = sub (a - o) n bs.
Proof.
  intros. assert (zlen (splice o bs l) = zlen l) by (by apply zlen_splice).
  apply list_eq_len; [rewrite !length_sub by lia; done|].
  intros i. rewrite length_sub by lia. intros Hi. unfold zlen in *.
  rewrite !lookup_sub by lia. rewrite lookup_splice by (unfold zlen; lia).
  rewrite decide_True by lia. f_equal; lia.
Qed.

Lemma sub_splice_same o bs l :
  0 <= o -> o + zlen bs <= zlen l -> sub o (zlen bs) (splice o bs l) = bs.
Proof.
  intros. rewrite sub_splice_inside by (pose proof (zlen_nonneg bs); lia).
  rewrite Z.sub_diag. apply sub_full.
Qed.

Lemma sub_splice_disj o bs l a n :
  0 <= o -> o + zlen bs <= zlen l -> 0 <= a -> 0 <= n -> a + n <= zlen l ->
  a + n <= o \/ o + zlen bs <= a ->
  sub a n (splice o bs l) = sub a n l.
Proof.
  intros. assert (zlen (splice o bs l) = zlen l) by (by apply zlen_splice).
  apply list_eq_len; [rewrite !length_sub by lia; done|].
  intros i. rewrite length_sub by lia. intros Hi. unfold zlen in *.
  rewrite !lookup_sub by lia. rewrite lookup_splice by (unfold zlen; lia).
  rewrite decide_False by lia. done.
Qed.

Lemma sub_sub o n a k l :
  0 <= o -> 0 <= a -> 0 <= k -> a + k <= n -> o + n <= zlen l ->
  sub a k (sub o n l) = sub (o + a) k l.
Proof.
  intros. assert (zlen (sub o n l) = n) by (apply zlen_sub; lia).
  apply list_eq_len; [rewrite !length_sub by lia; done|].
  intros i. rewrite length_sub by lia. intros Hi.
  rewrite !lookup_sub by lia. f_equal; lia.
Qed.

Lemma sub_app_split o n k l :
  0 <= o -> 0 <= n -> 0 <= k -> o + n + k <= zlen l ->
  sub o n l ++ sub (o + n) k l = sub o (n + k) l.
Proof.
  intros. assert (Hn : length (sub o n l) = Z.to_nat n) by (apply length_sub; lia).
  apply list_eq_len; rewrite length_app, Hn, length_sub by lia.
  - rewrite length_sub by lia. lia.
  - intros i Hi. destruct (decide (i < Z.to_nat n)%nat).
    + rewrite lookup_app_l by lia. rewrite !lookup_sub by lia. done.
    + rewrite lookup_app_r by lia. rewrite Hn, !lookup_sub by lia. f_equal; lia.
Qed.

(** Reading a window around an overwritten range. *)
Lemma sub_splice_window o n a bs l :
  0 <= o -> 0 <= n -> o + n <= zlen l -> 0 <= a -> a + zlen bs <= n ->
  sub o n (splice (o + a) bs l) = splice a bs (sub o n l).
Proof.
  intros. pose proof (zlen_nonneg bs).
  assert (zlen (sub o n l) = n) by (apply zlen_sub; lia).
  assert (zlen (splice (o + a) bs l) = zlen l) by (apply zlen_splice; lia).
  apply list_eq_len; [rewrite length_splice, !length_sub by lia; done|].
  intros i. rewrite length_sub by lia. intros Hi. unfold zlen in *.
  rewrite lookup_sub, !lookup_splice, lookup_sub by (unfold zlen; lia).
  repeat case_decide; try lia; f_equal; lia.
Qed.

(** Two adjacent overwrites are one. *)
Lemma splice_splice o b1 b2 l :
  0 <= o -> o + zlen b1 + zlen b2 <= zlen l ->
  splice (o + zlen b1) b2 (splice o b1 l) = splice o (b1 ++ b2) l.
Proof.
  intros. pose proof (zlen_nonneg b1). pose proof (zlen_nonneg b2).
  assert (zlen (splice o b1 l) = zlen l) by (apply zlen_splice; lia).
  assert (zlen (b1 ++ b2) = zlen b1 + zlen b2) by apply zlen_app.
  apply list_eq_len; [rewrite !length_splice by lia; done|].
  intros i _. rewrite (lookup_splice (o + zlen b1)), !lookup_splice by lia.
  rewrite length_app. unfold zlen in *. repeat case_decide; try lia; try done.
  - rewrite lookup_app_r by lia. f_equal; lia.
  - by rewrite lookup_app_l by lia.
Qed.

Lemma sub_app_l l bs : sub 0 (zlen l) (l ++ bs) = l.
Proof. unfold sub, zlen. rewrite drop_0, Nat2Z.id. by rewrite take_app_length. Qed.

Lemma sub_app_r l bs : sub (zlen l) (zlen bs) (l ++ bs) = bs.
Proof. unfold sub, zlen. rewrite !Nat2Z.id, drop_app_length. apply firstn_all. Qed.

Lemma splice_nil o l : 0 <= o <= zlen l -> splice o [] l = l.
Proof.
  intros. unfold splice. change (zlen []) with 0. rewrite Z.add_0_r. apply take_drop.
Qed.

(** [copy(l[o:], bs)] when [bs] fits. *)
Lemma go_copy_at o bs l :
  0 <= o -> o + zlen bs <= zlen l ->
  take (Z.to_nat o) l ++ go_copy (drop (Z.to_nat o) l) bs = splice o bs l.
Proof.
  intros. unfold go_copy, splice, zlen in *. f_equal.
  rewrite firstn_all2 by (rewrite length_drop; lia). f_equal.
  rewrite drop_drop. f_equal. lia.
Qed.

(** Two copies into one buffer, the second where the first ended. *)
Lemma splice_go_copy a bs l :
  zlen a + zlen bs <= zlen l -> splice (zlen a) bs (go_copy l a) = splice 0 (a ++ bs) l.
Proof.
  intros. pose proof (zlen_nonneg a). pose proof (zlen_nonneg bs).
  rewrite <- (splice_splice 0 a bs) by lia. f_equal. apply (go_copy_at 0 a l); lia.
Qed.

Lemma sub_nil_len o l : sub o 0 l = [].
Proof. done. Qed.

Lemma go_copy_same l bs : zlen l = zlen bs -> go_copy l bs = bs.
Proof.
  intros H. unfold go_copy, zlen in *.
  rewrite (firstn_all2 bs) by lia. rewrite (drop_ge l) by lia. apply app_nil_r.
Qed.

(** A source no longer than the destination: the tail of [dst] is kept. *)
Lemma go_copy_short l bs : zlen bs <= zlen l -> go_copy l bs = bs ++ drop (length bs) l.
Proof. intros H. unfold go_copy, zlen in *. by rewrite (firstn_all2 bs) by lia. Qed.

(** A source at least as long: only its prefix is copied. *)
Lemma go_copy_long l bs : zlen l <= zlen bs -> go_copy l bs = take (length l) bs.
Proof.
  intros H. unfold go_copy, zlen in *. rewrite (drop_ge l) by lia. apply app_nil_r.
Qed.
End lists.

Lemma zlen_zeros n : 0 <= n -> zlen (zeros n) = n.
Proof. intros; unfold zeros; zlia. Qed.

#[export] Hint Rewrite @zlen_app @zlen_go_copy : zlen.
#[export] Hint Resolve zlen_nonneg : zlen.
