(* ===== verification/GoInt.v ===== *)
(** * Machine integers and little-endian byte strings

    Go's fixed-width conversions ([uint8(x)], [uint16(x)], [uint32(x)],
    [uint64(x)], and the 64-bit [int]) as wrap-around on [Z], and the
    [encoding/binary] little-endian accessors the driver uses, over coqutil's
    [le_split]/[le_combine]. *)
From stdpp Require Import base tactics list.
From coqutil Require Import Byte Word.LittleEndianList.
From Stdlib Require Import ZArith Lia.
From S2P Require Import Prelude.

Definition u8 (z : Z) : Z := z mod 2 ^ 8.
Definition u16 (z : Z) : Z := z mod 2 ^ 16.
Definition u32 (z : Z) : Z := z mod 2 ^ 32.
Definition u64 (z : Z) : Z := z mod 2 ^ 64.

(** Conversion of a mathematical result to a 64-bit signed [int], and to
    an [int32] (the type of an epoll event's descriptor). *)
Definition int64 (z : Z) : Z := (z + 2 ^ 63) mod 2 ^ 64 - 2 ^ 63.

Definition int32 (z : Z) : Z := (z + 2 ^ 31) mod 2 ^ 32 - 2 ^ 31.

(** [1 << n] at type [int]: 0 once the count reaches the width. *)
Definition int_shl1 (n : Z) : Z := int64 (Z.shiftl 1 n).

(** [1 << n] at type [uint16] / [uint32] (the type Go gives the untyped 1 from
    its context). *)
Definition u16_shl1 (n : Z) : Z := u16 (Z.shiftl 1 n).
Definition u32_shl1 (n : Z) : Z := u32 (Z.shiftl 1 n).

(** [binary.LittleEndian.PutUintN] / [UintN] as byte strings. *)
Definition le16 (v : Z) : list byte := le_split 2 v.
Definition le32 (v : Z) : list byte := le_split 4 v.
Definition le64 (v : Z) : list byte := le_split 8 v.
Definition unle (bs : list byte) : Z := le_combine bs.

(** [binary.LittleEndian.Uint16(b[o:])], [Uint32(b[o:])]. *)
Definition get16 (o : Z) (b : list byte) : Z := unle (sub o 2 b).
Definition get32 (o : Z) (b : list byte) : Z := unle (sub o 4 b).
(** [binary.LittleEndian.PutUint16(b[o:], v)], [PutUint32(b[o:], v)]. *)
Definition put16 (o v : Z) (b : list byte) : list byte := splice o (le16 v) b.
Definition put32 (o v : Z) (b : list byte) : list byte := splice o (le32 v) b.

(** ** Wrap-around *)

Lemma u8_range z : 0 <= u8 z < 256.
Proof. unfold u8; apply Z.mod_pos_bound; lia. Qed.
Lemma u16_range z : 0 <= u16 z < 65536.
Proof. unfold u16; apply Z.mod_pos_bound; lia. Qed.
Lemma u32_range z : 0 <= u32 z < 4294967296.
Proof. unfold u32; apply Z.mod_pos_bound; lia. Qed.
Lemma u64_range z : 0 <= u64 z < 2 ^ 64.
Proof. unfold u64; apply Z.mod_pos_bound; lia. Qed.

Lemma int32_range z : - 2 ^ 31 <= int32 z < 2 ^ 31.
Proof. unfold int32. pose proof (Z.mod_pos_bound (z + 2 ^ 31) (2 ^ 32)). lia. Qed.

Lemma u8_small z : 0 <= z < 256 -> u8 z = z.
Proof. intros; unfold u8; apply Z.mod_small; lia. Qed.
Lemma u16_small z : 0 <= z < 65536 -> u16 z = z.
Proof. intros; unfold u16; apply Z.mod_small; lia. Qed.
Lemma u32_small z : 0 <= z < 4294967296 -> u32 z = z.
Proof. intros; unfold u32; apply Z.mod_small; lia. Qed.
Lemma u64_small z : 0 <= z < 2 ^ 64 -> u64 z = z.
Proof. intros; unfold u64; apply Z.mod_small; lia. Qed.
Lemma int64_small z : - 2 ^ 63 <= z < 2 ^ 63 -> int64 z = z.
Proof. intros; unfold int64; rewrite Z.mod_small; lia. Qed.

Lemma u16_u16 z : u16 (u16 z) = u16 z.
Proof. apply u16_small, u16_range. Qed.
Lemma u16_add_l a b : u16 (u16 a + b) = u16 (a + b).
Proof. unfold u16; by rewrite Zplus_mod_idemp_l. Qed.
Lemma u16_add_r a b : u16 (a + u16 b) = u16 (a + b).
Proof. unfold u16; by rewrite Zplus_mod_idemp_r. Qed.
Lemma u16_sub_l a b : u16 (u16 a - b) = u16 (a - b).
Proof. unfold u16; by rewrite Zminus_mod_idemp_l. Qed.
Lemma u16_sub_r a b : u16 (a - u16 b) = u16 (a - b).
Proof. unfold u16; by rewrite Zminus_mod_idemp_r. Qed.

Lemma u16_mul_l a b : u16 (u16 a * b) = u16 (a * b).
Proof. unfold u16; by rewrite Zmult_mod_idemp_l. Qed.
Lemma u16_mul_r a b : u16 (a * u16 b) = u16 (a * b).
Proof. unfold u16; by rewrite Zmult_mod_idemp_r. Qed.

(** Replacing a [uint16] operand by anything congruent to it. *)
Lemma u16_congr a b k : a = b + k * 65536 -> u16 a = u16 b.
Proof. intros ->; unfold u16. change (2 ^ 16) with 65536. apply Z_mod_plus_full. Qed.

Lemma u16_exists z : exists k, u16 z = z + k * 65536.
Proof.
  exists (- (z / 65536)). unfold u16. change (2 ^ 16) with 65536.
  pose proof (Z.div_mod z 65536); lia.
Qed.

Lemma int_shl1_small n : 0 <= n < 63 -> int_shl1 n = 2 ^ n.
Proof.
  intros. unfold int_shl1. rewrite Z.shiftl_1_l. apply int64_small.
  assert (2 ^ n < 2 ^ 63) by (apply Z.pow_lt_mono_r; lia).
  assert (0 <= 2 ^ n) by (apply Z.pow_nonneg; lia). lia.
Qed.

(** The shift count reaches the width: the ring size degenerates to 0. *)
Lemma int_shl1_large n : 64 <= n -> int_shl1 n = 0.
Proof.
  intros. unfold int_shl1, int64. rewrite Z.shiftl_1_l.
  replace n with (64 + (n - 64)) by lia. rewrite Z.pow_add_r by lia.
  rewrite <- Zplus_mod_idemp_l, (Z.mul_comm (2 ^ 64)), Z_mod_mult. reflexivity.
Qed.

(** Masking with [size - 1] for a power-of-two size is reduction modulo it. *)
Lemma land_mask x n : 0 <= n -> Z.land x (2 ^ n - 1) = x mod 2 ^ n.
Proof. intros. rewrite <- Z.land_ones by done. by rewrite Z.ones_equiv, <- Z.sub_1_r. Qed.

(** A ring index is insensitive to the [uint16] wrap: its size divides 2^16. *)
Lemma mod_u16 x n : 0 <= n <= 16 -> (u16 x) mod 2 ^ n = x mod 2 ^ n.
Proof.
  intros. unfold u16. apply Z.mod_mod_divide.
  exists (2 ^ (16 - n)). rewrite <- Z.pow_add_r by lia. f_equal; lia.
Qed.

(** ** Little-endian encodings *)

Lemma zlen_le16 v : zlen (le16 v) = 2.
Proof. done. Qed.
Lemma zlen_le32 v : zlen (le32 v) = 4.
Proof. done. Qed.
Lemma zlen_le64 v : zlen (le64 v) = 8.
Proof. done. Qed.
#[export] Hint Rewrite zlen_le16 zlen_le32 zlen_le64 : zlen.

Lemma unle_le16 v : unle (le16 v) = u16 v.
Proof. unfold unle, le16, u16. rewrite le_combine_split. done. Qed.
Lemma unle_le32 v : unle (le32 v) = u32 v.
Proof. unfold unle, le32, u32. rewrite le_combine_split. done. Qed.
Lemma unle_le64 v : unle (le64 v) = u64 v.
Proof. unfold unle, le64, u64. rewrite le_combine_split. done. Qed.

Lemma le16_unle bs : zlen bs = 2 -> le16 (unle bs) = bs.
Proof. intros. apply split_le_combine'. unfold zlen in *; lia. Qed.
Lemma le32_unle bs : zlen bs = 4 -> le32 (unle bs) = bs.
Proof. intros. apply split_le_combine'. unfold zlen in *; lia. Qed.

Lemma le16_u16 v : le16 (u16 v) = le16 v.
Proof. unfold le16, u16. symmetry. rewrite (le_split_mod v). done. Qed.
Lemma le32_u32 v : le32 (u32 v) = le32 v.
Proof. unfold le32, u32. symmetry. rewrite (le_split_mod v). done. Qed.

Lemma unle_range bs n : zlen bs = n -> 0 <= unle bs < 2 ^ (8 * n).
Proof. intros <-. apply le_combine_bound. Qed.

Lemma get16_range o b : 0 <= o -> o + 2 <= zlen b -> 0 <= get16 o b < 65536.
Proof. intros. unfold get16. apply (unle_range _ 2), zlen_sub; lia. Qed.
Lemma get32_range o b : 0 <= o -> o + 4 <= zlen b -> 0 <= get32 o b < 4294967296.
Proof. intros. unfold get32. apply (unle_range _ 4), zlen_sub; lia. Qed.

(** The two halves of a little-endian word. *)
Lemma unle_app16 a b : zlen a = 2 -> unle (a ++ b) = unle a + 65536 * unle b.
Proof.
  intros Ha. unfold unle. rewrite le_combine_app.
  replace (Z.of_nat (length a) * 8) with 16 by (unfold zlen in Ha; lia).
  pose proof (unle_range a 2 Ha) as Hr. unfold unle in Hr. change (2 ^ (8 * 2)) with (2 ^ 16) in Hr.
  assert (Z.land (le_combine a) (Z.shiftl (le_combine b) 16) = 0) as Hz.
  { apply Z.bits_inj'. intros i Hi. rewrite Z.land_spec, Z.bits_0.
    destruct (Z.lt_ge_cases i 16).
    - rewrite (Z.shiftl_spec_low _ _ i) by done. by rewrite andb_false_r.
    - assert (Z.testbit (le_combine a) i = false) as ->; [|done].
      apply Z.testbit_false; [done|]. rewrite Z.div_small; [done|]. split; [lia|].
      eapply Z.lt_le_trans; [apply Hr|]. apply Z.pow_le_mono_r; lia. }
  pose proof (Z.add_lor_land (le_combine a) (Z.shiftl (le_combine b) 16)).
  rewrite Hz in *. rewrite Z.shiftl_mul_pow2 in * by lia. lia.
Qed.

Section accessors.
Context (b : list byte) (o : Z) (Ho : 0 <= o).

Lemma zlen_put16 v : o + 2 <= zlen b -> zlen (put16 o v b) = zlen b.
Proof using Ho. intros. by apply zlen_splice. Qed.
Lemma zlen_put32 v : o + 4 <= zlen b -> zlen (put32 o v b) = zlen b.
Proof using Ho. intros. by apply zlen_splice. Qed.

Lemma get16_put16 v : o + 2 <= zlen b -> get16 o (put16 o v b) = u16 v.
Proof using Ho.
  intros. unfold get16, put16. rewrite (sub_splice_same o (le16 v)) by done.
  apply unle_le16.
Qed.
Lemma get32_put32 v : o + 4 <= zlen b -> get32 o (put32 o v b) = u32 v.
Proof using Ho.
  intros. unfold get32, put32. rewrite (sub_splice_same o (le32 v)) by done.
  apply unle_le32.
Qed.

(** A field write leaves every disjoint sub-slice alone. *)
Lemma sub_put16 v a n :
  o + 2 <= zlen b -> 0 <= a -> 0 <= n -> a + n <= zlen b -> a + n <= o \/ o + 2 <= a ->
  sub a n (put16 o v b) = sub a n b.
Proof using Ho. intros. by apply sub_splice_disj. Qed.
Lemma sub_put32 v a n :
  o + 4 <= zlen b -> 0 <= a -> 0 <= n -> a + n <= zlen b -> a + n <= o \/ o + 4 <= a ->
  sub a n (put32 o v b) = sub a n b.
Proof using Ho. intros. by apply sub_splice_disj. Qed.

(** Writing 16 bits over the low half of a 32-bit field. *)
Lemma get32_split : o + 4 <= zlen b -> get32 o b = get16 o b + 65536 * get16 (o + 2) b.
Proof using Ho.
  intros. unfold get32, get16. rewrite <- (sub_app_split o 2 2) by lia.
  by rewrite unle_app16 by (apply zlen_sub; lia).
Qed.

Lemma get16_high : o + 4 <= zlen b -> get16 (o + 2) b = get32 o b / 65536.
Proof using Ho.
  intros H. rewrite (get32_split H). pose proof (get16_range o b Ho ltac:(lia)).
  rewrite Z.mul_comm, Z.div_add by lia. rewrite Z.div_small; lia.
Qed.

Lemma get32_put16_low v :
  o + 4 <= zlen b -> get32 o (put16 o v b) = u16 v + 65536 * get16 (o + 2) b.
Proof using Ho.
  intros. unfold get32, get16.
  rewrite <- (sub_app_split o 2 2) by (rewrite ?zlen_put16; lia).
  rewrite unle_app16 by (apply zlen_sub; rewrite ?zlen_put16; lia).
  rewrite (sub_put16 v (o + 2)) by lia. f_equal. change (unle (sub o 2 (put16 o v b)))
    with (get16 o (put16 o v b)). apply get16_put16. lia.
Qed.
End accessors.

#[export] Hint Resolve u8_range u16_range u32_range u64_range : zlen.
