(* ===== verification/Shm.v ===== *)
(** * Shared memory, system calls and the effect monad

    The driver works on memory-mapped files shared with its peer and talks to
    the kernel.  A Go function is translated into a [prog]: a finite tree of
    memory accesses and calls of the environment, ending in a value, a run-time
    panic or a wait that nothing ends.
    The same tree is run here to completion ([run]) against a memory and a
    kernel given by the class [OS]. *)
From stdpp Require Import base tactics list gmap strings.
From coqutil Require Import Byte.
From Stdlib Require Import ZArith Lia.
From S2P Require Import Prelude.
From S2P Require Import GoInt.

(** ** Memory: the contents of every mapped file *)

Abbreviation mem := (gmap nat (list byte)).

(** Which bytes may be accessed.  A process may access every byte of the files
    it maps ([perm_all], the instance used unless another one is in scope);
    smaller permissions only occur in proofs, where they express that a piece of
    code keeps to a part of the memory. *)
Class Perm := perm : nat -> Z -> bool.
#[export] Instance perm_all : Perm := fun _ _ => true.

Definition allowed `{Perm} (f : nat) (o n : Z) : bool :=
  forallb (fun i => perm f (o + Z.of_nat i)) (seq 0 (Z.to_nat n)).

Section access.
Context `{Perm}.

(** [ld m f o n]: [n] bytes at offset [o] of file [f], or [None] when the
    access leaves the file (the hardware would fault). *)
Definition ld (m : mem) (f : nat) (o n : Z) : option (list byte) :=
  match m !! f with
  | Some bs =>
      if (0 <=? o) && (0 <=? n) && (o + n <=? zlen bs) && allowed f o n
      then Some (sub o n bs) else None
  | None => None
  end.

Definition st (m : mem) (f : nat) (o : Z) (bs : list byte) : option mem :=
  match m !! f with
  | Some old =>
      if (0 <=? o) && (o + zlen bs <=? zlen old) && allowed f o (zlen bs)
      then Some (<[f := splice o bs old]> m) else None
  | None => None
  end.
End access.

Lemma allowed_spec `{Perm} f o n :
  allowed f o n = true <-> forall i, o <= i < o + n -> perm f i = true.
Proof.
  unfold allowed. rewrite forallb_forall. split.
  - intros Ha i Hi. specialize (Ha (Z.to_nat (i - o))).
    replace i with (o + Z.of_nat (Z.to_nat (i - o))) by lia. apply Ha, in_seq. lia.
  - intros Ha i Hi%in_seq. apply Ha. lia.
Qed.

Lemma allowed_sub `{Perm} f o n a k :
  allowed f o n = true -> 0 <= a -> a + k <= n -> allowed f (o + a) k = true.
Proof. rewrite !allowed_spec. intros Ha ?? i ?. apply Ha. lia. Qed.

Lemma allowed_app `{Perm} f o n k :
  allowed f o n = true -> allowed f (o + n) k = true -> allowed f o (n + k) = true.
Proof.
  rewrite !allowed_spec. intros Ha Hb i ?. destruct (Z.lt_ge_cases i (o + n)); auto with lia.
Qed.

Lemma allowed_all f o n : @allowed perm_all f o n = true.
Proof. by apply allowed_spec. Qed.

(** Two byte ranges of the memory that do not overlap. *)
Definition disj (f : nat) (o n : Z) (f' : nat) (o' n' : Z) : Prop :=
  f <> f' \/ o + n <= o' \/ o' + n' <= o.

Section mem_lemmas.
Context `{Perm}.
Implicit Types (m : mem) (f : nat) (bs : list byte).

Lemma ld_Some m f o n bs :
  ld m f o n = Some bs <->
  exists file, m !! f = Some file /\ 0 <= o /\ 0 <= n /\ o + n <= zlen file /\
    allowed f o n = true /\ bs = sub o n file.
Proof.
  unfold ld. split.
  - destruct (m !! f) as [file|]; [|done]. case_bool; [|done].
    intros [= <-]. zbool. exists file. repeat split; lia || done.
  - intros (file & -> & ? & ? & ? & -> & ->).
    rewrite !(proj2 (Z.leb_le _ _)) by lia. done.
Qed.

Lemma ld_zlen m f o n bs : ld m f o n = Some bs -> zlen bs = n.
Proof. rewrite ld_Some. intros (?&?&?&?&?&?&->). by apply zlen_sub. Qed.

Lemma ld_nonneg m f o n bs : ld m f o n = Some bs -> 0 <= o /\ 0 <= n.
Proof. rewrite ld_Some. by intros (?&?&?&?&?&?&_). Qed.

Lemma ld_sub m f o n bs a k :
  ld m f o n = Some bs -> 0 <= a -> 0 <= k -> a + k <= n ->
  ld m f (o + a) k = Some (sub a k bs).
Proof.
  rewrite ld_Some. intros (file&Hf&?&?&?&?&->) ???. apply ld_Some.
  exists file. repeat split; try done; try lia; [by eapply allowed_sub|].
  by rewrite sub_sub by lia.
Qed.

Lemma ld_app m f o n k bs cs :
  ld m f o n = Some bs -> ld m f (o + n) k = Some cs ->
  ld m f o (n + k) = Some (bs ++ cs).
Proof.
  rewrite !ld_Some. intros (file&Hf&?&?&?&?&->) (file'&Hf'&?&?&?&?&->).
  simplify_eq. exists file. repeat split; try done; try lia; [by apply allowed_app|].
  apply sub_app_split; lia.
Qed.

(** A store succeeds exactly where a load of the same range does. *)
Lemma st_is_Some m f o bs :
  is_Some (ld m f o (zlen bs)) -> exists m', st m f o bs = Some m'.
Proof.
  intros [cs Hl]. apply ld_Some in Hl as (file&Hf&?&?&?&Ha&->).
  unfold st. rewrite Hf, Ha, !(proj2 (Z.leb_le _ _)) by lia. eauto.
Qed.

Lemma st_Some m f o bs m' :
  st m f o bs = Some m' <->
  exists file, m !! f = Some file /\ 0 <= o /\ o + zlen bs <= zlen file /\
    allowed f o (zlen bs) = true /\ m' = <[f := splice o bs file]> m.
Proof.
  unfold st. split.
  - destruct (m !! f) as [file|]; [|done]. case_bool; [|done].
    intros [= <-]. zbool. exists file. repeat split; lia || done.
  - intros (file & -> & ? & ? & -> & ->).
    rewrite !(proj2 (Z.leb_le _ _)) by lia. done.
Qed.

Lemma ld_st_inside m f o bs m' a n :
  st m f o bs = Some m' -> o <= a -> 0 <= n -> a + n <= o + zlen bs ->
  ld m' f a n = Some (sub (a - o) n bs).
Proof.
  rewrite st_Some. intros (file&Hf&?&?&Ha&->) ???. apply ld_Some.
  exists (splice o bs file). rewrite lookup_insert_eq.
  rewrite zlen_splice, sub_splice_inside by lia. repeat split; try (lia || done).
  replace a with (o + (a - o)) by lia. eapply allowed_sub; [done|lia..].
Qed.

Lemma ld_st_same m f o bs m' :
  st m f o bs = Some m' -> ld m' f o (zlen bs) = Some bs.
Proof.
  intros Hst. rewrite (ld_st_inside _ _ _ _ _ _ _ Hst) by (pose proof (zlen_nonneg bs); lia).
  by rewrite Z.sub_diag, sub_full.
Qed.

Lemma ld_st_disj m f o bs m' f' o' n :
  st m f o bs = Some m' -> disj f o (zlen bs) f' o' n ->
  ld m' f' o' n = ld m f' o' n.
Proof.
  rewrite st_Some. intros (file&Hf&?&?&?&->) Hd. unfold ld.
  destruct (decide (f = f')) as [<-|]; [|by rewrite lookup_insert_ne].
  rewrite lookup_insert_eq, Hf, zlen_splice by lia.
  case_bool; [|done]. zbool. f_equal. destruct Hd; [done|].
  apply sub_splice_disj; lia.
Qed.

(** Reading a window around the store. *)
Lemma ld_st_window m f o n old a bs m' :
  st m f (o + a) bs = Some m' -> ld m f o n = Some old -> 0 <= a -> a + zlen bs <= n ->
  ld m' f o n = Some (splice a bs old).
Proof.
  rewrite st_Some, !ld_Some. intros (file&Hf&?&?&?&->) (file'&Hf'&?&?&?&?&->) ??. simplify_eq.
  eexists. rewrite lookup_insert_eq. split; [done|]. rewrite zlen_splice by lia.
  repeat split; try done. symmetry. by apply sub_splice_window.
Qed.

(** Stores keep every file's size, hence every valid access valid. *)
Lemma st_ld_valid m f o bs m' f' o' n :
  st m f o bs = Some m' -> is_Some (ld m f' o' n) -> is_Some (ld m' f' o' n).
Proof.
  rewrite st_Some. intros (file&Hf&?&?&?&->) [cs Hcs].
  apply ld_Some in Hcs as (file'&Hf'&?&?&?&?&->).
  destruct (decide (f = f')) as [<-|].
  - simplify_eq. eexists. apply ld_Some. eexists. rewrite lookup_insert_eq.
    split; [done|]. rewrite zlen_splice by lia. done.
  - eexists. apply ld_Some. exists file'. by rewrite lookup_insert_ne.
Qed.
End mem_lemmas.

(** ** System calls

    The kernel and the Go scheduler are not part of the repository: each
    constructor is one call the source makes, with its arguments and the type of
    its answer.  [SysWgWait pid] is [p.Wg.Wait()] on the wait group of port [pid]:
    it answers [true] when the group's last goroutine has left, and [false] when
    that never happens; the goroutines that run meanwhile may change the shared
    memory. *)

Definition errno := Z.
Definition EINVAL : errno := 22.
Definition result (A : Type) : Type := (A + errno)%type.

(** A Go [[]byte] that views a mapped file: [s_len] bytes from [s_off]. *)
Record slice := mkSlice { s_file : nat; s_off : Z; s_len : Z }.
#[export] Instance slice_eq_dec : EqDecision slice.
Proof. solve_decision. Defined.

Inductive epoll_op := EPOLL_CTL_ADD | EPOLL_CTL_DEL.

(** One control message of a datagram ([syscall.SocketControlMessage]): level,
    type, and its data read as 32-bit integers. *)
Record cmsg := mkCmsg { cm_level : Z; cm_type : Z; cm_data : list Z }.

(** What one [recvmsg] delivers: the byte count, the bytes, and the ancillary
    data as [syscall.ParseSocketControlMessage] reads it (an error when the
    kernel's bytes are malformed). *)
Record received := mkReceived {
  rcv_size : Z;
  rcv_data : list byte;
  rcv_control : result (list cmsg)
}.

Inductive syscall : Type -> Type :=
| SysWrite (fd : Z) (buf : list byte) : syscall (result Z)
| SysClose (fd : Z) : syscall (option errno)
| SysEventfd (initval flags : Z) : syscall (result Z)
| SysMemfdCreate (name : string) (flags : Z) : syscall (result Z)
| SysFcntl (fd cmd arg : Z) : syscall (option errno)
| SysFtruncate (fd size : Z) : syscall (option errno)
| SysMmap (fd length : Z) : syscall (result slice)
| SysMunmap (data : slice) : syscall (option errno)
| SysEpollCreate : syscall (result Z)
| SysEpollCtl (epfd : Z) (op : epoll_op) (fd : Z) : syscall (option errno)
| SysSocket : syscall (result Z)
| SysSetPasscred (fd : Z) : syscall (option errno)
| SysBind (fd : Z) (name : list byte) : syscall (option errno)
| SysListen (fd : Z) : syscall (option errno)
| SysConnect (fd : Z) (name : list byte) : syscall (option errno)
| SysAccept (fd : Z) : syscall (result Z)
| SysSendmsg (fd : Z) (buf : list byte) (len : Z) (right : option Z) : syscall (option errno)
| SysRecvmsg (fd : Z) : syscall (result received)
| SysRemove (name : list byte) : syscall (option errno)
| SysWgWait (wg : nat) : syscall bool.

(** ** The effect monad *)

(** Go run-time panics the modelled code can raise. *)
Inductive panic :=
| IndexOutOfRange
| SliceOutOfRange
| NilDereference
| CloseOfClosedChannel.

Inductive prog (A : Type) : Type :=
| Ret (a : A)
| Panic (e : panic)
| Load (f : nat) (o n : Z) (k : list byte -> prog A)
| Store (f : nat) (o : Z) (bs : list byte) (k : prog A)
| Sys (X : Type) (c : syscall X) (k : X -> prog A)
| Block.
Arguments Ret {A} a.
Arguments Panic {A} e.
Arguments Load {A} f o n k.
Arguments Store {A} f o bs k.
Arguments Sys {A X} c k.
Arguments Block {A}.

#[export] Instance prog_ret : MRet prog := fun A => Ret.
#[export] Instance prog_bind : MBind prog :=
  fun A B f => fix go (p : prog A) : prog B :=
    match p with
    | Ret a => f a
    | Panic e => Panic e
    | Load g o n k => Load g o n (fun bs => go (k bs))
    | Store g o bs k => Store g o bs (go k)
    | Sys c k => Sys c (fun x => go (k x))
    | Block => Block
    end.

Definition load (f : nat) (o n : Z) : prog (list byte) := Load f o n Ret.
Definition store (f : nat) (o : Z) (bs : list byte) : prog unit := Store f o bs (Ret tt).
Definition syscall_ {X} (c : syscall X) : prog X := Sys c Ret.

(** [p.Wg.Wait()] *)
Definition wg_wait (wg : nat) : prog unit :=
  b ← syscall_ (SysWgWait wg); if (b : bool) then mret tt else Block.

(** [syscall.Mmap] and [syscall.Munmap] refuse an empty range themselves. *)
Definition Mmap (fd length : Z) : prog (result slice) :=
  if length <=? 0 then mret (inr EINVAL) else syscall_ (SysMmap fd length).

Definition Munmap (data : option slice) : prog (option errno) :=
  match data with
  | Some d => if s_len d =? 0 then mret (Some EINVAL) else syscall_ (SysMunmap d)
  | None => mret (Some EINVAL)
  end.

(** ** Running a program *)

(** The kernel: its own state and its answer to every call; a call may change
    the files ([ftruncate] gives a fresh file its size). *)
Class OS := {
  os_state : Type;
  sys : forall X, syscall X -> mem -> os_state -> X * mem * os_state
}.
Arguments sys {_ X} c m s.

(** Documented behaviour of [write(2)] on an eventfd: the mapped files are not
    touched.  What the data path relies on. *)
Class OSWrite (os : OS) := {
  sys_write_mem : forall fd bs m s, snd (fst (sys (SysWrite fd bs) m s)) = m
}.

Record world `{OS} := mkWorld { shm : mem; kernel : os_state }.
Arguments mkWorld {_} shm kernel.

(** [Faulted]: an access left its file (possible only through [unsafe]).
    [Blocked w]: the goroutine waits for ever, from [w] on. *)
Inductive outcome `{OS} (A : Type) : Type :=
| Done (a : A) (w : world)
| Panicked (e : panic)
| Faulted
| Blocked (w : world).
Arguments Done {_ A} a w.
Arguments Panicked {_ A} e.
Arguments Faulted {_ A}.
Arguments Blocked {_ A} w.

Section run.
Context `{OS} `{Perm}.

Fixpoint run {A} (p : prog A) (w : world) : outcome A :=
  match p with
  | Ret a => Done a w
  | Panic e => Panicked e
  | Load f o n k =>
      match ld (shm w) f o n with
      | Some bs => run (k bs) w
      | None => Faulted
      end
  | Store f o bs k =>
      match st (shm w) f o bs with
      | Some m => run k (mkWorld m (kernel w))
      | None => Faulted
      end
  | Sys c k =>
      let '(x, m, s) := sys c (shm w) (kernel w) in run (k x) (mkWorld m s)
  | Block => Blocked w
  end.

(** Sequencing on outcomes; [run] is a monad morphism. *)
Definition obind {A B} (r : outcome A) (k : A -> world -> outcome B) : outcome B :=
  match r with
  | Done a w => k a w
  | Panicked e => Panicked e
  | Faulted => Faulted
  | Blocked w => Blocked w
  end.

Lemma run_bind {A B} (p : prog A) (k : A -> prog B) w :
  run (p ≫= k) w = obind (run p w) (fun a w' => run (k a) w').
Proof.
  revert w. induction p as [a|e|f o n c IH|f o bs c IH|X c kk IH|]; intros w; cbn; try done.
  - destruct (ld (shm w) f o n); [apply IH|done].
  - destruct (st (shm w) f o bs); [apply IH|done].
  - destruct (sys c (shm w) (kernel w)) as [[x m] s]. apply IH.
Qed.

(** Total correctness: the program returns, and the result satisfies [Q]. *)
Definition wp {A} (p : prog A) (w : world) (Q : A -> world -> Prop) : Prop :=
  match run p w with
  | Done a w' => Q a w'
  | Panicked _ | Faulted | Blocked _ => False
  end.

Lemma wp_ret {A} (a : A) w (Q : A -> world -> Prop) : Q a w -> wp (mret a) w Q.
Proof. done. Qed.

Lemma wp_bind {A B} (p : prog A) (k : A -> prog B) w Q :
  wp p w (fun a w' => wp (k a) w' Q) -> wp (p ≫= k) w Q.
Proof.
  unfold wp. rewrite run_bind. by destruct (run p w).
Qed.

Lemma wp_mono {A} (p : prog A) w (Q R : A -> world -> Prop) :
  wp p w Q -> (forall a w', Q a w' -> R a w') -> wp p w R.
Proof. unfold wp. destruct (run p w); [|done..]. intros HQ HR. by apply HR. Qed.

Lemma wp_load f o n bs w Q :
  ld (shm w) f o n = Some bs -> Q bs w -> wp (load f o n) w Q.
Proof. intros Hl HQ. unfold wp, load. cbn. by rewrite Hl. Qed.

Lemma wp_store f o bs m w Q :
  st (shm w) f o bs = Some m -> Q tt (mkWorld m (kernel w)) -> wp (store f o bs) w Q.
Proof. intros Hs HQ. unfold wp, store. cbn. by rewrite Hs. Qed.

Lemma wp_done {A} (p : prog A) w Q :
  wp p w Q <-> exists a w', run p w = Done a w' /\ Q a w'.
Proof.
  unfold wp. destruct (run p w) as [a w'|e| |w']; split; try done; try (by intros (?&?&?&?)).
  - eauto.
  - by intros (?&?&[= -> ->]&?).
Qed.
End run.

(** ** Slices of shared memory *)

(** [s[lo:hi]] on a slice whose capacity is its length. *)
Definition reslice (s : slice) (lo hi : Z) : prog slice :=
  if (0 <=? lo) && (lo <=? hi) && (hi <=? s_len s)
  then mret (mkSlice (s_file s) (s_off s + lo) (hi - lo))
  else Panic SliceOutOfRange.

(** [copy(dst, s)] out of shared memory; a zero-byte copy touches nothing. *)
Definition copy_from (dst : list byte) (s : slice) : prog (list byte) :=
  let n := Z.min (zlen dst) (s_len s) in
  if n =? 0 then mret dst
  else bs ← load (s_file s) (s_off s) n; mret (go_copy dst bs).

(** [n := copy(s, src)] into shared memory. *)
Definition copy_to (s : slice) (src : list byte) : prog Z :=
  let n := Z.min (s_len s) (zlen src) in
  if n =? 0 then mret 0
  else store (s_file s) (s_off s) (sub 0 n src) ;; mret n.

(** [*( *uint16)(unsafe.Pointer(&s[i]))]: bounds-checked on the first byte
    only, as in Go; the second byte is covered by no check. *)
Definition unsafe_load16 (s : slice) (i : Z) : prog Z :=
  if (0 <=? i) && (i <? s_len s)
  then bs ← load (s_file s) (s_off s + i) 2; mret (unle bs)
  else Panic IndexOutOfRange.

(** The store counterpart; the value's low 16 bits are written (little-endian
    host). *)
Definition unsafe_store16 (s : slice) (i v : Z) : prog unit :=
  if (0 <=? i) && (i <? s_len s)
  then store (s_file s) (s_off s + i) (le16 v)
  else Panic IndexOutOfRange.

Section slices.
Context `{OS} `{Perm}.

Lemma wp_reslice s lo hi w Q :
  0 <= lo <= hi -> hi <= s_len s ->
  Q (mkSlice (s_file s) (s_off s + lo) (hi - lo)) w -> wp (reslice s lo hi) w Q.
Proof. intros. unfold reslice. rewrite !(proj2 (Z.leb_le _ _)) by lia. done. Qed.

Lemma wp_copy_from dst s bs w (Q : list byte -> world -> Prop) :
  ld (shm w) (s_file s) (s_off s) (Z.min (zlen dst) (s_len s)) = Some bs ->
  Q (go_copy dst bs) w -> wp (copy_from dst s) w Q.
Proof.
  intros Hl HQ. unfold copy_from. cbv zeta. case_bool.
  - zbool. rewrite E in Hl. apply ld_zlen, zlen_nil_inv in Hl. subst bs.
    unfold go_copy in HQ. rewrite take_nil in HQ. exact HQ.
  - apply wp_bind. by eapply wp_load; [done|].
Qed.

Lemma wp_copy_to s src m w (Q : Z -> world -> Prop) :
  let n := Z.min (s_len s) (zlen src) in
  st (shm w) (s_file s) (s_off s) (sub 0 n src) = Some m ->
  Q n (mkWorld m (kernel w)) -> wp (copy_to s src) w Q.
Proof.
  intros n Hs HQ. unfold copy_to. fold n. case_bool.
  - zbool. rewrite E in Hs, HQ. rewrite sub_nil_len in Hs.
    apply st_Some in Hs as (file & Hf & ? & ? & ? & Hm).
    assert (m = shm w) as ->.
    { subst m. apply map_eq. intros i. rewrite lookup_insert. case_decide; [|done].
      subst. rewrite Hf. f_equal. unfold splice. rewrite Z.add_0_r. apply take_drop. }
    by destruct w.
  - apply wp_bind. eapply wp_store; [done|]. done.
Qed.

Lemma wp_unsafe_load16 s i bs w (Q : Z -> world -> Prop) :
  0 <= i < s_len s -> ld (shm w) (s_file s) (s_off s + i) 2 = Some bs ->
  Q (unle bs) w -> wp (unsafe_load16 s i) w Q.
Proof.
  intros ? Hl HQ. unfold unsafe_load16.
  rewrite (proj2 (Z.leb_le _ _)), (proj2 (Z.ltb_lt _ _)) by lia.
  apply wp_bind. by eapply wp_load.
Qed.

Lemma wp_unsafe_store16 s i v m w (Q : unit -> world -> Prop) :
  0 <= i < s_len s -> st (shm w) (s_file s) (s_off s + i) (le16 v) = Some m ->
  Q tt (mkWorld m (kernel w)) -> wp (unsafe_store16 s i v) w Q.
Proof.
  intros ? Hl HQ. unfold unsafe_store16.
  rewrite (proj2 (Z.leb_le _ _)), (proj2 (Z.ltb_lt _ _)) by lia.
  by eapply wp_store.
Qed.
End slices.
