(* ===== verification/Descriptor.v ===== *)
(** * Packet descriptors (descriptor.go)

    A descriptor is 16 bytes of shared memory: flags (u16), region (u16),
    length (u32), offset (u32), metadata (u32).  [descBuf] is the private copy
    the queue operations work on.  [newDescBuf] is the only place one is made
    and no operation changes its length ([descBuf_wf]), so the slice
    expressions of the accessors are always in range. *)
From stdpp Require Import base tactics list.
From coqutil Require Import Byte.
From Stdlib Require Import ZArith Lia.
From S2P Require Import Prelude.
From S2P Require Import GoInt.

Definition descSize : Z := 16.
Definition descFlagNext : Z := Z.shiftl 1 0.

Definition descFlagsOffset : Z := 0.
Definition descRegionOffset : Z := 2.
Definition descLengthOffset : Z := 4.
Definition descOffsetOffset : Z := 8.
Definition descMetadataOffset : Z := 12.

Definition descBuf := list byte.

Definition newDescBuf : descBuf := zeros descSize.

Module Desc.
Definition getFlags (db : descBuf) : Z := get16 descFlagsOffset db.
Definition getRegion (db : descBuf) : Z := get16 descRegionOffset db.
Definition getLength (db : descBuf) : Z := get32 descLengthOffset db.
Definition getOffset (db : descBuf) : Z := get32 descOffsetOffset db.
Definition getMetadata (db : descBuf) : Z := get32 descMetadataOffset db.

Definition setFlags (val : Z) (db : descBuf) : descBuf := put16 descFlagsOffset (u16 val) db.
Definition setRegion (val : Z) (db : descBuf) : descBuf := put16 descRegionOffset (u16 val) db.
Definition setLength (val : Z) (db : descBuf) : descBuf := put32 descLengthOffset (u32 val) db.
Definition setOffset (val : Z) (db : descBuf) : descBuf := put32 descOffsetOffset (u32 val) db.
Definition setMetadata (val : Z) (db : descBuf) : descBuf := put32 descMetadataOffset (u32 val) db.
End Desc.

Definition descBuf_wf (db : descBuf) : Prop := zlen db = descSize.

(** The five fields as one value: what a descriptor means. *)
Record descriptor := mkDesc {
  d_flags : Z; d_region : Z; d_length : Z; d_offset : Z; d_metadata : Z
}.

Definition decode_desc (db : descBuf) : descriptor :=
  mkDesc (Desc.getFlags db) (Desc.getRegion db) (Desc.getLength db)
         (Desc.getOffset db) (Desc.getMetadata db).

Definition encode_desc (d : descriptor) : descBuf :=
  Desc.setMetadata (d_metadata d) (Desc.setOffset (d_offset d) (Desc.setLength (d_length d)
    (Desc.setRegion (d_region d) (Desc.setFlags (d_flags d) newDescBuf)))).

(** The value a field has room for. *)
Definition desc_in_range (d : descriptor) : Prop :=
  0 <= d_flags d < 65536 /\ 0 <= d_region d < 65536 /\
  0 <= d_length d < 4294967296 /\ 0 <= d_offset d < 4294967296 /\
  0 <= d_metadata d < 4294967296.

(** ** Lemmas *)

Ltac desc_unfold :=
  unfold Desc.setFlags, Desc.setRegion, Desc.setLength, Desc.setOffset, Desc.setMetadata,
    Desc.getFlags, Desc.getRegion, Desc.getLength, Desc.getOffset, Desc.getMetadata,
    descFlagsOffset, descRegionOffset, descLengthOffset, descOffsetOffset,
    descMetadataOffset, descBuf_wf, descSize in *.

Lemma newDescBuf_wf : descBuf_wf newDescBuf.
Proof. done. Qed.

Section fields.
Context (db : descBuf) (Hwf : descBuf_wf db).

(** One tactic for the whole field table: a read of the written field gives
    the value at the field's width, a read of another field is unchanged. *)
Ltac field :=
  desc_unfold; unfold get16, get32;
  first
    [ rewrite zlen_put16 by lia; done | rewrite zlen_put32 by lia; done
    | rewrite sub_put16 by lia; done | rewrite sub_put32 by lia; done
    | change (unle (sub ?o 2 (put16 ?o ?v ?b))) with (get16 o (put16 o v b));
      rewrite get16_put16 by lia; apply u16_u16
    | change (unle (sub ?o 4 (put32 ?o ?v ?b))) with (get32 o (put32 o v b));
      rewrite get32_put32 by lia; apply u32_small, u32_range ].

Lemma setFlags_wf v : descBuf_wf (Desc.setFlags v db). Proof using Hwf. field. Qed.
Lemma setRegion_wf v : descBuf_wf (Desc.setRegion v db). Proof using Hwf. field. Qed.
Lemma setLength_wf v : descBuf_wf (Desc.setLength v db). Proof using Hwf. field. Qed.
Lemma setOffset_wf v : descBuf_wf (Desc.setOffset v db). Proof using Hwf. field. Qed.
Lemma setMetadata_wf v : descBuf_wf (Desc.setMetadata v db). Proof using Hwf. field. Qed.

Lemma decode_setFlags v :
  decode_desc (Desc.setFlags v db) =
  let D := decode_desc db in
  mkDesc (u16 v) (d_region D) (d_length D) (d_offset D) (d_metadata D).
Proof using Hwf. unfold decode_desc; f_equal; field. Qed.
Lemma decode_setRegion v :
  decode_desc (Desc.setRegion v db) =
  let D := decode_desc db in
  mkDesc (d_flags D) (u16 v) (d_length D) (d_offset D) (d_metadata D).
Proof using Hwf. unfold decode_desc; f_equal; field. Qed.
Lemma decode_setLength v :
  decode_desc (Desc.setLength v db) =
  let D := decode_desc db in
  mkDesc (d_flags D) (d_region D) (u32 v) (d_offset D) (d_metadata D).
Proof using Hwf. unfold decode_desc; f_equal; field. Qed.
Lemma decode_setOffset v :
  decode_desc (Desc.setOffset v db) =
  let D := decode_desc db in
  mkDesc (d_flags D) (d_region D) (d_length D) (u32 v) (d_metadata D).
Proof using Hwf. unfold decode_desc; f_equal; field. Qed.
Lemma decode_setMetadata v :
  decode_desc (Desc.setMetadata v db) =
  let D := decode_desc db in
  mkDesc (d_flags D) (d_region D) (d_length D) (d_offset D) (u32 v).
Proof using Hwf. unfold decode_desc; f_equal; field. Qed.

Lemma decode_desc_in_range : desc_in_range (decode_desc db).
Proof using Hwf.
  unfold decode_desc, desc_in_range; desc_unfold; simpl.
  repeat split; first [apply get16_range; lia | apply get32_range; lia].
Qed.
End fields.

Create HintDb desc.

(** Rewrites a getter of a chain of setters to the value it reads. *)
Ltac desc_get :=
  repeat match goal with
  | |- context [Desc.getFlags ?b] => change (Desc.getFlags b) with (d_flags (decode_desc b))
  | |- context [Desc.getRegion ?b] => change (Desc.getRegion b) with (d_region (decode_desc b))
  | |- context [Desc.getLength ?b] => change (Desc.getLength b) with (d_length (decode_desc b))
  | |- context [Desc.getOffset ?b] => change (Desc.getOffset b) with (d_offset (decode_desc b))
  end;
  repeat first
    [ rewrite decode_setFlags by auto 10 with desc
    | rewrite decode_setLength by auto 10 with desc
    | rewrite decode_setOffset by auto 10 with desc
    | rewrite decode_setRegion by auto 10 with desc
    | progress cbv zeta | progress cbn [d_flags d_region d_length d_offset d_metadata] ].

#[export] Hint Resolve newDescBuf_wf setFlags_wf setRegion_wf setLength_wf setOffset_wf
  setMetadata_wf decode_desc_in_range : desc.

(** Two 16-byte buffers with the same fields are the same bytes. *)
Lemma decode_desc_inj a b :
  descBuf_wf a -> descBuf_wf b -> decode_desc a = decode_desc b -> a = b.
Proof.
  desc_unfold. intros Ha Hb [= Hf Hr Hl Ho Hm]. unfold get16, get32 in *.
  assert (Hsplit : forall c : list byte, zlen c = 16 ->
    c = sub 0 2 c ++ sub 2 2 c ++ sub 4 4 c ++ sub 8 4 c ++ sub 12 4 c).
  { intros c Hc. rewrite (sub_app_split 8 4 4), (sub_app_split 4 4 8), (sub_app_split 2 2 12),
      (sub_app_split 0 2 14) by lia. change (2 + 14) with 16. by rewrite <- Hc, sub_full. }
  assert (Hinj : forall o n, 0 <= o -> 0 <= n -> o + n <= 16 ->
    unle (sub o n a) = unle (sub o n b) -> sub o n a = sub o n b).
  { intros o n ??? He. apply LittleEndianList.le_combine_inj; [|done].
    rewrite !length_sub by lia. done. }
  rewrite (Hsplit a Ha), (Hsplit b Hb).
  rewrite (Hinj 0 2), (Hinj 2 2), (Hinj 4 4), (Hinj 8 4), (Hinj 12 4) by first [lia | done].
  done.
Qed.

(** Every field written at its own offset of a fresh buffer. *)
Lemma encode_desc_bytes d :
  encode_desc d = le16 (u16 (d_flags d)) ++ le16 (u16 (d_region d)) ++
    le32 (u32 (d_length d)) ++ le32 (u32 (d_offset d)) ++ le32 (u32 (d_metadata d)).
Proof. reflexivity. Qed.

Lemma decode_encode_desc d : desc_in_range d -> decode_desc (encode_desc d) = d.
Proof.
  intros (?&?&?&?&?). rewrite encode_desc_bytes.
  transitivity (mkDesc (unle (le16 (u16 (d_flags d)))) (unle (le16 (u16 (d_region d))))
    (unle (le32 (u32 (d_length d)))) (unle (le32 (u32 (d_offset d))))
    (unle (le32 (u32 (d_metadata d))))); [reflexivity|].
  rewrite !unle_le16, !unle_le32, !u16_small, !u32_small by
    (rewrite ?u16_small, ?u32_small by lia; lia).
  by destruct d.
Qed.

Lemma encode_decode_desc db : descBuf_wf db -> encode_desc (decode_desc db) = db.
Proof.
  intros Hwf. apply decode_desc_inj; [by rewrite encode_desc_bytes|done|].
  by apply decode_encode_desc, decode_desc_in_range.
Qed.
