(* ===== verification/State.v ===== *)
(** * The driver's data (main.go, ring.go, queue.go, mem_region.go)

    Go structs as records, field for field.  Pointers between long-lived objects
    ([*Port], [*controlChannel]) are object numbers; a [*ring] is owned by one
    queue (queue copies share it, but only to be read or to have [rb] refreshed
    through the stored queue), so the ring is a field of its queue.  Go strings
    are byte strings. *)
From stdpp Require Import base tactics list strings.
From coqutil Require Import Byte.
From Stdlib Require Import ZArith Lia.
From S2P Require Import Prelude.
From S2P Require Import GoInt.
From S2P Require Import Shm.

Definition gostring := list byte.

(** Go [error] values: a literal message, a failed system call's errno, a
    message wrapped around another error ([fmt.Errorf("msg: %s", err)]), or
    [fmt.Errorf(err.Error(), ": Failed to close control channel: ", err1)], whose
    format has no verbs for its two arguments. *)
Inductive goerror :=
| Err (msg : string)
| ErrErrno (e : errno)
| Wrap (msg : string) (e : goerror)
| ErrExtra (e e1 : goerror).
#[export] Instance goerror_eq_dec : EqDecision goerror.
Proof. solve_decision. Defined.

(** main.go *)
Definition DefaultNumQueuePairs : Z := 1.
Definition DefaultLog2RingSize : Z := 10.
Definition DefaultPacketBufferSize : Z := 2048.

(** [portMode] is a [uint8]: any byte may arrive from the wire. *)
Definition portMode : Type := Z.
Definition portModeEthernet : portMode := 0.
Definition portModeIp : portMode := 1.
Definition portModePuntInject : portMode := 2.

Record MemoryConfig := mkMemoryConfig {
  NumQueuePairs : Z;     (* uint16 *)
  Log2RingSize : Z;      (* uint8 *)
  PacketBufferSize : Z   (* uint32 *)
}.
#[export] Instance MemoryConfig_eq_dec : EqDecision MemoryConfig.
Proof. solve_decision. Defined.

(** A [ConnectedFunc]/[DisconnectedFunc] value: nil, the user's function number
    [n], or [defaultDisconnectedFunc]. *)
Inductive callback := NilFunc | UserFunc (n : nat) | DefaultDisconnectedFunc.
#[export] Instance callback_eq_dec : EqDecision callback.
Proof. solve_decision. Defined.

Record PortCfg := mkPortCfg {
  Id : Z;                       (* uint32 *)
  IsServer : bool;
  Name : gostring;
  Secret : list byte;           (* [24]byte *)
  cfg_MemoryConfig : MemoryConfig;
  ConnectedFunc : callback;
  DisconnectedFunc : callback;
  cfg_ExtendData : option nat   (* interface{}: nil or an opaque value *)
}.

(** mem_region.go; [data] is nil until the file is mapped. *)
Record memoryRegion := mkRegion {
  data : option slice;
  rsize : Z;                    (* uint64 *)
  fd : Z;
  packetBufferOffset : Z        (* uint32 *)
}.

(** ring.go *)
Inductive ringType := ringTypeS2M | ringTypeM2S.
#[export] Instance ringType_eq_dec : EqDecision ringType.
Proof. solve_decision. Defined.

Definition ringBuf := list byte.

Record ring := mkRing {
  rg_type : ringType;
  rg_size : Z;
  rg_log2Size : Z;
  rg_region : Z;
  rb : ringBuf;
  rg_offset : Z
}.

(** queue.go *)
Record Queue := mkQueue {
  q_ring : ring;
  q_port : nat;
  lastHead : Z;                 (* uint16 *)
  lastTail : Z;                 (* uint16 *)
  interruptFd : Z
}.

(** main.go.  [listRef] is the port's element of its socket's list: the port
    number itself.  The two channels carry no data the driver reads: only
    whether they are closed matters. *)
Record Port := mkPort {
  cfg : PortCfg;
  run_ : MemoryConfig;
  ExtendData : option nat;
  p_cc : option nat;            (* *controlChannel *)
  remoteName : gostring;
  peerName : gostring;
  regions : list memoryRegion;
  txQueues : list Queue;
  rxQueues : list Queue;
  ErrChan_closed : bool;
  QuitChan_closed : bool
}.

(** ** Functional field updates *)

Definition set_lastHead (v : Z) (q : Queue) : Queue :=
  mkQueue (q_ring q) (q_port q) v (lastTail q) (interruptFd q).
Definition set_lastTail (v : Z) (q : Queue) : Queue :=
  mkQueue (q_ring q) (q_port q) (lastHead q) v (interruptFd q).
Definition set_rb (b : ringBuf) (r : ring) : ring :=
  mkRing (rg_type r) (rg_size r) (rg_log2Size r) (rg_region r) b (rg_offset r).
Definition set_ring (r : ring) (q : Queue) : Queue :=
  mkQueue r (q_port q) (lastHead q) (lastTail q) (interruptFd q).

Definition set_run (v : MemoryConfig) (p : Port) : Port :=
  mkPort (cfg p) v (ExtendData p) (p_cc p) (remoteName p) (peerName p) (regions p)
    (txQueues p) (rxQueues p) (ErrChan_closed p) (QuitChan_closed p).
Definition set_cc (v : option nat) (p : Port) : Port :=
  mkPort (cfg p) (run_ p) (ExtendData p) v (remoteName p) (peerName p) (regions p)
    (txQueues p) (rxQueues p) (ErrChan_closed p) (QuitChan_closed p).
Definition set_remoteName (v : gostring) (p : Port) : Port :=
  mkPort (cfg p) (run_ p) (ExtendData p) (p_cc p) v (peerName p) (regions p)
    (txQueues p) (rxQueues p) (ErrChan_closed p) (QuitChan_closed p).
Definition set_peerName (v : gostring) (p : Port) : Port :=
  mkPort (cfg p) (run_ p) (ExtendData p) (p_cc p) (remoteName p) v (regions p)
    (txQueues p) (rxQueues p) (ErrChan_closed p) (QuitChan_closed p).
Definition set_regions (v : list memoryRegion) (p : Port) : Port :=
  mkPort (cfg p) (run_ p) (ExtendData p) (p_cc p) (remoteName p) (peerName p) v
    (txQueues p) (rxQueues p) (ErrChan_closed p) (QuitChan_closed p).
Definition set_txQueues (v : list Queue) (p : Port) : Port :=
  mkPort (cfg p) (run_ p) (ExtendData p) (p_cc p) (remoteName p) (peerName p) (regions p)
    v (rxQueues p) (ErrChan_closed p) (QuitChan_closed p).
Definition set_rxQueues (v : list Queue) (p : Port) : Port :=
  mkPort (cfg p) (run_ p) (ExtendData p) (p_cc p) (remoteName p) (peerName p) (regions p)
    (txQueues p) v (ErrChan_closed p) (QuitChan_closed p).
Definition set_chans_closed (e q : bool) (p : Port) : Port :=
  mkPort (cfg p) (run_ p) (ExtendData p) (p_cc p) (remoteName p) (peerName p) (regions p)
    (txQueues p) (rxQueues p) e q.
