(* ===== verification/Ring.v ===== *)
(** * Rings (ring.go)

    A ring is a 128-byte header in shared memory (cookie, flags, head, tail)
    followed by [size] descriptors.  [newRing] is the server's constructor (from
    an add-ring message), [Port_newRing] the client's, which also lays the rings
    out one after the other.  [rb] is a private copy of the header. *)
From stdpp Require Import base tactics list strings.
From coqutil Require Import Byte.
From Stdlib Require Import ZArith Lia.
From S2P Require Import Prelude.
From S2P Require Import GoInt.
From S2P Require Import Shm.
From S2P Require Import Descriptor.
From S2P Require Import State.

Definition ringSize : Z := 128.
Definition ringFlagInterrupt : Z := 0.
Definition ringCookieOffset : Z := 0.
Definition ringFlagsOffset : Z := 4.
Definition ringHeadOffset : Z := 6.
Definition ringTailOffset : Z := 64.

(** [newRing(regionIndex, ringType, ringOffset, log2RingSize)]: the region field
    is left at its zero value, whatever [regionIndex] is. *)
Definition newRing (regionIndex : Z) (t : ringType) (ringOffset log2RingSize : Z) : ring :=
  mkRing t (int_shl1 log2RingSize) log2RingSize 0 (zeros ringSize) ringOffset.

(** [(p *Port).newRing(regionIndex, ringType, ringIndex)]. *)
Definition Port_newRing (p : Port) (regionIndex : Z) (t : ringType) (ringIndex : Z) : ring :=
  let size := int_shl1 (Log2RingSize (run_ p)) in
  let rSize := int64 (ringSize + descSize * size) in
  let base := match t with
              | ringTypeS2M => 0
              | ringTypeM2S => int64 (NumQueuePairs (run_ p) * rSize)
              end in
  mkRing t size (Log2RingSize (run_ p)) 0 (zeros ringSize) (int64 (base + int64 (ringIndex * rSize))).

Module RingBuf.
Definition getCookie (r : ring) : Z := get32 ringCookieOffset (rb r).
Definition getFlags (r : ring) : Z := get16 ringFlagsOffset (rb r).
Definition getHead (r : ring) : Z := get16 ringHeadOffset (rb r).
Definition getTail (r : ring) : Z := get16 ringTailOffset (rb r).
Definition setCookie (val : Z) (r : ring) : ring := set_rb (put32 ringCookieOffset (u32 val) (rb r)) r.
Definition setFlags (val : Z) (r : ring) : ring := set_rb (put16 ringFlagsOffset (u16 val) (rb r)) r.
Definition setHead (val : Z) (r : ring) : ring := set_rb (put16 ringHeadOffset (u16 val) (rb r)) r.
Definition setTail (val : Z) (r : ring) : ring := set_rb (put16 ringTailOffset (u16 val) (rb r)) r.
End RingBuf.

Definition ringBuf_wf (r : ring) : Prop := zlen (rb r) = ringSize.

(** The header's fields. *)
Record ringHeader := mkHeader { h_cookie : Z; h_flags : Z; h_head : Z; h_tail : Z }.

Definition decode_header (r : ring) : ringHeader :=
  mkHeader (RingBuf.getCookie r) (RingBuf.getFlags r) (RingBuf.getHead r) (RingBuf.getTail r).

(** ** Lemmas *)

Section header.
Context (r : ring) (Hwf : ringBuf_wf r).

Ltac field :=
  unfold ringBuf_wf, decode_header, RingBuf.getCookie, RingBuf.getFlags, RingBuf.getHead,
    RingBuf.getTail, RingBuf.setCookie, RingBuf.setFlags, RingBuf.setHead, RingBuf.setTail,
    ringCookieOffset, ringFlagsOffset, ringHeadOffset, ringTailOffset, ringSize, set_rb in *;
  simpl; try f_equal;
  first
    [ by rewrite ?zlen_put16, ?zlen_put32 by lia
    | rewrite get16_put16 by lia; apply u16_u16
    | rewrite get32_put32 by lia; apply u32_small, u32_range
    | unfold get16, get32; first [rewrite sub_put16 by lia | rewrite sub_put32 by lia]; done ].

Lemma setCookie_wf v : ringBuf_wf (RingBuf.setCookie v r). Proof using Hwf. field. Qed.
Lemma ring_setFlags_wf v : ringBuf_wf (RingBuf.setFlags v r). Proof using Hwf. field. Qed.
Lemma setHead_wf v : ringBuf_wf (RingBuf.setHead v r). Proof using Hwf. field. Qed.
Lemma setTail_wf v : ringBuf_wf (RingBuf.setTail v r). Proof using Hwf. field. Qed.

Lemma decode_setCookie v :
  decode_header (RingBuf.setCookie v r) =
  mkHeader (u32 v) (RingBuf.getFlags r) (RingBuf.getHead r) (RingBuf.getTail r).
Proof using Hwf. field. Qed.
Lemma decode_ring_setFlags v :
  decode_header (RingBuf.setFlags v r) =
  mkHeader (RingBuf.getCookie r) (u16 v) (RingBuf.getHead r) (RingBuf.getTail r).
Proof using Hwf. field. Qed.
Lemma decode_setHead v :
  decode_header (RingBuf.setHead v r) =
  mkHeader (RingBuf.getCookie r) (RingBuf.getFlags r) (u16 v) (RingBuf.getTail r).
Proof using Hwf. field. Qed.
Lemma decode_setTail v :
  decode_header (RingBuf.setTail v r) =
  mkHeader (RingBuf.getCookie r) (RingBuf.getFlags r) (RingBuf.getHead r) (u16 v).
Proof using Hwf. field. Qed.
End header.

Lemma newRing_wf i t o l : ringBuf_wf (newRing i t o l).
Proof. done. Qed.
Lemma Port_newRing_wf p i t k : ringBuf_wf (Port_newRing p i t k).
Proof. done. Qed.

#[export] Hint Resolve newRing_wf Port_newRing_wf setCookie_wf ring_setFlags_wf setHead_wf
  setTail_wf : desc.
