(* ===== verification/Queue.v ===== *)
(** * Queues (queue.go, and the ring and descriptor copies of ring.go and descriptor.go)

    The methods of [Queue] that touch shared memory directly.  [p] is the port
    [q.port] points to. *)
From stdpp Require Import base tactics list strings.
From coqutil Require Import Byte.
From Stdlib Require Import ZArith Lia.
From S2P Require Import Prelude.
From S2P Require Import GoInt.
From S2P Require Import Shm.
From S2P Require Import Descriptor.
From S2P Require Import State.
From S2P Require Import Ring.

(** A nil [data] has length 0. *)
Definition nil_slice : slice := mkSlice 0 0 0.

(** [p.regions[r].data] *)
Definition region_data (p : Port) (r : Z) : prog slice :=
  if r <? 0 then Panic IndexOutOfRange
  else match regions p !! Z.to_nat r with
       | Some reg => mret (default nil_slice (data reg))
       | None => Panic IndexOutOfRange
       end.

(** [p.regions[q.ring.region].data[q.ring.offset+start:]] *)
Definition ring_data_from (p : Port) (q : Queue) (start : Z) : prog slice :=
  d ← region_data p (rg_region (q_ring q));
  reslice d (rg_offset (q_ring q) + start) (s_len d).

(** ** descriptor.go *)

Definition getDescBuf (p : Port) (q : Queue) (slot : Z) (db : descBuf) : prog descBuf :=
  s ← ring_data_from p q (ringSize + slot * descSize);
  copy_from db s.

Definition putDescBuf (p : Port) (q : Queue) (slot : Z) (db : descBuf) : prog unit :=
  s ← ring_data_from p q (ringSize + slot * descSize);
  copy_to s db ;; mret tt.

(** ** ring.go *)

Definition putRing (p : Port) (q : Queue) : prog unit :=
  s ← ring_data_from p q 0;
  copy_to s (rb (q_ring q)) ;; mret tt.

(** The refreshed header replaces the queue's [rb]. *)
Definition updateRing (p : Port) (q : Queue) : prog Queue :=
  s ← ring_data_from p q 0;
  b ← copy_from (rb (q_ring q)) s;
  mret (set_ring (set_rb b (q_ring q)) q).

(** ** queue.go *)

Definition readHead (p : Port) (q : Queue) : prog Z :=
  d ← region_data p (rg_region (q_ring q));
  unsafe_load16 d (rg_offset (q_ring q) + ringHeadOffset).

Definition readTail (p : Port) (q : Queue) : prog Z :=
  d ← region_data p (rg_region (q_ring q));
  unsafe_load16 d (rg_offset (q_ring q) + ringTailOffset).

Definition writeHead (p : Port) (q : Queue) (value : Z) : prog unit :=
  d ← region_data p (rg_region (q_ring q));
  unsafe_store16 d (rg_offset (q_ring q) + ringHeadOffset) value.

Definition writeTail (p : Port) (q : Queue) (value : Z) : prog unit :=
  d ← region_data p (rg_region (q_ring q));
  unsafe_store16 d (rg_offset (q_ring q) + ringTailOffset) value.

(** Two bytes are written, although the length field has four. *)
Definition setDescLength (p : Port) (q : Queue) (slot length : Z) : prog unit :=
  d ← region_data p (rg_region (q_ring q));
  unsafe_store16 d (rg_offset (q_ring q) + ringSize + slot * descSize + descLengthOffset) length.

Definition getFlags (p : Port) (q : Queue) : prog Z :=
  d ← region_data p (rg_region (q_ring q));
  unsafe_load16 d (rg_offset (q_ring q) + ringFlagsOffset).

Definition isInterrupt (p : Port) (q : Queue) : prog bool :=
  flags ← getFlags p q;
  mret (Z.land flags ringFlagInterrupt =? 0).

(** [binary.PutUvarint(make([]byte, 8), 1)]: the eventfd increment. *)
Definition one_buf : list byte := Byte.x01 :: zeros 7.

Definition interrupt (p : Port) (q : Queue) : prog (option goerror) :=
  b ← isInterrupt p q;
  if (b : bool) then
    r ← syscall_ (SysWrite (interruptFd q) one_buf);
    match r with
    | inr e => mret (Some (ErrErrno e))
    | inl n => if n =? 8 then mret None else mret (Some (Err "faild to write to eventfd"))
    end
  else mret None.

Definition GetEventFd (q : Queue) : Z * option goerror := (interruptFd q, None).

(** The answer of [close] is dropped. *)
Definition Queue_close (q : Queue) : prog unit := syscall_ (SysClose (interruptFd q)) ;; mret tt.

(** ** Where a queue's ring lives

    [ring_at p q d size]: the ring's region is mapped by the slice [d], and
    header and descriptors lie inside it. *)
Record ring_at (p : Port) (q : Queue) (d : slice) (n : Z) : Prop := {
  ra_region : 0 <= rg_region (q_ring q);
  ra_data : exists reg, regions p !! Z.to_nat (rg_region (q_ring q)) = Some reg /\ data reg = Some d;
  ra_off : 0 <= rg_offset (q_ring q);
  ra_len : rg_offset (q_ring q) + ringSize + n * descSize <= s_len d;
  ra_n : 0 <= n
}.

(** Absolute file offsets of the header and of descriptor [i]. *)
Definition hdr (q : Queue) (d : slice) : Z := s_off d + rg_offset (q_ring q).
Definition desc_addr (q : Queue) (d : slice) (i : Z) : Z := hdr q d + ringSize + i * descSize.

(** Layout arithmetic. *)
Ltac lay :=
  unfold desc_addr, hdr, ringSize, descSize, descLengthOffset, ringHeadOffset,
    ringTailOffset, ringFlagsOffset, ringCookieOffset in *; lia.

Section queue_ops.
Context `{OS} `{Perm} (p : Port) (q : Queue) (d : slice) (n : Z) (Hat : ring_at p q d n).
Implicit Type w : world.

Lemma wp_region_data r reg w (Q : slice -> world -> Prop) :
  0 <= r -> regions p !! Z.to_nat r = Some reg -> Q (default nil_slice (data reg)) w ->
  wp (region_data p r) w Q.
Proof using. intros Hr Hl HQ. unfold region_data. by rewrite (proj2 (Z.ltb_ge _ _)), Hl by lia. Qed.

Lemma wp_ring_region w (Q : slice -> world -> Prop) :
  Q d w -> wp (region_data p (rg_region (q_ring q))) w Q.
Proof using Hat.
  intros HQ. destruct (ra_data _ _ _ _ Hat) as (reg & Hl & Hd).
  eapply wp_region_data; [apply Hat|done|]. by rewrite Hd.
Qed.

Lemma wp_ring_data_from start w (Q : slice -> world -> Prop) :
  0 <= start <= ringSize + n * descSize ->
  Q (mkSlice (s_file d) (hdr q d + start) (s_len d - (rg_offset (q_ring q) + start))) w ->
  wp (ring_data_from p q start) w Q.
Proof using Hat.
  intros Hs HQ. destruct Hat. apply wp_bind, wp_ring_region.
  apply wp_reslice; [lay..|]. unfold hdr in HQ. by rewrite Z.add_assoc.
Qed.

Lemma wp_getDescBuf i bs db w (Q : descBuf -> world -> Prop) :
  0 <= i < n -> descBuf_wf db ->
  ld (shm w) (s_file d) (desc_addr q d i) descSize = Some bs -> Q bs w ->
  wp (getDescBuf p q i db) w Q.
Proof using Hat.
  intros Hi Hdb Hl HQ. pose proof (ra_len _ _ _ _ Hat). unfold descBuf_wf in *.
  apply wp_bind, wp_ring_data_from; [lay|].
  eapply wp_copy_from; simpl.
  - rewrite Hdb, Z.min_l by lay. rewrite <- Hl. f_equal; lay.
  - rewrite go_copy_same; [done|]. apply ld_zlen in Hl. lia.
Qed.

Lemma wp_putDescBuf i db m w (Q : unit -> world -> Prop) :
  0 <= i < n -> descBuf_wf db ->
  st (shm w) (s_file d) (desc_addr q d i) db = Some m -> Q tt (mkWorld m (kernel w)) ->
  wp (putDescBuf p q i db) w Q.
Proof using Hat.
  intros Hi Hdb Hl HQ. pose proof (ra_len _ _ _ _ Hat). unfold descBuf_wf in *.
  apply wp_bind, wp_ring_data_from; [lay|].
  apply wp_bind. eapply wp_copy_to; simpl; [|exact HQ].
  rewrite Hdb, Z.min_r by lay.
  replace (sub 0 descSize db) with db by (rewrite <- Hdb; by rewrite sub_full).
  rewrite <- Hl. f_equal; lay.
Qed.

(** A header field at byte [o]. *)
Lemma wp_hdr_load o bs w (Q : Z -> world -> Prop) :
  0 <= o -> o + 2 <= ringSize ->
  ld (shm w) (s_file d) (hdr q d + o) 2 = Some bs -> Q (unle bs) w ->
  wp (e ← region_data p (rg_region (q_ring q)); unsafe_load16 e (rg_offset (q_ring q) + o)) w Q.
Proof using Hat.
  intros ?? Hl HQ. destruct Hat. apply wp_bind, wp_ring_region.
  eapply wp_unsafe_load16; [lay| |done]. rewrite <- Hl. f_equal; lay.
Qed.

Lemma wp_hdr_store o v m w (Q : unit -> world -> Prop) :
  0 <= o -> o + 2 <= ringSize ->
  st (shm w) (s_file d) (hdr q d + o) (le16 v) = Some m -> Q tt (mkWorld m (kernel w)) ->
  wp (e ← region_data p (rg_region (q_ring q)); unsafe_store16 e (rg_offset (q_ring q) + o) v) w Q.
Proof using Hat.
  intros ?? Hl HQ. destruct Hat. apply wp_bind, wp_ring_region.
  eapply wp_unsafe_store16; [lay| |done]. rewrite <- Hl. f_equal; lay.
Qed.

Lemma wp_setDescLength i v m w (Q : unit -> world -> Prop) :
  0 <= i < n ->
  st (shm w) (s_file d) (desc_addr q d i + descLengthOffset) (le16 v) = Some m ->
  Q tt (mkWorld m (kernel w)) -> wp (setDescLength p q i v) w Q.
Proof using Hat.
  intros ? Hl HQ. destruct Hat. apply wp_bind, wp_ring_region.
  eapply wp_unsafe_store16; [lay| |done]. rewrite <- Hl. f_equal; lay.
Qed.

(** The interrupt test is constant: the flag it masks with is 0. *)
Lemma isInterrupt_masks_nothing flags : (Z.land flags ringFlagInterrupt =? 0) = true.
Proof using. unfold ringFlagInterrupt. by rewrite Z.land_0_r. Qed.

Lemma wp_interrupt bs w (Q : option goerror -> world -> Prop) `{!OSWrite _} :
  ld (shm w) (s_file d) (hdr q d + ringFlagsOffset) 2 = Some bs ->
  (forall r k, Q r (mkWorld (shm w) k)) -> wp (interrupt p q) w Q.
Proof using Hat.
  intros Hl HQ. unfold interrupt. apply wp_bind. unfold isInterrupt. apply wp_bind.
  eapply wp_hdr_load; [done..|]. apply wp_ret. rewrite isInterrupt_masks_nothing.
  apply wp_bind. unfold wp, syscall_. simpl.
  pose proof (sys_write_mem (interruptFd q) one_buf (shm w) (kernel w)) as Hm.
  destruct (sys (SysWrite (interruptFd q) one_buf) (shm w) (kernel w)) as [[x m] k].
  simpl in *. subst m. destruct x as [z|e]; simpl; [case_bool|]; apply HQ.
Qed.
End queue_ops.
