(* ===== verification/Packet.v ===== *)
(** * The data path (packet_processing.go)

    [ReadPacket] and [WritePacket] as programs over shared memory.  Both loops
    are bounded by a [uint16] count that the code decrements, which is the
    structural argument here: no fuel is needed. *)
From stdpp Require Import base tactics list strings.
From coqutil Require Import Byte.
From Stdlib Require Import ZArith Lia.
From S2P Require Import Prelude.
From S2P Require Import GoInt.
From S2P Require Import Shm.
From S2P Require Import Descriptor.
From S2P Require Import State.
From S2P Require Import Ring.
From S2P Require Import Queue.

(** [q.port.regions[desc.getRegion()].data[lo:hi]] *)
Definition desc_data (p : Port) (desc : descBuf) (lo hi : Z) : prog slice :=
  d ← region_data p (Desc.getRegion desc);
  reslice d lo hi.

Definition ring_mask (q : Queue) : Z := int64 (rg_size (q_ring q) - 1).

(** ** ReadPacket *)

Definition err_incomplete : goerror :=
  Err "incomplete chained buffer, may suggest peer error".

(** [for (desc.getFlags() & descFlagNext) == descFlagNext { ... }]: ends with
    the slot and packet offset reached, or with the error of an unfinished chain.
    [pkt] is the caller's buffer, filled as far as the loop came. *)
Fixpoint ReadPacket_chain (p : Port) (q : Queue) (nSlots : nat) (slot pktOffset : Z)
    (desc : descBuf) (pkt : list byte) : prog (list byte * (Z * Z + goerror)) :=
  if Z.land (Desc.getFlags desc) descFlagNext =? descFlagNext then
    match nSlots with
    | O => mret (pkt, inr err_incomplete)
    | S nSlots =>
        desc ← getDescBuf p q (Z.land slot (ring_mask q)) desc;
        let length := Desc.getLength desc in
        let offset := Desc.getOffset desc in
        if pktOffset <=? zlen pkt then
          s ← desc_data p desc offset (offset + length);
          b ← copy_from (drop (Z.to_nat pktOffset) pkt) s;
          ReadPacket_chain p q nSlots (slot + 1) (pktOffset + length) desc
            (take (Z.to_nat pktOffset) pkt ++ b)
        else Panic SliceOutOfRange
    end
  else mret (pkt, inl (slot, pktOffset)).

(** [for nSlots := ...; nSlots > 0; nSlots-- { setDescLength; head++ }] *)
Fixpoint refill_loop (p : Port) (q : Queue) (nSlots : nat) (head : Z) : prog Z :=
  match nSlots with
  | O => mret head
  | S nSlots =>
      setDescLength p q (Z.land head (ring_mask q)) (PacketBufferSize (run_ p)) ;;
      refill_loop p q nSlots (head + 1)
  end.

(** The code after the label [refill:]; the returned queue has the updated
    [lastHead] / [lastTail]. *)
Definition refill (p : Port) (q : Queue) (slot : Z) : prog Queue :=
  if IsServer (cfg p) then
    let q := set_lastHead (u16 slot) q in
    writeTail p q slot ;; mret q
  else
    let q := set_lastTail (u16 slot) q in
    head ← readHead p q;
    head ← refill_loop p q (Z.to_nat (u16 (rg_size (q_ring q) - head + lastTail q))) head;
    writeHead p q head ;; mret q.

(** What a call leaves behind: the queue, the caller's buffer, and the results
    [(n, err)]. *)
Record read_result := mkRead {
  rd_queue : Queue; rd_pkt : list byte; rd_n : Z; rd_err : option goerror
}.

Definition ReadPacket (p : Port) (q : Queue) (pkt : list byte) : prog read_result :=
  let mask := ring_mask q in
  let slot := if IsServer (cfg p) then lastHead q else lastTail q in
  lastSlot ← (if IsServer (cfg p) then readHead p q else readTail p q);
  let nSlots := u16 (lastSlot - slot) in
  if nSlots =? 0 then
    q ← refill p q slot;
    mret (mkRead q pkt 0 None)
  else
    desc ← getDescBuf p q (Z.land slot mask) newDescBuf;
    let length := Desc.getLength desc in
    let offset := Desc.getOffset desc in
    s ← desc_data p desc offset (offset + length);
    pkt ← copy_from pkt s;
    r ← ReadPacket_chain p q (Z.to_nat (nSlots - 1)) (slot + 1) length desc pkt;
    match r with
    | (pkt, inr e) => mret (mkRead q pkt 0 (Some e))
    | (pkt, inl (slot, pktOffset)) =>
        q ← refill p q slot;
        mret (mkRead q pkt pktOffset None)
    end.

(** ** WritePacket *)

(** Copy the descriptor of [slot] from shared memory, reset its flags and
    length, copy [pkt] (from its first byte) into its buffer, and set its
    length: the prepared descriptor, still private, and the bytes copied. *)
Definition fill_slot (p : Port) (q : Queue) (slot : Z) (desc : descBuf) (pkt : list byte)
    : prog (descBuf * Z) :=
  desc ← getDescBuf p q (Z.land slot (ring_mask q)) desc;
  let desc := Desc.setFlags 0 desc in
  let packetBufferSize :=
    if IsServer (cfg p) then Desc.getLength desc else PacketBufferSize (run_ p) in
  let desc := Desc.setLength 0 desc in
  let offset := Desc.getOffset desc in
  s ← desc_data p desc offset (offset + packetBufferSize);
  n ← copy_to s pkt;
  mret (Desc.setLength n desc, n).

(** [for n < len(pkt) { nFree--; ... }].  [more] is [nFree - 1], the free
    descriptors beyond the one in hand ([nFree] is at least 1 at every test).
    [None]: the ring filled up. *)
Fixpoint WritePacket_loop (p : Port) (q : Queue) (more : nat) (slot n : Z)
    (desc : descBuf) (pkt : list byte) : prog (option (Z * Z * descBuf)) :=
  if n <? zlen pkt then
    match more with
    | O => interrupt p q ;; mret None
    | S more =>
        putDescBuf p q (Z.land slot (ring_mask q)) (Desc.setFlags descFlagNext desc) ;;
        r ← fill_slot p q (slot + 1) (Desc.setFlags descFlagNext desc) pkt;
        WritePacket_loop p q more (slot + 1) (n + snd r) (fst r) pkt
    end
  else mret (Some (slot, n, desc)).

Definition WritePacket (p : Port) (q : Queue) (pkt : list byte) : prog Z :=
  let mask := ring_mask q in
  '(slot, nFree) ← (if IsServer (cfg p) then
      slot ← readTail p q;
      head ← readHead p q;
      mret (slot, u16 (head - slot))
    else
      slot ← readHead p q;
      tail ← readTail p q;
      mret (slot, u16 (rg_size (q_ring q) - slot + tail)));
  if nFree =? 0 then interrupt p q ;; mret 0
  else
    '(desc, n) ← fill_slot p q slot newDescBuf pkt;
    r ← WritePacket_loop p q (Z.to_nat (nFree - 1)) slot n desc pkt;
    match r with
    | None => mret 0
    | Some (slot, n, desc) =>
        putDescBuf p q (Z.land slot mask) desc ;;
        let slot := slot + 1 in
        (if IsServer (cfg p) then writeTail p q slot else writeHead p q slot) ;;
        interrupt p q ;;
        mret n
    end.
