(* ===== verification/Layout.v ===== *)
(** * Ring layouts: what both peers rely on in shared memory

    A [layout] says where a ring's header, descriptors and packet buffers are;
    [layout_wf] that they do not overlap; [side] that a process maps them where
    its descriptors say.  [ring_core] is the invariant of the memory itself: the
    slots between the consumer's and the producer's position hold the cells sent
    and not yet received.  Positions are unbounded counters; the code's [uint16]
    counters are their residues. *)
From stdpp Require Import base tactics list gmap.
From coqutil Require Import Byte.
From Stdlib Require Import ZArith Lia.
From S2P Require Import Prelude.
From S2P Require Import GoInt.
From S2P Require Import Shm.
From S2P Require Import Descriptor.
From S2P Require Import State.
From S2P Require Import Ring.
From S2P Require Import Queue.
From S2P Require Import Packet.

Create HintDb layout.

Record layout := mkLayout {
  l_file : nat;              (* file of header and descriptors *)
  l_hdr : Z;                 (* offset of the header *)
  l_log : Z;                 (* log2 of the number of slots *)
  l_cap : Z;                 (* bytes per packet buffer *)
  l_region : Z -> Z;         (* region field of slot i's descriptor *)
  l_offset : Z -> Z;         (* offset field of slot i's descriptor *)
  l_bfile : Z -> nat;        (* the file and offset that designates *)
  l_boff : Z -> Z
}.

Definition l_size (L : layout) : Z := 2 ^ l_log L.
Definition daddr (L : layout) (i : Z) : Z := l_hdr L + ringSize + i * descSize.

Record layout_wf (L : layout) : Prop := {
  lw_log : 0 <= l_log L <= 15;
  lw_cap : 0 < l_cap L < 4294967296;
  lw_hdr_buf : forall i, 0 <= i < l_size L ->
    disj (l_file L) (l_hdr L) (ringSize + l_size L * descSize) (l_bfile L i) (l_boff L i) (l_cap L);
  lw_buf_buf : forall i j, 0 <= i < l_size L -> 0 <= j < l_size L -> i <> j ->
    disj (l_bfile L i) (l_boff L i) (l_cap L) (l_bfile L j) (l_boff L j) (l_cap L)
}.

(** Process [p] sees the layout through its queue [q]: [d] maps the ring, and
    every descriptor's region is mapped and holds its buffer. *)
Record side (L : layout) (p : Port) (q : Queue) (d : slice) : Prop := {
  sd_at : ring_at p q d (l_size L);
  sd_file : s_file d = l_file L;
  sd_hdr : hdr q d = l_hdr L;
  sd_size : rg_size (q_ring q) = l_size L;
  sd_buf : forall i, 0 <= i < l_size L -> 0 <= l_region L i /\
    exists reg dd, regions p !! Z.to_nat (l_region L i) = Some reg /\ data reg = Some dd /\
      s_file dd = l_bfile L i /\ s_off dd + l_offset L i = l_boff L i /\
      0 <= l_offset L i /\ l_offset L i + l_cap L <= s_len dd
}.

(** ** Cells *)

(** One slot's worth of packet: the chain flag and the bytes. *)
Abbreviation cell := (bool * list byte)%type.

Definition flag_of (b : bool) : Z := if b then descFlagNext else 0.

Definition has_desc `{Perm} (L : layout) (m : mem) (i fl len : Z) : Prop :=
  exists db, ld m (l_file L) (daddr L i) descSize = Some db /\
    Desc.getFlags db = fl /\ Desc.getRegion db = l_region L i /\
    Desc.getLength db = len /\ Desc.getOffset db = l_offset L i.

Definition has_chunk `{Perm} (L : layout) (m : mem) (i : Z) (bs : list byte) : Prop :=
  zlen bs <= l_cap L /\ ld m (l_bfile L i) (l_boff L i) (zlen bs) = Some bs.

Definition buf_valid `{Perm} (L : layout) (m : mem) (i : Z) : Prop :=
  is_Some (ld m (l_bfile L i) (l_boff L i) (l_cap L)).

Definition slot_ok `{Perm} (L : layout) (m : mem) (i : Z) : Prop :=
  (exists fl len, has_desc L m i fl len) /\ buf_valid L m i.

Definition cell_at `{Perm} (L : layout) (m : mem) (i : Z) (c : cell) : Prop :=
  has_desc L m i (flag_of c.1) (zlen c.2) /\ has_chunk L m i c.2.

(** The slot of a position. *)
Definition sl (L : layout) (x : Z) : Z := x mod l_size L.

Record ring_core `{Perm} (L : layout) (m : mem) (C P : Z) (cells : list cell) : Prop := {
  rc_len : P = C + zlen cells;
  rc_cap : P <= C + l_size L;
  rc_slots : forall i, 0 <= i < l_size L -> slot_ok L m i;
  rc_cells : forall j c, cells !! j = Some c -> cell_at L m (sl L (C + Z.of_nat j)) c;
  rc_flags : is_Some (ld m (l_file L) (l_hdr L + ringFlagsOffset) 2)
}.

(** ** What a store may touch *)

(** [f]:[o..o+k] is outside the descriptor and the buffer of slot [i]. *)
Definition outside (L : layout) (i : Z) (f : nat) (o k : Z) : Prop :=
  disj (l_file L) (daddr L i) descSize f o k /\
  disj (l_bfile L i) (l_boff L i) (l_cap L) f o k.

(** Every change from [m] to [m'] is in the slots of positions [lo..hi-1]. *)
Record confined `{Perm} (L : layout) (lo hi : Z) (m m' : mem) : Prop := {
  cf_same : forall f o k, (forall x, lo <= x < hi -> outside L (sl L x) f o k) ->
    ld m' f o k = ld m f o k;
  cf_valid : forall f o k, is_Some (ld m f o k) -> is_Some (ld m' f o k)
}.

Section layout.
Context `{Perm} (L : layout) (Hwf : layout_wf L).

Lemma l_size_pos : 0 < l_size L.
Proof using Hwf. destruct Hwf. unfold l_size. apply Z.pow_pos_nonneg; lia. Qed.

Lemma l_size_le : l_size L <= 32768.
Proof using Hwf.
  destruct Hwf. unfold l_size. change 32768 with (2 ^ 15). apply Z.pow_le_mono_r; lia.
Qed.

Lemma sl_range x : 0 <= sl L x < l_size L.
Proof using Hwf. apply Z.mod_pos_bound, l_size_pos. Qed.

(** Positions less than one lap apart have different slots. *)
Lemma sl_inj x y : x < y < x + l_size L -> sl L x <> sl L y.
Proof using Hwf.
  pose proof l_size_pos as Hn. unfold sl. intros Hxy He.
  pose proof (Z.div_mod x (l_size L)) as Hx. pose proof (Z.div_mod y (l_size L)) as Hy.
  rewrite He in Hx. assert (y / l_size L - x / l_size L <= 0 \/ 1 <= y / l_size L - x / l_size L)
    as [?|?] by lia; nia.
Qed.

Lemma sl_lap x : sl L (x - l_size L) = sl L x.
Proof using Hwf.
  pose proof l_size_pos. unfold sl. rewrite <- (Z_mod_plus_full (x - l_size L) 1).
  f_equal. lia.
Qed.

Lemma confined_refl lo hi m : confined L lo hi m m.
Proof using. by split. Qed.

Lemma confined_trans lo hi m1 m2 m3 :
  confined L lo hi m1 m2 -> confined L lo hi m2 m3 -> confined L lo hi m1 m3.
Proof using.
  intros [A1 A2] [B1 B2]. split; [|by auto].
  intros f o k Ho. by rewrite B1, A1.
Qed.

Lemma confined_widen lo hi lo' hi' m m' :
  confined L lo hi m m' -> lo' <= lo -> hi <= hi' -> confined L lo' hi' m m'.
Proof using.
  intros [A1 A2] ??. split; [|done]. intros f o k Ho. apply A1. intros x ?. apply Ho. lia.
Qed.

Lemma outside_hdr i o k :
  0 <= i < l_size L -> 0 <= o -> 0 <= k -> o + k <= ringSize ->
  outside L i (l_file L) (l_hdr L + o) k.
Proof using Hwf.
  intros. split; [right; unfold daddr, descSize, ringSize in *; lia|].
  destruct (lw_hdr_buf _ Hwf i) as [?|?]; [done|by left|].
  right. unfold ringSize, descSize in *. lia.
Qed.

Lemma outside_desc i j :
  0 <= i < l_size L -> 0 <= j < l_size L -> i <> j ->
  outside L i (l_file L) (daddr L j) descSize.
Proof using Hwf.
  intros. split; [right; unfold daddr, descSize; lia|].
  destruct (lw_hdr_buf _ Hwf i) as [?|?]; [done|by left|].
  right. unfold daddr, ringSize, descSize in *. lia.
Qed.

Lemma outside_buf i j k :
  0 <= i < l_size L -> 0 <= j < l_size L -> i <> j -> k <= l_cap L ->
  outside L i (l_bfile L j) (l_boff L j) k.
Proof using Hwf.
  intros. split.
  - destruct (lw_hdr_buf _ Hwf j) as [?|?]; [done|by left|].
    right. unfold daddr, ringSize, descSize in *. lia.
  - destruct (lw_buf_buf _ Hwf i j) as [?|?]; [done..|by left|]. right. lia.
Qed.

(** A store inside one slot's descriptor or buffer. *)
Lemma confined_store x f o bs m m' :
  st m f o bs = Some m' ->
  (forall f' o' k', outside L (sl L x) f' o' k' -> disj f o (zlen bs) f' o' k') ->
  confined L x (x + 1) m m'.
Proof using.
  intros Hst Hd. split.
  - intros f' o' k' Ho. eapply ld_st_disj; [done|]. apply Hd, Ho. lia.
  - intros. by eapply st_ld_valid.
Qed.

Lemma confined_hdr lo hi m m' o k :
  confined L lo hi m m' -> 0 <= o -> 0 <= k -> o + k <= ringSize ->
  ld m' (l_file L) (l_hdr L + o) k = ld m (l_file L) (l_hdr L + o) k.
Proof using Hwf.
  intros [Hs _] ???. apply Hs. intros. apply outside_hdr; [apply sl_range|done..].
Qed.

(** Slots whose positions are outside the range keep their cells. *)
Definition apart (i lo hi : Z) : Prop := forall x, lo <= x < hi -> sl L x <> i.

Lemma confined_has_desc lo hi m m' i fl len :
  confined L lo hi m m' -> 0 <= i < l_size L -> apart i lo hi ->
  has_desc L m i fl len -> has_desc L m' i fl len.
Proof using Hwf.
  intros [Hs _] Hi Ha (db & Hdb & Hf). exists db. split; [|done].
  rewrite Hs; [done|]. intros x Hx. apply outside_desc; [apply sl_range|done|by apply Ha].
Qed.

Lemma confined_has_chunk lo hi m m' i bs :
  confined L lo hi m m' -> 0 <= i < l_size L -> apart i lo hi ->
  has_chunk L m i bs -> has_chunk L m' i bs.
Proof using Hwf.
  intros [Hs _] Hi Ha [Hc Hl]. split; [done|].
  rewrite Hs; [done|]. intros x Hx. apply outside_buf; [apply sl_range|done|by apply Ha|done].
Qed.

Lemma confined_cell_at lo hi m m' i c :
  confined L lo hi m m' -> 0 <= i < l_size L -> apart i lo hi ->
  cell_at L m i c -> cell_at L m' i c.
Proof using Hwf.
  intros Hc Hi Ha [? ?]. split; [by eapply confined_has_desc|by eapply confined_has_chunk].
Qed.

Lemma confined_buf_valid lo hi m m' i :
  confined L lo hi m m' -> buf_valid L m i -> buf_valid L m' i.
Proof using. intros [_ Hv]. apply Hv. Qed.

Lemma apart_before x lo hi : lo <= hi -> hi <= x + l_size L -> x < lo -> apart (sl L x) lo hi.
Proof using Hwf. intros ??? y ? He. symmetry in He. revert He. apply sl_inj. lia. Qed.

Lemma apart_after x lo hi : hi <= x -> x < lo + l_size L -> apart (sl L x) lo hi.
Proof using Hwf. intros ?? y ?. apply sl_inj. lia. Qed.

Lemma slot_ok_cell m i c : buf_valid L m i -> cell_at L m i c -> slot_ok L m i.
Proof using. intros ? [? ?]. split; [eauto|done]. Qed.
End layout.

#[export] Hint Resolve sl_range confined_refl : layout.
