(* ===== verification/Transfer.v ===== *)
(** * Slot-level behaviour of the data path

    What one iteration of each loop of packet_processing.go does to a ring laid
    out in memory, and from that what the loops do: [WritePacket_loop] writes a
    chain of cells, [ReadPacket_chain] collects one, [refill_loop] posts
    buffers.  Shared by the theorems on both directions. *)
From stdpp Require Import base tactics list gmap.
From coqutil Require Import Byte.
From Stdlib Require Import ZArith Lia.
From S2P Require Import Prelude.
From S2P Require Import GoInt.
From S2P Require Import Shm.
From S2P Require Import Descriptor.
From S2P Require Import State.
From S2P Require Import Ring.
From S2P Require Import Queue.
From S2P Require Import Packet.
From S2P Require Import Layout.

(** A prepared private descriptor for slot [i]: flags clear, length set. *)
Record ready (L : layout) (i len : Z) (db : descBuf) : Prop := {
  rd_wf : descBuf_wf db;
  rd_flags : Desc.getFlags db = 0;
  rd_region : Desc.getRegion db = l_region L i;
  rd_length : Desc.getLength db = len;
  rd_offset : Desc.getOffset db = l_offset L i
}.

Section slots.
Context `{OS} `{Perm} (L : layout) (Hwf : layout_wf L) (p : Port) (q : Queue) (d : slice)
  (Hs : side L p q d).
Implicit Types (w : world) (bs pkt : list byte).

(** The slot index the code computes from an [int] slot counter. *)
Lemma slot_index s x : u16 s = u16 x -> Z.land s (ring_mask q) = sl L x.
Proof using Hwf Hs.
  intros He. pose proof (l_size_pos L Hwf). pose proof (l_size_le L Hwf).
  pose proof (lw_log _ Hwf). unfold ring_mask, sl.
  rewrite (sd_size _ _ _ _ Hs), int64_small by lia. unfold l_size in *. rewrite land_mask by lia.
  rewrite <- (mod_u16 s), <- (mod_u16 x) by lia. by rewrite He.
Qed.

Lemma wp_get_slot s x fl len db w (Q : descBuf -> world -> Prop) :
  u16 s = u16 x -> descBuf_wf db -> has_desc L (shm w) (sl L x) fl len ->
  (forall db, descBuf_wf db -> Desc.getFlags db = fl -> Desc.getRegion db = l_region L (sl L x) ->
     Desc.getLength db = len -> Desc.getOffset db = l_offset L (sl L x) -> Q db w) ->
  wp (getDescBuf p q (Z.land s (ring_mask q)) db) w Q.
Proof using Hwf Hs.
  intros Hx Hdb (b & Hb & Hf & Hr & Hl & Ho) HQ. rewrite (slot_index _ _ Hx).
  eapply wp_getDescBuf; [apply Hs|apply sl_range, Hwf|done| |].
  - unfold desc_addr. rewrite (sd_file _ _ _ _ Hs), (sd_hdr _ _ _ _ Hs). exact Hb.
  - apply HQ; try done. by apply ld_zlen in Hb.
Qed.

(** Header accesses, at the layout's addresses. *)
Lemma wp_side_load o v w (Q : Z -> world -> Prop) :
  0 <= o -> o + 2 <= ringSize ->
  ld (shm w) (l_file L) (l_hdr L + o) 2 = Some (le16 v) -> Q (u16 v) w ->
  wp (e ← region_data p (rg_region (q_ring q)); unsafe_load16 e (rg_offset (q_ring q) + o)) w Q.
Proof using Hs.
  intros ?? Hl HQ. eapply (wp_hdr_load p q d _ (sd_at _ _ _ _ Hs) o (le16 v)); [done..| |].
  - by rewrite (sd_file _ _ _ _ Hs), (sd_hdr _ _ _ _ Hs).
  - by rewrite unle_le16.
Qed.

Lemma wp_side_store o v w (Q : unit -> world -> Prop) :
  0 <= o -> o + 2 <= ringSize -> is_Some (ld (shm w) (l_file L) (l_hdr L + o) 2) ->
  (forall m, st (shm w) (l_file L) (l_hdr L + o) (le16 v) = Some m -> Q tt (mkWorld m (kernel w))) ->
  wp (e ← region_data p (rg_region (q_ring q)); unsafe_store16 e (rg_offset (q_ring q) + o) v) w Q.
Proof using Hs.
  intros ?? Hl HQ. destruct (st_is_Some _ _ _ (le16 v) Hl) as [m Hm].
  eapply (wp_hdr_store p q d _ (sd_at _ _ _ _ Hs) o v m); [done..| |].
  - by rewrite (sd_file _ _ _ _ Hs), (sd_hdr _ _ _ _ Hs).
  - by apply HQ.
Qed.

Lemma wp_side_interrupt `{!OSWrite _} w (Q : option goerror -> world -> Prop) :
  is_Some (ld (shm w) (l_file L) (l_hdr L + ringFlagsOffset) 2) ->
  (forall r k, Q r (mkWorld (shm w) k)) -> wp (interrupt p q) w Q.
Proof using Hs.
  intros [fb Hfb] HQ. apply (wp_interrupt p q d _ (sd_at _ _ _ _ Hs) fb w Q); [|done].
  by rewrite (sd_file _ _ _ _ Hs), (sd_hdr _ _ _ _ Hs).
Qed.

(** The buffer a descriptor designates. *)
Lemma wp_desc_data i db len w (Q : slice -> world -> Prop) :
  0 <= i < l_size L -> 0 <= len <= l_cap L ->
  Desc.getRegion db = l_region L i -> Desc.getOffset db = l_offset L i ->
  (forall c, s_file c = l_bfile L i -> s_off c = l_boff L i -> s_len c = len -> Q c w) ->
  wp (desc_data p db (Desc.getOffset db) (Desc.getOffset db + len)) w Q.
Proof using Hs.
  intros Hi Hlen Hr Ho HQ.
  destruct (sd_buf _ _ _ _ Hs i Hi) as (Hr0 & reg & dd & Hl & Hd & Hf & Hoff & ? & ?).
  apply wp_bind. rewrite Hr. eapply wp_region_data; [done|done|]. rewrite Hd. simpl.
  rewrite Ho. apply wp_reslice; [lia..|]. apply HQ; simpl; lia || done.
Qed.

(** ** Writing *)

Lemma wp_fill_slot s x fl len db pkt w (Q : descBuf * Z -> world -> Prop) :
  let k := Z.min (l_cap L) (zlen pkt) in
  u16 s = u16 x -> descBuf_wf db ->
  has_desc L (shm w) (sl L x) fl len -> buf_valid L (shm w) (sl L x) ->
  (if IsServer (cfg p) then len else PacketBufferSize (run_ p)) = l_cap L ->
  (forall db' m, ready L (sl L x) k db' -> confined L x (x + 1) (shm w) m ->
     has_desc L m (sl L x) fl len -> has_chunk L m (sl L x) (sub 0 k pkt) ->
     Q (db', k) (mkWorld m (kernel w))) ->
  wp (fill_slot p q s db pkt) w Q.
Proof using Hwf Hs.
  intros k Hx Hdb Hd Hv Hcap HQ. pose proof (zlen_nonneg pkt).
  pose proof (lw_cap _ Hwf). pose proof (sl_range L Hwf x) as Hi.
  apply wp_bind. eapply wp_get_slot; [done..|]. intros b Hb Hf Hr Hl Ho.
  cbv beta zeta. assert ((if IsServer (cfg p) then Desc.getLength (Desc.setFlags 0 b)
           else PacketBufferSize (run_ p)) = l_cap L) as ->.
  { destruct (IsServer (cfg p)); [|done]. desc_get. cbn. by rewrite Hl. }
  apply wp_bind. eapply wp_desc_data; [exact Hi|lia|desc_get; exact Hr|desc_get; exact Ho|].
  intros c Hcf Hco Hcl. apply wp_bind.
  destruct Hv as [old Hv]. assert (zlen (sub 0 k pkt) = k) as Hk by (apply zlen_sub; lia).
  destruct (st_is_Some (shm w) (l_bfile L (sl L x)) (l_boff L (sl L x)) (sub 0 k pkt)) as [m Hm].
  { rewrite Hk. eexists. rewrite <- (Z.add_0_r (l_boff L _)). eapply ld_sub; [done|lia..]. }
  assert (confined L x (x + 1) (shm w) m) as Hconf.
  { eapply confined_store; [done|]. rewrite Hk. intros f o z [_ [?|?]]; [by left|right; lia]. }
  eapply wp_copy_to; rewrite Hcl, ?Hcf, ?Hco; [exact Hm|]. apply wp_ret, HQ.
  - split; [auto 10 with desc|..]; desc_get; cbn; try done.
    + apply u32_small. lia.
  - done.
  - destruct Hd as (b0 & Hb0 & ?). exists b0. split; [|done].
    rewrite <- Hb0. eapply ld_st_disj; [done|]. rewrite Hk.
    destruct (lw_hdr_buf _ Hwf (sl L x)) as [?|?]; [done|left; congruence|].
    right. unfold daddr, descSize, ringSize in *. lia.
  - split; [lia|]. by eapply ld_st_same.
Qed.

(** Publishing a prepared descriptor with the given chain flag. *)
Lemma wp_put_slot s x (b : bool) bs db w (Q : unit -> world -> Prop) :
  u16 s = u16 x -> ready L (sl L x) (zlen bs) db ->
  (exists fl len, has_desc L (shm w) (sl L x) fl len) -> has_chunk L (shm w) (sl L x) bs ->
  (forall m, confined L x (x + 1) (shm w) m -> cell_at L m (sl L x) (b, bs) ->
     Q tt (mkWorld m (kernel w))) ->
  wp (putDescBuf p q (Z.land s (ring_mask q)) (if b then Desc.setFlags descFlagNext db else db)) w Q.
Proof using Hwf Hs.
  intros Hx [Hdb Hf Hr Hl Ho] (fl & len & old & Hold & _) [Hc Hch] HQ.
  rewrite (slot_index _ _ Hx). pose proof (sl_range L Hwf x) as Hi.
  set (db' := if b then Desc.setFlags descFlagNext db else db).
  assert (descBuf_wf db') as Hdb' by (unfold db'; destruct b; auto with desc).
  destruct (st_is_Some (shm w) (l_file L) (daddr L (sl L x)) db') as [m Hm].
  { unfold descBuf_wf in Hdb'. rewrite Hdb'. eauto. }
  assert (confined L x (x + 1) (shm w) m) as Hconf.
  { eapply confined_store; [done|]. unfold descBuf_wf in Hdb'. rewrite Hdb'.
    intros f o z [? _]. done. }
  eapply wp_putDescBuf; [apply Hs|done|done|..].
  - unfold desc_addr. rewrite (sd_file _ _ _ _ Hs), (sd_hdr _ _ _ _ Hs). exact Hm.
  - apply HQ; [done|]. split.
    + exists db'. unfold descBuf_wf in Hdb'. split; [rewrite <- Hdb'; by eapply ld_st_same|].
      unfold db'; destruct b; desc_get; cbn; repeat split; done.
    + split; simpl in *; [done|]. rewrite <- Hch. eapply ld_st_disj; [done|].
      unfold descBuf_wf in Hdb'. rewrite Hdb'.
      destruct (lw_hdr_buf _ Hwf (sl L x)) as [?|?]; [done|by left|].
      right. unfold daddr, descSize, ringSize in *. lia.
Qed.

(** A free slot this process may write a cell into. *)
Definition writable (m : mem) (i : Z) : Prop :=
  (exists fl len, has_desc L m i fl len /\
     (if IsServer (cfg p) then len else PacketBufferSize (run_ p)) = l_cap L) /\
  buf_valid L m i.

Lemma confined_writable lo hi m m' i :
  confined L lo hi m m' -> 0 <= i < l_size L -> apart L i lo hi -> writable m i -> writable m' i.
Proof using Hwf.
  intros Hc Hi Ha [(fl & len & Hd & He) Hv]. split; [|by eapply confined_buf_valid].
  exists fl, len. split; [|done]. by eapply confined_has_desc.
Qed.

Lemma writable_desc m i : writable m i -> exists fl len, has_desc L m i fl len.
Proof using. intros [(fl & len & Hd & _) _]. eauto. Qed.

(** A full cell is as good as a posted buffer. *)
Lemma writable_cell m i b bs :
  zlen bs = l_cap L -> cell_at L m i (b, bs) -> forall len : Z,
  (if IsServer (cfg p) then len else PacketBufferSize (run_ p)) = l_cap L ->
  buf_valid L m i -> writable m i.
Proof using.
  intros Hz [Hd _] len Hcap Hv. split; [|done]. simpl in Hd. rewrite Hz in Hd.
  eexists _, _. split; [done|]. by destruct (IsServer (cfg p)).
Qed.

(** Slots still to be chained after [n] of [len] bytes are counted. *)
Definition extra (cap rest : Z) : Z := (Z.max rest 0 + cap - 1) / cap.

Lemma extra_done cap rest : 0 < cap -> rest <= 0 -> extra cap rest = 0.
Proof using. intros. unfold extra. apply Z.div_small. lia. Qed.

Lemma extra_step cap rest : 0 < cap -> 0 < rest -> extra cap rest = 1 + extra cap (rest - cap).
Proof using.
  intros. unfold extra. rewrite Z.max_l by lia.
  destruct (Z.le_ge_cases cap rest).
  - rewrite Z.max_l by lia. replace (rest + cap - 1) with (rest - cap + cap - 1 + 1 * cap) by lia.
    rewrite Z.div_add by lia. lia.
  - rewrite Z.max_r by lia. rewrite (Z.div_small (0 + cap - 1)) by lia.
    symmetry. apply (Z.div_unique _ _ _ (rest - 1)); lia.
Qed.

Lemma extra_nonneg cap rest : 0 < cap -> 0 <= extra cap rest.
Proof using. intros. unfold extra. apply Z.div_pos; lia. Qed.

(** The state of the loop at position [x]: the chunk is in the slot's buffer,
    the descriptor is prepared but private. *)
Record in_hand (bs : list byte) (m : mem) (x : Z) (db : descBuf) : Prop := {
  ih_ready : ready L (sl L x) (zlen bs) db;
  ih_free : writable m (sl L x);
  ih_chunk : has_chunk L m (sl L x) bs
}.

(** Filling a free slot. *)
Lemma wp_fill_free s x pkt w (Q : descBuf * Z -> world -> Prop) :
  let bs := sub 0 (Z.min (l_cap L) (zlen pkt)) pkt in
  u16 s = u16 x -> writable (shm w) (sl L x) ->
  (forall db m, confined L x (x + 1) (shm w) m -> in_hand bs m x db ->
     Q (db, Z.min (l_cap L) (zlen pkt)) (mkWorld m (kernel w))) ->
  wp (fill_slot p q s newDescBuf pkt) w Q.
Proof using Hwf Hs.
  intros bs Hx [(fl & len & Hd & Hcap) Hv] HQ. pose proof (lw_cap _ Hwf). pose proof (zlen_nonneg pkt).
  assert (zlen bs = Z.min (l_cap L) (zlen pkt)) as Hbs by (apply zlen_sub; lia).
  eapply (wp_fill_slot s x); [done|apply newDescBuf_wf|exact Hd|exact Hv|exact Hcap|].
  intros db m Hr Hc Hd' Hch. apply HQ; [done|]. split; [by rewrite Hbs| |done].
  split; [by eauto|]. exact (confined_buf_valid _ _ _ _ _ _ Hc Hv).
Qed.

(** A property of slots that stores elsewhere preserve, for a run of slots: the
    first one before the stores, the others after. *)
Lemma slots_cons (P : mem -> Z -> Prop) x e hi m m' :
  (forall lo hi m m' i, confined L lo hi m m' -> 0 <= i < l_size L -> apart L i lo hi -> P m i -> P m' i) ->
  confined L (x + 1) hi m m' -> x + 1 <= hi <= x + l_size L -> P m (sl L x) ->
  (forall j, 0 <= j < e -> P m' (sl L (x + 1 + j))) ->
  forall j, 0 <= j < 1 + e -> P m' (sl L (x + j)).
Proof using Hwf.
  intros Hp Hc Hhi Hx He j Hj. destruct (decide (j = 0)) as [->|].
  - rewrite Z.add_0_r. eapply Hp; [exact Hc|apply sl_range, Hwf|apply apart_before; [done|lia..]|done].
  - replace (x + j) with (x + 1 + (j - 1)) by lia. apply He. lia.
Qed.

(** One turn of the chaining loop: the descriptor in hand is published with its
    continuation flag, and the next slot is filled and in hand. *)
Lemma wp_chain_step {A} pkt x s db (K : descBuf * Z -> prog A) w (Q : A -> world -> Prop) :
  let bs := sub 0 (l_cap L) pkt in
  l_cap L <= zlen pkt -> 1 < l_size L -> u16 s = u16 x -> in_hand bs (shm w) x db ->
  writable (shm w) (sl L (x + 1)) ->
  (forall db2 m, confined L x (x + 2) (shm w) m -> cell_at L m (sl L x) (true, bs) ->
     writable m (sl L x) -> in_hand bs m (x + 1) db2 ->
     wp (K (db2, l_cap L)) (mkWorld m (kernel w)) Q) ->
  wp (putDescBuf p q (Z.land s (ring_mask q)) (Desc.setFlags descFlagNext db) ;;
      r ← fill_slot p q (s + 1) (Desc.setFlags descFlagNext db) pkt; K r) w Q.
Proof using Hwf Hs.
  intros bs Hlong Hsize Hx [Hr Hd Hc] Hnext HQ. pose proof (lw_cap _ Hwf) as Hcap.
  assert (zlen bs = l_cap L) as Hbs by (unfold bs; rewrite zlen_sub; lia).
  apply wp_bind. eapply (wp_put_slot s x true bs db);
    [done|done|by eapply writable_desc|done|]. intros m1 Hc1 Hcell1.
  assert (writable m1 (sl L (x + 1))) as [(fl & len & Hd2 & Hcap2) Hv2].
  { eapply confined_writable; [done|apply sl_range, Hwf| |exact Hnext].
    apply apart_after; [done|lia|lia]. }
  apply wp_bind. eapply (wp_fill_slot (s + 1) (x + 1)); [|apply setFlags_wf, Hr|exact Hd2|exact Hv2|exact Hcap2|].
  { rewrite <- (u16_add_l s), <- (u16_add_l x). by rewrite Hx. }
  simpl. rewrite Z.min_l by lia. intros db2 m2 Hr2 Hc2 Hd2' Hch2.
  assert (Hkeep : apart L (sl L x) (x + 1) (x + 1 + 1)).
  { apply apart_before; [done|lia|lia|lia]. }
  apply HQ.
  - eapply confined_trans; eapply confined_widen; [exact Hc1|lia|lia|exact Hc2|lia|lia].
  - eapply confined_cell_at; [exact Hwf|exact Hc2|apply sl_range, Hwf|done|done].
  - eapply confined_writable; [exact Hc2|apply sl_range, Hwf|done|].
    destruct Hd as [(fl0 & len0 & Hd0 & Hcap0) Hv].
    apply (writable_cell _ _ true bs Hbs Hcell1 len0 Hcap0). by eapply confined_buf_valid.
  - split; [|split; [by eauto|exact (confined_buf_valid _ _ _ _ _ _ Hc2 Hv2)]|exact Hch2].
    by rewrite Hbs.
Qed.

Lemma wp_WritePacket_loop `{!OSWrite _} pkt (more : nat) x s n db w
    (Q : option (Z * Z * descBuf) -> world -> Prop) :
  let bs := sub 0 (Z.min (l_cap L) (zlen pkt)) pkt in
  let c := extra (l_cap L) (zlen pkt - n) in
  u16 s = u16 x -> in_hand bs (shm w) x db ->
  (forall j, 1 <= j <= Z.of_nat more -> writable (shm w) (sl L (x + j))) ->
  Z.of_nat more < l_size L ->
  is_Some (ld (shm w) (l_file L) (l_hdr L + ringFlagsOffset) 2) ->
  Z.min (l_cap L) (zlen pkt) <= n ->
  (c <= Z.of_nat more -> forall m db' s', u16 s' = u16 (x + c) ->
     confined L x (x + c + 1) (shm w) m ->
     (forall j, 0 <= j < c -> cell_at L m (sl L (x + j)) (true, bs)) ->
     in_hand bs m (x + c) db' ->
     Q (Some (s', n + c * l_cap L, db')) (mkWorld m (kernel w))) ->
  (Z.of_nat more < c -> forall m k, confined L x (x + Z.of_nat more + 1) (shm w) m ->
     (forall j, 0 <= j <= Z.of_nat more -> writable m (sl L (x + j))) ->
     Q None (mkWorld m k)) ->
  wp (WritePacket_loop p q more s n db pkt) w Q.
Proof using Hwf Hs.
  pose proof (lw_cap _ Hwf) as Hcap. intros bs c.
  revert x s n db w Q c. induction more as [|more IH];
    intros x s n db w Q c Hx Hih Hfree Hmore Hfl Hn Hok Hfull;
    cbn [WritePacket_loop]; unfold c in *; clear c; case_bool; zbool.
  2, 4: apply wp_ret; rewrite extra_done in Hok by lia; rewrite Z.mul_0_l, !Z.add_0_r in Hok;
    destruct w as [m0 k0]; simpl in *; apply Hok;
    [lia|done|apply confined_refl|intros; lia|done].
  - apply wp_bind, wp_side_interrupt; [done|]. intros r k. apply wp_ret.
    apply Hfull; [|apply confined_refl|].
    + rewrite extra_step by lia. pose proof (extra_nonneg (l_cap L) (zlen pkt - n - l_cap L)). lia.
    + intros j Hj. replace (x + j) with x by lia. apply Hih.
  - rewrite extra_step in Hok, Hfull by lia.
    assert (Z.min (l_cap L) (zlen pkt) = l_cap L) as Hk by lia.
    unfold bs in *. clear bs. rewrite Hk in *. set (bs := sub 0 (l_cap L) pkt) in *.
    set (e := extra (l_cap L) (zlen pkt - n - l_cap L)) in *.
    eapply (wp_chain_step pkt x); [lia|lia|done|done|apply Hfree; lia|].
    intros db2 m2 Hc12 Hcell Hwr Hih2. cbn [fst snd].
    apply (IH (x + 1)); simpl; replace (zlen pkt - (n + l_cap L)) with (zlen pkt - n - l_cap L) by lia;
      fold e.
    + rewrite <- (u16_add_l s), <- (u16_add_l x). by rewrite Hx.
    + exact Hih2.
    + intros j Hj. replace (x + 1 + j) with (x + (1 + j)) by lia.
      eapply confined_writable; [exact Hc12|apply sl_range, Hwf|apply apart_after; [done|lia|lia]|].
      apply Hfree. lia.
    + lia.
    + rewrite (confined_hdr L Hwf _ _ _ _ _ _ Hc12) by done. done.
    + lia.
    + intros Hle m3 db3 s3 Hs3 Hc3 Hcells Hih3. pose proof (extra_nonneg (l_cap L) (zlen pkt - n - l_cap L)).
      replace (n + l_cap L + e * l_cap L) with (n + (1 + e) * l_cap L) by lia.
      replace (x + 1 + e) with (x + (1 + e)) in * by lia.
      apply Hok; [lia|done| | |done].
      * eapply confined_trans; eapply confined_widen; [exact Hc12|lia|lia|exact Hc3|lia|lia].
      * eapply (slots_cons (fun m i => cell_at L m i (true, bs))); [|exact Hc3|lia|done|done].
        intros. by eapply confined_cell_at.
    + intros Hlt m3 k Hc3 Hw3. apply Hfull; [lia| |].
      * eapply confined_trans; eapply confined_widen; [exact Hc12|lia|lia|exact Hc3|lia|lia].
      * intros j Hj. eapply (slots_cons writable x (Z.of_nat more + 1));
          [intros; by eapply confined_writable|exact Hc3|lia|done| |lia].
        intros i Hi. apply Hw3. lia.
Qed.

(** ** Reading *)

(** What a chain delivers: [b] is the flag of the descriptor just read, [cs]
    the cells published after it.  The bytes, the slots consumed, and whether
    the chain ended. *)
Fixpoint chain_of (b : bool) (cs : list cell) : list byte * nat * bool :=
  if b then
    match cs with
    | [] => ([], O, false)
    | (b', bs) :: cs => let '(ds, k, ok) := chain_of b' cs in (bs ++ ds, S k, ok)
    end
  else ([], O, true).

Lemma chain_of_le b cs : (snd (fst (chain_of b cs)) <= length cs)%nat.
Proof using.
  revert b. induction cs as [|[b' bs] cs IH]; intros []; simpl; try lia.
  specialize (IH b'). destruct (chain_of b' cs) as [[? ?] ?]. simpl in *. lia.
Qed.

Lemma flag_set b : (Z.land (flag_of b) descFlagNext =? descFlagNext) = b.
Proof using. by destruct b. Qed.

Lemma wp_copy_chunk i db bs dst w (Q : list byte -> world -> Prop) :
  0 <= i < l_size L -> has_chunk L (shm w) i bs ->
  Desc.getRegion db = l_region L i -> Desc.getOffset db = l_offset L i ->
  zlen bs <= zlen dst -> Q (go_copy dst bs) w ->
  wp (s ← desc_data p db (Desc.getOffset db) (Desc.getOffset db + zlen bs); copy_from dst s) w Q.
Proof using Hs.
  intros Hi [Hc Hl] Hr Ho Hfit HQ. pose proof (zlen_nonneg bs).
  apply wp_bind. eapply wp_desc_data; [done|lia|done|done|]. intros c Hcf Hco Hcl.
  eapply wp_copy_from; [|exact HQ]. by rewrite Hcf, Hco, Hcl, Z.min_r by lia.
Qed.

Lemma wp_read_chunk i db bs o pkt w (Q : list byte -> world -> Prop) :
  0 <= i < l_size L -> has_chunk L (shm w) i bs ->
  Desc.getRegion db = l_region L i -> Desc.getOffset db = l_offset L i ->
  0 <= o -> o + zlen bs <= zlen pkt ->
  Q (splice o bs pkt) w ->
  wp (b ← (s ← desc_data p db (Desc.getOffset db) (Desc.getOffset db + zlen bs);
           copy_from (drop (Z.to_nat o) pkt) s);
      mret (take (Z.to_nat o) pkt ++ b)) w Q.
Proof using Hs.
  intros Hi Hch Hr Ho Ho0 Hfit HQ. apply wp_bind. eapply wp_copy_chunk; [done..| |].
  - unfold zlen in *. rewrite length_drop. lia.
  - apply wp_ret. by rewrite go_copy_at.
Qed.

(** The same steps inside a longer program. *)
Lemma wp_assoc {A B C} (f : prog A) (g : A -> prog B) (k : B -> prog C) w Q :
  wp (b ← (a ← f; g a); k b) w Q -> wp (a ← f; b ← g a; k b) w Q.
Proof using.
  unfold wp. rewrite !run_bind. destruct (run f w) as [a w'|e| |]; cbn [obind]; [|done..].
  by rewrite run_bind.
Qed.

Lemma wp_map {A B C} (f : prog A) (h : A -> B) (k : B -> prog C) w Q :
  wp (b ← (a ← f; mret (h a)); k b) w Q -> wp (a ← f; k (h a)) w Q.
Proof using.
  unfold wp. rewrite !run_bind. by destruct (run f w) as [a w'|e| |].
Qed.

(** [fuel] is the number of descriptors the code may still look at; a chain that
    ends does so within its own cells, whatever is published after it. *)
Lemma wp_ReadPacket_chain fuel cs x s o b db pkt w
    (Q : list byte * (Z * Z + goerror) -> world -> Prop) :
  u16 s = u16 x -> descBuf_wf db -> Desc.getFlags db = flag_of b ->
  (forall j c, cs !! j = Some c -> cell_at L (shm w) (sl L (x + Z.of_nat j)) c) ->
  let '(ds, k, ok) := chain_of b cs in
  (length cs <= fuel)%nat -> (fuel = length cs \/ ok = true) ->
  0 <= o -> o + zlen ds <= zlen pkt ->
  (forall s', u16 s' = u16 (x + Z.of_nat k) ->
     Q (splice o ds pkt, if ok then inl (s', o + zlen ds) else inr err_incomplete) w) ->
  wp (ReadPacket_chain p q fuel s o db pkt) w Q.
Proof using Hwf Hs.
  revert fuel x s o b db pkt. induction cs as [|[b' bs] cs IH];
    intros fuel x s o b db pkt Hx Hdb Hf Hcells; destruct b; cbn [chain_of].
  1, 2, 4: intros Hle Hfuel Ho Hfit HQ; change (zlen []) with 0 in *.
  1: assert (fuel = O) as -> by (destruct Hfuel as [->|]; done).
  1, 2, 3: try destruct fuel; cbn [ReadPacket_chain]; rewrite Hf, flag_set; apply wp_ret;
    rewrite <- (splice_nil o pkt) by lia; specialize (HQ s); rewrite !Z.add_0_r in HQ; by apply HQ.
  destruct (chain_of b' cs) as [[ds k] ok] eqn:Hch. intros Hle Hfuel Ho Hfit HQ.
  rewrite zlen_app in Hfit. pose proof (zlen_nonneg bs). pose proof (zlen_nonneg ds).
  destruct (Hcells O _ eq_refl) as [Hd Hc]. rewrite Z.add_0_r in Hd, Hc. simpl in Hd, Hc.
  destruct fuel as [|fuel]; [simpl in Hle; lia|].
  cbn [ReadPacket_chain]. rewrite Hf, flag_set.
  apply wp_bind. eapply wp_get_slot; [done|done|exact Hd|].
  intros db2 Hdb2 Hf2 Hr2 Hl2 Ho2. cbv beta zeta.
  rewrite (proj2 (Z.leb_le _ _)) by lia. rewrite Hl2.
  apply wp_assoc.
  apply (wp_map _ _ (fun pk => ReadPacket_chain p q fuel (s + 1) (o + zlen bs) db2 pk)).
  apply wp_bind. eapply wp_read_chunk; [apply sl_range, Hwf|exact Hc|done|done|done|lia|].
  specialize (IH fuel (x + 1) (s + 1) (o + zlen bs) b' db2 (splice o bs pkt)).
  rewrite Hch in IH. simpl in Hle, Hfuel. apply IH; try done; try lia.
  - rewrite <- (u16_add_l s), <- (u16_add_l x). by rewrite Hx.
  - intros j c Hj. replace (x + 1 + Z.of_nat j) with (x + Z.of_nat (S j)) by lia.
    by apply (Hcells (S j)).
  - destruct Hfuel as [[=]|]; auto.
  - rewrite zlen_splice by lia. lia.
  - intros s' Hs'. rewrite splice_splice by lia. rewrite <- Z.add_assoc, <- zlen_app.
    apply HQ. rewrite Hs'. f_equal. lia.
Qed.

(** ** Posting buffers *)

(** Reposting one slot: the low half of its length is rewritten, which sets the
    whole length as long as both values fit in 16 bits. *)
Lemma wp_repost_slot x s fl len w (Q : unit -> world -> Prop) :
  u16 s = u16 x -> 0 < l_cap L < 65536 -> 0 <= len < 65536 ->
  has_desc L (shm w) (sl L x) fl len ->
  (forall m, confined L x (x + 1) (shm w) m -> has_desc L m (sl L x) fl (l_cap L) ->
     Q tt (mkWorld m (kernel w))) ->
  wp (setDescLength p q (Z.land s (ring_mask q)) (l_cap L)) w Q.
Proof using Hwf Hs.
  intros Hx Hcap Hlen (db & Hdb & Hf & Hr & Hl & Ho) HQ. rewrite (slot_index _ _ Hx).
  pose proof (ld_zlen _ _ _ _ _ Hdb) as Hz.
  destruct (st_is_Some (shm w) (l_file L) (daddr L (sl L x) + 4) (le16 (l_cap L))) as [m Hm].
  { rewrite zlen_le16. eexists. eapply ld_sub; [exact Hdb|done..]. }
  eapply (wp_setDescLength p q d _ (sd_at _ _ _ _ Hs)); [apply sl_range, Hwf| |].
  { unfold desc_addr. rewrite (sd_file _ _ _ _ Hs), (sd_hdr _ _ _ _ Hs). exact Hm. }
  apply HQ.
  - eapply confined_store; [done|]. intros f o z [[?|?] _]; [by left|right].
    rewrite zlen_le16. unfold descSize in *. lia.
  - exists (put16 4 (l_cap L) db). split; [by eapply ld_st_window|].
    desc_unfold. repeat split; unfold get16.
    + rewrite sub_put16 by lia. exact Hf.
    + rewrite sub_put16 by lia. exact Hr.
    + rewrite get32_put16_low, get16_high, u16_small by lia.
      rewrite Hl, Z.div_small by lia. lia.
    + unfold get32. rewrite sub_put16 by lia. exact Ho.
Qed.

Lemma wp_refill_loop k x s w (Q : Z -> world -> Prop) :
  u16 s = u16 x -> Z.of_nat k <= l_size L ->
  PacketBufferSize (run_ p) = l_cap L -> l_cap L < 65536 ->
  (forall j, 0 <= j < Z.of_nat k -> exists fl len,
     has_desc L (shm w) (sl L (x + j)) fl len /\ 0 <= len < 65536) ->
  (forall m s', u16 s' = u16 (x + Z.of_nat k) -> confined L x (x + Z.of_nat k) (shm w) m ->
     (forall j, 0 <= j < Z.of_nat k -> exists fl, has_desc L m (sl L (x + j)) fl (l_cap L)) ->
     Q s' (mkWorld m (kernel w))) ->
  wp (refill_loop p q k s) w Q.
Proof using Hwf Hs.
  pose proof (lw_cap _ Hwf) as Hcap.
  intros Hx Hk Hpbs Hcap16. revert x s w Q Hx Hk. induction k as [|k IH];
    intros x s w Q Hx Hk Hd HQ; cbn [refill_loop].
  - apply wp_ret. destruct w as [m0 k0]. apply HQ; [by rewrite Z.add_0_r|apply confined_refl|].
    intros; lia.
  - apply wp_bind. rewrite Hpbs. destruct (Hd 0) as (fl & len & Hd0 & Hlen); [lia|].
    rewrite Z.add_0_r in Hd0. eapply (wp_repost_slot x s fl len); [done|lia|done|done|].
    intros m Hc1 Hpost. apply (IH (x + 1)); simpl; [|lia| |].
    + rewrite <- (u16_add_l s), <- (u16_add_l x). by rewrite Hx.
    + intros j Hj. destruct (Hd (1 + j)) as (fl' & len' & Hd' & ?); [lia|].
      exists fl', len'. split; [|done]. rewrite <- Z.add_assoc.
      eapply confined_has_desc; [exact Hwf|exact Hc1|apply sl_range, Hwf| |exact Hd'].
      apply apart_after; [done|lia|lia].
    + intros m2 s' Hs' Hc2 Hp2.
      replace (x + 1 + Z.of_nat k) with (x + Z.of_nat (S k)) in Hs' by lia.
      apply HQ; [done| |].
      * eapply confined_trans; eapply confined_widen; [exact Hc1|lia|lia|exact Hc2|lia|lia].
      * replace (Z.of_nat (S k)) with (1 + Z.of_nat k) by lia.
        eapply (slots_cons (fun m i => exists fl, has_desc L m i fl (l_cap L)));
          [|exact Hc2|lia|by exists fl|exact Hp2].
        intros lo hi m0 m' i Hc Hi Ha [fl' Hfl]. exists fl'. by eapply confined_has_desc.
Qed.
End slots.
