(* ===== verification/Link.v ===== *)
(** * One ring between two ports

    A ring has a producing port (whose tx queue it is) and a consuming port
    (whose rx queue it is).  [ring_inv] ties the shared memory and the
    consumer's private counter to the cells in flight and to the producer's
    credit; the two directions differ only in which header counter plays which
    part.  The theorems here say what one [WritePacket] and one [ReadPacket] do
    to that state, on every branch. *)
From stdpp Require Import base tactics list gmap.
From coqutil Require Import Byte.
From Stdlib Require Import ZArith Lia.
From S2P Require Import Prelude.
From S2P Require Import GoInt.
From S2P Require Import Shm.
From S2P Require Import Descriptor.
From S2P Require Import State.
From S2P Require Import Ring.
From S2P Require Import Queue.
From S2P Require Import Packet.
From S2P Require Import Layout.
From S2P Require Import Transfer.

(** ** Slots left alone by a step *)

Record same_slot (L : layout) (m m' : mem) (i : Z) : Prop := {
  ss_desc : ld m' (l_file L) (daddr L i) descSize = ld m (l_file L) (daddr L i) descSize;
  ss_buf : forall k, k <= l_cap L ->
    ld m' (l_bfile L i) (l_boff L i) k = ld m (l_bfile L i) (l_boff L i) k
}.

Section preserve.
Context (L : layout) (Hwf : layout_wf L).

Lemma same_has_desc m m' i fl len :
  same_slot L m m' i -> has_desc L m i fl len -> has_desc L m' i fl len.
Proof using. intros [Hd _] (db & ? & ?). exists db. by rewrite Hd. Qed.

Lemma same_buf_valid m m' i : same_slot L m m' i -> buf_valid L m i -> buf_valid L m' i.
Proof using. intros [_ Hb]. unfold buf_valid. by rewrite Hb. Qed.

Lemma same_cell_at m m' i c : same_slot L m m' i -> cell_at L m i c -> cell_at L m' i c.
Proof using.
  intros Hs [Hd [Hc Hl]]. split; [by eapply same_has_desc|]. split; [done|].
  destruct Hs as [_ Hb]. by rewrite Hb.
Qed.

Lemma same_slot_ok m m' i : same_slot L m m' i -> slot_ok L m i -> slot_ok L m' i.
Proof using.
  intros Hs [(fl & len & Hd) Hv]. split; [|by eapply same_buf_valid].
  exists fl, len. by eapply same_has_desc.
Qed.

Lemma same_writable p m m' i : same_slot L m m' i -> writable L p m i -> writable L p m' i.
Proof using.
  intros Hs [(fl & len & Hd & Hc) Hv]. split; [|by eapply same_buf_valid].
  exists fl, len. split; [by eapply same_has_desc|done].
Qed.

Lemma same_trans m1 m2 m3 i : same_slot L m1 m2 i -> same_slot L m2 m3 i -> same_slot L m1 m3 i.
Proof using.
  intros [A1 A2] [B1 B2]. split; [by rewrite B1|]. intros k Hk. by rewrite B2, A2.
Qed.

Lemma confined_same lo hi m m' i :
  confined L lo hi m m' -> 0 <= i < l_size L -> apart L i lo hi -> same_slot L m m' i.
Proof using Hwf.
  intros [Hs _] Hi Ha. split.
  - apply Hs. intros x Hx. apply outside_desc; [done|by apply sl_range|done|by apply Ha].
  - intros k Hk. apply Hs. intros x Hx.
    apply outside_buf; [done|by apply sl_range|done|by apply Ha|done].
Qed.

(** Header stores touch no slot, and only the bytes they cover. *)
Lemma hdr_store_same o bs m m' i :
  st m (l_file L) (l_hdr L + o) bs = Some m' -> 0 <= o -> o + zlen bs <= ringSize ->
  0 <= i < l_size L -> same_slot L m m' i.
Proof using Hwf.
  intros Hst ?? Hi. destruct (outside_hdr L Hwf i o (zlen bs) Hi) as [Hd Hb];
    [done|apply zlen_nonneg|done|]. split.
  - eapply ld_st_disj; [done|]. destruct Hd as [?|[?|?]]; [by left|right; lia|right; lia].
  - intros k Hk. eapply ld_st_disj; [done|].
    destruct Hb as [?|[?|?]]; [left; congruence|right; lia|right; lia].
Qed.

Lemma hdr_store_other o bs m m' o' :
  st m (l_file L) (l_hdr L + o) bs = Some m' -> o' + 2 <= o \/ o + zlen bs <= o' ->
  ld m' (l_file L) (l_hdr L + o') 2 = ld m (l_file L) (l_hdr L + o') 2.
Proof using. intros Hst Hd. eapply ld_st_disj; [done|]. right; lia. Qed.

Lemma ring_core_same m m' C P cells :
  ring_core L m C P cells -> (forall i, 0 <= i < l_size L -> slot_ok L m' i) ->
  (forall x, C <= x < P -> same_slot L m m' (sl L x)) ->
  is_Some (ld m' (l_file L) (l_hdr L + ringFlagsOffset) 2) -> ring_core L m' C P cells.
Proof using.
  intros [H1 H2 _ H4 _] Hok Hsame Hfl. split; try done.
  intros j c Hj. eapply same_cell_at; [|by apply H4].
  apply Hsame. apply lookup_lt_Some in Hj. unfold zlen in *. lia.
Qed.
End preserve.

(** ** The invariant of a direction *)

(** The header counter the producer advances, and the one it reads. *)
Definition prod_off (t : ringType) : Z :=
  match t with ringTypeS2M => ringHeadOffset | ringTypeM2S => ringTailOffset end.
Definition cons_off (t : ringType) : Z :=
  match t with ringTypeS2M => ringTailOffset | ringTypeM2S => ringHeadOffset end.

(** S2M: the client produces; M2S: the server does. *)
Definition producer_is_server (t : ringType) : bool :=
  match t with ringTypeS2M => false | ringTypeM2S => true end.

(** The consumer's private position. *)
Definition last_of (t : ringType) (q : Queue) : Z :=
  match t with ringTypeS2M => lastHead q | ringTypeM2S => lastTail q end.

(** What does not change while packets flow. *)
Record linked (t : ringType) (L : layout) (pp : Port) (pq : Queue) (cp : Port) (cr : ring) : Prop := {
  lk_wf : layout_wf L;
  lk_prod : exists d, side L pp pq d;
  lk_cons : exists d, forall q, q_ring q = cr -> side L cp q d;
  lk_pserver : IsServer (cfg pp) = producer_is_server t;
  lk_cserver : IsServer (cfg cp) = negb (producer_is_server t);
  (* the client's buffer size is the ring's; [setDescLength] writes 16 bits *)
  lk_size : match t with
            | ringTypeS2M => PacketBufferSize (run_ pp) = l_cap L
            | ringTypeM2S => PacketBufferSize (run_ cp) = l_cap L /\ l_cap L < 65536
            end
}.

Record ring_inv (t : ringType) (L : layout) (pp : Port) (m : mem) (cq : Queue)
    (C P credit : Z) (cells : list cell) : Prop := {
  ri_core : ring_core L m C P cells;
  ri_credit : 0 <= credit /\ P + credit <= C + l_size L;
  ri_prod : ld m (l_file L) (l_hdr L + prod_off t) 2 = Some (le16 P);
  ri_cons : ld m (l_file L) (l_hdr L + cons_off t) 2 =
    Some (le16 (match t with ringTypeS2M => C | ringTypeM2S => P + credit end));
  ri_last : last_of t cq = u16 C;
  ri_free : forall x, P <= x < P + credit -> writable L pp m (sl L x);
  ri_full : match t with
            | ringTypeS2M => credit = C + l_size L - P
            | ringTypeM2S => forall i, 0 <= i < l_size L ->
                exists fl len, has_desc L m i fl len /\ 0 <= len < 65536
            end
}.

(** ** What a packet becomes in the ring *)

(** The chunk every slot of the chain carries: the first [min cap len] bytes. *)
Definition chunk (cap : Z) (pkt : list byte) : list byte := sub 0 (Z.min cap (zlen pkt)) pkt.

(** Slots after the first. *)
Definition more_slots (cap : Z) (pkt : list byte) : Z :=
  extra cap (zlen pkt - Z.min cap (zlen pkt)).

Definition encode (cap : Z) (pkt : list byte) : list cell :=
  replicate (Z.to_nat (more_slots cap pkt)) (true, chunk cap pkt) ++ [(false, chunk cap pkt)].

Definition slots (cap : Z) (pkt : list byte) : Z := 1 + more_slots cap pkt.

(** The byte count [WritePacket] returns. *)
Definition written (cap : Z) (pkt : list byte) : Z :=
  Z.min cap (zlen pkt) + more_slots cap pkt * cap.

(** What the peer receives. *)
Definition delivered (cap : Z) (pkt : list byte) : list byte := concat (snd <$> encode cap pkt).

(** Memory outside the ring's header, descriptors and buffers. *)
Definition off_ring (L : layout) (f : nat) (o k : Z) : Prop :=
  disj (l_file L) (l_hdr L) (ringSize + l_size L * descSize) f o k /\
  forall i, 0 <= i < l_size L -> disj (l_bfile L i) (l_boff L i) (l_cap L) f o k.

Section lemmas.
Context (L : layout) (Hwf : layout_wf L).

Lemma zlen_chunk pkt : zlen (chunk (l_cap L) pkt) = Z.min (l_cap L) (zlen pkt).
Proof using Hwf.
  pose proof (lw_cap _ Hwf). pose proof (zlen_nonneg pkt). unfold chunk.
  apply zlen_sub; lia.
Qed.

Lemma more_slots_nonneg pkt : 0 <= more_slots (l_cap L) pkt.
Proof using Hwf. pose proof (lw_cap _ Hwf). apply extra_nonneg. lia. Qed.

Lemma zlen_encode pkt : zlen (encode (l_cap L) pkt) = slots (l_cap L) pkt.
Proof using Hwf.
  pose proof (more_slots_nonneg pkt). unfold encode, slots, zlen.
  rewrite length_app, length_replicate. simpl. lia.
Qed.

Lemma chain_of_replicate k bs rest :
  chain_of true (replicate k (true, bs) ++ (false, bs) :: rest) =
  (concat (replicate (S k) bs), S k, true).
Proof using.
  induction k as [|k IH]; [by destruct rest|].
  cbn [replicate app chain_of] in *. rewrite IH. done.
Qed.

(** Every slot is the slot of exactly one position of a lap. *)
Lemma slot_pos C i : 0 <= i < l_size L -> exists x, C <= x < C + l_size L /\ sl L x = i.
Proof using Hwf.
  intros Hi. exists (C + (i - C) mod l_size L). pose proof (Z.mod_pos_bound (i - C) (l_size L)).
  split; [lia|]. unfold sl. rewrite Zplus_mod_idemp_r.
  replace (C + (i - C)) with i by lia. by apply Z.mod_small.
Qed.

Lemma concat_encode pkt :
  delivered (l_cap L) pkt =
  concat (replicate (S (Z.to_nat (more_slots (l_cap L) pkt))) (chunk (l_cap L) pkt)).
Proof using.
  unfold delivered, encode. rewrite fmap_app, fmap_replicate, concat_app. simpl.
  rewrite app_nil_r. induction (Z.to_nat _) as [|k IH]; simpl; [by rewrite app_nil_r|].
  rewrite <- app_assoc, IH. done.
Qed.

Lemma confined_off_ring lo hi m m' f o k :
  confined L lo hi m m' -> off_ring L f o k -> ld m' f o k = ld m f o k.
Proof using Hwf.
  intros [Hs _] [Hh Hb]. apply Hs. intros x _. pose proof (sl_range L Hwf x) as Hx.
  split; [|by apply Hb]. destruct Hh as [?|?]; [by left|].
  right. unfold daddr, ringSize, descSize in *. lia.
Qed.

Lemma hdr_store_off_ring o bs m m' f a k :
  st m (l_file L) (l_hdr L + o) bs = Some m' -> 0 <= o -> o + zlen bs <= ringSize ->
  off_ring L f a k -> ld m' f a k = ld m f a k.
Proof using Hwf.
  intros Hst ?? [Hh _]. eapply ld_st_disj; [done|]. pose proof (l_size_pos L Hwf).
  destruct Hh as [?|?]; [by left|]. right. unfold ringSize, descSize in *. lia.
Qed.
End lemmas.

(** ** WritePacket *)

Section write.
Context `{OS} (t : ringType) (L : layout) (pp : Port) (pq : Queue) (cp : Port) (cr : ring)
  (Hlk : linked t L pp pq cp cr).
Implicit Types (w : world) (pkt : list byte).

#[local] Lemma Hwf : layout_wf L.
Proof using Hlk. apply Hlk. Qed.

(** The producer's reading of its counters: its slot and its credit. *)
Lemma wp_producer_state cq C P credit cells w (Q : Z * Z -> world -> Prop) :
  ring_inv t L pp (shm w) cq C P credit cells ->
  (forall s, u16 s = u16 P -> Q (s, credit) w) ->
  wp (if IsServer (cfg pp) then
        slot ← readTail pp pq;
        head ← readHead pp pq;
        mret (slot, u16 (head - slot))
      else
        slot ← readHead pp pq;
        tail ← readTail pp pq;
        mret (slot, u16 (rg_size (q_ring pq) - slot + tail))) w Q.
Proof using Hlk.
  intros Hi HQ. destruct (lk_prod _ _ _ _ _ _ Hlk) as [d Hs].
  pose proof (l_size_le L Hwf). pose proof (ri_credit _ _ _ _ _ _ _ _ _ Hi).
  pose proof (rc_len _ _ _ _ _ (ri_core _ _ _ _ _ _ _ _ _ Hi)) as HP.
  pose proof (zlen_nonneg cells).
  pose proof (ri_prod _ _ _ _ _ _ _ _ _ Hi) as Hp. pose proof (ri_cons _ _ _ _ _ _ _ _ _ Hi) as Hc.
  pose proof (ri_full _ _ _ _ _ _ _ _ _ Hi) as Hf.
  rewrite (lk_pserver _ _ _ _ _ _ Hlk). destruct t; simpl in *.
  - apply wp_bind. eapply (wp_side_load L pp pq d Hs ringHeadOffset P); [done..|].
    apply wp_bind. eapply (wp_side_load L pp pq d Hs ringTailOffset C); [done..|].
    apply wp_ret. rewrite (sd_size _ _ _ _ Hs).
    replace (u16 (l_size L - u16 P + u16 C)) with credit; [apply HQ, u16_u16|].
    rewrite u16_add_r. replace (l_size L - u16 P + C) with (l_size L + C - u16 P) by lia.
    rewrite u16_sub_r, u16_small; lia.
  - apply wp_bind. eapply (wp_side_load L pp pq d Hs ringTailOffset P); [done..|].
    apply wp_bind. eapply (wp_side_load L pp pq d Hs ringHeadOffset (P + credit)); [done..|].
    apply wp_ret. replace (u16 (u16 (P + credit) - u16 P)) with credit; [apply HQ, u16_u16|].
    rewrite u16_sub_l, u16_sub_r, u16_small; lia.
Qed.

(** Free slots scribbled on, nothing published. *)
Lemma ring_inv_scribble cq C P credit cells m m' :
  ring_inv t L pp m cq C P credit cells -> confined L P (P + credit) m m' ->
  (forall x, P <= x < P + credit -> writable L pp m' (sl L x)) ->
  ring_inv t L pp m' cq C P credit cells.
Proof using Hlk.
  intros [Hcore Hcr Hp Hc Hl Hfr Hfu] Hcf Hw.
  pose proof (rc_len _ _ _ _ _ Hcore). pose proof (zlen_nonneg cells).
  assert (Hslot : forall i, 0 <= i < l_size L ->
    same_slot L m m' i \/ writable L pp m' i).
  { intros i Hi. destruct (slot_pos L Hwf C i Hi) as (x & Hx & <-).
    destruct (decide (P <= x < P + credit)); [right; auto|left].
    eapply confined_same; [apply Hwf|done|done|].
    destruct (decide (x < P)).
    - apply apart_before; [apply Hwf|lia..].
    - apply apart_after; [apply Hwf|lia..]. }
  assert (Hhdr : forall o, 0 <= o -> o + 2 <= ringSize ->
    ld m' (l_file L) (l_hdr L + o) 2 = ld m (l_file L) (l_hdr L + o) 2).
  { intros. eapply confined_hdr; [apply Hwf|done|lia..]. }
  split; try done.
  - eapply ring_core_same; [done|..].
    + intros i Hi. destruct (Hslot i Hi) as [Hs|[Hd Hv]].
      * eapply same_slot_ok; [done|by apply Hcore].
      * split; [|done]. destruct Hd as (fl & len & Hd & _). eauto.
    + intros x Hx. eapply confined_same; [apply Hwf|done|apply sl_range, Hwf|].
      apply apart_before; [apply Hwf|lia..].
    + rewrite Hhdr by done. apply Hcore.
  - rewrite Hhdr; [done|by destruct t..].
  - rewrite Hhdr; [done|by destruct t..].
  - pose proof (lk_size _ _ _ _ _ _ Hlk) as Hsz. pose proof (lk_pserver _ _ _ _ _ _ Hlk) as Hps.
    pose proof (lw_cap _ Hwf) as Hcap0.
    destruct t; [done|]. intros i Hi. destruct (Hslot i Hi) as [Hs|[(fl & len & Hd & Hcap) Hv]].
    + destruct (Hfu i Hi) as (fl & len & Hd & ?). exists fl, len.
      split; [by eapply same_has_desc|done].
    + exists fl, len. split; [done|]. rewrite Hps in Hcap. simpl in Hcap. lia.
Qed.

Lemma le16_congr a b : u16 a = u16 b -> le16 a = le16 b.
Proof using. intros He. by rewrite <- (le16_u16 a), He, le16_u16. Qed.

(** Cells written into free slots, then the producer's counter advanced. *)
(** What a publication does to the slots: those outside the new cells are as
    before, the new cells are in place in valid buffers. *)
Lemma publish_slots cs s C P m m1 m' :
  (forall i, 0 <= i < l_size L -> buf_valid L m i) -> confined L P (P + zlen cs) m m1 ->
  C <= P -> P + zlen cs <= C + l_size L ->
  (forall j c, cs !! j = Some c -> cell_at L m1 (sl L (P + Z.of_nat j)) c) ->
  st m1 (l_file L) (l_hdr L + prod_off t) (le16 s) = Some m' ->
  (forall x, C <= x < C + l_size L -> ~ (P <= x < P + zlen cs) -> same_slot L m m' (sl L x)) /\
  (forall j c, cs !! j = Some c -> cell_at L m' (sl L (P + Z.of_nat j)) c) /\
  (forall i, 0 <= i < l_size L ->
     same_slot L m m' i \/ buf_valid L m' i /\ exists c, cell_at L m' i c).
Proof using Hlk.
  intros Hbv Hcf HC Hle Hcs Hst. pose proof (zlen_nonneg cs).
  assert (Hh : forall i, 0 <= i < l_size L -> same_slot L m1 m' i).
  { intros. eapply hdr_store_same; [apply Hwf|done|by destruct t..|done]. }
  assert (Hout : forall x, C <= x < C + l_size L -> ~ (P <= x < P + zlen cs) ->
    same_slot L m m' (sl L x)).
  { intros x Hx Hn. eapply same_trans; [|apply Hh, sl_range, Hwf].
    eapply confined_same; [apply Hwf|done|apply sl_range, Hwf|].
    destruct (decide (x < P)).
    - apply apart_before; [apply Hwf|lia..].
    - apply apart_after; [apply Hwf|lia..]. }
  assert (Hin : forall j c, cs !! j = Some c -> cell_at L m' (sl L (P + Z.of_nat j)) c).
  { intros j c Hj. eapply same_cell_at; [apply Hh, sl_range, Hwf|by apply Hcs]. }
  split; [done|]. split; [done|]. intros i Hi. destruct (slot_pos L Hwf C i Hi) as (x & Hx & <-).
  destruct (decide (P <= x < P + zlen cs)) as [Hd|]; [right|left; auto]. split.
  - eapply same_buf_valid; [by apply Hh|]. eapply confined_buf_valid; [done|by apply Hbv].
  - destruct (lookup_lt_is_Some_2 cs (Z.to_nat (x - P))) as [c Hj]; [unfold zlen in *; lia|].
    exists c. replace x with (P + Z.of_nat (Z.to_nat (x - P))) by lia. by apply Hin.
Qed.

Lemma ring_inv_publish cs s cq C P credit cells m m1 m' :
  ring_inv t L pp m cq C P credit cells ->
  confined L P (P + zlen cs) m m1 -> zlen cs <= credit ->
  (forall j c, cs !! j = Some c -> cell_at L m1 (sl L (P + Z.of_nat j)) c) ->
  u16 s = u16 (P + zlen cs) ->
  st m1 (l_file L) (l_hdr L + prod_off t) (le16 s) = Some m' ->
  ring_inv t L pp m' cq C (P + zlen cs) (credit - zlen cs) (cells ++ cs).
Proof using Hlk.
  intros [Hcore Hcr Hp Hc Hl Hfr Hfu] Hcf Hle Hcs Hs Hst.
  pose proof (rc_len _ _ _ _ _ Hcore) as HP. pose proof (zlen_nonneg cells). pose proof (zlen_nonneg cs).
  pose proof (lk_size _ _ _ _ _ _ Hlk) as Hsz. pose proof (lw_cap _ Hwf) as Hcap.
  destruct (publish_slots cs s C P m m1 m') as (Hout & Hin & Hslot); try done; try lia.
  { intros i Hi. by apply Hcore. }
  assert (Hhdr : forall o, 0 <= o -> o + 2 <= ringSize ->
    o + 2 <= prod_off t \/ prod_off t + 2 <= o ->
    ld m' (l_file L) (l_hdr L + o) 2 = ld m (l_file L) (l_hdr L + o) 2).
  { intros. rewrite (hdr_store_other L _ _ _ _ _ Hst) by done.
    eapply confined_hdr; [apply Hwf|done|lia..]. }
  split.
  - split.
    + rewrite zlen_app. lia.
    + lia.
    + intros i Hi. destruct (Hslot i Hi) as [Hss|[Hv [c Hc']]].
      * eapply same_slot_ok; [done|by apply Hcore].
      * by eapply slot_ok_cell.
    + intros j c Hj. apply lookup_app_Some in Hj as [Hj|[Hge Hj]].
      * eapply same_cell_at; [|by apply Hcore]. apply lookup_lt_Some in Hj.
        unfold zlen in *. apply Hout; lia.
      * replace (C + Z.of_nat j) with (P + Z.of_nat (j - length cells)) by (unfold zlen in *; lia).
        by apply Hin.
    + rewrite Hhdr; [apply Hcore|done|done|destruct t; cbv; auto; left; discriminate].
  - lia.
  - erewrite <- (le16_congr s) by done. exact (ld_st_same _ _ _ _ _ Hst).
  - rewrite Hhdr; [|by destruct t..|destruct t; [right|left]; done].
    rewrite Hc. destruct t; [done|]. do 2 f_equal. lia.
  - done.
  - intros x Hx. eapply same_writable; [apply Hout; lia|]. apply Hfr. lia.
  - destruct t; [lia|]. intros i Hi. destruct (Hslot i Hi) as [Hss|[_ [c [Hd [Hcl _]]]]].
    + destruct (Hfu i Hi) as (fl & len & Hd & ?). exists fl, len.
      split; [by eapply same_has_desc|done].
    + eexists _, _. split; [done|]. pose proof (zlen_nonneg c.2). lia.
Qed.

(** The cells the loop leaves in the slots are the packet's encoding. *)
Lemma encode_lookup pkt j c :
  encode (l_cap L) pkt !! j = Some c ->
  c.2 = chunk (l_cap L) pkt /\
  (Z.of_nat j < more_slots (l_cap L) pkt /\ c.1 = true \/
   Z.of_nat j = more_slots (l_cap L) pkt /\ c.1 = false).
Proof using Hlk.
  pose proof (more_slots_nonneg L Hwf pkt). unfold encode. rewrite lookup_app.
  destruct (replicate _ _ !! j) as [c'|] eqn:E.
  - intros [= <-]. apply lookup_replicate in E as [-> ?]. split; [done|left]. split; [lia|done].
  - apply lookup_replicate_None in E. rewrite length_replicate. intros Hj.
    apply list_lookup_singleton_Some in Hj as [? <-]. split; [done|right]. split; [lia|done].
Qed.

Lemma wp_write_counter s m w (Q : unit -> world -> Prop) :
  is_Some (ld (shm w) (l_file L) (l_hdr L + prod_off t) 2) ->
  st (shm w) (l_file L) (l_hdr L + prod_off t) (le16 s) = Some m ->
  Q tt (mkWorld m (kernel w)) ->
  wp (if IsServer (cfg pp) then writeTail pp pq s else writeHead pp pq s) w Q.
Proof using Hlk.
  intros Hv Hst HQ. destruct (lk_prod _ _ _ _ _ _ Hlk) as [d Hs].
  rewrite (lk_pserver _ _ _ _ _ _ Hlk). destruct t; simpl in *;
    (eapply (wp_side_store L pp pq d Hs); [done|done|done|]; intros m' Hm'; congruence).
Qed.

Lemma ring_inv_flags cq C P credit cells m :
  ring_inv t L pp m cq C P credit cells ->
  is_Some (ld m (l_file L) (l_hdr L + ringFlagsOffset) 2).
Proof using. intros Hi. apply Hi. Qed.

(** The state after the first slot is filled. *)
Lemma wp_first_slot cq C P credit cells pkt s w (Q : descBuf * Z -> world -> Prop) :
  ring_inv t L pp (shm w) cq C P credit cells -> 0 < credit -> u16 s = u16 P ->
  (forall db m, confined L P (P + 1) (shm w) m ->
     in_hand L pp (chunk (l_cap L) pkt) m P db ->
     Q (db, zlen (chunk (l_cap L) pkt)) (mkWorld m (kernel w))) ->
  wp (fill_slot pp pq s newDescBuf pkt) w Q.
Proof using Hlk.
  intros Hi Hcr Hs HQ. destruct (lk_prod _ _ _ _ _ _ Hlk) as [d Hsd].
  apply (wp_fill_free L Hwf pp pq d Hsd s P); [done|by eapply ri_free; [exact Hi|lia]|].
  rewrite (zlen_chunk L Hwf pkt) in HQ. exact HQ.
Qed.

Definition write_post (cq : Queue) (C P credit : Z) (cells : list cell) (pkt : list byte)
    (w : world) (r : Z) (w' : world) : Prop :=
  (if slots (l_cap L) pkt <=? credit
   then r = written (l_cap L) pkt /\
        ring_inv t L pp (shm w') cq C (P + slots (l_cap L) pkt) (credit - slots (l_cap L) pkt)
          (cells ++ encode (l_cap L) pkt)
   else r = 0 /\ ring_inv t L pp (shm w') cq C P credit cells) /\
  forall f o k, off_ring L f o k -> ld (shm w') f o k = ld (shm w) f o k.

(** Publishing the last descriptor and the counter: the success exit. *)
Lemma write_commit `{!OSWrite _} cq C P credit cells pkt w m2 db s :
  ring_inv t L pp (shm w) cq C P credit cells ->
  slots (l_cap L) pkt <= credit ->
  u16 s = u16 (P + more_slots (l_cap L) pkt) ->
  confined L P (P + more_slots (l_cap L) pkt + 1) (shm w) m2 ->
  (forall j, 0 <= j < more_slots (l_cap L) pkt ->
     cell_at L m2 (sl L (P + j)) (true, chunk (l_cap L) pkt)) ->
  in_hand L pp (chunk (l_cap L) pkt) m2 (P + more_slots (l_cap L) pkt) db ->
  wp (putDescBuf pp pq (Z.land s (ring_mask pq)) db ;;
      (if IsServer (cfg pp) then writeTail pp pq (s + 1) else writeHead pp pq (s + 1)) ;;
      interrupt pp pq ;;
      mret (written (l_cap L) pkt)) (mkWorld m2 (kernel w))
    (write_post cq C P credit cells pkt w).
Proof using Hlk.
  intros Hi Hle Hs Hc2 Hcells [Hr Hfree Hch]. destruct (lk_prod _ _ _ _ _ _ Hlk) as [d Hsd].
  set (c := more_slots (l_cap L) pkt) in *. unfold slots in Hle. fold c in Hle.
  assert (0 <= c) by apply (more_slots_nonneg L Hwf).
  pose proof (ri_credit _ _ _ _ _ _ _ _ _ Hi) as Hcr.
  pose proof (rc_len _ _ _ _ _ (ri_core _ _ _ _ _ _ _ _ _ Hi)). pose proof (zlen_nonneg cells).
  apply wp_bind.
  eapply (wp_put_slot L Hwf pp pq d Hsd s (P + c) false (chunk (l_cap L) pkt) db);
    [done|done|by eapply writable_desc|done|]. simpl. intros m3 Hc3 Hcell3.
  assert (confined L P (P + slots (l_cap L) pkt) (shm w) m3) as Hc.
  { unfold slots. fold c. eapply confined_trans; eapply confined_widen; [exact Hc2|lia|lia|exact Hc3|lia|lia]. }
  assert (is_Some (ld m3 (l_file L) (l_hdr L + prod_off t) 2)) as Hpv.
  { rewrite (confined_hdr L Hwf _ _ _ _ _ _ Hc) by (by destruct t).
    rewrite (ri_prod _ _ _ _ _ _ _ _ _ Hi). eauto. }
  destruct (st_is_Some m3 (l_file L) (l_hdr L + prod_off t) (le16 (s + 1)) Hpv) as [m4 Hm4].
  apply wp_bind. eapply wp_write_counter; [done|exact Hm4|]. simpl.
  rewrite <- (zlen_encode L Hwf) in Hc.
  assert (ring_inv t L pp m4 cq C (P + slots (l_cap L) pkt) (credit - slots (l_cap L) pkt)
            (cells ++ encode (l_cap L) pkt)) as Hinv.
  { rewrite <- (zlen_encode L Hwf).
    eapply (ring_inv_publish (encode (l_cap L) pkt) (s + 1)); [exact Hi|exact Hc| | | |exact Hm4].
    - rewrite (zlen_encode L Hwf). unfold slots. fold c. lia.
    - intros j [b bs] Hj. apply encode_lookup in Hj as [Hbs Hj]. simpl in *. subst bs. fold c in Hj.
      destruct Hj as [[Hj ->]|[Hj ->]]; [|by rewrite Hj].
      eapply confined_cell_at; [apply Hwf|exact Hc3|apply sl_range, Hwf| |apply Hcells; lia].
      apply apart_before; [apply Hwf|lia..].
    - rewrite (zlen_encode L Hwf). unfold slots. fold c.
      rewrite <- (u16_add_l s), Hs, u16_add_l. f_equal. lia. }
  apply wp_bind. apply (wp_side_interrupt L pp pq d Hsd); simpl; [by eapply ring_inv_flags|].
  intros r k. apply wp_ret. unfold write_post. simpl.
  rewrite (proj2 (Z.leb_le _ _)) by (unfold slots; fold c; lia).
  split; [done|]. intros f o z Ho.
  rewrite (hdr_store_off_ring L Hwf _ _ _ _ _ _ _ Hm4) by (done || by destruct t).
  by eapply confined_off_ring; [apply Hwf|..].
Qed.

Lemma wp_WritePacket `{!OSWrite _} cq C P credit cells pkt w :
  ring_inv t L pp (shm w) cq C P credit cells ->
  wp (WritePacket pp pq pkt) w (write_post cq C P credit cells pkt w).
Proof using Hlk.
  intros Hi. destruct (lk_prod _ _ _ _ _ _ Hlk) as [d Hsd].
  pose proof (ri_credit _ _ _ _ _ _ _ _ _ Hi) as Hcr.
  pose proof (more_slots_nonneg L Hwf pkt) as Hms. pose proof (l_size_le L Hwf).
  pose proof (rc_len _ _ _ _ _ (ri_core _ _ _ _ _ _ _ _ _ Hi)). pose proof (zlen_nonneg cells).
  unfold WritePacket. apply wp_bind. eapply wp_producer_state; [done|]. intros s Hs. cbv beta iota.
  case_bool; zbool.
  { apply wp_bind, (wp_side_interrupt L pp pq d Hsd); [by eapply ring_inv_flags|].
    intros r k. apply wp_ret. unfold write_post, slots. simpl.
    rewrite (proj2 (Z.leb_gt _ _)) by lia. done. }
  apply wp_bind. eapply wp_first_slot; [done|lia|done|]. intros db m1 Hc1 Hih.
  apply wp_bind. eapply (wp_WritePacket_loop L Hwf pp pq d Hsd pkt _ P); simpl.
  { exact Hs. }
  { exact Hih. }
  { intros j Hj. eapply same_writable; [|by eapply ri_free; [exact Hi|lia]].
    eapply confined_same; [apply Hwf|done|apply sl_range, Hwf|apply apart_after; [apply Hwf|lia..]]. }
  { lia. }
  { rewrite (confined_hdr L Hwf _ _ _ _ _ _ Hc1) by done. by eapply ring_inv_flags. }
  { rewrite (zlen_chunk L Hwf). lia. }
  - rewrite (zlen_chunk L Hwf). fold (more_slots (l_cap L) pkt).
    intros Hle m2 db2 s2 Hs2 Hc2 Hcells Hih2.
    eapply write_commit; try done; [unfold slots; lia|].
    assert (0 <= more_slots (l_cap L) pkt) by apply (more_slots_nonneg L Hwf).
    eapply confined_trans; [|exact Hc2]. eapply confined_widen; [exact Hc1|lia..].
  - rewrite (zlen_chunk L Hwf). fold (more_slots (l_cap L) pkt).
    intros Hlt m2 k Hc2 Hw2. apply wp_ret. unfold write_post, slots. simpl.
    rewrite (proj2 (Z.leb_gt _ _)) by lia.
    assert (confined L P (P + credit) (shm w) m2) as Hc12.
    { eapply confined_trans; eapply confined_widen; [exact Hc1|lia|lia|exact Hc2|lia|lia]. }
    split; [split; [done|]|].
    + eapply ring_inv_scribble; [done|done|]. intros x Hx.
      replace x with (P + (x - P)) by lia. apply Hw2. lia.
    + intros. by eapply confined_off_ring; [apply Hwf|..].
Qed.
End write.

(** ** ReadPacket *)

(** [refill] only moves the queue's private counters. *)
Definition same_ring (q q' : Queue) : Prop :=
  q_ring q' = q_ring q /\ q_port q' = q_port q /\ interruptFd q' = interruptFd q.

(** Two header fields do not overlap. *)
Ltac hside := rewrite ?zlen_le16; simpl; first [left; lay | right; lay].

Section read.
Context `{OS} (t : ringType) (L : layout) (pp : Port) (pq : Queue) (cp : Port) (cr : ring)
  (Hlk : linked t L pp pq cp cr).
Implicit Types (w : world) (pkt : list byte).

#[local] Lemma Hwfr : layout_wf L.
Proof using Hlk. apply Hlk. Qed.

(** The consumer's view: its slot, and the number of published cells. *)
Lemma wp_consumer_state cq C P credit cells w (Q : Z -> world -> Prop) :
  q_ring cq = cr -> ring_inv t L pp (shm w) cq C P credit cells ->
  Q (u16 P) w ->
  wp (if IsServer (cfg cp) then readHead cp cq else readTail cp cq) w Q.
Proof using Hlk.
  intros Hr Hi HQ. destruct (lk_cons _ _ _ _ _ _ Hlk) as [d Hs]. specialize (Hs _ Hr).
  pose proof (ri_prod _ _ _ _ _ _ _ _ _ Hi) as Hp. rewrite (lk_cserver _ _ _ _ _ _ Hlk).
  destruct t; simpl in *; by eapply (wp_side_load L cp cq d Hs).
Qed.

(** Consuming [k] cells and giving their slots back. *)
Definition refill_post (cq : Queue) (C P : Z) (cells : list cell) (k : nat)
    (w : world) (q' : Queue) (w' : world) : Prop :=
  let C' := C + Z.of_nat k in
  same_ring cq q' /\
  ring_inv t L pp (shm w') q' C' P (C' + l_size L - P) (drop k cells) /\
  (forall f o z, off_ring L f o z -> ld (shm w') f o z = ld (shm w) f o z).

Lemma drop_core C P cells k m :
  ring_core L m C P cells -> (k <= length cells)%nat ->
  ring_core L m (C + Z.of_nat k) P (drop k cells).
Proof using.
  intros [H1 H2 H3 H4 H5] Hk. split; try done.
  - unfold zlen in *. rewrite length_drop. lia.
  - lia.
  - intros j c. rewrite lookup_drop. intros Hj. apply H4 in Hj.
    by replace (C + Z.of_nat k + Z.of_nat j) with (C + Z.of_nat (k + j)) by lia.
Qed.

(** The server's end of S2M: publish the tail. *)
Lemma wp_refill_server cq C P credit cells k s w :
  t = ringTypeS2M -> q_ring cq = cr -> ring_inv t L pp (shm w) cq C P credit cells ->
  (k <= length cells)%nat -> u16 s = u16 (C + Z.of_nat k) ->
  wp (refill cp cq s) w (refill_post cq C P cells k w).
Proof using Hlk.
  intros Ht Hr Hi Hk Hs. destruct (lk_cons _ _ _ _ _ _ Hlk) as [d Hsd].
  pose proof (lk_pserver _ _ _ _ _ _ Hlk) as Hps. pose proof (lk_size _ _ _ _ _ _ Hlk) as Hsz.
  destruct Hi as [Hcore Hcr Hp Hc Hl Hfr Hfu]. pose proof Hwfr as Hw.
  unfold refill. rewrite (lk_cserver _ _ _ _ _ _ Hlk). rewrite Ht in *. simpl in *.
  apply wp_bind.
  eapply (wp_side_store L cp (set_lastHead (u16 s) cq) d); [by apply Hsd|done|done|by eauto|].
  intros m Hm. apply wp_ret. simpl.
  assert (Hss : forall i, 0 <= i < l_size L -> same_slot L (shm w) m i)
    by (intros; eapply hdr_store_same; done).
  pose proof (rc_len _ _ _ _ _ Hcore). pose proof (rc_cap _ _ _ _ _ Hcore).
  unfold zlen in *. split; [done|]. simpl. split; [split|]; rewrite ?Ht; simpl.
  - apply drop_core; [|done]. eapply ring_core_same; [done|..].
    + intros i Hi. eapply same_slot_ok; [by apply Hss|by apply Hcore].
    + intros x Hx. apply Hss. by apply sl_range.
    + rewrite (hdr_store_other L _ _ _ _ _ Hm) by hside. apply Hcore.
  - lia.
  - rewrite (hdr_store_other L _ _ _ _ _ Hm); [done|hside].
  - erewrite <- (le16_congr s) by done. exact (ld_st_same _ _ _ _ _ Hm).
  - by rewrite <- Hs.
  - intros x Hx. destruct (rc_slots _ _ _ _ _ Hcore (sl L x)) as [(fl & len & Hd) Hv];
      [by apply sl_range|].
    eapply same_writable; [by apply Hss, sl_range|]. split; [|done].
    exists fl, len. split; [done|]. by rewrite Hps.
  - lia.
  - intros f o z Ho. by eapply (hdr_store_off_ring L Hw); [exact Hm|..].
Qed.

(** The invariant after a client has reposted the slots [P + credit .. C' + size)
    and stored its head: the other slots are as before. *)
Lemma ring_inv_repost cq q' C P credit cells k m m2 s' :
  t = ringTypeM2S -> ring_inv t L pp m cq C P credit cells -> (k <= length cells)%nat ->
  let C' := C + Z.of_nat k in
  lastTail q' = u16 C' ->
  (forall x, C' <= x < P + credit -> same_slot L m m2 (sl L x)) ->
  (forall x, P + credit <= x < C' + l_size L ->
     buf_valid L m2 (sl L x) /\ exists fl, has_desc L m2 (sl L x) fl (l_cap L)) ->
  (forall o, o = ringTailOffset \/ o = ringFlagsOffset ->
     ld m2 (l_file L) (l_hdr L + o) 2 = ld m (l_file L) (l_hdr L + o) 2) ->
  u16 s' = u16 (C' + l_size L) ->
  ld m2 (l_file L) (l_hdr L + ringHeadOffset) 2 = Some (le16 s') ->
  ring_inv t L pp m2 q' C' P (C' + l_size L - P) (drop k cells).
Proof using Hlk.
  intros Ht [Hcore Hcr Hp Hc Hl Hfr Hfu] Hk C' Hlast Hsame Hnew Hhdr Hs' Hhead.
  pose proof (lk_pserver _ _ _ _ _ _ Hlk) as Hps. pose proof (lk_size _ _ _ _ _ _ Hlk) as Hsz.
  pose proof Hwfr as Hw. pose proof (lw_cap _ Hw) as Hcap. pose proof (rc_len _ _ _ _ _ Hcore) as HP.
  rewrite Ht in *. simpl in *. destruct Hsz as [_ Hcap16].
  assert (C <= C' <= P) as HC' by (unfold C', zlen in *; lia).
  split; rewrite ?Ht; simpl.
  - pose proof (drop_core _ _ _ k _ Hcore Hk) as Hdc. fold C' in Hdc. eapply ring_core_same; [done|..].
    + intros i Hi. destruct (slot_pos L Hw C' i Hi) as (x & Hx & <-).
      destruct (decide (x < P + credit)).
      * eapply same_slot_ok; [apply Hsame; lia|by apply Hcore].
      * destruct (Hnew x) as (Hv & fl & Hd); [lia|]. split; [eauto|done].
    + intros x Hx. apply Hsame. lia.
    + rewrite Hhdr by by right. apply Hcore.
  - lia.
  - by rewrite Hhdr by by left.
  - rewrite Hhead. f_equal. apply le16_congr. rewrite Hs'. f_equal. lia.
  - exact Hlast.
  - intros x Hx. destruct (decide (x < P + credit)).
    + eapply same_writable; [apply Hsame; lia|]. apply Hfr. lia.
    + destruct (Hnew x) as (Hv & fl & Hd); [lia|]. split; [|done].
      exists fl, (l_cap L). split; [done|]. by rewrite Hps.
  - intros i Hi. destruct (slot_pos L Hw C' i Hi) as (x & Hx & <-).
    destruct (decide (x < P + credit)).
    + destruct (Hfu _ Hi) as (fl & len & Hd & ?). exists fl, len. split; [|done].
      eapply same_has_desc; [apply Hsame; lia|done].
    + destruct (Hnew x) as (Hv & fl & Hd); [lia|]. exists fl, (l_cap L). split; [done|lia].
Qed.

(** The client's end of M2S: post buffers again up to a full lap, publish the
    head. *)
Lemma wp_refill_client cq C P credit cells k s w :
  t = ringTypeM2S -> q_ring cq = cr -> ring_inv t L pp (shm w) cq C P credit cells ->
  (k <= length cells)%nat -> u16 s = u16 (C + Z.of_nat k) ->
  wp (refill cp cq s) w (refill_post cq C P cells k w).
Proof using Hlk.
  intros Ht Hr Hi Hk Hs. pose proof (fun q' => ring_inv_repost cq q' C P credit cells k (shm w)) as Hrep.
  destruct (lk_cons _ _ _ _ _ _ Hlk) as [d Hsd].
  pose proof (lk_size _ _ _ _ _ _ Hlk) as Hsz. pose proof Hi as [Hcore Hcr Hp Hc Hl Hfr Hfu].
  pose proof Hwfr as Hw. pose proof (l_size_le L Hw) as Hn.
  unfold refill. rewrite (lk_cserver _ _ _ _ _ _ Hlk). rewrite Ht in *. simpl in *.
  destruct Hsz as [Hpbs Hcap16].
  pose proof (rc_len _ _ _ _ _ Hcore) as HP. pose proof (rc_cap _ _ _ _ _ Hcore).
  set (q' := set_lastTail (u16 s) cq). specialize (Hsd q' Hr).
  set (C' := C + Z.of_nat k) in *. assert (C <= C' <= P) as HC' by (unfold zlen in *; lia).
  apply wp_bind. eapply (wp_side_load L cp q' d Hsd ringHeadOffset (P + credit)); [done..|].
  apply wp_bind.
  assert (u16 (rg_size (q_ring cq) - u16 (P + credit) + u16 s) = C' + l_size L - (P + credit)) as ->.
  { change (q_ring cq) with (q_ring q'). rewrite (sd_size _ _ _ _ Hsd), Hs, u16_add_r.
    replace (l_size L - u16 (P + credit) + C') with (l_size L + C' - u16 (P + credit)) by lia.
    rewrite u16_sub_r, u16_small; lia. }
  eapply (wp_refill_loop L Hw cp q' d Hsd _ (P + credit)); [apply u16_u16|lia|done|done| |].
  { intros j Hj. apply Hfu. by apply sl_range. }
  rewrite Z2Nat.id by lia. intros m s' Hs' Hcf Hpost.
  apply wp_bind. eapply (wp_side_store L cp q' d Hsd); [done|done| |].
  { rewrite (confined_hdr L Hw _ _ _ _ _ _ Hcf) by done. by eauto. }
  intros m2 Hm2. apply wp_ret. simpl in *.
  assert (Hss : forall i, 0 <= i < l_size L -> same_slot L m m2 i)
    by (intros; by eapply (hdr_store_same L Hw)).
  split; [done|]. split.
  - rewrite Ht. eapply (Hrep q' m2 s'); [done|done|done|exact Hs|..|exact (ld_st_same _ _ _ _ _ Hm2)];
      fold C'.
    + intros x Hx. eapply same_trans; [|by apply Hss, sl_range].
      eapply confined_same; [done|done|by apply sl_range|]. apply apart_before; [done|lia..].
    + intros x Hx. destruct (Hpost (x - (P + credit))) as [fl Hd]; [lia|].
      replace (P + credit + (x - (P + credit))) with x in Hd by lia.
      split; [|exists fl; by eapply same_has_desc, Hd; apply Hss, sl_range].
      eapply same_buf_valid; [by apply Hss, sl_range|]. eapply confined_buf_valid; [done|].
      apply Hcore. by apply sl_range.
    + intros o [-> | ->]; rewrite (hdr_store_other L _ _ _ _ _ Hm2) by hside;
        by rewrite (confined_hdr L Hw _ _ _ _ _ _ Hcf).
    + rewrite Hs'. f_equal. lia.
  - intros f o z Ho. rewrite (hdr_store_off_ring L Hw _ _ _ _ _ _ _ Hm2) by done.
    by eapply (confined_off_ring L Hw).
Qed.

Lemma wp_refill cq C P credit cells k s w :
  q_ring cq = cr -> ring_inv t L pp (shm w) cq C P credit cells ->
  (k <= length cells)%nat -> u16 s = u16 (C + Z.of_nat k) ->
  wp (refill cp cq s) w (refill_post cq C P cells k w).
Proof using Hlk.
  intros. destruct (decide (t = ringTypeS2M)) as [|Ht].
  - by eapply wp_refill_server.
  - eapply wp_refill_client; try done. by destruct t.
Qed.

(** What a call leaves behind, by the cells it found. *)
Definition read_post (cq : Queue) (C P credit : Z) (cells : list cell) (pkt : list byte)
    (w : world) (r : read_result) (w' : world) : Prop :=
  match cells with
  | [] =>
      rd_pkt r = pkt /\ rd_n r = 0 /\ rd_err r = None /\
      refill_post cq C P [] 0 w (rd_queue r) w'
  | (b, bs) :: cs =>
      let '(ds, k, ok) := chain_of b cs in
      rd_pkt r = splice 0 (bs ++ ds) pkt /\
      if ok then
        rd_n r = zlen (bs ++ ds) /\ rd_err r = None /\
        refill_post cq C P cells (S k) w (rd_queue r) w'
      else rd_n r = 0 /\ rd_err r = Some err_incomplete /\ rd_queue r = cq /\ w' = w
  end.

(** The bytes the next frame holds. *)
Definition next_frame (cells : list cell) : list byte :=
  match cells with
  | [] => []
  | (b, bs) :: cs => bs ++ fst (fst (chain_of b cs))
  end.

Lemma wp_ReadPacket cq C P credit cells pkt w :
  q_ring cq = cr -> ring_inv t L pp (shm w) cq C P credit cells ->
  zlen (next_frame cells) <= zlen pkt ->
  wp (ReadPacket cp cq pkt) w (read_post cq C P credit cells pkt w).
Proof using Hlk.
  intros Hr Hi Hfit. destruct (lk_cons _ _ _ _ _ _ Hlk) as [d Hs]. specialize (Hs _ Hr).
  pose proof Hwfr as Hw. pose proof (l_size_le L Hw).
  pose proof (ri_core _ _ _ _ _ _ _ _ _ Hi) as Hcore.
  pose proof (rc_len _ _ _ _ _ Hcore) as HP. pose proof (rc_cap _ _ _ _ _ Hcore).
  pose proof (zlen_nonneg cells).
  assert ((if IsServer (cfg cp) then lastHead cq else lastTail cq) = u16 C) as Hlast.
  { rewrite <- (ri_last _ _ _ _ _ _ _ _ _ Hi), (lk_cserver _ _ _ _ _ _ Hlk). by destruct t. }
  unfold ReadPacket. rewrite Hlast. cbv zeta. apply wp_bind. eapply wp_consumer_state; [done..|].
  assert (u16 (u16 P - u16 C) = zlen cells) as ->.
  { rewrite u16_sub_l, u16_sub_r. replace (P - C) with (zlen cells) by lia. apply u16_small. lia. }
  destruct cells as [|[b bs] cs].
  { apply wp_bind. eapply wp_mono;
      [eapply (wp_refill _ _ _ _ [] 0); [done|done|simpl; lia|rewrite Z.add_0_r; apply u16_u16]|].
    intros q' w' Hpost. by apply wp_ret. }
  destruct (rc_cells _ _ _ _ _ Hcore O _ eq_refl) as [Hd Hc].
  rewrite Z.add_0_r in Hd, Hc. simpl in Hd, Hc, Hfit.
  rewrite (proj2 (Z.eqb_neq _ _)) by (unfold zlen; cbn [length]; lia).
  apply wp_bind. eapply (wp_get_slot L Hw cp cq d Hs); [apply u16_u16|apply newDescBuf_wf|exact Hd|].
  intros db Hdb Hf Hrg Hl Ho. cbv beta zeta. rewrite Hl. apply wp_assoc. apply wp_bind.
  rewrite zlen_app in Hfit. pose proof (zlen_nonneg bs).
  pose proof (zlen_nonneg (fst (fst (chain_of b cs)))) as Hds.
  eapply (wp_copy_chunk L cp cq d Hs); [by apply sl_range|exact Hc|done|done|lia|].
  match goal with |- context [Z.to_nat ?e] => replace (Z.to_nat e) with (length cs) by
    (unfold zlen; cbn [length]; lia) end.
  apply wp_bind.
  pose proof (wp_ReadPacket_chain L Hw cp cq d Hs (length cs) cs (C + 1) (u16 C + 1) (zlen bs) b db
                (go_copy pkt bs) w) as Hchain.
  unfold read_post. pose proof (chain_of_le b cs) as Hk.
  destruct (chain_of b cs) as [[ds k] ok]. simpl in Hfit, Hk, Hds.
  apply Hchain; try done; try lia.
  - by rewrite u16_add_l.
  - intros j c Hj. replace (C + 1 + Z.of_nat j) with (C + Z.of_nat (S j)) by lia.
    by apply (rc_cells _ _ _ _ _ Hcore (S j)).
  - rewrite zlen_go_copy. lia.
  - intros s' Hs'.
    rewrite splice_go_copy by lia.
    destruct ok; cbv beta iota; [|apply wp_ret; done].
    apply wp_bind. eapply wp_mono; [eapply (wp_refill _ _ _ _ _ (S k)); [done|done|simpl; lia|]|].
    { rewrite Hs'. f_equal. lia. }
    intros q' w' Hpost. apply wp_ret. simpl. by rewrite zlen_app.
Qed.
End read.
