(* ===== verification/Demo.v ===== *)
(** * A concrete link

    One mapped file with a two-slot ring (header at 0, descriptors at 128,
    two 4-byte packet buffers at 160), a client and a server that map it, and a
    kernel whose calls all succeed.  Used to evaluate the definitions and to
    instantiate the theorems. *)
From stdpp Require Import base tactics list gmap strings.
From coqutil Require Import Byte.
From Stdlib Require Import ZArith Lia.
From S2P Require Import Prelude.
From S2P Require Import GoInt.
From S2P Require Import Shm.
From S2P Require Import Descriptor.
From S2P Require Import State.
From S2P Require Import Ring.
From S2P Require Import Queue.
From S2P Require Import Packet.
From S2P Require Import Layout.
From S2P Require Import Transfer.
From S2P Require Import Link.

(** The kernel: hands out numbers, sizes the files it is asked to, and succeeds.
    File [fd] is memory file [Z.to_nat fd]. *)
Record demo_kernel := mkDemo {
  next_fd : Z;
  sent : list (Z * list byte * option Z);   (* descriptor, bytes, passed descriptor *)
  inbox : list received
}.

Definition demo_sys (X : Type) (c : syscall X) (m : mem) (s : demo_kernel) : X * mem * demo_kernel :=
  let fresh := mkDemo (next_fd s + 1) (sent s) (inbox s) in
  match c in syscall X return X * mem * demo_kernel with
  | SysWrite _ buf => (inl (zlen buf), m, s)
  | SysClose _ => (None, m, s)
  | SysEventfd _ _ => (inl (next_fd s), m, fresh)
  | SysMemfdCreate _ _ => (inl (next_fd s), <[Z.to_nat (next_fd s) := []]> m, fresh)
  | SysFcntl _ _ _ => (None, m, s)
  | SysFtruncate f n => (None, <[Z.to_nat f := zeros n]> m, s)
  | SysMmap f n => (inl (mkSlice (Z.to_nat f) 0 n), m, s)
  | SysMunmap _ => (None, m, s)
  | SysEpollCreate => (inl (next_fd s), m, fresh)
  | SysEpollCtl _ _ _ => (None, m, s)
  | SysSocket => (inl (next_fd s), m, fresh)
  | SysSetPasscred _ => (None, m, s)
  | SysBind _ _ => (None, m, s)
  | SysListen _ => (None, m, s)
  | SysConnect _ _ => (None, m, s)
  | SysAccept _ => (inl (next_fd s), m, fresh)
  | SysSendmsg f buf _ rfd => (None, m, mkDemo (next_fd s) (sent s ++ [(f, buf, rfd)]) (inbox s))
  | SysRecvmsg _ =>
      match inbox s with
      | [] => (inr 11, m, s)
      | r :: rest => (inl r, m, mkDemo (next_fd s) (sent s) rest)
      end
  | SysRemove _ => (None, m, s)
  | SysWgWait _ => (true, m, s)
  end.

#[export] Instance demo_os : OS := { os_state := demo_kernel; sys := demo_sys }.
#[export] Instance demo_os_write : OSWrite demo_os.
Proof. split. reflexivity. Defined.

Definition demo_mc : MemoryConfig := mkMemoryConfig 1 1 4.
Definition demo_cfg (server : bool) : PortCfg :=
  mkPortCfg 0 server [] (zeros 24) demo_mc (UserFunc 0) (UserFunc 1) None.
Definition demo_data : slice := mkSlice 0 0 168.
Definition demo_ring (t : ringType) : ring := mkRing t 2 1 0 (zeros 128) 0.
Definition demo_queue (t : ringType) : Queue := mkQueue (demo_ring t) 0 0 0 9.
Definition demo_port (server : bool) : Port :=
  mkPort (demo_cfg server) demo_mc None None [] [] [mkRegion (Some demo_data) 168 3 0] [] [] false false.

Definition demo_layout : layout :=
  mkLayout 0 0 1 4 (fun _ => 0) (fun i => 160 + 4 * i) (fun _ => O) (fun i => 160 + 4 * i).

(** Header: cookie, flags 1, counters 0; two posted descriptors; two buffers. *)
Definition demo_bytes : list byte :=
  le32 65216288 ++ le16 1 ++ zeros 122 ++
  encode_desc (mkDesc 0 0 4 160 0) ++ encode_desc (mkDesc 0 0 4 164 0) ++ zeros 8.
Definition demo_mem : mem := {[ O := demo_bytes ]}.
Definition demo_world : world := mkWorld demo_mem (mkDemo 10 [] []).

Lemma demo_layout_wf : layout_wf demo_layout.
Proof.
  split; unfold demo_layout, l_size; simpl; try lia.
  - intros i Hi. right. unfold ringSize, descSize. change (2 ^ 1) with 2 in *. lia.
  - intros i j Hi Hj ?. right. change (2 ^ 1) with 2 in *. lia.
Qed.

Lemma demo_side server t q : q_ring q = demo_ring t -> side demo_layout (demo_port server) q demo_data.
Proof.
  intros Hq. split; unfold hdr; rewrite ?Hq; try done.
  - split; rewrite ?Hq; try done. by eexists.
  - intros i Hi. change (l_size demo_layout) with 2 in Hi. split; [done|].
    eexists _, demo_data. repeat split; simpl; lia.
Qed.

Lemma demo_linked t :
  linked t demo_layout (demo_port (producer_is_server t)) (demo_queue t)
    (demo_port (negb (producer_is_server t))) (demo_ring t).
Proof.
  split; try done.
  - apply demo_layout_wf.
  - exists demo_data. by eapply demo_side.
  - exists demo_data. intros q Hq. by eapply demo_side.
  - by destruct t.
Qed.

(** Both slots carry fresh descriptors. *)
Lemma demo_slot i : 0 <= i < 2 -> has_desc demo_layout demo_mem i 0 4 /\ buf_valid demo_layout demo_mem i.
Proof.
  intros Hi. assert (i = 0 \/ i = 1) as [->| ->] by lia.
  - split; [exists (encode_desc (mkDesc 0 0 4 160 0)); by vm_compute|by eexists].
  - split; [exists (encode_desc (mkDesc 0 0 4 164 0)); by vm_compute|by eexists].
Qed.

(** The empty link: S2M starts with full credit, M2S with none (the client has
    posted no buffer yet). *)
Lemma demo_inv t :
  ring_inv t demo_layout (demo_port (producer_is_server t)) demo_mem (demo_queue t) 0 0
    (match t with ringTypeS2M => 2 | ringTypeM2S => 0 end) [].
Proof.
  split; try (by destruct t).
  - split; try done.
    intros i Hi. destruct (demo_slot i Hi). split; eauto.
  - intros x Hx. destruct t; [|lia]. pose proof (sl_range demo_layout demo_layout_wf x).
    destruct (demo_slot (sl demo_layout x)) as [Hd Hv]; [done|].
    split; [|done]. eexists _, _. split; [done|done].
  - destruct t; [done|]. intros i Hi. destruct (demo_slot i Hi) as [Hd _].
    eexists _, _. split; [done|lia].
Qed.
