(* ===== verification/Fifo.v ===== *)
(** * The abstract link, and its refinement

    What an application may rely on: a ring is a FIFO of packets with a credit
    of slots.  [exec] runs any sequence of [WritePacket] and [ReadPacket] calls
    on the shared memory; [fifo_refinement] says that it answers as the FIFO
    does, in both directions, from any state satisfying the invariant. *)
From stdpp Require Import base tactics list gmap strings.
From coqutil Require Import Byte.
From Stdlib Require Import ZArith Lia.
From S2P Require Import Prelude.
From S2P Require Import GoInt.
From S2P Require Import Shm.
From S2P Require Import Descriptor.
From S2P Require Import State.
From S2P Require Import Ring.
From S2P Require Import Queue.
From S2P Require Import Packet.
From S2P Require Import Layout.
From S2P Require Import Transfer.
From S2P Require Import Link.
From S2P Require Import Demo.

Inductive op := OWrite (pkt : list byte) | ORead (buf : list byte).
Inductive out := OutWrite (n : Z) | OutRead (n : Z) (buf : list byte) (err : option goerror).

(** ** Specification *)

(** Packets sent and not yet received, oldest first; slots the producer may
    still fill. *)
Record fifo := mkFifo { packets : list (list byte); f_credit : Z }.

Section spec.
Context (n cap : Z).

(** Slots a list of packets occupies. *)
Definition used (ps : list (list byte)) : Z := foldr (fun p s => slots cap p + s) 0 ps.

(** Writing takes credit, all or nothing; reading gives back every slot that
    no waiting packet occupies.  A read buffer too small for the next packet
    is outside the specification. *)
Definition fifo_step (s : fifo) (o : op) : option (out * fifo) :=
  match o with
  | OWrite pkt =>
      if slots cap pkt <=? f_credit s
      then Some (OutWrite (written cap pkt),
                 mkFifo (packets s ++ [pkt]) (f_credit s - slots cap pkt))
      else Some (OutWrite 0, s)
  | ORead buf =>
      match packets s with
      | [] => Some (OutRead 0 buf None, mkFifo [] n)
      | p :: ps =>
          if zlen (delivered cap p) <=? zlen buf
          then Some (OutRead (zlen (delivered cap p)) (splice 0 (delivered cap p) buf) None,
                     mkFifo ps (n - used ps))
          else None
      end
  end.

Fixpoint fifo_run (s : fifo) (ops : list op) : option (list out * fifo) :=
  match ops with
  | [] => Some ([], s)
  | o :: ops =>
      match fifo_step s o with
      | Some (r, s) =>
          match fifo_run s ops with Some (rs, s) => Some (r :: rs, s) | None => None end
      | None => None
      end
  end.
End spec.

(** ** Implementation *)

Section exec.
Context `{OS}.

(** One call: the producer's queue is not changed by [WritePacket], the
    consumer's is by [ReadPacket]. *)
Definition exec1 (pp : Port) (pq : Queue) (cp : Port) (cq : Queue) (o : op) : prog (out * Queue) :=
  match o with
  | OWrite pkt => n ← WritePacket pp pq pkt; mret (OutWrite n, cq)
  | ORead buf =>
      r ← ReadPacket cp cq buf;
      mret (OutRead (rd_n r) (rd_pkt r) (rd_err r), rd_queue r)
  end.

Fixpoint exec (pp : Port) (pq : Queue) (cp : Port) (cq : Queue) (ops : list op)
    : prog (list out * Queue) :=
  match ops with
  | [] => mret ([], cq)
  | o :: ops =>
      '(r, cq) ← exec1 pp pq cp cq o;
      '(rs, cq) ← exec pp pq cp cq ops;
      mret (r :: rs, cq)
  end.
End exec.

(** ** Refinement *)

(** The shared memory and the consumer's queue represent [s]. *)
Definition represents (t : ringType) (L : layout) (pp : Port) (cr : ring) (s : fifo)
    (m : mem) (cq : Queue) : Prop :=
  q_ring cq = cr /\
  exists C P, ring_inv t L pp m cq C P (f_credit s) (concat (encode (l_cap L) <$> packets s)).

Section refinement.
Context `{OS} (t : ringType) (L : layout) (pp : Port) (pq : Queue) (cp : Port) (cr : ring)
  (Hlk : linked t L pp pq cp cr).

Lemma zlen_encodes ps : zlen (concat (encode (l_cap L) <$> ps)) = used (l_cap L) ps.
Proof using Hlk.
  pose proof (lk_wf _ _ _ _ _ _ Hlk) as Hwf.
  induction ps as [|p ps IH]; [done|]. cbn [fmap list_fmap concat used foldr].
  rewrite zlen_app, (zlen_encode L Hwf), IH. done.
Qed.

(** The cells of a packet, and what is left once they are read. *)
Lemma encode_head p rest :
  exists b bs cs, encode (l_cap L) p ++ rest = (b, bs) :: cs /\
    let '(ds, k, ok) := chain_of b cs in
    bs ++ ds = delivered (l_cap L) p /\ ok = true /\
    Z.of_nat (S k) = slots (l_cap L) p /\ drop k cs = rest.
Proof using Hlk.
  pose proof (lk_wf _ _ _ _ _ _ Hlk) as Hwf.
  pose proof (more_slots_nonneg L Hwf p) as Hm. rewrite (concat_encode L).
  unfold encode, slots. set (c := chunk (l_cap L) p) in *.
  rewrite <- (Z2Nat.id (more_slots _ p)) by done. rewrite Nat2Z.id.
  destruct (Z.to_nat (more_slots (l_cap L) p)) as [|k].
  - exists false, c, rest. split; [done|]. destruct rest; simpl; rewrite ?app_nil_r; done.
  - exists true, c, (replicate k (true, c) ++ (false, c) :: rest). split.
    { rewrite <- app_assoc. done. }
    rewrite chain_of_replicate. repeat split; [lia|].
    rewrite drop_app_ge by (rewrite length_replicate; lia).
    rewrite length_replicate. by replace (S k - k)%nat with 1%nat by lia.
Qed.

(** One call on the ring and on the specification; the rest of the memory is
    untouched. *)
Lemma exec1_refines_frame `{!OSWrite _} s o r s' w cq :
  represents t L pp cr s (shm w) cq -> fifo_step (l_size L) (l_cap L) s o = Some (r, s') ->
  wp (exec1 pp pq cp cq o) w (fun a w' =>
    a.1 = r /\ represents t L pp cr s' (shm w') a.2 /\
    (forall f o k, off_ring L f o k -> ld (shm w') f o k = ld (shm w) f o k)).
Proof using Hlk.
  intros (Hr & C & P & Hi) Hstep. pose proof (lk_wf _ _ _ _ _ _ Hlk) as Hwf.
  destruct o as [pkt|buf]; simpl in *.
  - apply wp_bind. eapply wp_mono; [by eapply (wp_WritePacket t L pp pq cp cr Hlk)|].
    intros n w' [Hpost Hfr]. apply wp_ret. case_match; destruct Hpost as [-> Hi']; injection Hstep as <- <-.
    + split; [done|]. split; [|done]. split; [done|]. eexists _, _. simpl.
      rewrite fmap_app, concat_app. simpl. rewrite app_nil_r. exact Hi'.
    + split; [done|]. split; [|done]. split; [done|]. eauto.
  - destruct (packets s) as [|p ps] eqn:Hps; rewrite ?Hps in *; simpl in *.
    + injection Hstep as <- <-. apply wp_bind. eapply wp_mono;
        [eapply (wp_ReadPacket t L pp pq cp cr Hlk); [done|done|simpl; apply zlen_nonneg]|].
      intros rr w' (Hpk & Hn & He & Hring & Hi' & Hfr). apply wp_ret. simpl.
      rewrite Hpk, Hn, He. split; [done|]. split; [|done]. split; [by rewrite (proj1 Hring)|].
      eexists _, _. simpl. rewrite drop_nil in Hi'.
      pose proof (rc_len _ _ _ _ _ (ri_core _ _ _ _ _ _ _ _ _ Hi)) as HP.
      change (zlen []) with 0 in HP.
      replace (l_size L) with (C + Z.of_nat 0 + l_size L - P) by lia. exact Hi'.
    + destruct (encode_head p (concat (encode (l_cap L) <$> ps))) as (b & bs & cs & He & Hch).
      change (ring_inv t L pp (shm w) cq C P (f_credit s)
        (encode (l_cap L) p ++ concat (encode (l_cap L) <$> ps))) in Hi.
      rewrite He in Hi. destruct (chain_of b cs) as [[ds k] ok] eqn:Hco.
      destruct Hch as (Hdel & -> & Hk & Hrest).
      case_match eqn:Hfit; [|done]. injection Hstep as <- <-. zbool.
      apply wp_bind. eapply wp_mono;
        [eapply (wp_ReadPacket t L pp pq cp cr Hlk); [done|done|]|].
      { simpl. rewrite Hco. simpl. by rewrite Hdel. }
      intros rr w'. unfold read_post. rewrite Hco, Hdel.
      intros (Hpk & Hn & Her & Hring & Hi' & Hfr). apply wp_ret. simpl.
      rewrite Hpk, Hn, Her. split; [done|]. split; [|done]. split; [by rewrite (proj1 Hring)|].
      eexists _, _. simpl. change (drop (S k) ((b, bs) :: cs)) with (drop k cs) in Hi'.
      rewrite Hrest in Hi'. pose proof (rc_len _ _ _ _ _ (ri_core _ _ _ _ _ _ _ _ _ Hi')) as HP.
      rewrite <- (zlen_encodes ps).
      replace (l_size L - zlen _) with (C + Z.of_nat (S k) + l_size L - P) by lia. exact Hi'.
Qed.

Lemma exec1_refines `{!OSWrite _} s o r s' w cq :
  represents t L pp cr s (shm w) cq -> fifo_step (l_size L) (l_cap L) s o = Some (r, s') ->
  wp (exec1 pp pq cp cq o) w (fun a w' => a.1 = r /\ represents t L pp cr s' (shm w') a.2).
Proof using Hlk.
  intros Hrep Hstep. eapply wp_mono; [by eapply exec1_refines_frame|]. by intros a w' (? & ? & _).
Qed.

Lemma exec_refines `{!OSWrite _} ops s rs s' w cq :
  represents t L pp cr s (shm w) cq -> fifo_run (l_size L) (l_cap L) s ops = Some (rs, s') ->
  wp (exec pp pq cp cq ops) w (fun a w' => a.1 = rs /\ represents t L pp cr s' (shm w') a.2).
Proof using Hlk.
  revert s rs w cq. induction ops as [|o ops IH]; intros s rs w cq Hrep Hrun; simpl in *.
  { simplify_eq. by apply wp_ret. }
  destruct (fifo_step _ _ s o) as [[r s1]|] eqn:Hstep; [|done].
  destruct (fifo_run _ _ s1 ops) as [[rs1 s2]|] eqn:Hrun1; [|done]. simplify_eq.
  apply wp_bind. eapply wp_mono; [by eapply exec1_refines|].
  intros [r1 cq1] w1 [Hr1 Hrep1]. simpl in *. apply wp_bind.
  eapply wp_mono; [by eapply IH|]. intros [rs2 cq2] w2 [Hrs Hrep2]. apply wp_ret.
  simpl in *. by rewrite Hr1, Hrs.
Qed.
End refinement.

(** ** What reaches the peer *)

Section delivered.
Context (cap : Z) (Hcap : 0 < cap).

Lemma more_slots_fits pkt : zlen pkt <= cap -> more_slots cap pkt = 0.
Proof using Hcap. intros. unfold more_slots. apply extra_done; lia. Qed.

Lemma chunk_fits pkt : zlen pkt <= cap -> chunk cap pkt = pkt.
Proof using. intros. unfold chunk. rewrite Z.min_r by lia. apply sub_full. Qed.

Lemma chunk_long pkt : cap <= zlen pkt -> chunk cap pkt = take (Z.to_nat cap) pkt.
Proof using. intros. unfold chunk, sub. by rewrite Z.min_l by lia. Qed.

(** The number of slots of an oversized packet is the rounded-up quotient. *)
Lemma slots_long pkt : cap < zlen pkt -> slots cap pkt = (zlen pkt + cap - 1) / cap.
Proof using Hcap.
  intros. unfold slots, more_slots, extra. rewrite Z.min_l, Z.max_l by lia.
  replace (zlen pkt + cap - 1) with (zlen pkt - cap + cap - 1 + 1 * cap) by lia.
  rewrite Z.div_add by lia. lia.
Qed.

Lemma written_long pkt : cap < zlen pkt -> written cap pkt = slots cap pkt * cap.
Proof using. intros. unfold written, slots. rewrite Z.min_l; lia. Qed.

Lemma delivered_concat pkt :
  delivered cap pkt = concat (replicate (S (Z.to_nat (more_slots cap pkt))) (chunk cap pkt)).
Proof using.
  unfold delivered, encode. rewrite fmap_app, fmap_replicate, concat_app. simpl.
  rewrite app_nil_r. induction (Z.to_nat _) as [|k IH]; simpl; [by rewrite app_nil_r|].
  rewrite <- app_assoc, IH. done.
Qed.
End delivered.

(** The slots of the next frame: cells up to the first without a continuation. *)
Fixpoint frame_slots (cells : list cell) : nat :=
  match cells with
  | [] => 0
  | (more, _) :: cs => S (if more : bool then frame_slots cs else 0)
  end.

Lemma frame_slots_chain b bs cs : frame_slots ((b, bs) :: cs) = S (snd (fst (chain_of b cs))).
Proof.
  revert b bs. induction cs as [|[b' bs'] cs IH]; intros [] bs; try done.
  change (frame_slots ((true, bs) :: (b', bs') :: cs)) with (S (frame_slots ((b', bs') :: cs))).
  rewrite (IH b' bs'). cbn [chain_of]. by destruct (chain_of b' cs) as [[? ?] ?].
Qed.

(** ** Theorems *)

(** C1: any sequence of WritePacket and ReadPacket calls on a ring, run on the
    shared memory, returns what the bounded FIFO of packets returns and ends in a
    state that represents the FIFO's; in both directions (client to server and
    server to client), and in particular without panic or fault.  The FIFO has no
    step for a read into a buffer that is shorter than the next packet (C34 says
    what that does), and a read gives what the ring carries of a packet,
    [delivered]: the packet itself if it fits one buffer (else see C33). *)
Theorem fifo_refinement `{OS} `{!OSWrite _} t L pp pq cp cr ops s rs s' w cq :
  linked t L pp pq cp cr -> represents t L pp cr s (shm w) cq ->
  fifo_run (l_size L) (l_cap L) s ops = Some (rs, s') ->
  exists cq' w', run (exec pp pq cp cq ops) w = Done (rs, cq') w' /\
    represents t L pp cr s' (shm w') cq'.
Proof.
  intros Hlk Hrep Hrun.
  pose proof (exec_refines t L pp pq cp cr Hlk ops s rs s' w cq Hrep Hrun) as Hwp.
  apply wp_done in Hwp as ([rs' cq'] & w' & Hr & Hrs & Hrep'). simpl in *. subst.
  exists cq', w'. done.
Qed.

Definition demo_pkt1 : list byte := [Byte.x61; Byte.x62; Byte.x63].
Definition demo_pkt2 : list byte := [Byte.x64].
Definition demo_ops : list op :=
  [OWrite demo_pkt1; OWrite demo_pkt2; OWrite demo_pkt1; ORead (zeros 4); OWrite demo_pkt1;
   ORead (zeros 4); ORead (zeros 4); ORead (zeros 4)].
Definition demo_outs : list out :=
  [OutWrite 3; OutWrite 1; OutWrite 0; OutRead 3 (demo_pkt1 ++ zeros 1) None; OutWrite 3;
   OutRead 1 (demo_pkt2 ++ zeros 3) None; OutRead 3 (demo_pkt1 ++ zeros 1) None;
   OutRead 0 (zeros 4) None].

Lemma demo_represents t :
  represents t demo_layout (demo_port (producer_is_server t)) (demo_ring t)
    (mkFifo [] (match t with ringTypeS2M => 2 | ringTypeM2S => 0 end)) demo_mem (demo_queue t).
Proof. split; [done|]. exists 0, 0. exact (demo_inv t). Qed.

(** Client to server: full ring, then drained, in order. *)
Lemma fifo_refinement_witness :
  exists cq' w',
    run (exec (demo_port false) (demo_queue ringTypeS2M) (demo_port true)
           (demo_queue ringTypeS2M) demo_ops) demo_world = Done (demo_outs, cq') w' /\
    represents ringTypeS2M demo_layout (demo_port false) (demo_ring ringTypeS2M)
      (mkFifo [] 2) (shm w') cq'.
Proof.
  eapply (fifo_refinement ringTypeS2M).
  - exact (demo_linked ringTypeS2M).
  - exact (demo_represents ringTypeS2M).
  - vm_compute. reflexivity.
Defined.

(** C5: WritePacket, on every branch: a packet whose chain fits the free slots
    is appended as its cells, the producer's counter advances by its slots and
    the call returns the bytes counted; otherwise it returns 0 and publishes
    nothing.  Memory outside the ring and its buffers is never touched. *)
Theorem WritePacket_spec `{OS} `{!OSWrite _} t L pp pq cp cr cq C P credit cells pkt w :
  linked t L pp pq cp cr -> ring_inv t L pp (shm w) cq C P credit cells ->
  exists n w', run (WritePacket pp pq pkt) w = Done n w' /\
    (if slots (l_cap L) pkt <=? credit
     then n = written (l_cap L) pkt /\
          ring_inv t L pp (shm w') cq C (P + slots (l_cap L) pkt) (credit - slots (l_cap L) pkt)
            (cells ++ encode (l_cap L) pkt)
     else n = 0 /\ ring_inv t L pp (shm w') cq C P credit cells) /\
    (forall f o k, off_ring L f o k -> ld (shm w') f o k = ld (shm w) f o k).
Proof. intros Hlk Hi. apply wp_done. by eapply (wp_WritePacket t L pp pq cp cr Hlk). Qed.

Lemma WritePacket_spec_witness :
  exists n w', run (WritePacket (demo_port false) (demo_queue ringTypeS2M) demo_pkt1) demo_world = Done n w' /\
    (n = 3 /\ ring_inv ringTypeS2M demo_layout (demo_port false) (shm w') (demo_queue ringTypeS2M)
                0 1 1 [(false, demo_pkt1)]) /\
    (forall f o k, off_ring demo_layout f o k -> ld (shm w') f o k = ld demo_mem f o k).
Proof.
  exact (WritePacket_spec ringTypeS2M demo_layout _ _ _ _ _ 0 0 2 [] demo_pkt1 demo_world
           (demo_linked ringTypeS2M) (demo_inv ringTypeS2M)).
Defined.

(** C6: ReadPacket with a buffer that holds the next frame, on a ring whose next
    frame is complete (or with no frame): the frame's bytes are copied to the
    front of the buffer, their count is returned, and exactly the frame's slots
    are given back (and, on a client, posted again with the full buffer size), the
    later cells staying as they are; with nothing published it returns 0 and only
    replenishes.  Memory outside the ring and its buffers is not touched. *)
Theorem ReadPacket_spec `{OS} t L pp pq cp cr cq C P credit cells pkt w :
  linked t L pp pq cp cr -> q_ring cq = cr -> ring_inv t L pp (shm w) cq C P credit cells ->
  zlen (next_frame cells) <= zlen pkt ->
  (forall b bs cs, cells = (b, bs) :: cs -> snd (chain_of b cs) = true) ->
  let taken := Z.of_nat (frame_slots cells) in
  exists r w', run (ReadPacket cp cq pkt) w = Done r w' /\
    rd_pkt r = splice 0 (next_frame cells) pkt /\ rd_n r = zlen (next_frame cells) /\
    rd_err r = None /\ same_ring cq (rd_queue r) /\
    ring_inv t L pp (shm w') (rd_queue r) (C + taken) P (C + taken + l_size L - P)
      (drop (frame_slots cells) cells) /\
    (forall f o z, off_ring L f o z -> ld (shm w') f o z = ld (shm w) f o z).
Proof.
  intros Hlk Hr Hi Hfit Hok taken.
  pose proof (wp_ReadPacket t L pp pq cp cr Hlk _ _ _ _ _ pkt w Hr Hi Hfit) as Hwp.
  apply wp_done in Hwp as (r & w' & Hrun & Hpost). exists r, w'. split; [done|]. unfold taken.
  destruct cells as [|[b bs] cs]; [|rewrite frame_slots_chain]; cbn [read_post next_frame frame_slots] in *.
  - destruct Hpost as (-> & -> & -> & Hs & Hi' & Hf).
    rewrite splice_nil by (pose proof (zlen_nonneg pkt); lia). rewrite drop_nil in *. done.
  - specialize (Hok _ _ _ eq_refl). destruct (chain_of b cs) as [[ds k] ok]. simpl in *. subst ok.
    destruct Hpost as (-> & -> & -> & Hs & Hi' & Hf). done.
Qed.

(** Client to server: a packet written, then read; its slot is free again. *)
Lemma ReadPacket_spec_witness :
  let cp := demo_port true in let q := demo_queue ringTypeS2M in
  exists w1, run (WritePacket (demo_port false) q demo_pkt1) demo_world = Done 3 w1 /\
  exists r w', run (ReadPacket cp q (zeros 4)) w1 = Done r w' /\
    rd_pkt r = demo_pkt1 ++ zeros 1 /\ rd_n r = 3 /\ rd_err r = None /\ same_ring q (rd_queue r) /\
    ring_inv ringTypeS2M demo_layout (demo_port false) (shm w') (rd_queue r) 1 1 2 [] /\
    (forall f o z, off_ring demo_layout f o z -> ld (shm w') f o z = ld (shm w1) f o z).
Proof.
  intros cp q.
  destruct (proj1 (wp_done _ _ _) (wp_WritePacket ringTypeS2M demo_layout (demo_port false) q cp
    (demo_ring ringTypeS2M) (demo_linked ringTypeS2M) q 0 0 2 [] demo_pkt1 demo_world (demo_inv ringTypeS2M)))
    as (n & w1 & Hrun & (-> & Hi) & _).
  exists w1. split; [exact Hrun|].
  apply (ReadPacket_spec ringTypeS2M demo_layout (demo_port false) q cp (demo_ring ringTypeS2M) q
           0 1 1 [(false, demo_pkt1)] (zeros 4) w1).
  - exact (demo_linked ringTypeS2M).
  - reflexivity.
  - exact Hi.
  - vm_compute. discriminate.
  - by intros b bs cs [= <- <- <-].
Defined.

(** C32: a chain whose published descriptors all announce a continuation is an
    error, not a packet: ReadPacket, with a buffer that holds the chain's bytes,
    returns it and changes neither the queue nor the shared memory, so the same
    cells are found by the next call. *)
Theorem ReadPacket_incomplete `{OS} t L pp pq cp cr cq C P credit b bs cs pkt w :
  linked t L pp pq cp cr -> q_ring cq = cr ->
  ring_inv t L pp (shm w) cq C P credit ((b, bs) :: cs) ->
  Forall (fun c => c.1 = true) ((b, bs) :: cs) ->
  zlen (next_frame ((b, bs) :: cs)) <= zlen pkt ->
  exists r, run (ReadPacket cp cq pkt) w = Done r w /\
    rd_n r = 0 /\ rd_err r = Some err_incomplete /\ rd_queue r = cq.
Proof.
  intros Hlk Hr Hi Hall Hfit.
  pose proof (wp_ReadPacket t L pp pq cp cr Hlk _ _ _ _ _ pkt w Hr Hi Hfit) as Hwp.
  apply wp_done in Hwp as (r & w' & Hrun & Hpost). exists r.
  assert (snd (chain_of b cs) = false) as Hno.
  { clear -Hall. revert b bs Hall. induction cs as [|[b' bs'] cs IH]; intros b bs Hall.
    - inversion Hall; simplify_eq/=. by subst.
    - inversion Hall as [|? ? Hb Ht]; simplify_eq/=. subst. specialize (IH _ _ Ht).
      simpl. destruct (chain_of b' cs) as [[? ?] ?]. done. }
  simpl in Hpost. destruct (chain_of b cs) as [[ds k] ok]. simpl in Hno. subst ok.
  destruct Hpost as (_ & ? & ? & ? & ->). done.
Qed.

(** A one-slot chain published without its continuation. *)
Definition demo_chain_bytes : list byte :=
  le32 65216288 ++ le16 1 ++ le16 1 ++ zeros 120 ++
  encode_desc (mkDesc 1 0 3 160 0) ++ encode_desc (mkDesc 0 0 4 164 0) ++ demo_pkt1 ++ zeros 5.
Definition demo_chain_world : world := mkWorld {[ O := demo_chain_bytes ]} (mkDemo 10 [] []).

Lemma demo_chain_inv :
  ring_inv ringTypeS2M demo_layout (demo_port false) (shm demo_chain_world) (demo_queue ringTypeS2M)
    0 1 1 [(true, demo_pkt1)].
Proof.
  assert (Hslot : forall i, 0 <= i < 2 -> slot_ok demo_layout (shm demo_chain_world) i).
  { intros i Hi. assert (i = 0 \/ i = 1) as [->| ->] by lia.
    - split; [exists 1, 3, (encode_desc (mkDesc 1 0 3 160 0)); by vm_compute|by eexists].
    - split; [exists 0, 4, (encode_desc (mkDesc 0 0 4 164 0)); by vm_compute|by eexists]. }
  split; try done.
  - split; try done. intros [|j] c Hj; [|by destruct j].
    injection Hj as <-. split; [exists (encode_desc (mkDesc 1 0 3 160 0)); by vm_compute|by vm_compute].
  - intros x Hx. destruct (Hslot (sl demo_layout x)) as [(fl & len & Hd) Hv];
      [apply (sl_range demo_layout demo_layout_wf)|].
    split; [|done]. exists fl, len. done.
Qed.

Lemma ReadPacket_incomplete_witness :
  exists r, run (ReadPacket (demo_port true) (demo_queue ringTypeS2M) (zeros 8)) demo_chain_world
              = Done r demo_chain_world /\
    rd_n r = 0 /\ rd_err r = Some err_incomplete /\ rd_queue r = demo_queue ringTypeS2M.
Proof.
  apply (ReadPacket_incomplete ringTypeS2M demo_layout (demo_port false) (demo_queue ringTypeS2M)
           (demo_port true) (demo_ring ringTypeS2M) (demo_queue ringTypeS2M) 0 1 1 true demo_pkt1 []).
  - exact (demo_linked ringTypeS2M).
  - reflexivity.
  - exact demo_chain_inv.
  - by repeat constructor.
  - vm_compute. discriminate.
Defined.

(** A packet no longer than one buffer survives the trip: written on an
    empty ring with credit and then read, the same bytes come out and both calls
    return their number. *)
Theorem packet_round_trip `{OS} `{!OSWrite _} t L pp pq cp cr cq credit pkt buf w :
  linked t L pp pq cp cr -> represents t L pp cr (mkFifo [] credit) (shm w) cq ->
  0 < credit -> zlen pkt <= l_cap L -> zlen pkt <= zlen buf ->
  exists cq' w', run (exec pp pq cp cq [OWrite pkt; ORead buf]) w =
    Done ([OutWrite (zlen pkt); OutRead (zlen pkt) (splice 0 pkt buf) None], cq') w'.
Proof.
  intros Hlk Hrep Hcr Hfit Hbuf. pose proof (lw_cap _ (lk_wf _ _ _ _ _ _ Hlk)) as Hcap.
  pose proof (more_slots_fits (l_cap L) ltac:(lia) pkt Hfit) as Hm.
  assert (delivered (l_cap L) pkt = pkt) as Hd.
  { rewrite delivered_concat, Hm, chunk_fits by done. simpl. apply app_nil_r. }
  assert (written (l_cap L) pkt = zlen pkt) as Hw by (unfold written; rewrite Hm; lia).
  assert (wp (exec pp pq cp cq [OWrite pkt; ORead buf]) w (fun a _ =>
    a.1 = [OutWrite (zlen pkt); OutRead (zlen pkt) (splice 0 pkt buf) None])) as Hwp.
  { eapply wp_mono; [eapply (exec_refines t L pp pq cp cr Hlk); [exact Hrep|]|].
    - simpl. unfold slots at 1. rewrite Hm, (proj2 (Z.leb_le _ _)) by lia. simpl.
      rewrite Hd, Hw, (proj2 (Z.leb_le _ _)) by lia. done.
    - by intros a w' [-> _]. }
  apply wp_done in Hwp as ([rs cq'] & w' & Hr & Hrs). simpl in Hrs. subst. eauto.
Qed.

Lemma packet_round_trip_witness :
  exists cq' w', run (exec (demo_port false) (demo_queue ringTypeS2M) (demo_port true)
                        (demo_queue ringTypeS2M) [OWrite demo_pkt1; ORead (zeros 5)]) demo_world =
    Done ([OutWrite 3; OutRead 3 (demo_pkt1 ++ zeros 2) None], cq') w'.
Proof.
  eapply (packet_round_trip ringTypeS2M demo_layout (demo_port false) (demo_queue ringTypeS2M)
            (demo_port true) (demo_ring ringTypeS2M) (demo_queue ringTypeS2M) 2 demo_pkt1 (zeros 5)).
  - exact (demo_linked ringTypeS2M).
  - exact (demo_represents ringTypeS2M).
  - reflexivity.
  - vm_compute. discriminate.
  - vm_compute. discriminate.
Defined.

(** C33: what a packet longer than one buffer becomes.  WritePacket's chaining
    loop copies from the packet's first byte every time, so the peer receives
    the first [cap] bytes once per slot, and both calls return the rounded-up
    multiple of [cap] instead of the packet's length. *)
Theorem oversized_packet_repeats_prefix `{OS} `{!OSWrite _} t L pp pq cp cr cq credit pkt buf w :
  linked t L pp pq cp cr -> represents t L pp cr (mkFifo [] credit) (shm w) cq ->
  l_cap L < zlen pkt ->
  let k := (zlen pkt + l_cap L - 1) / l_cap L in
  let received := concat (replicate (Z.to_nat k) (take (Z.to_nat (l_cap L)) pkt)) in
  k <= credit -> k * l_cap L <= zlen buf ->
  exists cq' w', run (exec pp pq cp cq [OWrite pkt; ORead buf]) w =
    Done ([OutWrite (k * l_cap L); OutRead (k * l_cap L) (splice 0 received buf) None], cq') w'.
Proof.
  intros Hlk Hrep Hlong k received Hcr Hbuf. pose proof (lw_cap _ (lk_wf _ _ _ _ _ _ Hlk)) as Hcap.
  assert (slots (l_cap L) pkt = k) as Hk by (apply slots_long; lia).
  pose proof (more_slots_nonneg L (lk_wf _ _ _ _ _ _ Hlk) pkt) as Hm.
  assert (delivered (l_cap L) pkt = received) as Hd.
  { rewrite delivered_concat, chunk_long by lia. unfold received. do 2 f_equal.
    unfold slots in Hk. lia. }
  assert (zlen received = k * l_cap L) as Hz.
  { unfold received, zlen. rewrite length_concat, fmap_replicate, sum_list_replicate, length_take.
    unfold zlen in Hlong. unfold slots in Hk. lia. }
  assert (wp (exec pp pq cp cq [OWrite pkt; ORead buf]) w (fun a _ =>
    a.1 = [OutWrite (k * l_cap L); OutRead (k * l_cap L) (splice 0 received buf) None])) as Hwp.
  { eapply wp_mono; [eapply (exec_refines t L pp pq cp cr Hlk); [exact Hrep|]|].
    - simpl. rewrite (written_long (l_cap L)), Hk, (proj2 (Z.leb_le _ _)) by lia. simpl.
      rewrite Hd, Hz, (proj2 (Z.leb_le _ _)) by lia. done.
    - by intros a w' [-> _]. }
  apply wp_done in Hwp as ([rs cq'] & w' & Hr & Hrs). simpl in Hrs. subst. eauto.
Qed.

(** Six bytes over four-byte buffers: [abcdef] arrives as [abcdabcd]. *)
Definition demo_long : list byte := [Byte.x61; Byte.x62; Byte.x63; Byte.x64; Byte.x65; Byte.x66].

Lemma oversized_packet_repeats_prefix_witness :
  exists cq' w', run (exec (demo_port false) (demo_queue ringTypeS2M) (demo_port true)
                        (demo_queue ringTypeS2M) [OWrite demo_long; ORead (zeros 8)]) demo_world =
    Done ([OutWrite 8; OutRead 8 [Byte.x61; Byte.x62; Byte.x63; Byte.x64;
                                  Byte.x61; Byte.x62; Byte.x63; Byte.x64] None], cq') w'.
Proof.
  eapply (oversized_packet_repeats_prefix ringTypeS2M demo_layout (demo_port false)
            (demo_queue ringTypeS2M) (demo_port true) (demo_ring ringTypeS2M)
            (demo_queue ringTypeS2M) 2 demo_long (zeros 8)).
  - exact (demo_linked ringTypeS2M).
  - exact (demo_represents ringTypeS2M).
  - reflexivity.
  - vm_compute. discriminate.
  - vm_compute. discriminate.
Defined.
