(* ===== verification/Overrun.v ===== *)
(** * Receiving into a buffer that is too short

    [ReadPacket] copies a frame chunk by chunk into the caller's slice.  When the
    frame is longer than the slice, the bytes that fit are copied and the frame's
    full length is returned; but a chunk that starts beyond the slice's end makes
    the slice expression [pkt[pktOffset:]] panic.  [wpe] is [wp] with a set of
    allowed panics. *)
From stdpp Require Import base tactics list gmap strings.
From coqutil Require Import Byte.
From Stdlib Require Import ZArith Lia.
From S2P Require Import Prelude.
From S2P Require Import GoInt.
From S2P Require Import Shm.
From S2P Require Import Descriptor.
From S2P Require Import State.
From S2P Require Import Ring.
From S2P Require Import Queue.
From S2P Require Import Packet.
From S2P Require Import Layout.
From S2P Require Import Transfer.
From S2P Require Import Link.
From S2P Require Import Demo.
From S2P Require Import Fifo.

(** ** Outcomes with panics *)

Section wpe.
Context `{OS} (E : panic -> Prop).

Definition wpe {A} (p : prog A) (w : world) (Q : A -> world -> Prop) : Prop :=
  match run p w with
  | Done a w' => Q a w'
  | Panicked e => E e
  | Faulted | Blocked _ => False
  end.

Lemma wpe_bind {A B} (p : prog A) (k : A -> prog B) w Q :
  wpe p w (fun a w' => wpe (k a) w' Q) -> wpe (p ≫= k) w Q.
Proof using. unfold wpe. rewrite run_bind. by destruct (run p w). Qed.

Lemma wpe_wp {A} (p : prog A) w Q : wp p w Q -> wpe p w Q.
Proof using. unfold wp, wpe. by destruct (run p w). Qed.

(** A step that returns, then the rest. *)
Lemma wpe_step {A B} (p : prog A) (k : A -> prog B) w Q :
  wp p w (fun a w' => wpe (k a) w' Q) -> wpe (p ≫= k) w Q.
Proof using. intros Hp. by apply wpe_bind, wpe_wp. Qed.

Lemma wpe_assoc {A B C} (f : prog A) (g : A -> prog B) (k : B -> prog C) w Q :
  wpe (b ← (a ← f; g a); k b) w Q -> wpe (a ← f; b ← g a; k b) w Q.
Proof using.
  unfold wpe. rewrite !run_bind. destruct (run f w) as [a w'|e| |]; cbn [obind]; [|done..].
  by rewrite run_bind.
Qed.

Lemma wpe_panic {A} e w (Q : A -> world -> Prop) : E e -> wpe (Panic e) w Q.
Proof using. done. Qed.
End wpe.

(** A program that may only panic with [e], and may not return, panics. *)
Lemma wpe_panicked `{OS} {A} e (p : prog A) w :
  wpe (eq e) p w (fun _ _ => False) -> run p w = Panicked e.
Proof. unfold wpe. destruct (run p w); [done|by intros ->|done..]. Qed.

(** ** The chunks of a frame and a slice of length [len]

    [b] is the flag of the descriptor just copied, [o] the bytes of the frame up
    to its end, [cs] the cells that follow: does a later chunk start beyond
    [len]? *)
Fixpoint overruns (len o : Z) (b : bool) (cs : list cell) : bool :=
  if b then
    match cs with
    | [] => false
    | (b', bs) :: cs => (len <? o) || overruns len (o + zlen bs) b' cs
    end
  else false.

Section chain.
Context `{OS} (E : panic -> Prop).
Context (L : layout) (Hwf : layout_wf L) (p : Port) (q : Queue) (d : slice) (Hs : side L p q d).

(** A chunk into a destination of any length: it keeps its length. *)
Lemma wp_copy_chunk_any i db bs dst w (Q : list byte -> world -> Prop) :
  0 <= i < l_size L -> has_chunk L (shm w) i bs ->
  Desc.getRegion db = l_region L i -> Desc.getOffset db = l_offset L i ->
  (forall b, zlen b = zlen dst -> Q b w) ->
  wp (s ← desc_data p db (Desc.getOffset db) (Desc.getOffset db + zlen bs); copy_from dst s) w Q.
Proof using Hwf Hs.
  intros Hi [Hc Hl] Hr Ho HQ. pose proof (zlen_nonneg bs). pose proof (zlen_nonneg dst).
  apply wp_bind. eapply (wp_desc_data L p q d Hs); [done|lia|done|done|]. intros c Hcf Hco Hcl.
  eapply wp_copy_from.
  - rewrite Hcf, Hco, Hcl, <- (Z.add_0_r (l_boff L i)). eapply ld_sub; [exact Hl|lia..].
  - apply HQ, zlen_go_copy.
Qed.

Lemma wpe_ReadPacket_chain cs fuel x s o b db pkt w
    (Q : list byte * (Z * Z + goerror) -> world -> Prop) :
  u16 s = u16 x -> descBuf_wf db -> Desc.getFlags db = flag_of b ->
  (forall j c, cs !! j = Some c -> cell_at L (shm w) (sl L (x + Z.of_nat j)) c) ->
  let '(ds, k, ok) := chain_of b cs in
  (length cs <= fuel)%nat -> ok = true -> 0 <= o ->
  (if overruns (zlen pkt) o b cs then E SliceOutOfRange
   else forall s' pkt', u16 s' = u16 (x + Z.of_nat k) -> zlen pkt' = zlen pkt ->
          Q (pkt', inl (s', o + zlen ds)) w) ->
  wpe E (ReadPacket_chain p q fuel s o db pkt) w Q.
Proof using Hwf Hs.
  revert fuel x s o b db pkt. induction cs as [|[b' bs] cs IH];
    intros fuel x s o b db pkt Hx Hdb Hf Hcells; destruct b; cbn [chain_of overruns]; try done.
  1, 3: intros _ _ _ HQ; specialize (HQ s pkt); change (zlen []) with 0 in HQ; rewrite !Z.add_0_r in HQ;
    destruct fuel; cbn [ReadPacket_chain]; rewrite Hf, flag_set; by apply HQ.
  destruct (chain_of b' cs) as [[ds k] ok] eqn:Hch. intros Hle -> Ho HQ.
  pose proof (zlen_nonneg bs). destruct fuel as [|fuel]; [simpl in Hle; lia|].
  destruct (Hcells O _ eq_refl) as [Hd Hc]. rewrite Z.add_0_r in Hd, Hc. simpl in Hd, Hc.
  cbn [ReadPacket_chain]. rewrite Hf, flag_set.
  apply wpe_step. eapply (wp_get_slot L Hwf p q d Hs); [done|done|exact Hd|].
  intros db2 Hdb2 Hf2 Hr2 Hl2 Ho2. cbv beta zeta. rewrite Hl2.
  destruct (Z.ltb_spec (zlen pkt) o) as [Hlt|Hge]; cbn [orb] in HQ.
  { rewrite (proj2 (Z.leb_gt _ _)) by lia. by apply wpe_panic. }
  rewrite (proj2 (Z.leb_le _ _)) by lia. apply wpe_assoc, wpe_step.
  eapply wp_copy_chunk_any; [apply sl_range, Hwf|exact Hc|done|done|]. intros pb Hpb.
  set (pkt1 := take (Z.to_nat o) pkt ++ pb).
  assert (zlen pkt1 = zlen pkt) as Hz1.
  { unfold pkt1, zlen in *. rewrite length_app, length_take. rewrite length_drop in Hpb. lia. }
  specialize (IH fuel (x + 1) (s + 1) (o + zlen bs) b' db2 pkt1).
  rewrite Hch, Hz1 in IH. simpl in Hle. apply IH; try done; try lia.
  - rewrite <- (u16_add_l s), <- (u16_add_l x). by rewrite Hx.
  - intros j c Hj. replace (x + 1 + Z.of_nat j) with (x + Z.of_nat (S j)) by lia.
    by apply (Hcells (S j)).
  - destruct (overruns _ _ _ _); [done|]. intros s' pkt' Hs' Hz. rewrite <- Z.add_assoc, <- zlen_app.
    apply HQ; [rewrite Hs'; f_equal; lia|done].
Qed.
End chain.

(** ** ReadPacket *)

Section read.
Context `{OS} (E : panic -> Prop) (t : ringType) (L : layout) (pp : Port) (pq : Queue) (cp : Port) (cr : ring)
  (Hlk : linked t L pp pq cp cr).

Lemma wpe_ReadPacket cq C P credit b bs cs pkt w (Q : read_result -> world -> Prop) :
  q_ring cq = cr -> ring_inv t L pp (shm w) cq C P credit ((b, bs) :: cs) ->
  snd (chain_of b cs) = true ->
  (if overruns (zlen pkt) (zlen bs) b cs then E SliceOutOfRange
   else forall r w', rd_n r = zlen (next_frame ((b, bs) :: cs)) -> rd_err r = None ->
          zlen (rd_pkt r) = zlen pkt ->
          refill_post t L pp cq C P ((b, bs) :: cs) (S (snd (fst (chain_of b cs)))) w (rd_queue r) w' -> Q r w') ->
  wpe E (ReadPacket cp cq pkt) w Q.
Proof using Hlk.
  intros Hr Hi Hok HQ. destruct (lk_cons _ _ _ _ _ _ Hlk) as [d Hs]. specialize (Hs _ Hr).
  pose proof (lk_wf _ _ _ _ _ _ Hlk) as Hw. pose proof (l_size_le L Hw).
  pose proof (ri_core _ _ _ _ _ _ _ _ _ Hi) as Hcore.
  pose proof (rc_len _ _ _ _ _ Hcore) as HP. pose proof (rc_cap _ _ _ _ _ Hcore).
  assert ((if IsServer (cfg cp) then lastHead cq else lastTail cq) = u16 C) as Hlast.
  { rewrite <- (ri_last _ _ _ _ _ _ _ _ _ Hi), (lk_cserver _ _ _ _ _ _ Hlk). by destruct t. }
  unfold ReadPacket. rewrite Hlast. cbv zeta. apply wpe_step.
  eapply (wp_consumer_state t L pp pq cp cr Hlk); [done..|].
  assert (u16 (u16 P - u16 C) = zlen ((b, bs) :: cs)) as ->.
  { rewrite u16_sub_l, u16_sub_r. replace (P - C) with (zlen ((b, bs) :: cs)) by lia. apply u16_small. unfold zlen in *. lia. }
  destruct (rc_cells _ _ _ _ _ Hcore O _ eq_refl) as [Hd Hc].
  rewrite Z.add_0_r in Hd, Hc. simpl in Hd, Hc.
  rewrite (proj2 (Z.eqb_neq _ _)) by (unfold zlen; cbn [length]; lia).
  apply wpe_step. eapply (wp_get_slot L Hw cp cq d Hs); [apply u16_u16|apply newDescBuf_wf|exact Hd|].
  intros db Hdb Hf Hrg Hl Ho. cbv beta zeta. rewrite Hl. apply wpe_assoc, wpe_step.
  eapply (wp_copy_chunk_any L Hw cp cq d Hs); [by apply sl_range|exact Hc|done|done|].
  intros pkt1 Hz1.
  match goal with |- context [Z.to_nat ?e] => replace (Z.to_nat e) with (length cs) by
    (unfold zlen; cbn [length]; lia) end.
  apply wpe_bind.
  pose proof (wpe_ReadPacket_chain E L Hw cp cq d Hs cs (length cs) (C + 1) (u16 C + 1) (zlen bs) b db pkt1 w) as Hchain.
  pose proof (chain_of_le b cs) as Hk. rewrite Hz1 in Hchain.
  cbn [next_frame] in HQ. destruct (chain_of b cs) as [[ds k] ok]. simpl in Hok, Hk, HQ. subst ok.
  apply Hchain; try done; try apply zlen_nonneg.
  - by rewrite u16_add_l.
  - intros j c Hj. replace (C + 1 + Z.of_nat j) with (C + Z.of_nat (S j)) by lia.
    by apply (rc_cells _ _ _ _ _ Hcore (S j)).
  - destruct (overruns _ _ _ _); [done|]. intros s' pkt' Hs' Hz. apply wpe_step.
    eapply wp_mono; [eapply (wp_refill t L pp pq cp cr Hlk _ _ _ _ _ (S k)); [done|done|simpl; lia|]|].
    { rewrite Hs'. f_equal. lia. }
    intros q' w' Hpost. apply HQ; [by rewrite zlen_app|done|simpl; lia|exact Hpost].
Qed.
End read.
