(* ===== verification/Interleave.v ===== *)
(** * Two programs interleaved access by access

    [run] executes a program alone.  The two ends of a ring run in two processes,
    so between two memory accesses of one the other may make any number of its
    own.  [advance] is one access or system call of one program.  The rest is a
    small rely-guarantee logic: [rg p Q g m] says that [p], started with ghost
    state [g] and memory [m], never fails and ends in [Q], while every step of it
    is allowed by [guar] and the other side does what [rely] allows.

    [rg_alone] carries the sequential theorems over: code that keeps to a set of
    bytes [X] which the other side leaves alone behaves as it does when it runs by
    itself.  That it keeps to [X] is what [wp] says under the permission [X]. *)
From stdpp Require Import base tactics list gmap.
From coqutil Require Import Byte.
From Stdlib Require Import ZArith Lia.
From S2P Require Import Prelude.
From S2P Require Import GoInt.
From S2P Require Import Shm.

(** ** One access *)

Section advance.
Context `{OS}.

(** [None]: the program panics, faults or waits for ever at this point.  A finished program
    stays as it is. *)
Definition advance {A} (p : prog A) (w : world) : option (prog A * world) :=
  match p with
  | Ret _ => Some (p, w)
  | Panic _ | Block => None
  | Load f o n k => bs ← ld (shm w) f o n; Some (k bs, w)
  | Store f o bs k => m ← st (shm w) f o bs; Some (k, mkWorld m (kernel w))
  | Sys c k => let '(x, m, s) := sys c (shm w) (kernel w) in Some (k x, mkWorld m s)
  end.

(** Alone, a program that [run] completes does so access by access. *)
Fixpoint advances {A} (n : nat) (p : prog A) (w : world) : option (prog A * world) :=
  match n with
  | O => Some (p, w)
  | S n => '(p, w) ← advance p w; advances n p w
  end.

Lemma run_advances {A} (p : prog A) w a w' :
  run p w = Done a w' -> exists n, advances n p w = Some (Ret a, w').
Proof.
  revert w. induction p as [b|e|f o n k IH|f o bs k IH|X c k IH|]; intros w Hr; cbn in *.
  - injection Hr as -> ->. by exists O.
  - done.
  - destruct (ld (shm w) f o n) as [bs|] eqn:E; [|done].
    destruct (IH bs w Hr) as [j Hj]. exists (S j). cbn. by rewrite E.
  - destruct (st (shm w) f o bs) as [m|] eqn:E; [|done].
    destruct (IH _ Hr) as [j Hj]. exists (S j). cbn. by rewrite E.
  - destruct (sys c (shm w) (kernel w)) as [[x m] s] eqn:E.
    destruct (IH x _ Hr) as [j Hj]. exists (S j). cbn. by rewrite E.
  - done.
Qed.
End advance.

(** The only system call the data path makes. *)
Definition is_write {X} (c : syscall X) : bool :=
  match c with SysWrite _ _ => true | _ => false end.

Fixpoint only_writes {A} (p : prog A) : Prop :=
  match p with
  | Ret _ | Panic _ | Block => True
  | Load _ _ _ k => forall bs, only_writes (k bs)
  | Store _ _ _ k => only_writes k
  | Sys c k => is_write c = true /\ forall x, only_writes (k x)
  end.

Create HintDb writes.

Lemma only_writes_ret {A} (a : A) : only_writes (mret a).
Proof. exact I. Qed.

Lemma only_writes_panic {A} e : only_writes (Panic e : prog A).
Proof. exact I. Qed.

Lemma only_writes_bind {A B} (p : prog A) (k : A -> prog B) :
  only_writes p -> (forall a, only_writes (k a)) -> only_writes (p ≫= k).
Proof.
  intros Hp Hk. induction p as [a|e|f o n c IH|f o bs c IH|X c kk IH|]; cbn in *; auto.
  destruct Hp. auto.
Qed.

Lemma only_writes_load f o n : only_writes (load f o n).
Proof. done. Qed.

Lemma only_writes_store f o bs : only_writes (store f o bs).
Proof. done. Qed.

Lemma only_writes_write fd buf : only_writes (syscall_ (SysWrite fd buf)).
Proof. done. Qed.

#[export] Hint Resolve only_writes_ret only_writes_panic only_writes_bind only_writes_load
  only_writes_store only_writes_write : writes.

(** ** Parts of the memory *)

(** A set of bytes; used as a permission where it is given as one. *)
Definition area : Type := nat -> Z -> bool.

(** [m] and [m'] have the same bytes where [X] permits. *)
Definition agree (X : area) (m m' : mem) : Prop :=
  forall f o n, @ld X m' f o n = @ld X m f o n.

Definition compl (X : area) : area := fun f o => negb (@perm X f o).
Definition within (X Y : area) : Prop := forall f o, @perm X f o = true -> @perm Y f o = true.

Section parts.
Implicit Types (X Y : area) (m : mem).

Lemma agree_refl X m : agree X m m.
Proof. done. Qed.

Lemma agree_sym X m m' : agree X m m' -> agree X m' m.
Proof. intros Hs f o n. by rewrite Hs. Qed.

Lemma agree_trans X m1 m2 m3 : agree X m1 m2 -> agree X m2 m3 -> agree X m1 m3.
Proof. intros A B f o n. by rewrite B, A. Qed.

(** An access that [X] permits is the same access under any larger permission. *)
Lemma ld_perm X m f o n : @allowed X f o n = true -> @ld X m f o n = @ld perm_all m f o n.
Proof. intros Ha. unfold ld. by rewrite Ha, allowed_all. Qed.

Lemma st_perm X m f o bs :
  @allowed X f o (zlen bs) = true -> @st X m f o bs = @st perm_all m f o bs.
Proof. intros Ha. unfold st. by rewrite Ha, allowed_all. Qed.

Lemma ld_relax X m f o n bs : @ld X m f o n = Some bs -> @ld perm_all m f o n = Some bs.
Proof.
  intros Hl. rewrite <- Hl. symmetry. apply ld_perm. apply ld_Some in Hl. by destruct Hl as (?&?&?&?&?&?&?).
Qed.

Lemma st_relax X m f o bs m' : @st X m f o bs = Some m' -> @st perm_all m f o bs = Some m'.
Proof.
  intros Hl. rewrite <- Hl. symmetry. apply st_perm. apply st_Some in Hl. by destruct Hl as (?&?&?&?&?&?).
Qed.

Lemma allowed_within X Y f o n : within X Y -> @allowed X f o n = true -> @allowed Y f o n = true.
Proof. rewrite !allowed_spec. intros Hw Ha i Hi. by apply Hw, Ha. Qed.

Lemma agree_within X Y m m' : within X Y -> agree Y m m' -> agree X m m'.
Proof.
  intros Hw Hs f o n. destruct (@allowed X f o n) eqn:E.
  - pose proof (allowed_within _ _ _ _ _ Hw E) as HY.
    rewrite !(ld_perm X) by done. rewrite <- !(ld_perm Y) by done. apply Hs.
  - unfold ld. rewrite E. by destruct (m !! f), (m' !! f); rewrite ?andb_false_r.
Qed.

(** Reading permitted bytes. *)
Lemma agree_ld X m m' f o n :
  agree X m m' -> @allowed X f o n = true -> @ld perm_all m' f o n = @ld perm_all m f o n.
Proof. intros Hs Ha. rewrite <- !(ld_perm X) by done. apply Hs. Qed.

(** Sizes of files are visible under any permission. *)
Lemma agree_valid X m m' f o n :
  agree X m m' -> is_Some (@ld perm_all m f o n) -> is_Some (@ld perm_all m' f o n).
Proof.
  intros Hs [bs Hl]. apply ld_Some in Hl as (file & Hf & Ho & Hn & Hle & _ & _).
  assert (Hz : forall k, @allowed X f k 0 = true) by (intros; apply allowed_spec; lia).
  pose proof (Hs f (o + n) 0) as He. unfold ld at 2 in He.
  rewrite Hf, Hz, !(proj2 (Z.leb_le _ _)) in He by lia.
  apply ld_Some in He as (file' & Hf' & _ & _ & Hle' & _ & _).
  exists (sub o n file'). apply ld_Some. exists file'. repeat split; try done; try lia.
  apply allowed_all.
Qed.

(** A store keeps everything outside the bytes it is permitted. *)
Lemma st_compl X m f o bs m' : @st X m f o bs = Some m' -> agree (compl X) m m'.
Proof.
  intros Hst f' o' n. pose proof Hst as Hst0.
  apply st_Some in Hst0 as (file & Hf & Ho & Hle & Ha & ->).
  destruct (decide (f = f')) as [<-|Hne].
  2: { unfold ld. by rewrite lookup_insert_ne. }
  destruct (@allowed (compl X) f o' n) eqn:E.
  2: { unfold ld. rewrite E, lookup_insert_eq, Hf. by rewrite !andb_false_r. }
  unfold ld. rewrite lookup_insert_eq, Hf, zlen_splice by lia.
  case_bool; [|done]. zbool. f_equal.
  destruct (decide (n = 0)) as [->|]; [by rewrite !sub_nil_len|].
  destruct (decide (zlen bs = 0)) as [Hz|].
  { apply zlen_nil_inv in Hz as ->. by rewrite splice_nil by (unfold zlen in *; simpl in *; lia). }
  pose proof (zlen_nonneg bs). apply sub_splice_disj; try lia.
  destruct (decide (o' + n <= o)); [by left|]. right.
  destruct (decide (o + zlen bs <= o')); [done|]. exfalso.
  pose proof (proj1 (@allowed_spec X _ _ _) Ha (Z.max o o')) as Hin.
  pose proof (proj1 (@allowed_spec (compl X) _ _ _) E (Z.max o o')) as Hout.
  unfold compl, perm in Hout, Hin. rewrite Hin in Hout by lia. discriminate Hout. lia.
Qed.

Lemma st_outside X m f o bs m' :
  @st perm_all m f o bs = Some m' -> @allowed (compl X) f o (zlen bs) = true -> agree X m m'.
Proof.
  intros Hst Ha. eapply (agree_within X (compl (compl X))).
  - intros f' b Hb. unfold compl, perm in *. by rewrite Hb.
  - eapply (st_compl (compl X)). by rewrite (st_perm (compl X)).
Qed.

(** The same store into memories that agree on [X]. *)
Lemma st_agree X m1 m2 f o bs m1' :
  agree X m1 m2 -> @st X m1 f o bs = Some m1' ->
  exists m2', @st X m2 f o bs = Some m2' /\ agree X m1' m2'.
Proof.
  intros Hs Hst. destruct (@st_is_Some X m2 f o bs) as [m2' Hst2].
  { rewrite Hs. apply st_Some in Hst as (file & Hf & ? & ? & ? & ->). pose proof (zlen_nonneg bs).
    eexists. apply ld_Some. exists file. done. }
  exists m2'. split; [done|]. intros f' o' n.
  pose proof (zlen_nonneg bs) as Hz0.
  apply st_Some in Hst as (F1 & HF1 & Ho & Hle1 & Ha & ->).
  apply st_Some in Hst2 as (F2 & HF2 & _ & Hle2 & _ & ->).
  destruct (decide (f = f')) as [<-|Hne].
  2: { pose proof (Hs f' o' n) as He. unfold ld in *. by rewrite !lookup_insert_ne by done. }
  pose proof (Hs f o' n) as He. unfold ld in *. rewrite !lookup_insert_eq.
  rewrite HF1, HF2 in He. rewrite !zlen_splice by done.
  destruct ((0 <=? o') && (0 <=? n)) eqn:E0; simpl in *; [|done].
  destruct (@allowed X f o' n) eqn:Ea; [|by rewrite !andb_false_r].
  rewrite !andb_true_r in *. zbool.
  destruct (o' + n <=? zlen F2) eqn:E2, (o' + n <=? zlen F1) eqn:E1; try done. zbool.
  injection He as He. f_equal. apply list_eq. intros i.
  destruct (decide (i < Z.to_nat n)%nat).
  2: { rewrite !lookup_ge_None_2; [done|..]; rewrite length_sub; try lia; by rewrite zlen_splice. }
  rewrite !lookup_sub, !lookup_splice by done. case_decide; [done|].
  apply (f_equal (fun l => l !! i)) in He. by rewrite !lookup_sub in He by done.
Qed.
End parts.

(** ** Code that keeps to a part *)

(** [keeps X p m Q]: [p] accesses only the bytes [X], never fails, and ends in
    [Q], whatever [write] answers. *)
Fixpoint keeps (X : area) {A} (p : prog A) (m : mem) (Q : A -> mem -> Prop) : Prop :=
  match p with
  | Ret a => Q a m
  | Panic _ | Block => False
  | Load f o n k => exists bs, @ld X m f o n = Some bs /\ keeps X (k bs) m Q
  | Store f o bs k => exists m', @st X m f o bs = Some m' /\ keeps X k m' Q
  | Sys c k => is_write c = true /\ forall x, keeps X (k x) m Q
  end.

(** It does the same in every memory that agrees on [X]. *)
Lemma keeps_agree X {A} (p : prog A) m1 m2 (Q1 Q2 : A -> mem -> Prop) :
  keeps X p m1 Q1 -> agree X m1 m2 ->
  (forall a m m', Q1 a m -> agree X m m' -> Q2 a m') -> keeps X p m2 Q2.
Proof.
  intros Hk Hs HQ. revert m1 m2 Hk Hs.
  induction p as [a|e|f o n k IH|f o bs k IH|Y c k IH|]; intros m1 m2 Hk Hs; cbn in *.
  - by eapply HQ.
  - done.
  - destruct Hk as (bs & Hl & Hk). exists bs. split; [by rewrite Hs|by eapply IH].
  - destruct Hk as (m1' & Hst & Hk). destruct (st_agree X _ _ _ _ _ _ Hs Hst) as (m2' & ? & ?).
    exists m2'. split; [done|by eapply IH].
  - destruct Hk as [Hw Hk]. split; [done|]. intros x. by eapply IH.
  - done.
Qed.

(** From [wp] to [keeps]: a kernel that plays back any sequence of answers to
    [write]. *)
Definition any_answer {X} (c : syscall X) : X :=
  match c in syscall X return X with
  | SysWrite _ _ => inr 0
  | SysClose _ => None
  | SysEventfd _ _ => inr 0
  | SysMemfdCreate _ _ => inr 0
  | SysFcntl _ _ _ => None
  | SysFtruncate _ _ => None
  | SysMmap _ _ => inr 0
  | SysMunmap _ => None
  | SysEpollCreate => inr 0
  | SysEpollCtl _ _ _ => None
  | SysSocket => inr 0
  | SysSetPasscred _ => None
  | SysBind _ _ => None
  | SysListen _ => None
  | SysConnect _ _ => None
  | SysAccept _ => inr 0
  | SysSendmsg _ _ _ _ => None
  | SysRecvmsg _ => inr 0
  | SysRemove _ => None
  | SysWgWait _ => true
  end.

Definition oracle_sys (X : Type) (c : syscall X) (m : mem) (s : list (result Z))
    : X * mem * list (result Z) :=
  match c in syscall X return X * mem * list (result Z) with
  | SysWrite _ _ => (default (inr 0) (head s), m, tail s)
  | c => (any_answer c, m, s)
  end.

Definition oracle : OS := {| os_state := list (result Z); sys := oracle_sys |}.

#[export] Instance oracle_write : OSWrite oracle.
Proof. split. done. Qed.

Lemma keeps_wp X {A} (p : prog A) m (Q : A -> mem -> Prop) :
  only_writes p ->
  (forall s, @wp oracle X A p (@mkWorld oracle m s) (fun a w => Q a (@shm oracle w))) ->
  keeps X p m Q.
Proof.
  revert m. induction p as [a|e|f o n k IH|f o bs k IH|Y c k IH|]; intros m How Hwp; cbn in *.
  - exact (Hwp []).
  - exact (Hwp []).
  - unfold wp in Hwp. cbn in Hwp. destruct (@ld X m f o n) as [bs|]; [|destruct (Hwp [])].
    exists bs. split; [done|]. by apply IH.
  - unfold wp in Hwp. cbn in Hwp. destruct (@st X m f o bs) as [m'|]; [|destruct (Hwp [])].
    exists m'. split; [done|]. by apply IH.
  - destruct How as [Hc How]. split; [done|]. intros x. apply IH; [done|]. intros s.
    destruct c; try done. exact (Hwp (x :: s)).
  - exact (Hwp []).
Qed.

(** ** Rely and guarantee *)

Section logic.
Context {G : Type}.
(** What holds between any two steps of the system; what this side may do, and
    what it lets the other do. *)
Context (inv : G -> mem -> Prop) (guar rely : G -> mem -> G -> mem -> Prop).
Context (guar_refl : forall g m, guar g m g m)
  (guar_trans : forall g1 m1 g2 m2 g3 m3,
     guar g1 m1 g2 m2 -> guar g2 m2 g3 m3 -> guar g1 m1 g3 m3)
  (rely_refl : forall g m, rely g m g m)
  (rely_trans : forall g1 m1 g2 m2 g3 m3,
     rely g1 m1 g2 m2 -> rely g2 m2 g3 m3 -> rely g1 m1 g3 m3).

(** After a step of this side and anything the other side does next. *)
Definition step_to (g : G) (m m' : mem) (K : G -> mem -> Prop) : Prop :=
  exists g', guar g m g' m' /\ inv g' m' /\
    forall g2 m2, rely g' m' g2 m2 -> inv g2 m2 -> K g2 m2.

Fixpoint rg {A} (p : prog A) (Q : A -> G -> mem -> Prop) (g : G) (m : mem) : Prop :=
  match p with
  | Ret a => exists g', guar g m g' m /\ inv g' m /\ Q a g' m
  | Panic _ | Block => False
  | Load f o n k => exists bs, ld m f o n = Some bs /\ step_to g m m (rg (k bs) Q)
  | Store f o bs k => exists m', st m f o bs = Some m' /\ step_to g m m' (rg k Q)
  | Sys c k => is_write c = true /\ forall x, step_to g m m (rg (k x) Q)
  end.

Lemma step_to_mono g m m' (K K' : G -> mem -> Prop) :
  step_to g m m' K -> (forall g2 m2, inv g2 m2 -> K g2 m2 -> K' g2 m2) -> step_to g m m' K'.
Proof using. intros (g' & ? & ? & ?) HK. exists g'. auto. Qed.

Lemma step_to_update g g' m m' K : guar g m g' m -> step_to g' m m' K -> step_to g m m' K.
Proof using guar_trans. intros Hg (g2 & ? & ? & ?). exists g2. split; [by eapply guar_trans|done]. Qed.

(** A change of the ghost state takes effect with the next step. *)
Lemma rg_update {A} (p : prog A) Q g g' m : guar g m g' m -> rg p Q g' m -> rg p Q g m.
Proof using guar_trans.
  intros Hg. destruct p as [a|e|f o n k|f o bs k|X c k|]; cbn.
  - intros (g2 & ? & ? & ?). exists g2. split; [by eapply guar_trans|done].
  - done.
  - intros (bs & ? & ?). exists bs. split; [done|]. by eapply step_to_update.
  - intros (m' & ? & ?). exists m'. split; [done|]. by eapply step_to_update.
  - intros [? Hk]. split; [done|]. intros x. by eapply step_to_update.
  - done.
Qed.

Lemma rg_mono {A} (p : prog A) (Q R : A -> G -> mem -> Prop) g m :
  rg p Q g m -> (forall a g' m', inv g' m' -> Q a g' m' -> R a g' m') -> rg p R g m.
Proof using.
  intros Hp HQ. revert g m Hp. induction p as [a|e|f o n k IH|f o bs k IH|X c k IH|]; intros g m; cbn.
  - intros (g' & ? & ? & ?). eauto.
  - done.
  - intros (bs & ? & ?). exists bs. split; [done|]. eapply step_to_mono; [done|]. intros ???. apply IH.
  - intros (m' & ? & ?). exists m'. split; [done|]. eapply step_to_mono; [done|]. intros ???. apply IH.
  - intros [? Hk]. split; [done|]. intros x. eapply step_to_mono; [done|]. intros ???. apply IH.
  - done.
Qed.

Lemma rg_bind {A B} (p : prog A) (k : A -> prog B) Q g m :
  rg p (fun a => rg (k a) Q) g m -> rg (p ≫= k) Q g m.
Proof using guar_trans.
  revert g m. induction p as [a|e|f o n c IH|f o bs c IH|X c kk IH|]; intros g m; cbn.
  - intros (g' & ? & ? & ?). by eapply rg_update.
  - done.
  - intros (bs & ? & ?). exists bs. split; [done|]. eapply step_to_mono; [done|]. intros ???. apply IH.
  - intros (m' & ? & ?). exists m'. split; [done|]. eapply step_to_mono; [done|]. intros ???. apply IH.
  - intros [? Hk]. split; [done|]. intros x. eapply step_to_mono; [done|]. intros ???. apply IH.
  - done.
Qed.

Lemma rg_ret {A} (a : A) (Q : A -> G -> mem -> Prop) g m : inv g m -> Q a g m -> rg (mret a) Q g m.
Proof using guar_refl. intros. exists g. auto. Qed.

(** A step that changes neither ghost state nor memory. *)
Lemma step_to_idle g m (K : G -> mem -> Prop) :
  inv g m -> (forall g2 m2, rely g m g2 m2 -> inv g2 m2 -> K g2 m2) -> step_to g m m K.
Proof using guar_refl. intros. exists g. auto. Qed.

(** ** Code on bytes of its own *)

(** [own] is what this side knows while it works on [X]: the other side respects
    it and leaves [X] alone, and it survives what this side does to [X]. *)
Section alone.
Context (X : area) (own : G -> mem -> Prop).
Context (own_rely : forall g m g' m',
    own g m -> inv g m -> rely g m g' m' -> inv g' m' -> own g' m' /\ agree X m m')
  (own_step : forall g m m',
    own g m -> inv g m -> agree (compl X) m m' -> own g m' /\ inv g m' /\ guar g m g m').

Lemma keeps_rg {A} (p : prog A) (Q0 : A -> mem -> Prop) (Q : A -> G -> mem -> Prop) g m :
  (forall a m1 m2, Q0 a m1 -> agree X m1 m2 -> Q0 a m2) ->
  keeps X p m Q0 -> own g m -> inv g m ->
  (forall a g' m', own g' m' -> inv g' m' -> Q0 a m' -> Q a g' m') ->
  rg p Q g m.
Proof using own_rely own_step guar_refl.
  intros HQ0 Hk Ho Hi HQ. revert g m Hk Ho Hi.
  assert (Hnext : forall B (q : prog B) (R : B -> mem -> Prop) m1 g2 m2, (forall a m1 m2, R a m1 -> agree X m1 m2 -> R a m2) ->
    keeps X q m1 R -> forall g, own g m1 -> inv g m1 -> rely g m1 g2 m2 -> inv g2 m2 ->
    keeps X q m2 R /\ own g2 m2).
  { intros B q R m1 g2 m2 HR Hq g Ho Hi Hr Hi2. destruct (own_rely g m1 g2 m2) as [Ho2 Hs]; try done.
    split; [|done]. eapply keeps_agree; [exact Hq|exact Hs|exact HR]. }
  induction p as [a|e|f o n k IH|f o bs k IH|Y c k IH|]; intros g m Hk Ho Hi; cbn in *.
  - exists g. auto.
  - done.
  - destruct Hk as (bs & Hl & Hk). exists bs. split; [by eapply ld_relax|].
    apply step_to_idle; [done|]. intros g2 m2 Hr Hi2.
    destruct (Hnext _ _ _ _ g2 m2 HQ0 Hk g) as [? ?]; try done. by apply IH.
  - destruct Hk as (m' & Hst & Hk). exists m'. split; [by eapply st_relax|].
    destruct (own_step g m m') as (Ho' & Hi' & Hg); [done|done|by eapply st_compl|].
    exists g. split; [done|]. split; [done|]. intros g2 m2 Hr Hi2.
    destruct (Hnext _ _ _ _ g2 m2 HQ0 Hk g) as [? ?]; try done. by apply IH.
  - destruct Hk as [Hw Hk]. split; [done|]. intros x. apply step_to_idle; [done|].
    intros g2 m2 Hr Hi2. destruct (Hnext _ _ _ _ g2 m2 HQ0 (Hk x) g) as [? ?]; try done. by apply IH.
  - done.
Qed.

(** The rule for a piece of sequential code: its [wp] under the permission [X],
    in every kernel, is all there is to prove. *)
Lemma rg_alone {A} (p : prog A) (Q0 : A -> mem -> Prop) (Q : A -> G -> mem -> Prop) g m :
  only_writes p -> own g m -> inv g m ->
  (forall s, @wp oracle X A p (@mkWorld oracle m s) (fun a w => Q0 a (@shm oracle w))) ->
  (forall a m0 g' m', own g' m' -> inv g' m' -> Q0 a m0 -> agree X m0 m' -> Q a g' m') ->
  rg p Q g m.
Proof using own_rely own_step guar_refl.
  intros How Ho Hi Hwp HQ.
  eapply (keeps_rg p (fun a m' => exists m0, Q0 a m0 /\ agree X m0 m')); [| |done|done|].
  - intros a m1 m2 (m0 & ? & ?) Hs. exists m0. split; [done|]. by eapply agree_trans.
  - eapply keeps_agree; [by eapply keeps_wp|apply agree_refl|]. intros a m1 m2 ??. eauto.
  - intros a g' m' ?? (m0 & ? & ?). eauto.
Qed.
End alone.
End logic.

(** ** What [rg] is good for: one step of the program *)

(** The program is in a state in which the logic guarantees the rest. *)
Definition safe {G A} (inv : G -> mem -> Prop) (guar rely : G -> mem -> G -> mem -> Prop)
    (p : prog A) (Q : A -> G -> mem -> Prop) (g : G) (m : mem) : Prop :=
  forall g2 m2, rely g m g2 m2 -> inv g2 m2 -> rg inv guar rely p Q g2 m2.

Lemma is_write_mem `{OS} `{!OSWrite _} {X} (c : syscall X) m s :
  is_write c = true -> (sys c m s).1.2 = m.
Proof. destruct c; try done. intros _. apply sys_write_mem. Qed.

Lemma safe_rely {G A} inv guar rely (p : prog A) Q (g g' : G) m m' :
  (forall g1 m1 g2 m2 g3 m3, rely g1 m1 g2 m2 -> rely g2 m2 g3 m3 -> rely g1 m1 g3 m3) ->
  safe inv guar rely p Q g m -> rely g m g' m' -> safe inv guar rely p Q g' m'.
Proof. intros Ht Hs Hr g2 m2 Hr2. apply Hs. by eapply Ht. Qed.

Section sound.
Context {G : Type} (inv : G -> mem -> Prop) (guar rely : G -> mem -> G -> mem -> Prop).
Context (guar_refl : forall g m, guar g m g m) (rely_refl : forall g m, rely g m g m).
Context `{OS} `{!OSWrite _}.

Lemma safe_advance {A} (p : prog A) Q g w :
  inv g (shm w) -> safe inv guar rely p Q g (shm w) ->
  exists p' w' g', advance p w = Some (p', w') /\
    guar g (shm w) g' (shm w') /\ inv g' (shm w') /\ safe inv guar rely p' Q g' (shm w').
Proof using guar_refl rely_refl OSWrite0.
  intros Hi Hs. pose proof (Hs g (shm w) (rely_refl _ _) Hi) as Hp.
  destruct p as [a|e|f o n k|f o bs k|X c k|]; cbn in Hp |- *.
  - exists (Ret a), w, g. auto.
  - done.
  - destruct Hp as (bs & Hl & g' & Hg & Hi' & Hk). rewrite Hl. exists (k bs), w, g'. auto.
  - destruct Hp as (m' & Hl & g' & Hg & Hi' & Hk). rewrite Hl.
    exists k, (mkWorld m' (kernel w)), g'. auto.
  - destruct Hp as [Hw Hk].
    pose proof (is_write_mem c (shm w) (kernel w) Hw) as Hm.
    destruct (sys c (shm w) (kernel w)) as [[x m] s]. simpl in Hm. subst m.
    destruct (Hk x) as (g' & Hg & Hi' & Hk'). exists (k x), (mkWorld (shm w) s), g'. auto.
  - done.
Qed.

Lemma safe_ret {A} (a : A) Q g m :
  inv g m -> safe inv guar rely (Ret a) Q g m -> exists g', guar g m g' m /\ inv g' m /\ Q a g' m.
Proof using rely_refl. intros Hi Hs. exact (Hs g m (rely_refl _ _) Hi). Qed.
End sound.
