(* ===== verification/Atomic.v ===== *)
(** * The atomic channel: what two concurrent callers may rely on

    The specification of [ReadPacket] and [WritePacket] called from two processes
    at once.  A call is an event when it starts and when it returns; in between it
    takes effect in one step on the FIFO of [Fifo.v].  Reading has a second step,
    in which the credit is given back: the producer sees the slots of a packet
    only after the packet has left the queue. *)
From stdpp Require Import base tactics list relations.
From coqutil Require Import Byte.
From Stdlib Require Import ZArith Lia.
From S2P Require Import Prelude.
From S2P Require Import State.
From S2P Require Import Link.
From S2P Require Import Fifo.

Inductive wstatus := WIdle | WCalled (pkt : list byte) | WDone (n : Z).
Inductive rstatus := RIdle | RCalled (buf : list byte) | RTaken (n : Z) (buf : list byte)
                   | RDone (n : Z) (buf : list byte).

Record atomic := mkAtomic { at_fifo : fifo; at_w : wstatus; at_r : rstatus }.

Inductive event :=
| CallWrite (pkt : list byte)
| RetWrite (n : Z)
| CallRead (buf : list byte)
| RetRead (n : Z) (buf : list byte) (err : option goerror).

Section spec.
(** Slots of the ring, bytes of a buffer, and the packet size the two callers
    have agreed on: what is written fits what is read into. *)
Context (n cap mtu : Z).

Inductive lin_step : atomic -> atomic -> Prop :=
| lin_write f pkt r :
    slots cap pkt <= f_credit f ->
    lin_step (mkAtomic f (WCalled pkt) r)
      (mkAtomic (mkFifo (packets f ++ [pkt]) (f_credit f - slots cap pkt)) (WDone (written cap pkt)) r)
| lin_full f pkt r :
    f_credit f < slots cap pkt ->
    lin_step (mkAtomic f (WCalled pkt) r) (mkAtomic f (WDone 0) r)
| lin_take f w p ps buf :
    packets f = p :: ps ->
    lin_step (mkAtomic f w (RCalled buf))
      (mkAtomic (mkFifo ps (f_credit f)) w
         (RTaken (zlen (delivered cap p)) (splice 0 (delivered cap p) buf)))
| lin_empty f w buf :
    packets f = [] ->
    lin_step (mkAtomic f w (RCalled buf)) (mkAtomic f w (RTaken 0 buf))
| lin_grant f w k buf :
    lin_step (mkAtomic f w (RTaken k buf))
      (mkAtomic (mkFifo (packets f) (n - used cap (packets f))) w (RDone k buf)).

Inductive at_event : atomic -> event -> atomic -> Prop :=
| at_call_write f r pkt :
    zlen (delivered cap pkt) <= mtu ->
    at_event (mkAtomic f WIdle r) (CallWrite pkt) (mkAtomic f (WCalled pkt) r)
| at_ret_write f r k :
    at_event (mkAtomic f (WDone k) r) (RetWrite k) (mkAtomic f WIdle r)
| at_call_read f w buf :
    mtu <= zlen buf ->
    at_event (mkAtomic f w RIdle) (CallRead buf) (mkAtomic f w (RCalled buf))
| at_ret_read f w k buf :
    at_event (mkAtomic f w (RDone k buf)) (RetRead k buf None) (mkAtomic f w RIdle).

(** The events seen from outside, oldest first. *)
Inductive at_trace (a : atomic) : list event -> atomic -> Prop :=
| at_start : at_trace a [] a
| at_inside evs b c : at_trace a evs b -> lin_step b c -> at_trace a evs c
| at_visible evs b e c : at_trace a evs b -> at_event b e c -> at_trace a (evs ++ [e]) c.

Lemma at_trace_steps a evs b c : at_trace a evs b -> rtc lin_step b c -> at_trace a evs c.
Proof using. intros Ht Hs. revert Ht. induction Hs; [done|]. intros. by eauto using at_inside. Qed.

(** One call at a time, the channel is the sequential FIFO. *)
Definition quiet (f : fifo) : atomic := mkAtomic f WIdle RIdle.

Definition events_of (o : op) (r : out) : list event :=
  match o, r with
  | OWrite pkt, OutWrite k => [CallWrite pkt; RetWrite k]
  | ORead buf, OutRead k b e => [CallRead buf; RetRead k b e]
  | _, _ => []
  end.

Definition fits (o : op) : Prop :=
  match o with OWrite pkt => zlen (delivered cap pkt) <= mtu | ORead buf => mtu <= zlen buf end.

Lemma at_trace_sequential a evs f o r f' :
  at_trace a evs (quiet f) -> fits o -> fifo_step n cap f o = Some (r, f') ->
  at_trace a (evs ++ events_of o r) (quiet f').
Proof using.
  intros Ht Hfit Hstep. destruct o as [pkt|buf]; simpl in *.
  - assert (at_trace a (evs ++ [CallWrite pkt]) (mkAtomic f (WCalled pkt) RIdle)) as Hc
      by (by eapply at_visible; [|constructor]).
    case_match eqn:E; zbool; injection Hstep as <- <-;
      rewrite (app_assoc evs [CallWrite pkt] [_] : evs ++ [CallWrite pkt; _] = _);
      (eapply at_visible; [eapply at_inside; [exact Hc|]|apply at_ret_write]); by constructor.
  - assert (at_trace a (evs ++ [CallRead buf]) (mkAtomic f WIdle (RCalled buf))) as Hc
      by (by eapply at_visible; [|constructor]).
    destruct (packets f) as [|p ps] eqn:Hp.
    + injection Hstep as <- <-. rewrite (app_assoc evs [CallRead buf] [_] : evs ++ [CallRead buf; _] = _).
      pose proof (lin_grant f WIdle 0 buf) as Hg. rewrite Hp in Hg. simpl in Hg. rewrite Z.sub_0_r in Hg.
      eapply at_visible; [|apply at_ret_read].
      eapply at_inside; [|exact Hg]. eapply at_inside; [exact Hc|by constructor].
    + case_match eqn:E; [|done]. injection Hstep as <- <-.
      rewrite (app_assoc evs [CallRead buf] [_] : evs ++ [CallRead buf; _] = _).
      eapply at_visible; [|apply at_ret_read].
      eapply at_inside; [|apply (lin_grant (mkFifo ps (f_credit f)))]. eapply at_inside; [exact Hc|by constructor].
Qed.
End spec.
