(* ===== verification/Concurrent.v ===== *)
(** * A ring under interleaving

    What holds between any two memory accesses of the two ends of a ring
    ([shared_inv]), what each end may do at a step and must put up with from the
    other ([guar_w], [guar_r], [rely_w], [rely_r]), and that the two calls keep to
    it: [rg_WritePacket], [rg_ReadPacket].

    Positions are unbounded, as in [Link.v]: [g_C], [g_P] are the consumer's and
    the producer's, [g_F] is where the slots given to the producer end.  While a
    call is at work on slots, the invariant says nothing about them: the producer
    has [g_held] slots from [g_P] on, the consumer, when [g_busy], those below
    [g_C] that it has not given back. *)
From stdpp Require Import base tactics list gmap relations.
From coqutil Require Import Byte.
From Stdlib Require Import ZArith Lia.
From S2P Require Import Prelude.
From S2P Require Import GoInt.
From S2P Require Import Shm.
From S2P Require Import Descriptor.
From S2P Require Import State.
From S2P Require Import Ring.
From S2P Require Import Queue.
From S2P Require Import Packet.
From S2P Require Import Layout.
From S2P Require Import Transfer.
From S2P Require Import Link.
From S2P Require Import Fifo.
From S2P Require Import Interleave.
From S2P Require Import Atomic.

(** ** The bytes of slots *)

Definition in_range (f : nat) (o k : Z) : area :=
  fun f' i => bool_decide (f' = f) && (o <=? i) && (i <? o + k).

Definition slot_perm (L : layout) (i : Z) : area := fun f o =>
  @perm (in_range (l_file L) (daddr L i) descSize) f o ||
  @perm (in_range (l_bfile L i) (l_boff L i) (l_cap L)) f o.

(** The slots of the positions [lo .. hi-1]. *)
Definition slots_perm (L : layout) (lo hi : Z) : area := fun f o =>
  existsb (fun k => @perm (slot_perm L (sl L (lo + Z.of_nat k))) f o) (seq 0 (Z.to_nat (hi - lo))).

(** What the producer works on: its slots, and the ring's flags, which it reads
    before it interrupts. *)
Definition work_perm (L : layout) (lo hi : Z) : area := fun f o =>
  @perm (slots_perm L lo hi) f o || @perm (in_range (l_file L) (l_hdr L + ringFlagsOffset) 2) f o.

Section perms.
Context (L : layout) (Hwf : layout_wf L).
Implicit Types X Y : area.

Lemma in_range_spec f o k f' i : @perm (in_range f o k) f' i = true <-> f' = f /\ o <= i < o + k.
Proof using.
  unfold in_range, perm. rewrite !andb_true_iff, bool_decide_eq_true. split.
  - intros [[-> ?] ?]. zbool. lia.
  - intros [-> ?]. repeat split; [apply Z.leb_le|apply Z.ltb_lt]; lia.
Qed.

Lemma allowed_range f o k a n : o <= a -> a + n <= o + k -> @allowed (in_range f o k) f a n = true.
Proof using. intros. apply allowed_spec. intros. apply in_range_spec. lia. Qed.

Lemma slots_perm_spec lo hi f o :
  @perm (slots_perm L lo hi) f o = true <->
  exists x, lo <= x < hi /\ @perm (slot_perm L (sl L x)) f o = true.
Proof using.
  unfold slots_perm, perm at 1. rewrite existsb_exists. split.
  - intros (k & Hk%in_seq & Hp). exists (lo + Z.of_nat k). split; [lia|done].
  - intros (x & Hx & Hp). exists (Z.to_nat (x - lo)). split; [apply in_seq; lia|].
    by replace (lo + Z.of_nat (Z.to_nat (x - lo))) with x by lia.
Qed.

Lemma slot_perm_spec i f o :
  @perm (slot_perm L i) f o = true <->
  f = l_file L /\ daddr L i <= o < daddr L i + descSize \/
  f = l_bfile L i /\ l_boff L i <= o < l_boff L i + l_cap L.
Proof using. unfold slot_perm, perm at 1. by rewrite orb_true_iff, !in_range_spec. Qed.

Lemma slots_work lo hi : within (slots_perm L lo hi) (work_perm L lo hi).
Proof using. intros f o Hp. unfold work_perm, perm at 1. by rewrite Hp. Qed.

Lemma slots_widen lo hi lo' hi' :
  lo' <= lo -> hi <= hi' -> within (slots_perm L lo hi) (slots_perm L lo' hi').
Proof using. intros ?? f o. rewrite !slots_perm_spec. intros (x & ? & ?). exists x. split; [lia|done]. Qed.

(** Bytes outside a slot. *)
Lemma outside_perm i f o k b : outside L i f o k -> o <= b < o + k -> @perm (slot_perm L i) f b = false.
Proof using.
  intros [Hd Hb] Hr. apply not_true_iff_false. rewrite slot_perm_spec.
  intros [[-> ?]|[-> ?]]; [destruct Hd as [?|?]|destruct Hb as [?|?]]; done || lia.
Qed.

(** A byte belongs to one slot at most. *)
Lemma slot_perm_inj i j f o :
  0 <= i < l_size L -> 0 <= j < l_size L ->
  @perm (slot_perm L i) f o = true -> @perm (slot_perm L j) f o = true -> i = j.
Proof using Hwf.
  intros Hi Hj Hpi Hpj. destruct (decide (i = j)) as [|Hne]; [done|]. exfalso.
  apply slot_perm_spec in Hpj as [[-> Ho]|[-> Ho]].
  - rewrite (outside_perm i _ (daddr L j) descSize) in Hpi; [done|by apply outside_desc|done].
  - rewrite (outside_perm i _ (l_boff L j) (l_cap L)) in Hpi; [done|by apply outside_buf|done].
Qed.

(** A header byte belongs to none. *)
Lemma hdr_no_slot i o b :
  0 <= i < l_size L -> 0 <= o -> o + 2 <= ringSize ->
  l_hdr L + o <= b < l_hdr L + o + 2 -> @perm (slot_perm L i) (l_file L) b = false.
Proof using Hwf. intros. eapply outside_perm; [by apply (outside_hdr L Hwf i o 2)|done]. Qed.

Lemma compl_spec X f o : @perm (compl X) f o = true <-> ~ @perm X f o = true.
Proof using. unfold compl, perm at 1. by rewrite negb_true_iff, not_true_iff_false. Qed.

Lemma work_perm_spec lo hi f o :
  @perm (work_perm L lo hi) f o = true <->
  @perm (slots_perm L lo hi) f o = true \/
  f = l_file L /\ l_hdr L + ringFlagsOffset <= o < l_hdr L + ringFlagsOffset + 2.
Proof using. unfold work_perm, perm at 1. by rewrite orb_true_iff, in_range_spec. Qed.

Lemma hdr_no_slots lo hi o b :
  0 <= o -> o + 2 <= ringSize -> l_hdr L + o <= b < l_hdr L + o + 2 ->
  ~ @perm (slots_perm L lo hi) (l_file L) b = true.
Proof using Hwf.
  intros ??? (x & _ & Hp)%slots_perm_spec.
  rewrite (hdr_no_slot _ o) in Hp; [done|by apply sl_range|done..].
Qed.

(** Slot ranges less than a lap apart are disjoint. *)
Definition apart_ranges (lo hi lo' hi' : Z) : Prop :=
  hi <= lo' /\ hi' <= lo + l_size L \/ hi' <= lo /\ hi <= lo' + l_size L.

Lemma slots_apart lo hi lo' hi' :
  apart_ranges lo hi lo' hi' -> within (slots_perm L lo hi) (compl (slots_perm L lo' hi')).
Proof using Hwf.
  intros Ha f o (x & Hx & Hpx)%slots_perm_spec.
  apply compl_spec. intros (y & Hy & Hpy)%slots_perm_spec.
  assert (sl L x = sl L y) as He by (eapply slot_perm_inj; [apply sl_range|apply sl_range|..]; done).
  destruct Ha as [?|?]; [|symmetry in He]; revert He; apply sl_inj; done || lia.
Qed.

Lemma slots_apart_work lo hi lo' hi' :
  apart_ranges lo hi lo' hi' -> within (slots_perm L lo hi) (compl (work_perm L lo' hi')).
Proof using Hwf.
  intros Ha f o Hp. apply compl_spec. rewrite work_perm_spec. intros [Hw|[-> Hf]].
  - apply (slots_apart _ _ _ _ Ha) in Hp. by apply compl_spec in Hp.
  - revert Hp. by apply (hdr_no_slots _ _ ringFlagsOffset o).
Qed.

Lemma compl_swap X Y : within X (compl Y) -> within Y (compl X).
Proof using.
  intros Hw f o Hp. apply compl_spec. intros Hx. apply Hw in Hx. by apply compl_spec in Hx.
Qed.

(** Header fields other than the flags are outside both. *)
Lemma hdr_outside_slots lo hi o :
  0 <= o -> o + 2 <= ringSize ->
  @allowed (compl (slots_perm L lo hi)) (l_file L) (l_hdr L + o) 2 = true.
Proof using Hwf.
  intros ??. apply allowed_spec. intros b Hb. apply compl_spec. by apply (hdr_no_slots _ _ o b).
Qed.

Lemma hdr_outside_work lo hi o :
  0 <= o -> o + 2 <= ringSize -> o + 2 <= ringFlagsOffset \/ ringFlagsOffset + 2 <= o ->
  @allowed (compl (work_perm L lo hi)) (l_file L) (l_hdr L + o) 2 = true.
Proof using Hwf.
  intros ???. apply allowed_spec. intros b Hb. apply compl_spec. rewrite work_perm_spec.
  intros [Hp|[_ ?]]; [|lia]. revert Hp. by apply (hdr_no_slots _ _ o b).
Qed.

(** Slots of positions in the range are permitted. *)
Definition covers (X : area) (i : Z) : Prop := within (slot_perm L i) X.

Lemma covers_slots lo hi x : lo <= x < hi -> covers (slots_perm L lo hi) (sl L x).
Proof using. intros Hx f o Hp. apply slots_perm_spec. eauto. Qed.

Lemma covers_within X Y i : covers X i -> within X Y -> covers Y i.
Proof using. intros Hc Hw f o Hp. by apply Hw, Hc. Qed.

Lemma covers_desc X i : covers X i -> @allowed X (l_file L) (daddr L i) descSize = true.
Proof using.
  intros Hc. apply allowed_spec. intros b Hb. apply Hc, slot_perm_spec. by left.
Qed.

Lemma covers_buf X i k : covers X i -> k <= l_cap L -> @allowed X (l_bfile L i) (l_boff L i) k = true.
Proof using.
  intros Hc Hk. apply allowed_spec. intros b Hb. apply Hc, slot_perm_spec. right. split; [done|lia].
Qed.

(** *** Facts on a slot, under a permission and without *)

Lemma lift_desc X m i fl len : covers X i -> has_desc L m i fl len -> @has_desc X L m i fl len.
Proof using. intros Hc (db & Hl & Hd). exists db. split; [|done]. by rewrite (ld_perm X) by (by apply covers_desc). Qed.

Lemma relax_desc X m i fl len : @has_desc X L m i fl len -> has_desc L m i fl len.
Proof using. intros (db & Hl & Hd). exists db. split; [by eapply ld_relax|done]. Qed.

Lemma lift_chunk X m i bs : covers X i -> has_chunk L m i bs -> @has_chunk X L m i bs.
Proof using. intros Hc [Hk Hl]. split; [done|]. by rewrite (ld_perm X) by (by apply covers_buf). Qed.

Lemma relax_chunk X m i bs : @has_chunk X L m i bs -> has_chunk L m i bs.
Proof using. intros [Hk Hl]. split; [done|]. by eapply ld_relax. Qed.

Lemma lift_cell X m i c : covers X i -> cell_at L m i c -> @cell_at X L m i c.
Proof using. intros Hc [??]. split; [by apply lift_desc|by apply lift_chunk]. Qed.

Lemma relax_cell X m i c : @cell_at X L m i c -> cell_at L m i c.
Proof using. intros [??]. split; [by eapply relax_desc|by eapply relax_chunk]. Qed.

Lemma lift_buf X m i : covers X i -> buf_valid L m i -> @buf_valid X L m i.
Proof using. intros Hc Hv. unfold buf_valid. by rewrite (ld_perm X) by (by apply covers_buf). Qed.

Lemma lift_writable X p m i : covers X i -> writable L p m i -> @writable X L p m i.
Proof using.
  intros Hc [(fl & len & Hd & He) Hv]. split; [|by apply lift_buf].
  exists fl, len. split; [by apply lift_desc|done].
Qed.

Lemma relax_writable X p m i : @writable X L p m i -> writable L p m i.
Proof using.
  intros [(fl & len & Hd & He) [bs Hv]]. split; [|exists bs; by eapply ld_relax].
  exists fl, len. split; [by eapply relax_desc|done].
Qed.

(** The slots a step keeps. *)
Lemma agree_covers X m m' i : agree X m m' -> covers X i -> same_slot L m m' i.
Proof using.
  intros Hs Hc. split.
  - eapply agree_ld; [done|by apply covers_desc].
  - intros k Hk. eapply agree_ld; [done|by apply covers_buf].
Qed.

Lemma agree_writable X p m m' i : agree X m m' -> @writable X L p m i -> @writable X L p m' i.
Proof using.
  intros Hs [(fl & len & (db & Hl & Hd) & He) Hv]. split; [|unfold buf_valid; by rewrite Hs].
  exists fl, len. split; [|done]. exists db. by rewrite Hs.
Qed.

Lemma agree_cell X m m' i c : agree X m m' -> @cell_at X L m i c -> @cell_at X L m' i c.
Proof using.
  intros Hs [(db & Hl & Hd) [Hc Hk]]. split; [exists db; by rewrite Hs|]. split; [done|]. by rewrite Hs.
Qed.
End perms.

(** ** The invariant *)

(** Ghost state: the atomic channel, the positions, the producer's working slots
    and whether the consumer is at work. *)
Record ghost := mkGhost {
  g_at : atomic;
  g_C : Z; g_P : Z; g_F : Z;
  g_held : Z;
  g_busy : bool
}.

Definition g_packets (g : ghost) : list (list byte) := packets (at_fifo (g_at g)).

Section ring.
Context (t : ringType) (L : layout) (pp : Port) (pq : Queue) (cp : Port) (cr : ring)
  (Hlk : linked t L pp pq cp cr) (mtu : Z).
Implicit Types (g : ghost) (m : mem).

#[local] Lemma ring_wf : layout_wf L.
Proof using Hlk. apply Hlk. Qed.

Abbreviation n := (l_size L).
Abbreviation cap := (l_cap L).

Definition g_cells (g : ghost) : list cell := concat (encode cap <$> g_packets g).

(** A slot whose cell has been read. *)
Definition spent (m : mem) (i : Z) : Prop :=
  exists fl len, has_desc L m i fl len /\
    match t with ringTypeS2M => True | ringTypeM2S => 0 <= len < 65536 end.

(** Packets and buffers keep to the agreed size. *)
Definition agreed (a : atomic) : Prop :=
  Forall (fun p => zlen (delivered cap p) <= mtu) (packets (at_fifo a)) /\
  match at_w a with WCalled pkt => zlen (delivered cap pkt) <= mtu | _ => True end /\
  match at_r a with RCalled buf => mtu <= zlen buf | _ => True end.

Record shared_inv (g : ghost) (m : mem) : Prop := {
  si_back : g_F g - n <= g_C g <= g_P g;
  si_front : 0 <= g_held g /\ g_P g + g_held g <= g_F g;
  si_len : g_P g = g_C g + zlen (g_cells g);
  si_credit : f_credit (at_fifo (g_at g)) = g_F g - g_P g;
  si_prod : ld m (l_file L) (l_hdr L + prod_off t) 2 = Some (le16 (g_P g));
  si_cons : ld m (l_file L) (l_hdr L + cons_off t) 2 =
    Some (le16 (match t with ringTypeS2M => g_F g - n | ringTypeM2S => g_F g end));
  si_flags : is_Some (ld m (l_file L) (l_hdr L + ringFlagsOffset) 2);
  si_bufs : forall i, 0 <= i < n -> buf_valid L m i;
  si_cells : forall j c, g_cells g !! j = Some c -> cell_at L m (sl L (g_C g + Z.of_nat j)) c;
  si_free : forall x, g_P g + g_held g <= x < g_F g -> writable L pp m (sl L x);
  si_spent : g_busy g = false -> forall x, g_F g - n <= x < g_C g -> spent m (sl L x);
  si_full : g_busy g = false -> t = ringTypeS2M -> g_F g = g_C g + n;
  si_agreed : agreed (g_at g)
}.

(** ** Rely and guarantee *)

Definition prod_area (g : ghost) : area := work_perm L (g_P g) (g_P g + g_held g).
Definition cons_area (g : ghost) : area := slots_perm L (g_F g - n) (g_C g).

(** What the consumer does: the producer's position, slots and call are left
    alone; the slots given to it only become more. *)
Definition rely_w (g : ghost) (m : mem) (g' : ghost) (m' : mem) : Prop :=
  g_P g' = g_P g /\ g_held g' = g_held g /\ at_w (g_at g') = at_w (g_at g) /\
  g_F g <= g_F g' /\ agree (prod_area g) m m'.

(** What the producer does. *)
Definition rely_r (g : ghost) (m : mem) (g' : ghost) (m' : mem) : Prop :=
  g_C g' = g_C g /\ g_F g' = g_F g /\ g_busy g' = g_busy g /\ at_r (g_at g') = at_r (g_at g) /\
  agree (cons_area g) m m'.

Definition lin : atomic -> atomic -> Prop := rtc (lin_step n cap).

Definition guar_w g m g' m' : Prop := rely_r g m g' m' /\ lin (g_at g) (g_at g').
Definition guar_r g m g' m' : Prop := rely_w g m g' m' /\ lin (g_at g) (g_at g').

Lemma rely_w_refl g m : rely_w g m g m.
Proof using. split_and!; done || lia. Qed.

Lemma rely_r_refl g m : rely_r g m g m.
Proof using. by split_and!. Qed.

Lemma rely_w_trans g1 m1 g2 m2 g3 m3 : rely_w g1 m1 g2 m2 -> rely_w g2 m2 g3 m3 -> rely_w g1 m1 g3 m3.
Proof using.
  unfold rely_w, prod_area. intros (A1 & A2 & A3 & A4 & A5) (B1 & B2 & B3 & B4 & B5).
  rewrite A1, A2 in *. split_and!; [congruence|congruence|congruence|lia|by eapply agree_trans].
Qed.

Lemma rely_r_trans g1 m1 g2 m2 g3 m3 : rely_r g1 m1 g2 m2 -> rely_r g2 m2 g3 m3 -> rely_r g1 m1 g3 m3.
Proof using.
  unfold rely_r, cons_area. intros (A1 & A2 & A3 & A4 & A5) (B1 & B2 & B3 & B4 & B5).
  rewrite A1, A2 in *. split_and!; [congruence..|by eapply agree_trans].
Qed.

Lemma guar_w_refl g m : guar_w g m g m.
Proof using. split; [apply rely_r_refl|apply rtc_refl]. Qed.

Lemma guar_r_refl g m : guar_r g m g m.
Proof using. split; [apply rely_w_refl|apply rtc_refl]. Qed.

Lemma guar_w_trans g1 m1 g2 m2 g3 m3 : guar_w g1 m1 g2 m2 -> guar_w g2 m2 g3 m3 -> guar_w g1 m1 g3 m3.
Proof using. intros [A1 A2] [B1 B2]. split; [by eapply rely_r_trans|by etrans]. Qed.

Lemma guar_r_trans g1 m1 g2 m2 g3 m3 : guar_r g1 m1 g2 m2 -> guar_r g2 m2 g3 m3 -> guar_r g1 m1 g3 m3.
Proof using. intros [A1 A2] [B1 B2]. split; [by eapply rely_w_trans|by etrans]. Qed.

(** The invariant only looks at the memory through these facts. *)
Lemma shared_inv_agree g m m' :
  shared_inv g m ->
  (forall o, o = prod_off t \/ o = cons_off t ->
     ld m' (l_file L) (l_hdr L + o) 2 = ld m (l_file L) (l_hdr L + o) 2) ->
  (forall f o k, is_Some (ld m f o k) -> is_Some (ld m' f o k)) ->
  (forall x, g_C g <= x < g_P g \/ g_P g + g_held g <= x < g_F g \/
     g_busy g = false /\ g_F g - n <= x < g_C g -> same_slot L m m' (sl L x)) ->
  shared_inv g m'.
Proof using.
  intros [H1 H2 H3 H4 H5 H6 H7 H8 H9 H10 H11 H12 H13] Hh Hv Hs. split; try done.
  - rewrite Hh; auto.
  - rewrite Hh; auto.
  - by apply Hv.
  - intros i Hi. apply Hv. by apply H8.
  - intros j c Hj. eapply same_cell_at; [|by apply H9]. apply Hs. left.
    apply lookup_lt_Some in Hj. unfold zlen in *. lia.
  - intros x Hx. eapply same_writable; [|by apply H10]. apply Hs. auto.
  - intros Hb x Hx. destruct (H11 Hb x Hx) as (fl & len & Hd & ?). exists fl, len.
    split; [|done]. eapply same_has_desc; [|done]. apply Hs. auto.
Qed.

(** *** The two sides' bytes do not meet *)

Lemma cons_apart_prod g m : shared_inv g m -> within (cons_area g) (compl (prod_area g)).
Proof using Hlk.
  intros Hi. pose proof (si_back _ _ Hi). pose proof (si_front _ _ Hi).
  apply slots_apart_work; [apply ring_wf|unfold apart_ranges; lia].
Qed.

(** Work of the producer on its slots. *)
Lemma prod_step g m m' :
  shared_inv g m -> agree (compl (prod_area g)) m m' -> shared_inv g m' /\ guar_w g m g m'.
Proof using Hlk.
  intros Hi Ha. pose proof (si_back _ _ Hi) as Hb. pose proof (si_front _ _ Hi) as Hf. split.
  - eapply shared_inv_agree; [done|..].
    + intros o Ho. eapply agree_ld; [exact Ha|].
      apply hdr_outside_work; [apply ring_wf|destruct Ho as [-> | ->]; by destruct t..|].
      destruct Ho as [-> | ->]; destruct t; right; by compute.
    + intros f o k. by eapply agree_valid.
    + intros x Hx. eapply agree_covers; [exact Ha|].
      eapply covers_within; [apply (covers_slots L x (x + 1)); lia|].
      apply slots_apart_work; [apply ring_wf|unfold apart_ranges; lia].
  - split; [|apply rtc_refl]. split_and!; [done..|]. eapply agree_within; [by eapply cons_apart_prod|done].
Qed.

(** Work of the consumer on the slots it has not given back. *)
Lemma cons_step g m m' :
  shared_inv g m -> g_busy g = true -> agree (compl (cons_area g)) m m' ->
  shared_inv g m' /\ guar_r g m g m'.
Proof using Hlk.
  intros Hi Hbusy Ha. pose proof (si_back _ _ Hi) as Hb. pose proof (si_front _ _ Hi) as Hf. split.
  - eapply shared_inv_agree; [done|..].
    + intros o Ho. eapply agree_ld; [exact Ha|].
      apply hdr_outside_slots; [apply ring_wf|destruct Ho as [-> | ->]; by destruct t..].
    + intros f o k. by eapply agree_valid.
    + intros x Hx. eapply agree_covers; [exact Ha|].
      eapply covers_within; [apply (covers_slots L x (x + 1)); lia|].
      apply slots_apart; [apply ring_wf|]. unfold apart_ranges.
      destruct Hx as [?|[?|[? ?]]]; [lia|lia|congruence].
  - split; [|apply rtc_refl]. split_and!; [done..|lia|].
    eapply agree_within; [by eapply compl_swap, cons_apart_prod|done].
Qed.
End ring.

(** ** The data path makes no system call but [write] *)

Lemma region_data_writes p r : only_writes (region_data p r).
Proof. unfold region_data. repeat case_match; done. Qed.

Lemma reslice_writes s lo hi : only_writes (reslice s lo hi).
Proof. unfold reslice. by case_match. Qed.

Lemma copy_from_writes db s : only_writes (copy_from db s).
Proof. unfold copy_from. cbv zeta. by case_match. Qed.

Lemma copy_to_writes s src : only_writes (copy_to s src).
Proof. unfold copy_to. cbv zeta. by case_match. Qed.

Lemma unsafe_load16_writes s i : only_writes (unsafe_load16 s i).
Proof. unfold unsafe_load16. by case_match. Qed.

Lemma unsafe_store16_writes s i v : only_writes (unsafe_store16 s i v).
Proof. unfold unsafe_store16. by case_match. Qed.

#[export] Hint Resolve region_data_writes reslice_writes copy_from_writes copy_to_writes
  unsafe_load16_writes unsafe_store16_writes : writes.

Lemma getDescBuf_writes p q s db : only_writes (getDescBuf p q s db).
Proof. unfold getDescBuf, ring_data_from. auto 10 with writes. Qed.

Lemma putDescBuf_writes p q s db : only_writes (putDescBuf p q s db).
Proof. unfold putDescBuf, ring_data_from. auto 10 with writes. Qed.

Lemma desc_data_writes p db lo hi : only_writes (desc_data p db lo hi).
Proof. unfold desc_data. auto with writes. Qed.

Lemma setDescLength_writes p q s v : only_writes (setDescLength p q s v).
Proof. unfold setDescLength. auto with writes. Qed.

Lemma interrupt_writes p q : only_writes (interrupt p q).
Proof.
  unfold interrupt, isInterrupt, getFlags. apply only_writes_bind; [auto 10 with writes|].
  intros []; [|done]. apply only_writes_bind; [done|]. intros [z|e]; [by case_match|done].
Qed.

#[export] Hint Resolve getDescBuf_writes putDescBuf_writes desc_data_writes setDescLength_writes
  interrupt_writes : writes.

Lemma fill_slot_writes p q s db pkt : only_writes (fill_slot p q s db pkt).
Proof. unfold fill_slot. auto 10 with writes. Qed.

#[export] Hint Resolve fill_slot_writes : writes.

Lemma WritePacket_loop_writes p q more s n db pkt : only_writes (WritePacket_loop p q more s n db pkt).
Proof.
  revert s n db. induction more as [|more IH]; intros; cbn; case_match; auto 10 with writes.
Qed.

Lemma ReadPacket_chain_writes p q fuel s o db pkt : only_writes (ReadPacket_chain p q fuel s o db pkt).
Proof.
  revert s o db pkt. induction fuel as [|fuel IH]; intros; cbn; case_match; try done.
  apply only_writes_bind; [auto with writes|]. intros db'. case_match; auto 10 with writes.
Qed.

Lemma refill_loop_writes p q k s : only_writes (refill_loop p q k s).
Proof. revert s. induction k as [|k IH]; intros; cbn; auto with writes. Qed.

#[export] Hint Resolve WritePacket_loop_writes ReadPacket_chain_writes refill_loop_writes : writes.

(** ** Header accesses *)

Section header_rules.
Context {G : Type} (inv : G -> mem -> Prop) (guar rely : G -> mem -> G -> mem -> Prop).
Context (guar_refl : forall g m, guar g m g m).
Context (L : layout) (p : Port) (q : Queue) (d : slice) (Hs : side L p q d).

Lemma hdr_load_eq o :
  0 <= o -> o + 2 <= ringSize ->
  (e ← region_data p (rg_region (q_ring q)); unsafe_load16 e (rg_offset (q_ring q) + o)) =
  Load (l_file L) (l_hdr L + o) 2 (fun bs => Ret (unle bs)).
Proof using Hs.
  intros ??. destruct Hs as [[Hr (reg & Hl & Hd) Ho Hlen Hn] Hf Hh _ _].
  unfold region_data. rewrite (proj2 (Z.ltb_ge _ _)), Hl, Hd by lia. cbn. unfold unsafe_load16.
  rewrite (proj2 (Z.leb_le _ _)), (proj2 (Z.ltb_lt _ _)) by lay. cbn.
  unfold hdr in Hh. rewrite Hf, Z.add_assoc, Hh. done.
Qed.

Lemma hdr_store_eq o v :
  0 <= o -> o + 2 <= ringSize ->
  (e ← region_data p (rg_region (q_ring q)); unsafe_store16 e (rg_offset (q_ring q) + o) v) =
  Store (l_file L) (l_hdr L + o) (le16 v) (Ret tt).
Proof using Hs.
  intros ??. destruct Hs as [[Hr (reg & Hl & Hd) Ho Hlen Hn] Hf Hh _ _].
  unfold region_data. rewrite (proj2 (Z.ltb_ge _ _)), Hl, Hd by lia. cbn. unfold unsafe_store16.
  rewrite (proj2 (Z.leb_le _ _)), (proj2 (Z.ltb_lt _ _)) by lay. cbn.
  unfold hdr in Hh. rewrite Hf, Z.add_assoc, Hh. done.
Qed.

Lemma rg_hdr_load o v g m (Q : Z -> G -> mem -> Prop) :
  0 <= o -> o + 2 <= ringSize -> ld m (l_file L) (l_hdr L + o) 2 = Some (le16 v) ->
  step_to inv guar rely g m m (Q (u16 v)) ->
  rg inv guar rely
    (e ← region_data p (rg_region (q_ring q)); unsafe_load16 e (rg_offset (q_ring q) + o)) Q g m.
Proof using Hs guar_refl.
  intros ?? Hl Hst. rewrite hdr_load_eq by done. exists (le16 v). split; [done|].
  rewrite unle_le16. eapply step_to_mono; [exact Hst|]. intros. by apply rg_ret.
Qed.

Lemma rg_hdr_store o v g m m' (Q : unit -> G -> mem -> Prop) :
  0 <= o -> o + 2 <= ringSize -> st m (l_file L) (l_hdr L + o) (le16 v) = Some m' ->
  step_to inv guar rely g m m' (Q tt) ->
  rg inv guar rely
    (e ← region_data p (rg_region (q_ring q)); unsafe_store16 e (rg_offset (q_ring q) + o) v) Q g m.
Proof using Hs guar_refl.
  intros ?? Hl Hst. rewrite hdr_store_eq by done. exists m'. split; [done|].
  eapply step_to_mono; [exact Hst|]. intros. by apply rg_ret.
Qed.
End header_rules.
