(* ===== verification/Producer.v ===== *)
(** * WritePacket against a concurrent consumer

    [rg_WritePacket]: whatever the consumer does between its memory accesses, the
    call returns, and it takes effect at one of them: at the load of the
    consumer's counter when the packet does not fit the free slots, else at the
    store of its own counter. *)
From stdpp Require Import base tactics list gmap relations.
From coqutil Require Import Byte.
From Stdlib Require Import ZArith Lia.
From S2P Require Import Prelude.
From S2P Require Import GoInt.
From S2P Require Import Shm.
From S2P Require Import Descriptor.
From S2P Require Import State.
From S2P Require Import Ring.
From S2P Require Import Queue.
From S2P Require Import Packet.
From S2P Require Import Layout.
From S2P Require Import Transfer.
From S2P Require Import Link.
From S2P Require Import Fifo.
From S2P Require Import Interleave.
From S2P Require Import Atomic.
From S2P Require Import Concurrent.


Section producer.
Context (t : ringType) (L : layout) (pp : Port) (pq : Queue) (cp : Port) (cr : ring)
  (Hlk : linked t L pp pq cp cr) (mtu : Z).
Implicit Types (g : ghost) (m : mem) (pkt : list byte).

#[local] Lemma prod_wf : layout_wf L.
Proof using Hlk. apply Hlk. Qed.

Abbreviation n := (l_size L).
Abbreviation cap := (l_cap L).
Abbreviation Inv := (shared_inv t L pp mtu).
Abbreviation Rg := (rg Inv (guar_w L) (rely_w L)).

(** ** Ghost updates of the producer *)

(** [c] slots are taken up for work; the call's status changes to [W]. *)
Definition hold (c : Z) (W : wstatus) (g : ghost) : ghost :=
  mkGhost (mkAtomic (at_fifo (g_at g)) W (at_r (g_at g))) (g_C g) (g_P g) (g_F g) c (g_busy g).

(** The packet is published. *)
Definition publish (pkt : list byte) (g : ghost) : ghost :=
  mkGhost
    (mkAtomic (mkFifo (g_packets g ++ [pkt]) (f_credit (at_fifo (g_at g)) - slots cap pkt))
       (WDone (written cap pkt)) (at_r (g_at g)))
    (g_C g) (g_P g + slots cap pkt) (g_F g) 0 (g_busy g).

(** What the producer knows during a call. *)
Definition writing (P c : Z) (W : wstatus) (g : ghost) : Prop :=
  g_P g = P /\ g_held g = c /\ at_w (g_at g) = W.

Lemma writing_rely P c W g m g' m' : writing P c W g -> rely_w L g m g' m' -> writing P c W g'.
Proof using. unfold writing. intros (? & ? & ?) (? & ? & ? & _). split_and!; congruence. Qed.

(** Taking up every free slot, and deciding at once whether the packet fits. *)
Lemma hold_free g m P pkt :
  let c := g_F g - P in
  let W := if slots cap pkt <=? c then WCalled pkt else WDone 0 in
  Inv g m -> writing P 0 (WCalled pkt) g -> Inv (hold c W g) m /\ guar_w L g m (hold c W g) m.
Proof using.
  intros c W Hi (HP & Hh & HW). pose proof Hi as [H1 H2 H3 H4 H5 H6 H7 H8 H9 H10 H11 H12 H13].
  unfold W, c in *. clear W c. split.
  - split; simpl; try done; try lia.
    destruct H13 as (? & ? & ?). split_and!; [done| |done]. simpl. rewrite HW in *. by destruct (_ <=? _).
  - split; [by split_and!|]. destruct g as [[f w r] C P' F h b]. simpl in *. subst.
    unfold hold. simpl. case_bool; [done|]. zbool. apply rtc_once. constructor. simpl in *. lia.
Qed.

(** Giving the slots up again, nothing published. *)
Lemma hold_none g m P c k :
  Inv g m -> writing P c (WDone k) g ->
  (forall x, P <= x < P + c -> writable L pp m (sl L x)) ->
  Inv (hold 0 (WDone k) g) m /\ guar_w L g m (hold 0 (WDone k) g) m.
Proof using.
  intros Hi (HP & Hh & HW) Hw. pose proof Hi as [H1 H2 H3 H4 H5 H6 H7 H8 H9 H10 H11 H12 H13]. split.
  - split; simpl; try done; try lia.
    + intros x Hx. destruct (decide (x < P + c)); [apply Hw|apply H10]; lia.
    + by destruct H13 as (? & ? & ?).
  - split; [by split_and!|]. destruct g as [[f w r] C P' F h b]. simpl in *. subst. apply rtc_refl.
Qed.

(** The store of the producer's counter. *)
Lemma publish_inv g m m' P c pkt s :
  Inv g m -> writing P c (WCalled pkt) g -> slots cap pkt <= c ->
  (forall j x, encode cap pkt !! j = Some x -> cell_at L m (sl L (P + Z.of_nat j)) x) ->
  (forall x, P + slots cap pkt <= x < P + c -> writable L pp m (sl L x)) ->
  u16 s = u16 (P + slots cap pkt) ->
  st m (l_file L) (l_hdr L + prod_off t) (le16 s) = Some m' ->
  Inv (publish pkt g) m' /\ guar_w L g m (publish pkt g) m'.
Proof using Hlk.
  intros Hi (HP & Hh & HW) Hle Hcells Hfree Hs Hst.
  pose proof Hi as [H1 H2 H3 H4 H5 H6 H7 H8 H9 H10 H11 H12 H13].
  pose proof (more_slots_nonneg L prod_wf pkt) as Hms.
  assert (Hsame : forall i, 0 <= i < n -> same_slot L m m' i).
  { intros. eapply (hdr_store_same L prod_wf); [done|by destruct t..|done]. }
  assert (Henc : g_cells L (publish pkt g) = g_cells L g ++ encode cap pkt).
  { unfold g_cells, publish, g_packets. simpl. rewrite fmap_app, concat_app. simpl. by rewrite app_nil_r. }
  split; [split|]; rewrite ?Henc; simpl; try lia.
  - unfold slots. lia.
  - rewrite zlen_app, (zlen_encode L prod_wf). lia.
  - erewrite <- (le16_congr s) by (rewrite HP; done). exact (ld_st_same _ _ _ _ _ Hst).
  - rewrite (hdr_store_other L _ _ _ _ _ Hst); [done|destruct t; [right|left]; by compute].
  - rewrite (hdr_store_other L _ _ _ _ _ Hst); [done|destruct t; left; by compute].
  - intros i Hi'. eapply same_buf_valid; [by apply Hsame|by apply H8].
  - intros j x Hj. eapply same_cell_at; [apply Hsame, sl_range, prod_wf|].
    apply lookup_app_Some in Hj as [Hj|[Hge Hj]]; [by apply H9|].
    replace (g_C g + Z.of_nat j) with (P + Z.of_nat (j - length (g_cells L g))) by (unfold zlen in *; lia).
    by apply Hcells.
  - intros x Hx. eapply same_writable; [apply Hsame, sl_range, prod_wf|].
    destruct (decide (x < P + c)); [apply Hfree|apply H10]; lia.
  - intros Hb x Hx. destruct (H11 Hb x Hx) as (fl & len & Hd & ?). exists fl, len.
    split; [|done]. eapply same_has_desc; [apply Hsame, sl_range, prod_wf|done].
  - done.
  - destruct H13 as (Hp & Hpkt & Hbuf). rewrite HW in Hpkt. split_and!; [|done|done].
    simpl. apply Forall_app. split; [done|]. by apply Forall_singleton.
  - split.
    + split_and!; try done. eapply st_outside; [done|]. rewrite zlen_le16.
      apply hdr_outside_slots; [apply prod_wf|by destruct t..].
    + destruct g as [[f w r] C P' F h b]. simpl in *. subst. apply rtc_once. constructor. lia.
Qed.

(** ** Rules *)

(** Sequential code on the producer's own slots. *)
Lemma rg_own {A} (p : prog A) (Q0 : A -> mem -> Prop) (Q : A -> ghost -> mem -> Prop) P c W g m :
  only_writes p -> Inv g m -> writing P c W g ->
  (forall s, @wp oracle (work_perm L P (P + c)) A p (@mkWorld oracle m s)
     (fun a w => Q0 a (@shm oracle w))) ->
  (forall a m0 g' m', Inv g' m' -> writing P c W g' -> Q0 a m0 ->
     agree (work_perm L P (P + c)) m0 m' -> Q a g' m') ->
  Rg p Q g m.
Proof using Hlk.
  intros Hw Hi Hwr Hwp HQ.
  assert (Harea : forall g, writing P c W g -> prod_area L g = work_perm L P (P + c)).
  { intros g0 (HP & Hh & _). unfold prod_area. by rewrite HP, Hh. }
  eapply (rg_alone Inv (guar_w L) (rely_w L) (guar_w_refl L)
            (work_perm L P (P + c)) (fun g _ => writing P c W g)); [..|exact Hwp|].
  - intros g0 m0 g' m' H0 _ Hr _. split; [by eapply writing_rely|].
    rewrite <- (Harea _ H0). apply Hr.
  - intros g0 m0 m' H0 Hi0 Ha. split; [done|]. eapply (prod_step t L pp pq cp cr Hlk); [done|].
    by rewrite (Harea _ H0).
  - done.
  - done.
  - done.
  - eauto.
Qed.

Lemma work_flags P c g m :
  Inv g m -> is_Some (@ld (work_perm L P (P + c)) m (l_file L) (l_hdr L + ringFlagsOffset) 2).
Proof using.
  intros Hi. rewrite (ld_perm (work_perm L P (P + c))); [by eapply si_flags|].
  apply allowed_spec. intros b Hb. apply work_perm_spec. by right.
Qed.

Lemma rg_interrupt P c W g m (Q : option goerror -> ghost -> mem -> Prop) :
  Inv g m -> writing P c W g ->
  (forall r g' m', Inv g' m' -> writing P c W g' -> agree (work_perm L P (P + c)) m m' -> Q r g' m') ->
  Rg (interrupt pp pq) Q g m.
Proof using Hlk.
  intros Hi Hwr HQ. destruct (lk_prod _ _ _ _ _ _ Hlk) as [d Hsd].
  eapply (rg_own _ (fun _ m' => m' = m)); [auto with writes|done|done| |].
  - intros s. eapply (@wp_side_interrupt oracle (work_perm L P (P + c)) L pp pq d Hsd _ _); [|done].
    by eapply work_flags.
  - intros r m0 g' m' ?? -> ?. by apply HQ.
Qed.

(** The two counters are read; what the second shows is decided there and then. *)
Lemma rg_producer_state P pkt g m (Q : Z * Z -> ghost -> mem -> Prop) :
  Inv g m -> writing P 0 (WCalled pkt) g ->
  (forall g1 m1, Inv g1 m1 -> writing P 0 (WCalled pkt) g1 ->
     step_to Inv (guar_w L) (rely_w L) g1 m1 m1 (fun g2 m2 =>
       forall s, u16 s = u16 P -> Q (s, g_F g1 - P) g2 m2)) ->
  Rg (if IsServer (cfg pp) then
        slot ← readTail pp pq;
        head ← readHead pp pq;
        mret (slot, u16 (head - slot))
      else
        slot ← readHead pp pq;
        tail ← readTail pp pq;
        mret (slot, u16 (rg_size (q_ring pq) - slot + tail))) Q g m.
Proof using Hlk.
  intros Hi Hwr HQ. destruct (lk_prod _ _ _ _ _ _ Hlk) as [d Hs].
  pose proof (l_size_le L prod_wf). rewrite (lk_pserver _ _ _ _ _ _ Hlk).
  pose proof (guar_w_trans L) as Htr. pose proof (guar_w_refl L) as Hrf.
  pose proof (si_prod _ _ _ _ _ _ Hi) as Hp. destruct Hwr as (HP & Hh & HW).
  destruct t; simpl in *; rewrite HP in Hp.
  all: apply rg_bind; [done|]; eapply (rg_hdr_load _ _ _ Hrf L pp pq d Hs); [done|done|exact Hp|];
    apply step_to_idle; [done|done|]; intros g1 m1 Hr1 Hi1;
    assert (writing P 0 (WCalled pkt) g1) as Hw1 by (by eapply writing_rely);
    pose proof (si_cons _ _ _ _ _ _ Hi1) as Hc; pose proof (si_back _ _ _ _ _ _ Hi1) as Hb;
    pose proof (si_front _ _ _ _ _ _ Hi1) as Hf; pose proof Hw1 as (HP1 & Hh1 & _);
    rewrite HP1, Hh1 in *; simpl in *;
    (apply rg_bind; [done|]; eapply (rg_hdr_load _ _ _ Hrf L pp pq d Hs); [done|done|exact Hc|]);
    (eapply step_to_mono; [by apply HQ|]); intros g2 m2 Hi2 HQ2; apply rg_ret; [done|done|].
  - rewrite (sd_size _ _ _ _ Hs).
    replace (u16 (n - u16 P + u16 (g_F g1 - n))) with (g_F g1 - P); [apply HQ2, u16_u16|].
    rewrite u16_add_r. replace (n - u16 P + (g_F g1 - n)) with (g_F g1 - u16 P) by lia.
    rewrite u16_sub_r, u16_small; lia.
  - replace (u16 (u16 (g_F g1) - u16 P)) with (g_F g1 - P); [apply HQ2, u16_u16|].
    rewrite u16_sub_l, u16_sub_r, u16_small; lia.
Qed.

(** ** The call *)

Definition written_post (k : Z) (g : ghost) (_ : mem) : Prop :=
  g_held g = 0 /\ at_w (g_at g) = WDone k.

Abbreviation work P c := (work_perm L P (P + c)).

(** Free slots, as seen by code confined to them. *)
Definition free_slots (P c lo : Z) (m : mem) : Prop :=
  forall x, lo <= x < P + c -> @writable (work P c) L pp m (sl L x).

Definition holding (P c : Z) (pkt : list byte) (m : mem) (x : Z) (db : descBuf) : Prop :=
  @in_hand (work P c) L pp (chunk cap pkt) m x db.

Lemma free_agree P c lo m m' : agree (work P c) m m' -> free_slots P c lo m -> free_slots P c lo m'.
Proof using. intros Ha Hf x Hx. eapply agree_writable; [done|by apply Hf]. Qed.

Lemma holding_agree P c pkt m m' x db :
  agree (work P c) m m' -> holding P c pkt m x db -> holding P c pkt m' x db.
Proof using.
  intros Ha [Hr Hf [Hc Hch]]. split; [done|by eapply agree_writable|]. split; [done|]. by rewrite Ha.
Qed.

(** Confined work leaves later free slots free. *)
Lemma free_confined P c lo hi m m' :
  @confined (work P c) L P hi m m' -> P <= lo -> hi <= lo -> c <= n ->
  free_slots P c lo m -> free_slots P c lo m'.
Proof using Hlk.
  intros Hc ??? Hf x Hx. eapply (@confined_writable (work P c)); [apply prod_wf|exact Hc|apply sl_range, prod_wf| |by apply Hf].
  apply apart_after; [apply prod_wf|lia..].
Qed.

(** Not enough slots: they are given up, and the call returns 0. *)
Lemma rg_write_full P c g m :
  Inv g m -> writing P c (WDone 0) g -> free_slots P c P m -> Rg (mret 0) written_post g m.
Proof using.
  intros Hi Hwr Hf. destruct (hold_none g m P c 0 Hi Hwr) as [Hi' Hg].
  { intros x Hx. eapply relax_writable. by apply Hf. }
  by exists (hold 0 (WDone 0) g).
Qed.

(** The last descriptor, the counter, the interrupt. *)
Lemma rg_write_commit P c pkt s db g m :
  let e := more_slots cap pkt in
  Inv g m -> writing P c (WCalled pkt) g -> c <= n -> 1 + e <= c -> u16 s = u16 (P + e) ->
  (forall j, 0 <= j < e -> @cell_at (work P c) L m (sl L (P + j)) (true, chunk cap pkt)) ->
  holding P c pkt m (P + e) db -> free_slots P c (P + e + 1) m ->
  Rg (putDescBuf pp pq (Z.land s (ring_mask pq)) db ;;
      (if IsServer (cfg pp) then writeTail pp pq (s + 1) else writeHead pp pq (s + 1)) ;;
      interrupt pp pq ;;
      mret (written cap pkt)) written_post g m.
Proof using Hlk.
  intros e Hi Hwr Hcn Hle Hs Hcells [Hr Hf Hch] Hfree.
  pose proof (more_slots_nonneg L prod_wf pkt) as He. fold e in He.
  destruct (lk_prod _ _ _ _ _ _ Hlk) as [d Hsd].
  pose proof (guar_w_trans L) as Htr. pose proof (guar_w_refl L) as Hrf.
  apply rg_bind; [done|].
  eapply (rg_own _ (fun _ m' =>
    (forall j x, encode cap pkt !! j = Some x -> @cell_at (work P c) L m' (sl L (P + Z.of_nat j)) x) /\
    free_slots P c (P + e + 1) m')); [auto with writes|done|done| |].
  - intros k. eapply (@wp_put_slot oracle (work P c) L prod_wf pp pq d Hsd s (P + e) false);
      [exact Hs|exact Hr|by eapply writable_desc|exact Hch|].
    simpl. intros m' Hc Hcell. split.
    + intros j [b bs] Hj. eapply (encode_lookup t L pp pq cp cr Hlk) in Hj as [Hbs Hj].
      simpl in *. subst bs. fold e in Hj.
      destruct Hj as [[Hj ->]|[Hj ->]]; [|by rewrite Hj].
      eapply (@confined_cell_at (work P c)); [apply prod_wf|exact Hc|apply sl_range, prod_wf| |apply Hcells; lia].
      apply apart_before; [apply prod_wf|lia..].
    + intros x Hx. eapply (@confined_writable (work P c)); [apply prod_wf|exact Hc|apply sl_range, prod_wf| |by apply Hfree].
      apply apart_after; [apply prod_wf|lia..].
  - intros [] m3 g4 m4 Hi4 Hw4 [Hcells3 Hfree3] Ha4. simpl.
    destruct (st_is_Some m4 (l_file L) (l_hdr L + prod_off t) (le16 (s + 1))) as [m5 Hm5].
    { rewrite zlen_le16, (si_prod _ _ _ _ _ _ Hi4). eauto. }
    assert (Inv (publish pkt g4) m5 /\ guar_w L g4 m4 (publish pkt g4) m5) as [Hi5 Hg5].
    { eapply (publish_inv g4 m4 m5 P c pkt (s + 1)); unfold slots; fold e; try done.
      - intros j x Hj. eapply (relax_cell _ (work P c)), agree_cell; [exact Ha4|by apply Hcells3].
      - intros x Hx. eapply (relax_writable _ (work P c)), agree_writable; [exact Ha4|apply Hfree3; lia].
      - rewrite <- (u16_add_l s), Hs, u16_add_l. f_equal. lia. }
    assert (Rg (if IsServer (cfg pp) then writeTail pp pq (s + 1) else writeHead pp pq (s + 1))
              (fun _ g' _ => writing (P + slots cap pkt) 0 (WDone (written cap pkt)) g') g4 m4) as Hst.
    { assert (step_to Inv (guar_w L) (rely_w L) g4 m4 m5 (fun g' _ =>
        writing (P + slots cap pkt) 0 (WDone (written cap pkt)) g')) as Hstep.
      { exists (publish pkt g4). split_and!; [done..|]. intros g6 m6 Hr6 Hi6.
        eapply writing_rely; [|exact Hr6]. destruct Hw4 as (HP & _ & _).
        unfold writing, publish. simpl. by rewrite HP. }
      rewrite (lk_pserver _ _ _ _ _ _ Hlk). destruct t; simpl in *;
        (eapply (rg_hdr_store _ _ _ Hrf L pp pq d Hsd); [done|done|exact Hm5|exact Hstep]). }
    apply rg_bind; [done|]. eapply rg_mono; [exact Hst|]. intros [] g6 m6 Hi6 Hw6. simpl.
    apply rg_bind; [done|]. eapply rg_interrupt; [done|exact Hw6|].
    intros r g7 m7 Hi7 Hw7 _. apply rg_ret; [done|done|]. destruct Hw7 as (? & ? & ?). done.
Qed.

(** What the chaining loop leaves: the packet in place but for its last
    descriptor, or nothing but scribbled slots. *)
Definition loop_post (P c : Z) (pkt : list byte) (r : option (Z * Z * descBuf)) (m : mem) : Prop :=
  let e := more_slots cap pkt in
  match r with
  | Some (s, k, db) =>
      1 + e <= c /\ u16 s = u16 (P + e) /\ k = written cap pkt /\
      (forall j, 0 <= j < e -> @cell_at (work P c) L m (sl L (P + j)) (true, chunk cap pkt)) /\
      holding P c pkt m (P + e) db /\ free_slots P c (P + e + 1) m
  | None => c < 1 + e /\ free_slots P c P m
  end.

Lemma wp_write_loop P c pkt s db m k :
  0 < c <= n -> u16 s = u16 P -> holding P c pkt m P db -> free_slots P c (P + 1) m ->
  is_Some (@ld (work P c) m (l_file L) (l_hdr L + ringFlagsOffset) 2) ->
  @wp oracle (work P c) _
    (WritePacket_loop pp pq (Z.to_nat (c - 1)) s (Z.min cap (zlen pkt)) db pkt) (@mkWorld oracle m k)
    (fun r w => loop_post P c pkt r (@shm oracle w)).
Proof using Hlk.
  intros Hc Hs Hih Hfree Hfl. destruct (lk_prod _ _ _ _ _ _ Hlk) as [d Hsd].
  pose proof (more_slots_nonneg L prod_wf pkt) as He. pose proof (l_size_le L prod_wf).
  eapply (@wp_WritePacket_loop oracle (work P c) L prod_wf pp pq d Hsd _ pkt _ P); simpl.
  - exact Hs.
  - exact Hih.
  - intros j Hj. apply Hfree. lia.
  - lia.
  - exact Hfl.
  - lia.
  - fold (more_slots cap pkt). rewrite Z2Nat.id by lia. intros Hle m' db' s' Hs' Hc' Hcells Hih'.
    unfold loop_post. split_and!; [lia|done|done|exact Hcells|exact Hih'|].
    eapply free_confined; [exact Hc'|lia|lia|lia|]. intros x Hx. apply Hfree. lia.
  - fold (more_slots cap pkt). rewrite Z2Nat.id by lia. intros Hlt m' k' Hc' Hw. split; [lia|].
    intros x Hx. replace x with (P + (x - P)) by lia. apply Hw. lia.
Qed.

(** Once the slots are taken up, the rest of the call. *)
Lemma rg_write_slots P c pkt s g m :
  0 < c <= n -> u16 s = u16 P -> Inv g m ->
  writing P c (if slots cap pkt <=? c then WCalled pkt else WDone 0) g -> free_slots P c P m ->
  Rg ('(desc, k) ← fill_slot pp pq s newDescBuf pkt;
      r ← WritePacket_loop pp pq (Z.to_nat (c - 1)) s k desc pkt;
      match r with
      | None => mret 0
      | Some (slot, k, desc) =>
          putDescBuf pp pq (Z.land slot (ring_mask pq)) desc ;;
          (if IsServer (cfg pp) then writeTail pp pq (slot + 1) else writeHead pp pq (slot + 1)) ;;
          interrupt pp pq ;;
          mret k
      end) written_post g m.
Proof using Hlk.
  intros Hc Hs Hi Hwr Hfree. destruct (lk_prod _ _ _ _ _ _ Hlk) as [d Hsd].
  pose proof (guar_w_trans L) as Htr.
  apply rg_bind; [done|].
  eapply (rg_own _ (fun a m' => a.2 = Z.min cap (zlen pkt) /\ holding P c pkt m' P a.1 /\
    free_slots P c (P + 1) m')); [auto with writes|done|exact Hwr| |].
  { intros k. eapply (@wp_fill_free oracle (work P c) L prod_wf pp pq d Hsd s P); [done|apply Hfree; lia|].
    intros db m' Hc' Hih. split_and!; [done|exact Hih|].
    eapply free_confined; [exact Hc'|lia..|]. intros x Hx. apply Hfree. lia. }
  intros [db k] m3 g3 m3' Hi3 Hw3 (Hk & Hih & Hfree3) Ha3. simpl in Hk, Hih. subst k.
  apply (holding_agree _ _ _ _ _ _ _ Ha3) in Hih. apply (free_agree _ _ _ _ _ Ha3) in Hfree3.
  apply rg_bind; [done|].
  eapply (rg_own _ (loop_post P c pkt)); [auto with writes|done|exact Hw3| |].
  { intros k. apply wp_write_loop; try done. by eapply work_flags. }
  intros r m4 g4 m4' Hi4 Hw4 Hpost Ha4. destruct r as [[[s' k'] db']|]; cbn in Hpost.
  - destruct Hpost as (Hle & Hs' & -> & Hcells & Hih4 & Hfree4).
    rewrite (proj2 (Z.leb_le _ _)) in Hw4 by (unfold slots; lia).
    eapply rg_write_commit; [done|exact Hw4|lia|lia|exact Hs'| |by eapply holding_agree|by eapply free_agree].
    intros j Hj. eapply agree_cell; [exact Ha4|by apply Hcells].
  - destruct Hpost as [Hlt Hfree4].
    rewrite (proj2 (Z.leb_gt _ _)) in Hw4 by (unfold slots; lia).
    eapply rg_write_full; [done|exact Hw4|by eapply free_agree].
Qed.

Lemma rg_WritePacket pkt g m :
  Inv g m -> writing (g_P g) 0 (WCalled pkt) g -> Rg (WritePacket pp pq pkt) written_post g m.
Proof using Hlk.
  intros Hi Hwr. set (P := g_P g) in *. pose proof (guar_w_trans L) as Htr.
  pose proof (more_slots_nonneg L prod_wf pkt) as He.
  unfold WritePacket. cbv zeta. apply rg_bind; [done|]. eapply rg_producer_state; [done|exact Hwr|].
  intros g1 m1 Hi1 Hw1. set (c := g_F g1 - P). set (W := if slots cap pkt <=? c then WCalled pkt else WDone 0).
  destruct (hold_free g1 m1 P pkt Hi1 Hw1) as [Hi1' Hg1]. fold c W in Hi1', Hg1.
  pose proof (si_back _ _ _ _ _ _ Hi1) as Hb. pose proof (si_front _ _ _ _ _ _ Hi1) as Hf.
  pose proof Hw1 as (HP1 & Hh1 & _).
  exists (hold c W g1). split_and!; [done..|]. intros g2 m2 Hr2 Hi2 s Hs.
  assert (writing P c W g2) as Hw2 by (eapply writing_rely; [|exact Hr2]; done).
  assert (agree (work P c) m1 m2) as Ha.
  { destruct Hr2 as (_ & _ & _ & _ & Ha). unfold prod_area in Ha. simpl in Ha. by rewrite HP1 in Ha. }
  assert (free_slots P c P m2) as Hfree.
  { eapply free_agree; [exact Ha|]. intros x Hx. apply lift_writable.
    - eapply covers_within; [by apply covers_slots|apply slots_work].
    - eapply si_free; [exact Hi1|]. unfold c in Hx. lia. }
  case_bool; zbool.
  - apply rg_bind; [done|]. eapply rg_interrupt; [done|exact Hw2|]. intros r g3 m3 Hi3 Hw3 Ha3.
    unfold W in Hw3. rewrite (proj2 (Z.leb_gt _ _)) in Hw3 by (unfold slots; lia).
    eapply rg_write_full; [done|exact Hw3|by eapply free_agree].
  - eapply (rg_write_slots P c); [unfold c in *; lia|done..].
Qed.
End producer.
