(* ===== verification/Consumer.v ===== *)
(** * ReadPacket against a concurrent producer

    [rg_ReadPacket]: whatever the producer does between its memory accesses, the
    call returns.  It takes effect at the load of the producer's counter, where the
    packet leaves the queue (or the queue is found empty); the slots are given back
    at the store of its own counter. *)
From stdpp Require Import base tactics list gmap relations.
From coqutil Require Import Byte.
From Stdlib Require Import ZArith Lia.
From S2P Require Import Prelude.
From S2P Require Import GoInt.
From S2P Require Import Shm.
From S2P Require Import Descriptor.
From S2P Require Import State.
From S2P Require Import Ring.
From S2P Require Import Queue.
From S2P Require Import Packet.
From S2P Require Import Layout.
From S2P Require Import Transfer.
From S2P Require Import Link.
From S2P Require Import Fifo.
From S2P Require Import Interleave.
From S2P Require Import Atomic.
From S2P Require Import Concurrent.

Section consumer.
Context (t : ringType) (L : layout) (pp : Port) (pq : Queue) (cp : Port) (cr : ring)
  (Hlk : linked t L pp pq cp cr) (mtu : Z).
Implicit Types (g : ghost) (m : mem) (pkt buf : list byte).

#[local] Lemma cons_wf : layout_wf L.
Proof using Hlk. apply Hlk. Qed.

Abbreviation n := (l_size L).
Abbreviation cap := (l_cap L).
Abbreviation Inv := (shared_inv t L pp mtu).
Abbreviation Rg := (rg Inv (guar_r L) (rely_r L)).

(** ** Ghost updates of the consumer *)

(** The call takes effect. *)
Definition take_packet (buf : list byte) (g : ghost) : ghost :=
  match g_packets g with
  | [] =>
      mkGhost (mkAtomic (at_fifo (g_at g)) (at_w (g_at g)) (RTaken 0 buf))
        (g_C g) (g_P g) (g_F g) (g_held g) true
  | p :: ps =>
      mkGhost (mkAtomic (mkFifo ps (f_credit (at_fifo (g_at g)))) (at_w (g_at g))
                 (RTaken (zlen (delivered cap p)) (splice 0 (delivered cap p) buf)))
        (g_C g + slots cap p) (g_P g) (g_F g) (g_held g) true
  end.

(** The slots go back to the producer. *)
Definition grant (k : Z) (buf : list byte) (g : ghost) : ghost :=
  mkGhost (mkAtomic (mkFifo (g_packets g) (n - used cap (g_packets g))) (at_w (g_at g)) (RDone k buf))
    (g_C g) (g_P g) (g_C g + n) (g_held g) false.

(** What the consumer knows during a call. *)
Definition reading (C F : Z) (b : bool) (R : rstatus) (g : ghost) : Prop :=
  g_C g = C /\ g_F g = F /\ g_busy g = b /\ at_r (g_at g) = R.

Lemma reading_rely C F b R g m g' m' : reading C F b R g -> rely_r L g m g' m' -> reading C F b R g'.
Proof using. unfold reading. intros (? & ? & ? & ?) (? & ? & ? & ? & _). split_and!; congruence. Qed.

Abbreviation back C F := (slots_perm L (F - n) C).

(** Slots read and not given back, as seen by code confined to them. *)
Definition spent_slots (C F : Z) (m : mem) : Prop :=
  forall x, F - n <= x < C -> exists fl len, @has_desc (back C F) L m (sl L x) fl len /\
    match t with ringTypeS2M => True | ringTypeM2S => 0 <= len < 65536 end.

(** The cells of a packet taken, at the consumer's former position. *)
Definition taken_cells (C F C0 : Z) (cells : list cell) (m : mem) : Prop :=
  forall j c, cells !! j = Some c -> @cell_at (back C F) L m (sl L (C0 + Z.of_nat j)) c.

Lemma spent_agree C F m m' : agree (back C F) m m' -> spent_slots C F m -> spent_slots C F m'.
Proof using.
  intros Ha Hs x Hx. destruct (Hs x Hx) as (fl & len & (db & Hl & Hd) & ?). exists fl, len.
  split; [|done]. exists db. by rewrite Ha.
Qed.

Lemma taken_agree C F C0 cells m m' :
  agree (back C F) m m' -> taken_cells C F C0 cells m -> taken_cells C F C0 cells m'.
Proof using. intros Ha Hc j c Hj. eapply agree_cell; [exact Ha|by apply Hc]. Qed.

(** A cell's slot is as good as a spent one. *)
Lemma cell_spent m i c : cell_at L m i c -> spent t L m i.
Proof using Hlk.
  intros [Hd [Hc _]]. exists (flag_of c.1), (zlen c.2). split; [done|].
  pose proof (lk_size _ _ _ _ _ _ Hlk). pose proof (zlen_nonneg c.2). destruct t; [done|lia].
Qed.

Lemma lift_spent C F m :
  (forall x, F - n <= x < C -> spent t L m (sl L x)) -> spent_slots C F m.
Proof using.
  intros Hs x Hx. destruct (Hs x Hx) as (fl & len & Hd & ?). exists fl, len. split; [|done].
  apply lift_desc; [by apply covers_slots|done].
Qed.

(** The step in which the call takes effect. *)
Lemma take_inv g m C F buf :
  Inv g m -> reading C F false (RCalled buf) g ->
  Inv (take_packet buf g) m /\ guar_r L g m (take_packet buf g) m /\
  (forall x, F - n <= x < g_C (take_packet buf g) -> spent t L m (sl L x)).
Proof using Hlk.
  intros Hi (HC & HF & Hb & HR). pose proof Hi as [H1 H2 H3 H4 H5 H6 H7 H8 H9 H10 H11 H12 H13].
  destruct g as [[[ps cr0] w r] C' P F' h b]. unfold take_packet, g_cells, g_packets in *.
  simpl in *. subst C' F' b r. destruct H13 as (Hps & Hw & Hbuf). simpl in *.
  destruct ps as [|p ps]; simpl in *.
  - split_and!.
    + split; simpl; done.
    + split; [split_and!; done|]. apply rtc_once. by constructor.
    + by apply H11.
  - rewrite zlen_app, (zlen_encode L cons_wf) in H3. pose proof (more_slots_nonneg L cons_wf p) as Hms.
    pose proof (zlen_nonneg (concat (encode cap <$> ps))) as Hz.
    assert (P = C + (slots cap p + zlen (concat (encode cap <$> ps)))) as HP by exact H3. clear H3.
    assert (Hlook : forall j c, (encode cap p ++ concat (encode cap <$> ps)) !! j = Some c ->
      cell_at L m (sl L (C + Z.of_nat j)) c) by exact H9.
    apply Forall_cons in Hps as [Hp Hps].
    split_and!.
    + split; simpl; try done; try (unfold slots in *; lia).
      * change (P = C + slots cap p + zlen (concat (encode cap <$> ps))). lia.
      * intros j c Hj. specialize (Hlook (length (encode cap p) + j)%nat c).
        rewrite lookup_app_r in Hlook by lia.
        replace (length (encode cap p) + j - length (encode cap p))%nat with j in Hlook by lia.
        pose proof (zlen_encode L cons_wf p) as Hze. unfold zlen in Hze.
        replace (C + slots cap p + Z.of_nat j) with (C + Z.of_nat (length (encode cap p) + j)) by lia.
        by apply Hlook.
    + split; [split_and!; done || lia|]. apply rtc_once. by constructor.
    + intros x Hx. destruct (decide (x < C)); [apply H11; [done|lia]|].
      destruct (lookup_lt_is_Some_2 (encode cap p) (Z.to_nat (x - C))) as [c Hj].
      { pose proof (zlen_encode L cons_wf p). unfold zlen in *. lia. }
      eapply cell_spent. replace x with (C + Z.of_nat (Z.to_nat (x - C))) by lia.
      apply Hlook. by apply lookup_app_l_Some.
Qed.

(** The store of the consumer's counter. *)
Lemma grant_inv g m m' C F k buf s :
  Inv g m -> reading C F true (RTaken k buf) g ->
  (forall x, F - n <= x < C -> writable L pp m (sl L x)) ->
  u16 s = u16 (match t with ringTypeS2M => C | ringTypeM2S => C + n end) ->
  st m (l_file L) (l_hdr L + cons_off t) (le16 s) = Some m' ->
  Inv (grant k buf g) m' /\ guar_r L g m (grant k buf g) m'.
Proof using Hlk.
  intros Hi (HC & HF & Hb & HR) Hfree Hs Hst.
  pose proof Hi as [H1 H2 H3 H4 H5 H6 H7 H8 H9 H10 H11 H12 H13].
  assert (Hsame : forall i, 0 <= i < n -> same_slot L m m' i).
  { intros. eapply (hdr_store_same L cons_wf); [done|by destruct t..|done]. }
  pose proof (zlen_encodes t L pp pq cp cr Hlk (g_packets g)) as Hused.
  assert (zlen (g_cells L g) = used cap (g_packets g)) as Hzc by exact Hused.
  split; [split|]; simpl; try done; try lia.
  - rewrite (hdr_store_other L _ _ _ _ _ Hst); [done|destruct t; [left|right]; by compute].
  - etrans; [exact (ld_st_same _ _ _ _ _ Hst)|]. f_equal. apply le16_congr. rewrite Hs. f_equal.
    destruct t; lia.
  - rewrite (hdr_store_other L _ _ _ _ _ Hst); [done|destruct t; left; by compute].
  - intros i Hi'. eapply same_buf_valid; [by apply Hsame|by apply H8].
  - intros j x Hj. eapply same_cell_at; [apply Hsame, sl_range, cons_wf|]. by apply H9.
  - intros x Hx. eapply same_writable; [apply Hsame, sl_range, cons_wf|].
    destruct (decide (x < g_F g)) as [?|Hx']; [apply H10; lia|].
    rewrite <- (sl_lap L cons_wf). apply Hfree. lia.
  - destruct H13 as (? & ? & ?). by split_and!.
  - split.
    + split_and!; simpl; try done; try lia. eapply st_outside; [done|]. rewrite zlen_le16.
      apply hdr_outside_work; [apply cons_wf|by destruct t..|destruct t; right; by compute].
    + destruct g as [[f w r] C' P F' h b]. simpl in *. subst. apply rtc_once. constructor.
Qed.

(** ** Rules *)

(** Sequential code on the slots that have not been given back. *)
Lemma rg_own_r {A} (p : prog A) (Q0 : A -> mem -> Prop) (Q : A -> ghost -> mem -> Prop) C F R g m :
  only_writes p -> Inv g m -> reading C F true R g ->
  (forall s, @wp oracle (back C F) A p (@mkWorld oracle m s) (fun a w => Q0 a (@shm oracle w))) ->
  (forall a m0 g' m', Inv g' m' -> reading C F true R g' -> Q0 a m0 ->
     agree (back C F) m0 m' -> Q a g' m') ->
  Rg p Q g m.
Proof using Hlk.
  intros Hw Hi Hrd Hwp HQ.
  assert (Harea : forall g, reading C F true R g -> cons_area L g = back C F).
  { intros g0 (HC & HF & _). unfold cons_area. by rewrite HC, HF. }
  eapply (rg_alone Inv (guar_r L) (rely_r L) (guar_r_refl L) (back C F) (fun g _ => reading C F true R g));
    [..|exact Hwp|].
  - intros g0 m0 g' m' H0 _ Hr _. split; [by eapply reading_rely|].
    rewrite <- (Harea _ H0). apply Hr.
  - intros g0 m0 m' H0 Hi0 Ha. split; [done|].
    eapply (cons_step t L pp pq cp cr Hlk); [done|by destruct H0 as (_ & _ & ? & _)|].
    by rewrite (Harea _ H0).
  - done.
  - done.
  - done.
  - eauto.
Qed.

(** ** Giving the slots back *)

Definition refilled (C k : Z) (buf : list byte) (cq q' : Queue) (g : ghost) : Prop :=
  same_ring cq q' /\ last_of t q' = u16 C /\ reading C (C + n) false (RDone k buf) g.

Lemma rg_refill_store q' C F k buf s d g m :
  (forall q, q_ring q = cr -> side L cp q d) -> q_ring q' = cr ->
  Inv g m -> reading C F true (RTaken k buf) g ->
  (forall x, F - n <= x < C -> writable L pp m (sl L x)) ->
  u16 s = u16 (match t with ringTypeS2M => C | ringTypeM2S => C + n end) ->
  Rg (match t with ringTypeS2M => writeTail cp q' s | ringTypeM2S => writeHead cp q' s end)
    (fun _ g' _ => reading C (C + n) false (RDone k buf) g') g m.
Proof using Hlk.
  intros Hside Hr Hi Hrd Hfree Hs.
  destruct (st_is_Some m (l_file L) (l_hdr L + cons_off t) (le16 s)) as [m' Hm'].
  { rewrite zlen_le16, (si_cons _ _ _ _ _ _ Hi). eauto. }
  destruct (grant_inv g m m' C F k buf s Hi Hrd Hfree Hs Hm') as [Hi' Hg'].
  assert (step_to Inv (guar_r L) (rely_r L) g m m'
            (fun g' _ => reading C (C + n) false (RDone k buf) g')) as Hst.
  { exists (grant k buf g). split_and!; [done..|]. intros g2 m2 Hr2 _.
    eapply reading_rely; [|exact Hr2]. destruct Hrd as (HC & _ & _ & _).
    unfold reading, grant. simpl. by rewrite HC. }
  pose proof (guar_r_refl L) as Hrf. specialize (Hside q' Hr).
  destruct t; simpl in *;
    (eapply (rg_hdr_store _ _ _ Hrf L cp q' d Hside); [done|done|exact Hm'|exact Hst]).
Qed.

(** The server publishes its tail. *)
Lemma rg_refill_server cq C F k buf s g m :
  t = ringTypeS2M -> q_ring cq = cr -> Inv g m -> reading C F true (RTaken k buf) g ->
  spent_slots C F m -> u16 s = u16 C ->
  Rg (refill cp cq s) (fun q' g' _ => refilled C k buf cq q' g') g m.
Proof using Hlk.
  intros Ht Hr Hi Hrd Hsp Hs. destruct (lk_cons _ _ _ _ _ _ Hlk) as [d Hside].
  pose proof (guar_r_trans L) as Htr. pose proof (guar_r_refl L) as Hrf.
  unfold refill. rewrite (lk_cserver _ _ _ _ _ _ Hlk).
  replace (negb (producer_is_server t)) with true by (by rewrite Ht).
  set (q' := set_lastHead (u16 s) cq).
  apply rg_bind; [done|]. eapply rg_mono.
  - replace (writeTail cp q' s) with
      (match t with ringTypeS2M => writeTail cp q' s | ringTypeM2S => writeHead cp q' s end) by (by rewrite Ht).
    eapply (rg_refill_store q' C F k buf s d g m Hside Hr Hi Hrd); [|by rewrite Ht].
    intros x Hx. destruct (Hsp x Hx) as (fl & len & Hd & _).
    split; [|by eapply si_bufs, sl_range, cons_wf].
    exists fl, len. split; [by eapply relax_desc|].
    pose proof (lk_pserver _ _ _ _ _ _ Hlk) as Hps. pose proof (lk_size _ _ _ _ _ _ Hlk) as Hsz.
    rewrite Ht in Hps, Hsz. by rewrite Hps.
  - intros [] g' m' Hi' Hrd'. apply rg_ret; [done|done|]. split_and!; [done|rewrite Ht; exact Hs|done].
Qed.

(** The client posts the slots again with the size of its buffers, and publishes
    its head. *)
Lemma rg_refill_client cq C F k buf s g m :
  t = ringTypeM2S -> q_ring cq = cr -> Inv g m -> reading C F true (RTaken k buf) g ->
  spent_slots C F m -> u16 s = u16 C ->
  Rg (refill cp cq s) (fun q' g' _ => refilled C k buf cq q' g') g m.
Proof using Hlk.
  intros Ht Hr Hi Hrd Hsp Hs. destruct (lk_cons _ _ _ _ _ _ Hlk) as [d Hside].
  pose proof (guar_r_trans L) as Htr. pose proof (guar_r_refl L) as Hrf.
  pose proof (lk_size _ _ _ _ _ _ Hlk) as Hsz. pose proof (lk_pserver _ _ _ _ _ _ Hlk) as Hps.
  rewrite Ht in Hsz, Hps. destruct Hsz as [Hpbs Hcap16]. simpl in Hps.
  pose proof (l_size_le L cons_wf) as Hn. pose proof Hrd as (HC & HF & _).
  pose proof (si_back _ _ _ _ _ _ Hi) as Hb. pose proof (si_front _ _ _ _ _ _ Hi) as Hf.
  assert (F <= C + n) as HFC by lia. assert (C <= F) as HCF by lia.
  unfold refill. rewrite (lk_cserver _ _ _ _ _ _ Hlk).
  replace (negb (producer_is_server t)) with false by (by rewrite Ht).
  set (q' := set_lastTail (u16 s) cq). pose proof (Hside q' Hr) as Hsd.
  apply rg_bind; [done|].
  pose proof (si_cons _ _ _ _ _ _ Hi) as Hc. rewrite Ht in Hc. simpl in Hc. rewrite HF in Hc.
  eapply (rg_hdr_load _ _ _ Hrf L cp q' d Hsd); [done|done|exact Hc|].
  apply step_to_idle; [done|done|]. intros g2 m2 Hr2 Hi2.
  assert (reading C F true (RTaken k buf) g2) as Hrd2 by (by eapply reading_rely).
  assert (spent_slots C F m2) as Hsp2.
  { eapply spent_agree; [|exact Hsp]. destruct Hr2 as (_ & _ & _ & _ & Ha).
    unfold cons_area in Ha. by rewrite HC, HF in Ha. }
  assert (u16 (rg_size (q_ring q') - u16 F + lastTail q') = C + n - F) as ->.
  { change (lastTail q') with (u16 s). rewrite (sd_size _ _ _ _ Hsd), Hs, u16_add_r.
    replace (n - u16 F + C) with (n + C - u16 F) by lia. rewrite u16_sub_r, u16_small; lia. }
  assert (Hlap : forall j, sl L (F + j) = sl L (F - n + j)).
  { intros j. rewrite <- (sl_lap L cons_wf (F + j)). f_equal. lia. }
  apply rg_bind; [done|].
  eapply (rg_own_r _ (fun s' m' => u16 s' = u16 (C + n) /\
    forall x, F - n <= x < C -> exists fl, @has_desc (back C F) L m' (sl L x) fl cap));
    [auto with writes|done|exact Hrd2| |].
  - intros o. eapply (@wp_refill_loop oracle (back C F) L cons_wf cp q' d Hsd _ F); [apply u16_u16|lia|done|done|..].
    + rewrite Z2Nat.id by lia. intros j Hj. rewrite Hlap. destruct (Hsp2 (F - n + j)) as (fl & len & Hd & Hlen); [lia|].
      rewrite Ht in Hlen. eauto.
    + rewrite Z2Nat.id by lia. intros m' s' Hs' _ Hd. split; [rewrite Hs'; f_equal; lia|].
      intros x Hx. replace x with (F - n + (x - (F - n))) by lia. rewrite <- Hlap. apply Hd. lia.
  - intros s' m3 g4 m4 Hi4 Hrd4 [Hs' Hd] Ha4. apply rg_bind; [done|]. eapply rg_mono.
    + replace (writeHead cp q' s') with
        (match t with ringTypeS2M => writeTail cp q' s' | ringTypeM2S => writeHead cp q' s' end) by (by rewrite Ht).
      eapply (rg_refill_store q' C F k buf s' d g4 m4 Hside Hr Hi4 Hrd4); [|by rewrite Ht].
      intros x Hx. destruct (Hd x Hx) as (fl & db & Hl & Hdb).
      split; [|by eapply si_bufs, sl_range, cons_wf].
      exists fl, cap. split; [|by rewrite Hps].
      exists db. split; [|done]. rewrite <- Ha4 in Hl. by eapply ld_relax.
    + intros [] g' m' Hi' Hrd'. apply rg_ret; [done|done|]. split_and!; [done|rewrite Ht; exact Hs|done].
Qed.

Lemma rg_refill cq C F k buf s g m :
  q_ring cq = cr -> Inv g m -> reading C F true (RTaken k buf) g ->
  spent_slots C F m -> u16 s = u16 C ->
  Rg (refill cp cq s) (fun q' g' _ => refilled C k buf cq q' g') g m.
Proof using Hlk.
  intros. destruct (decide (t = ringTypeS2M)) as [|Ht].
  - by eapply rg_refill_server.
  - eapply rg_refill_client; try done. by destruct t.
Qed.

(** ** The call *)

Definition read_done (cq : Queue) (r : read_result) (g : ghost) : Prop :=
  rd_err r = None /\ same_ring cq (rd_queue r) /\
  exists C, last_of t (rd_queue r) = u16 C /\
    reading C (C + n) false (RDone (rd_n r) (rd_pkt r)) g.

(** Everything the consumer knows while it works on the cells at [C0]. *)
Definition at_work (C F C0 : Z) (cells : list cell) (m : mem) : Prop :=
  taken_cells C F C0 cells m /\ spent_slots C F m.

Lemma work_agree C F C0 cells m m' : agree (back C F) m m' -> at_work C F C0 cells m -> at_work C F C0 cells m'.
Proof using. intros Ha [??]. split; [by eapply taken_agree|by eapply spent_agree]. Qed.

Lemma rg_read_state cq g m (Q : Z -> ghost -> mem -> Prop) :
  q_ring cq = cr -> Inv g m ->
  step_to Inv (guar_r L) (rely_r L) g m m (Q (u16 (g_P g))) ->
  Rg (if IsServer (cfg cp) then readHead cp cq else readTail cp cq) Q g m.
Proof using Hlk.
  intros Hr Hi Hst. destruct (lk_cons _ _ _ _ _ _ Hlk) as [d Hside]. specialize (Hside cq Hr).
  pose proof (guar_r_refl L) as Hrf. pose proof (si_prod _ _ _ _ _ _ Hi) as Hp.
  rewrite (lk_cserver _ _ _ _ _ _ Hlk). destruct t; simpl in *;
    (eapply (rg_hdr_load _ _ _ Hrf L cp cq d Hside); [done|done|exact Hp|exact Hst]).
Qed.

(** The descriptor and the chunk of the packet's first slot. *)
Lemma rg_read_desc C F C0 b bs cs cq R g m (Q : descBuf -> ghost -> mem -> Prop) :
  q_ring cq = cr -> Inv g m -> reading C F true R g -> at_work C F C0 ((b, bs) :: cs) m ->
  (forall db g' m', Inv g' m' -> reading C F true R g' -> at_work C F C0 ((b, bs) :: cs) m' ->
     descBuf_wf db -> Desc.getFlags db = flag_of b -> Desc.getRegion db = l_region L (sl L C0) ->
     Desc.getLength db = zlen bs -> Desc.getOffset db = l_offset L (sl L C0) -> Q db g' m') ->
  Rg (getDescBuf cp cq (Z.land (u16 C0) (ring_mask cq)) newDescBuf) Q g m.
Proof using Hlk.
  intros Hr Hi Hrd Hwk HQ. destruct (lk_cons _ _ _ _ _ _ Hlk) as [d Hside]. specialize (Hside cq Hr).
  eapply (rg_own_r _ (fun db m' => m' = m /\ descBuf_wf db /\ Desc.getFlags db = flag_of b /\
    Desc.getRegion db = l_region L (sl L C0) /\ Desc.getLength db = zlen bs /\
    Desc.getOffset db = l_offset L (sl L C0))); [auto with writes|done|exact Hrd| |].
  - intros o. destruct (proj1 Hwk O _ eq_refl) as [Hd _]. rewrite Z.add_0_r in Hd.
    eapply (@wp_get_slot oracle (back C F) L cons_wf cp cq d Hside _ C0);
      [apply u16_u16|apply newDescBuf_wf|exact Hd|]. intros. by split_and!.
  - intros db m0 g' m' Hi' Hrd' (-> & ? & ? & ? & ? & ?) Ha. apply HQ; try done. by eapply work_agree.
Qed.

Lemma rg_read_chunk {A} C F C0 b bs cs cq db buf R g m (k : list byte -> prog A) (Q : A -> ghost -> mem -> Prop) :
  q_ring cq = cr -> Inv g m -> reading C F true R g -> at_work C F C0 ((b, bs) :: cs) m ->
  Desc.getRegion db = l_region L (sl L C0) -> Desc.getOffset db = l_offset L (sl L C0) ->
  zlen bs <= zlen buf ->
  (forall g' m', Inv g' m' -> reading C F true R g' -> at_work C F C0 ((b, bs) :: cs) m' ->
     Rg (k (go_copy buf bs)) Q g' m') ->
  Rg (s ← desc_data cp db (Desc.getOffset db) (Desc.getOffset db + zlen bs);
      pkt ← copy_from buf s; k pkt) Q g m.
Proof using Hlk.
  intros Hr Hi Hrd Hwk Hreg Hoff Hfit HQ. destruct (lk_cons _ _ _ _ _ _ Hlk) as [d Hside].
  specialize (Hside cq Hr). pose proof (guar_r_trans L) as Htr. pose proof (zlen_nonneg bs).
  assert (zlen bs <= cap) as Hcap.
  { destruct (proj1 Hwk O _ eq_refl) as [_ [Hc _]]. exact Hc. }
  apply rg_bind; [done|].
  eapply (rg_own_r _ (fun c m' => m' = m /\ s_file c = l_bfile L (sl L C0) /\
    s_off c = l_boff L (sl L C0) /\ s_len c = zlen bs)); [auto with writes|done|exact Hrd| |].
  { intros o. eapply (@wp_desc_data oracle (back C F) L cp cq d Hside (sl L C0));
      [by apply sl_range, cons_wf|lia|done|done|]. intros. by split_and!. }
  intros c m0 g1 m1 Hi1 Hrd1 (-> & Hcf & Hco & Hcl) Ha1. apply (work_agree _ _ _ _ _ _ Ha1) in Hwk.
  apply rg_bind; [done|].
  eapply (rg_own_r _ (fun pk m' => m' = m1 /\ pk = go_copy buf bs)); [auto with writes|done|exact Hrd1| |].
  { intros o. eapply (@wp_copy_from oracle (back C F)); [|done].
    destruct (proj1 Hwk O _ eq_refl) as [_ [_ Hl]]. rewrite Z.add_0_r in Hl. simpl in Hl.
    rewrite Hcf, Hco, Hcl, Z.min_r by lia. exact Hl. }
  intros pk m0 g2 m2 Hi2 Hrd2 (-> & ->) Ha2. apply HQ; try done. by eapply work_agree.
Qed.

(** The cells of one packet form a complete chain. *)
Lemma encode_chain p :
  exists b bs cs, encode cap p = (b, bs) :: cs /\
    let '(ds, k, ok) := chain_of b cs in
    bs ++ ds = delivered cap p /\ ok = true /\ k = length cs /\ slots cap p = 1 + zlen cs.
Proof using Hlk.
  destruct (encode_head t L pp pq cp cr Hlk p []) as (b & bs & cs & He & Hch).
  rewrite app_nil_r in He. exists b, bs, cs. split; [done|].
  pose proof (zlen_encode L cons_wf p) as Hz. rewrite He in Hz.
  pose proof (chain_of_le b cs) as Hle. destruct (chain_of b cs) as [[ds k] ok]. simpl in Hle.
  destruct Hch as (? & ? & Hk & Hd). split_and!; [done|done| |unfold zlen in *; simpl in *; lia].
  unfold zlen in Hz. simpl in Hz. lia.
Qed.

(** From the load of the producer's counter on, when a packet has been taken. *)
Lemma rg_read_packet C0 F p cq buf (nSlots : Z) g m :
  let C := C0 + slots cap p in
  q_ring cq = cr -> Inv g m ->
  reading C F true (RTaken (zlen (delivered cap p)) (splice 0 (delivered cap p) buf)) g ->
  at_work C F C0 (encode cap p) m -> slots cap p <= nSlots -> zlen (delivered cap p) <= zlen buf ->
  Rg (desc ← getDescBuf cp cq (Z.land (u16 C0) (ring_mask cq)) newDescBuf;
      let length := Desc.getLength desc in
      let offset := Desc.getOffset desc in
      s ← desc_data cp desc offset (offset + length);
      pkt ← copy_from buf s;
      r ← ReadPacket_chain cp cq (Z.to_nat (nSlots - 1)) (u16 C0 + 1) length desc pkt;
      match r with
      | (pkt, inr e) => mret (mkRead cq pkt 0 (Some e))
      | (pkt, inl (slot, pktOffset)) =>
          q ← refill cp cq slot;
          mret (mkRead q pkt pktOffset None)
      end) (fun r g' _ => read_done cq r g') g m.
Proof using Hlk.
  intros C Hr Hi Hrd Hwk Hn Hfit. destruct (lk_cons _ _ _ _ _ _ Hlk) as [d Hside].
  pose proof (Hside cq Hr) as Hsd. pose proof (guar_r_trans L) as Htr. pose proof (guar_r_refl L) as Hrf.
  destruct (encode_chain p) as (b & bs & cs & He & Hch). rewrite He in Hwk.
  destruct (chain_of b cs) as [[ds k] ok] eqn:Hco. destruct Hch as (Hdel & -> & Hk & Hsl).
  pose proof (zlen_nonneg bs). pose proof (zlen_nonneg ds). rewrite <- Hdel, zlen_app in Hfit.
  apply rg_bind; [done|]. eapply rg_read_desc; [done|done|exact Hrd|exact Hwk|].
  intros db g1 m1 Hi1 Hrd1 Hwk1 Hdb Hf Hreg Hlen Hoff. cbv beta zeta. rewrite Hlen.
  eapply rg_read_chunk; [done|done|exact Hrd1|exact Hwk1|done|done|lia|].
  intros g2 m2 Hi2 Hrd2 Hwk2. apply rg_bind; [done|].
  eapply (rg_own_r _ (fun r m' => exists s, r = (splice 0 (delivered cap p) buf,
      inl (s, zlen (delivered cap p))) /\ u16 s = u16 C /\ m' = m2)); [auto with writes|done|exact Hrd2| |].
  - intros o. pose proof (@wp_ReadPacket_chain oracle (back C F) L cons_wf cp cq d Hsd
      (Z.to_nat (nSlots - 1)) cs (C0 + 1) (u16 C0 + 1) (zlen bs) b db (go_copy buf bs)
      (@mkWorld oracle m2 o)) as Hchain.
    rewrite Hco in Hchain. apply Hchain; [by rewrite u16_add_l|done|done| | |by right|lia| |].
    + intros j c Hj. replace (C0 + 1 + Z.of_nat j) with (C0 + Z.of_nat (S j)) by lia.
      by apply (proj1 Hwk2 (S j)).
    + unfold zlen in *. lia.
    + rewrite zlen_go_copy. lia.
    + intros s Hs. exists s. rewrite splice_go_copy, Hdel by lia. split_and!; [|rewrite Hs; f_equal; unfold C, zlen in *; lia|done].
      by rewrite <- Hdel, zlen_app.
  - intros r m0 g3 m3 Hi3 Hrd3 (s & -> & Hs & ->) Ha3. apply (work_agree _ _ _ _ _ _ Ha3) in Hwk2.
    apply rg_bind; [done|]. eapply rg_mono.
    + eapply rg_refill; [done|done|exact Hrd3|exact (proj2 Hwk2)|exact Hs].
    + intros q' g4 m4 Hi4 (Hsame & Hlast & Hrd4). apply rg_ret; [done|done|].
      split_and!; [done|done|]. exists C. done.
Qed.

Lemma rg_ReadPacket cq buf C F g m :
  q_ring cq = cr -> last_of t cq = u16 C -> Inv g m -> reading C F false (RCalled buf) g ->
  Rg (ReadPacket cp cq buf) (fun r g' _ => read_done cq r g') g m.
Proof using Hlk.
  intros Hr Hlast Hi Hrd. pose proof (guar_r_trans L) as Htr. pose proof (guar_r_refl L) as Hrf.
  assert ((if IsServer (cfg cp) then lastHead cq else lastTail cq) = u16 C) as Hslot.
  { rewrite <- Hlast, (lk_cserver _ _ _ _ _ _ Hlk). by destruct t. }
  unfold ReadPacket. rewrite Hslot. cbv zeta. apply rg_bind; [done|]. eapply rg_read_state; [done|done|].
  destruct (take_inv g m C F buf Hi Hrd) as (Hi' & Hg' & Hsp).
  exists (take_packet buf g). split_and!; [done..|]. intros g2 m2 Hr2 Hi2.
  pose proof (si_len _ _ _ _ _ _ Hi) as Hlen. pose proof (si_back _ _ _ _ _ _ Hi) as Hb.
  pose proof (si_front _ _ _ _ _ _ Hi) as Hf. pose proof (l_size_le L cons_wf).
  pose proof (zlen_nonneg (g_cells L g)) as Hz. destruct Hrd as (HC & HF & Hbusy & HR).
  assert (u16 (u16 (g_P g) - u16 C) = zlen (g_cells L g)) as ->.
  { rewrite u16_sub_l, u16_sub_r. replace (g_P g - C) with (zlen (g_cells L g)) by lia. apply u16_small. lia. }
  pose proof (si_cells _ _ _ _ _ _ Hi) as Hcells. pose proof (si_agreed _ _ _ _ _ _ Hi) as (Hps & _ & Hbuf).
  rewrite HR in Hbuf. pose proof Hr2 as (_ & _ & _ & _ & Ha).
  unfold g_cells, g_packets in *. unfold take_packet, g_packets in *.
  destruct (packets (at_fifo (g_at g))) as [|p ps] eqn:Hp; simpl in *.
  - apply rg_bind; [done|]. eapply rg_mono.
    + eapply (rg_refill cq C F 0 buf (u16 C)); [done|done| | |apply u16_u16].
      * eapply reading_rely; [|exact Hr2]. by split_and!.
      * unfold cons_area in Ha. simpl in Ha. rewrite HC, HF in Ha. eapply spent_agree; [exact Ha|].
        apply lift_spent. rewrite <- HC, <- HF. rewrite <- HF in Hsp. exact Hsp.
    + intros q' g3 m3 Hi3 (Hsame & Hq & Hrd3). apply rg_ret; [done|done|]. split_and!; [done|done|].
      by exists C.
  - rewrite zlen_app, (zlen_encode L cons_wf) in Hlen |- *. rewrite (zlen_app (encode cap p)), (zlen_encode L cons_wf) in Hz.
    pose proof (more_slots_nonneg L cons_wf p) as Hms.
    pose proof (zlen_nonneg (concat (list_fmap _ _ (encode cap) ps))) as Hrest.
    rewrite (proj2 (Z.eqb_neq _ _)) by (unfold slots; lia).
    apply Forall_cons in Hps as [Hpd _].
    eapply (rg_read_packet C F p); [done|done| | |lia|lia].
    + eapply reading_rely; [|exact Hr2]. split_and!; simpl; [by rewrite HC|done..].
    + unfold cons_area in Ha. simpl in Ha. rewrite HC, HF in Ha. eapply work_agree; [exact Ha|]. split.
      * intros j c Hj. apply lift_cell.
        -- apply covers_slots. apply lookup_lt_Some in Hj. pose proof (zlen_encode L cons_wf p) as Hze.
           unfold zlen in *. lia.
        -- rewrite <- HC. apply Hcells. by apply lookup_app_l_Some.
      * apply lift_spent. rewrite HC in Hsp. rewrite <- HF in Hsp |- *. exact Hsp.
Qed.
End consumer.
