(* ===== verification/Linear.v ===== *)
(** * The two calls, interleaved: linearizability

    [pair] is a producer and a consumer of one ring, each in the middle of a call
    or not, over one shared memory and one kernel; [pair_step] is the start of a
    call, one access of it, or its return.  Accesses of the two sides interleave
    arbitrarily.  Every trace of calls and returns is one of the atomic channel
    ([interleaved_linearizable]); packets come out in the order in which they went
    in ([interleaved_order]); and a side that keeps getting turns returns from its
    calls ([interleaved_calls_return]).

    An access is the unit of interleaving: the copy of a descriptor or of a buffer
    is one step.  The steps are sequentially consistent. *)
From stdpp Require Import base tactics list gmap relations.
From coqutil Require Import Byte.
From Stdlib Require Import ZArith Lia.
From S2P Require Import Prelude.
From S2P Require Import GoInt.
From S2P Require Import Shm.
From S2P Require Import Descriptor.
From S2P Require Import State.
From S2P Require Import Ring.
From S2P Require Import Queue.
From S2P Require Import Packet.
From S2P Require Import Layout.
From S2P Require Import Transfer.
From S2P Require Import Link.
From S2P Require Import Demo.
From S2P Require Import Fifo.
From S2P Require Import Interleave.
From S2P Require Import Atomic.
From S2P Require Import Concurrent.
From S2P Require Import Producer.
From S2P Require Import Consumer.

(** ** The system *)

(** A side in a call has what is left of it. *)
Record pair `{OS} := mkPair {
  w_call : option (prog Z);
  r_call : option (prog read_result);
  r_queue : Queue;
  p_world : world
}.

Arguments mkPair {_} w_call r_call r_queue p_world.

Definition finished {A} (p : prog A) : bool := match p with Ret _ => true | _ => false end.

Section system.
Context `{OS} (pp : Port) (pq : Queue) (cp : Port) (cap mtu : Z).

Inductive write_step : pair -> option event -> pair -> Prop :=
| call_write r q w pkt :
    zlen (delivered cap pkt) <= mtu ->
    write_step (mkPair None r q w) (Some (CallWrite pkt)) (mkPair (Some (WritePacket pp pq pkt)) r q w)
| do_write p r q w p' w' :
    finished p = false -> advance p w = Some (p', w') ->
    write_step (mkPair (Some p) r q w) None (mkPair (Some p') r q w')
| ret_write k r q w :
    write_step (mkPair (Some (Ret k)) r q w) (Some (RetWrite k)) (mkPair None r q w).

Inductive read_step : pair -> option event -> pair -> Prop :=
| call_read p q w buf :
    mtu <= zlen buf ->
    read_step (mkPair p None q w) (Some (CallRead buf)) (mkPair p (Some (ReadPacket cp q buf)) q w)
| do_read p r q w r' w' :
    finished r = false -> advance r w = Some (r', w') ->
    read_step (mkPair p (Some r) q w) None (mkPair p (Some r') q w')
| ret_read p r q w :
    read_step (mkPair p (Some (Ret r)) q w) (Some (RetRead (rd_n r) (rd_pkt r) (rd_err r)))
      (mkPair p None (rd_queue r) w).

Definition pair_step (s : pair) (e : option event) (s' : pair) : Prop :=
  write_step s e s' \/ read_step s e s'.

Inductive pair_trace (s : pair) : list event -> pair -> Prop :=
| pair_start : pair_trace s [] s
| pair_next evs s1 e s2 :
    pair_trace s evs s1 -> pair_step s1 e s2 -> pair_trace s (evs ++ option_list e) s2.

(** A panic or a memory fault at the next access of one side. *)
Definition crashed (s : pair) : Prop :=
  (exists p, w_call s = Some p /\ advance p (p_world s) = None) \/
  (exists r, r_call s = Some r /\ advance r (p_world s) = None).
End system.

(** ** The simulation *)

Section simulation.
Context `{OS} `{!OSWrite _} (t : ringType) (L : layout) (pp : Port) (pq : Queue) (cp : Port)
  (cr : ring) (Hlk : linked t L pp pq cp cr) (mtu : Z).
Implicit Types (g : ghost) (s : pair).

Abbreviation Inv := (shared_inv t L pp mtu).
Abbreviation step := (pair_step pp pq cp (l_cap L) mtu).

(** The producer's side: idle, or in a call that the logic covers. *)
Definition writer_ok (p : option (prog Z)) (g : ghost) (m : mem) : Prop :=
  match p with
  | None => g_held g = 0 /\ at_w (g_at g) = WIdle
  | Some p => safe Inv (guar_w L) (rely_w L) p written_post g m
  end.

Definition reader_ok (r : option (prog read_result)) (q : Queue) (g : ghost) (m : mem) : Prop :=
  q_ring q = cr /\
  match r with
  | None => last_of t q = u16 (g_C g) /\ g_busy g = false /\ at_r (g_at g) = RIdle
  | Some r => safe Inv (guar_r L) (rely_r L) r (fun r g _ => read_done t L q r g) g m
  end.

Record simulated (s : pair) (g : ghost) : Prop := {
  sm_inv : Inv g (shm (p_world s));
  sm_w : writer_ok (w_call s) g (shm (p_world s));
  sm_r : reader_ok (r_call s) (r_queue s) g (shm (p_world s))
}.

Lemma writer_ok_rely p g m g' m' : writer_ok p g m -> rely_w L g m g' m' -> writer_ok p g' m'.
Proof using.
  destruct p as [p|]; simpl.
  - apply safe_rely, rely_w_trans.
  - intros [Hh Hw] (_ & Hh' & Hw' & _). by rewrite Hh', Hw'.
Qed.

Lemma reader_ok_rely r q g m g' m' : reader_ok r q g m -> rely_r L g m g' m' -> reader_ok r q g' m'.
Proof using.
  intros [Hq Hr] Hrely. split; [done|]. destruct r as [r|]; simpl in *.
  - revert Hr Hrely. apply safe_rely, rely_r_trans.
  - destruct Hr as (? & ? & ?), Hrely as (-> & _ & -> & -> & _). done.
Qed.

(** Changing only the status of a call. *)
Definition with_w (W : wstatus) (g : ghost) : ghost := hold (g_held g) W g.
Definition with_r (R : rstatus) (g : ghost) : ghost :=
  mkGhost (mkAtomic (at_fifo (g_at g)) (at_w (g_at g)) R) (g_C g) (g_P g) (g_F g) (g_held g) (g_busy g).

Lemma with_w_inv W g m :
  Inv g m -> (forall pkt, W = WCalled pkt -> zlen (delivered (l_cap L) pkt) <= mtu) ->
  Inv (with_w W g) m /\ rely_r L g m (with_w W g) m.
Proof using.
  intros [H1 H2 H3 H4 H5 H6 H7 H8 H9 H10 H11 H12 (Hp & _ & Hr)] HW. split; [|by split_and!].
  split; try done. split_and!; [done| |done]. simpl. destruct W; auto.
Qed.

Lemma with_r_inv R g m :
  Inv g m -> (forall buf, R = RCalled buf -> mtu <= zlen buf) ->
  Inv (with_r R g) m /\ rely_w L g m (with_r R g) m.
Proof using.
  intros [H1 H2 H3 H4 H5 H6 H7 H8 H9 H10 H11 H12 (Hp & Hw & _)] HR. split; [|by split_and!].
  split; try done. split_and!; [done|done|]. simpl. destruct R; auto.
Qed.

Lemma sim_write s g e s' :
  simulated s g -> write_step pp pq (l_cap L) mtu s e s' ->
  exists g1 g', lin L (g_at g) (g_at g1) /\
    match e with
    | Some e => at_event (l_cap L) mtu (g_at g1) e (g_at g')
    | None => g' = g1
    end /\ simulated s' g'.
Proof using Hlk OSWrite0.
  intros [Hi Hw Hr] Hstep. destruct Hstep as [r q w pkt Hfit|p r q w p' w' Hfin Hadv|k r q w]; simpl in *.
  - destruct Hw as [Hh HW]. destruct (with_w_inv (WCalled pkt) g (shm w) Hi) as [Hi' Hrr]; [by intros ? [= <-]|].
    exists g, (with_w (WCalled pkt) g). split_and!; [apply rtc_refl| |].
    { destruct g as [[f ? ?] ? ? ? ? ?]. simpl in *. subst. by constructor. }
    split; simpl; [done| |by eapply reader_ok_rely].
    intros g2 m2 Hr2 Hi2. apply (rg_WritePacket t L pp pq cp cr Hlk); [done|].
    eapply writing_rely; [|exact Hr2]. unfold writing, with_w. simpl.
    destruct Hr2 as (HP & _). by rewrite Hh, HP.
  - destruct (safe_advance Inv (guar_w L) (rely_w L) (guar_w_refl L) (rely_w_refl L) p _ g w Hi Hw)
      as (p2 & w2 & g' & Ha & [Hrr Hlin] & Hi' & Hsafe).
    rewrite Hadv in Ha. injection Ha as <- <-. exists g', g'. split_and!; [done|done|].
    split; simpl; [done|done|by eapply reader_ok_rely].
  - destruct (safe_ret Inv (guar_w L) (rely_w L) (rely_w_refl L) k _ g (shm w) Hi Hw)
      as (g1 & [Hrr Hlin] & Hi1 & Hh & HW).
    destruct (with_w_inv WIdle g1 (shm w) Hi1) as [Hi' Hrr']; [done|].
    exists g1, (with_w WIdle g1). split_and!; [done| |].
    { destruct g1 as [[f ? ?] ? ? ? ? ?]. simpl in *. subst. constructor. }
    split; simpl; [done|done|]. eapply reader_ok_rely; [by eapply reader_ok_rely|done].
Qed.

Lemma sim_read s g e s' :
  simulated s g -> read_step cp mtu s e s' ->
  exists g1 g', lin L (g_at g) (g_at g1) /\
    match e with
    | Some e => at_event (l_cap L) mtu (g_at g1) e (g_at g')
    | None => g' = g1
    end /\ simulated s' g'.
Proof using Hlk OSWrite0.
  intros [Hi Hw Hr] Hstep. destruct Hstep as [p q w buf Hfit|p r q w r' w' Hfin Hadv|p r q w]; simpl in *.
  - destruct Hr as (Hq & Hlast & Hb & HR).
    destruct (with_r_inv (RCalled buf) g (shm w) Hi) as [Hi' Hrw]; [by intros ? [= <-]|].
    exists g, (with_r (RCalled buf) g). split_and!; [apply rtc_refl| |].
    { destruct g as [[f ? ?] ? ? ? ? ?]. simpl in *. subst. by constructor. }
    split; simpl; [done|by eapply writer_ok_rely|]. split; [done|].
    intros g2 m2 Hr2 Hi2. eapply (rg_ReadPacket t L pp pq cp cr Hlk); [done|exact Hlast|done|].
    eapply reading_rely; [|exact Hr2]. by split_and!.
  - destruct Hr as [Hq Hr].
    destruct (safe_advance Inv (guar_r L) (rely_r L) (guar_r_refl L) (rely_r_refl L) r _ g w Hi Hr)
      as (p2 & w2 & g' & Ha & [Hrw Hlin] & Hi' & Hsafe).
    rewrite Hadv in Ha. injection Ha as <- <-. exists g', g'. split_and!; [done|done|].
    split; simpl; [done|by eapply writer_ok_rely|done].
  - destruct Hr as [Hq Hr].
    destruct (safe_ret Inv (guar_r L) (rely_r L) (rely_r_refl L) r _ g (shm w) Hi Hr)
      as (g1 & [Hrw Hlin] & Hi1 & Herr & Hsame & C & Hlast & HC & HF & Hb & HR).
    destruct (with_r_inv RIdle g1 (shm w) Hi1) as [Hi' Hrw']; [done|].
    exists g1, (with_r RIdle g1). split_and!; [done| |].
    { rewrite Herr. destruct g1 as [[f ? ?] ? ? ? ? ?]. simpl in *. subst. constructor. }
    split; simpl; [done| |].
    + eapply writer_ok_rely; [by eapply writer_ok_rely|done].
    + split; [by rewrite (proj1 Hsame)|]. simpl. by rewrite HC.
Qed.

Lemma sim_no_crash s g : simulated s g -> ~ crashed s.
Proof using OSWrite0.
  intros [Hi Hw Hr] [(p & Hp & Ha)|(r & Hp & Ha)]; rewrite Hp in *; simpl in *.
  - destruct (safe_advance Inv (guar_w L) (rely_w L) (guar_w_refl L) (rely_w_refl L) p _ g (p_world s) Hi Hw)
      as (?&?&?&E&_). by rewrite Ha in E.
  - destruct Hr as [_ Hr].
    destruct (safe_advance Inv (guar_r L) (rely_r L) (guar_r_refl L) (rely_r_refl L) r _ g (p_world s) Hi Hr)
      as (?&?&?&E&_). by rewrite Ha in E.
Qed.

Lemma sim_trace s0 g0 evs s :
  simulated s0 g0 -> pair_trace pp pq cp (l_cap L) mtu s0 evs s ->
  exists g, simulated s g /\ at_trace (l_size L) (l_cap L) mtu (g_at g0) evs (g_at g).
Proof using Hlk OSWrite0.
  intros Hs0 Ht. induction Ht as [|evs s1 e s2 Ht (g & Hs & Hat) Hstep].
  - exists g0. split; [done|constructor].
  - assert (exists g1 g', lin L (g_at g) (g_at g1) /\
      match e with
      | Some e => at_event (l_cap L) mtu (g_at g1) e (g_at g')
      | None => g' = g1
      end /\ simulated s2 g') as (g1 & g' & Hlin & He & Hs').
    { destruct Hstep; [by eapply sim_write|by eapply sim_read]. }
    exists g'. split; [done|]. pose proof (at_trace_steps _ _ _ _ _ _ _ Hat Hlin) as Hat1.
    destruct e as [e|]; simpl; [by eapply at_visible|]. by rewrite app_nil_r, He.
Qed.

(** ** Quiet states are those of the sequential theory *)

Definition quiet_ghost (f : fifo) (C P : Z) : ghost :=
  mkGhost (quiet f) C P (P + f_credit f) 0 false.

Lemma represents_simulated f w q :
  represents t L pp cr f (shm w) q -> Forall (fun p => zlen (delivered (l_cap L) p) <= mtu) (packets f) ->
  exists C P, simulated (mkPair None None q w) (quiet_ghost f C P).
Proof using Hlk.
  intros (Hq & C & P & Hi) Hfit. exists C, P.
  destruct Hi as [[Hc1 Hc2 Hc3 Hc4 Hc5] Hcr Hp Hc Hl Hfr Hfu].
  pose proof (zlen_nonneg (concat (encode (l_cap L) <$> packets f))).
  pose proof (lk_wf _ _ _ _ _ _ Hlk) as Hwf.
  split; simpl; [|done|done]. split; simpl; try done; try lia.
  - rewrite Hc. destruct t; [|done]. do 2 f_equal. lia.
  - intros i Hi. by apply Hc3.
  - intros x Hx. apply Hfr. lia.
  - intros _ x Hx. destruct (rc_slots L (shm w) C P _ (Build_ring_core _ L (shm w) C P _ Hc1 Hc2 Hc3 Hc4 Hc5) (sl L x))
      as [(fl & len & Hd) _]; [by apply sl_range|].
    unfold spent. destruct t; [eauto|]. destruct (Hfu (sl L x)) as (fl' & len' & Hd' & ?); [by apply sl_range|]. eauto.
  - intros _ ->. lia.
Qed.

Lemma simulated_represents s g :
  simulated s g -> w_call s = None -> r_call s = None ->
  represents t L pp cr (at_fifo (g_at g)) (shm (p_world s)) (r_queue s) /\ g_at g = quiet (at_fifo (g_at g)).
Proof using Hlk.
  intros [Hi Hw Hr] HW HR. rewrite HW in Hw. rewrite HR in Hr. destruct Hr as (Hq & Hlast & Hb & Hat).
  destruct Hw as [Hh Hwi]. split; [|by destruct g as [[? ? ?] ? ? ? ? ?]; simpl in *; subst].
  pose proof Hi as [H1 H2 H3 H4 H5 H6 H7 H8 H9 H10 H11 H12 H13].
  pose proof (lk_wf _ _ _ _ _ _ Hlk) as Hwf. pose proof (lk_size _ _ _ _ _ _ Hlk) as Hsz.
  pose proof (lk_pserver _ _ _ _ _ _ Hlk) as Hps. pose proof (lw_cap _ Hwf) as Hcap.
  assert (Hspent : forall i, 0 <= i < l_size L -> spent t L (shm (p_world s)) i).
  { intros i Hi'. destruct (slot_pos L Hwf (g_F g - l_size L) i Hi') as (x & Hx & <-).
    destruct (decide (x < g_C g)) as [?|Hx1]; [apply H11; [done|lia]|].
    destruct (decide (x < g_P g)) as [?|Hx2].
    - destruct (lookup_lt_is_Some_2 (g_cells L g) (Z.to_nat (x - g_C g))) as [c Hj]; [unfold zlen in *; lia|].
      eapply (cell_spent t L pp pq cp cr Hlk).
      replace x with (g_C g + Z.of_nat (Z.to_nat (x - g_C g))) by lia. by apply H9.
    - destruct (H10 x) as [(fl & len & Hd & Hcp) _]; [lia|]. exists fl, len. split; [done|].
      destruct t; [done|]. rewrite Hps in Hcp. simpl in Hcp. lia. }
  split; [done|]. exists (g_C g), (g_P g). split.
  - split; [done|lia| |done|done]. intros i Hi'. split; [|by apply H8].
    destruct (Hspent i Hi') as (fl & len & Hd & _). eauto.
  - rewrite H4. lia.
  - done.
  - rewrite H6, H4. destruct t; do 2 f_equal; [rewrite H12 by done|]; lia.
  - done.
  - intros x Hx. apply H10. rewrite H4 in Hx. lia.
  - destruct t; [rewrite H4, H12 by done; lia|]. intros i Hi'. destruct (Hspent i Hi') as (fl & len & ? & ?). eauto.
Qed.
End simulation.

(** ** Order of packets *)

(** The packets accepted so far, those whose write returned their length, and the
    one being written, read off the events.  A write that returns 0 counts as not
    accepted: there was no room, or the packet was empty. *)
Definition writes_step (h : list (list byte) * option (list byte)) (e : event)
    : list (list byte) * option (list byte) :=
  match e with
  | CallWrite pkt => (h.1, Some pkt)
  | RetWrite k => (if k =? 0 then h.1 else h.1 ++ option_list h.2, None)
  | _ => h
  end.

Definition writes (evs : list event) : list (list byte) * option (list byte) :=
  foldl writes_step ([], None) evs.

Definition accepted (evs : list event) : list (list byte) := (writes evs).1.
Definition in_call (evs : list event) : list (list byte) := option_list (writes evs).2.

(** What the reader got. *)
Definition received (evs : list event) : list (list byte) :=
  omap (fun e => match e with
                 | RetRead k buf _ => if k =? 0 then None else Some (sub 0 k buf)
                 | _ => None
                 end) evs.

Definition nonempty (ps : list (list byte)) : list (list byte) := filter (fun p => p <> []) ps.

(** Every packet written satisfies [ok]. *)
Definition written_ok (ok : list byte -> Prop) (evs : list event) : Prop :=
  Forall (fun e => match e with CallWrite pkt => ok pkt | _ => True end) evs.

Section order.
Context (n cap mtu : Z) (Hcap : 0 < cap) (ok : list byte -> Prop).
Implicit Types (a : atomic) (pkt : list byte).

Lemma delivered_pos pkt : pkt <> [] -> 0 < zlen (delivered cap pkt).
Proof using Hcap.
  intros Hne. rewrite (delivered_concat cap). cbn [replicate concat]. rewrite zlen_app.
  pose proof (zlen_nonneg (concat (replicate (Z.to_nat (more_slots cap pkt)) (chunk cap pkt)))).
  assert (0 < zlen pkt) by (destruct pkt; [done|unfold zlen; simpl; lia]).
  assert (zlen (chunk cap pkt) = Z.min cap (zlen pkt)) by (unfold chunk; apply zlen_sub; lia). lia.
Qed.

Lemma written_pos pkt : pkt <> [] -> written cap pkt <> 0.
Proof using Hcap.
  intros Hne. assert (0 < zlen pkt) by (destruct pkt; [done|unfold zlen; simpl; lia]).
  unfold written. assert (0 <= more_slots cap pkt) by (apply extra_nonneg; lia). nia.
Qed.

Lemma delivered_nil : delivered cap [] = [].
Proof using Hcap.
  rewrite (delivered_concat cap), more_slots_fits by (unfold zlen; simpl; lia). cbn [Z.to_nat replicate concat].
  by rewrite (chunk_fits cap) by (unfold zlen; simpl; lia).
Qed.

Lemma written_nil : written cap [] = 0.
Proof using Hcap.
  unfold written. rewrite more_slots_fits by (unfold zlen; simpl; lia). unfold zlen. simpl. lia.
Qed.

Lemma writes_snoc evs e : writes (evs ++ [e]) = writes_step (writes evs) e.
Proof using. unfold writes. by rewrite foldl_app. Qed.

Lemma received_snoc evs e : received (evs ++ [e]) = received evs ++ received [e].
Proof using. unfold received. by rewrite omap_app. Qed.

(** The packet of a write that has taken effect and not returned. *)
Definition effective (evs : list event) (W : wstatus) : list (list byte) :=
  match W with WDone k => if k =? 0 then [] else option_list (writes evs).2 | _ => [] end.

Definition got (R : rstatus) : list (list byte) :=
  match R with RTaken k buf | RDone k buf => if k =? 0 then [] else [sub 0 k buf] | _ => [] end.

Record in_order (evs : list event) (a : atomic) : Prop := {
  io_packets : Forall (fun p => ok p /\ zlen (delivered cap p) <= mtu) (packets (at_fifo a));
  io_w : match at_w a with
         | WIdle => (writes evs).2 = None
         | WCalled pkt => (writes evs).2 = Some pkt /\ ok pkt /\ zlen (delivered cap pkt) <= mtu
         | WDone _ => True
         end;
  io_r : match at_r a with RCalled buf => mtu <= zlen buf | _ => True end;
  io_order : delivered cap <$> (accepted evs ++ effective evs (at_w a)) =
    received evs ++ got (at_r a) ++ (delivered cap <$> nonempty (packets (at_fifo a)))
}.

Lemma in_order_lin evs a b : in_order evs a -> lin_step n cap a b -> in_order evs b.
Proof using Hcap.
  intros [Hp Hw Hr Ho] Hs. destruct Hs as [f pkt r Hle|f pkt r Hlt|f w p ps buf Hf|f w buf Hf|f w k buf];
    simpl in *.
  - destruct Hw as (Hpend & Hok & Hfit). split; simpl; try done.
    + apply Forall_app. split; [done|]. by apply Forall_singleton.
    + unfold nonempty in *. rewrite filter_app. destruct (decide (pkt = [])) as [->|Hne].
      * rewrite written_nil. rewrite filter_cons_False by tauto. rewrite filter_nil, (app_nil_r (filter _ _)). exact Ho.
      * rewrite (proj2 (Z.eqb_neq _ _)) by by apply written_pos. rewrite Hpend, filter_cons_True by done. simpl.
        rewrite app_nil_r in Ho. rewrite !fmap_app, Ho. by rewrite <- !app_assoc.
  - destruct Hw as (Hpend & Hok & Hfit). split; simpl; done.
  - rewrite Hf in *. apply Forall_cons in Hp as [[Hok Hfit] Hps]. split; simpl; try done.
    unfold nonempty in *. destruct (decide (p = [])) as [->|Hne].
    + rewrite filter_cons_False in Ho by tauto. by rewrite delivered_nil.
    + rewrite filter_cons_True in Ho by done. pose proof (delivered_pos p Hne).
      rewrite (proj2 (Z.eqb_neq _ _)) by lia. rewrite sub_splice_same by lia. by rewrite Ho.
  - split; simpl; done.
  - split; simpl; done.
Qed.

Lemma in_order_event evs a e b :
  in_order evs a -> at_event cap mtu a e b ->
  match e with CallWrite pkt => ok pkt | _ => True end -> in_order (evs ++ [e]) b.
Proof using Hcap.
  unfold accepted. intros [Hp Hw Hr Ho] Hs Hok. unfold accepted in Ho.
  destruct Hs as [f r pkt Hfit|f r k|f w buf Hfit|f w k buf]; simpl in *;
    split; unfold accepted; rewrite ?writes_snoc, ?received_snoc; simpl; try done.
  - rewrite !app_nil_r in *. exact Ho.
  - rewrite !app_nil_r. case_match; rewrite ?app_nil_r in Ho; exact Ho.
  - rewrite (app_nil_r (received evs)). destruct w; simpl in *; rewrite ?writes_snoc; exact Ho.
  - replace (effective (evs ++ [RetRead k buf None]) w) with (effective evs w)
      by (destruct w; simpl; by rewrite ?writes_snoc).
    rewrite Ho, <- app_assoc. f_equal. unfold received. simpl. by case_match.
Qed.

Lemma in_order_trace c evs a :
  at_trace n cap mtu (quiet (mkFifo [] c)) evs a -> written_ok ok evs -> in_order evs a.
Proof using Hcap.
  intros Ht. induction Ht as [|evs a b Ht IH Hs|evs a e b Ht IH Hs]; intros Hok.
  - by split.
  - eapply in_order_lin; [by apply IH|done].
  - apply Forall_app in Hok as [Hok He]. apply Forall_inv in He.
    eapply in_order_event; [by apply IH|done|exact He].
Qed.

Lemma in_order_prefix evs a :
  in_order evs a -> received evs `prefix_of` (delivered cap <$> (accepted evs ++ in_call evs)).
Proof using.
  intros [_ _ _ Ho]. apply (transitivity (y := delivered cap <$> (accepted evs ++ effective evs (at_w a)))).
  - rewrite Ho. by exists (got (at_r a) ++ (delivered cap <$> nonempty (packets (at_fifo a)))).
  - rewrite !fmap_app. apply prefix_app.
    destruct (at_w a); simpl; [apply prefix_nil..|]. case_match; [apply prefix_nil|done].
Qed.

Lemma writes_ok evs : written_ok ok evs -> Forall ok (accepted evs ++ in_call evs).
Proof using.
  unfold accepted, in_call. induction evs as [|e evs IH] using rev_ind; [constructor|].
  intros [Hok He]%Forall_app. specialize (IH Hok). apply Forall_inv in He. rewrite writes_snoc.
  apply Forall_app in IH as [H1 H2]. apply Forall_app. destruct e; simpl in *; try done.
  - by rewrite Forall_singleton.
  - split; [|done]. case_match; [done|]. by apply Forall_app.
Qed.
End order.

(** Packets that fit one buffer arrive as they are. *)
Lemma delivered_short cap ps :
  Forall (fun p => zlen p <= cap) ps -> 0 < cap -> delivered cap <$> ps = ps.
Proof.
  intros Hps Hcap. induction Hps as [|p ps Hp _ IH]; [done|]. cbn [fmap list_fmap]. f_equal; [|exact IH].
  rewrite (delivered_concat cap), (more_slots_fits cap Hcap) by done. cbn [Z.to_nat replicate concat].
  by rewrite (chunk_fits cap), app_nil_r.
Qed.

(** ** Schedules *)

(** One turn of a schedule, executed: a side starts a call, or takes the next
    step of the call it is in. *)
Inductive turn := StartWrite (pkt : list byte) | StartRead (buf : list byte) | Writer | Reader.

Section schedule.
Context `{OS} (pp : Port) (pq : Queue) (cp : Port) (cap mtu : Z).

Definition take_turn (s : pair) (x : turn) : option (option event * pair) :=
  match x with
  | StartWrite pkt =>
      match w_call s with
      | None => if zlen (delivered cap pkt) <=? mtu
                then Some (Some (CallWrite pkt),
                           mkPair (Some (WritePacket pp pq pkt)) (r_call s) (r_queue s) (p_world s))
                else None
      | Some _ => None
      end
  | StartRead buf =>
      match r_call s with
      | None => if mtu <=? zlen buf
                then Some (Some (CallRead buf),
                           mkPair (w_call s) (Some (ReadPacket cp (r_queue s) buf)) (r_queue s) (p_world s))
                else None
      | Some _ => None
      end
  | Writer =>
      match w_call s with
      | None => None
      | Some (Ret k) => Some (Some (RetWrite k), mkPair None (r_call s) (r_queue s) (p_world s))
      | Some p => '(p, w) ← advance p (p_world s);
                  Some (None, mkPair (Some p) (r_call s) (r_queue s) w)
      end
  | Reader =>
      match r_call s with
      | None => None
      | Some (Ret r) => Some (Some (RetRead (rd_n r) (rd_pkt r) (rd_err r)),
                              mkPair (w_call s) None (rd_queue r) (p_world s))
      | Some r => '(r, w) ← advance r (p_world s);
                  Some (None, mkPair (w_call s) (Some r) (r_queue s) w)
      end
  end.

Fixpoint run_turns (xs : list turn) (s : pair) : option (list event * pair) :=
  match xs with
  | [] => Some ([], s)
  | x :: xs =>
      '(e, s) ← take_turn s x;
      '(evs, s) ← run_turns xs s;
      Some (option_list e ++ evs, s)
  end.

Lemma take_turn_side s x e s' :
  take_turn s x = Some (e, s') ->
  match x with
  | StartWrite _ | Writer => write_step pp pq cap mtu s e s'
  | StartRead _ | Reader => read_step cp mtu s e s'
  end.
Proof using.
  destruct s as [pc rc q w], x as [pkt|buf| |]; simpl.
  - destruct pc; [done|]. case_match eqn:E; [|done]. intros [= <- <-]. zbool. by constructor.
  - destruct rc; [done|]. case_match eqn:E; [|done]. intros [= <- <-]. zbool. by constructor.
  - destruct pc as [p|]; [|done].
    destruct p as [k|?|f o z k|f o bs k|X c k|]; [intros [= <- <-]; constructor|done|..].
    all: destruct (advance _ w) as [[p' w']|] eqn:Ea; [|done]; intros [= <- <-]; by constructor.
  - destruct rc as [p|]; [|done].
    destruct p as [k|?|f o z k|f o bs k|X c k|]; [intros [= <- <-]; constructor|done|..].
    all: destruct (advance _ w) as [[p' w']|] eqn:Ea; [|done]; intros [= <- <-]; by constructor.
Qed.

Lemma take_turn_step s x e s' : take_turn s x = Some (e, s') -> pair_step pp pq cp cap mtu s e s'.
Proof using. intros Ht. apply take_turn_side in Ht. destruct x; [left|right|left|right]; done. Qed.

Lemma run_turns_trace xs s0 evs0 s evs s' :
  pair_trace pp pq cp cap mtu s0 evs0 s -> run_turns xs s = Some (evs, s') ->
  pair_trace pp pq cp cap mtu s0 (evs0 ++ evs) s'.
Proof using.
  revert evs0 s evs. induction xs as [|x xs IH]; intros evs0 s evs Ht Hrun; simpl in Hrun.
  - injection Hrun as <- <-. by rewrite app_nil_r.
  - destruct (take_turn s x) as [[e s1]|] eqn:Ex; [|done]. simpl in Hrun.
    destruct (run_turns xs s1) as [[evs1 s2]|] eqn:Er; [|done]. simpl in Hrun. injection Hrun as <- <-.
    rewrite app_assoc. eapply IH; [|done]. eapply pair_next; [done|by eapply take_turn_step].
Qed.
End schedule.

(** ** Calls return *)

Section returns.
Context `{OS} (sigma : nat -> pair).

(** The turn at time [i] is this side's: it takes a step if it can. *)
Definition has_turn (side : pair -> option event -> pair -> Prop) (i : nat) : Prop :=
  (exists e s', side (sigma i) e s') -> exists e, side (sigma i) e (sigma (S i)).

(** One side, and what the other may do meanwhile. *)
Section side.
Context {A : Type} (side other : pair -> option event -> pair -> Prop)
  (call : pair -> option (prog A)).
Context (other_keeps : forall s e s', other s e s' -> call s' = call s)
  (side_moves : forall s e s' p, side s e s' -> call s = Some p ->
     call s' = None \/ finished p = false /\
       exists w p' w', advance p w = Some (p', w') /\ call s' = Some p')
  (side_can : forall i p, call (sigma i) = Some p -> exists e s', side (sigma i) e s')
  (steps : forall i, sigma (S i) = sigma i \/ exists e, side (sigma i) e (sigma (S i)) \/
     other (sigma i) e (sigma (S i)))
  (fair : forall i, exists j, (i <= j)%nat /\ (call (sigma j) = None \/ has_turn side j)).

(** The next time this side moves. *)
Lemma next_move (p : prog A) i :
  call (sigma i) = Some p ->
  exists j, (i <= j)%nat /\
    (call (sigma j) = None \/ call (sigma j) = Some p /\ exists e, side (sigma j) e (sigma (S j))).
Proof using other_keeps side_can steps fair.
  intros Hi. destruct (fair i) as (j & Hij & Hj). remember (j - i)%nat as d eqn:Hd.
  revert i Hi Hij Hd. induction d as [|d IH]; intros i Hi Hij Hd.
  - exists j. split; [done|]. replace i with j in Hi by lia. destruct Hj as [|Hj]; [by left|].
    right. split; [done|]. apply Hj. by eapply side_can.
  - assert ((exists e, side (sigma i) e (sigma (S i))) \/ call (sigma (S i)) = Some p) as [?|Hn].
    { destruct (steps i) as [Hs|(e & [Hs|Hs])]; [right|left|right].
      - by rewrite Hs.
      - by exists e.
      - by rewrite (other_keeps _ _ _ Hs). }
    + exists i. auto.
    + destruct (IH (S i) Hn) as (k & ? & ?); [lia|lia|]. exists k. split; [lia|done].
Qed.

Lemma side_returns (p : prog A) i :
  call (sigma i) = Some p -> exists j, (i <= j)%nat /\ call (sigma j) = None.
Proof using other_keeps side_moves side_can steps fair.
  revert i. induction p as [a|e|f o n k IH|f o bs k IH|X c k IH|]; intros i Hi.
  all: destruct (next_move _ i Hi) as (j & Hij & [?|(Hj & e0 & Hs)]); [by exists j|].
  all: destruct (side_moves _ _ _ _ Hs Hj) as [?|(Hf & w & p' & w' & Ha & Hc)]; [exists (S j); auto with lia|].
  all: cbn in Hf, Ha; try done.
  - destruct (ld (shm w) f o n) as [bs|]; [|done]. injection Ha as <- <-.
    destruct (IH _ _ Hc) as (j' & ? & ?). exists j'. split; [lia|done].
  - destruct (st (shm w) f o bs) as [m|]; [|done]. injection Ha as <- <-.
    destruct (IH _ Hc) as (j' & ? & ?). exists j'. split; [lia|done].
  - destruct (sys c (shm w) (kernel w)) as [[x m] z]. injection Ha as <- <-.
    destruct (IH _ _ Hc) as (j' & ? & ?). exists j'. split; [lia|done].
Qed.
End side.
End returns.

(** ** A concrete interleaving

    Client to server: the second read starts while the first write is still in its
    call and finds the packet, whose write returns only afterwards. *)

Definition demo_start : pair := mkPair None None (demo_queue ringTypeS2M) demo_world.

Definition demo_turns : list turn :=
  [StartWrite demo_pkt1; Writer; Writer; Writer; StartRead (zeros 8); Reader; Writer; Writer;
   Reader; Reader; Writer; StartRead (zeros 8); Reader; Reader; Reader; Reader; Reader;
   Writer; Writer; Writer; StartWrite demo_pkt2; Writer].

Definition demo_events : list event :=
  [CallWrite demo_pkt1; CallRead (zeros 8); RetRead 0 (zeros 8) None; CallRead (zeros 8);
   RetRead 3 (demo_pkt1 ++ zeros 5) None; RetWrite 3; CallWrite demo_pkt2].

Definition demo_outcome : option (list event * pair) :=
  run_turns (demo_port false) (demo_queue ringTypeS2M) (demo_port true) 4 8 demo_turns demo_start.

Lemma demo_interleaving : fst <$> demo_outcome = Some demo_events.
Proof. vm_compute. reflexivity. Qed.

Lemma demo_trace :
  exists s, pair_trace (demo_port false) (demo_queue ringTypeS2M) (demo_port true) 4 8 demo_start demo_events s.
Proof.
  pose proof demo_interleaving as He. destruct demo_outcome as [[evs s]|] eqn:E; [|done].
  injection He as ->. exists s.
  exact (run_turns_trace _ _ _ _ _ _ _ [] _ _ _ (pair_start _ _ _ _ _ _) E).
Qed.

(** The client alone, given every turn. *)
Definition write_turn (s : pair) : pair :=
  match take_turn (demo_port false) (demo_queue ringTypeS2M) (demo_port true) 4 8 s Writer with
  | Some (_, s) => s
  | None => s
  end.

Definition demo_sigma (i : nat) : pair :=
  match i with
  | O => demo_start
  | S i => Nat.iter i write_turn
             (mkPair (Some (WritePacket (demo_port false) (demo_queue ringTypeS2M) demo_pkt1)) None
                (demo_queue ringTypeS2M) demo_world)
  end.

Abbreviation demo_write_step := (write_step (demo_port false) (demo_queue ringTypeS2M) 4 8).

Lemma write_turn_step s : write_turn s = s \/ exists e, demo_write_step s e (write_turn s).
Proof.
  unfold write_turn. destruct (take_turn _ _ _ _ _ s Writer) as [[e s']|] eqn:E; [|by left].
  right. exists e. exact (take_turn_side _ _ _ _ _ _ _ _ _ E).
Qed.

Lemma write_turn_can s : (exists e s', demo_write_step s e s') -> w_call s <> None ->
  exists e, demo_write_step s e (write_turn s).
Proof.
  intros (e & s' & Hs) Hc. destruct Hs as [r q w pkt|p r q w p' w' Hf Ha|k r q w]; [done|..].
  - exists None. unfold write_turn. simpl.
    destruct p as [k|x|f o z k|f o bs k|X c k|]; [done|done|..|done]; rewrite Ha; by constructor.
  - exists (Some (RetWrite k)). apply ret_write.
Qed.

Lemma write_turn_idle s : r_call s = None -> r_call (write_turn s) = None.
Proof.
  intros Hr. destruct (write_turn_step s) as [->|[e Hs]]; [done|]. by destruct Hs.
Qed.

Lemma demo_sigma_idle i : r_call (demo_sigma i) = None.
Proof. destruct i as [|i]; [done|]. induction i as [|i IH]; [done|]. by apply write_turn_idle. Qed.

(** ** Theorems *)

(** C2: the two sides agree on a size [mtu]: what a written packet delivers is no
    longer, and the reader's buffers are no shorter.  Then, with the memory accesses
    of the two processes interleaved in any way, the calls on a ring are
    linearizable: no access panics or faults, and every
    sequence of calls and returns is one of the atomic channel, in which each call
    takes effect at one instant between its start and its return.  When no call is
    in progress the shared memory represents the channel's FIFO. *)
Theorem interleaved_linearizable `{OS} `{!OSWrite _} t L pp pq cp cr mtu f q w evs s :
  linked t L pp pq cp cr -> represents t L pp cr f (shm w) q ->
  Forall (fun p => zlen (delivered (l_cap L) p) <= mtu) (packets f) ->
  pair_trace pp pq cp (l_cap L) mtu (mkPair None None q w) evs s ->
  ~ crashed s /\
  exists a, at_trace (l_size L) (l_cap L) mtu (quiet f) evs a /\
    (w_call s = None -> r_call s = None ->
     a = quiet (at_fifo a) /\
     represents t L pp cr (at_fifo a) (shm (p_world s)) (r_queue s)).
Proof.
  intros Hlk Hrep Hfit Ht.
  destruct (represents_simulated t L pp pq cp cr Hlk mtu f w q Hrep Hfit) as (C & P & Hs0).
  destruct (sim_trace t L pp pq cp cr Hlk mtu _ _ evs s Hs0 Ht) as (g & Hs & Hat).
  split; [by eapply sim_no_crash|]. exists (g_at g). split; [exact Hat|]. intros Hw Hr.
  destruct (simulated_represents t L pp pq cp cr Hlk mtu s g Hs Hw Hr) as [Hrep' Hq]. done.
Qed.

Lemma interleaved_linearizable_witness :
  exists s, ~ crashed s /\
    exists a, at_trace 2 4 8 (quiet (mkFifo [] 2)) demo_events a /\
      (w_call s = None -> r_call s = None ->
       a = quiet (at_fifo a) /\
       represents ringTypeS2M demo_layout (demo_port false) (demo_ring ringTypeS2M) (at_fifo a)
         (shm (p_world s)) (r_queue s)).
Proof.
  destruct demo_trace as [s Hs]. exists s.
  apply (interleaved_linearizable ringTypeS2M demo_layout (demo_port false) (demo_queue ringTypeS2M)
           (demo_port true) (demo_ring ringTypeS2M) 8 (mkFifo [] 2) (demo_queue ringTypeS2M) demo_world).
  - exact (demo_linked ringTypeS2M).
  - exact (demo_represents ringTypeS2M).
  - constructor.
  - exact Hs.
Defined.

(** C3: across any interleaving, when no packet is longer than one buffer of the
    ring and the reader's buffers hold every packet (mtu).  The packets read are,
    byte for byte, in order, without loss or repetition, a prefix of those
    accepted, that is whose WritePacket returned their length, followed by that of
    the write in progress if there is one (its packet may be published before the
    call returns).  When no call is in progress nothing is lost either: the
    accepted packets are those read followed by the nonempty ones that wait in the
    ring.  (An empty packet takes a slot, but both calls return 0 for it.) *)
Theorem interleaved_order `{OS} `{!OSWrite _} t L pp pq cp cr mtu credit q w evs s :
  linked t L pp pq cp cr -> represents t L pp cr (mkFifo [] credit) (shm w) q ->
  pair_trace pp pq cp (l_cap L) mtu (mkPair None None q w) evs s ->
  written_ok (fun pkt => zlen pkt <= l_cap L) evs ->
  received evs `prefix_of` (accepted evs ++ in_call evs) /\
  (w_call s = None -> r_call s = None -> exists f,
     represents t L pp cr f (shm (p_world s)) (r_queue s) /\
     accepted evs = received evs ++ nonempty (packets f)).
Proof.
  intros Hlk Hrep Ht Hok. pose proof (lw_cap _ (lk_wf _ _ _ _ _ _ Hlk)) as Hcap.
  assert (0 < l_cap L) as Hpos by lia.
  destruct (represents_simulated t L pp pq cp cr Hlk mtu _ w q Hrep) as (C & P & Hs0); [constructor|].
  destruct (sim_trace t L pp pq cp cr Hlk mtu _ _ evs s Hs0 Ht) as (g & Hs & Hat).
  apply (in_order_trace (l_size L) (l_cap L) mtu Hpos (fun pkt => zlen pkt <= l_cap L) credit) in Hat as Hio; [|exact Hok].
  pose proof (writes_ok (fun pkt => zlen pkt <= l_cap L) evs Hok) as Hall. split.
  - rewrite <- (delivered_short (l_cap L) (accepted evs ++ in_call evs)) by done. by eapply in_order_prefix.
  - intros Hw Hr. destruct (simulated_represents t L pp pq cp cr Hlk mtu s g Hs Hw Hr) as [Hrep' Hq].
    exists (at_fifo (g_at g)). split; [exact Hrep'|]. destruct Hio as [Hp _ _ Ho].
    rewrite Hq in Ho. cbn in Ho. rewrite app_nil_r in Ho. apply Forall_app in Hall as [Hacc _].
    rewrite !delivered_short in Ho by first [done|apply Forall_forall; intros p [_ Hin]%list_elem_of_filter;
      rewrite Forall_forall in Hp; by apply Hp]. exact Ho.
Qed.

Lemma interleaved_order_witness :
  received demo_events `prefix_of` (accepted demo_events ++ in_call demo_events) /\
  received demo_events = [demo_pkt1] /\ accepted demo_events = [demo_pkt1] /\
  in_call demo_events = [demo_pkt2].
Proof.
  split; [|by vm_compute]. destruct demo_trace as [s Hs].
  apply (interleaved_order ringTypeS2M demo_layout (demo_port false) (demo_queue ringTypeS2M)
           (demo_port true) (demo_ring ringTypeS2M) 8 2 (demo_queue ringTypeS2M) demo_world _ s).
  - exact (demo_linked ringTypeS2M).
  - exact (demo_represents ringTypeS2M).
  - exact Hs.
  - repeat constructor; vm_compute; discriminate.
Defined.

(** C4: under the same agreement on sizes as in C2, however the accesses interleave,
    a process that is given turns for as long as it is in a call returns from it;
    the other process cannot hold it up. *)
Theorem interleaved_calls_return `{OS} `{!OSWrite _} t L pp pq cp cr mtu f q w (sigma : nat -> pair) :
  linked t L pp pq cp cr -> represents t L pp cr f (shm w) q ->
  Forall (fun p => zlen (delivered (l_cap L) p) <= mtu) (packets f) ->
  sigma O = mkPair None None q w ->
  (forall i, sigma (S i) = sigma i \/
     exists e, pair_step pp pq cp (l_cap L) mtu (sigma i) e (sigma (S i))) ->
  (forall i, exists j, (i <= j)%nat /\
     (w_call (sigma j) = None \/ has_turn sigma (write_step pp pq (l_cap L) mtu) j)) ->
  (forall i, exists j, (i <= j)%nat /\
     (r_call (sigma j) = None \/ has_turn sigma (read_step cp mtu) j)) ->
  forall i, (exists j, (i <= j)%nat /\ w_call (sigma j) = None) /\
    (exists j, (i <= j)%nat /\ r_call (sigma j) = None).
Proof.
  intros Hlk Hrep Hfit H0 Hsteps Hfw Hfr.
  assert (Hsafe : forall i, ~ crashed (sigma i)).
  { destruct (represents_simulated t L pp pq cp cr Hlk mtu f w q Hrep Hfit) as (C & P & Hs0).
    rewrite <- H0 in Hs0.
    assert (Ht : forall i, exists evs, pair_trace pp pq cp (l_cap L) mtu (sigma O) evs (sigma i)).
    { induction i as [|i [evs IH]]; [eexists; apply pair_start|].
      destruct (Hsteps i) as [->|[e He]]; [by exists evs|]. eexists. by eapply pair_next. }
    intros i. destruct (Ht i) as [evs Hev].
    destruct (sim_trace t L pp pq cp cr Hlk mtu _ _ evs _ Hs0 Hev) as (g & Hs & _).
    by eapply sim_no_crash. }
  intros i. split.
  - destruct (w_call (sigma i)) as [p|] eqn:Hp; [|by exists i]. revert Hp.
    apply (side_returns sigma (write_step pp pq (l_cap L) mtu) (read_step cp mtu)); [..|done].
    + by intros ??? [].
    + intros ??? p0 [] Hc; simplify_eq/=; [|by left]. right. split; [done|]. eauto.
    + intros j p0 Hj. specialize (Hsafe j). destruct (sigma j) as [pc rc q' w'] eqn:E. simpl in *. subst pc.
      destruct (finished p0) eqn:Hf; [destruct p0; [eexists _, _; apply ret_write|discriminate..]|].
      destruct (advance p0 w') as [[p' w'']|] eqn:Ea; [eexists _, _; by constructor|].
      destruct Hsafe. left. by exists p0.
    + intros j. destruct (Hsteps j) as [?|(e & [?|?])]; eauto.
  - destruct (r_call (sigma i)) as [p|] eqn:Hp; [|by exists i]. revert Hp.
    apply (side_returns sigma (read_step cp mtu) (write_step pp pq (l_cap L) mtu)); [..|done].
    + by intros ??? [].
    + intros ??? p0 [] Hc; simplify_eq/=; [|by left]. right. split; [done|]. eauto.
    + intros j p0 Hj. specialize (Hsafe j). destruct (sigma j) as [pc rc q' w'] eqn:E. simpl in *. subst rc.
      destruct (finished p0) eqn:Hf; [destruct p0; [eexists _, _; apply ret_read|discriminate..]|].
      destruct (advance p0 w') as [[p' w'']|] eqn:Ea; [eexists _, _; by constructor|].
      destruct Hsafe. right. by exists p0.
    + intros j. destruct (Hsteps j) as [?|(e & [?|?])]; eauto.
Qed.

Lemma interleaved_calls_return_witness :
  (exists j, (1 <= j)%nat /\ w_call (demo_sigma j) = None) /\
  (exists j, (1 <= j)%nat /\ r_call (demo_sigma j) = None).
Proof.
  apply (interleaved_calls_return ringTypeS2M demo_layout (demo_port false) (demo_queue ringTypeS2M)
           (demo_port true) (demo_ring ringTypeS2M) 8 (mkFifo [] 2) (demo_queue ringTypeS2M) demo_world
           demo_sigma).
  - exact (demo_linked ringTypeS2M).
  - exact (demo_represents ringTypeS2M).
  - constructor.
  - reflexivity.
  - intros [|i].
    + right. exists (Some (CallWrite demo_pkt1)). left. apply call_write. vm_compute. discriminate.
    + destruct (write_turn_step (demo_sigma (S i))) as [He|[e He]]; [by left|]. right. exists e. by left.
  - intros i. exists i. split; [done|]. destruct i as [|i]; [by left|].
    destruct (w_call (demo_sigma (S i))) eqn:Hc; [right|by left].
    intros Hcan. apply (write_turn_can _ Hcan). by rewrite Hc.
  - intros i. exists i. split; [done|]. left. apply demo_sigma_idle.
Defined.
