(* ===== verification/Region.v ===== *)
(** * Memory regions and queue initialisation (mem_region.go, util.go)

    The client's side of setting up shared memory: [addRegion] creates, sizes
    and maps the file; [initializeQueues] writes the ring headers and
    descriptors into it.  Integer operations are at the width Go gives them:
    [packetBufferOffset] is computed in [uint16] before it is widened. *)
From stdpp Require Import base tactics list gmap strings.
From coqutil Require Import Byte.
From Stdlib Require Import ZArith Lia.
From S2P Require Import Prelude.
From S2P Require Import GoInt.
From S2P Require Import Shm.
From S2P Require Import Descriptor.
From S2P Require Import State.
From S2P Require Import Ring.
From S2P Require Import Queue.

(** ** util.go *)

Definition min16 (a b : Z) : Z := if a <? b then a else b.
Definition min8 (a b : Z) : Z := if a <? b then a else b.

(** main.go constants of the calls below. *)
Definition mfd_allow_sealing : Z := 2.
Definition f_add_seals : Z := 1033.
Definition f_seal_shrink : Z := 2.
Definition efd_nonblock : Z := 2048. (* 04000 *)

Definition eventFd : prog (Z * option goerror) :=
  r ← syscall_ (SysEventfd 0 efd_nonblock);
  match r with
  | inl efd => mret (efd, None)
  | inr e => mret (-1, Some (Wrap "eventfd" (ErrErrno e)))
  end.

(** ** mem_region.go *)

Definition cookie : Z := 65216288. (* 0x3E31F20 *)

Definition memfdCreate : prog (Z * option goerror) :=
  r ← syscall_ (SysMemfdCreate "memif_region_0" mfd_allow_sealing);
  match r with
  | inl mfd => mret (mfd, None)
  | inr e => mret (-1, Some (Wrap "memfdCreate" (Wrap "memfd_create" (ErrErrno e))))
  end.

(** [uint32((N + N) * (ringSize + descSize*(1<<p.run.Log2RingSize)))]: every
    operation inside the conversion is on [uint16]. *)
Definition ring_area (mc : MemoryConfig) : Z :=
  let pairs := u16 (NumQueuePairs mc + NumQueuePairs mc) in
  let rsz := u16 (ringSize + u16 (descSize * u16_shl1 (Log2RingSize mc))) in
  u32 (u16 (pairs * rsz)).

(** [uint64(packetBufferOffset + PacketBufferSize*uint32(1<<Log2)*uint32(N+N))]:
    [uint32] arithmetic. *)
Definition region_size (pbo : Z) (mc : MemoryConfig) : Z :=
  u64 (u32 (pbo + u32 (u32 (PacketBufferSize mc * u32_shl1 (Log2RingSize mc)) *
                         u32 (u16 (NumQueuePairs mc + NumQueuePairs mc))))).

Definition addRegion (p : Port) (hasPacketBuffers hasRings : bool) : prog (Port * option goerror) :=
  let pbo := if hasRings then ring_area (run_ p) else 0 in
  let size := if hasPacketBuffers then region_size pbo (run_ p) else u64 pbo in
  '(fd, err) ← memfdCreate;
  match err with
  | Some e => mret (p, Some e)
  | None =>
      r ← syscall_ (SysFcntl fd f_add_seals f_seal_shrink);
      match r with
      | Some e =>
          syscall_ (SysClose fd) ;;
          mret (p, Some (Wrap "memfdCreate" (Wrap "fcntl" (ErrErrno e))))
      | None =>
          r ← syscall_ (SysFtruncate fd (int64 size));
          match r with
          | Some e => syscall_ (SysClose fd) ;; mret (p, Some (Wrap "memfdCreate" (ErrErrno e)))
          | None =>
              r ← Mmap fd (int64 size);
              match r with
              | inr e => mret (p, Some (Wrap "addRegion" (ErrErrno e)))
              | inl d => mret (set_regions (regions p ++ [mkRegion (Some d) size fd pbo]) p, None)
              end
          end
      end
  end.

Definition initializeRegions (p : Port) : prog (Port * option goerror) :=
  '(p, err) ← addRegion p true true;
  match err with
  | Some e => mret (p, Some (Wrap "initializeRegions" e))
  | None => mret (p, None)
  end.

(** The descriptor of [slot]: flags and region 0, the configured length, and the
    slot's packet buffer.  (The code reuses one [descBuf] and only rewrites its
    offset field.) *)
Definition slot_desc (p : Port) (pbo slot : Z) : descBuf :=
  Desc.setOffset (u32 (pbo + u32 (u32 slot * PacketBufferSize (run_ p))))
    (Desc.setLength (PacketBufferSize (run_ p)) (Desc.setRegion 0 (Desc.setFlags 0 newDescBuf))).

(** [for j := 0; j < q.ring.size; j++ { slot = qid*q.ring.size + j; ... }] with
    [k] iterations left. *)
Fixpoint init_descs (p : Port) (q : Queue) (qid : Z) (k : nat) (j : Z) : prog unit :=
  match k with
  | O => mret tt
  | S k =>
      let slot := int64 (qid * rg_size (q_ring q) + j) in
      match regions p with
      | [] => Panic IndexOutOfRange
      | r :: _ =>
          putDescBuf p q slot (slot_desc p (packetBufferOffset r) slot) ;;
          init_descs p q qid k (j + 1)
      end
  end.

(** One queue: ring, eventfd, header to shared memory, [append] to the port's
    list, descriptors. *)
Definition init_queue (pid : nat) (p : Port) (t : ringType) (qid : Z) : prog (Port * option goerror) :=
  let r := RingBuf.setFlags 1 (RingBuf.setCookie cookie (Port_newRing p 0 t qid)) in
  '(efd, err) ← eventFd;
  match err with
  | Some e => mret (p, Some e)
  | None =>
      let q := mkQueue r pid 0 0 efd in
      putRing p q ;;
      let p := match t with
               | ringTypeS2M => set_txQueues (txQueues p ++ [q]) p
               | ringTypeM2S => set_rxQueues (rxQueues p ++ [q]) p
               end in
      init_descs p q qid (Z.to_nat (rg_size r)) 0 ;;
      mret (p, None)
  end.

(** [for qid := 0; qid < int(p.run.NumQueuePairs); qid++]. *)
Fixpoint init_queues (pid : nat) (p : Port) (t : ringType) (k : nat) (qid : Z) : prog (Port * option goerror) :=
  match k with
  | O => mret (p, None)
  | S k =>
      '(p, err) ← init_queue pid p t qid;
      match err with
      | Some e => mret (p, Some e)
      | None => init_queues pid p t k (qid + 1)
      end
  end.

Definition initializeQueues (pid : nat) (p : Port) : prog (Port * option goerror) :=
  let n := Z.to_nat (NumQueuePairs (run_ p)) in
  '(p, err) ← init_queues pid p ringTypeS2M n 0;
  match err with
  | Some e => mret (p, Some e)
  | None => init_queues pid p ringTypeM2S n 0
  end.
