(* ===== verification/Setup.v ===== *)
(** * What the client's set-up establishes (mem_region.go)

    The region's arithmetic (when the rings and the slots' buffers are disjoint, and
    when the 16-bit [packetBufferOffset] wraps), and that [initializeQueues] for one
    queue pair leaves two rings satisfying the data path's invariant. *)
From stdpp Require Import base tactics list gmap strings.
From coqutil Require Import Byte.
From Stdlib Require Import ZArith Lia.
From S2P Require Import Prelude.
From S2P Require Import GoInt.
From S2P Require Import Shm.
From S2P Require Import Descriptor.
From S2P Require Import State.
From S2P Require Import Ring.
From S2P Require Import Queue.
From S2P Require Import Packet.
From S2P Require Import Layout.
From S2P Require Import Transfer.
From S2P Require Import Link.
From S2P Require Import Demo.
From S2P Require Import Fifo.
From S2P Require Import Region.

(** ** Region arithmetic *)

(** Bytes of one ring, and of all rings, as mathematical integers. *)
Definition ring_bytes (mc : MemoryConfig) : Z := ringSize + descSize * 2 ^ Log2RingSize mc.
Definition rings_bytes (mc : MemoryConfig) : Z := 2 * NumQueuePairs mc * ring_bytes mc.
Definition buffers_bytes (mc : MemoryConfig) : Z :=
  2 * NumQueuePairs mc * (PacketBufferSize mc * 2 ^ Log2RingSize mc).

Record mc_wf (mc : MemoryConfig) : Prop := {
  mw_pairs : 0 <= NumQueuePairs mc < 65536;
  mw_log : 0 <= Log2RingSize mc < 256;
  mw_size : 0 <= PacketBufferSize mc < 4294967296
}.

Lemma ring_area_mod mc : mc_wf mc -> ring_area mc = u16 (rings_bytes mc).
Proof.
  intros [? ? ?]. unfold ring_area, rings_bytes, ring_bytes, u16_shl1.
  rewrite Z.shiftl_1_l, (u16_mul_r descSize), (u16_add_r ringSize), u16_mul_l, u16_mul_r.
  rewrite u32_small by (pose proof (u16_range ((NumQueuePairs mc + NumQueuePairs mc) *
    (ringSize + descSize * 2 ^ Log2RingSize mc))); lia).
  f_equal. lia.
Qed.

Lemma ring_area_exact mc : mc_wf mc -> rings_bytes mc < 65536 -> ring_area mc = rings_bytes mc.
Proof.
  intros Hw ?. rewrite ring_area_mod by done. destruct Hw. apply u16_small.
  unfold rings_bytes, ring_bytes, ringSize, descSize in *.
  pose proof (Z.pow_nonneg 2 (Log2RingSize mc)). nia.
Qed.

Lemma region_size_exact mc :
  mc_wf mc -> 2 * NumQueuePairs mc < 65536 -> rings_bytes mc < 65536 ->
  ring_area mc + buffers_bytes mc < 4294967296 -> 2 ^ Log2RingSize mc < 4294967296 ->
  0 < NumQueuePairs mc ->
  region_size (ring_area mc) mc = rings_bytes mc + buffers_bytes mc.
Proof.
  intros Hw ? ? Hlt Hlog Hn. rewrite ring_area_exact in * by done. destruct Hw.
  assert (0 <= rings_bytes mc).
  { unfold rings_bytes, ring_bytes, ringSize, descSize.
    pose proof (Z.pow_nonneg 2 (Log2RingSize mc)). nia. }
  unfold region_size, u32_shl1, buffers_bytes in *. rewrite Z.shiftl_1_l.
  assert (0 <= 2 ^ Log2RingSize mc) by (apply Z.pow_nonneg; lia).
  rewrite (u32_small (2 ^ _)) by lia.
  assert (0 <= PacketBufferSize mc * 2 ^ Log2RingSize mc) by nia.
  rewrite (u32_small (PacketBufferSize mc * _)) by nia.
  rewrite (u16_small (_ + _)), (u32_small (NumQueuePairs mc + NumQueuePairs mc)) by lia.
  rewrite (u32_small (_ * (_ + _))) by nia.
  rewrite u32_small by nia. rewrite u64_small; nia.
Qed.

(** Ring offsets as mathematical integers. *)
Definition ring_offset (mc : MemoryConfig) (t : ringType) (i : Z) : Z :=
  (match t with ringTypeS2M => 0 | ringTypeM2S => NumQueuePairs mc end + i) * ring_bytes mc.

Lemma Port_newRing_exact p k t i :
  mc_wf (run_ p) -> Log2RingSize (run_ p) <= 30 -> 0 <= i < NumQueuePairs (run_ p) ->
  Port_newRing p k t i =
    mkRing t (2 ^ Log2RingSize (run_ p)) (Log2RingSize (run_ p)) 0 (zeros ringSize)
      (ring_offset (run_ p) t i).
Proof.
  intros [? ? ?] Hlog Hi. unfold Port_newRing, ring_offset, ring_bytes in *.
  set (mc := run_ p) in *. set (s := 2 ^ Log2RingSize mc) in *.
  assert (0 < s <= 2 ^ 30) as Hs
    by (split; [apply Z.pow_pos_nonneg; lia|apply Z.pow_le_mono_r; lia]).
  change (2 ^ 30) with 1073741824 in Hs. unfold ringSize, descSize.
  rewrite int_shl1_small by lia. fold s.
  rewrite (int64_small (128 + _)) by lia. rewrite (int64_small (i * _)) by nia.
  f_equal. destruct t.
  - rewrite int64_small by nia. lia.
  - rewrite (int64_small (NumQueuePairs mc * _)) by nia. rewrite int64_small by nia. lia.
Qed.

(** Rings that fit the 16-bit offset have a small size. *)
Lemma rings_log mc :
  mc_wf mc -> 0 < NumQueuePairs mc -> rings_bytes mc < 65536 -> Log2RingSize mc <= 10.
Proof.
  intros [? ? ?] Hn Hr. unfold rings_bytes, ring_bytes, ringSize, descSize in Hr.
  assert (0 < 2 ^ Log2RingSize mc) by (apply Z.pow_pos_nonneg; lia).
  assert (Log2RingSize mc < 11); [|lia].
  apply (Z.pow_lt_mono_r_iff 2); [lia|lia|]. change (2 ^ 11) with 2048. nia.
Qed.

(** A slot's descriptor decodes to its buffer. *)
Lemma decode_slot_desc mc p i :
  run_ p = mc -> mc_wf mc -> rings_bytes mc < 65536 -> rings_bytes mc + buffers_bytes mc < 4294967296 ->
  0 <= i < 2 * NumQueuePairs mc * 2 ^ Log2RingSize mc ->
  decode_desc (slot_desc p (rings_bytes mc) i) =
    mkDesc 0 0 (PacketBufferSize mc) (rings_bytes mc + i * PacketBufferSize mc) 0.
Proof.
  intros Hp [Hw1 Hw2 Hw3] Hr Ht Hi.
  assert (0 <= 2 ^ Log2RingSize mc) by (apply Z.pow_nonneg; lia).
  assert (0 <= rings_bytes mc) by (unfold rings_bytes, ring_bytes, ringSize, descSize; nia).
  assert (i < 65536) by (unfold rings_bytes, ring_bytes, ringSize, descSize in Hr; nia).
  assert (0 <= i * PacketBufferSize mc <= buffers_bytes mc) by (unfold buffers_bytes; nia).
  unfold slot_desc. rewrite Hp.
  rewrite decode_setOffset by auto 10 with desc. cbv zeta.
  rewrite decode_setLength by auto 10 with desc. cbv zeta.
  rewrite decode_setRegion by auto 10 with desc. cbv zeta.
  rewrite decode_setFlags by auto 10 with desc. cbv zeta.
  cbn [d_flags d_region d_length d_offset d_metadata].
  rewrite (u32_small i) by lia. rewrite (u32_small (i * _)) by lia.
  rewrite (u32_small (_ + _)) by nia. rewrite (u32_small (PacketBufferSize mc)) by lia.
  rewrite ?(u32_small (_ + _)) by nia. done.
Qed.

(** Different rings lie apart in the ring area. *)
Lemma rings_disjoint p t i :
  let mc := run_ p in
  mc_wf mc -> Log2RingSize mc <= 10 -> 0 <= i < NumQueuePairs mc ->
  let r := Port_newRing p 0 t i in
  0 <= rg_offset r /\ rg_offset r + ringSize + rg_size r * descSize <= rings_bytes mc /\
  forall t' i', 0 <= i' < NumQueuePairs mc -> (t, i) <> (t', i') ->
    let r' := Port_newRing p 0 t' i' in
    rg_offset r + ringSize + rg_size r * descSize <= rg_offset r' \/
    rg_offset r' + ringSize + rg_size r' * descSize <= rg_offset r.
Proof.
  intros mc Hw Hlog Hi. cbv zeta. rewrite Port_newRing_exact by (done || (fold mc; lia)).
  assert (0 < 2 ^ Log2RingSize mc) as Hs by (apply Z.pow_pos_nonneg; destruct Hw; lia).
  cbn [rg_offset rg_size]. fold mc. unfold ring_offset, rings_bytes.
  assert (ringSize + 2 ^ Log2RingSize mc * descSize = ring_bytes mc) as Hrb by (unfold ring_bytes; lia).
  assert (0 < ring_bytes mc) by (unfold ringSize, descSize in Hrb; lia).
  split; [destruct t; nia|]. split; [destruct t; nia|].
  intros t' i' Hi' Hne. rewrite Port_newRing_exact by (done || (fold mc; lia)). cbn [rg_offset rg_size]. fold mc. unfold ring_offset.
  assert ((match t with ringTypeS2M => 0 | ringTypeM2S => NumQueuePairs mc end + i) <>
          (match t' with ringTypeS2M => 0 | ringTypeM2S => NumQueuePairs mc end + i')) as Hne'.
  { intros He. apply Hne. destruct t, t'; (f_equal; lia) || lia. }
  revert Hne'. generalize (match t with ringTypeS2M => 0 | ringTypeM2S => NumQueuePairs mc end + i).
  generalize (match t' with ringTypeS2M => 0 | ringTypeM2S => NumQueuePairs mc end + i').
  intros a b Hab. destruct (Z.lt_ge_cases a b); [right|left]; nia.
Qed.

(** Different slots' buffers lie apart, behind the rings. *)
Lemma slots_disjoint mc slot :
  mc_wf mc -> 0 <= slot < 2 * NumQueuePairs mc * 2 ^ Log2RingSize mc ->
  let at_ i := rings_bytes mc + i * PacketBufferSize mc in
  rings_bytes mc <= at_ slot /\ at_ slot + PacketBufferSize mc <= rings_bytes mc + buffers_bytes mc /\
  forall slot', slot <> slot' ->
    at_ slot + PacketBufferSize mc <= at_ slot' \/ at_ slot' + PacketBufferSize mc <= at_ slot.
Proof.
  intros [_ _ Hw] Hi. cbv zeta. unfold buffers_bytes. split; [nia|]. split; [nia|].
  intros slot' Hne. destruct (Z.lt_ge_cases slot slot'); [left|right]; nia.
Qed.

(** ** Writing one ring *)

(** Documented behaviour of [eventfd2(2)]: mapped files are not touched. *)
Class OSEventfd (os : OS) := {
  sys_eventfd_mem : forall v fl m s, snd (fst (sys (SysEventfd v fl) m s)) = m
}.
#[export] Instance demo_os_eventfd : OSEventfd demo_os.
Proof. split. reflexivity. Defined.

(** All of a slice is backed by its file. *)
Definition backed (m : mem) (d : slice) : Prop := is_Some (ld m (s_file d) (s_off d) (s_len d)).

Lemma backed_sub m d a k :
  backed m d -> 0 <= a -> 0 <= k -> a + k <= s_len d -> is_Some (ld m (s_file d) (s_off d + a) k).
Proof. intros [bs Hb] ???. eexists. by eapply ld_sub. Qed.

(** The header [initializeQueues] writes. *)
Definition fresh_header : ringBuf := put16 ringFlagsOffset 1 (put32 ringCookieOffset cookie (zeros ringSize)).

(** A freshly written ring at offset [o] of [d]: header, and [n] descriptors
    pointing at consecutive buffers from [pbo]. *)
Record fresh_ring (m : mem) (p : Port) (d : slice) (o n pbo : Z) : Prop := {
  fr_header : ld m (s_file d) (s_off d + o) ringSize = Some fresh_header;
  fr_descs : forall i, 0 <= i < n ->
    ld m (s_file d) (s_off d + o + ringSize + i * descSize) descSize = Some (slot_desc p pbo i)
}.

Lemma slot_desc_wf p pbo i : descBuf_wf (slot_desc p pbo i).
Proof. unfold slot_desc. auto 10 with desc. Qed.

Section init.
Context `{OS} `{!OSEventfd _}.
Implicit Type w : world.

Lemma wp_eventFd w (Q : Z * option goerror -> world -> Prop) :
  (forall r k, Q r (mkWorld (shm w) k)) -> wp eventFd w Q.
Proof using OSEventfd0.
  intros HQ. unfold eventFd. apply wp_bind. unfold wp, syscall_. simpl.
  pose proof (sys_eventfd_mem 0 efd_nonblock (shm w) (kernel w)) as Hm.
  destruct (sys (SysEventfd 0 efd_nonblock) (shm w) (kernel w)) as [[x m] k].
  simpl in *. subst m. destruct x; apply HQ.
Qed.

Section ring.
Context (p : Port) (q : Queue) (d : slice) (n : Z) (Hat : ring_at p q d n).
Context (r0 : memoryRegion) (rs : list memoryRegion) (Hreg : regions p = r0 :: rs).

Lemma wp_putRing w (Q : unit -> world -> Prop) :
  ringBuf_wf (q_ring q) -> backed (shm w) d ->
  (forall m, st (shm w) (s_file d) (hdr q d) (rb (q_ring q)) = Some m -> Q tt (mkWorld m (kernel w))) ->
  wp (putRing p q) w Q.
Proof using Hat.
  intros Hb Hd HQ. pose proof (ra_len _ _ _ _ Hat). pose proof (ra_n _ _ _ _ Hat).
  pose proof (ra_off _ _ _ _ Hat). unfold ringBuf_wf in Hb.
  apply wp_bind, (wp_ring_data_from p q d n Hat); [lay|]. apply wp_bind.
  destruct (st_is_Some (shm w) (s_file d) (hdr q d) (rb (q_ring q))) as [m Hm].
  { rewrite Hb. unfold hdr. apply backed_sub; [done|lay..]. }
  eapply wp_copy_to; simpl; [|exact (HQ m Hm)].
  rewrite Hb, Z.min_r by lay. rewrite <- Hb at 1. rewrite sub_full, Z.add_0_r. exact Hm.
Qed.

(** The descriptor loop of queue 0. *)
Lemma wp_init_descs k j w (Q : unit -> world -> Prop) :
  0 <= j -> j + Z.of_nat k = n -> n < 2 ^ 63 -> backed (shm w) d ->
  (forall m, backed m d ->
     (forall i, j <= i < n ->
        ld m (s_file d) (desc_addr q d i) descSize = Some (slot_desc p (packetBufferOffset r0) i)) ->
     (forall f o z, disj (s_file d) (desc_addr q d j) ((n - j) * descSize) f o z ->
        ld m f o z = ld (shm w) f o z) ->
     Q tt (mkWorld m (kernel w))) ->
  wp (init_descs p q 0 k j) w Q.
Proof using Hat Hreg.
  revert j w. induction k as [|k IH]; intros j w Hj Hk Hn Hb HQ; cbn [init_descs].
  { apply wp_ret. destruct w as [m0 k0]. apply HQ; [done|intros; lia|done]. }
  rewrite Z.mul_0_l, Z.add_0_l, int64_small, Hreg by lia.
  pose proof (ra_len _ _ _ _ Hat). pose proof (ra_off _ _ _ _ Hat).
  set (db := slot_desc p (packetBufferOffset r0) j).
  assert (zlen db = descSize) as Hdb by apply slot_desc_wf.
  destruct (st_is_Some (shm w) (s_file d) (desc_addr q d j) db) as [m Hm].
  { rewrite Hdb. unfold desc_addr, hdr. rewrite <- !Z.add_assoc. apply backed_sub; [done|lay..]. }
  apply wp_bind. eapply (wp_putDescBuf p q d n Hat); [lia|exact Hdb|exact Hm|].
  apply IH; simpl; [lia..| |].
  { by eapply st_ld_valid. }
  intros m' Hb' Hd' Hf'. apply HQ; [done| |].
  - intros i Hi. destruct (decide (i = j)) as [->|]; [|apply Hd'; lia].
    rewrite Hf' by (right; right; lay). fold db. rewrite <- Hdb. by eapply ld_st_same.
  - intros f o z Hd. rewrite Hf'.
    + eapply ld_st_disj; [done|]. rewrite Hdb. destruct Hd as [?|[?|?]]; [by left|right..]; lay.
    + destruct Hd as [?|[?|?]]; [by left|right..]; lay.
Qed.
End ring.
End init.

(** ** One queue pair *)

(** The layout of ring 0 of direction [t] in a client's region mapped by [d]. *)
Definition client_layout (mc : MemoryConfig) (d : slice) (t : ringType) : layout :=
  mkLayout (s_file d) (s_off d + ring_offset mc t 0) (Log2RingSize mc) (PacketBufferSize mc)
    (fun _ => 0) (fun i => rings_bytes mc + i * PacketBufferSize mc)
    (fun _ => s_file d) (fun i => s_off d + (rings_bytes mc + i * PacketBufferSize mc)).

(** The ring [initializeQueues] makes. *)
Definition client_ring (mc : MemoryConfig) (t : ringType) : ring :=
  mkRing t (2 ^ Log2RingSize mc) (Log2RingSize mc) 0 fresh_header (ring_offset mc t 0).

(** Configurations with one queue pair whose rings fit the 16-bit offset and
    whose region fits 32 bits; the default configuration is one. *)
Record one_pair (mc : MemoryConfig) : Prop := {
  op_wf : mc_wf mc;
  op_pairs : NumQueuePairs mc = 1;
  op_rings : rings_bytes mc < 65536;
  op_total : rings_bytes mc + buffers_bytes mc < 4294967296;
  op_size : 0 < PacketBufferSize mc
}.

Lemma default_one_pair :
  one_pair (mkMemoryConfig DefaultNumQueuePairs DefaultLog2RingSize DefaultPacketBufferSize).
Proof. split; try done. Qed.

Section one_pair.
Context (mc : MemoryConfig) (Hmc : one_pair mc).

Lemma op_slots : 0 < 2 ^ Log2RingSize mc < 2048.
Proof using Hmc.
  destruct Hmc as [[? ? ?] Hp Hr _ _]. unfold rings_bytes, ring_bytes, ringSize, descSize in Hr.
  rewrite Hp in Hr. split; [apply Z.pow_pos_nonneg; lia|lia].
Qed.

Lemma op_log : 0 <= Log2RingSize mc <= 10.
Proof using Hmc.
  pose proof op_slots. destruct Hmc as [[? ? ?] _ _ _ _]. split; [lia|].
  assert (Log2RingSize mc < 11); [|lia].
  apply (Z.pow_lt_mono_r_iff 2); [lia|lia|]. change (2 ^ 11) with 2048. lia.
Qed.

Lemma op_rings_eq : rings_bytes mc = 2 * ring_bytes mc.
Proof using Hmc. unfold rings_bytes. rewrite (op_pairs _ Hmc). lia. Qed.

Lemma op_ring_bytes : ring_bytes mc = 128 + 16 * 2 ^ Log2RingSize mc.
Proof using. done. Qed.

Lemma op_offset t : ring_offset mc t 0 = match t with ringTypeS2M => 0 | ringTypeM2S => ring_bytes mc end.
Proof using Hmc. unfold ring_offset. rewrite (op_pairs _ Hmc). destruct t; lia. Qed.

Lemma op_buffers : buffers_bytes mc = 2 * (2 ^ Log2RingSize mc * PacketBufferSize mc).
Proof using Hmc. unfold buffers_bytes. rewrite (op_pairs _ Hmc). lia. Qed.

Lemma client_layout_wf d t : layout_wf (client_layout mc d t).
Proof using Hmc.
  pose proof op_slots. pose proof op_log. pose proof op_rings_eq. pose proof op_ring_bytes.
  pose proof (op_offset t) as Ho. pose proof (op_size _ Hmc). pose proof (mw_size _ (op_wf _ Hmc)).
  split; unfold client_layout, l_size; simpl.
  - lia.
  - lia.
  - intros i Hi. right. left. unfold ringSize, descSize. destruct t; nia.
  - intros i j Hi Hj Hne. right. destruct (Z.lt_ge_cases i j); [left|right]; nia.
Qed.

(** A fresh ring satisfies the invariant as an empty link. *)
Lemma fresh_ring_inv t m p d pp cq :
  run_ p = mc -> backed m d -> s_len d = rings_bytes mc + buffers_bytes mc ->
  fresh_ring m p d (ring_offset mc t 0) (2 ^ Log2RingSize mc) (rings_bytes mc) ->
  last_of t cq = 0 ->
  match t with
  | ringTypeS2M => PacketBufferSize (run_ pp) = PacketBufferSize mc /\ IsServer (cfg pp) = false
  | ringTypeM2S => PacketBufferSize mc < 65536
  end ->
  ring_inv t (client_layout mc d t) pp m cq 0 0
    (match t with ringTypeS2M => 2 ^ Log2RingSize mc | ringTypeM2S => 0 end) [].
Proof using Hmc.
  intros Hp Hb Hlen [Hh Hd] Hl Hside. set (L := client_layout mc d t).
  pose proof op_slots. pose proof op_rings_eq. pose proof op_ring_bytes. pose proof op_buffers.
  pose proof (op_size _ Hmc). pose proof (mw_size _ (op_wf _ Hmc)).
  assert (Hfield : forall o, 0 <= o -> o + 2 <= ringSize ->
    ld m (l_file L) (l_hdr L + o) 2 = Some (sub o 2 fresh_header)).
  { intros. by eapply ld_sub. }
  assert (Hslot : forall i, 0 <= i < l_size L ->
    has_desc L m i 0 (PacketBufferSize mc) /\ buf_valid L m i).
  { intros i Hi. split.
    - assert (0 <= i < 2 * NumQueuePairs mc * 2 ^ Log2RingSize mc) as Hi2
        by (rewrite (op_pairs _ Hmc); unfold l_size in Hi; cbn in Hi; lia).
      pose proof (decode_slot_desc mc p i Hp (op_wf _ Hmc) (op_rings _ Hmc) (op_total _ Hmc) Hi2) as Hdec.
      exists (slot_desc p (rings_bytes mc) i). split; [by apply Hd|].
      split; [exact (f_equal d_flags Hdec)|]. split; [exact (f_equal d_region Hdec)|].
      split; [exact (f_equal d_length Hdec)|exact (f_equal d_offset Hdec)].
    - unfold buf_valid. apply backed_sub; [done|..];
        unfold L, client_layout, l_size in *; simpl in *; nia. }
  split; try done.
  - split; try done.
    + unfold L, client_layout, l_size; simpl. lia.
    + intros i Hi. destruct (Hslot i Hi). split; eauto.
    + rewrite Hfield by done. eauto.
  - unfold L, client_layout, l_size; simpl. destruct t; lia.
  - rewrite Hfield by (by destruct t). by destruct t.
  - rewrite Hfield by (by destruct t). by destruct t.
  - intros x Hx. destruct t; [|lia]. destruct Hside as [Hs1 Hs2].
    pose proof (sl_range L (client_layout_wf d _) x) as Hr.
    destruct (Hslot _ Hr) as [Hd1 Hv]. split; [|done]. eexists _, _. split; [done|]. by rewrite Hs2.
  - destruct t; [unfold L, client_layout, l_size; simpl; lia|].
    intros i Hi. destruct (Hslot i Hi). eexists _, _. split; [done|lia].
Qed.
End one_pair.

(** ** initializeQueues for one pair *)

Definition with_queue (t : ringType) (q : Queue) (p : Port) : Port :=
  match t with
  | ringTypeS2M => set_txQueues (txQueues p ++ [q]) p
  | ringTypeM2S => set_rxQueues (rxQueues p ++ [q]) p
  end.

Section init_one_pair.
Context `{OS} `{!OSEventfd _} (mc : MemoryConfig) (Hmc : one_pair mc) (d : slice) (pid : nat).
Context (Hd : s_len d = rings_bytes mc + buffers_bytes mc).
Implicit Types (w : world) (p : Port).

(** The port as [addRegion] left it. *)
Record has_region (p : Port) : Prop := {
  hr_run : run_ p = mc;
  hr_reg : exists f sz, regions p = [mkRegion (Some d) sz f (rings_bytes mc)]
}.

(** Any port that maps the region as [d] sees the layout through a queue whose
    ring is the client's, but for the private copy of the header. *)
Definition sees_region (p : Port) : Prop :=
  exists reg, regions p !! 0%nat = Some reg /\ data reg = Some d.

Lemma ring_end_at p q t b :
  sees_region p -> q_ring q = set_rb b (client_ring mc t) -> ring_at p q d (2 ^ Log2RingSize mc).
Proof using Hmc Hd.
  intros (reg & Hg & Hdata) Hq. pose proof (op_offset mc Hmc t) as Ho.
  pose proof (op_slots mc Hmc). pose proof (op_rings_eq mc Hmc). pose proof (op_ring_bytes mc).
  pose proof (op_buffers mc Hmc). pose proof (op_size _ Hmc).
  assert (0 <= 2 ^ Log2RingSize mc * PacketBufferSize mc) by nia.
  split; rewrite ?Hq; simpl; rewrite ?Ho; unfold ringSize, descSize.
  - done.
  - by exists reg.
  - destruct t; lia.
  - destruct t; lia.
  - lia.
Qed.

Lemma ring_end_side p q t b :
  sees_region p -> q_ring q = set_rb b (client_ring mc t) -> side (client_layout mc d t) p q d.
Proof using Hmc Hd.
  intros Hp Hq. pose proof (ring_end_at p q t b Hp Hq) as Hat.
  pose proof (op_buffers mc Hmc). pose proof (op_size _ Hmc). pose proof (op_rings_eq mc Hmc).
  pose proof (op_ring_bytes mc). pose proof (op_slots mc Hmc).
  split; try done.
  - unfold hdr. by rewrite Hq.
  - by rewrite Hq.
  - intros i Hi. split; [done|]. destruct Hp as (reg & Hg & Hdata).
    exists reg, d. unfold client_layout, l_size in *. simpl in *.
    split; [done|]. split; [done|]. split; [done|]. split; [done|]. split; nia.
Qed.

Lemma has_region_sees p : has_region p -> sees_region p.
Proof using. intros [_ (f & sz & Hg)]. unfold sees_region. rewrite Hg. by eexists. Qed.

Lemma client_ring_at p q t :
  has_region p -> q_ring q = client_ring mc t -> ring_at p q d (2 ^ Log2RingSize mc).
Proof using Hmc Hd. intros Hp Hq. by apply (ring_end_at p q t fresh_header); [apply has_region_sees|]. Qed.

Lemma client_side p q t :
  has_region p -> q_ring q = client_ring mc t -> side (client_layout mc d t) p q d.
Proof using Hmc Hd. intros Hp Hq. by apply (ring_end_side p q t fresh_header); [apply has_region_sees|]. Qed.

(** What the port and memory look like after ring [t] was written. *)
Lemma wp_init_queue p t w (Q : Port * option goerror -> world -> Prop) :
  has_region p -> backed (shm w) d ->
  (forall q m k, q_ring q = client_ring mc t -> q_port q = pid -> lastHead q = 0 -> lastTail q = 0 ->
     backed m d ->
     fresh_ring m p d (ring_offset mc t 0) (2 ^ Log2RingSize mc) (rings_bytes mc) ->
     (forall f o z, disj (s_file d) (s_off d + ring_offset mc t 0) (ring_bytes mc) f o z ->
        ld m f o z = ld (shm w) f o z) ->
     Q (with_queue t q p, None) (mkWorld m k)) ->
  (forall e k, Q (p, Some e) (mkWorld (shm w) k)) ->
  wp (init_queue pid p t 0) w Q.
Proof using Hmc Hd OSEventfd0.
  intros Hp Hb Hok Herr. pose proof (op_slots mc Hmc). pose proof (op_pairs _ Hmc).
  destruct (hr_reg _ Hp) as (f0 & sz & Hg). pose proof (hr_run _ Hp) as Hr.
  unfold init_queue.
  pose proof (op_log mc Hmc).
  rewrite Port_newRing_exact by (rewrite ?Hr; apply Hmc || lia). rewrite Hr.
  change (RingBuf.setFlags 1 _) with (client_ring mc t).
  apply wp_bind, wp_eventFd. intros [efd [e|]] k; [apply wp_ret, Herr|]. cbv beta iota zeta.
  set (q := mkQueue (client_ring mc t) pid 0 0 efd).
  pose proof (client_ring_at p q t Hp eq_refl) as Hat.
  apply wp_bind. eapply (wp_putRing p q d _ Hat); simpl; [done|done|]. intros m Hm.
  assert (has_region (with_queue t q p)) as Hp'
    by (destruct t; (split; [done|by exists f0, sz])).
  change (match t with ringTypeS2M => _ | ringTypeM2S => _ end) with (with_queue t q p).
  pose proof (client_ring_at _ q t Hp' eq_refl) as Hat'.
  assert (backed m d) as Hbm by (by eapply st_ld_valid).
  apply wp_bind. eapply (wp_init_descs (with_queue t q p) q d _ Hat'); simpl;
    [by destruct t|lia|lia|lia|done|].
  intros m2 Hb2 Hd2 Hf2. apply wp_ret.
  assert (Hdesc : forall i, desc_addr q d i = s_off d + ring_offset mc t 0 + ringSize + i * descSize) by done.
  assert (Hsd : forall i, slot_desc (with_queue t q p) (rings_bytes mc) i = slot_desc p (rings_bytes mc) i)
    by (intros; by destruct t).
  apply Hok; try done.
  - split.
    + rewrite Hf2 by (rewrite Hdesc; right; right; lay).
      change ringSize with (zlen fresh_header). by eapply ld_st_same.
    + intros i Hi. rewrite <- Hdesc, <- Hsd. by apply Hd2.
  - intros f o z Hdj. rewrite Hf2.
    + eapply ld_st_disj; [exact Hm|]. change (zlen _) with 128. unfold hdr. simpl.
      unfold ring_bytes in Hdj. destruct Hdj as [?|[?|?]]; [by left|right..]; lay.
    + rewrite Hdesc. unfold ring_bytes in Hdj. destruct Hdj as [?|[?|?]]; [by left|right..]; lay.
Qed.

(** The state [initializeQueues] ends in. *)
Definition queues_ready (p p' : Port) (m : mem) : Prop :=
  exists tq rq,
    txQueues p' = txQueues p ++ [tq] /\ rxQueues p' = rxQueues p ++ [rq] /\
    regions p' = regions p /\ cfg p' = cfg p /\ run_ p' = run_ p /\
    lastHead tq = 0 /\ lastTail tq = 0 /\ lastHead rq = 0 /\ lastTail rq = 0 /\
    q_ring tq = client_ring mc ringTypeS2M /\ q_ring rq = client_ring mc ringTypeM2S /\
    backed m d /\
    side (client_layout mc d ringTypeS2M) p' tq d /\
    side (client_layout mc d ringTypeM2S) p' rq d /\
    fresh_ring m p d (ring_offset mc ringTypeS2M 0) (2 ^ Log2RingSize mc) (rings_bytes mc) /\
    fresh_ring m p d (ring_offset mc ringTypeM2S 0) (2 ^ Log2RingSize mc) (rings_bytes mc).

Lemma wp_initializeQueues p w :
  has_region p -> backed (shm w) d ->
  wp (initializeQueues pid p) w (fun a w' =>
    a.2 = None -> queues_ready p a.1 (shm w')).
Proof using Hmc Hd OSEventfd0.
  intros Hp Hb. destruct (hr_reg _ Hp) as (f0 & sz & Hg). pose proof (hr_run _ Hp) as Hr.
  unfold initializeQueues. rewrite Hr, (op_pairs _ Hmc). change (Z.to_nat 1) with 1%nat.
  cbn [init_queues]. apply wp_bind, wp_bind. apply wp_init_queue; [done|done| |].
  2: { intros e k. apply wp_ret. by apply wp_ret. }
  intros tq m k Htq Htp Ht1 Ht2 Hbm Hfr Hframe. apply wp_ret. cbv beta iota.
  assert (has_region (with_queue ringTypeS2M tq p)) as Hp1 by (split; [done|by exists f0, sz]).
  apply wp_bind. apply wp_init_queue; [done|done| |].
  2: { intros e k'. by apply wp_ret. }
  intros rq m2 k2 Hrq Hrp Hr1 Hr2 Hbm2 Hfr2 Hframe2. apply wp_ret. intros _.
  assert (has_region (with_queue ringTypeM2S rq (with_queue ringTypeS2M tq p))) as Hp2
    by (split; [done|by exists f0, sz]).
  exists tq, rq. repeat (split; [done|]).
  split; [by apply client_side|]. split; [by apply client_side|]. split; [|by destruct Hfr2; split].
  pose proof (op_offset mc Hmc ringTypeS2M) as Ho1. pose proof (op_offset mc Hmc ringTypeM2S) as Ho2.
  pose proof (op_ring_bytes mc). rewrite Ho1, Ho2 in *. destruct Hfr as [Hh Hds]. simpl in *.
  split.
  - rewrite Hframe2; [done|]. right; right. unfold ringSize. pose proof (op_slots mc Hmc). lia.
  - intros i Hi. rewrite Hframe2; [by apply Hds|]. right; right. unfold ringSize, descSize. lia.
Qed.
End init_one_pair.

(** ** Theorems *)

(** C22: while the rings fit in 16 bits and the region in 32, the arithmetic of
    addRegion, newRing and initializeQueues lays the region out without overlap:
    [packetBufferOffset] is the total size of the rings and the region holds rings
    and buffers exactly; every ring lies in the ring area, and different rings do
    not overlap; the buffer that the descriptor of a slot designates lies between
    the rings and the end of the region, and different slots have buffers that do
    not overlap.  (There are as many slots as descriptors of both directions, but
    the two directions use the same ones: C36.) *)
Theorem region_layout p :
  let mc := run_ p in
  mc_wf mc -> 0 < NumQueuePairs mc -> rings_bytes mc < 65536 ->
  rings_bytes mc + buffers_bytes mc < 4294967296 ->
  let size := region_size (ring_area mc) mc in
  let buffer slot := d_offset (decode_desc (slot_desc p (ring_area mc) slot)) in
  ring_area mc = rings_bytes mc /\ size = rings_bytes mc + buffers_bytes mc /\
  (forall t i, 0 <= i < NumQueuePairs mc ->
    let r := Port_newRing p 0 t i in
    0 <= rg_offset r /\ rg_offset r + ringSize + rg_size r * descSize <= ring_area mc /\
    forall t' i', 0 <= i' < NumQueuePairs mc -> (t, i) <> (t', i') ->
      let r' := Port_newRing p 0 t' i' in
      rg_offset r + ringSize + rg_size r * descSize <= rg_offset r' \/
      rg_offset r' + ringSize + rg_size r' * descSize <= rg_offset r) /\
  (forall slot, 0 <= slot < 2 * NumQueuePairs mc * 2 ^ Log2RingSize mc ->
    d_length (decode_desc (slot_desc p (ring_area mc) slot)) = PacketBufferSize mc /\
    ring_area mc <= buffer slot /\ buffer slot + PacketBufferSize mc <= size /\
    forall slot', 0 <= slot' < 2 * NumQueuePairs mc * 2 ^ Log2RingSize mc -> slot <> slot' ->
      buffer slot + PacketBufferSize mc <= buffer slot' \/
      buffer slot' + PacketBufferSize mc <= buffer slot).
Proof.
  intros mc Hw Hn Hr Ht size buffer. pose proof (rings_log mc Hw Hn Hr) as Hlog.
  assert (0 < 2 ^ Log2RingSize mc) as Hs by (apply Z.pow_pos_nonneg; destruct Hw; lia).
  assert (2 ^ Log2RingSize mc <= 2 ^ 10) as Hs2 by (apply Z.pow_le_mono_r; lia).
  change (2 ^ 10) with 1024 in Hs2.
  assert (2 * NumQueuePairs mc < 65536) as Hn2.
  { unfold rings_bytes, ring_bytes, ringSize, descSize in Hr. nia. }
  split; [by apply ring_area_exact|].
  assert (size = rings_bytes mc + buffers_bytes mc) as Hsize.
  { apply region_size_exact; try done; [rewrite ring_area_exact by done; lia|lia]. }
  split; [exact Hsize|]. split.
  - intros t i Hi. cbv zeta. rewrite ring_area_exact by done. by apply rings_disjoint.
  - intros slot Hi. unfold buffer. rewrite Hsize, ring_area_exact by done.
    rewrite (decode_slot_desc mc p slot) by done. cbn [d_offset d_length].
    destruct (slots_disjoint mc slot Hw Hi) as (? & ? & Hdj). split; [done|]. split; [done|]. split; [done|].
    intros slot' Hi' Hne. rewrite (decode_slot_desc mc p slot') by done. by apply Hdj.
Qed.

Definition mc_port (mc : MemoryConfig) : Port :=
  mkPort (mkPortCfg 0 false [] (zeros 24) mc (UserFunc 0) (UserFunc 1) None) mc None None [] [] [] [] []
    false false.

Definition default_mc : MemoryConfig :=
  mkMemoryConfig DefaultNumQueuePairs DefaultLog2RingSize DefaultPacketBufferSize.

Lemma region_layout_witness :
  let p := mc_port default_mc in
  let buffer slot := d_offset (decode_desc (slot_desc p 33024 slot)) in
  ring_area default_mc = 33024 /\ region_size 33024 default_mc = 4227328 /\
  (forall t i, 0 <= i < 1 ->
    let r := Port_newRing p 0 t i in
    0 <= rg_offset r /\ rg_offset r + 128 + rg_size r * 16 <= 33024 /\
    forall t' i', 0 <= i' < 1 -> (t, i) <> (t', i') ->
      let r' := Port_newRing p 0 t' i' in
      rg_offset r + 128 + rg_size r * 16 <= rg_offset r' \/
      rg_offset r' + 128 + rg_size r' * 16 <= rg_offset r) /\
  (forall slot, 0 <= slot < 2048 ->
    d_length (decode_desc (slot_desc p 33024 slot)) = 2048 /\
    33024 <= buffer slot /\ buffer slot + 2048 <= 4227328 /\
    forall slot', 0 <= slot' < 2048 -> slot <> slot' ->
      buffer slot + 2048 <= buffer slot' \/ buffer slot' + 2048 <= buffer slot).
Proof.
  apply (region_layout (mc_port default_mc)); try reflexivity.
  split; (split; [discriminate|reflexivity]).
Defined.

(** C35: once the rings need 64 KiB or more, the 16-bit [packetBufferOffset]
    wraps: packet buffers start inside the ring area, so the buffers of the first
    slots overlap the rings. *)
Theorem ring_area_overflow p :
  let mc := run_ p in
  mc_wf mc -> 0 < NumQueuePairs mc -> Log2RingSize mc <= 30 -> 65536 <= rings_bytes mc ->
  let r := Port_newRing p 0 ringTypeM2S (NumQueuePairs mc - 1) in
  ring_area mc < rg_offset r + ringSize + rg_size r * descSize.
Proof.
  intros mc Hw Hn Hlog Hr. cbv zeta. rewrite ring_area_mod by done.
  rewrite Port_newRing_exact by (done || (fold mc; lia)). simpl. fold mc.
  unfold ring_offset. pose proof (u16_range (rings_bytes mc)).
  unfold rings_bytes, ring_bytes in *. nia.
Qed.

(** The configuration of example/bw_test: two queue pairs, default ring size.
    The buffers start at byte 512 of a 66048-byte ring area. *)
Lemma ring_area_overflow_witness :
  ring_area (mkMemoryConfig 2 10 2048) = 512 /\
  512 < 3 * 16512 + 128 + 1024 * 16.
Proof.
  split; [reflexivity|].
  apply (ring_area_overflow (mc_port (mkMemoryConfig 2 10 2048))).
  - split; (split; [discriminate|reflexivity]).
  - reflexivity.
  - discriminate.
  - discriminate.
Defined.

(** C21: initializeQueues for one queue pair either reports an error or leaves
    two queues whose rings represent empty links: the transmit ring with a
    full lap of credit, the receive ring with none until the client's first
    read posts its buffers; the layouts are well formed and the client sees them
    through its queues. *)
Theorem initializeQueues_one_pair `{OS} `{!OSEventfd _} mc d pid p w :
  one_pair mc -> s_len d = rings_bytes mc + buffers_bytes mc ->
  run_ p = mc -> IsServer (cfg p) = false -> txQueues p = [] -> rxQueues p = [] ->
  (exists f sz, regions p = [mkRegion (Some d) sz f (rings_bytes mc)]) -> backed (shm w) d ->
  exists p' err w', run (initializeQueues pid p) w = Done (p', err) w' /\
    (err = None ->
     exists tq rq, txQueues p' = [tq] /\ rxQueues p' = [rq] /\
       (forall t, layout_wf (client_layout mc d t)) /\
       side (client_layout mc d ringTypeS2M) p' tq d /\
       side (client_layout mc d ringTypeM2S) p' rq d /\
       (forall cq, lastHead cq = 0 ->
          represents ringTypeS2M (client_layout mc d ringTypeS2M) p' (q_ring cq)
            (mkFifo [] (2 ^ Log2RingSize mc)) (shm w') cq) /\
       (PacketBufferSize mc < 65536 -> forall server,
          represents ringTypeM2S (client_layout mc d ringTypeM2S) server (q_ring rq)
            (mkFifo [] 0) (shm w') rq)).
Proof.
  intros Hmc Hd Hr Hs Htx Hrx Hreg Hb.
  pose proof (wp_initializeQueues mc Hmc d pid Hd p w) as Hwp.
  apply wp_done in Hwp as ([p' err] & w' & Hrun & Hq); [|by split|done].
  exists p', err, w'. split; [done|]. intros He. destruct (Hq He) as
    (tq & rq & Ht & Hx & Hrg & Hcf & Hrn & H1 & H2 & H3 & H4 & Hq1 & Hq2 & Hb' & S1 & S2 & F1 & F2).
  simpl in Ht, Hx, Hrg, Hcf, Hrn, S1, S2. exists tq, rq. rewrite Ht, Hx, Htx, Hrx. repeat (split; [done|]).
  split; [by apply client_layout_wf|]. repeat (split; [done|]). split.
  - intros cq Hl. split; [done|]. exists 0, 0.
    eapply (fresh_ring_inv mc Hmc ringTypeS2M _ p d); try done. by rewrite Hrn, Hcf, Hr.
  - intros Hpb server. split; [done|]. exists 0, 0.
    by eapply (fresh_ring_inv mc Hmc ringTypeM2S _ p d).
Qed.

Definition small_mc : MemoryConfig := mkMemoryConfig 1 1 4.
Definition small_data : slice := mkSlice 0 0 336.
Definition small_port : Port :=
  set_regions [mkRegion (Some small_data) 336 3 320] (mc_port small_mc).
Definition small_world : world := mkWorld {[ O := zeros 336 ]} (mkDemo 10 [] []).

Lemma small_one_pair : one_pair small_mc.
Proof. split; try done. Qed.

Lemma initializeQueues_one_pair_witness :
  exists p' err w', run (initializeQueues 0 small_port) small_world = Done (p', err) w' /\
    (err = None ->
     exists tq rq, txQueues p' = [tq] /\ rxQueues p' = [rq] /\
       (forall t, layout_wf (client_layout small_mc small_data t)) /\
       side (client_layout small_mc small_data ringTypeS2M) p' tq small_data /\
       side (client_layout small_mc small_data ringTypeM2S) p' rq small_data /\
       (forall cq, lastHead cq = 0 ->
          represents ringTypeS2M (client_layout small_mc small_data ringTypeS2M) p' (q_ring cq)
            (mkFifo [] 2) (shm w') cq) /\
       (PacketBufferSize small_mc < 65536 -> forall server,
          represents ringTypeM2S (client_layout small_mc small_data ringTypeM2S) server (q_ring rq)
            (mkFifo [] 0) (shm w') rq)).
Proof.
  apply (initializeQueues_one_pair small_mc small_data 0 small_port small_world).
  - exact small_one_pair.
  - reflexivity.
  - reflexivity.
  - reflexivity.
  - reflexivity.
  - reflexivity.
  - exists 3, 336. reflexivity.
  - exists (zeros 336). reflexivity.
Defined.

(** ** Evaluating the set-up *)

Definition empty_world : world := mkWorld ∅ (mkDemo 0 [] []).

Definition result_of {A} (r : outcome A) : option A :=
  match r with Done a _ => Some a | _ => None end.

(** The descriptors of transmit queue [i] after set-up. *)
Definition tx_descs (mc : MemoryConfig) (i : nat) (n : Z) : prog (option (list descriptor)) :=
  '(p, err) ← initializeRegions (mc_port mc);
  '(p, err') ← initializeQueues 0 p;
  match err, err', txQueues p !! i with
  | None, None, Some q =>
      ds ← (fix go (k : nat) (j : Z) : prog (list descriptor) :=
              match k with
              | O => mret []
              | S k =>
                  db ← getDescBuf p q j newDescBuf;
                  rest ← go k (j + 1);
                  mret (decode_desc db :: rest)
              end) (Z.to_nat n) 0;
      mret (Some ds)
  | _, _, _ => mret None
  end.

(** With two queue pairs the slot number of the second pair's descriptors
    is counted from the first ring but added to the second ring's offset: the
    first queue gets its descriptors, the second queue's descriptors stay blank
    (region 0, offset 0, length 0), so its packets go to the start of the
    region. *)
Theorem second_queue_descriptors_blank :
  result_of (run (tx_descs (mkMemoryConfig 2 1 4) 0 2) empty_world) =
    Some (Some [mkDesc 0 0 4 640 0; mkDesc 0 0 4 644 0]) /\
  result_of (run (tx_descs (mkMemoryConfig 2 1 4) 1 2) empty_world) =
    Some (Some [mkDesc 0 0 0 0 0; mkDesc 0 0 0 0 0]).
Proof. vm_compute. split; reflexivity. Qed.
