(* ===== verification/Wire.v ===== *)
(** * Control messages on the wire (control_msg.go, message types)

    A control message is a 16-bit type followed by one packed little-endian
    struct, as [encoding/binary] writes and reads it.  A [codec] is the pair of
    functions that library derives from a struct type; codecs of structs are
    composed from codecs of fields.  The class [Message] is what a message type
    promises to the control channel: its number, its codec, that the codec round
    trips, and that the message fits in the 128-byte datagram. *)
From stdpp Require Import base tactics list strings.
From coqutil Require Import Byte Word.LittleEndianList.
From Stdlib Require Import ZArith Lia.
From S2P Require Import Prelude.
From S2P Require Import GoInt.
From S2P Require Import Shm.
From S2P Require Import State.

Definition VersionMajor : Z := 2.
Definition VersionMinor : Z := 0.
Definition Version : Z := Z.lor (Z.shiftl VersionMajor 8) VersionMinor.

Definition msgType : Type := Z.
Definition msgTypeNone : msgType := 0.
Definition msgTypeAck : msgType := 1.
Definition msgTypeHello : msgType := 2.
Definition msgTypeInit : msgType := 3.
Definition msgTypeAddRegion : msgType := 4.
Definition msgTypeAddRing : msgType := 5.
Definition msgTypeConnect : msgType := 6.
Definition msgTypeConnected : msgType := 7.
Definition msgTypeDisconnect : msgType := 8.

Definition msgSize : Z := 128.
Definition msgTypeSize : Z := 2.
Definition msgAddRingFlagS2M : Z := 1.

(** ** [encoding/binary] with [binary.LittleEndian] *)

Record codec (A : Type) := mkCodec {
  c_size : Z;
  put : A -> list byte;
  get : list byte -> A
}.
Arguments mkCodec {A} c_size put get.
Arguments c_size {A} c.
Arguments put {A} c a.
Arguments get {A} c bs.

(** The laws, on the values [ok] a Go value of the type can take. *)
Record lawful {A} (c : codec A) (ok : A -> Prop) : Prop := mkLawful {
  law_size_nonneg : 0 <= c_size c;
  law_size : forall a, ok a -> zlen (put c a) = c_size c;
  law_get_put : forall a, ok a -> get c (put c a) = a;
  law_put_get : forall bs, zlen bs = c_size c -> put c (get c bs) = bs /\ ok (get c bs)
}.

Definition uint8 : codec Z := mkCodec 1 (le_split 1) le_combine.
Definition uint16 : codec Z := mkCodec 2 le16 unle.
Definition uint32 : codec Z := mkCodec 4 le32 unle.
Definition uint64 : codec Z := mkCodec 8 le64 unle.
(** [[n]byte] *)
Definition bytes (n : Z) : codec (list byte) := mkCodec n id id.

Definition pair_codec {A B} (a : codec A) (b : codec B) : codec (A * B) :=
  mkCodec (c_size a + c_size b) (fun x => put a x.1 ++ put b x.2)
    (fun bs => (get a (sub 0 (c_size a) bs), get b (sub (c_size a) (c_size b) bs))).
Infix "*c" := pair_codec (at level 41, right associativity).

(** A struct: [to] lists its fields in declaration order. *)
Definition struct_codec {A B} (c : codec B) (to : A -> B) (mk : B -> A) : codec A :=
  mkCodec (c_size c) (fun a => put c (to a)) (fun bs => mk (get c bs)).

(** [binary.Read(bytes.NewReader(bs), binary.LittleEndian, &x)] *)
Definition binary_read {A} (c : codec A) (bs : list byte) : A + goerror :=
  if zlen bs <? c_size c
  then inr (Err (if zlen bs =? 0 then "EOF" else "unexpected EOF"))
  else inl (get c (sub 0 (c_size c) bs)).

Section codec_laws.
Definition in_width (w : Z) (v : Z) : Prop := 0 <= v < 2 ^ w.

Lemma lawful_le n :
  lawful (mkCodec (Z.of_nat n) (le_split n) le_combine) (in_width (8 * Z.of_nat n)).
Proof.
  unfold in_width. split; simpl; [lia| | |].
  - intros a _. unfold zlen. by rewrite length_le_split.
  - intros a Ha. rewrite le_combine_split, Z.mul_comm. by apply Z.mod_small.
  - intros bs Hbs. unfold zlen in Hbs. assert (length bs = n) as <- by lia.
    split; [apply split_le_combine|]. pose proof (le_combine_bound bs). lia.
Qed.

Lemma lawful_uint8 : lawful uint8 (in_width 8). Proof. apply (lawful_le 1). Qed.
Lemma lawful_uint16 : lawful uint16 (in_width 16). Proof. apply (lawful_le 2). Qed.
Lemma lawful_uint32 : lawful uint32 (in_width 32). Proof. apply (lawful_le 4). Qed.
Lemma lawful_uint64 : lawful uint64 (in_width 64). Proof. apply (lawful_le 8). Qed.

Lemma lawful_bytes n : 0 <= n -> lawful (bytes n) (fun b => zlen b = n).
Proof. intros. by split. Qed.

Lemma lawful_pair {A B} (a : codec A) (b : codec B) P Q :
  lawful a P -> lawful b Q -> lawful (a *c b) (fun x => P x.1 /\ Q x.2).
Proof.
  intros Ha Hb. pose proof (law_size_nonneg _ _ Ha). pose proof (law_size_nonneg _ _ Hb).
  split; simpl; [lia| | |].
  - intros x [H1 H2]. rewrite zlen_app, (law_size _ _ Ha), (law_size _ _ Hb) by done. lia.
  - intros [x y] [H1 H2]; simpl in *.
    rewrite <- (law_size _ _ Ha x H1), <- (law_size _ _ Hb y H2).
    rewrite (sub_app_l (put a x)), (sub_app_r (put a x)).
    by rewrite (law_get_put _ _ Ha), (law_get_put _ _ Hb).
  - intros bs Hbs.
    destruct (law_put_get _ _ Ha (sub 0 (c_size a) bs)) as [Ea Pa]; [apply zlen_sub; lia|].
    destruct (law_put_get _ _ Hb (sub (c_size a) (c_size b) bs)) as [Eb Pb]; [apply zlen_sub; lia|].
    rewrite Ea, Eb. split; [|done].
    pose proof (sub_app_split 0 (c_size a) (c_size b) bs) as Hs. rewrite Z.add_0_l in Hs.
    rewrite Hs, <- Hbs by lia. apply sub_full.
Qed.

Lemma lawful_struct {A B} (c : codec B) (to : A -> B) (mk : B -> A) (P : A -> Prop) Q :
  lawful c Q -> (forall a, mk (to a) = a) -> (forall b, to (mk b) = b) ->
  (forall a, P a <-> Q (to a)) -> lawful (struct_codec c to mk) P.
Proof.
  intros Hc H1 H2 HP. split; simpl; [apply Hc| | |].
  - intros a Ha. by apply (law_size _ _ Hc), HP.
  - intros a Ha. rewrite (law_get_put _ _ Hc) by by apply HP. apply H1.
  - intros bs Hbs. destruct (law_put_get _ _ Hc bs Hbs) as [E Hq]. rewrite H2, E.
    split; [done|]. apply HP. by rewrite H2.
Qed.
End codec_laws.

(** ** The messages *)

Record MsgHello := mkMsgHello {
  hello_Name : list byte;     (* [32]byte *)
  VersionMin : Z;
  VersionMax : Z;
  MaxRegion : Z;
  MaxRingM2S : Z;
  MaxRingS2M : Z;
  MaxLog2RingSize : Z         (* uint8 *)
}.
Record MsgInit := mkMsgInit {
  init_Version : Z;
  init_Id : Z;                (* uint32 *)
  init_Mode : portMode;       (* uint8 *)
  init_Secret : list byte;    (* [24]byte *)
  init_Name : list byte       (* [32]byte *)
}.
Record MsgAddRegion := mkMsgAddRegion {
  region_Index : Z;
  region_Size : Z             (* uint64 *)
}.
Record MsgAddRing := mkMsgAddRing {
  ring_Flags : Z;
  ring_Index : Z;
  ring_Region : Z;
  ring_Offset : Z;            (* uint32 *)
  RingSizeLog2 : Z;           (* uint8 *)
  PrivateHdrSize : Z
}.
Record MsgConnect := mkMsgConnect { connect_Name : list byte }.
Record MsgConnected := mkMsgConnected { connected_Name : list byte }.
Record MsgDisconnect := mkMsgDisconnect {
  Code : Z;                   (* uint32 *)
  dc_String : list byte       (* [96]byte *)
}.

Definition hello_codec : codec MsgHello :=
  struct_codec (bytes 32 *c uint16 *c uint16 *c uint16 *c uint16 *c uint16 *c uint8)
    (fun h => (hello_Name h, (VersionMin h, (VersionMax h, (MaxRegion h, (MaxRingM2S h,
                 (MaxRingS2M h, MaxLog2RingSize h)))))))
    (fun '(n, (a, (b, (r, (m, (s, l)))))) => mkMsgHello n a b r m s l).
Definition init_codec : codec MsgInit :=
  struct_codec (uint16 *c uint32 *c uint8 *c bytes 24 *c bytes 32)
    (fun i => (init_Version i, (init_Id i, (init_Mode i, (init_Secret i, init_Name i)))))
    (fun '(v, (i, (m, (s, n)))) => mkMsgInit v i m s n).
Definition addRegion_codec : codec MsgAddRegion :=
  struct_codec (uint16 *c uint64) (fun a => (region_Index a, region_Size a))
    (fun '(i, s) => mkMsgAddRegion i s).
Definition addRing_codec : codec MsgAddRing :=
  struct_codec (uint16 *c uint16 *c uint16 *c uint32 *c uint8 *c uint16)
    (fun a => (ring_Flags a, (ring_Index a, (ring_Region a, (ring_Offset a,
                 (RingSizeLog2 a, PrivateHdrSize a))))))
    (fun '(f, (i, (r, (o, (l, p))))) => mkMsgAddRing f i r o l p).
Definition connect_codec : codec MsgConnect :=
  struct_codec (bytes 32) connect_Name mkMsgConnect.
Definition connected_codec : codec MsgConnected :=
  struct_codec (bytes 32) connected_Name mkMsgConnected.
Definition disconnect_codec : codec MsgDisconnect :=
  struct_codec (uint32 *c bytes 96) (fun d => (Code d, dc_String d))
    (fun '(c, s) => mkMsgDisconnect c s).

(** The values each Go struct can hold. *)
Definition hello_ok (h : MsgHello) : Prop :=
  zlen (hello_Name h) = 32 /\ in_width 16 (VersionMin h) /\ in_width 16 (VersionMax h) /\
  in_width 16 (MaxRegion h) /\ in_width 16 (MaxRingM2S h) /\ in_width 16 (MaxRingS2M h) /\
  in_width 8 (MaxLog2RingSize h).
Definition init_ok (i : MsgInit) : Prop :=
  in_width 16 (init_Version i) /\ in_width 32 (init_Id i) /\ in_width 8 (init_Mode i) /\
  zlen (init_Secret i) = 24 /\ zlen (init_Name i) = 32.
Definition addRegion_ok (a : MsgAddRegion) : Prop :=
  in_width 16 (region_Index a) /\ in_width 64 (region_Size a).
Definition addRing_ok (a : MsgAddRing) : Prop :=
  in_width 16 (ring_Flags a) /\ in_width 16 (ring_Index a) /\ in_width 16 (ring_Region a) /\
  in_width 32 (ring_Offset a) /\ in_width 8 (RingSizeLog2 a) /\ in_width 16 (PrivateHdrSize a).
Definition connect_ok (c : MsgConnect) : Prop := zlen (connect_Name c) = 32.
Definition connected_ok (c : MsgConnected) : Prop := zlen (connected_Name c) = 32.
Definition disconnect_ok (d : MsgDisconnect) : Prop :=
  in_width 32 (Code d) /\ zlen (dc_String d) = 96.

(** ** What a message type promises to the control channel *)

Class Message (M : Type) := {
  msg_type : msgType;
  msg_codec : codec M;
  msg_ok : M -> Prop;
  msg_lawful : lawful msg_codec msg_ok;
  msg_type_ok : in_width 16 msg_type;
  msg_fits : msgTypeSize + c_size msg_codec <= msgSize
}.

(** The codec laws of a struct, from those of its fields. *)
Ltac field_laws :=
  repeat first
    [ apply lawful_uint8 | apply lawful_uint16 | apply lawful_uint32 | apply lawful_uint64
    | apply lawful_bytes; lia | eapply lawful_pair ].
Ltac struct_laws :=
  eapply lawful_struct; [field_laws | by intros [] | | by intros []];
  let b := fresh "b" in
  intros b; repeat match type of b with (_ * _)%type => destruct b as [? b] end; done.

Lemma hello_lawful : lawful hello_codec hello_ok.
Proof. struct_laws. Qed.
Lemma init_lawful : lawful init_codec init_ok.
Proof. struct_laws. Qed.
Lemma addRegion_lawful : lawful addRegion_codec addRegion_ok.
Proof. struct_laws. Qed.
Lemma addRing_lawful : lawful addRing_codec addRing_ok.
Proof. struct_laws. Qed.
Lemma connect_lawful : lawful connect_codec connect_ok.
Proof. struct_laws. Qed.
Lemma connected_lawful : lawful connected_codec connected_ok.
Proof. struct_laws. Qed.
Lemma disconnect_lawful : lawful disconnect_codec disconnect_ok.
Proof. struct_laws. Qed.

#[export] Program Instance hello_message : Message MsgHello :=
  {| msg_type := msgTypeHello; msg_codec := hello_codec; msg_ok := hello_ok; msg_lawful := hello_lawful |}.
Solve Obligations with by vm_compute.
#[export] Program Instance init_message : Message MsgInit :=
  {| msg_type := msgTypeInit; msg_codec := init_codec; msg_ok := init_ok; msg_lawful := init_lawful |}.
Solve Obligations with by vm_compute.
#[export] Program Instance addRegion_message : Message MsgAddRegion :=
  {| msg_type := msgTypeAddRegion; msg_codec := addRegion_codec; msg_ok := addRegion_ok; msg_lawful := addRegion_lawful |}.
Solve Obligations with by vm_compute.
#[export] Program Instance addRing_message : Message MsgAddRing :=
  {| msg_type := msgTypeAddRing; msg_codec := addRing_codec; msg_ok := addRing_ok; msg_lawful := addRing_lawful |}.
Solve Obligations with by vm_compute.
#[export] Program Instance connect_message : Message MsgConnect :=
  {| msg_type := msgTypeConnect; msg_codec := connect_codec; msg_ok := connect_ok; msg_lawful := connect_lawful |}.
Solve Obligations with by vm_compute.
#[export] Program Instance connected_message : Message MsgConnected :=
  {| msg_type := msgTypeConnected; msg_codec := connected_codec; msg_ok := connected_ok; msg_lawful := connected_lawful |}.
Solve Obligations with by vm_compute.
#[export] Program Instance disconnect_message : Message MsgDisconnect :=
  {| msg_type := msgTypeDisconnect; msg_codec := disconnect_codec; msg_ok := disconnect_ok; msg_lawful := disconnect_lawful |}.
Solve Obligations with by vm_compute.

(** ** Writing and reading a message *)

(** [binary.Write(buf, binary.LittleEndian, msgTypeX); binary.Write(buf, ..., x)] *)
Definition write_msg {M} `{Message M} (x : M) : list byte :=
  put uint16 msg_type ++ put msg_codec x.

(** [binary.Read(bytes.NewReader(cc.data[msgTypeSize:]), binary.LittleEndian, &x)] *)
Definition read_msg (M : Type) `{Message M} (data : list byte) : M + goerror :=
  binary_read msg_codec (drop (Z.to_nat msgTypeSize) data).

(** [binary.Read(bytes.NewReader(cc.data[:]), binary.LittleEndian, &msgType)]: on
    an error (too few bytes) the variable keeps its zero value. *)
Definition read_type (data : list byte) : msgType :=
  match binary_read uint16 data with inl t => t | inr _ => 0 end.

Section message_lemmas.
Context {M} `{HM : Message M}.
Implicit Types (x : M) (data tail : list byte).

Lemma zlen_write_msg x : msg_ok x -> zlen (write_msg x) = msgTypeSize + c_size msg_codec.
Proof using. intros Hx. unfold write_msg. by rewrite zlen_app, (law_size _ _ msg_lawful). Qed.

Lemma read_type_write x tail : read_type (write_msg x ++ tail) = msg_type.
Proof using.
  unfold read_type, binary_read, write_msg. rewrite <- app_assoc.
  assert (Hs : zlen (put uint16 msg_type) = 2) by apply zlen_le16.
  rewrite (proj2 (Z.ltb_ge _ _)) by (rewrite zlen_app, Hs; cbn [c_size uint16]; zlia).
  change (c_size uint16) with 2. rewrite <- Hs, sub_app_l.
  apply (law_get_put _ _ lawful_uint16), msg_type_ok.
Qed.

Lemma read_write_msg x tail : msg_ok x -> read_msg M (write_msg x ++ tail) = inl x.
Proof using.
  intros Hx. pose proof (law_size _ _ msg_lawful x Hx) as Hs.
  unfold read_msg, write_msg. rewrite <- app_assoc.
  rewrite drop_app_length' by (pose proof (zlen_le16 msg_type); unfold msgTypeSize; zlia).
  unfold binary_read. rewrite (proj2 (Z.ltb_ge _ _)) by zlia.
  rewrite <- Hs, sub_app_l. f_equal. by apply (law_get_put _ _ msg_lawful).
Qed.

Lemma read_msg_full data :
  zlen data = msgSize ->
  exists x, read_msg M data = inl x /\ msg_ok x /\
    put msg_codec x = sub msgTypeSize (c_size msg_codec) data.
Proof using.
  intros Hd. pose proof msg_fits as Hf. pose proof (law_size_nonneg _ _ msg_lawful) as Hn.
  assert (zlen (drop (Z.to_nat msgTypeSize) data) = msgSize - msgTypeSize) as Hz.
  { unfold msgTypeSize, msgSize in *. zlia. }
  unfold read_msg, binary_read. rewrite (proj2 (Z.ltb_ge _ _)) by lia.
  set (bs := sub 0 _ _). exists (get msg_codec bs). split; [done|].
  assert (bs = sub msgTypeSize (c_size msg_codec) data) as <-.
  { subst bs. unfold sub at 1. rewrite drop_drop. done. }
  destruct (law_put_get _ _ msg_lawful bs) as [E Hok]; [apply zlen_sub; lia|]. done.
Qed.
End message_lemmas.

#[export] Hint Rewrite @read_type_write : zlen.

(** ** Theorems *)

(** C23: every control message survives the wire: its bytes fit in the 128-byte
    datagram, the receiver's type word is the sender's message type, and
    whatever follows the message in the datagram, reading the struct gives back
    the value written; for each of the seven message types. *)
Theorem message_round_trip {M} `{Message M} (x : M) tail :
  msg_ok x ->
  zlen (write_msg x) <= msgSize /\
  read_type (write_msg x ++ tail) = msg_type /\
  read_msg M (write_msg x ++ tail) = inl x.
Proof.
  intros Hx. rewrite zlen_write_msg, read_write_msg by done.
  split; [apply msg_fits|]. split; [apply read_type_write|done].
Qed.

Lemma message_round_trip_witness :
  let h := mkMsgHello (Byte.x67 :: zeros 31) 512 512 255 255 255 14 in
  zlen (write_msg h) <= 128 /\ read_type (write_msg h ++ zeros 83) = 2 /\
  read_msg MsgHello (write_msg h ++ zeros 83) = inl h.
Proof.
  refine (message_round_trip (mkMsgHello (Byte.x67 :: zeros 31) 512 512 255 255 255 14) (zeros 83) _).
  by vm_compute.
Defined.

(** Reading a message struct out of a full 128-byte datagram never fails,
    whatever the bytes: every field is in range, and the struct's own encoding is
    the part of the datagram it was read from, so no two datagrams that differ
    there are read alike. *)
Theorem message_read_total {M} `{Message M} data :
  zlen data = msgSize ->
  exists x, read_msg M data = inl x /\ msg_ok x /\
    put msg_codec x = sub msgTypeSize (c_size msg_codec) data.
Proof. apply read_msg_full. Qed.

Lemma message_read_total_witness :
  exists x, read_msg MsgAddRing (zeros 128) = inl x /\ addRing_ok x /\
    put addRing_codec x = zeros 13.
Proof. refine (message_read_total (M := MsgAddRing) (zeros 128) _). reflexivity. Defined.
