(* ===== verification/Heap.v ===== *)
(** * The control plane's state (socket.go, control_msg.go)

    A [Socket] owns its ports and control channels; all three are mutable
    objects that point at one another.  They live in one [state]: the socket,
    and two heaps of ports and of control channels indexed by object number.
    [container/list] elements are the object numbers themselves: each object is
    pushed once, on one list.

    Control-plane functions are in [M], state over the effects of [prog]; an
    [error] result stays a value, as in Go. *)
From stdpp Require Import base tactics list gmap strings pretty.
From coqutil Require Import Byte.
From Stdlib Require Import ZArith Lia.
From S2P Require Import Prelude.
From S2P Require Import GoInt.
From S2P Require Import Shm.
From S2P Require Import State.
From S2P Require Import Wire.

(** ** Data *)

Record controlMsg := mkControlMsg {
  Buffer : list byte;
  Fd : Z
}.

(** The [event]'s mask is always [EPOLLIN|EPOLLERR|EPOLLHUP]; [cc_fd] is its
    descriptor.  [cc_control] is what [control[:controlLen]] parses to. *)
Record controlChannel := mkControlChannel {
  cc_fd : Z;
  cc_port : option nat;
  cc_data : list byte;          (* [msgSize]byte *)
  cc_control : result (list cmsg);
  msgQueue : list controlMsg;
  isConnected : bool
}.

(** A [*listener] is nil or its event's descriptor. *)
Record Socket := mkSocket {
  appName : gostring;
  filename : gostring;
  listener : option Z;
  portList : list nat;
  ccList : list nat;
  epfd : Z;
  wakeEvent : Z
}.

Record state := mkState {
  socket : Socket;
  ports : gmap nat Port;
  ccs : gmap nat controlChannel;
  next : nat                    (* the next object's number *)
}.

Definition set_portList (l : list nat) (s : Socket) : Socket :=
  mkSocket (appName s) (filename s) (listener s) l (ccList s) (epfd s) (wakeEvent s).
Definition set_ccList (l : list nat) (s : Socket) : Socket :=
  mkSocket (appName s) (filename s) (listener s) (portList s) l (epfd s) (wakeEvent s).
Definition set_listener (l : option Z) (s : Socket) : Socket :=
  mkSocket (appName s) (filename s) l (portList s) (ccList s) (epfd s) (wakeEvent s).

Definition set_socket (k : Socket) (s : state) : state := mkState k (ports s) (ccs s) (next s).
Definition set_port (pid : nat) (p : Port) (s : state) : state :=
  mkState (socket s) (<[pid := p]> (ports s)) (ccs s) (next s).
Definition set_chan (c : nat) (x : controlChannel) (s : state) : state :=
  mkState (socket s) (ports s) (<[c := x]> (ccs s)) (next s).

Definition set_ccport (v : option nat) (c : controlChannel) : controlChannel :=
  mkControlChannel (cc_fd c) v (cc_data c) (cc_control c) (msgQueue c) (isConnected c).
Definition set_msgQueue (v : list controlMsg) (c : controlChannel) : controlChannel :=
  mkControlChannel (cc_fd c) (cc_port c) (cc_data c) (cc_control c) v (isConnected c).
Definition set_isConnected (v : bool) (c : controlChannel) : controlChannel :=
  mkControlChannel (cc_fd c) (cc_port c) (cc_data c) (cc_control c) (msgQueue c) v.
Definition set_received (d : list byte) (k : result (list cmsg)) (c : controlChannel) : controlChannel :=
  mkControlChannel (cc_fd c) (cc_port c) d k (msgQueue c) (isConnected c).

(** [list.Remove(e)]: no effect when [e] is no longer in the list. *)
Definition list_remove (x : nat) (l : list nat) : list nat := filter (fun y => y <> x) l.

(** [e.Next()]: nil once [e] was removed from its list. *)
Fixpoint list_next (x : nat) (l : list nat) : option nat :=
  match l with
  | [] => None
  | y :: l => if decide (y = x) then head l else list_next x l
  end.

(** ** The monad *)

Definition M (A : Type) : Type := state -> prog (A * state).

#[export] Instance M_ret : MRet M := fun A a s => mret (a, s).
#[export] Instance M_bind : MBind M := fun A B f m s => '(a, s') ← m s; f a s'.

Definition lift {A} (p : prog A) : M A := fun s => a ← p; mret (a, s).
Definition get_state : M state := fun s => mret (s, s).
Definition modify (f : state -> state) : M unit := fun s => mret (tt, f s).
Definition raise {A} (e : panic) : M A := fun _ => Panic e.

(** Dereferencing a pointer to a port or channel. *)
Definition get_port (pid : nat) : M Port :=
  fun s => match ports s !! pid with Some p => mret (p, s) | None => Panic NilDereference end.
Definition get_chan (c : nat) : M controlChannel :=
  fun s => match ccs s !! c with Some x => mret (x, s) | None => Panic NilDereference end.
Definition put_port (pid : nat) (p : Port) : M unit := modify (set_port pid p).
Definition put_chan (c : nat) (x : controlChannel) : M unit := modify (set_chan c x).
Definition mod_port (pid : nat) (f : Port -> Port) : M unit := p ← get_port pid; put_port pid (f p).
Definition mod_chan (c : nat) (f : controlChannel -> controlChannel) : M unit :=
  x ← get_chan c; put_chan c (f x).

(** [cc.port], dereferenced. *)
Definition chan_port (c : nat) : M nat :=
  x ← get_chan c;
  match cc_port x with Some pid => mret pid | None => raise NilDereference end.

(** [err = e; if err != nil { return w(err) }; k] *)
Definition check (e : M (option goerror)) (w : goerror -> goerror) (k : M (option goerror))
    : M (option goerror) :=
  err ← e;
  match err with Some x => mret (Some (w x)) | None => k end.
Notation "'try' e ;; k" := (check e id k) (at level 100, e at next level, right associativity).
Notation "'try' e 'or' w ;; k" :=
  (check e w k) (at level 100, e at next level, w at next level, right associativity).

(** ** Strings *)

(** A literal or rendered text as Go bytes, and Go bytes inside a message. *)
Definition bytes_of (s : string) : gostring := String.list_byte_of_string s.
Definition text_of (g : gostring) : string := String.string_of_list_byte g.

(** The operating system's message for an errno: [syscall.Errno.Error]. *)
Class ErrnoText := errno_text : errno -> string.

(** [err.Error()] *)
Fixpoint Error `{ErrnoText} (e : goerror) : string :=
  match e with
  | Err msg => msg
  | ErrErrno n => errno_text n
  | Wrap msg e => msg +:+ ": " +:+ Error e
  | ErrExtra e e1 =>
      Error e +:+ "%!(EXTRA string=: Failed to close control channel: , *errors.errorString=" +:+
      Error e1 +:+ ")"
  end.

(** ** Callbacks

    The application's functions; they may do anything to the state. *)
Class Callbacks := user_func : nat -> nat -> M (option goerror).

(** ** Equations

    Control-plane code that makes no system call is a function of the state;
    these equations evaluate it. *)

Section equations.
Implicit Types s : state.

Lemma M_bind_ret {A B} (m : M A) (k : A -> M B) s a s' :
  m s = mret (a, s') -> (m ≫= k) s = k a s'.
Proof. intros Hm. unfold mbind, M_bind. by rewrite Hm. Qed.

Lemma M_bind_panic {A B} (m : M A) (k : A -> M B) s e :
  m s = Panic e -> (m ≫= k) s = Panic e.
Proof. intros Hm. unfold mbind, M_bind. by rewrite Hm. Qed.

Lemma check_None e w k s s' : e s = mret (None, s') -> check e w k s = k s'.
Proof. intros He. unfold check. by rewrite (M_bind_ret _ _ _ _ _ He). Qed.

Lemma check_Some e w k s x s' : e s = mret (Some x, s') -> check e w k s = mret (Some (w x), s').
Proof. intros He. unfold check. by rewrite (M_bind_ret _ _ _ _ _ He). Qed.

Lemma check_panic e w k s x : e s = Panic x -> check e w k s = Panic x.
Proof. intros He. unfold check. by rewrite (M_bind_panic _ _ _ _ He). Qed.

Lemma get_state_eq s : get_state s = mret (s, s).
Proof. done. Qed.

Lemma modify_eq f s : modify f s = mret (tt, f s).
Proof. done. Qed.

Lemma get_port_eq pid p s : ports s !! pid = Some p -> get_port pid s = mret (p, s).
Proof. intros Hp. unfold get_port. by rewrite Hp. Qed.

Lemma get_chan_eq c x s : ccs s !! c = Some x -> get_chan c s = mret (x, s).
Proof. intros Hx. unfold get_chan. by rewrite Hx. Qed.

Lemma put_port_eq pid p s : put_port pid p s = mret (tt, set_port pid p s).
Proof. done. Qed.

Lemma put_chan_eq c x s : put_chan c x s = mret (tt, set_chan c x s).
Proof. done. Qed.

Lemma mod_port_eq pid f p s :
  ports s !! pid = Some p -> mod_port pid f s = mret (tt, set_port pid (f p) s).
Proof. intros Hp. unfold mod_port. by rewrite (M_bind_ret _ _ _ _ _ (get_port_eq _ _ _ Hp)). Qed.

Lemma mod_chan_eq c f x s :
  ccs s !! c = Some x -> mod_chan c f s = mret (tt, set_chan c (f x) s).
Proof. intros Hx. unfold mod_chan. by rewrite (M_bind_ret _ _ _ _ _ (get_chan_eq _ _ _ Hx)). Qed.

Lemma chan_port_eq c x pid s :
  ccs s !! c = Some x -> cc_port x = Some pid -> chan_port c s = mret (pid, s).
Proof.
  intros Hx Hp. unfold chan_port. rewrite (M_bind_ret _ _ _ _ _ (get_chan_eq _ _ _ Hx)).
  by rewrite Hp.
Qed.

Lemma chan_port_nil c x s :
  ccs s !! c = Some x -> cc_port x = None -> chan_port c s = Panic NilDereference.
Proof.
  intros Hx Hp. unfold chan_port. rewrite (M_bind_ret _ _ _ _ _ (get_chan_eq _ _ _ Hx)).
  by rewrite Hp.
Qed.

Lemma lookup_set_port pid p s : ports (set_port pid p s) !! pid = Some p.
Proof. apply lookup_insert_eq. Qed.

Lemma lookup_set_chan c x s : ccs (set_chan c x s) !! c = Some x.
Proof. apply lookup_insert_eq. Qed.

Lemma lookup_chan_set_port pid p s c r : ccs s !! c = r -> ccs (set_port pid p s) !! c = r.
Proof. done. Qed.

Lemma lookup_port_set_chan c x s pid r : ports s !! pid = r -> ports (set_chan c x s) !! pid = r.
Proof. done. Qed.

Lemma lookup_chan_set_socket k s c r : ccs s !! c = r -> ccs (set_socket k s) !! c = r.
Proof. done. Qed.

Lemma lookup_port_set_socket k s pid r : ports s !! pid = r -> ports (set_socket k s) !! pid = r.
Proof. done. Qed.

Lemma set_port_set_port pid p p' s : set_port pid p (set_port pid p' s) = set_port pid p s.
Proof. unfold set_port. simpl. by rewrite insert_insert_eq. Qed.

Lemma set_chan_set_chan c x x' s : set_chan c x (set_chan c x' s) = set_chan c x s.
Proof. unfold set_chan. simpl. by rewrite insert_insert_eq. Qed.

Lemma set_port_chan pid p c x s : set_chan c x (set_port pid p s) = set_port pid p (set_chan c x s).
Proof. done. Qed.
End equations.

Create HintDb heap.
#[export] Hint Resolve get_state_eq modify_eq get_port_eq get_chan_eq put_port_eq put_chan_eq
  mod_port_eq mod_chan_eq chan_port_eq lookup_set_port lookup_set_chan
  lookup_chan_set_port lookup_port_set_chan
  lookup_chan_set_socket lookup_port_set_socket : heap.

(** Evaluates the next operation of a control-plane function. *)
Ltac mstep :=
  first
    [ erewrite M_bind_ret by eauto with heap
    | erewrite check_None by eauto with heap ];
  cbv beta iota.

(** ** Reasoning *)

Section wpM.
Context `{OS}.

Definition wpM {A} (m : M A) (s : state) (w : world) (Q : A -> state -> world -> Prop) : Prop :=
  wp (m s) w (fun '(a, s') w' => Q a s' w').

Lemma wpM_ret {A} (a : A) s w (Q : A -> state -> world -> Prop) :
  Q a s w -> wpM (mret a) s w Q.
Proof. done. Qed.

Lemma wpM_bind {A B} (m : M A) (k : A -> M B) s w Q :
  wpM m s w (fun a s' w' => wpM (k a) s' w' Q) -> wpM (m ≫= k) s w Q.
Proof.
  intros Hm. unfold wpM, mbind, M_bind. apply wp_bind. eapply wp_mono; [exact Hm|].
  by intros [a s'] w'.
Qed.

Lemma wpM_mono {A} (m : M A) s w (Q R : A -> state -> world -> Prop) :
  wpM m s w Q -> (forall a s' w', Q a s' w' -> R a s' w') -> wpM m s w R.
Proof. intros Hm HR. eapply wp_mono; [exact Hm|]. intros [a s'] w'. apply HR. Qed.

Lemma wpM_lift {A} (p : prog A) s w (Q : A -> state -> world -> Prop) :
  wp p w (fun a w' => Q a s w') -> wpM (lift p) s w Q.
Proof.
  intros Hp. unfold wpM, lift. apply wp_bind. eapply wp_mono; [exact Hp|]. by intros.
Qed.

Lemma wpM_modify f s w (Q : unit -> state -> world -> Prop) : Q tt (f s) w -> wpM (modify f) s w Q.
Proof. done. Qed.

Lemma wpM_get_state s w (Q : state -> state -> world -> Prop) : Q s s w -> wpM get_state s w Q.
Proof. done. Qed.

Lemma wpM_get_port pid p s w (Q : Port -> state -> world -> Prop) :
  ports s !! pid = Some p -> Q p s w -> wpM (get_port pid) s w Q.
Proof. intros Hp HQ. unfold wpM, get_port. by rewrite Hp. Qed.

Lemma wpM_get_chan c x s w (Q : controlChannel -> state -> world -> Prop) :
  ccs s !! c = Some x -> Q x s w -> wpM (get_chan c) s w Q.
Proof. intros Hp HQ. unfold wpM, get_chan. by rewrite Hp. Qed.

Lemma wpM_mod_port pid p f s w (Q : unit -> state -> world -> Prop) :
  ports s !! pid = Some p -> Q tt (set_port pid (f p) s) w -> wpM (mod_port pid f) s w Q.
Proof. intros Hp HQ. apply wpM_bind. by eapply wpM_get_port. Qed.

Lemma wpM_mod_chan c x f s w (Q : unit -> state -> world -> Prop) :
  ccs s !! c = Some x -> Q tt (set_chan c (f x) s) w -> wpM (mod_chan c f) s w Q.
Proof. intros Hp HQ. apply wpM_bind. by eapply wpM_get_chan. Qed.

Lemma wpM_chan_port c x pid s w (Q : nat -> state -> world -> Prop) :
  ccs s !! c = Some x -> cc_port x = Some pid -> Q pid s w -> wpM (chan_port c) s w Q.
Proof. intros Hp Hc HQ. apply wpM_bind. eapply wpM_get_chan; [done|]. by rewrite Hc. Qed.

Lemma wpM_check e wr k s w Q :
  wpM e s w (fun err s' w' =>
    match err with Some x => Q (Some (wr x)) s' w' | None => wpM k s' w' Q end) ->
  wpM (check e wr k) s w Q.
Proof.
  intros He. apply wpM_bind. eapply wpM_mono; [exact He|]. by intros [x|] s' w'.
Qed.

(** Running a system call and what follows it. *)
Lemma run_sys {X B} (c : syscall X) (k : X -> M B) s w x m ks :
  sys c (shm w) (kernel w) = (x, m, ks) ->
  run ((lift (syscall_ c) ≫= k) s) w = run (k x s) (mkWorld m ks).
Proof.
  intros Hs. unfold mbind, M_bind. rewrite run_bind. cbn. by rewrite Hs.
Qed.

(** The environment's answer to one call, and the world it leaves. *)
Definition ask {X} (c : syscall X) (w : world) (Q : X -> world -> Prop) : Prop :=
  let '(x, m, k) := sys c (shm w) (kernel w) in Q x (mkWorld m k).

Lemma run_ask {X B} (c : syscall X) (k : X -> M B) s w (R : outcome (B * state) -> Prop) :
  ask c w (fun x w' => R (run (k x s) w')) -> R (run ((lift (syscall_ c) ≫= k) s) w).
Proof.
  unfold ask. destruct (sys c (shm w) (kernel w)) as [[x m] ks] eqn:Hs. by rewrite (run_sys _ _ _ _ _ _ _ Hs).
Qed.

(** Sequencing and error checks, on outcomes. *)
Lemma run_M_ret {A} (a : A) s w : run ((mret a : M A) s) w = Done (a, s) w.
Proof. done. Qed.

Lemma run_M_bind {A B} (m : M A) (k : A -> M B) s w :
  run ((m ≫= k) s) w = obind (run (m s) w) (fun '(a, s') w' => run (k a s') w').
Proof. unfold mbind, M_bind. rewrite run_bind. by destruct (run (m s) w) as [[]| | |]. Qed.

Lemma run_check e wr k s w :
  run (check e wr k s) w = obind (run (e s) w) (fun '(err, s') w' =>
    match err with Some x => Done (Some (wr x), s') w' | None => run (k s') w' end).
Proof. unfold check. rewrite run_M_bind. by destruct (run (e s) w) as [[[] ?]| | |]. Qed.

(** One system call. *)
Lemma wpM_sys {X} (c : syscall X) s w (Q : X -> state -> world -> Prop) :
  (let '(x, m, k) := sys c (shm w) (kernel w) in Q x s (mkWorld m k)) ->
  wpM (lift (syscall_ c)) s w Q.
Proof.
  intros HQ. apply wpM_lift. unfold wp, syscall_. simpl.
  by destruct (sys c (shm w) (kernel w)) as [[x m] k].
Qed.
End wpM.
