(* ===== verification/Endpoint.v ===== *)
(** * Ports: link state, connect and disconnect (port.go; addEvent and delEvent of socket.go)

    The methods of [Port] that do not go through a control channel.  [connect]
    and [disconnect] are the two ends of a port's life: mapping the regions and
    checking the rings, and giving everything back. *)
From stdpp Require Import base tactics list gmap strings pretty.
From coqutil Require Import Byte.
From Stdlib Require Import ZArith Lia.
From S2P Require Import Prelude.
From S2P Require Import GoInt.
From S2P Require Import Shm.
From S2P Require Import State.
From S2P Require Import Ring.
From S2P Require Import Queue.
From S2P Require Import Region.
From S2P Require Import Heap.

(** ** Accessors *)

Definition Port_IsServer (p : Port) : bool := IsServer (cfg p).
Definition GetRemoteName (p : Port) : gostring := remoteName p.
Definition GetPeerName (p : Port) : gostring := peerName p.
Definition GetName (p : Port) : gostring := Name (cfg p).
Definition GetMemoryConfig (p : Port) : MemoryConfig := run_ p.
Definition GetExtendData (p : Port) : option nat := cfg_ExtendData (cfg p).
Definition GetId (p : Port) : Z := Id (cfg p).

(** The returned pointer is the queue's index. *)
Definition GetRxQueue (p : Port) (qid : Z) : prog (nat + goerror) :=
  if zlen (rxQueues p) <=? qid then mret (inr (Err "invalid Queue index"))
  else if qid <? 0 then Panic IndexOutOfRange
  else mret (inl (Z.to_nat qid)).

Definition GetTxQueue (p : Port) (qid : Z) : prog (nat + goerror) :=
  if zlen (txQueues p) <=? qid then mret (inr (Err "invalid Queue index"))
  else if qid <? 0 then Panic IndexOutOfRange
  else mret (inl (Z.to_nat qid)).

Definition RoleToString (isServer : bool) : string :=
  if isServer then "Server" else "Client".

Definition IsConnecting (pid : nat) : M bool :=
  p ← get_port pid; mret (bool_decide (p_cc p <> None)).

Definition IsConnected (pid : nat) : M bool :=
  p ← get_port pid;
  match p_cc p with
  | Some c => x ← get_chan c; mret (isConnected x)
  | None => mret false
  end.

(** A line feed and a tab. *)
Definition nl : string := String.String (Ascii.ascii_of_nat 10) EmptyString.
Definition tab : string := String.String (Ascii.ascii_of_nat 9) EmptyString.

Definition Port_String (pid : nat) : M string :=
  p ← get_port pid;
  up ← IsConnected pid;
  let result := text_of (GetName p) +:+ ":" +:+ nl +:+ tab +:+ "role: " +:+
    RoleToString (Port_IsServer p) +:+ nl +:+ tab +:+ "id: " +:+ pretty (GetId p) +:+ nl in
  let link := if (up : bool) then "up" else "down" in
  let result := result +:+ tab +:+ "link:" +:+ link +:+ nl +:+ tab +:+ "remote: " +:+
    text_of (GetRemoteName p) +:+ nl +:+ tab +:+ "peer: " +:+ text_of (GetPeerName p) +:+ nl in
  if (up : bool) then
    let mc := GetMemoryConfig p in
    mret (result +:+ "queue pairs: " +:+ pretty (NumQueuePairs mc) +:+ nl +:+ "ring size: " +:+
      pretty (int_shl1 (Log2RingSize mc)) +:+ nl +:+ "buffer size: " +:+
      pretty (PacketBufferSize mc) +:+ nl)
  else mret result.

(** ** The epoll set (socket.go) *)

Definition addEvent (efd : Z) : M (option goerror) :=
  s ← get_state;
  r ← lift (syscall_ (SysEpollCtl (epfd (socket s)) EPOLL_CTL_ADD efd));
  mret (Wrap "EpollCtl" ∘ ErrErrno <$> r).

Definition delEvent (efd : Z) : M (option goerror) :=
  s ← get_state;
  r ← lift (syscall_ (SysEpollCtl (epfd (socket s)) EPOLL_CTL_DEL efd));
  mret (Wrap "EpollCtl" ∘ ErrErrno <$> r).

(** ** Callbacks *)

Section endpoint.
Context `{Callbacks}.

Definition defaultDisconnectedFunc (pid : nat) : M (option goerror) :=
  p ← get_port pid;
  if QuitChan_closed p then raise CloseOfClosedChannel
  else
    put_port pid (set_chans_closed (ErrChan_closed p) true p) ;;
    if ErrChan_closed p then raise CloseOfClosedChannel
    else
      put_port pid (set_chans_closed true true p) ;;
      lift (wg_wait pid) ;;
      mret None.

(** Calling a function value. *)
Definition call (f : callback) (pid : nat) : M (option goerror) :=
  match f with
  | NilFunc => raise NilDereference
  | UserFunc n => user_func n pid
  | DefaultDisconnectedFunc => defaultDisconnectedFunc pid
  end.

(** ** connect *)

(** [p.regions[rid].data = d] *)
Definition set_region_data (rid : nat) (d : option slice) (p : Port) : Port :=
  set_regions (alter (fun r => mkRegion d (rsize r) (fd r) (packetBufferOffset r)) rid (regions p)) p.

(** [for rid := range p.regions], the [k] regions from [rid] on. *)
Fixpoint map_regions (pid k rid : nat) : M (option goerror) :=
  match k with
  | O => mret None
  | S k =>
      p ← get_port pid;
      match regions p !! rid with
      | None => raise IndexOutOfRange
      | Some r =>
          match data r with
          | Some _ => map_regions pid k (S rid)
          | None =>
              m ← lift (Mmap (fd r) (int64 (rsize r)));
              match m with
              | inr e => mret (Some (Wrap "mmap" (ErrErrno e)))
              | inl d => mod_port pid (set_region_data rid (Some d)) ;; map_regions pid k (S rid)
              end
          end
      end
  end.

(** [for _, q := range p.txQueues]: [q] is a copy of the element, so the
    assignments to [q.lastHead] and [q.lastTail] are lost; [updateRing] writes
    through the shared [q.ring]. *)
Fixpoint check_tx (pid k qid : nat) : M (option goerror) :=
  match k with
  | O => mret None
  | S k =>
      p ← get_port pid;
      match txQueues p !! qid with
      | None => raise IndexOutOfRange
      | Some q =>
          q ← lift (updateRing p q);
          put_port pid (set_txQueues (<[qid := q]> (txQueues p)) p) ;;
          if RingBuf.getCookie (q_ring q) =? cookie then check_tx pid k (S qid)
          else mret (Some (Err "wrong cookie"))
      end
  end.

Fixpoint check_rx (pid k qid : nat) : M (option goerror) :=
  match k with
  | O => mret None
  | S k =>
      p ← get_port pid;
      match rxQueues p !! qid with
      | None => raise IndexOutOfRange
      | Some q =>
          q ← lift (updateRing p q);
          put_port pid (set_rxQueues (<[qid := q]> (rxQueues p)) p) ;;
          if RingBuf.getCookie (q_ring q) =? cookie then check_rx pid k (S qid)
          else mret (Some (Err "wrong cookie"))
      end
  end.

Definition connect (pid : nat) : M (option goerror) :=
  p ← get_port pid;
  try map_regions pid (length (regions p)) 0 ;;
  p ← get_port pid;
  try check_tx pid (length (txQueues p)) 0 ;;
  p ← get_port pid;
  try check_rx pid (length (rxQueues p)) 0 ;;
  p ← get_port pid;
  call (ConnectedFunc (cfg p)) pid.

(** ** disconnect *)

Fixpoint close_queues (qs : list Queue) : prog unit :=
  match qs with
  | [] => mret tt
  | q :: qs => Queue_close q ;; close_queues qs
  end.

Fixpoint unmap_regions (rs : list memoryRegion) : prog (option goerror) :=
  match rs with
  | [] => mret None
  | r :: rs =>
      e ← Munmap (data r);
      match e with
      | Some e => mret (Some (ErrErrno e))
      | None =>
          e ← syscall_ (SysClose (fd r));
          match e with
          | Some e => mret (Some (ErrErrno e))
          | None => unmap_regions rs
          end
      end
  end.

Definition disconnect (pid : nat) : M (option goerror) :=
  p ← get_port pid;
  match p_cc p with
  | None => mret None
  | Some _ =>
      try call (DisconnectedFunc (cfg p)) pid or Wrap "disconnectedFunc" ;;
      p ← get_port pid;
      lift (close_queues (txQueues p)) ;;
      mod_port pid (set_txQueues []) ;;
      p ← get_port pid;
      lift (close_queues (rxQueues p)) ;;
      mod_port pid (set_rxQueues []) ;;
      p ← get_port pid;
      try lift (unmap_regions (regions p)) ;;
      mod_port pid (set_regions []) ;;
      mod_port pid (set_cc None) ;;
      mod_port pid (set_peerName []) ;;
      mod_port pid (set_remoteName []) ;;
      mret None
  end.
End endpoint.
