(* ===== verification/Control.v ===== *)
(** * The control channel (control_msg.go)

    One [SOCK_SEQPACKET] connection between a client and a server port: a queue
    of messages to send, a handler per message received, and the dispatcher
    [parseMsg] that strings the handlers into the connection protocol.  At most
    one queued message is sent per event handled. *)
From stdpp Require Import base tactics list gmap strings pretty.
From coqutil Require Import Byte.
From Stdlib Require Import ZArith Lia.
From S2P Require Import Prelude.
From S2P Require Import GoInt.
From S2P Require Import Shm.
From S2P Require Import State.
From S2P Require Import Ring.
From S2P Require Import Queue.
From S2P Require Import Region.
From S2P Require Import Wire.
From S2P Require Import Heap.
From S2P Require Import Endpoint.

Definition EPOLLIN : Z := 1.
Definition EPOLLERR : Z := 8.
Definition EPOLLHUP : Z := 16.

Definition SOL_SOCKET : Z := 1.
Definition SCM_RIGHTS : Z := 1.

(** [var b [n]byte; copy(b[:], src)] *)
Definition copy_array (n : Z) (src : gostring) : list byte := go_copy (zeros n) src.

(** ** The message queue *)

(** Dequeues one message.  [Iovec.Len] is [msgSize] although the buffer is
    shorter: what follows it in memory goes on the wire. *)
Definition sendMsg (c : nat) : M (option goerror) :=
  x ← get_chan c;
  match msgQueue x with
  | [] => mret None
  | msg :: rest =>
      put_chan c (set_msgQueue rest x) ;;
      if zlen (Buffer msg) =? 0 then raise IndexOutOfRange
      else
        r ← lift (syscall_ (SysSendmsg (cc_fd x) (Buffer msg) msgSize
                     (if 0 <? Fd msg then Some (Fd msg) else None)));
        mret (Wrap "SYS_SENDMSG" ∘ ErrErrno <$> r)
  end.

(** [cc.msgQueue = append(cc.msgQueue, controlMsg{buf, fd})] *)
Definition enqueue (c : nat) (buf : list byte) (fd : Z) : M unit :=
  mod_chan c (fun x => set_msgQueue (msgQueue x ++ [mkControlMsg buf fd]) x).

Definition msgEnqAck (c : nat) : M (option goerror) :=
  enqueue c (put uint16 msgTypeAck) (-1) ;; mret None.

Definition msgEnqHello (c : nat) : M (option goerror) :=
  s ← get_state;
  enqueue c (write_msg (mkMsgHello (copy_array 32 (appName (socket s))) Version Version 255 255 255 14)) (-1) ;;
  mret None.

(** The secret is left at its zero value. *)
Definition msgEnqInit (c : nat) : M (option goerror) :=
  s ← get_state;
  pid ← chan_port c;
  p ← get_port pid;
  enqueue c (write_msg (mkMsgInit Version (Id (cfg p)) portModeEthernet (zeros 24)
                          (copy_array 32 (appName (socket s))))) (-1) ;;
  mret None.

Definition msgEnqAddRegion (c : nat) (regionIndex : Z) : M (option goerror) :=
  pid ← chan_port c;
  p ← get_port pid;
  match regions p !! Z.to_nat regionIndex with
  | None => mret (Some (Err "invalid region index"))
  | Some r =>
      enqueue c (write_msg (mkMsgAddRegion regionIndex (rsize r))) (fd r) ;;
      mret None
  end.

Definition msgEnqAddRing (c : nat) (t : ringType) (ringIndex : Z) : M (option goerror) :=
  pid ← chan_port c;
  p ← get_port pid;
  let '(qs, flags) := match t with
                      | ringTypeS2M => (txQueues p, msgAddRingFlagS2M)
                      | ringTypeM2S => (rxQueues p, 0)
                      end in
  match qs !! Z.to_nat ringIndex with
  | None => raise IndexOutOfRange
  | Some q =>
      enqueue c (write_msg (mkMsgAddRing flags ringIndex (u16 (rg_region (q_ring q)))
                              (u32 (rg_offset (q_ring q))) (u8 (rg_log2Size (q_ring q))) 0))
        (interruptFd q) ;;
      mret None
  end.

Definition msgEnqConnect (c : nat) : M (option goerror) :=
  pid ← chan_port c;
  p ← get_port pid;
  enqueue c (write_msg (mkMsgConnect (copy_array 32 (Name (cfg p))))) (-1) ;;
  mret None.

Definition msgEnqConnected (c : nat) : M (option goerror) :=
  pid ← chan_port c;
  p ← get_port pid;
  enqueue c (write_msg (mkMsgConnected (copy_array 32 (Name (cfg p))))) (-1) ;;
  mret None.

Definition msgEnqDisconnect (c : nat) (str : gostring) : M (option goerror) :=
  enqueue c (write_msg (mkMsgDisconnect 0 (copy_array 96 str))) (-1) ;;
  mret None.

(** ** Ancillary data *)

(** [syscall.ParseUnixRights] *)
Definition ParseUnixRights (m : cmsg) : result (list Z) :=
  if (cm_level m =? SOL_SOCKET) && (cm_type m =? SCM_RIGHTS) then inl (cm_data m) else inr EINVAL.

(** [for _, cmsg := range controlMsgs]: the descriptor found last wins. *)
Fixpoint parse_rights (ms : list cmsg) (fd : Z) : Z + goerror :=
  match ms with
  | [] => inl fd
  | m :: ms =>
      if (cm_level m =? SOL_SOCKET) && (cm_type m =? SCM_RIGHTS) then
        match ParseUnixRights m with
        | inr e => inr (Wrap "syscall.ParseUnixRights" (ErrErrno e))
        | inl [] => parse_rights ms fd
        | inl (f :: _) => parse_rights ms f
        end
      else parse_rights ms fd
  end.

Definition parseControlMsg (c : nat) : M (Z + goerror) :=
  x ← get_chan c;
  match cc_control x with
  | inr e => mret (inr (Wrap "syscall.ParseSocketControlMessage" (ErrErrno e)))
  | inl [] => mret (inr (Err "missing control message"))
  | inl ms =>
      match parse_rights ms (-1) with
      | inr e => mret (inr e)
      | inl fd => if fd =? -1 then mret (inr (Err "missing file descriptor")) else mret (inl fd)
      end
  end.

(** ** Message handlers *)

(** Read the message and go on with it, or return the error. *)
Definition with_msg (N : Type) `{Message N} (c : nat) (k : N -> M (option goerror)) : M (option goerror) :=
  x ← get_chan c;
  match read_msg N (cc_data x) with
  | inr e => mret (Some e)
  | inl m => k m
  end.

(** The first of the two [NumQueuePairs] assignments is overwritten. *)
Definition negotiate (mc : MemoryConfig) (hello : MsgHello) : MemoryConfig :=
  mkMemoryConfig (min16 (NumQueuePairs mc) (MaxRingM2S hello))
    (min8 (Log2RingSize mc) (MaxLog2RingSize hello)) (PacketBufferSize mc).

Definition parseHello (c : nat) : M (option goerror) :=
  with_msg MsgHello c (fun hello =>
    if (Version <? VersionMin hello) || (VersionMax hello <? Version)
    then mret (Some (Err "incompatible memif version"))
    else
      pid ← chan_port c;
      mod_port pid (fun p => set_remoteName (hello_Name hello)
                               (set_run (negotiate (cfg_MemoryConfig (cfg p)) hello) p)) ;;
      mret None).

(** [for elt := cc.socket.portList.Front(); ...]: the ports from [l] on. *)
Fixpoint find_port (c : nat) (init : MsgInit) (l : list nat) : M (option goerror) :=
  match l with
  | [] => mret (Some (Err "invalid interface id"))
  | pid :: l =>
      p ← get_port pid;
      if (Id (cfg p) =? init_Id init) && IsServer (cfg p) && bool_decide (p_cc p = None) then
        if bool_decide (Secret (cfg p) = init_Secret init) then
          mod_port pid (set_cc (Some c)) ;;
          mod_chan c (set_ccport (Some pid)) ;;
          mod_port pid (fun p => set_remoteName (init_Name init) (set_run (cfg_MemoryConfig (cfg p)) p)) ;;
          mret None
        else mret (Some (Err "invalid secret"))
      else find_port c init l
  end.

Definition parseInit (c : nat) : M (option goerror) :=
  with_msg MsgInit c (fun init =>
    if negb (init_Version init =? Version)
    then mret (Some (Err "incompatible memif driver version"))
    else s ← get_state; find_port c init (portList (socket s))).

Definition parseAddRegion (c : nat) : M (option goerror) :=
  with_msg MsgAddRegion c (fun addRegion =>
    r ← parseControlMsg c;
    match r with
    | inr e => mret (Some (Wrap "parseControlMsg" e))
    | inl fd =>
        if 255 <? region_Index addRegion then mret (Some (Err "invalid memory region index"))
        else
          pid ← chan_port c;
          mod_port pid (fun p => set_regions (regions p ++ [mkRegion None (region_Size addRegion) fd 0]) p) ;;
          mret None
    end).

(** The client's transmit rings (S2M) are received on, and conversely. *)
Definition parseAddRing (c : nat) : M (option goerror) :=
  with_msg MsgAddRing c (fun addRing =>
    r ← parseControlMsg c;
    match r with
    | inr e => mret (Some e)
    | inl fd =>
        pid ← chan_port c;
        p ← get_port pid;
        if NumQueuePairs (run_ p) <=? ring_Index addRing then mret (Some (Err "invalid ring index"))
        else if Z.land (ring_Flags addRing) msgAddRingFlagS2M =? msgAddRingFlagS2M then
          let r := newRing (ring_Region addRing) ringTypeS2M (ring_Offset addRing) (RingSizeLog2 addRing) in
          put_port pid (set_rxQueues (rxQueues p ++ [mkQueue r pid 0 0 fd]) p) ;; mret None
        else
          let r := newRing (ring_Region addRing) ringTypeM2S (ring_Offset addRing) (RingSizeLog2 addRing) in
          put_port pid (set_txQueues (txQueues p ++ [mkQueue r pid 0 0 fd]) p) ;; mret None
    end).

Section control.
Context `{Callbacks} `{ErrnoText}.

Definition parseConnect (c : nat) : M (option goerror) :=
  with_msg MsgConnect c (fun connect_ =>
    pid ← chan_port c;
    mod_port pid (set_peerName (connect_Name connect_)) ;;
    try connect pid ;;
    mod_chan c (set_isConnected true) ;;
    mret None).

Definition parseConnected (c : nat) : M (option goerror) :=
  with_msg MsgConnected c (fun conn =>
    pid ← chan_port c;
    mod_port pid (set_peerName (connected_Name conn)) ;;
    try connect pid ;;
    mod_chan c (set_isConnected true) ;;
    mret None).

(** ** Closing *)

Definition close (c : nat) (sendDisconnect : bool) (str : string) : M (option goerror) :=
  try (if sendDisconnect then
         mod_chan c (set_msgQueue []) ;;
         msgEnqDisconnect c (bytes_of str) ;;
         sendMsg c
       else mret None) ;;
  x ← get_chan c;
  try delEvent (cc_fd x) or Wrap "failed to del event" ;;
  modify (fun s => set_socket (set_ccList (list_remove c (ccList (socket s))) (socket s)) s) ;;
  x ← get_chan c;
  match cc_port x with
  | Some pid => try disconnect pid or Wrap "port Disconnect" ;; mret None
  | None => mret None
  end.

Definition parseDisconnect (c : nat) : M (option goerror) :=
  with_msg MsgDisconnect c (fun dc =>
    try close c false (text_of (dc_String dc)) or Wrap "failed to disconnect control channel" ;;
    mret None).

(** ** Dispatch *)

(** [for i := from; i < from + k; i++ { err = f(uint16(i)); ... }] *)
Fixpoint for_each (k : nat) (from : Z) (f : Z -> M (option goerror)) : M (option goerror) :=
  match k with
  | O => mret None
  | S k => try f (u16 from) ;; for_each k (from + 1) f
  end.

(** The client's answer to hello: the messages it enqueues. *)
Definition announce (c : nat) (p : Port) : M (option goerror) :=
  try msgEnqInit c ;;
  try for_each (length (regions p)) 0 (msgEnqAddRegion c) ;;
  try for_each (Z.to_nat (NumQueuePairs (run_ p))) 0 (msgEnqAddRing c ringTypeS2M) ;;
  try for_each (Z.to_nat (NumQueuePairs (run_ p))) 0 (msgEnqAddRing c ringTypeM2S) ;;
  msgEnqConnect c.

Definition on_hello (c : nat) : M (option goerror) :=
  try parseHello c ;;
  pid ← chan_port c;
  p ← get_port pid;
  '(p, err) ← lift (initializeRegions p);
  put_port pid p ;;
  try mret err ;;
  '(p, err) ← lift (initializeQueues pid p);
  put_port pid p ;;
  try mret err ;;
  announce c p.

(** The [if]/[else if] chain. *)
Definition dispatch (c : nat) (t : msgType) : M (option goerror) :=
  if t =? msgTypeAck then mret None
  else if t =? msgTypeHello then on_hello c
  else if t =? msgTypeInit then try parseInit c ;; msgEnqAck c
  else if t =? msgTypeAddRegion then try parseAddRegion c ;; msgEnqAck c
  else if t =? msgTypeAddRing then try parseAddRing c ;; msgEnqAck c
  else if t =? msgTypeConnect then try parseConnect c ;; msgEnqConnected c
  else if t =? msgTypeConnected then parseConnected c
  else if t =? msgTypeDisconnect then parseDisconnect c
  else mret (Some (Err ("unknown message " +:+ pretty t))).

(** The label [error:]: the error is sent to the peer and returned. *)
Definition parseMsg (c : nat) : M (option goerror) :=
  x ← get_chan c;
  err ← dispatch c (read_type (cc_data x));
  match err with
  | None => mret None
  | Some err =>
      err1 ← close c true (Error err);
      match err1 with
      | Some err1 => mret (Some (ErrExtra err err1))
      | None => mret (Some err)
      end
  end.

(** [cc.port.GetName()] for a message. *)
Definition port_name (c : nat) : M string :=
  pid ← chan_port c; p ← get_port pid; mret (text_of (GetName p)).

Definition has_event (events mask : Z) : bool := Z.land events mask =? mask.

(** A datagram was received: [size] bytes into [cc.data], the ancillary data
    into [cc.control]. *)
Definition on_datagram (c : nat) (r : received) : M (option goerror) :=
  mod_chan c (fun x => set_received (go_copy (cc_data x) (rcv_data r)) (rcv_control r) x) ;;
  if negb (rcv_size r =? msgSize)
  then mret (Some (Err ("invalid message size " +:+ pretty (rcv_size r))))
  else try parseMsg c ;; sendMsg c.

Definition handleEvent (c : nat) (events : Z) : M (option goerror) :=
  if has_event events EPOLLHUP then
    try close c false "" or Wrap "failed to close control channel after hang up event" ;;
    name ← port_name c;
    mret (Some (Err ("hang up: " +:+ name)))
  else if has_event events EPOLLERR then
    try close c false "" or Wrap "failed to close control channel after receiving an error event" ;;
    name ← port_name c;
    mret (Some (Err ("received error event on control channel " +:+ name)))
  else if has_event events EPOLLIN then
    x ← get_chan c;
    r ← lift (syscall_ (SysRecvmsg (cc_fd x)));
    match r with
    | inr e =>
        mod_chan c (fun x => set_received (cc_data x) (inl []) x) ;;
        mret (Some (Wrap "recvmsg" (ErrErrno e)))
    | inl r => on_datagram c r
    end
  else mret (Some (Err ("unexpected event: " +:+ pretty events))).
End control.

(** ** Listener *)

Definition addControlChannel (fd : Z) (p : option nat) : M (nat + goerror) :=
  s ← get_state;
  let c := next s in
  modify (fun s => mkState (socket s) (ports s)
                     (<[c := mkControlChannel (int32 fd) p (zeros msgSize) (inl []) [] false]> (ccs s))
                     (S c)) ;;
  err ← addEvent (int32 fd);
  match err with
  | Some e => mret (inr (Wrap "failed to add event" e))
  | None =>
      modify (fun s => set_socket (set_ccList (ccList (socket s) ++ [c]) (socket s)) s) ;;
      mret (inl c)
  end.

Definition listener_close (l : Z) : M (option goerror) :=
  try delEvent l or Wrap "failed to del event" ;;
  r ← lift (syscall_ (SysClose l));
  mret (Wrap "failed to close socket" ∘ ErrErrno <$> r).

Definition listener_handleEvent (l events : Z) : M (option goerror) :=
  s ← get_state;
  let name := text_of (filename (socket s)) in
  if has_event events EPOLLHUP then
    try listener_close l or Wrap "failed to close listener after hang up event" ;;
    mret (Some (Err ("hang up: " +:+ name)))
  else if has_event events EPOLLERR then
    try listener_close l or Wrap "failed to close listener after receiving an error event" ;;
    mret (Some (Err ("reeceived error event on listener " +:+ name)))
  else if has_event events EPOLLIN then
    r ← lift (syscall_ (SysAccept l));
    match r with
    | inr e => mret (Some (Wrap "accept" (ErrErrno e)))
    | inl newFd =>
        r ← addControlChannel newFd None;
        match r with
        | inr e => mret (Some (Wrap "failed to add control channel" e))
        | inl c => try msgEnqHello c or Wrap "msgEnqHello" ;; sendMsg c
        end
    end
  else mret (Some (Err ("unexpected event: " +:+ pretty events))).

Definition AddListener (fd : Z) : M (option goerror) :=
  try addEvent (int32 fd) or Wrap "failed to add event" ;;
  modify (fun s => set_socket (set_listener (Some (int32 fd)) (socket s)) s) ;;
  mret None.

Definition addListener : M (option goerror) :=
  s ← get_state;
  let name := filename (socket s) in
  let step (e : option errno) (msg : string) (k : M (option goerror)) : M (option goerror) :=
    match e with
    | Some e => mret (Some (Wrap (msg +:+ text_of name +:+ " ") (ErrErrno e)))
    | None => k
    end in
  r ← lift (syscall_ SysSocket);
  match r with
  | inr _ => mret (Some (Err "failed to create UNIX domain socket"))
  | inl fd =>
      e ← lift (syscall_ (SysSetPasscred fd));
      step e "failed to set socket option " (
        e ← lift (syscall_ (SysBind fd name));
        step e "failed to bind socket " (
          e ← lift (syscall_ (SysListen fd));
          step e "failed to listen on socket " (AddListener fd)))
  end.
