(* ===== verification/Socket.v ===== *)
(** * Sockets (socket.go, NewSocket and NewPort of main.go, the rest of port.go)

    The entry points an application calls, and the event loop's body.  The
    polling goroutine is the only caller of [handleEvent]; one iteration of it is
    [poll_step].  Blocking sends on [ErrChan] (capacity 1) are explicit: an
    iteration that has an error to report while the channel is full is stuck
    until the application receives. *)
From stdpp Require Import base tactics list gmap strings pretty.
From coqutil Require Import Byte.
From Stdlib Require Import ZArith Lia.
From S2P Require Import Prelude.
From S2P Require Import GoInt.
From S2P Require Import Shm.
From S2P Require Import State.
From S2P Require Import Queue.
From S2P Require Import Region.
From S2P Require Import Wire.
From S2P Require Import Heap.
From S2P Require Import Endpoint.
From S2P Require Import Control.

Definition errorFdNotFound : string := "fd not found".
Definition DefaultSocketFilename : gostring := bytes_of "/tmp/memif.sock".

Definition GetFilename (s : Socket) : gostring := filename s.

Section sockets.
Context `{Callbacks} `{ErrnoText}.

(** ** Ports: the methods that go through the socket (port.go) *)

Definition Disconnect (pid : nat) : M (option goerror) :=
  p ← get_port pid;
  match p_cc p with
  | Some c => close c true "Port disconnected"
  | None => mret None
  end.

(** The error of [Disconnect] is dropped. *)
Definition Delete (pid : nat) : M (option goerror) :=
  _ ← Disconnect pid;
  modify (fun s => set_socket (set_portList (list_remove pid (portList (socket s))) (socket s)) s) ;;
  mret None.

Definition RequestConnection (pid : nat) : M (option goerror) :=
  p ← get_port pid;
  if Port_IsServer p then mret (Some (Err "only client can request connection"))
  else
    r ← lift (syscall_ SysSocket);
    match r with
    | inr e => mret (Some (Wrap "failed to create UNIX domain socket" (ErrErrno e)))
    | inl fd =>
        s ← get_state;
        let name := filename (socket s) in
        e ← lift (syscall_ (SysConnect fd name));
        match e with
        | Some e => mret (Some (Wrap ("failed to connect socket " +:+ text_of name +:+ " ") (ErrErrno e)))
        | None =>
            r ← addControlChannel fd (Some pid);
            match r with
            | inl c => mod_port pid (set_cc (Some c)) ;; mret None
            | inr e => mod_port pid (set_cc None) ;; mret (Some (Wrap "failed to create control channel" e))
            end
        end
    end.

(** ** Socket.NewPort *)

(** The search for a port with the same id and role. *)
Fixpoint port_exists (c : PortCfg) (l : list nat) : M bool :=
  match l with
  | [] => mret false
  | pid :: l =>
      p ← get_port pid;
      if (Id (cfg p) =? Id c) && Bool.eqb (IsServer (cfg p)) (IsServer c)
      then mret true else port_exists c l
  end.

Definition or_default (v d : Z) : Z := if v =? 0 then d else v.

Definition with_defaults (c : PortCfg) : PortCfg :=
  let mc := cfg_MemoryConfig c in
  mkPortCfg (Id c) (IsServer c) (Name c) (Secret c)
    (mkMemoryConfig (or_default (NumQueuePairs mc) DefaultNumQueuePairs)
       (or_default (Log2RingSize mc) DefaultLog2RingSize)
       (or_default (PacketBufferSize mc) DefaultPacketBufferSize))
    (ConnectedFunc c)
    (match DisconnectedFunc c with NilFunc => DefaultDisconnectedFunc | f => f end)
    (cfg_ExtendData c).

(** [Port{cfg: *cfg}] with the defaults filled in. *)
Definition fresh_port (c : PortCfg) : Port :=
  mkPort (with_defaults c) (mkMemoryConfig 0 0 0) (cfg_ExtendData c) None [] [] [] [] [] false false.

Definition Socket_NewPort (c : PortCfg) : M (nat + goerror) :=
  s ← get_state;
  dup ← port_exists c (portList (socket s));
  if (dup : bool) then
    mret (inr (Err ("port with id " +:+ pretty (Id c) +:+ " role " +:+ RoleToString (IsServer c) +:+
                    " already exists on this socket")))
  else
    let pid := next s in
    modify (fun s => mkState (set_portList (portList (socket s) ++ [pid]) (socket s))
                       (<[pid := fresh_port c]> (ports s)) (ccs s) (S pid)) ;;
    if IsServer c then
      s ← get_state;
      match listener (socket s) with
      | Some _ => mret (inl pid)
      | None =>
          err ← addListener;
          match err with
          | Some e => mret (inr (Wrap "failed to create listener channel" e))
          | None => mret (inl pid)
          end
      end
    else mret (inl pid).

(** ** NewPort (main.go) *)

(** [for !port.IsConnecting() { ... }]: an iteration either returns or leaves
    the port connecting, so two tests are enough ([NewPort_spec]); [None] is
    out of fuel. *)
Fixpoint connect_loop (fuel pid : nat) : M (option (option goerror)) :=
  match fuel with
  | O => mret None
  | S fuel =>
      connecting ← IsConnecting pid;
      if (connecting : bool) then mret (Some None)
      else
        err ← RequestConnection pid;
        match err with
        | Some e => mret (Some (Some (Wrap "faild to connect" e)))
        | None => connect_loop fuel pid
        end
  end.

Definition NewPort (c : PortCfg) : M (option (nat + goerror)) :=
  s ← get_state;
  r ← Socket_NewPort c;
  match r with
  | inr e =>
      mret (Some (inr (Wrap ("failed to create interface on socket " +:+
                             text_of (GetFilename (socket s))) e)))
  | inl pid =>
      p ← get_port pid;
      if Port_IsServer p then mret (Some (inl pid))
      else
        r ← connect_loop 2 pid;
        match r with
        | None => mret None
        | Some (Some e) => mret (Some (inr e))
        | Some None => mret (Some (inl pid))
        end
  end.

(** ** Socket.Delete

    Both loops follow [elt.Next()], which is nil once the body removed [elt]
    from its list.  [fuel]: at most one iteration per element. *)
Fixpoint delete_ccs (fuel : nat) (elt : option nat) : M (option (option goerror)) :=
  match elt, fuel with
  | None, _ => mret (Some None)
  | Some _, O => mret None
  | Some c, S fuel =>
      err ← close c true "Socket deleted";
      match err with
      | Some e => mret (Some (Some e))
      | None => s ← get_state; delete_ccs fuel (list_next c (ccList (socket s)))
      end
  end.

Fixpoint delete_ports (fuel : nat) (elt : option nat) : M (option (option goerror)) :=
  match elt, fuel with
  | None, _ => mret (Some None)
  | Some _, O => mret None
  | Some pid, S fuel =>
      err ← Delete pid;
      match err with
      | Some e => mret (Some (Some e))
      | None => s ← get_state; delete_ports fuel (list_next pid (portList (socket s)))
      end
  end.

(** [None] (out of fuel) never happens, see [Socket_Delete_first_only]. An error of
    [cc.close] or of [os.Remove] is turned into a nil return. *)
Definition Socket_Delete : M (option (option goerror)) :=
  s ← get_state;
  r ← delete_ccs (length (ccList (socket s))) (head (ccList (socket s)));
  match r with
  | None => mret None
  | Some (Some _) => mret (Some None)
  | Some None =>
      s ← get_state;
      r ← delete_ports (length (portList (socket s))) (head (portList (socket s)));
      match r with
      | None => mret None
      | Some (Some e) => mret (Some (Some e))
      | Some None =>
          s ← get_state;
          let rest : M (option goerror) :=
            s ← get_state;
            try delEvent (wakeEvent (socket s)) or Wrap "failed to delete event" ;;
            lift (syscall_ (SysClose (epfd (socket s)))) ;;
            mret None in
          match listener (socket s) with
          | Some l =>
              err ← listener_close l;
              match err with
              | Some e => mret (Some (Some e))
              | None =>
                  e ← lift (syscall_ (SysRemove (filename (socket s))));
                  match e with
                  | Some _ => mret (Some None)
                  | None => err ← rest; mret (Some err)
                  end
              end
          | None => err ← rest; mret (Some err)
          end
      end
  end.

(** ** Events *)

(** The search of [ccList] for the event's descriptor. *)
Fixpoint find_cc (fd : Z) (l : list nat) : M (option nat) :=
  match l with
  | [] => mret None
  | c :: l => x ← get_chan c; if cc_fd x =? fd then mret (Some c) else find_cc fd l
  end.

Definition Socket_handleEvent (fd events : Z) : M (option goerror) :=
  s ← get_state;
  let in_ccs : M (option goerror) :=
    r ← find_cc fd (ccList (socket s));
    match r with
    | Some c => handleEvent c events
    | None => mret (Some (Err errorFdNotFound))
    end in
  match listener (socket s) with
  | Some l => if l =? fd then listener_handleEvent l events else in_ccs
  | None => in_ccs
  end.

(** What the goroutine does with one [epoll_wait] answer: at most
    [maxEpollEvents] = 1 event, and the error to send on [ErrChan]. *)
Definition poll_event (fd events : Z) : M (option goerror) :=
  s ← get_state;
  if fd =? wakeEvent (socket s) then mret None
  else try Socket_handleEvent fd events or Wrap "handleEvent" ;; mret None.

(** [StopPolling] after [stopPollChan] was closed: wakes the goroutine. *)
Definition wake_poll : M (option goerror) :=
  s ← get_state;
  r ← lift (syscall_ (SysWrite (wakeEvent (socket s)) one_buf));
  match r with
  | inr e => mret (Some (ErrErrno e))
  | inl n => if n =? 8 then mret None else mret (Some (Err "faild to write to eventfd"))
  end.
End sockets.

(** ** NewSocket (main.go)

    A failed [epoll_create] leaves [epfd] at -1, a failed [eventfd] the wake
    descriptor at -1: both errors are dropped. *)
Definition NewSocket (app file : gostring) : prog (state + goerror) :=
  r ← syscall_ SysEpollCreate;
  let ep := match r with inl fd => fd | inr _ => -1 end in
  '(efd, _) ← eventFd;
  let s := mkState (mkSocket app (if bool_decide (file = []) then DefaultSocketFilename else file)
                      None [] [] ep (int32 efd)) ∅ ∅ O in
  '(err, s) ← addEvent (int32 efd) s;
  match err with
  | Some e => mret (inr (Wrap "failed to add event" e))
  | None => mret (inl s)
  end.
