(* ===== verification/Protocol.v ===== *)
(** * The connection protocol, message by message

    What each handler of the control channel does, on every branch, and how the
    two ends fit: the messages one side enqueues, delivered to the other side,
    reproduce there the regions and rings of the sender. *)
From stdpp Require Import base tactics list gmap strings pretty.
From coqutil Require Import Byte.
From Stdlib Require Import ZArith Lia.
From S2P Require Import Prelude.
From S2P Require Import GoInt.
From S2P Require Import Shm.
From S2P Require Import State.
From S2P Require Import Ring.
From S2P Require Import Region.
From S2P Require Import Wire.
From S2P Require Import Heap.
From S2P Require Import Endpoint.
From S2P Require Import Control.
From S2P Require Import Demo.

(** ** Delivery *)

(** Channel [c] of [s] has received the datagram that carries [m], with
    anything after the message. *)
Definition received_msg {N} `{Message N} (s : state) (c : nat) (m : N) : Prop :=
  exists x tail, ccs s !! c = Some x /\ cc_data x = write_msg m ++ tail.

(** The file descriptor that came with it. *)
Definition received_fd (s : state) (c : nat) (fd : Z) : Prop :=
  exists x ms, ccs s !! c = Some x /\ cc_control x = inl ms /\ ms <> [] /\
    parse_rights ms (-1) = inl fd /\ fd <> -1.

(** Channel [c] belongs to port [pid], whose object is [p]. *)
Definition chan_of (s : state) (c pid : nat) (p : Port) : Prop :=
  exists x, ccs s !! c = Some x /\ cc_port x = Some pid /\ ports s !! pid = Some p.

(** [append(cc.msgQueue, msg)] *)
Definition queued (c : nat) (msg : controlMsg) (s : state) : state :=
  match ccs s !! c with
  | Some x => set_chan c (set_msgQueue (msgQueue x ++ [msg]) x) s
  | None => s
  end.

Section delivery.
Context {N} `{Message N}.

Lemma with_msg_received s c (m : N) k :
  received_msg s c m -> msg_ok m -> with_msg N c k s = k m s.
Proof.
  intros (x & tail & Hx & Hd) Hm. unfold with_msg. mstep.
  by rewrite Hd, read_write_msg.
Qed.

Lemma received_type s c (m : N) :
  received_msg s c m ->
  exists x, ccs s !! c = Some x /\ read_type (cc_data x) = msg_type.
Proof. intros (x & tail & Hx & Hd). exists x. by rewrite Hd, read_type_write. Qed.
End delivery.

Lemma parseControlMsg_received s c fd :
  received_fd s c fd -> parseControlMsg c s = mret (inl fd, s).
Proof.
  intros (x & ms & Hx & Hc & Hne & Hr & Hfd). unfold parseControlMsg. mstep. rewrite Hc.
  destruct ms as [|m ms]; [done|]. rewrite Hr. by rewrite (proj2 (Z.eqb_neq _ _)).
Qed.

Lemma enqueue_eq s c buf fd :
  is_Some (ccs s !! c) -> enqueue c buf fd s = mret (tt, queued c (mkControlMsg buf fd) s).
Proof. intros [x Hx]. unfold enqueue, queued. rewrite Hx.
  exact (mod_chan_eq c (fun x => set_msgQueue (msgQueue x ++ [_]) x) x s Hx).
Qed.

Lemma queued_chan s c x msg :
  ccs s !! c = Some x -> queued c msg s = set_chan c (set_msgQueue (msgQueue x ++ [msg]) x) s.
Proof. intros Hx. unfold queued. by rewrite Hx. Qed.

Lemma chan_of_is_Some s c pid p : chan_of s c pid p -> is_Some (ccs s !! c).
Proof. intros (x & Hx & _). by eexists. Qed.

Lemma chan_of_port s c pid p : chan_of s c pid p -> chan_port c s = mret (pid, s).
Proof. intros (x & Hx & Hp & _). by eapply chan_port_eq. Qed.

Lemma chan_of_get s c pid p : chan_of s c pid p -> get_port pid s = mret (p, s).
Proof. intros (x & _ & _ & Hp). by apply get_port_eq. Qed.

Lemma chan_of_mod s c pid p f : chan_of s c pid p -> mod_port pid f s = mret (tt, set_port pid (f p) s).
Proof. intros (x & _ & _ & Hp). by apply mod_port_eq. Qed.

#[export] Hint Resolve enqueue_eq chan_of_is_Some chan_of_port chan_of_get chan_of_mod
  parseControlMsg_received : heap.

Lemma zlen_copy_array n src : 0 <= n -> zlen (copy_array n src) = n.
Proof. intros. unfold copy_array. rewrite zlen_go_copy. by apply zlen_zeros. Qed.

(** ** Init: which port answers *)

(** The port a client's init message selects on a server: the first one on the
    list with its id, in the server role, and not connecting. *)
Definition candidate (s : state) (init : MsgInit) (pid : nat) : bool :=
  match ports s !! pid with
  | Some p => (Id (cfg p) =? init_Id init) && IsServer (cfg p) && bool_decide (p_cc p = None)
  | None => false
  end.

Definition init_port (s : state) (init : MsgInit) : option nat :=
  List.find (candidate s init) (portList (socket s)).

(** The port it leaves, bound to channel [c]. *)
Definition accepted (c : nat) (init : MsgInit) (p : Port) : Port :=
  set_remoteName (init_Name init) (set_run (cfg_MemoryConfig (cfg p)) (set_cc (Some c) p)).

Definition ports_live (s : state) : Prop :=
  Forall (fun pid => is_Some (ports s !! pid)) (portList (socket s)).

Definition init_outcome (s : state) (c : nat) (x : controlChannel) (init : MsgInit)
    : option goerror * state :=
  if negb (init_Version init =? Version) then (Some (Err "incompatible memif driver version"), s)
  else match init_port s init with
       | None => (Some (Err "invalid interface id"), s)
       | Some pid =>
           match ports s !! pid with
           | Some p =>
               if bool_decide (Secret (cfg p) = init_Secret init)
               then (None, set_chan c (set_ccport (Some pid) x) (set_port pid (accepted c init p) s))
               else (Some (Err "invalid secret"), s)
           | None => (None, s)
           end
       end.

Lemma find_port_eq s c x init l :
  Forall (fun pid => is_Some (ports s !! pid)) l -> ccs s !! c = Some x ->
  find_port c init l s =
  match List.find (candidate s init) l with
  | None => mret (Some (Err "invalid interface id"), s)
  | Some pid =>
      match ports s !! pid with
      | Some p =>
          if bool_decide (Secret (cfg p) = init_Secret init)
          then mret (None, set_chan c (set_ccport (Some pid) x) (set_port pid (accepted c init p) s))
          else mret (Some (Err "invalid secret"), s)
      | None => mret (None, s)
      end
  end.
Proof.
  intros Hl Hx. induction Hl as [|pid l [p Hp] Hl IH]; [done|]. cbn [find_port List.find].
  mstep. unfold candidate at 1. rewrite Hp.
  destruct ((Id (cfg p) =? init_Id init) && IsServer (cfg p) && bool_decide (p_cc p = None)); [|done].
  rewrite Hp. destruct (bool_decide _); [|done].
  do 3 mstep. by rewrite set_port_chan, set_port_set_port.
Qed.

Lemma parseInit_eq s c init :
  ports_live s -> received_msg s c init -> msg_ok init ->
  exists x, ccs s !! c = Some x /\
    parseInit c s = mret (init_outcome s c x init).
Proof.
  intros Hl Hr Hok. assert (exists x, ccs s !! c = Some x) as [x Hx] by (destruct Hr as (x&_&Hx&_); eauto).
  exists x. split; [done|]. unfold parseInit. erewrite with_msg_received by done.
  unfold init_outcome, init_port. destruct (negb _); [done|]. mstep.
  rewrite (find_port_eq s c x init _ Hl Hx). destruct (List.find _ _) as [pid|]; [|done].
  destruct (ports s !! pid) as [p|]; [|done]. by destruct (bool_decide _).
Qed.

(** What [on_hello] is given to work with. *)
Definition negotiated (hello : MsgHello) (p : Port) : Port :=
  set_remoteName (hello_Name hello) (set_run (negotiate (cfg_MemoryConfig (cfg p)) hello) p).

Lemma parseHello_eq s c pid p hello :
  received_msg s c hello -> msg_ok hello -> chan_of s c pid p ->
  parseHello c s =
  mret (if (Version <? VersionMin hello) || (VersionMax hello <? Version)
        then (Some (Err "incompatible memif version"), s)
        else (None, set_port pid (negotiated hello p) s)).
Proof.
  intros Hr Hok Hc. unfold parseHello. erewrite with_msg_received by done.
  destruct (_ || _); [done|]. mstep.
  erewrite (M_bind_ret (mod_port pid _)); [|by eapply (chan_of_mod s c pid p)]. done.
Qed.

(** ** Regions and rings *)

Lemma parseAddRegion_eq s c pid p m fd :
  received_msg s c m -> msg_ok m -> received_fd s c fd -> chan_of s c pid p ->
  parseAddRegion c s =
  mret (if 255 <? region_Index m then (Some (Err "invalid memory region index"), s)
        else (None, set_port pid (set_regions (regions p ++ [mkRegion None (region_Size m) fd 0]) p) s)).
Proof.
  intros Hr Hok Hf Hc. unfold parseAddRegion. erewrite with_msg_received by done. mstep.
  destruct (255 <? region_Index m); [done|]. mstep.
  erewrite (M_bind_ret (mod_port pid _)); [|by eapply (chan_of_mod s c pid p)]. done.
Qed.

(** The queue made from an add-ring message, and the port it joins: the list of
    receive queues for a client-to-server ring, of transmit queues otherwise. *)
Definition ring_queue (m : MsgAddRing) (pid : nat) (fd : Z) : Queue :=
  mkQueue (newRing (ring_Region m)
             (if Z.land (ring_Flags m) msgAddRingFlagS2M =? msgAddRingFlagS2M
              then ringTypeS2M else ringTypeM2S)
             (ring_Offset m) (RingSizeLog2 m)) pid 0 0 fd.

Definition join_queue (q : Queue) (p : Port) : Port :=
  match rg_type (q_ring q) with
  | ringTypeS2M => set_rxQueues (rxQueues p ++ [q]) p
  | ringTypeM2S => set_txQueues (txQueues p ++ [q]) p
  end.

Lemma parseAddRing_eq s c pid p m fd :
  received_msg s c m -> msg_ok m -> received_fd s c fd -> chan_of s c pid p ->
  parseAddRing c s =
  mret (if NumQueuePairs (run_ p) <=? ring_Index m then (Some (Err "invalid ring index"), s)
        else (None, set_port pid (join_queue (ring_queue m pid fd) p) s)).
Proof.
  intros Hr Hok Hf Hc. unfold parseAddRing. erewrite with_msg_received by done. do 3 mstep.
  destruct (_ <=? _); [done|]. unfold join_queue, ring_queue. by destruct (_ =? _).
Qed.

(** The client's side of the announcement. *)
Definition announced_queue (t : ringType) (p : Port) (i : Z) : option Queue :=
  match t with ringTypeS2M => txQueues p | ringTypeM2S => rxQueues p end !! Z.to_nat i.

Definition ring_msg (t : ringType) (i : Z) (q : Queue) : MsgAddRing :=
  mkMsgAddRing (match t with ringTypeS2M => msgAddRingFlagS2M | ringTypeM2S => 0 end) i
    (u16 (rg_region (q_ring q))) (u32 (rg_offset (q_ring q))) (u8 (rg_log2Size (q_ring q))) 0.

Lemma ring_msg_ok t i q : 0 <= i < 65536 -> msg_ok (ring_msg t i q).
Proof.
  intros Hi. pose proof (u16_range (rg_region (q_ring q))). pose proof (u32_range (rg_offset (q_ring q))).
  pose proof (u8_range (rg_log2Size (q_ring q))).
  by destruct t; repeat split; cbn; unfold msgAddRingFlagS2M; lia.
Qed.

Lemma msgEnqAddRing_eq s c pid p t i q :
  chan_of s c pid p -> announced_queue t p i = Some q ->
  msgEnqAddRing c t i s =
  mret (None, queued c (mkControlMsg (write_msg (ring_msg t i q)) (interruptFd q)) s).
Proof.
  intros Hc Hq. unfold msgEnqAddRing, ring_msg. do 2 mstep.
  unfold announced_queue in Hq. destruct t; rewrite Hq; by mstep.
Qed.

Definition region_msg (i : Z) (r : memoryRegion) : MsgAddRegion := mkMsgAddRegion i (rsize r).

Lemma msgEnqAddRegion_eq s c pid p i r :
  chan_of s c pid p -> regions p !! Z.to_nat i = Some r ->
  msgEnqAddRegion c i s =
  mret (None, queued c (mkControlMsg (write_msg (region_msg i r)) (fd r)) s).
Proof. intros Hc Hr. unfold msgEnqAddRegion. do 2 mstep. rewrite Hr. by mstep. Qed.

Definition init_msg (s : state) (p : Port) : MsgInit :=
  mkMsgInit Version (Id (cfg p)) portModeEthernet (zeros 24) (copy_array 32 (appName (socket s))).

Lemma init_msg_ok s p : 0 <= Id (cfg p) < 2 ^ 32 -> msg_ok (init_msg s p).
Proof. intros. repeat split; try done; try (cbn; lia). by apply zlen_copy_array. Qed.

Lemma msgEnqInit_eq s c pid p :
  chan_of s c pid p ->
  msgEnqInit c s = mret (None, queued c (mkControlMsg (write_msg (init_msg s p)) (-1)) s).
Proof. intros Hc. unfold msgEnqInit. by do 4 mstep. Qed.

(** ** Concrete ends

    A client port and a server port, each with one control channel (object 1 of
    its process; the port is object 0). *)
Definition small_cfg (server : bool) (secret : list byte) : PortCfg :=
  mkPortCfg 7 server (bytes_of "p") secret (mkMemoryConfig 1 1 4) (UserFunc 0) (UserFunc 1) None.
Definition idle_port (server : bool) (secret : list byte) : Port :=
  mkPort (small_cfg server secret) (mkMemoryConfig 0 0 0) None None [] [] [] [] [] false false.
Definition small_chan (pid : option nat) (d : list byte) (ms : list cmsg) : controlChannel :=
  mkControlChannel 5 pid d (inl ms) [] false.
Definition small_socket (ls : option Z) : Socket :=
  mkSocket (bytes_of "app") (bytes_of "/s") ls [0%nat] [1%nat] 3 4.
Definition small_state (p : Port) (x : controlChannel) : state :=
  mkState (small_socket None) {[ 0%nat := p ]} {[ 1%nat := x ]} 2.

(** Pads a message to a datagram. *)
Definition datagram (bs : list byte) : list byte := go_copy (zeros msgSize) bs.

Lemma small_received {N} `{Message N} p pid ms (m : N) :
  zlen (write_msg m) <= msgSize ->
  received_msg (small_state p (small_chan pid (datagram (write_msg m)) ms)) 1 m.
Proof. intros Hm. do 2 eexists. split; [done|]. cbn. by rewrite (go_copy_short (zeros msgSize)). Qed.

(** The right to descriptor [n] as the kernel delivers it. *)
Definition right_to (n : Z) : cmsg := mkCmsg SOL_SOCKET SCM_RIGHTS [n].

Lemma small_received_fd p pid d n :
  n <> -1 -> received_fd (small_state p (small_chan pid d [right_to n])) 1 n.
Proof. intros. by do 2 eexists. Qed.

(** An application whose callbacks do nothing, and a kernel that knows no words. *)
#[export] Instance demo_callbacks : Callbacks := fun _ _ => mret None.
#[export] Instance demo_errno_text : ErrnoText := fun _ => "errno"%string.

(** ** Theorems *)

(** C12: parseInit accepts a client exactly when the version matches and the
    first idle server port with the requested id has the client's secret; it
    then binds that port and the channel to each other, copies the port's
    configured memory sizes to its running ones and stores the client's name,
    touching nothing else.  In every other case it returns an error and the state
    is unchanged; in particular a port that already has a channel is never given
    another. *)
Theorem parseInit_binds s c init :
  ports_live s -> received_msg s c init -> msg_ok init ->
  exists err s', parseInit c s = mret (err, s') /\
    (err <> None -> s' = s) /\
    (err = None <->
     init_Version init = Version /\
     exists pid p, init_port s init = Some pid /\ ports s !! pid = Some p /\
       Secret (cfg p) = init_Secret init) /\
    (err = None ->
     exists pid p x, ports s !! pid = Some p /\ ccs s !! c = Some x /\
       Id (cfg p) = init_Id init /\ IsServer (cfg p) = true /\ p_cc p = None /\
       s' = set_chan c (set_ccport (Some pid) x) (set_port pid (accepted c init p) s) /\
       chan_of s' c pid (accepted c init p)).
Proof.
  intros Hl Hr Hok. destruct (parseInit_eq s c init Hl Hr Hok) as (x & Hx & E).
  unfold init_outcome in E. destruct (Z.eqb_spec (init_Version init) Version) as [Hv|Hv]; simpl in E.
  2: { do 2 eexists. split; [exact E|]. split; [done|]. split; [|done]. split; [done|]. tauto. }
  destruct (init_port s init) as [pid|] eqn:Hi.
  2: { do 2 eexists. split; [exact E|]. split; [done|]. split; [|done].
       split; [done|]. by intros (_ & ? & ? & ? & _). }
  pose proof (find_some _ _ Hi) as [_ Hcand]. unfold candidate in Hcand.
  destruct (ports s !! pid) as [p|] eqn:Hp; [|done].
  apply andb_prop in Hcand as [Hcand Hcc]. apply andb_prop in Hcand as [Hid Hs].
  apply bool_decide_eq_true in Hcc. apply Z.eqb_eq in Hid.
  destruct (bool_decide _) eqn:Hsec.
  - apply bool_decide_eq_true in Hsec. do 2 eexists. split; [exact E|]. split; [done|]. split.
    { split; [|done]. intros _. split; [done|]. by exists pid, p. }
    intros _. exists pid, p, x. repeat (split; [done|]). eexists. split; [apply lookup_set_chan|].
    split; [done|]. apply lookup_port_set_chan, lookup_set_port.
  - apply bool_decide_eq_false in Hsec. do 2 eexists. split; [exact E|]. split; [done|]. split; [|done].
    split; [done|]. intros (_ & pid' & p' & [= <-] & Hp' & Hsec'). simplify_eq.
Qed.

Definition demo_init : MsgInit := mkMsgInit Version 7 0 (zeros 24) (copy_array 32 (bytes_of "app")).

Lemma parseInit_binds_witness :
  let s := small_state (idle_port true (zeros 24)) (small_chan None (datagram (write_msg demo_init)) []) in
  exists err s', parseInit 1 s = mret (err, s') /\
    (err <> None -> s' = s) /\
    (err = None <->
     init_Version demo_init = Version /\
     exists pid p, init_port s demo_init = Some pid /\ ports s !! pid = Some p /\
       Secret (cfg p) = init_Secret demo_init) /\
    (err = None ->
     exists pid p x, ports s !! pid = Some p /\ ccs s !! 1%nat = Some x /\
       Id (cfg p) = init_Id demo_init /\ IsServer (cfg p) = true /\ p_cc p = None /\
       s' = set_chan 1 (set_ccport (Some pid) x) (set_port pid (accepted 1 demo_init p) s) /\
       chan_of s' 1 pid (accepted 1 demo_init p)).
Proof.
  intros s. apply (parseInit_binds s 1 demo_init).
  - by repeat constructor.
  - by apply small_received.
  - by vm_compute.
Defined.

(** C37: the secrets of the two ports are never compared: msgEnqInit leaves the
    secret of the message zero, whatever the client's configured secret.  So a
    server port with a secret refuses every client of this library, even one
    configured with the same secret, and a server port without one accepts
    clients with any secret. *)
Theorem client_secret_never_sent cs c cpid cp ss c' :
  chan_of cs c cpid cp -> 0 <= Id (cfg cp) < 2 ^ 32 -> ports_live ss ->
  exists msg,
    msgEnqInit c cs = mret (None, queued c msg cs) /\
    forall x tail spid sp,
      ccs ss !! c' = Some x -> cc_data x = Buffer msg ++ tail ->
      init_port ss (init_msg cs cp) = Some spid -> ports ss !! spid = Some sp ->
      if bool_decide (Secret (cfg sp) = zeros 24)
      then exists ss', parseInit c' ss = mret (None, ss')
      else parseInit c' ss = mret (Some (Err "invalid secret"), ss).
Proof.
  intros Hc Hid Hl. eexists. split; [by eapply msgEnqInit_eq|].
  intros x tail spid sp Hx Hd Hi Hp.
  destruct (parseInit_eq ss c' (init_msg cs cp) Hl) as (x' & Hx' & ->).
  - by exists x, tail.
  - by apply init_msg_ok.
  - unfold init_outcome. rewrite Hi, Hp. cbn [init_Version init_msg]. rewrite Z.eqb_refl.
    cbn [negb init_Secret init_msg]. by case_bool_decide; [eexists|].
Qed.

Definition secret_a : list byte := Byte.x61 :: zeros 23.

(** Both ends have the secret [a]; the server refuses. *)
Lemma client_secret_never_sent_witness :
  let cs := small_state (idle_port false secret_a) (small_chan (Some 0%nat) [] []) in
  let ss := small_state (idle_port true secret_a) (small_chan None (datagram (write_msg demo_init)) []) in
  exists msg,
    msgEnqInit 1 cs = mret (None, queued 1 msg cs) /\
    forall x tail spid sp,
      ccs ss !! 1%nat = Some x -> cc_data x = Buffer msg ++ tail ->
      init_port ss (init_msg cs (idle_port false secret_a)) = Some spid -> ports ss !! spid = Some sp ->
      if bool_decide (Secret (cfg sp) = zeros 24)
      then exists ss', parseInit 1 ss = mret (None, ss')
      else parseInit 1 ss = mret (Some (Err "invalid secret"), ss).
Proof.
  intros cs ss. apply (client_secret_never_sent cs 1 0 (idle_port false secret_a) ss 1).
  - by eexists.
  - done.
  - by repeat constructor.
Defined.

(** C14: parseHello refuses a server that does not speak version 2.0, leaving
    the state as it was; otherwise it negotiates: the running configuration never
    exceeds the port's own, nor the server's limits on server-to-client rings
    and on the ring size, and keeps the port's buffer size.  The server's limit
    on client-to-server rings plays no part: the result is the same for every
    value of it. *)
Theorem parseHello_negotiates s c pid p hello :
  received_msg s c hello -> msg_ok hello -> chan_of s c pid p ->
  if (VersionMin hello <=? Version) && (Version <=? VersionMax hello) then
    exists p', parseHello c s = mret (None, set_port pid p' s) /\
      let mc := cfg_MemoryConfig (cfg p) in
      NumQueuePairs (run_ p') = Z.min (NumQueuePairs mc) (MaxRingM2S hello) /\
      Log2RingSize (run_ p') = Z.min (Log2RingSize mc) (MaxLog2RingSize hello) /\
      PacketBufferSize (run_ p') = PacketBufferSize mc /\
      remoteName p' = hello_Name hello /\ cfg p' = cfg p /\ p_cc p' = p_cc p /\
      forall n, negotiate mc (mkMsgHello (hello_Name hello) (VersionMin hello) (VersionMax hello)
                  (MaxRegion hello) (MaxRingM2S hello) n (MaxLog2RingSize hello)) = run_ p'
  else parseHello c s = mret (Some (Err "incompatible memif version"), s).
Proof.
  intros Hr Hok Hc. rewrite (parseHello_eq s c pid p hello Hr Hok Hc).
  rewrite (Z.ltb_antisym (VersionMin hello)), (Z.ltb_antisym Version), <- negb_andb.
  destruct (_ && _); [|done]. cbn [negb]. eexists. split; [done|]. cbn zeta.
  cbn [negotiated set_remoteName set_run run_ negotiate NumQueuePairs Log2RingSize PacketBufferSize].
  unfold min16, min8. repeat (split; [done || (case_bool; zbool; lia)|]). done.
Qed.

Definition demo_hello : MsgHello := mkMsgHello (copy_array 32 (bytes_of "srv")) Version Version 255 255 0 14.

Lemma parseHello_negotiates_witness :
  let p := idle_port false (zeros 24) in
  let s := small_state p (small_chan (Some 0%nat) (datagram (write_msg demo_hello)) []) in
  exists p', parseHello 1 s = mret (None, set_port 0 p' s) /\
    let mc := cfg_MemoryConfig (cfg p) in
    NumQueuePairs (run_ p') = 1 /\ Log2RingSize (run_ p') = 1 /\ PacketBufferSize (run_ p') = 4 /\
    remoteName p' = hello_Name demo_hello /\ cfg p' = cfg p /\ p_cc p' = p_cc p /\
    forall n, negotiate mc (mkMsgHello (hello_Name demo_hello) Version Version 255 255 n 14) = run_ p'.
Proof.
  intros p s. apply (parseHello_negotiates s 1 0 p demo_hello).
  - by apply small_received.
  - by vm_compute.
  - by eexists.
Defined.

(** C13: announcing a ring: the message a client enqueues for its queue [i], once
    delivered with the queue's eventfd, gives the server a queue on the opposite
    list whose ring has the same type, size and offset (region 0, which is the
    client's only region), with fresh counters. *)
Theorem ring_announcement cs c cpid cp t i q ss c' spid sp sfd :
  chan_of cs c cpid cp -> announced_queue t cp i = Some q -> 0 <= i < 65536 ->
  0 <= rg_offset (q_ring q) < 2 ^ 32 -> 0 <= rg_log2Size (q_ring q) < 256 ->
  chan_of ss c' spid sp -> received_fd ss c' sfd -> i < NumQueuePairs (run_ sp) ->
  exists msg, msgEnqAddRing c t i cs = mret (None, queued c msg cs) /\
    Fd msg = interruptFd q /\
    forall x tail, ccs ss !! c' = Some x -> cc_data x = Buffer msg ++ tail ->
      let r := mkRing t (int_shl1 (rg_log2Size (q_ring q))) (rg_log2Size (q_ring q)) 0 (zeros ringSize)
                 (rg_offset (q_ring q)) in
      let sq := mkQueue r spid 0 0 sfd in
      parseAddRing c' ss =
      mret (None, set_port spid (match t with
                                 | ringTypeS2M => set_rxQueues (rxQueues sp ++ [sq]) sp
                                 | ringTypeM2S => set_txQueues (txQueues sp ++ [sq]) sp
                                 end) ss).
Proof.
  intros Hc Hq Hi Ho Hlog Hc' Hfd Hn. eexists. split; [by eapply msgEnqAddRing_eq|]. split; [done|].
  intros x tail Hx Hd. erewrite (parseAddRing_eq ss c' spid sp (ring_msg t i q) sfd); try done.
  - cbn [ring_Index ring_msg]. rewrite (proj2 (Z.leb_gt _ _)) by done. do 3 f_equal.
    unfold join_queue, ring_queue, newRing, ring_msg.
    cbn [ring_Region ring_Flags ring_Offset RingSizeLog2 q_ring rg_type].
    rewrite u32_small, u8_small by done. by destruct t.
  - by exists x, tail.
  - by apply ring_msg_ok.
Qed.

Definition demo_s2m : Queue := mkQueue (mkRing ringTypeS2M 2 1 0 (zeros 128) 160) 0 3 0 9.
Definition demo_client : Port := set_txQueues [demo_s2m] (idle_port false (zeros 24)).
Definition demo_server : Port := set_run (mkMemoryConfig 1 1 4) (idle_port true (zeros 24)).

Lemma ring_announcement_witness :
  let cs := small_state demo_client (small_chan (Some 0%nat) [] []) in
  let ss := small_state demo_server
              (small_chan (Some 0%nat) (datagram (write_msg (ring_msg ringTypeS2M 0 demo_s2m))) [right_to 11]) in
  exists msg, msgEnqAddRing 1 ringTypeS2M 0 cs = mret (None, queued 1 msg cs) /\ Fd msg = 9 /\
    forall x tail, ccs ss !! 1%nat = Some x -> cc_data x = Buffer msg ++ tail ->
      parseAddRing 1 ss =
      mret (None, set_port 0 (set_rxQueues [mkQueue (mkRing ringTypeS2M 2 1 0 (zeros 128) 160) 0 0 0 11]
                                demo_server) ss).
Proof.
  intros cs ss.
  apply (ring_announcement cs 1 0 demo_client ringTypeS2M 0 demo_s2m ss 1 0 demo_server 11); try done.
  - by eexists.
  - by eexists.
  - by apply small_received_fd.
Defined.

(** Announcing a region: delivered with the region's descriptor, the message
    gives the server one more region of the same size, not mapped yet; an index
    above 255 is refused, and the state kept. *)
Theorem region_announcement cs c cpid cp i r ss c' spid sp sfd :
  chan_of cs c cpid cp -> regions cp !! Z.to_nat i = Some r -> 0 <= i < 65536 ->
  0 <= rsize r < 2 ^ 64 -> chan_of ss c' spid sp -> received_fd ss c' sfd ->
  exists msg, msgEnqAddRegion c i cs = mret (None, queued c msg cs) /\ Fd msg = fd r /\
    forall x tail, ccs ss !! c' = Some x -> cc_data x = Buffer msg ++ tail ->
      parseAddRegion c' ss =
      mret (if i <=? 255
            then (None, set_port spid (set_regions (regions sp ++ [mkRegion None (rsize r) sfd 0]) sp) ss)
            else (Some (Err "invalid memory region index"), ss)).
Proof.
  intros Hc Hr Hi Hs Hc' Hfd. eexists. split; [by eapply msgEnqAddRegion_eq|]. split; [done|].
  intros x tail Hx Hd. erewrite (parseAddRegion_eq ss c' spid sp (region_msg i r) sfd); try done.
  - cbn [region_Index region_Size region_msg]. rewrite Z.ltb_antisym. by destruct (i <=? 255).
  - by exists x, tail.
Qed.

Lemma region_announcement_witness :
  let cp := set_regions [mkRegion None 336 3 320] demo_client in
  let cs := small_state cp (small_chan (Some 0%nat) [] []) in
  let ss := small_state demo_server
              (small_chan (Some 0%nat) (datagram (write_msg (mkMsgAddRegion 0 336))) [right_to 12]) in
  exists msg, msgEnqAddRegion 1 0 cs = mret (None, queued 1 msg cs) /\ Fd msg = 3 /\
    forall x tail, ccs ss !! 1%nat = Some x -> cc_data x = Buffer msg ++ tail ->
      parseAddRegion 1 ss =
      mret (None, set_port 0 (set_regions [mkRegion None 336 12 0] demo_server) ss).
Proof.
  intros cp cs ss.
  apply (region_announcement cs 1 0 cp 0 (mkRegion None 336 3 320) ss 1 0 demo_server 12); try done.
  all: first [by apply small_received_fd | by eexists].
Defined.

(** ** Messages before init *)

Lemma chan_port_nil_with {A} s c x (k : nat -> M A) :
  ccs s !! c = Some x -> cc_port x = None -> (chan_port c ≫= k) s = Panic NilDereference.
Proof. intros Hx Hp. apply M_bind_panic. by eapply chan_port_nil. Qed.

(** A channel not bound to a port, holding a datagram of a type that concerns
    one. *)
Definition needs_port (s : state) (c : nat) (data : list byte) : Prop :=
  read_type data = msgTypeConnect \/ read_type data = msgTypeConnected \/
  (read_type data = msgTypeAddRing /\ exists fd, received_fd s c fd).

Lemma dispatch_unbound `{Callbacks} s c x :
  ccs s !! c = Some x -> cc_port x = None -> zlen (cc_data x) = msgSize ->
  needs_port s c (cc_data x) -> dispatch c (read_type (cc_data x)) s = Panic NilDereference.
Proof.
  intros Hx Hp Hd Hn.
  assert (Hread : forall N `{Message N} (k : N -> M (option goerror)) e,
    (forall m, k m s = Panic e) -> with_msg N c k s = Panic e).
  { intros N HN k e Hk. destruct (read_msg_full (M := N) (cc_data x) Hd) as (m & Hm & _).
    unfold with_msg. mstep. by rewrite Hm. }
  destruct Hn as [->|[->|[-> [fd Hfd]]]]; cbn [dispatch Z.eqb Pos.eqb msgTypeAck msgTypeHello
    msgTypeInit msgTypeAddRegion msgTypeAddRing msgTypeConnect msgTypeConnected].
  - apply check_panic, Hread. intros m. by eapply chan_port_nil_with.
  - apply Hread. intros m. by eapply chan_port_nil_with.
  - apply check_panic, Hread. intros m. erewrite M_bind_ret by eauto with heap.
    by eapply chan_port_nil_with.
Qed.

(** C38: a listening process dies on a peer's first datagram if that is a
    connect, connected, or add-ring message instead of init: the channel has no
    port yet and the handler follows the nil pointer.  (The add-ring message must
    carry a descriptor; without one it is refused before the port is looked at.)
    No message is needed before, and the sender is not authenticated. *)
Theorem early_message_crashes `{OS} `{Callbacks} `{ErrnoText} c x r s w m k :
  ccs s !! c = Some x -> cc_port x = None -> zlen (cc_data x) = msgSize ->
  sys (SysRecvmsg (cc_fd x)) (shm w) (kernel w) = (inl r, m, k) ->
  rcv_size r = msgSize -> zlen (rcv_data r) = msgSize ->
  needs_port (set_chan c (set_received (rcv_data r) (rcv_control r) x) s) c (rcv_data r) ->
  run (handleEvent c EPOLLIN s) w = Panicked NilDereference.
Proof.
  intros Hx Hp Hd Hsys Hsz Hrd Hn. unfold handleEvent.
  change (has_event EPOLLIN EPOLLHUP) with false. change (has_event EPOLLIN EPOLLERR) with false.
  change (has_event EPOLLIN EPOLLIN) with true. cbv iota. mstep.
  erewrite run_sys by exact Hsys. cbv iota. unfold on_datagram.
  rewrite (M_bind_ret _ _ _ _ _ (mod_chan_eq _ _ _ _ Hx)).
  rewrite go_copy_same by lia. rewrite Hsz. cbn [negb Z.eqb]. change (msgSize =? msgSize) with true.
  cbn [negb]. set (x' := set_received _ _ x) in *. set (s' := set_chan c x' s) in *.
  rewrite (check_panic _ _ _ _ NilDereference); [done|].
  assert (ccs s' !! c = Some x') as Hx' by apply lookup_set_chan.
  unfold parseMsg. mstep. apply M_bind_panic.
  by apply (dispatch_unbound s' c x').
Qed.

(** A stray connect message. *)
Definition stray_connect : received :=
  mkReceived 128 (datagram (write_msg (mkMsgConnect (copy_array 32 (bytes_of "x"))))) (inl []).

Lemma early_message_crashes_witness :
  run (handleEvent 1 EPOLLIN (small_state (idle_port true (zeros 24)) (small_chan None (zeros 128) [])))
    (mkWorld ∅ (mkDemo 10 [] [stray_connect])) = Panicked NilDereference.
Proof.
  eapply (early_message_crashes 1 (small_chan None (zeros 128) []) stray_connect); try reflexivity.
  left. reflexivity.
Defined.

(** ** The queue pairs a server announces *)

(** The message [msgEnqHello] sends. *)
Definition hello_msg (s : state) : MsgHello :=
  mkMsgHello (copy_array 32 (appName (socket s))) Version Version 255 255 255 14.

Lemma msgEnqHello_eq s c :
  is_Some (ccs s !! c) ->
  msgEnqHello c s = mret (None, queued c (mkControlMsg (write_msg (hello_msg s)) (-1)) s).
Proof. intros Hc. unfold msgEnqHello. by do 2 mstep. Qed.

Lemma negotiate_hello s mc :
  0 <= NumQueuePairs mc <= 255 -> 0 <= Log2RingSize mc <= 14 -> negotiate mc (hello_msg s) = mc.
Proof.
  intros Hn Hl. destruct mc. unfold negotiate, hello_msg, min16, min8. cbn in *.
  f_equal; case_bool; zbool; lia.
Qed.

(** The hello of a server names the limits of the protocol, not of the port:
    a client with up to 255 queue pairs keeps its own number, and when that is
    more than the server port has, the server refuses the first ring beyond its
    own with "invalid ring index", in either direction, whatever was accepted
    before. *)
Theorem excess_pair_refused ss0 hc ss c spid sp t q sfd mc :
  is_Some (ccs ss0 !! hc) -> 0 <= NumQueuePairs mc <= 255 -> 0 <= Log2RingSize mc <= 14 ->
  0 <= NumQueuePairs (run_ sp) < NumQueuePairs mc ->
  chan_of ss c spid sp -> received_fd ss c sfd ->
  received_msg ss c (ring_msg t (NumQueuePairs (run_ sp)) q) ->
  exists msg hello, msgEnqHello hc ss0 = mret (None, queued hc msg ss0) /\
    Buffer msg = write_msg hello /\ NumQueuePairs (negotiate mc hello) = NumQueuePairs mc /\
    parseAddRing c ss = mret (Some (Err "invalid ring index"), ss).
Proof.
  intros Hh Hn Hl Hs Hc Hf Hr. eexists _, (hello_msg ss0). split; [by apply msgEnqHello_eq|].
  split; [done|]. split; [by rewrite negotiate_hello|].
  erewrite (parseAddRing_eq ss c spid sp) by (done || (apply ring_msg_ok; lia)).
  cbn [ring_Index ring_msg]. by rewrite (proj2 (Z.leb_le _ _)).
Qed.

(** A server with one pair and a client with two. *)
Lemma excess_pair_refused_witness :
  let ss := small_state demo_server (small_chan (Some 0%nat)
              (datagram (write_msg (ring_msg ringTypeS2M 1 demo_s2m))) [right_to 11]) in
  exists msg hello, msgEnqHello 1 ss = mret (None, queued 1 msg ss) /\
    Buffer msg = write_msg hello /\ NumQueuePairs (negotiate (mkMemoryConfig 2 1 4) hello) = 2 /\
    parseAddRing 1 ss = mret (Some (Err "invalid ring index"), ss).
Proof.
  intros ss. apply (excess_pair_refused ss 1 ss 1 0 demo_server ringTypeS2M demo_s2m 11 (mkMemoryConfig 2 1 4)).
  all: first [by apply small_received_fd | by apply (small_received (N := MsgAddRing)) | by eexists | done].
Defined.
