(* ===== verification/Trace.v ===== *)
(** * System-call traces

    The kernel, instrumented: [traced os] answers as [os] does and records the
    calls in order.  Theorems about the calls a function makes are stated in the
    traced kernel of an arbitrary [os], so they hold whatever the kernel answers. *)
From stdpp Require Import base tactics list gmap strings.
From coqutil Require Import Byte.
From Stdlib Require Import ZArith Lia.
From S2P Require Import Prelude.
From S2P Require Import Shm.
From S2P Require Import State.
From S2P Require Import Heap.

(** A call, whatever its answer type. *)
Inductive scall := SC (X : Type) (c : syscall X).
Arguments SC {X} c.

Definition traced (os : OS) : OS :=
  {| os_state := list scall * @os_state os;
     sys := fun X c m s =>
       let '(x, m', s') := @sys os X c m s.2 in (x, m', (s.1 ++ [SC c], s')) |}.

Section trace.
Context {os : OS}.
#[local] Existing Instance traced | 0.

Definition trace (w : @world (traced os)) : list scall := fst (@kernel (traced os) w).

(** [p] returns, having made the calls [l] that [Q] allows for its result. *)
Definition calls {A} (p : prog A) (w : @world (traced os)) (Q : A -> list scall -> Prop) : Prop :=
  @wp (traced os) _ A p w (fun a w' => exists l, trace w' = trace w ++ l /\ Q a l).

Lemma calls_ret {A} (a : A) w (Q : A -> list scall -> Prop) : Q a [] -> calls (mret a) w Q.
Proof. intros HQ. exists []. by rewrite app_nil_r. Qed.

Lemma calls_bind {A B} (p : prog A) (k : A -> prog B) w (Q : B -> list scall -> Prop) :
  calls p w (fun a l => forall w', calls (k a) w' (fun b l' => Q b (l ++ l'))) ->
  calls (p ≫= k) w Q.
Proof.
  intros Hp. apply wp_bind. eapply wp_mono; [exact Hp|]. intros a w' (l & Hl & Hk).
  eapply wp_mono; [apply (Hk w')|]. intros b w'' (l' & Hl' & HQ).
  exists (l ++ l'). split; [|done]. by rewrite Hl', Hl, app_assoc.
Qed.

Lemma calls_mono {A} (p : prog A) w (Q R : A -> list scall -> Prop) :
  calls p w Q -> (forall a l, Q a l -> R a l) -> calls p w R.
Proof. intros Hp HR. eapply wp_mono; [exact Hp|]. intros a w' (l & ? & ?). eauto. Qed.

Lemma calls_sys {X} (c : syscall X) w (Q : X -> list scall -> Prop) :
  (forall x, Q x [SC c]) -> calls (syscall_ c) w Q.
Proof.
  intros HQ. unfold calls, wp, syscall_. simpl.
  destruct (@sys os X c (@shm (traced os) w) (@kernel (traced os) w).2) as [[x m] k] eqn:E.
  simpl. exists [SC c]. split; [done|]. apply HQ.
Qed.

(** The same, knowing that the answer is one the kernel gives. *)
Lemma calls_sys_answer {X} (c : syscall X) w (Q : X -> list scall -> Prop) :
  (forall m k, Q (@sys os X c m k).1.1 [SC c]) -> calls (syscall_ c) w Q.
Proof.
  intros HQ. unfold calls, wp, syscall_. simpl.
  specialize (HQ (@shm (traced os) w) (@kernel (traced os) w).2).
  destruct (@sys os X c (@shm (traced os) w) (@kernel (traced os) w).2) as [[x m] k] eqn:E.
  simpl in *. exists [SC c]. split; [done|]. apply HQ.
Qed.

Lemma calls_load f o n bs w (Q : list byte -> list scall -> Prop) :
  ld (@shm (traced os) w) f o n = Some bs -> Q bs [] -> calls (load f o n) w Q.
Proof.
  intros Hl HQ. unfold calls. eapply wp_load; [exact Hl|]. exists []. by rewrite app_nil_r.
Qed.

(** Calls are only added. *)
Lemma run_grows {A} (p : prog A) (w : @world (traced os)) :
  match @run (traced os) _ _ p w with
  | Done _ w' | Blocked w' => exists l, trace w' = trace w ++ l
  | _ => True
  end.
Proof.
  revert w. induction p as [a|e|f o n c IH|f o bs c IH|X c kk IH|]; intros w; cbn; try done.
  - exists []. by rewrite app_nil_r.
  - destruct (ld _ f o n); [apply IH|done].
  - destruct (st _ f o bs) as [m|]; [|done].
    exact (IH (@mkWorld (traced os) m (@kernel (traced os) w))).
  - destruct (sys c _ _) as [[x m] s].
    pose proof (IH x (@mkWorld (traced os) m ((@kernel (traced os) w).1 ++ [SC c], s))) as Hg.
    destruct (run _ _) as [a w'| | |w']; try done; destruct Hg as [l Hl]; exists (SC c :: l);
      rewrite Hl; unfold trace; cbn; by rewrite <- app_assoc.
  - exists []. by rewrite app_nil_r.
Qed.

(** The same for control-plane functions. *)
Definition callsM {A} (m : M A) (s : state) (w : @world (traced os))
    (Q : A -> state -> list scall -> Prop) : Prop :=
  calls (m s) w (fun '(a, s') l => Q a s' l).

Lemma callsM_eq {A} (m : M A) s w a s' (Q : A -> state -> list scall -> Prop) :
  m s = mret (a, s') -> Q a s' [] -> callsM m s w Q.
Proof. intros Hm HQ. unfold callsM. rewrite Hm. by apply calls_ret. Qed.

Lemma callsM_ret {A} (a : A) s w (Q : A -> state -> list scall -> Prop) :
  Q a s [] -> callsM (mret a) s w Q.
Proof. by apply callsM_eq. Qed.

Lemma callsM_bind {A B} (m : M A) (k : A -> M B) s w (Q : B -> state -> list scall -> Prop) :
  callsM m s w (fun a s' l => forall w', callsM (k a) s' w' (fun b s'' l' => Q b s'' (l ++ l'))) ->
  callsM (m ≫= k) s w Q.
Proof.
  intros Hm. unfold callsM, mbind, M_bind. apply calls_bind. eapply calls_mono; [exact Hm|].
  intros [a s'] l Hk w'. eapply calls_mono; [apply (Hk w')|]. by intros [b s''] l'.
Qed.

(** A step that makes no call. *)
Lemma callsM_step {A B} (m : M A) (k : A -> M B) s w a s' (Q : B -> state -> list scall -> Prop) :
  m s = mret (a, s') -> callsM (k a) s' w Q -> callsM (m ≫= k) s w Q.
Proof. intros Hm Hk. unfold callsM. by rewrite (M_bind_ret _ _ _ _ _ Hm). Qed.

Lemma callsM_check_step e wr k s w s' (Q : option goerror -> state -> list scall -> Prop) :
  e s = mret (None, s') -> callsM k s' w Q -> callsM (check e wr k) s w Q.
Proof. intros He Hk. unfold callsM. by rewrite (check_None _ _ _ _ _ He). Qed.

Lemma callsM_mono {A} (m : M A) s w (Q R : A -> state -> list scall -> Prop) :
  callsM m s w Q -> (forall a s' l, Q a s' l -> R a s' l) -> callsM m s w R.
Proof. intros Hm HR. eapply calls_mono; [exact Hm|]. intros [a s'] l. apply HR. Qed.

Lemma callsM_lift {A} (p : prog A) s w (Q : A -> state -> list scall -> Prop) :
  calls p w (fun a l => Q a s l) -> callsM (lift p) s w Q.
Proof.
  intros Hp. unfold callsM, lift. apply calls_bind. eapply calls_mono; [exact Hp|].
  intros a l HQ w'. apply calls_ret. by rewrite app_nil_r.
Qed.

Lemma callsM_check e wr k s w (Q : option goerror -> state -> list scall -> Prop) :
  callsM e s w (fun err s' l =>
    match err with
    | Some x => Q (Some (wr x)) s' l
    | None => forall w', callsM k s' w' (fun r s'' l' => Q r s'' (l ++ l'))
    end) -> callsM (check e wr k) s w Q.
Proof.
  intros He. apply callsM_bind. eapply callsM_mono; [exact He|].
  intros [x|] s' l Hk w'; [|apply Hk]. apply callsM_ret. by rewrite app_nil_r.
Qed.

(** From a trace specification to a run. *)
Lemma callsM_run {A} (m : M A) s w (Q : A -> state -> list scall -> Prop) :
  callsM m s w Q ->
  exists a s' w' l, @run (traced os) _ _ (m s) w = Done (a, s') w' /\
    trace w' = trace w ++ l /\ Q a s' l.
Proof.
  intros Hm. unfold callsM, calls in Hm.
  apply wp_done in Hm as ([a s'] & w' & Hr & l & Hl & HQ). eauto 10.
Qed.
End trace.

(** Next operation: an equation, or a case of the rules. *)
Ltac cstep :=
  first
    [ eapply callsM_step; [by eauto with heap|]; cbv beta iota
    | eapply callsM_check_step; [by eauto with heap|]; cbv beta iota
    | apply callsM_check; cbv beta iota
    | apply callsM_bind; cbv beta iota ].
