(* ===== verification/Lifecycle.v ===== *)
(** * The end of a link: what is given back

    [disconnect] and [close] against the calls they make: every eventfd, mapping
    and region file of a port is released exactly once, the port returns to its
    initial state, and the cases in which this fails.

    Both run the port's disconnected callback first; whether they return depends
    on it.  [releasing] and [closes] describe their outcome for any callback that
    returns, fails, panics or waits for ever.  The default callback waits for the
    port's workers: it returns where the class [WgReturns] holds, and
    [Workers.v] shows workers for which it does not. *)
From stdpp Require Import base tactics list gmap strings pretty.
From coqutil Require Import Byte.
From Stdlib Require Import ZArith Lia.
From S2P Require Import Prelude.
From S2P Require Import GoInt.
From S2P Require Import Shm.
From S2P Require Import State.
From S2P Require Import Ring.
From S2P Require Import Queue.
From S2P Require Import Region.
From S2P Require Import Wire.
From S2P Require Import Heap.
From S2P Require Import Endpoint.
From S2P Require Import Control.
From S2P Require Import Socket.
From S2P Require Import Demo.
From S2P Require Import Protocol.
From S2P Require Import Trace.

(** Applications whose callbacks leave the driver alone. *)
Class QuietCallbacks (cb : Callbacks) := {
  user_func_quiet : forall n pid s, user_func n pid s = mret (None, s)
}.
#[export] Instance demo_quiet : QuietCallbacks demo_callbacks.
Proof. split. reflexivity. Defined.

(** Applications whose callbacks do not change the driver's state.  They may
    fail, panic, block, and make any call. *)
Class OutsideCallbacks (cb : Callbacks) := {
  user_func_outside : forall (os : OS) n pid s w,
    match run (user_func n pid s) w with Done (_, s') _ => s' = s | _ => True end
}.
#[export] Instance quiet_outside (cb : Callbacks) `{!QuietCallbacks cb} : OutsideCallbacks cb.
Proof. split. intros os n pid s w. by rewrite user_func_quiet. Qed.

(** The wait groups of the process come to zero whenever they are waited for. *)
Class WgReturns (os : OS) := {
  wg_returns : forall wg m k, (sys (SysWgWait wg) m k).1.1 = true
}.
#[export] Instance demo_wg_returns : WgReturns demo_os.
Proof. split. reflexivity. Defined.

(** ** What a port holds *)

Definition release_queue (q : Queue) : scall := SC (SysClose (interruptFd q)).
Definition release_region (r : memoryRegion) : list scall :=
  match data r with
  | Some d => [SC (SysMunmap d); SC (SysClose (fd r))]
  | None => []
  end.

(** Everything the kernel holds for a port, in the order it is given back. *)
Definition releases (p : Port) : list scall :=
  (release_queue <$> txQueues p) ++ (release_queue <$> rxQueues p) ++
  concat (release_region <$> regions p).

Definition mapped (r : memoryRegion) : Prop := exists d, data r = Some d /\ s_len d <> 0.

(** The disconnected callback can be called: it is not nil, and if it is the
    default one, the port's channels are still open. *)
Definition callback_ok (p : Port) : Prop :=
  match DisconnectedFunc (cfg p) with
  | NilFunc => False
  | UserFunc _ => True
  | DefaultDisconnectedFunc => QuitChan_closed p = false /\ ErrChan_closed p = false
  end.

Definition after_callback (p : Port) : Port :=
  match DisconnectedFunc (cfg p) with
  | DefaultDisconnectedFunc => set_chans_closed true true p
  | _ => p
  end.

(** What the default callback waits for. *)
Definition waits (pid : nat) (p : Port) : list scall :=
  match DisconnectedFunc (cfg p) with
  | DefaultDisconnectedFunc => [SC (SysWgWait pid)]
  | _ => []
  end.

(** The port without its queues, and without anything of its link. *)
Definition no_queues (p : Port) : Port := set_rxQueues [] (set_txQueues [] p).
Definition no_link (p : Port) : Port :=
  set_remoteName [] (set_peerName [] (set_cc None (set_regions [] (no_queues p)))).

Definition drop_queues (p : Port) : Port := no_queues (after_callback p).
Definition released (p : Port) : Port := no_link (after_callback p).

Lemma set_port_same pid p s : ports s !! pid = Some p -> set_port pid p s = s.
Proof. intros Hp. destruct s. unfold set_port. simpl in *. by rewrite insert_id. Qed.

Section release.
Context {os : OS} {cb : Callbacks} {HQ : QuietCallbacks cb} {HW : WgReturns os}.

Lemma call_disconnected pid p s w :
  ports s !! pid = Some p -> callback_ok p ->
  callsM (call (DisconnectedFunc (cfg p)) pid) s w (fun err s' l =>
    err = None /\ s' = set_port pid (after_callback p) s /\ l = waits pid p).
Proof using HQ HW.
  intros Hp Hok. unfold callback_ok, after_callback, waits in *.
  destruct (DisconnectedFunc (cfg p)) as [|n|]; [done|..]; simpl.
  - eapply callsM_eq; [apply user_func_quiet|]. by rewrite set_port_same.
  - destruct Hok as [Hq He]. unfold defaultDisconnectedFunc. cstep. rewrite Hq. cstep.
    rewrite He. cstep. apply callsM_bind, callsM_lift, calls_bind, calls_sys_answer.
    intros m k w'. rewrite wg_returns. apply calls_ret. intros w''. apply callsM_ret.
    by rewrite set_port_set_port.
Qed.

Lemma calls_close_queues qs (w : @world (traced os)) :
  calls (close_queues qs) w (fun _ l => l = release_queue <$> qs).
Proof using.
  revert w. induction qs as [|q qs IH]; intros w; [by apply calls_ret|].
  cbn [close_queues fmap list_fmap]. apply calls_bind. unfold Queue_close.
  apply calls_bind, calls_sys. intros _ w'. apply calls_ret. intros w''.
  eapply calls_mono; [apply IH|]. by intros _ l ->.
Qed.

Lemma calls_Munmap d (w : @world (traced os)) (Q : option errno -> list scall -> Prop) :
  Q (Some EINVAL) [] ->
  (forall s r, d = Some s -> s_len s <> 0 -> Q r [SC (SysMunmap s)]) -> calls (Munmap d) w Q.
Proof using.
  intros H1 H2. unfold Munmap. destruct d as [d|]; [|by apply calls_ret].
  case_bool; zbool; [by apply calls_ret|]. apply calls_sys. intros x. by apply H2.
Qed.

(** Complete, or interrupted at the first refusal. *)
Lemma calls_unmap_regions rs (w : @world (traced os)) :
  calls (unmap_regions rs) w (fun err l =>
    match err with
    | None => l = concat (release_region <$> rs) /\ Forall mapped rs
    | Some _ => l `prefix_of` concat (release_region <$> rs)
    end).
Proof using.
  revert w. induction rs as [|r rs IH]; intros w; [by apply calls_ret|].
  cbn [unmap_regions fmap list_fmap concat]. apply calls_bind, calls_Munmap.
  { intros w'. apply calls_ret, prefix_nil. }
  intros d x Hd Hlen w'.
  assert (release_region r = [SC (SysMunmap d); SC (SysClose (fd r))]) as -> by (unfold release_region; by rewrite Hd).
  destruct x as [e|]; [apply calls_ret; by eexists|]. apply calls_bind, calls_sys.
  intros [e|] w''; [apply calls_ret; by eexists|].
  eapply calls_mono; [apply IH|]. intros [e|] l; cbn.
  - intros [k Hk]. exists k. simpl. do 2 f_equal. exact Hk.
  - intros [-> Hf]. split; [done|]. constructor; [|done]. by exists d.
Qed.

(** [disconnect] of a port that has a channel: complete, or stopped by a region
    that cannot be unmapped. *)
Lemma disconnect_calls pid p c s w :
  ports s !! pid = Some p -> p_cc p = Some c -> callback_ok p ->
  callsM (disconnect pid) s w (fun err s' l =>
    match err with
    | None => s' = set_port pid (released p) s /\ l = waits pid p ++ releases p /\ Forall mapped (regions p)
    | Some _ => s' = set_port pid (drop_queues p) s /\ l `prefix_of` (waits pid p ++ releases p)
    end).
Proof using HQ HW.
  intros Hp Hc Hok. unfold disconnect. cstep. rewrite Hc. apply callsM_check.
  eapply callsM_mono; [by apply call_disconnected|]. intros err s0 l0 (-> & -> & ->) w0.
  set (q := after_callback p).
  assert (txQueues q = txQueues p /\ rxQueues q = rxQueues p /\ regions q = regions p) as (Ht & Hr & Hg).
  { unfold q, after_callback. by destruct (DisconnectedFunc (cfg p)). }
  cstep. apply callsM_bind, callsM_lift. eapply calls_mono; [apply calls_close_queues|].
  intros _ l -> w1. do 2 cstep. apply callsM_bind, callsM_lift.
  eapply calls_mono; [apply calls_close_queues|]. intros _ l -> w2. do 2 cstep.
  apply callsM_check, callsM_lift. eapply calls_mono; [apply calls_unmap_regions|].
  cbn [regions rxQueues set_rxQueues set_txQueues]. rewrite Ht, Hr, Hg.
  intros [e|] l Hl.
  - rewrite !set_port_set_port. split; [done|]. unfold releases. by do 3 apply prefix_app.
  - destruct Hl as [-> Hm]. intros w3. do 4 cstep. apply callsM_ret. rewrite !set_port_set_port.
    split; [done|]. by rewrite app_nil_r.
Qed.
(** ** Closing a channel *)

Definition disconnect_msg (str : string) : list byte :=
  write_msg (mkMsgDisconnect 0 (copy_array 96 (bytes_of str))).

(** The port a channel disconnects when it is closed. *)
Definition bound_port (s : state) (x : controlChannel) : option (nat * Port) :=
  match cc_port x with
  | Some pid =>
      match ports s !! pid with
      | Some p => match p_cc p with Some _ => Some (pid, p) | None => None end
      | None => None
      end
  | None => None
  end.

(** The calls of a complete [close], and the state it leaves. *)
Definition close_calls (s : state) (x : controlChannel) (send : bool) (str : string) : list scall :=
  (if send then [SC (SysSendmsg (cc_fd x) (disconnect_msg str) msgSize None)] else []) ++
  SC (SysEpollCtl (epfd (socket s)) EPOLL_CTL_DEL (cc_fd x)) ::
  match bound_port s x with Some (pid, p) => waits pid p ++ releases p | None => [] end.

Definition forget (c : nat) (s : state) : state :=
  set_socket (set_ccList (list_remove c (ccList (socket s))) (socket s)) s.

Definition closed (s : state) (c : nat) (x : controlChannel) (send : bool) : state :=
  let s1 := forget c (set_chan c (if send then set_msgQueue [] x else x) s) in
  match bound_port s x with Some (pid, p) => set_port pid (released p) s1 | None => s1 end.

(** The channel's port exists and its callback can be called. *)
Definition closable (s : state) (x : controlChannel) : Prop :=
  match cc_port x with
  | Some pid => exists p, ports s !! pid = Some p /\ (p_cc p <> None -> callback_ok p)
  | None => True
  end.

Lemma set_chan_same c x s : ccs s !! c = Some x -> set_chan c x s = s.
Proof using. intros Hx. destruct s. unfold set_chan. simpl in *. by rewrite insert_id. Qed.

(** The disconnect message, alone in the queue, is sent. *)
Lemma send_disconnect_calls c x str s w :
  ccs s !! c = Some x ->
  callsM (mod_chan c (set_msgQueue []) ;; msgEnqDisconnect c (bytes_of str) ;; sendMsg c) s w
    (fun _ s' l => s' = set_chan c (set_msgQueue [] x) s /\
       l = [SC (SysSendmsg (cc_fd x) (disconnect_msg str) msgSize None)]).
Proof using.
  intros Hx. cstep. unfold msgEnqDisconnect.
  apply callsM_bind. cstep. apply callsM_ret. intros w1.
  rewrite (queued_chan _ _ (set_msgQueue [] x)) by apply lookup_set_chan. unfold sendMsg. cstep.
  cbn [msgQueue set_msgQueue app Buffer cc_fd Fd]. cstep.
  change (zlen (write_msg _) =? 0) with false. cbv iota. cbn [Z.ltb Z.compare].
  apply callsM_bind, callsM_lift, calls_sys. intros r w2. apply callsM_ret.
  by rewrite !set_chan_set_chan.
Qed.

Lemma delEvent_calls efd s w :
  callsM (delEvent efd) s w (fun _ s' l =>
    s' = s /\ l = [SC (SysEpollCtl (epfd (socket s)) EPOLL_CTL_DEL efd)]).
Proof using.
  unfold delEvent. cstep. apply callsM_bind, callsM_lift, calls_sys. intros r w'.
  by apply callsM_ret.
Qed.

(** The part of [close] after the channel left the list. *)
Lemma disconnect_bound_calls s x w :
  closable s x ->
  callsM (match cc_port x with
          | Some pid => check (disconnect pid) (Wrap "port Disconnect") (mret None)
          | None => mret None
          end) s w (fun err s' l =>
    match bound_port s x with
    | Some (pid, p) => (err = None -> s' = set_port pid (released p) s /\ l = waits pid p ++ releases p) /\
                       l `prefix_of` (waits pid p ++ releases p) /\ socket s' = socket s
    | None => err = None /\ s' = s /\ l = []
    end).
Proof using HQ HW.
  intros Hok. unfold closable, bound_port in *. destruct (cc_port x) as [pid|]; [|by apply callsM_ret].
  destruct Hok as (p & Hp & Hcb). rewrite Hp. apply callsM_check. destruct (p_cc p) as [c|] eqn:Hc.
  - eapply callsM_mono; [eapply (disconnect_calls pid p c); [done|done|by apply Hcb]|].
    intros [e|] s' l Hpost; [by destruct Hpost as [-> Hpre]|]. intros w'. apply callsM_ret.
    rewrite app_nil_r. by destruct Hpost as (-> & -> & _).
  - eapply callsM_eq.
    + unfold disconnect. mstep. by rewrite Hc.
    + intros w'. by apply callsM_ret.
Qed.

Lemma close_spec c x send str s w :
  ccs s !! c = Some x -> closable s x ->
  callsM (close c send str) s w (fun err s' l =>
    (err = None -> s' = closed s c x send /\ l = close_calls s x send str) /\
    l `prefix_of` close_calls s x send str /\
    portList (socket s') = portList (socket s)).
Proof using HQ HW.
  intros Hx Hok. unfold close. set (x1 := if send then set_msgQueue [] x else x).
  assert (Hx1 : cc_fd x1 = cc_fd x /\ cc_port x1 = cc_port x) by (unfold x1; by destruct send).
  destruct Hx1 as [Hfd Hport]. unfold closed, close_calls. fold x1.
  
  set (part := if send then [SC _] else []). apply callsM_check.
  apply (callsM_mono _ _ _ (fun _ s' l => s' = set_chan c x1 s /\ l = part)).
  { unfold part, x1. destruct send; [by apply send_disconnect_calls|].
    apply callsM_ret. by rewrite set_chan_same. }
  intros [e|] s1 l1 [-> ->]; [split; [done|split; [by eexists|done]]|]. intros w1. cstep. rewrite Hfd.
  apply callsM_check. eapply callsM_mono; [apply delEvent_calls|].
  intros [e|] s1 l1 [-> ->]; [split; [done|split; [apply prefix_app; by eexists|done]]|].
  intros w2. do 2 cstep.
  rewrite Hport. eapply callsM_mono; [apply (disconnect_bound_calls _ x); exact Hok|].
  intros err s1 l1 Hpost. change (bound_port _ x) with (bound_port s x) in Hpost.
  destruct (bound_port s x) as [[pid p]|].
  - destruct Hpost as (Hn & Hpre & ->). split; [|split; [by apply prefix_app, prefix_cons|done]].
    intros He. by destruct (Hn He) as [-> ->].
  - destruct Hpost as (-> & -> & ->). by split.
Qed.
End release.

(** ** Whatever the callback does *)

(** [unmap_regions] with error [e] after the calls [l]: the regions before [r]
    were released, and [r] has no mapping or the kernel refused a call for it. *)
Definition stopped (rs : list memoryRegion) (e : goerror) (l : list scall) : Prop :=
  exists before r after n, rs = before ++ r :: after /\ Forall mapped before /\ e = ErrErrno n /\
    let l0 := concat (release_region <$> before) in
    ((~ mapped r /\ n = EINVAL /\ l = l0) \/
     exists d, data r = Some d /\ (l = l0 ++ [SC (SysMunmap d)] \/
                                 l = l0 ++ [SC (SysMunmap d); SC (SysClose (fd r))])).

Section outcome.
Context {os : OS} {cb : Callbacks}.

(** Disconnecting, once the callback has returned and left the port as [p]: what
    is returned, the state and the calls. *)
Definition gives_back (pid : nat) (p : Port) (s : state) (err : option goerror) (s' : state)
    (l : list scall) : Prop :=
  match err with
  | None => l = releases p /\ s' = set_port pid (no_link p) s /\ Forall mapped (regions p)
  | Some e => s' = set_port pid (no_queues p) s /\
      exists l', l = (release_queue <$> txQueues p) ++ (release_queue <$> rxQueues p) ++ l' /\
        stopped (regions p) e l'
  end.

(** The outcome [r] of disconnecting port [pid], whose record is [p], in state
    [s]: the disconnected callback runs first, and what it leaves is released. *)
Definition releasing (pid : nat) (p : Port) (s : state) (w : @world (traced os))
    (wrap : goerror -> goerror) (r : @outcome (traced os) (option goerror * state)) : Prop :=
  match @run (traced os) _ _ (call (DisconnectedFunc (cfg p)) pid s) w with
  | Done (None, s1) w1 => forall p1, ports s1 !! pid = Some p1 ->
      exists err s' w' l, r = Done (wrap <$> err, s') w' /\ trace w' = trace w1 ++ l /\
        gives_back pid p1 s1 err s' l
  | Done (Some e, s1) w1 => r = Done (Some (wrap (Wrap "disconnectedFunc" e)), s1) w1
  | Panicked e => r = Panicked e
  | Faulted => r = Faulted
  | Blocked w1 => r = Blocked w1
  end.

(** The outcome [r] of what [close] does once the message is sent: channel [c],
    whose record is [x], leaves the epoll set and the list, and its port. *)
Definition leaves (c : nat) (x : controlChannel) (s : state) (w : @world (traced os))
    (r : @outcome (traced os) (option goerror * state)) : Prop :=
  ask (SysEpollCtl (epfd (socket s)) EPOLL_CTL_DEL (cc_fd x)) w (fun a w =>
    match a with
    | Some n => r = Done (Some (Wrap "failed to del event" (Wrap "EpollCtl" (ErrErrno n))), s) w
    | None =>
        match bound_port s x with
        | None => r = Done (None, forget c s) w
        | Some (pid, p) => releasing pid p (forget c s) w (Wrap "port Disconnect") r
        end
    end).

(** The outcome [r] of closing it. *)
Definition closes (c : nat) (x : controlChannel) (send : bool) (str : string) (s : state)
    (w : @world (traced os)) (r : @outcome (traced os) (option goerror * state)) : Prop :=
  if send then
    let s0 := set_chan c (set_msgQueue [] x) s in
    ask (SysSendmsg (cc_fd x) (disconnect_msg str) msgSize None) w (fun a w =>
      match a with
      | Some n => r = Done (Some (Wrap "SYS_SENDMSG" (ErrErrno n)), s0) w
      | None => leaves c x s0 w r
      end)
  else leaves c x s w r.

(** The default callback. *)
Lemma default_outcome pid p s (w : @world (traced os)) :
  ports s !! pid = Some p ->
  @run (traced os) _ _ (defaultDisconnectedFunc pid s) w =
  if QuitChan_closed p || ErrChan_closed p then Panicked CloseOfClosedChannel
  else let '(b, m, k) := @sys (traced os) _ (SysWgWait pid) (@shm (traced os) w) (@kernel (traced os) w) in
       if b then Done (None, set_port pid (set_chans_closed true true p) s) (@mkWorld (traced os) m k)
       else Blocked (@mkWorld (traced os) m k).
Proof using.
  intros Hp. unfold defaultDisconnectedFunc. erewrite M_bind_ret by eauto with heap. cbv beta.
  destruct (QuitChan_closed p); [done|]. cbn [orb].
  erewrite M_bind_ret by eauto with heap. cbv beta. destruct (ErrChan_closed p); [done|].
  erewrite M_bind_ret by eauto with heap. cbv beta. rewrite set_port_set_port, run_M_bind.
  unfold lift, wg_wait. rewrite !run_bind. cbn [run syscall_].
  by destruct (sys _ _ _) as [[[] m] k].
Qed.

Lemma unmap_regions_outcome rs (w : @world (traced os)) :
  calls (unmap_regions rs) w (fun err l =>
    match err with
    | None => l = concat (release_region <$> rs) /\ Forall mapped rs
    | Some e => stopped rs e l
    end).
Proof using.
  revert w. induction rs as [|r rs IH]; intros w; [by apply calls_ret|].
  cbn [unmap_regions]. apply calls_bind. unfold Munmap.
  destruct (data r) as [d|] eqn:Hd.
  2: { apply calls_ret. intros w'. apply calls_ret. exists [], r, rs, EINVAL.
       do 3 (split; [done|]). left. split; [|done]. by intros (d & ? & _); congruence. }
  case_bool; zbool.
  { apply calls_ret. intros w'. apply calls_ret. exists [], r, rs, EINVAL.
    do 3 (split; [done|]). left. split; [|done]. by intros (d' & ? & ?); simplify_eq. }
  apply calls_sys. intros [n|] w'.
  { apply calls_ret. exists [], r, rs, n. do 3 (split; [done|]). right. exists d. split; [done|by left]. }
  apply calls_bind, calls_sys. intros [n|] w''.
  { apply calls_ret. exists [], r, rs, n. do 3 (split; [done|]). right. exists d. split; [done|by right]. }
  assert (release_region r = [SC (SysMunmap d); SC (SysClose (fd r))]) as Hr by (unfold release_region; by rewrite Hd).
  eapply calls_mono; [apply IH|]. intros [e|] l; cbn [fmap list_fmap concat app]; rewrite ?Hr.
  - intros (before & r' & after & n & -> & Hb & -> & Hcase). exists (r :: before), r', after, n.
    split; [done|]. split; [constructor; [by exists d|done]|]. split; [done|].
    cbn [fmap list_fmap concat]. rewrite Hr. cbn zeta in *. cbn [app].
    destruct Hcase as [(? & ? & ->)|(d' & ? & [->| ->])]; [by left|right..]; exists d'; auto.
  - intros [-> Hf]. split; [done|]. constructor; [by exists d|done].
Qed.

Lemma disconnect_run pid p c s (w : @world (traced os)) :
  ports s !! pid = Some p -> p_cc p = Some c -> releasing pid p s w id (run (disconnect pid s) w).
Proof using.
  intros Hp Hc. unfold disconnect. erewrite M_bind_ret by eauto with heap. cbv beta. rewrite Hc, run_check.
  unfold releasing. destruct (run (call _ _ _) w) as [[[e|] s1] w1|e| |w1]; cbn [obind]; try done.
  intros p1 Hp1.
  match goal with |- context [run (?m s1) w1] => assert (Hcalls : callsM (os := os) m s1 w1 (fun err s' l =>
    gives_back pid p1 s1 err s' l)) end.
  { cstep. apply callsM_bind, callsM_lift. eapply calls_mono; [apply calls_close_queues|].
    intros _ l -> w2. do 2 cstep. apply callsM_bind, callsM_lift.
    eapply calls_mono; [apply calls_close_queues|]. intros _ l -> w3. do 2 cstep.
    apply callsM_check, callsM_lift. eapply calls_mono; [apply unmap_regions_outcome|].
    cbn [regions rxQueues set_rxQueues set_txQueues]. intros [e|] l Hl.
    - rewrite !set_port_set_port. split; [done|]. by exists l.
    - destruct Hl as [-> Hm]. intros w4. do 4 cstep. apply callsM_ret. rewrite !set_port_set_port.
      rewrite app_nil_r. done. }
  destruct (callsM_run _ _ _ _ Hcalls) as (err & s' & w' & l & Hr & Hl & Hpost).
  exists err, s', w', l. rewrite option_fmap_id. done.
Qed.

Lemma releasing_wrap pid p s (w : @world (traced os)) wrap r :
  releasing pid p s w id r ->
  releasing pid p s w wrap (obind r (fun '(err, s') w' =>
    match err with Some e => Done (Some (wrap e), s') w' | None => Done (None, s') w' end)).
Proof using.
  unfold releasing. destruct (run _ w) as [[[e|] s1] w1|e| |w1]; try by intros ->.
  intros Hr p1 Hp1. destruct (Hr p1 Hp1) as (err & s' & w' & l & -> & Hl & Hpost).
  exists err, s', w', l. split; [|done]. by destruct err.
Qed.

(** The prologue of [close]: the disconnect message. *)
Lemma send_disconnect_ask c x str s (w : @world (traced os)) (R : @outcome (traced os) (option goerror * state) -> Prop) :
  ccs s !! c = Some x ->
  ask (SysSendmsg (cc_fd x) (disconnect_msg str) msgSize None) w (fun a w =>
    R (Done (Wrap "SYS_SENDMSG" ∘ ErrErrno <$> a, set_chan c (set_msgQueue [] x) s) w)) ->
  R (run ((mod_chan c (set_msgQueue []) ;; msgEnqDisconnect c (bytes_of str) ;; sendMsg c) s) w).
Proof using.
  intros Hx HR. erewrite M_bind_ret by eauto with heap. cbv beta.
  rewrite (M_bind_ret _ _ _ None (queued c (mkControlMsg (disconnect_msg str) (-1)) (set_chan c (set_msgQueue [] x) s))).
  2: { unfold msgEnqDisconnect. erewrite M_bind_ret; [done|]. apply enqueue_eq. eexists. apply lookup_set_chan. }
  rewrite (queued_chan _ _ (set_msgQueue [] x)) by apply lookup_set_chan. unfold sendMsg.
  erewrite M_bind_ret by eauto with heap. cbv beta. cbn [msgQueue set_msgQueue app].
  erewrite M_bind_ret by eauto with heap. cbv beta. cbn [Buffer cc_fd Fd].
  change (zlen (disconnect_msg str) =? 0) with false. change (0 <? -1) with false. cbv iota.
  apply run_ask. by rewrite !set_chan_set_chan.
Qed.

(** The port that [x] is bound to exists. *)
Definition port_ok (s : state) (x : controlChannel) : Prop :=
  match cc_port x with Some pid => is_Some (ports s !! pid) | None => True end.

(** What [close] does once the message is sent. *)
Lemma leave_run c x s (w : @world (traced os)) :
  ccs s !! c = Some x -> port_ok s x ->
  leaves c x s w (@run (traced os) _ _ ((x ← get_chan c;
    try delEvent (cc_fd x) or Wrap "failed to del event" ;;
    modify (fun s => set_socket (set_ccList (list_remove c (ccList (socket s))) (socket s)) s) ;;
    x ← get_chan c;
    match cc_port x with
    | Some pid => try disconnect pid or Wrap "port Disconnect" ;; mret None
    | None => mret None
    end) s) w).
Proof using.
  intros Hx Hok. erewrite M_bind_ret by eauto with heap. cbv beta. rewrite run_check. unfold delEvent.
  erewrite M_bind_ret by apply get_state_eq. cbv beta. unfold leaves, ask.
  destruct (@sys (traced os) _ (SysEpollCtl _ _ _) _ _) as [[a m] k] eqn:Hs. rewrite (run_sys _ _ _ _ _ _ _ Hs).
  destruct a as [n|]; [done|]. rewrite run_M_ret. cbn [obind fmap option_fmap option_map].
  erewrite M_bind_ret by apply modify_eq. cbv beta. fold (forget c s).
  erewrite M_bind_ret by (apply get_chan_eq; exact Hx). cbv beta. unfold bound_port, port_ok in *.
  destruct (cc_port x) as [pid|]; [|done]. destruct Hok as [p Hp]. rewrite Hp, run_check.
  destruct (p_cc p) as [c'|] eqn:Hc.
  - pose proof (disconnect_run pid p c' (forget c s) (mkWorld m k) Hp Hc) as Hd.
    apply (releasing_wrap _ _ _ _ (Wrap "port Disconnect")) in Hd.
    destruct (run (disconnect pid _) _) as [[[?|] ?] ?| | |]; exact Hd.
  - assert (disconnect pid (forget c s) = mret (None, forget c s)) as -> by (unfold disconnect; mstep; by rewrite Hc).
    done.
Qed.

Lemma closed_unlisted s c x send : c ∉ ccList (socket (closed s c x send)).
Proof using.
  unfold closed. destruct (bound_port s x) as [[pid p]|]; simpl; unfold list_remove;
    rewrite list_elem_of_filter; by intros [].
Qed.

(** What a callback that stays outside the driver leaves. *)
Lemma outside_state `{!OutsideCallbacks cb} pid p s (w : @world (traced os)) e s1 w1 :
  ports s !! pid = Some p ->
  @run (traced os) _ _ (call (DisconnectedFunc (cfg p)) pid s) w = Done (e, s1) w1 ->
  s1 = set_port pid (after_callback p) s /\ exists l, trace w1 = trace w ++ l.
Proof using.
  intros Hp Hr. pose proof (run_grows (call (DisconnectedFunc (cfg p)) pid s) w) as Hg. rewrite Hr in Hg.
  split; [|exact Hg]. clear Hg. unfold after_callback.
  destruct (DisconnectedFunc (cfg p)) as [|n|]; cbn [call] in Hr; [done|..].
  - pose proof (user_func_outside (traced os) n pid s w) as Ho. rewrite Hr in Ho. subst s1.
    by rewrite set_port_same.
  - rewrite (default_outcome pid p s w Hp) in Hr. destruct (_ || _); [done|].
    destruct (sys _ _ _) as [[[] m] k]; [|done]. by injection Hr as <- <- <-.
Qed.

(** The calls before the port is disconnected. *)
Definition leave_calls (s : state) (x : controlChannel) (send : bool) (str : string) : list scall :=
  (if send then [SC (SysSendmsg (cc_fd x) (disconnect_msg str) msgSize None)] else []) ++
  [SC (SysEpollCtl (epfd (socket s)) EPOLL_CTL_DEL (cc_fd x))].

Lemma ask_traced {X} (c : syscall X) (w : @world (traced os)) (Q : X -> @world (traced os) -> Prop) :
  ask c w Q -> exists x w1, trace w1 = trace w ++ [SC c] /\ Q x w1.
Proof using.
  unfold ask. destruct (@sys (traced os) _ c _ _) as [[x m] k] eqn:Hs. intros HQ. eexists _, _.
  split; [|exact HQ]. unfold sys, traced in Hs. destruct (sys c _ _) as [[? ?] ?] in Hs. by simplify_eq.
Qed.

Lemma releasing_returns `{!OutsideCallbacks cb} pid p s (w : @world (traced os)) wrap s' w' :
  ports s !! pid = Some p -> releasing pid p s w wrap (Done (None, s') w') ->
  s' = set_port pid (released p) s /\ exists callback, trace w' = trace w ++ callback ++ releases p.
Proof using.
  intros Hp Hr. unfold releasing in Hr. destruct (run _ w) as [[[e|] s1] w1| | |] eqn:Hc; try done.
  destruct (outside_state _ _ _ _ _ _ _ Hp Hc) as [-> [l Hl]].
  destruct (Hr _ (lookup_set_port _ _ _)) as (err & s2 & w2 & l2 & [= He -> ->] & Hl2 & Hpost).
  destruct err as [e|]; [done|]. destruct Hpost as (-> & -> & _). rewrite set_port_set_port.
  split; [done|]. exists l. rewrite Hl2, Hl, <- app_assoc. do 2 f_equal.
  unfold after_callback. by destruct (DisconnectedFunc (cfg p)).
Qed.

Lemma leaves_returns `{!OutsideCallbacks cb} c x s (w : @world (traced os)) s' w' :
  leaves c x s w (Done (None, s') w') ->
  s' = match bound_port s x with Some (pid, p) => set_port pid (released p) (forget c s) | None => forget c s end /\
  exists callback, trace w' = trace w ++ leave_calls s x false "" ++ callback ++
    match bound_port s x with Some (_, p) => releases p | None => [] end.
Proof using.
  intros Hr. apply ask_traced in Hr as ([n|] & w1 & Hl & Hr); [done|]. unfold leave_calls.
  destruct (bound_port s x) as [[pid p]|] eqn:Hb.
  - assert (ports s !! pid = Some p) as Hp.
    { unfold bound_port in Hb. destruct (cc_port x) as [q|]; [|done].
      destruct (ports s !! q) as [p'|] eqn:E; [|discriminate]. destruct (p_cc p'); [|discriminate].
      congruence. }
    apply releasing_returns in Hr as (-> & callback & ->); [|done]. split; [done|].
    exists callback. by rewrite Hl, <- app_assoc.
  - injection Hr as -> ->. split; [done|]. exists []. by rewrite Hl.
Qed.

Lemma closes_returns `{!OutsideCallbacks cb} c x send str s (w : @world (traced os)) s' w' :
  ccs s !! c = Some x -> closes c x send str s w (Done (None, s') w') ->
  s' = closed s c x send /\ exists callback, trace w' = trace w ++ leave_calls s x send str ++ callback ++
    match bound_port s x with Some (_, p) => releases p | None => [] end.
Proof using.
  intros Hx Hr. unfold closes, closed in *. destruct send; [|rewrite set_chan_same by done; by apply leaves_returns in Hr].
  apply ask_traced in Hr as ([n|] & w1 & Hl & Hr); [done|].
  apply leaves_returns in Hr as (-> & callback & ->). split; [done|]. exists callback.
  by rewrite Hl, <- app_assoc.
Qed.

Lemma close_run c x send str s (w : @world (traced os)) :
  ccs s !! c = Some x -> port_ok s x -> closes c x send str s w (run (close c send str s) w).
Proof using.
  intros Hx Hok. unfold close, closes. rewrite run_check. destruct send.
  - unfold ask. destruct (@sys (traced os) _ (SysSendmsg _ _ _ _) _ _) as [[a m] k] eqn:Hs.
    assert (run ((mod_chan c (set_msgQueue []) ;; msgEnqDisconnect c (bytes_of str) ;; sendMsg c) s) w =
      Done (Wrap "SYS_SENDMSG" ∘ ErrErrno <$> a, set_chan c (set_msgQueue [] x) s) (@mkWorld (traced os) m k)) as ->.
    { apply (send_disconnect_ask c x str s w (fun r => r = _) Hx). unfold ask. by rewrite Hs. }
    destruct a as [n|]; [done|]. cbn [obind fmap option_fmap option_map].
    exact (leave_run c (set_msgQueue [] x) _ _ (lookup_set_chan _ _ _) Hok).
  - rewrite run_M_ret. by apply leave_run.
Qed.
End outcome.

(** ** Concrete ends *)

(** A connected client: one transmit queue, one receive queue, one region. *)
Definition live_port : Port :=
  mkPort (small_cfg false (zeros 24)) (mkMemoryConfig 1 1 4) None (Some 1%nat) (bytes_of "srv") (bytes_of "p")
    [mkRegion (Some (mkSlice 0 0 336)) 336 3 320]
    [mkQueue (mkRing ringTypeS2M 2 1 0 (zeros 128) 0) 0 0 0 8]
    [mkQueue (mkRing ringTypeM2S 2 1 0 (zeros 128) 160) 0 0 0 9] false false.
Definition live_state : state := small_state live_port (small_chan (Some 0%nat) (zeros 128) []).
Definition traced_world : @world (traced demo_os) := @mkWorld (traced demo_os) ∅ ([], mkDemo 20 [] []).

(** ** Theorems *)


(** The same port with the default callback. *)
Definition waiting_cfg : PortCfg :=
  mkPortCfg 7 false [] (zeros 24) (mkMemoryConfig 1 1 4) (UserFunc 0) DefaultDisconnectedFunc None.
Definition waiting_port : Port :=
  mkPort waiting_cfg (mkMemoryConfig 1 1 4) None (Some 1%nat) (bytes_of "srv") (bytes_of "p")
    (regions live_port) (txQueues live_port) (rxQueues live_port) false false.
Definition waiting_state : state := small_state waiting_port (small_chan (Some 0%nat) (zeros 128) []).




(** C20: the error path of parseMsg, for any handler's failure, whatever calls
    the handler made before: the channel is closed with the error's text as the
    only message sent, and the handler's error is returned; when closing fails too,
    both errors are; if closing does not return, neither does parseMsg. *)
Theorem parseMsg_error_closes {os} {cb : Callbacks} `{ErrnoText} c x e s s1 x1 w w1 :
  ccs s !! c = Some x ->
  @run (traced os) _ _ (dispatch c (read_type (cc_data x)) s) w = Done (Some e, s1) w1 ->
  ccs s1 !! c = Some x1 -> port_ok s1 x1 ->
  exists r, closes c x1 true (Error e) s1 w1 r /\
    @run (traced os) _ _ (parseMsg c s) w = obind r (fun '(err, s') w' =>
      Done (Some (match err with Some e1 => ErrExtra e e1 | None => e end), s') w').
Proof.
  intros Hx Hd Hx1 Hok. exists (@run (traced os) _ _ (close c true (Error e) s1) w1).
  split; [by apply close_run|]. unfold parseMsg. erewrite M_bind_ret by eauto with heap. cbv beta.
  rewrite run_M_bind, Hd. cbn [obind]. rewrite run_M_bind.
  by destruct (run (close _ _ _ _) w1) as [[[e1|] s2] w2| | |].
Qed.

(** A ring index out of range: the port announced one queue pair. *)
Definition bad_ring : MsgAddRing := mkMsgAddRing 1 1 0 0 1 0.
Definition bad_chan : controlChannel := small_chan (Some 0%nat) (datagram (write_msg bad_ring)) [right_to 11].
Definition bad_state : state := small_state demo_server bad_chan.

Lemma parseMsg_error_closes_witness :
  exists r, closes 1 bad_chan true "invalid ring index" bad_state traced_world r /\
    @run (traced demo_os) _ _ (parseMsg 1 bad_state) traced_world = obind r (fun '(err, s') w' =>
      Done (Some (match err with
                  | Some e1 => ErrExtra (Err "invalid ring index") e1
                  | None => Err "invalid ring index"
                  end), s') w').
Proof.
  apply (parseMsg_error_closes (os := demo_os) (cb := demo_callbacks) 1 bad_chan
           (Err "invalid ring index") bad_state bad_state bad_chan traced_world traced_world).
  - reflexivity.
  - reflexivity.
  - reflexivity.
  - eexists. reflexivity.
Defined.

(** A port with the default disconnected callback can be disconnected only
    once: the callback closes the port's two channels, which are made when the
    port is created and never again.  The first disconnect returns; after any
    reconnection, which leaves the configuration and the channels as they are, the
    second one panics on closing a closed channel. *)
Theorem second_disconnect_panics {os cb} `{!QuietCallbacks cb} `{!WgReturns os} pid p c s w :
  ports s !! pid = Some p -> p_cc p = Some c ->
  DisconnectedFunc (cfg p) = DefaultDisconnectedFunc ->
  QuitChan_closed p = false -> ErrChan_closed p = false ->
  exists err s1 w1 p1, @run (traced os) _ _ (disconnect pid s) w = Done (err, s1) w1 /\
    ports s1 !! pid = Some p1 /\
    forall s2 p2, ports s2 !! pid = Some p2 -> cfg p2 = cfg p1 ->
      QuitChan_closed p2 = QuitChan_closed p1 -> p_cc p2 <> None ->
      disconnect pid s2 = Panic CloseOfClosedChannel.
Proof.
  intros Hp Hc Hd Hq He. assert (callback_ok p) as Hok by (unfold callback_ok; by rewrite Hd).
  destruct (callsM_run _ _ _ _ (disconnect_calls (os := os) pid p c s w Hp Hc Hok))
    as (err & s1 & w1 & l & Hr & _ & Hpost).
  assert (exists p1, ports s1 !! pid = Some p1 /\ cfg p1 = cfg p /\ QuitChan_closed p1 = true)
    as (p1 & Hp1 & Hcfg1 & Hq1).
  { destruct err; destruct Hpost as [-> _]; eexists; (split; [apply lookup_set_port|]);
      unfold released, drop_queues, after_callback; by rewrite Hd. }
  exists err, s1, w1, p1. split; [done|]. split; [done|]. intros s2 p2 Hp2 Hcfg Hq2 Hc2.
  unfold disconnect. mstep. destruct (p_cc p2); [|done]. rewrite Hcfg, Hcfg1, Hd.
  apply check_panic. simpl. unfold defaultDisconnectedFunc. mstep. by rewrite Hq2, Hq1.
Qed.

(** A client port with the default callback, reconnected on channel 1. *)
Definition default_cfg : PortCfg :=
  mkPortCfg 7 false [] (zeros 24) (mkMemoryConfig 1 1 4) (UserFunc 0) DefaultDisconnectedFunc None.
Definition default_port : Port :=
  mkPort default_cfg (mkMemoryConfig 1 1 4) None (Some 1%nat) [] [] [] [] [] false false.

Lemma second_disconnect_panics_witness :
  exists err s1 w1 p1,
    @run (traced demo_os) _ _ (disconnect 0 (small_state default_port (small_chan (Some 0%nat) [] [])))
      traced_world = Done (err, s1) w1 /\
    ports s1 !! 0%nat = Some p1 /\
    forall s2 p2, ports s2 !! 0%nat = Some p2 -> cfg p2 = cfg p1 ->
      QuitChan_closed p2 = QuitChan_closed p1 -> p_cc p2 <> None ->
      disconnect 0 s2 = Panic CloseOfClosedChannel.
Proof.
  by apply (second_disconnect_panics (os := demo_os) (cb := demo_callbacks) 0 default_port 1).
Defined.

(** C39: a server port whose client goes away between add-region and connect is
    lost: its region is not mapped yet, unmapping nothing is an error, and
    disconnect stops there.  The port keeps its channel and its region, although
    the channel is no longer in the socket's list: closing the channel fails, once
    the port's callback and the wait in it have returned, and parseInit will not
    choose the port again. *)
Theorem unmapped_region_strands_port {os cb} `{!QuietCallbacks cb} `{!WgReturns os} c x pid p r s w :
  ccs s !! c = Some x -> cc_port x = Some pid -> ports s !! pid = Some p ->
  p_cc p = Some c -> callback_ok p -> r ∈ regions p -> data r = None ->
  exists err s' w', @run (traced os) _ _ (close c false "" s) w = Done (Some err, s') w' /\
    ((exists e, err = Wrap "failed to del event" e) \/
     (exists e p', err = Wrap "port Disconnect" e /\ ports s' !! pid = Some p' /\
        p_cc p' = Some c /\ regions p' = regions p /\ (c ∉ ccList (socket s')) /\
        forall init, candidate s' init pid = false)).
Proof.
  intros Hx Hport Hp Hc Hok Hr Hd.
  assert (callsM (os := os) (close c false "") s w (fun err s' _ =>
    (exists e, err = Some (Wrap "failed to del event" e)) \/
    (exists e, err = Some (Wrap "port Disconnect" e) /\ s' = set_port pid (drop_queues p) (forget c s))))
    as Hcalls.
  { unfold close. cbv iota. eapply callsM_check_step; [done|]. cstep. apply callsM_check.
    eapply callsM_mono; [apply delEvent_calls|]. intros [e|] s1 l [-> _]; [left; by exists e|].
    intros w1. do 2 cstep. rewrite Hport. apply callsM_check.
    eapply callsM_mono; [apply (disconnect_calls pid p c (forget c s) w1 Hp Hc Hok)|].
    intros [e|] s2 l2 [-> Hf]; [right; by exists e|].
    destruct Hf as [_ Hf]. rewrite Forall_forall in Hf. destruct (Hf r Hr) as (d & Hd' & _). congruence. }
  destruct (callsM_run _ _ _ _ Hcalls) as (err & s' & w' & l & Hrun & _ & Hpost).
  destruct Hpost as [[e ->]|(e & -> & ->)]; do 3 eexists; (split; [exact Hrun|]); [left; by eexists|].
  right. exists e, (drop_queues p). split; [done|]. split; [apply lookup_set_port|].
  assert (p_cc (drop_queues p) = Some c /\ regions (drop_queues p) = regions p) as [Hc' ->].
  { unfold drop_queues, after_callback. by destruct (DisconnectedFunc (cfg p)). }
  split; [done|]. split; [done|]. split.
  - simpl. unfold list_remove. rewrite list_elem_of_filter. by intros [].
  - intros init. unfold candidate. rewrite lookup_set_port.
    rewrite (bool_decide_eq_false_2 (p_cc _ = None)) by by rewrite Hc'. apply andb_false_r.
Qed.

Definition half_port : Port :=
  set_cc (Some 1%nat) (set_regions [mkRegion None 336 12 0] demo_server).

Lemma unmapped_region_strands_port_witness :
  let s := small_state half_port (small_chan (Some 0%nat) [] []) in
  exists err s' w', @run (traced demo_os) _ _ (close 1 false "" s) traced_world = Done (Some err, s') w' /\
    ((exists e, err = Wrap "failed to del event" e) \/
     (exists e p', err = Wrap "port Disconnect" e /\ ports s' !! 0%nat = Some p' /\
        p_cc p' = Some 1%nat /\ regions p' = [mkRegion None 336 12 0] /\ (1%nat ∉ ccList (socket s')) /\
        forall init, candidate s' init 0 = false)).
Proof.
  intros s.
  apply (unmapped_region_strands_port (os := demo_os) (cb := demo_callbacks) 1
           (small_chan (Some 0%nat) [] []) 0 half_port (mkRegion None 336 12 0)); try reflexivity.
  apply list_elem_of_singleton. reflexivity.
Defined.

(** A client that sends a second init message, for another idle port, is bound to
    that port as well: parseInit looks at the port's channel, not at the
    channel's port.  The channel then knows only the second port, so closing it
    releases that one; the first keeps its memory and queues, and a channel that
    is in no list, and parseInit will not choose it again. *)
Theorem second_init_strands_port {os cb} `{!QuietCallbacks cb} `{!WgReturns os} c pid p pid2 p2 init s send str w :
  ports_live s -> received_msg s c init -> msg_ok init -> init_Version init = Version ->
  chan_of s c pid p -> p_cc p = Some c ->
  init_port s init = Some pid2 -> ports s !! pid2 = Some p2 -> Secret (cfg p2) = init_Secret init ->
  callback_ok p2 ->
  exists s1, parseInit c s = mret (None, s1) /\
    exists err s' w', @run (traced os) _ _ (close c send str s1) w = Done (err, s') w' /\
      (err = None -> ports s' !! pid2 = Some (released (accepted c init p2)) /\
         ports s' !! pid = Some p /\ (c ∉ ccList (socket s')) /\
         forall init', candidate s' init' pid = false).
Proof.
  intros Hl Hr Hok Hv Hc Hcc Hi Hp2 Hsec Hcb.
  destruct (parseInit_eq s c init Hl Hr Hok) as (x & Hx & E). unfold init_outcome in E.
  rewrite Hv, Z.eqb_refl, Hi, Hp2, bool_decide_eq_true_2 in E by done. cbn [negb] in E.
  eexists. split; [exact E|]. set (s1 := set_chan _ _ _).
  assert (Hne : pid2 <> pid).
  { intros ->. pose proof (find_some _ _ Hi) as [_ Hcand]. unfold candidate in Hcand.
    destruct Hc as (? & _ & _ & Hp). rewrite Hp, bool_decide_eq_false_2, andb_false_r in Hcand; congruence. }
  assert (Hb : bound_port s1 (set_ccport (Some pid2) x) = Some (pid2, accepted c init p2)).
  { unfold bound_port, s1. cbn. by rewrite lookup_insert_eq. }
  assert (Hcl : closable s1 (set_ccport (Some pid2) x)).
  { exists (accepted c init p2). split; [apply lookup_insert_eq|]. intros _. exact Hcb. }
  destruct (callsM_run _ _ _ _ (close_spec (os := os) c _ send str s1 w (lookup_set_chan _ _ _) Hcl))
    as (err & s' & w' & l & Hrun & _ & Hdone & _).
  exists err, s', w'. split; [exact Hrun|]. intros He. destruct (Hdone He) as [-> _].
  unfold closed. rewrite Hb.
  assert (Hp : ports (set_port pid2 (released (accepted c init p2))
     (forget c (set_chan c (if send then set_msgQueue [] (set_ccport (Some pid2) x) else set_ccport (Some pid2) x) s1)))
     !! pid = Some p).
  { cbn. rewrite !lookup_insert_ne by done. by destruct Hc as (? & _ & _ & ?). }
  split; [apply lookup_set_port|]. split; [exact Hp|]. split.
  - cbn. unfold list_remove. rewrite list_elem_of_filter. by intros [].
  - intros init'. unfold candidate. rewrite Hp, bool_decide_eq_false_2 by congruence. apply andb_false_r.
Qed.

(** Two server ports with ids 7 and 8 on one listener: the client that is bound
    to the first asks for the second. *)
Definition next_init : MsgInit := mkMsgInit Version 8 0 (zeros 24) (copy_array 32 (bytes_of "app")).
Definition server_port (id : Z) (cc : option nat) : Port :=
  mkPort (mkPortCfg id true (bytes_of "m") (zeros 24) (mkMemoryConfig 1 1 1) NilFunc DefaultDisconnectedFunc None)
    (mkMemoryConfig 1 1 1) None cc [] [] [] [] [] false false.
Definition two_ports : state :=
  let s := small_state (server_port 7 (Some 1%nat))
             (small_chan (Some 0%nat) (datagram (write_msg next_init)) []) in
  set_port 2 (server_port 8 None) (set_socket (set_portList [0%nat; 2%nat] (socket s)) s).

Lemma second_init_strands_port_witness :
  exists s1, parseInit 1 two_ports = mret (None, s1) /\
    exists err s' w', @run (traced demo_os) _ _ (close 1 true "bye" s1) traced_world = Done (err, s') w' /\
      (err = None -> ports s' !! 2%nat = Some (released (accepted 1 next_init (server_port 8 None))) /\
         ports s' !! 0%nat = Some (server_port 7 (Some 1%nat)) /\ (1%nat ∉ ccList (socket s')) /\
         forall init', candidate s' init' 0 = false).
Proof.
  apply (second_init_strands_port (os := demo_os) (cb := demo_callbacks) 1 0 (server_port 7 (Some 1%nat)) 2
           (server_port 8 None) next_init two_ports true "bye" traced_world); try reflexivity.
  - repeat constructor; by eexists.
  - by eexists _, _.
  - by vm_compute.
  - by eexists.
  - by split.
Defined.
