(* ===== verification/Sessions.v ===== *)
(** * Sockets: ports, events and teardown

    What an application gets from [NewPort], where an event goes, what the
    listener does with a new client, and what [Socket.Delete] deletes when it
    returns. *)
From stdpp Require Import base tactics list gmap strings pretty.
From coqutil Require Import Byte.
From Stdlib Require Import ZArith Lia.
From S2P Require Import Prelude.
From S2P Require Import GoInt.
From S2P Require Import Shm.
From S2P Require Import State.
From S2P Require Import Queue.
From S2P Require Import Region.
From S2P Require Import Wire.
From S2P Require Import Heap.
From S2P Require Import Endpoint.
From S2P Require Import Control.
From S2P Require Import Socket.
From S2P Require Import Demo.
From S2P Require Import Protocol.
From S2P Require Import Trace.
From S2P Require Import Lifecycle.

(** ** Sound states

    Every reference designates an object, and every channel can be closed. *)
Record sound (s : state) : Prop := {
  so_ports : ports_live s;
  so_chans : Forall (fun c => is_Some (ccs s !! c)) (ccList (socket s));
  so_closable : forall c x, ccs s !! c = Some x -> closable s x;
  so_cc : forall pid p c, ports s !! pid = Some p -> p_cc p = Some c -> is_Some (ccs s !! c)
}.

Section sound.
Implicit Types s : state.

Lemma sound_set_socket s k :
  sound s -> portList k ⊆ portList (socket s) -> ccList k ⊆ ccList (socket s) -> sound (set_socket k s).
Proof.
  intros [Hp Hc Hcl Hcc] H1 H2. split; try done; unfold ports_live in *; simpl;
    rewrite Forall_forall in *; auto.
Qed.

Lemma list_remove_sub x l : list_remove x l ⊆ l.
Proof. intros y. unfold list_remove. rewrite list_elem_of_filter. by intros []. Qed.

Lemma sound_set_queue s c x :
  sound s -> ccs s !! c = Some x -> sound (set_chan c (set_msgQueue [] x) s).
Proof.
  intros [Hp Hc Hcl Hcc] Hx. split; simpl.
  - exact Hp.
  - eapply Forall_impl; [exact Hc|]. intros c' Hc'. simpl. rewrite lookup_insert. by case_decide.
  - intros c' x'. rewrite lookup_insert. case_decide; [intros [= <-]; exact (Hcl c x Hx)|].
    intros Hx'. by apply (Hcl c').
  - intros pid p c' Hp' Hc'. rewrite lookup_insert. case_decide; [done|]. by eapply Hcc.
Qed.

Lemma sound_released s pid p : sound s -> sound (set_port pid (released p) s).
Proof.
  intros [Hp Hc Hcl Hcc]. split; simpl; [|done|..].
  - eapply Forall_impl; [exact Hp|]. intros q Hq. simpl. rewrite lookup_insert. by case_decide.
  - intros c x Hx. pose proof (Hcl c x Hx) as Hok. unfold closable in *.
    destruct (cc_port x) as [q|]; [|done]. simpl. rewrite lookup_insert.
    case_decide; [|done]. by exists (released p).
  - intros q p' c. rewrite lookup_insert. case_decide; [intros [= <-]; done|]. by apply Hcc.
Qed.

Lemma sound_closed s c x send : sound s -> ccs s !! c = Some x -> sound (closed s c x send).
Proof.
  intros Hs Hx. assert (sound (forget c (set_chan c (if send then set_msgQueue [] x else x) s))) as Hf.
  { apply sound_set_socket; [|done|apply list_remove_sub].
    destruct send; [by apply sound_set_queue|]. by rewrite set_chan_same. }
  unfold closed. destruct (bound_port s x) as [[pid p]|]; [by apply sound_released|done].
Qed.

Lemma list_remove_fresh x l : x ∉ l -> list_remove x l = l.
Proof.
  intros Hnin. unfold list_remove. induction l as [|y l IH]; [done|].
  rewrite filter_cons, decide_True by (intros ->; apply Hnin; left).
  f_equal. apply IH. intros Hin. apply Hnin. by right.
Qed.

Lemma list_next_removed x l : list_next x (list_remove x l) = None.
Proof.
  induction l as [|y l IH]; [done|]. unfold list_remove. rewrite filter_cons. case_decide as Hd; [|exact IH].
  cbn [list_next]. by rewrite decide_False.
Qed.
End sound.

Section delete.
Context {os : OS} {cb : Callbacks} {HQ : QuietCallbacks cb} {HW : WgReturns os}.

Lemma Delete_calls pid s w :
  sound s -> is_Some (ports s !! pid) ->
  callsM (os := os) (Delete pid) s w (fun err s' _ =>
    err = None /\ portList (socket s') = list_remove pid (portList (socket s))).
Proof using HQ HW.
  intros Hs [p Hp]. unfold Delete. apply callsM_bind.
  apply (callsM_mono _ _ _ (fun _ s' _ => portList (socket s') = portList (socket s))).
  - unfold Disconnect. cstep. destruct (p_cc p) as [c|] eqn:Hc; [|by apply callsM_ret].
    destruct (so_cc s Hs pid p c Hp Hc) as [x Hx].
    eapply callsM_mono; [apply (close_spec c x); [done|by eapply (so_closable s Hs c x)]|].
    by intros err s' l (_ & _ & ?).
  - intros _ s1 l1 Hl w1. cstep. apply callsM_ret. split; [done|]. simpl. by rewrite Hl.
Qed.

(** The port loop ends after its first element. *)
Lemma delete_ports_calls fuel s w :
  sound s -> (length (portList (socket s)) <= fuel)%nat ->
  callsM (os := os) (delete_ports fuel (head (portList (socket s)))) s w (fun r s' _ =>
    r = Some None /\
    portList (socket s') =
      match portList (socket s) with [] => [] | pid :: l => list_remove pid l end).
Proof using HQ HW.
  intros Hs Hf. destruct (portList (socket s)) as [|pid l] eqn:Hl; simpl in *.
  { destruct fuel; by apply callsM_ret. }
  destruct fuel as [|fuel]; [lia|]. cbn [delete_ports]. apply callsM_bind.
  assert (is_Some (ports s !! pid)) as Hp.
  { pose proof (so_ports s Hs) as Hlive. unfold ports_live in Hlive. rewrite Hl in Hlive.
    by inversion Hlive. }
  eapply callsM_mono; [by apply Delete_calls|]. intros err s1 l1 [-> Hl1] w1.
  rewrite Hl in Hl1. cstep. rewrite Hl1, list_next_removed.
  assert (list_remove pid (pid :: l) = list_remove pid l) as He.
  { unfold list_remove. rewrite filter_cons. by rewrite decide_False by (intros ?; done). }
  destruct fuel; apply callsM_ret; by rewrite Hl1, He.
Qed.

(** So does the channel loop. *)
Lemma delete_ccs_calls fuel s w :
  sound s -> (length (ccList (socket s)) <= fuel)%nat ->
  callsM (os := os) (delete_ccs fuel (head (ccList (socket s)))) s w (fun r s' _ =>
    r <> None /\ portList (socket s') = portList (socket s) /\ (r = Some None -> sound s')).
Proof using HQ HW.
  intros Hs Hf. destruct (ccList (socket s)) as [|c l] eqn:Hl; simpl in *.
  { destruct fuel; by apply callsM_ret. }
  destruct fuel as [|fuel]; [lia|]. cbn [delete_ccs]. apply callsM_bind.
  pose proof (so_chans s Hs) as Hlive. rewrite Hl in Hlive. inversion Hlive as [|? ? [x Hx] _]; subst.
  eapply callsM_mono; [apply (close_spec c x); [done|by eapply (so_closable s Hs c x)]|].
  intros [e|] s1 l1 (Hn & _ & Hp) w1; [apply callsM_ret; by rewrite Hp|].
  destruct (Hn eq_refl) as [-> _]. cstep.
  assert (list_next c (ccList (socket (closed s c x true))) = None) as ->.
  { unfold closed. destruct (bound_port s x) as [[? ?]|]; apply list_next_removed. }
  destruct fuel; apply callsM_ret; (split; [done|]); (split; [done|]); intros _; by apply sound_closed.
Qed.
End delete.

Section socket_delete.
Context {os : OS} {cb : Callbacks} {HQ : QuietCallbacks cb} {HW : WgReturns os}.

Lemma listener_close_calls l s w :
  callsM (os := os) (listener_close l) s w (fun _ s' _ => s' = s).
Proof using.
  unfold listener_close. apply callsM_check. eapply callsM_mono; [apply delEvent_calls|].
  intros [e|] s1 l1 [-> _]; [done|]. intros w1. apply callsM_bind, callsM_lift, calls_sys.
  intros r w2. by apply callsM_ret.
Qed.

(** The end of [Delete]: the wake event and the epoll descriptor. *)
Lemma delete_epoll_calls s w :
  callsM (os := os) (s ← get_state;
    try delEvent (wakeEvent (socket s)) or Wrap "failed to delete event" ;;
    lift (syscall_ (SysClose (epfd (socket s)))) ;;
    mret None) s w (fun _ s' _ => s' = s).
Proof using.
  cstep. apply callsM_check. eapply callsM_mono; [apply delEvent_calls|].
  intros [e|] s1 l1 [-> _]; [done|]. intros w1. apply callsM_bind, callsM_lift, calls_sys.
  intros r w2. by apply callsM_ret.
Qed.

Lemma Socket_Delete_calls s w :
  sound s ->
  callsM (os := os) Socket_Delete s w (fun r s' _ =>
    r <> None /\
    (portList (socket s') = portList (socket s) \/
     portList (socket s') = match portList (socket s) with [] => [] | pid :: l => list_remove pid l end)).
Proof using HQ HW.
  intros Hs. unfold Socket_Delete. cstep. apply callsM_bind.
  eapply callsM_mono; [by apply delete_ccs_calls|].
  intros [[e|]|] s1 l1 (Hr & Hp1 & Hs1) w1; [apply callsM_ret; by split; [|left]| |done].
  specialize (Hs1 eq_refl). cstep. apply callsM_bind.
  eapply callsM_mono; [by apply delete_ports_calls|]. intros r s2 l2 [-> Hp2] w2. rewrite Hp1 in Hp2.
  cstep. set (rest := s ← get_state; check (delEvent _) _ _).
  assert (Hrest : forall s w, callsM (os := os) rest s w (fun _ s' _ => s' = s)) by apply delete_epoll_calls.
  destruct (listener (socket s2)) as [l|].
  - apply callsM_bind. eapply callsM_mono; [apply listener_close_calls|].
    intros [e|] s3 l3 -> w3; [apply callsM_ret; by split; [|right]|].
    apply callsM_bind, callsM_lift, calls_sys. intros [e|] w4; [apply callsM_ret; by split; [|right]|].
    apply callsM_bind. eapply callsM_mono; [apply Hrest|]. intros err s4 l4 -> w5.
    apply callsM_ret. by split; [|right].
  - apply callsM_bind. eapply callsM_mono; [apply Hrest|]. intros err s3 l3 -> w3.
    apply callsM_ret. by split; [|right].
Qed.
End socket_delete.

(** ** When they return

    What holds of a state whenever the function returns, whatever the kernel, the
    callbacks and the wait groups do. *)
Create HintDb keeps.
Section returns.
Context {os : OS} {cb : Callbacks} {HO : OutsideCallbacks cb}.

Definition returns {A} (m : M A) (s : state) (w : world) (Q : A -> state -> Prop) : Prop :=
  match run (m s) w with Done (a, s') _ => Q a s' | _ => True end.

Lemma returns_ret {A} (a : A) s w (Q : A -> state -> Prop) : Q a s -> returns (mret a) s w Q.
Proof using. done. Qed.

Lemma returns_bind {A B} (m : M A) (k : A -> M B) s w (Q : B -> state -> Prop) :
  returns m s w (fun a s' => forall w', returns (k a) s' w' Q) -> returns (m ≫= k) s w Q.
Proof using.
  unfold returns. rewrite run_M_bind. destruct (run (m s) w) as [[a s'] w'| | |]; [|done..].
  intros Hk. apply Hk.
Qed.

Lemma returns_mono {A} (m : M A) s w (Q R : A -> state -> Prop) :
  returns m s w Q -> (forall a s', Q a s' -> R a s') -> returns m s w R.
Proof using. unfold returns. destruct (run (m s) w) as [[]| | |]; auto. Qed.

Lemma returns_check e wr k s w (Q : option goerror -> state -> Prop) :
  returns e s w (fun err s' => match err with
    | Some x => Q (Some (wr x)) s'
    | None => forall w', returns k s' w' Q
    end) -> returns (check e wr k) s w Q.
Proof using. intros He. apply returns_bind. eapply returns_mono; [exact He|]. by intros [x|] s' Hk w'. Qed.

Lemma returns_lift {A} (p : prog A) s w (Q : A -> state -> Prop) : (forall a, Q a s) -> returns (lift p) s w Q.
Proof using. intros HQ. unfold returns, lift. rewrite run_bind. by destruct (run p w); cbn. Qed.

Lemma returns_get_chan c s w (Q : controlChannel -> state -> Prop) : (forall x, Q x s) -> returns (get_chan c) s w Q.
Proof using. intros HQ. unfold returns, get_chan. destruct (ccs s !! c); cbn; auto. Qed.

Lemma returns_get_port pid s w (Q : Port -> state -> Prop) : (forall p, Q p s) -> returns (get_port pid) s w Q.
Proof using. intros HQ. unfold returns, get_port. destruct (ports s !! pid); cbn; auto. Qed.

(** The socket is left alone. *)
Definition keeps_socket {A} (m : M A) : Prop :=
  forall s w, returns m s w (fun _ s' => socket s' = socket s).

Lemma keeps_bind {A B} (m : M A) (k : A -> M B) :
  keeps_socket m -> (forall a, keeps_socket (k a)) -> keeps_socket (m ≫= k).
Proof using.
  intros Hm Hk s w. apply returns_bind. eapply returns_mono; [apply Hm|]. intros a s' Hs w'.
  eapply returns_mono; [apply Hk|]. by intros b s'' ->.
Qed.

Lemma keeps_check e wr k : keeps_socket e -> keeps_socket k -> keeps_socket (check e wr k).
Proof using. intros He Hk. apply keeps_bind; [done|]. by intros [x|]. Qed.

Lemma keeps_ret {A} (a : A) : keeps_socket (mret a).
Proof using. by intros s w. Qed.

Lemma keeps_raise {A} e : keeps_socket (raise (A := A) e).
Proof using. by intros s w. Qed.

Lemma keeps_lift {A} (p : prog A) : keeps_socket (lift p).
Proof using. intros s w. by apply returns_lift. Qed.

Lemma keeps_get_port pid : keeps_socket (get_port pid).
Proof using. intros s w. by apply returns_get_port. Qed.

Lemma keeps_put_port pid p : keeps_socket (put_port pid p).
Proof using. by intros s w. Qed.

Lemma keeps_mod_port pid f : keeps_socket (mod_port pid f).
Proof using. apply keeps_bind; [apply keeps_get_port|intros; apply keeps_put_port]. Qed.

Lemma keeps_mod_chan c f : keeps_socket (mod_chan c f).
Proof using.
  intros s w. apply returns_bind, returns_get_chan. intros x w'. done.
Qed.

Hint Resolve keeps_ret keeps_raise keeps_lift keeps_get_port keeps_put_port keeps_mod_port keeps_mod_chan : keeps.

Lemma keeps_call f pid : keeps_socket (call f pid).
Proof using HO.
  destruct f as [|n|]; cbn [call]; [apply keeps_raise|..].
  - intros s w. unfold returns. pose proof (user_func_outside os n pid s w) as Ho.
    destruct (run _ w) as [[]| | |]; [by subst|done..].
  - unfold defaultDisconnectedFunc. apply keeps_bind; [auto with keeps|]. intros p. case_match; [auto with keeps|].
    apply keeps_bind; [auto with keeps|]. intros _. case_match; [auto with keeps|].
    repeat (apply keeps_bind; [auto with keeps|intros _]). auto with keeps.
Qed.

Lemma keeps_disconnect pid : keeps_socket (disconnect pid).
Proof using HO.
  unfold disconnect. apply keeps_bind; [auto with keeps|]. intros p. destruct (p_cc p); [|auto with keeps].
  apply keeps_check; [apply keeps_call|].
  repeat first [apply keeps_check; [auto with keeps|] | apply keeps_bind; [auto with keeps|intros ?]].
  auto with keeps.
Qed.

Lemma keeps_sendMsg c : keeps_socket (sendMsg c).
Proof using.
  unfold sendMsg. intros s w. apply returns_bind, returns_get_chan. intros x w1.
  destruct (msgQueue x) as [|msg rest]; [done|]. apply returns_bind. intros w2. case_match; [done|].
  apply returns_bind, returns_lift. intros a w3. done.
Qed.

Lemma returns_delEvent efd s w (Q : option goerror -> state -> Prop) :
  (forall err, Q err s) -> returns (delEvent efd) s w Q.
Proof using.
  intros HQ. unfold delEvent. apply returns_bind. intros w1. apply returns_bind, returns_lift. intros a w2. apply HQ.
Qed.

(** Closing removes the channel from its list, and nothing else from the socket. *)
Lemma close_returns c send str s w :
  returns (close c send str) s w (fun err s' =>
    portList (socket s') = portList (socket s) /\ listener (socket s') = listener (socket s) /\
    (err = None -> ccList (socket s') = list_remove c (ccList (socket s)))).
Proof using HO.
  unfold close. apply returns_check. apply (returns_mono _ _ _ (fun _ s' => socket s' = socket s)).
  { destruct send; [|done]. apply keeps_bind; [auto with keeps|intros _].
    apply keeps_bind; [|intros ?; apply keeps_sendMsg]. unfold msgEnqDisconnect, enqueue.
    apply keeps_bind; auto with keeps. }
  intros [e|] s1 Hs1; [by rewrite Hs1|]. intros w1. apply returns_bind, returns_get_chan. intros x w2.
  apply returns_check, returns_delEvent. intros [e|]; [by rewrite Hs1|]. intros w3.
  apply returns_bind. intros w4. apply returns_bind, returns_get_chan. intros x' w5.
  destruct (cc_port x') as [pid|].
  - apply returns_check. eapply returns_mono; [apply keeps_disconnect|].
    intros [e|] s2 Hs2; [|intros w6; apply returns_ret]; rewrite Hs2; simpl; rewrite Hs1; done.
  - apply returns_ret. simpl. by rewrite Hs1.
Qed.

Lemma Delete_returns pid s w :
  returns (Delete pid) s w (fun err s' =>
    err = None /\ portList (socket s') = list_remove pid (portList (socket s))).
Proof using HO.
  unfold Delete. apply returns_bind.
  apply (returns_mono _ _ _ (fun _ s' => portList (socket s') = portList (socket s))).
  - unfold Disconnect. apply returns_bind, returns_get_port. intros p w1.
    destruct (p_cc p) as [c|]; [|done]. eapply returns_mono; [apply close_returns|]. by intros ? ? (? & _).
  - intros _ s1 Hs1 w1. apply returns_bind. intros w2. apply returns_ret. simpl. by rewrite Hs1.
Qed.

Lemma delete_ports_returns fuel s w :
  (length (portList (socket s)) <= fuel)%nat ->
  returns (delete_ports fuel (head (portList (socket s)))) s w (fun r s' =>
    r = Some None /\
    portList (socket s') = match portList (socket s) with [] => [] | pid :: l => list_remove pid l end).
Proof using HO.
  intros Hf. destruct (portList (socket s)) as [|pid l] eqn:Hl; simpl in *; [by destruct fuel|].
  destruct fuel as [|fuel]; [lia|]. cbn [delete_ports]. apply returns_bind.
  eapply returns_mono; [apply Delete_returns|]. intros err s1 [-> Hl1] w1. rewrite Hl in Hl1.
  apply returns_bind. intros w2. rewrite Hl1, list_next_removed.
  assert (list_remove pid (pid :: l) = list_remove pid l) as He.
  { unfold list_remove. rewrite filter_cons. by rewrite decide_False by (intros ?; done). }
  destruct fuel; apply returns_ret; by rewrite Hl1, He.
Qed.

Lemma delete_ccs_returns fuel s w :
  (length (ccList (socket s)) <= fuel)%nat ->
  returns (delete_ccs fuel (head (ccList (socket s)))) s w (fun r s' =>
    r <> None /\ (ccList (socket s) = [] -> r = Some None) /\ portList (socket s') = portList (socket s)).
Proof using HO.
  intros Hf. destruct (ccList (socket s)) as [|c l] eqn:Hl; simpl in *; [by destruct fuel|].
  destruct fuel as [|fuel]; [lia|]. cbn [delete_ccs]. apply returns_bind.
  eapply returns_mono; [apply close_returns|]. intros [e|] s1 (Hp & _ & Hc) w1; [by apply returns_ret|].
  apply returns_bind. intros w2. rewrite (Hc eq_refl), list_next_removed. by destruct fuel.
Qed.

Lemma Socket_Delete_outcome s w :
  returns Socket_Delete s w (fun r s' =>
    r <> None /\
    (ccList (socket s) <> [] /\ portList (socket s') = portList (socket s) \/
     portList (socket s') = match portList (socket s) with [] => [] | pid :: l => list_remove pid l end)).
Proof using HO.
  unfold Socket_Delete. apply returns_bind. intros w1. apply returns_bind.
  eapply returns_mono; [by apply delete_ccs_returns|].
  intros [[e|]|] s1 (Hr & Hne & Hp1) w2; [apply returns_ret; split; [done|left]| |done].
  { split; [|done]. intros Hn. by specialize (Hne Hn). }
  apply returns_bind. intros w3. apply returns_bind.
  eapply returns_mono; [by apply delete_ports_returns|]. intros r s2 [-> Hp2] w4. rewrite Hp1 in Hp2.
  apply returns_bind. intros w5. set (rest := s ← get_state; check (delEvent _) _ _).
  assert (Hrest : forall s w, returns rest s w (fun _ s' => s' = s)).
  { intros s0 w0. unfold rest. apply returns_bind. intros w6. apply returns_check, returns_delEvent.
    intros [e|]; [done|]. intros w7. apply returns_bind, returns_lift. intros a w8. done. }
  assert (Hend : forall w, returns (err ← rest; mret (Some err)) s2 w (fun r s' => r <> None /\
    (ccList (socket s) <> [] /\ portList (socket s') = portList (socket s) \/
     portList (socket s') = match portList (socket s) with [] => [] | pid :: l => list_remove pid l end))).
  { intros w6. apply returns_bind. eapply returns_mono; [apply Hrest|]. intros err s3 -> w7.
    apply returns_ret. by split; [|right]. }
  destruct (listener (socket s2)) as [l|]; [|apply Hend].
  apply returns_bind. apply (returns_mono _ _ _ (fun _ s' => s' = s2)).
  { unfold listener_close. apply returns_check, returns_delEvent. intros [e|]; [done|]. intros w6.
    apply returns_bind, returns_lift. intros a w7. done. }
  intros [e|] s3 -> w6; [apply returns_ret; by split; [|right]|].
  apply returns_bind, returns_lift. intros [e|] w7; [apply returns_ret; by split; [|right]|]. apply Hend.
Qed.
End returns.

(** ** New ports *)

(** What identifies a port on its socket. *)
Definition port_key (s : state) (pid : nat) : option (Z * bool) :=
  (fun p => (Id (cfg p), IsServer (cfg p))) <$> ports s !! pid.

(** No two listed ports have the same id and role. *)
Definition ids_unique (s : state) : Prop := NoDup (port_key s <$> portList (socket s)).

(** Object numbers from [next] on are free. *)
Definition fresh_ids (s : state) : Prop := forall pid, is_Some (ports s !! pid) -> (pid < next s)%nat.

Definition has_key (s : state) (c : PortCfg) (pid : nat) : bool :=
  bool_decide (port_key s pid = Some (Id c, IsServer c)).

Lemma port_exists_eq s c l :
  Forall (fun pid => is_Some (ports s !! pid)) l ->
  port_exists c l s = mret (existsb (has_key s c) l, s).
Proof.
  intros Hl. induction Hl as [|pid l [p Hp] Hl IH]; [done|]. cbn [port_exists existsb]. mstep.
  assert (has_key s c pid = (Id (cfg p) =? Id c) && Bool.eqb (IsServer (cfg p)) (IsServer c)) as ->.
  { unfold has_key, port_key. rewrite Hp. simpl. case_bool_decide as Hd.
    - injection Hd as -> ->. by rewrite Z.eqb_refl, eqb_reflx.
    - symmetry. apply not_true_iff_false. intros Ht. apply Hd. apply andb_prop in Ht as [H1 H2].
      apply Z.eqb_eq in H1. apply eqb_prop in H2. by rewrite H1, H2. }
  destruct (_ && _); [done|exact IH].
Qed.

(** The state with the new port appended, and its listener. *)
Definition with_port (s : state) (c : PortCfg) : state :=
  mkState (set_portList (portList (socket s) ++ [next s]) (socket s))
    (<[next s := fresh_port c]> (ports s)) (ccs s) (S (next s)).

Definition with_listener (ls : option Z) (s : state) : state :=
  set_socket (set_listener ls (socket s)) s.

Lemma with_listener_same s : with_listener (listener (socket s)) s = s.
Proof. by destruct s as [[] ? ? ?]. Qed.

Section new_port.
Context {os : OS}.

Lemma addListener_calls s w :
  callsM (os := os) addListener s w (fun err s' _ =>
    match err with
    | Some _ => s' = s
    | None => exists fd, s' = with_listener (Some fd) s
    end).
Proof using.
  unfold addListener. cstep. apply callsM_bind, callsM_lift, calls_sys.
  intros [fd|e] w1; [|by apply callsM_ret].
  apply callsM_bind, callsM_lift, calls_sys. intros [e|] w2; [by apply callsM_ret|].
  apply callsM_bind, callsM_lift, calls_sys. intros [e|] w3; [by apply callsM_ret|].
  apply callsM_bind, callsM_lift, calls_sys. intros [e|] w4; [by apply callsM_ret|].
  unfold AddListener. apply callsM_check. unfold addEvent. cstep.
  apply callsM_bind, callsM_lift, calls_sys. intros [e|] w5; apply callsM_ret; [done|].
  intros w6. cstep. apply callsM_ret. by eexists.
Qed.

Lemma Socket_NewPort_calls s c w :
  ports_live s ->
  callsM (os := os) (Socket_NewPort c) s w (fun r s' l =>
    if existsb (has_key s c) (portList (socket s))
    then (exists e, r = inr e) /\ s' = s /\ l = []
    else match r with
         | inl pid => pid = next s /\ exists ls, s' = with_listener ls (with_port s c)
         | inr _ => s' = with_port s c
         end).
Proof using.
  intros Hl. unfold Socket_NewPort. cstep.
  eapply callsM_step; [by apply port_exists_eq|]. cbv beta iota.
  destruct (existsb _ _); [apply callsM_ret; eauto|]. cstep. fold (with_port s c).
  assert (Hsame : exists ls, with_port s c = with_listener ls (with_port s c)).
  { eexists. symmetry. apply with_listener_same. }
  destruct (IsServer c); [|by apply callsM_ret]. cstep.
  destruct (listener _); [by apply callsM_ret|]. apply callsM_bind.
  eapply callsM_mono; [apply addListener_calls|]. intros [e|] s1 l1 Hs1 w1; apply callsM_ret; [done|].
  destruct Hs1 as [fd ->]. split; [done|]. by eexists.
Qed.
End new_port.

Lemma port_key_with_port s c pid :
  (pid < next s)%nat -> port_key (with_port s c) pid = port_key s pid.
Proof. intros Hlt. unfold port_key. simpl. by rewrite lookup_insert_ne by lia. Qed.

Lemma with_port_unique s c :
  ports_live s -> fresh_ids s -> ids_unique s ->
  existsb (has_key s c) (portList (socket s)) = false -> ids_unique (with_port s c).
Proof.
  intros Hl Hf Hu Hex. unfold ids_unique. simpl. rewrite fmap_app. simpl.
  assert (port_key (with_port s c) <$> portList (socket s) = port_key s <$> portList (socket s)) as ->.
  { apply list_fmap_ext. intros i pid Hi. apply port_key_with_port, Hf.
    unfold ports_live in Hl. rewrite Forall_forall in Hl. apply Hl. by eapply list_elem_of_lookup_2. }
  apply NoDup_app. split; [done|]. split; [|apply NoDup_singleton].
  intros k Hk. rewrite list_elem_of_singleton. intros ->. apply list_elem_of_fmap in Hk as (pid & Hk & Hin).
  apply not_true_iff_false in Hex. apply Hex, existsb_exists. exists pid.
  split; [by apply list_elem_of_In|]. unfold has_key. apply bool_decide_eq_true_2. rewrite <- Hk.
  unfold port_key. simpl. by rewrite lookup_insert_eq.
Qed.

Lemma with_port_live s c : ports_live s -> ports_live (with_port s c).
Proof.
  intros Hl. unfold ports_live in *. simpl. apply Forall_app. split.
  - eapply Forall_impl; [exact Hl|]. intros pid Hp. simpl. rewrite lookup_insert. by case_decide.
  - constructor; [|done]. rewrite lookup_insert_eq. by eexists.
Qed.

Lemma fresh_port_defaults c :
  let p := fresh_port c in let mc := cfg_MemoryConfig (cfg p) in
  NumQueuePairs mc <> 0 /\ Log2RingSize mc <> 0 /\ PacketBufferSize mc <> 0 /\
  DisconnectedFunc (cfg p) <> NilFunc.
Proof.
  assert (Hdef : forall v d, d <> 0 -> or_default v d <> 0).
  { intros v d Hd. unfold or_default. by case_bool; zbool. }
  cbn. repeat (split; [by apply Hdef|]). by destruct (DisconnectedFunc c).
Qed.

Lemma with_port_fresh s c : fresh_ids s -> fresh_ids (with_port s c).
Proof.
  intros Hf pid. simpl. rewrite lookup_insert. case_decide; [intros; lia|].
  intros Hp. specialize (Hf pid Hp). lia.
Qed.

(** ** New channels *)

(** The channel [addControlChannel] makes, and the state with it listed. *)
Definition new_chan (fd : Z) (pid : option nat) : controlChannel :=
  mkControlChannel (int32 fd) pid (zeros msgSize) (inl []) [] false.

Definition with_chan (fd : Z) (pid : option nat) (s : state) : state :=
  mkState (set_ccList (ccList (socket s) ++ [next s]) (socket s)) (ports s)
    (<[next s := new_chan fd pid]> (ccs s)) (S (next s)).

Definition epoll_add (fd : Z) (s : state) : scall :=
  SC (SysEpollCtl (epfd (socket s)) EPOLL_CTL_ADD (int32 fd)).

Definition hello_msg (s : state) : MsgHello :=
  mkMsgHello (copy_array 32 (appName (socket s))) Version Version 255 255 255 14.

Section new_chan.
Context {os : OS}.

Lemma addControlChannel_calls fd pid s w :
  callsM (os := os) (addControlChannel fd pid) s w (fun r s' l =>
    l = [epoll_add fd s] /\
    match r with
    | inl c => c = next s /\ s' = with_chan fd pid s
    | inr _ => socket s' = socket s /\ ports s' = ports s
    end).
Proof using.
  unfold addControlChannel. do 2 cstep. apply callsM_bind.
  unfold addEvent. cstep. apply callsM_bind, callsM_lift, calls_sys.
  intros [e|] w1; apply callsM_ret; intros w2; [by apply callsM_ret|].
  cstep. by apply callsM_ret.
Qed.

(** Sending the only message of a queue. *)
Lemma sendMsg_calls c x msg rest s w :
  ccs s !! c = Some x -> msgQueue x = msg :: rest -> zlen (Buffer msg) <> 0 ->
  callsM (os := os) (sendMsg c) s w (fun _ s' l =>
    s' = set_chan c (set_msgQueue rest x) s /\
    l = [SC (SysSendmsg (cc_fd x) (Buffer msg) msgSize (if 0 <? Fd msg then Some (Fd msg) else None))]).
Proof using.
  intros Hx Hq Hne. unfold sendMsg. cstep. rewrite Hq. cstep.
  rewrite (proj2 (Z.eqb_neq _ _)) by done.
  apply callsM_bind, callsM_lift, calls_sys. intros r w1. by apply callsM_ret.
Qed.

Lemma RequestConnection_calls pid p s w :
  ports s !! pid = Some p -> IsServer (cfg p) = false ->
  callsM (os := os) (RequestConnection pid) s w (fun err s' _ =>
    match err with
    | None => exists fd, s' = set_port pid (set_cc (Some (next s)) p) (with_chan fd (Some pid) s)
    | Some _ => portList (socket s') = portList (socket s)
    end).
Proof using.
  intros Hp Hs. unfold RequestConnection. cstep. unfold Port_IsServer. rewrite Hs.
  apply callsM_bind, callsM_lift, calls_sys. intros [fd|e] w1; [|by apply callsM_ret].
  cstep. apply callsM_bind, callsM_lift, calls_sys. intros [e|] w2; [by apply callsM_ret|].
  apply callsM_bind. eapply callsM_mono; [apply addControlChannel_calls|].
  intros [c|e] s1 l1 [-> Hpost] w3.
  - destruct Hpost as [-> ->]. cstep. apply callsM_ret. by exists fd.
  - destruct Hpost as [Hk Hps]. eapply callsM_step; [apply mod_port_eq; by rewrite Hps|].
    apply callsM_ret. simpl. by rewrite Hk.
Qed.

(** At most one connection request, and no third test. *)
Lemma connect_loop_calls pid p s w :
  ports s !! pid = Some p -> IsServer (cfg p) = false -> p_cc p = None ->
  callsM (os := os) (connect_loop 2 pid) s w (fun r s' _ =>
    match r with
    | None => False
    | Some None => exists fd, s' = set_port pid (set_cc (Some (next s)) p) (with_chan fd (Some pid) s)
    | Some (Some _) => portList (socket s') = portList (socket s)
    end).
Proof using.
  intros Hp Hs Hc. cbn [connect_loop].
  assert (forall s p, ports s !! pid = Some p ->
    IsConnecting pid s = mret (bool_decide (p_cc p <> None), s)) as Hcon.
  { intros s' p' Hp'. unfold IsConnecting. by mstep. }
  eapply callsM_step; [by apply Hcon|]. rewrite bool_decide_eq_false_2 by (rewrite Hc; tauto).
  apply callsM_bind. eapply callsM_mono; [by apply RequestConnection_calls|].
  intros [e|] s1 l1 Hpost w1; [by apply callsM_ret|]. destruct Hpost as [fd ->].
  eapply callsM_step; [apply Hcon, lookup_set_port|].
  rewrite bool_decide_eq_true_2 by done. apply callsM_ret. by exists fd.
Qed.
End new_chan.

(** A failed [EPOLL_CTL_ADD] leaves the channel object behind, on no list. *)
Definition unlisted_chan (fd : Z) (s : state) : state :=
  mkState (socket s) (ports s) (<[next s := new_chan fd None]> (ccs s)) (S (next s)).

(** The accepted connection, call by call. *)
Lemma accepted_outcome `{OS} fd s w :
  let m : M (option goerror) :=
    r ← addControlChannel fd None;
    match r with
    | inr e => mret (Some (Wrap "failed to add control channel" e))
    | inl c => try msgEnqHello c or Wrap "msgEnqHello" ;; sendMsg c
    end in
  ask (SysEpollCtl (epfd (socket s)) EPOLL_CTL_ADD (int32 fd)) w (fun refused w2 =>
    match refused with
    | Some e => run (m s) w =
        Done (Some (Wrap "failed to add control channel"
                      (Wrap "failed to add event" (Wrap "EpollCtl" (ErrErrno e)))), unlisted_chan fd s) w2
    | None =>
        ask (SysSendmsg (int32 fd) (write_msg (hello_msg s)) msgSize None) w2 (fun unsent w3 =>
          run (m s) w = Done (Wrap "SYS_SENDMSG" ∘ ErrErrno <$> unsent, with_chan fd None s) w3)
    end).
Proof.
  intros m. unfold ask. destruct (sys (SysEpollCtl _ _ _) _ _) as [[refused m2] k2] eqn:Hadd.
  assert (run (m s) w = obind (run (addControlChannel fd None s) w) (fun '(r, s') w' =>
    run ((match r with
      | inr e => mret (Some (Wrap "failed to add control channel" e))
      | inl c => try msgEnqHello c or Wrap "msgEnqHello" ;; sendMsg c
      end : M _) s') w')) as -> by apply run_M_bind.
  assert (run (addControlChannel fd None s) w = Done (match refused with
    | Some e => (inr (Wrap "failed to add event" (Wrap "EpollCtl" (ErrErrno e))), unlisted_chan fd s)
    | None => (inl (next s), with_chan fd None s) end) (mkWorld m2 k2)) as ->.
  { unfold addControlChannel. mstep. mstep. rewrite run_M_bind.
    assert (forall s', socket s' = socket s -> run (addEvent (int32 fd) s') w =
      Done (Wrap "EpollCtl" ∘ ErrErrno <$> refused, s') (mkWorld m2 k2)) as ->; [|by destruct refused|done].
    intros s' Hs'. unfold addEvent. mstep. rewrite Hs'. by erewrite run_sys by exact Hadd. }
  destruct refused as [e|]; [done|]. cbn [obind].
  destruct (sys (SysSendmsg _ _ _ _) _ _) as [[unsent m3] k3] eqn:Hsend.
  assert (ccs (with_chan fd None s) !! next s = Some (new_chan fd None)) as Hch by apply lookup_insert_eq.
  erewrite check_None.
  2: { unfold msgEnqHello. mstep. erewrite M_bind_ret by (apply enqueue_eq; by eexists). done. }
  rewrite (queued_chan _ _ _ _ Hch). unfold sendMsg.
  erewrite M_bind_ret by (apply get_chan_eq, lookup_set_chan). cbn [msgQueue set_msgQueue new_chan app].
  mstep. cbn [Buffer Fd]. rewrite zlen_write_msg by by repeat split; try apply zlen_copy_array.
  change (msgTypeSize + c_size msg_codec =? 0) with false. cbv iota.
  erewrite run_sys by exact Hsend. rewrite set_chan_set_chan, set_chan_same by done. done.
Qed.

(** ** Theorems *)


Definition two_ports : state :=
  mkState (set_portList [0; 2]%nat (small_socket None))
    {[ 0%nat := live_port; 2%nat := idle_port true (zeros 24) ]}
    {[ 1%nat := small_chan (Some 0%nat) (zeros 128) [] ]} 3.

Lemma two_ports_sound : sound two_ports.
Proof.
  split.
  - repeat constructor; by eexists.
  - repeat constructor; by eexists.
  - intros c x Hx. simpl in Hx. apply lookup_singleton_Some in Hx as [_ <-].
    exists live_port. split; [reflexivity|]. intros _. exact I.
  - intros pid p c Hp Hc. simpl in Hp. rewrite lookup_insert in Hp. case_decide; simplify_eq/=.
    + by eexists.
    + apply lookup_singleton_Some in Hp as [_ <-]. done.
Qed.


(** C24: NewPort on a socket keeps ids unique per role and every listed port
    live, on every branch and whatever the kernel answers.  A second port with
    the same id and role is refused without any effect or call; otherwise the
    port is appended with the defaults filled in, all three sizes nonzero, and a
    disconnected callback.  If the listener cannot be set up the call fails but
    the port stays on the list. *)
Theorem Socket_NewPort_spec {os} s c w :
  ports_live s -> fresh_ids s -> ids_unique s ->
  exists r s' w' l, @run (traced os) _ _ (Socket_NewPort c s) w = Done (r, s') w' /\
    trace w' = trace w ++ l /\ ports_live s' /\ fresh_ids s' /\ ids_unique s' /\
    (if existsb (has_key s c) (portList (socket s))
     then (exists e, r = inr e) /\ s' = s /\ l = []
     else portList (socket s') = portList (socket s) ++ [next s] /\
          ports s' = <[next s := fresh_port c]> (ports s) /\
          (forall pid, r = inl pid -> pid = next s)) /\
    (let p := fresh_port c in let mc := cfg_MemoryConfig (cfg p) in
     NumQueuePairs mc <> 0 /\ Log2RingSize mc <> 0 /\ PacketBufferSize mc <> 0 /\
     DisconnectedFunc (cfg p) <> NilFunc).
Proof.
  intros Hl Hf Hu.
  destruct (callsM_run _ _ _ _ (Socket_NewPort_calls (os := os) s c w Hl))
    as (r & s' & w' & l & Hr & Htr & Hpost).
  exists r, s', w', l. split; [done|]. split; [done|].
  destruct (existsb _ _) eqn:Hex.
  - destruct Hpost as (He & -> & ->). repeat (split; [done|]). apply fresh_port_defaults.
  - assert (exists ls, s' = with_listener ls (with_port s c)) as [ls ->].
    { destruct r; [by destruct Hpost|]. rewrite Hpost. eexists. symmetry. apply with_listener_same. }
    split; [exact (with_port_live s c Hl)|]. split; [exact (with_port_fresh s c Hf)|].
    split; [exact (with_port_unique s c Hl Hf Hu Hex)|]. split; [|apply fresh_port_defaults].
    split; [done|]. split; [done|]. intros pid ->. by destruct Hpost.
Qed.

Definition empty_state : state := mkState (mkSocket (bytes_of "app") (bytes_of "/s") None [] [] 3 4) ∅ ∅ 0.

Lemma Socket_NewPort_spec_witness :
  exists r s' w' l,
    @run (traced demo_os) _ _ (Socket_NewPort (small_cfg true (zeros 24)) empty_state) traced_world = Done (r, s') w' /\
    trace w' = trace traced_world ++ l /\ ports_live s' /\ fresh_ids s' /\ ids_unique s' /\
    (portList (socket s') = [0%nat] /\
     ports s' = <[0%nat := fresh_port (small_cfg true (zeros 24))]> ∅ /\
     (forall pid, r = inl pid -> pid = 0%nat)) /\
    (let p := fresh_port (small_cfg true (zeros 24)) in let mc := cfg_MemoryConfig (cfg p) in
     NumQueuePairs mc <> 0 /\ Log2RingSize mc <> 0 /\ PacketBufferSize mc <> 0 /\
     DisconnectedFunc (cfg p) <> NilFunc).
Proof.
  apply (Socket_NewPort_spec (os := demo_os) empty_state (small_cfg true (zeros 24)) traced_world).
  - constructor.
  - intros pid [p Hp]. discriminate Hp.
  - constructor.
Defined.

(** C25: NewPort of main.go returns on every kernel (its connection loop makes at
    most one request), and what it returns is usable: a client port it returns is
    connecting, on a new channel that belongs to the port and is in the socket's
    list; a server port it returns is listed and waits for a client. *)
Theorem NewPort_spec {os} s c w :
  ports_live s -> fresh_ids s ->
  exists r s' w', @run (traced os) _ _ (NewPort c s) w = Done (Some r, s') w' /\
    forall pid, r = inl pid ->
      pid = next s /\ (pid ∈ portList (socket s')) /\
      exists p, ports s' !! pid = Some p /\ cfg p = with_defaults c /\
        if IsServer c then p_cc p = None
        else exists ch x, p_cc p = Some ch /\ ccs s' !! ch = Some x /\ cc_port x = Some pid /\
               (ch ∈ ccList (socket s')).
Proof.
  intros Hl Hf.
  assert (callsM (os := os) (NewPort c) s w (fun r s' _ => exists r', r = Some r' /\
    forall pid, r' = inl pid -> pid = next s /\ (pid ∈ portList (socket s')) /\
      exists p, ports s' !! pid = Some p /\ cfg p = with_defaults c /\
        if IsServer c then p_cc p = None
        else exists ch x, p_cc p = Some ch /\ ccs s' !! ch = Some x /\ cc_port x = Some pid /\
               (ch ∈ ccList (socket s')))) as Hcalls.
  { unfold NewPort. cstep. apply callsM_bind.
    eapply callsM_mono; [by apply Socket_NewPort_calls|]. intros [pid|e] s1 l1 Hpost w1.
    2: { apply callsM_ret. eexists. by split. }
    destruct (existsb _ _). { by destruct Hpost as [[e ?] _]. }
    destruct Hpost as (-> & ls & ->).
    eapply callsM_step; [apply get_port_eq; apply lookup_insert_eq|].
    unfold Port_IsServer. cbn [cfg fresh_port IsServer with_defaults]. destruct (IsServer c) eqn:Hs.
    - apply callsM_ret. eexists. split; [done|]. intros pid [= <-]. split; [done|].
      split; [simpl; apply elem_of_app; right; by left|]. exists (fresh_port c).
      split; [apply lookup_insert_eq|done].
    - apply callsM_bind. eapply callsM_mono.
      { apply (connect_loop_calls (next s) (fresh_port c)); [apply lookup_insert_eq|done|done]. }
      intros [[e|]|] s2 l2 Hpost w2; [|destruct Hpost as [fd ->]|done]; apply callsM_ret;
        (eexists; split; [done|]); [done|].
      intros pid [= <-]. split; [done|]. split; [simpl; apply elem_of_app; right; by left|].
      eexists. split; [apply lookup_set_port|]. split; [done|]. do 2 eexists. split; [done|].
      split; [apply lookup_insert_eq|]. split; [done|]. simpl. apply elem_of_app; right; by left. }
  destruct (callsM_run _ _ _ _ Hcalls) as (r & s' & w' & l & Hr & _ & r' & -> & Hpost).
  by exists r', s', w'.
Qed.

Lemma NewPort_spec_witness :
  exists r s' w', @run (traced demo_os) _ _ (NewPort (small_cfg false (zeros 24)) empty_state) traced_world
      = Done (Some r, s') w' /\
    forall pid, r = inl pid ->
      pid = 0%nat /\ (pid ∈ portList (socket s')) /\
      exists p, ports s' !! pid = Some p /\ cfg p = with_defaults (small_cfg false (zeros 24)) /\
        exists ch x, p_cc p = Some ch /\ ccs s' !! ch = Some x /\ cc_port x = Some pid /\
          (ch ∈ ccList (socket s')).
Proof.
  apply (NewPort_spec (os := demo_os) empty_state (small_cfg false (zeros 24)) traced_world).
  - constructor.
  - intros pid [p Hp]. discriminate Hp.
Defined.

(** C26: a connection request on the listener [l], call by call: first accept.
    When it fails, its errno is returned and nothing changes.  When it answers
    [fd], that descriptor is added to the socket's epoll set; when the kernel
    refuses, the error is returned and the new channel stays unlisted.  Otherwise
    the channel is listed, bound to no port and with nothing queued, and the hello
    of the socket's application is sent on [fd], with no descriptor; the outcome
    of this send is returned, and the channel stays listed even when it failed. *)
Theorem listener_accepts `{OS} l s w :
  ask (SysAccept l) w (fun r w1 =>
    let handled (err : option goerror) (s' : state) (w' : world) :=
      run (listener_handleEvent l EPOLLIN s) w = Done (err, s') w' in
    match r with
    | inr e => handled (Some (Wrap "accept" (ErrErrno e))) s w1
    | inl fd =>
        ask (SysEpollCtl (epfd (socket s)) EPOLL_CTL_ADD (int32 fd)) w1 (fun refused w2 =>
          match refused with
          | Some e =>
              handled (Some (Wrap "failed to add control channel"
                               (Wrap "failed to add event" (Wrap "EpollCtl" (ErrErrno e)))))
                (unlisted_chan fd s) w2
          | None =>
              ask (SysSendmsg (int32 fd) (write_msg (hello_msg s)) msgSize None) w2 (fun unsent w3 =>
                handled (Wrap "SYS_SENDMSG" ∘ ErrErrno <$> unsent) (with_chan fd None s) w3)
          end)
    end).
Proof.
  set (m := listener_handleEvent l EPOLLIN s). unfold ask at 1.
  destruct (sys (SysAccept l) _ _) as [[r m1] k1] eqn:Hacc.
  assert (run m w = run ((match r with
    | inr e => mret (Some (Wrap "accept" (ErrErrno e)))
    | inl fd => r ← addControlChannel fd None;
        match r with
        | inr e => mret (Some (Wrap "failed to add control channel" e))
        | inl c => try msgEnqHello c or Wrap "msgEnqHello" ;; sendMsg c
        end end : M _) s) (mkWorld m1 k1)) as ->.
  { unfold m, listener_handleEvent. mstep.
    change (has_event EPOLLIN EPOLLHUP) with false. change (has_event EPOLLIN EPOLLERR) with false.
    change (has_event EPOLLIN EPOLLIN) with true. cbv iota. by rewrite (run_sys _ _ _ _ _ _ _ Hacc). }
  destruct r as [fd|e]; [|done]. apply accepted_outcome.
Qed.

Lemma find_cc_eq s fd l c x :
  Forall (fun c => is_Some (ccs s !! c)) l -> c ∈ l -> ccs s !! c = Some x -> cc_fd x = fd ->
  (forall c' x', c' ∈ l -> ccs s !! c' = Some x' -> cc_fd x' = fd -> c' = c) ->
  find_cc fd l s = mret (Some c, s).
Proof.
  intros Hl Hin Hx Hfd Hu. induction Hl as [|c' l [x' Hx'] Hl IH]; [by apply elem_of_nil in Hin|].
  cbn [find_cc]. mstep. destruct (Z.eqb_spec (cc_fd x') fd) as [He|He].
  - assert (c' = c) as -> by (apply (Hu c' x'); [left|done|done]). done.
  - apply elem_of_cons in Hin as [->|Hin]; [congruence|]. apply IH; [done|].
    intros c'' x'' Hin'' . apply Hu. by right.
Qed.

Lemma find_cc_none s fd l :
  Forall (fun c => is_Some (ccs s !! c)) l ->
  (forall c x, c ∈ l -> ccs s !! c = Some x -> cc_fd x <> fd) ->
  find_cc fd l s = mret (None, s).
Proof.
  intros Hl Hno. induction Hl as [|c l [x Hx] Hl IH]; [done|].
  cbn [find_cc]. mstep. destruct (Z.eqb_spec (cc_fd x) fd) as [He|He].
  - by destruct (Hno c x); [left|..].
  - apply IH. intros c' x' Hin. apply Hno. by right.
Qed.

(** The search once the listener is ruled out. *)
Lemma Socket_handleEvent_cc `{Callbacks} `{ErrnoText} s fd events r :
  listener (socket s) <> Some fd -> find_cc fd (ccList (socket s)) s = mret (r, s) ->
  Socket_handleEvent fd events s =
  match r with
  | Some c => handleEvent c events s
  | None => mret (Some (Err errorFdNotFound), s)
  end.
Proof.
  intros Hl Hf. unfold Socket_handleEvent. mstep.
  set (m := find_cc _ _ ≫= _).
  assert (m s = match r with Some c => handleEvent c events s | None => mret (Some (Err errorFdNotFound), s) end) as <-.
  { unfold m. rewrite (M_bind_ret _ _ _ _ _ Hf). by destruct r. }
  destruct (listener (socket s)) as [l|]; [|done].
  destruct (Z.eqb_spec l fd); [congruence|done].
Qed.

(** An event is handled by the object whose descriptor it names: on a socket
    whose channels have distinct descriptors, other than the listener's, an event
    of a channel goes to that channel and an event of the listener to the
    listener; an event of no descriptor of the socket is an error and changes
    nothing. *)
Theorem events_are_routed `{Callbacks} `{ErrnoText} s events :
  Forall (fun c => is_Some (ccs s !! c)) (ccList (socket s)) ->
  (forall l c x, listener (socket s) = Some l -> c ∈ ccList (socket s) -> ccs s !! c = Some x -> cc_fd x <> l) ->
  (forall c c' x x', c ∈ ccList (socket s) -> c' ∈ ccList (socket s) ->
     ccs s !! c = Some x -> ccs s !! c' = Some x' -> cc_fd x = cc_fd x' -> c = c') ->
  (forall l, listener (socket s) = Some l -> Socket_handleEvent l events s = listener_handleEvent l events s) /\
  (forall c x, c ∈ ccList (socket s) -> ccs s !! c = Some x ->
     Socket_handleEvent (cc_fd x) events s = handleEvent c events s) /\
  (forall fd, listener (socket s) <> Some fd ->
     (forall c x, c ∈ ccList (socket s) -> ccs s !! c = Some x -> cc_fd x <> fd) ->
     Socket_handleEvent fd events s = mret (Some (Err "fd not found"), s)).
Proof.
  intros Hlive Hlis Huniq. split; [|split].
  - intros l Hl. unfold Socket_handleEvent. mstep. by rewrite Hl, Z.eqb_refl.
  - intros c x Hin Hx. apply (Socket_handleEvent_cc _ _ _ (Some c)).
    + intros Hl. by apply (Hlis (cc_fd x) c x).
    + eapply find_cc_eq; try done. intros c' x' Hin' Hx' He. by apply (Huniq c' c x' x).
  - intros fd Hl Hno. apply (Socket_handleEvent_cc _ _ _ None); [done|]. by apply find_cc_none.
Qed.

Lemma events_are_routed_witness :
  (forall l, listener (socket live_state) = Some l ->
     Socket_handleEvent l 1 live_state = listener_handleEvent l 1 live_state) /\
  (forall c x, c ∈ ccList (socket live_state) -> ccs live_state !! c = Some x ->
     Socket_handleEvent (cc_fd x) 1 live_state = handleEvent c 1 live_state) /\
  (forall fd, listener (socket live_state) <> Some fd ->
     (forall c x, c ∈ ccList (socket live_state) -> ccs live_state !! c = Some x -> cc_fd x <> fd) ->
     Socket_handleEvent fd 1 live_state = mret (Some (Err "fd not found"), live_state)).
Proof.
  apply (events_are_routed live_state 1).
  - constructor; [by eexists|constructor].
  - discriminate.
  - intros c c' x x' Hc Hc' _ _ _. apply list_elem_of_singleton in Hc. apply list_elem_of_singleton in Hc'.
    congruence.
Defined.

(** A listening process dies when a client connects and hangs up before its
    init message was handled: the hang-up branch closes the channel and then
    names the channel's port, which is nil. *)
Theorem early_hangup_crashes `{OS} `{Callbacks} `{ErrnoText} c x s w m k :
  ccs s !! c = Some x -> cc_port x = None ->
  sys (SysEpollCtl (epfd (socket s)) EPOLL_CTL_DEL (cc_fd x)) (shm w) (kernel w) = (None, m, k) ->
  run (handleEvent c EPOLLHUP s) w = Panicked NilDereference.
Proof.
  intros Hx Hp Hsys. unfold handleEvent. change (has_event EPOLLHUP EPOLLHUP) with true. cbv iota.
  unfold check at 1, mbind at 1, M_bind at 1. rewrite run_bind.
  assert (run (close c false "" s) w = Done (None, forget c s) (mkWorld m k)) as ->.
  { assert (wpM (close c false "") s w (fun err s' w' =>
      err = None /\ s' = forget c s /\ w' = mkWorld m k)) as Hwp.
    { apply wpM_check, wpM_ret, wpM_bind. eapply wpM_get_chan; [done|].
      apply wpM_check, wpM_bind, wpM_get_state, wpM_bind, wpM_sys. rewrite Hsys.
      apply wpM_ret, wpM_bind, wpM_modify, wpM_bind. eapply wpM_get_chan; [done|]. by rewrite Hp. }
    apply wp_done in Hwp as ([err s'] & w' & Hr & -> & -> & ->). exact Hr. }
  cbn [obind]. unfold port_name.
  rewrite (M_bind_panic _ _ _ NilDereference); [done|]. apply M_bind_panic.
  by apply (chan_port_nil c x).
Qed.

Lemma early_hangup_crashes_witness :
  run (handleEvent 1 EPOLLHUP (small_state (idle_port true (zeros 24)) (small_chan None (zeros 128) [])))
    (mkWorld ∅ (mkDemo 10 [] [])) = Panicked NilDereference.
Proof.
  eapply (early_hangup_crashes 1 (small_chan None (zeros 128) [])); reflexivity.
Defined.
