(* ===== verification/Typing.v ===== *)
(** * Well-typed process states

    Go's type system and the driver's own conventions, as an invariant of the
    whole control plane: integers fit their widths, arrays have their lengths,
    pointers designate objects, lists have no element twice.  [every] judges a
    [prog] for all kernels and all contents of shared memory at once; [typed]
    judges a control-plane function that starts in a well-typed state. *)
From stdpp Require Import base tactics list gmap strings pretty.
From coqutil Require Import Byte.
From Stdlib Require Import ZArith Lia.
From S2P Require Import Prelude.
From S2P Require Import GoInt.
From S2P Require Import Shm.
From S2P Require Import Descriptor.
From S2P Require Import State.
From S2P Require Import Ring.
From S2P Require Import Queue.
From S2P Require Import Region.
From S2P Require Import Wire.
From S2P Require Import Heap.
From S2P Require Import Endpoint.
From S2P Require Import Control.
From S2P Require Import Socket.
From S2P Require Import Demo.
From S2P Require Import Protocol.
From S2P Require Import Lifecycle.
From S2P Require Import Sessions.

(** ** Programs, whatever the kernel and the peer do

    [every E p Q]: with any answers of the kernel and any bytes found in shared
    memory, [p] ends in a value that satisfies [Q] or in a panic allowed by [E],
    or waits for ever. *)
Fixpoint every {A} (E : panic -> Prop) (p : prog A) (Q : A -> Prop) : Prop :=
  match p with
  | Ret a => Q a
  | Panic e => E e
  | Load f o n k => forall bs, zlen bs = n -> every E (k bs) Q
  | Store f o bs k => every E k Q
  | Sys c k => forall x, every E (k x) Q
  | Block => True
  end.

Section every.
Context (E : panic -> Prop).

Lemma every_ret {A} (a : A) (Q : A -> Prop) : Q a -> every E (mret a) Q.
Proof. done. Qed.

Lemma every_bind {A B} (p : prog A) (k : A -> prog B) (Q : B -> Prop) :
  every E p (fun a => every E (k a) Q) -> every E (p ≫= k) Q.
Proof.
  induction p as [a|e|f o n c IH|f o bs c IH|X c kk IH|]; cbn; auto.
Qed.

Lemma every_mono {A} (p : prog A) (Q R : A -> Prop) :
  every E p Q -> (forall a, Q a -> R a) -> every E p R.
Proof.
  intros Hp HR. induction p as [a|e|f o n c IH|f o bs c IH|X c kk IH|]; cbn in *; auto.
Qed.

Lemma every_weaken {A} (F : panic -> Prop) (p : prog A) (Q : A -> Prop) :
  every E p Q -> (forall e, E e -> F e) -> every F p Q.
Proof.
  intros Hp HF. induction p as [a|e|f o n c IH|f o bs c IH|X c kk IH|]; cbn in *; auto.
Qed.

Lemma every_sys {X} (c : syscall X) (Q : X -> Prop) : (forall x, Q x) -> every E (syscall_ c) Q.
Proof. done. Qed.

(** Any run of the program is one of those judged. *)
Lemma every_run `{OS} {A} (p : prog A) (Q : A -> Prop) w :
  every E p Q ->
  match run p w with Done a _ => Q a | Panicked e => E e | _ => True end.
Proof.
  revert w. induction p as [a|e|f o n c IH|f o bs c IH|X c kk IH|]; intros w Hp; cbn in *; try done.
  - destruct (ld (shm w) f o n) as [bs|] eqn:Hl; [|done]. by apply IH, Hp; eapply ld_zlen.
  - destruct (st (shm w) f o bs); [by apply IH|done].
  - destruct (sys c (shm w) (kernel w)) as [[x m] s]. apply IH, Hp.
Qed.
End every.

(** ** Well-typed values *)

Record config_typed (c : MemoryConfig) : Prop := {
  ct_pairs : in_width 16 (NumQueuePairs c);
  ct_log2 : in_width 8 (Log2RingSize c);
  ct_buffer : in_width 32 (PacketBufferSize c)
}.

(** A configuration the application may pass: [connect] calls the connected
    callback without a test, so it is not nil. *)
Record cfg_typed (c : PortCfg) : Prop := {
  cf_id : in_width 32 (Id c);
  cf_secret : zlen (Secret c) = 24;
  cf_memory : config_typed (cfg_MemoryConfig c);
  cf_connected : ConnectedFunc c <> NilFunc
}.

(** A port's own copy has the defaults filled in. *)
Record cfg_complete (c : PortCfg) : Prop := {
  cc_typed : cfg_typed c;
  cc_pairs : NumQueuePairs (cfg_MemoryConfig c) <> 0;
  cc_log2 : Log2RingSize (cfg_MemoryConfig c) <> 0;
  cc_buffer : PacketBufferSize (cfg_MemoryConfig c) <> 0;
  cc_disconnected : DisconnectedFunc c <> NilFunc
}.

Record region_typed (r : memoryRegion) : Prop := {
  rt_size : in_width 64 (rsize r);
  rt_offset : in_width 32 (packetBufferOffset r)
}.

(** Every ring is looked up in region 0: both constructors drop their region
    index. *)
Record ring_typed (r : ring) : Prop := {
  gt_header : ringBuf_wf r;
  gt_log2 : in_width 8 (rg_log2Size r);
  gt_size : rg_size r = int_shl1 (rg_log2Size r);
  gt_region : rg_region r = 0
}.

Record queue_typed (pid : nat) (q : Queue) : Prop := {
  qt_ring : ring_typed (q_ring q);
  qt_port : q_port q = pid;
  qt_head : in_width 16 (lastHead q);
  qt_tail : in_width 16 (lastTail q)
}.

Record port_typed (s : state) (pid : nat) (p : Port) : Prop := {
  pt_cfg : cfg_complete (cfg p);
  pt_run : config_typed (run_ p);
  pt_regions : Forall region_typed (regions p);
  pt_tx : Forall (queue_typed pid) (txQueues p);
  pt_rx : Forall (queue_typed pid) (rxQueues p);
  pt_chan : forall c, p_cc p = Some c -> is_Some (ccs s !! c)
}.

(** A queued message is a nonempty buffer that fits in a datagram. *)
Definition msg_typed (m : controlMsg) : Prop := 0 < zlen (Buffer m) <= msgSize.

Record chan_typed (s : state) (x : controlChannel) : Prop := {
  xt_data : zlen (cc_data x) = msgSize;
  xt_queue : Forall msg_typed (msgQueue x);
  xt_fd : - 2 ^ 31 <= cc_fd x < 2 ^ 31;
  xt_port : forall pid, cc_port x = Some pid -> is_Some (ports s !! pid)
}.

(** An object number designates at most one object, below [next]; the socket's
    lists hold live objects, each once; no two ports share role and id. *)
Record well_typed (s : state) : Prop := {
  wt_ports : forall pid p, ports s !! pid = Some p -> (pid < next s)%nat /\ port_typed s pid p;
  wt_chans : forall c x, ccs s !! c = Some x -> (c < next s)%nat /\ chan_typed s x;
  wt_apart : forall i, is_Some (ports s !! i) -> ccs s !! i = None;
  wt_portList : Forall (fun pid => is_Some (ports s !! pid)) (portList (socket s));
  wt_ccList : Forall (fun c => is_Some (ccs s !! c)) (ccList (socket s));
  wt_portList_once : NoDup (portList (socket s));
  wt_ccList_once : NoDup (ccList (socket s));
  wt_ids : ids_unique s
}.

(** ** What a step may not take away

    Objects never disappear; a port keeps its configuration, a channel its
    descriptor, and a channel that has a port keeps having one. *)
Record extends (s s' : state) : Prop := {
  ex_port : forall pid p, ports s !! pid = Some p -> exists p', ports s' !! pid = Some p' /\ cfg p' = cfg p;
  ex_chan : forall c x, ccs s !! c = Some x ->
    exists x', ccs s' !! c = Some x' /\ cc_fd x' = cc_fd x /\ (is_Some (cc_port x) -> is_Some (cc_port x'));
  ex_next : (next s <= next s')%nat
}.

#[export] Instance extends_preorder : PreOrder extends.
Proof.
  split.
  - intros s. split; eauto.
  - intros s1 s2 s3 [P1 C1 N1] [P2 C2 N2]. split; [..|lia].
    + intros pid p Hp. destruct (P1 _ _ Hp) as (p2 & Hp2 & E2). destruct (P2 _ _ Hp2) as (p3 & ? & E3).
      exists p3. split; [done|congruence].
    + intros c x Hx. destruct (C1 _ _ Hx) as (x2 & Hx2 & F2 & B2).
      destruct (C2 _ _ Hx2) as (x3 & ? & F3 & B3).
      exists x3. split; [done|]. split; [congruence|auto].
Qed.

Definition port_live (pid : nat) (s : state) : Prop := is_Some (ports s !! pid).
Definition chan_live (c : nat) (s : state) : Prop := is_Some (ccs s !! c).
(** The channel has a port: [cc.port] may be dereferenced. *)
Definition bound (c : nat) (s : state) : Prop :=
  exists x, ccs s !! c = Some x /\ is_Some (cc_port x).

Section extends.
Implicit Types s : state.

Lemma extends_port_live s s' pid : extends s s' -> port_live pid s -> port_live pid s'.
Proof. intros He [p Hp]. destruct (ex_port _ _ He _ _ Hp) as (p' & Hp' & _). by exists p'. Qed.

Lemma extends_chan_live s s' c : extends s s' -> chan_live c s -> chan_live c s'.
Proof. intros He [x Hx]. destruct (ex_chan _ _ He _ _ Hx) as (x' & Hx' & _). by exists x'. Qed.

Lemma extends_bound s s' c : extends s s' -> bound c s -> bound c s'.
Proof.
  intros He (x & Hx & Hb). destruct (ex_chan _ _ He _ _ Hx) as (x' & Hx' & _ & Hb').
  exists x'. auto.
Qed.

Lemma port_typed_extends s s' pid p : extends s s' -> port_typed s pid p -> port_typed s' pid p.
Proof.
  intros He [? ? ? ? ? Hc]. split; try done. intros c Hcc. eapply extends_chan_live; [done|]. by apply Hc.
Qed.

Lemma chan_typed_extends s s' x : extends s s' -> chan_typed s x -> chan_typed s' x.
Proof.
  intros He [? ? ? Hp]. split; try done. intros pid Hpid. eapply extends_port_live; [done|]. by apply Hp.
Qed.

Lemma extends_set_port s pid p p' :
  ports s !! pid = Some p -> cfg p' = cfg p -> extends s (set_port pid p' s).
Proof.
  intros Hp Hcfg. split; simpl; [|eauto|done].
  intros q r Hr. rewrite lookup_insert. case_decide; [|eauto]. subst. simplify_eq. eauto.
Qed.

Lemma extends_set_chan s c x x' :
  ccs s !! c = Some x -> cc_fd x' = cc_fd x -> (is_Some (cc_port x) -> is_Some (cc_port x')) ->
  extends s (set_chan c x' s).
Proof.
  intros Hx Hfd Hb. split; simpl; [eauto| |done].
  intros d y Hy. rewrite lookup_insert. case_decide; [|eauto]. subst. simplify_eq. eauto.
Qed.

Lemma extends_set_socket s k : extends s (set_socket k s).
Proof. split; simpl; eauto. Qed.

(** Replacing a port by a typed one with the same configuration. *)
Lemma well_typed_set_port s pid p p' :
  well_typed s -> ports s !! pid = Some p -> cfg p' = cfg p -> port_typed s pid p' ->
  well_typed (set_port pid p' s).
Proof.
  intros Hs Hp Hcfg Hp'. pose proof (extends_set_port s pid p p' Hp Hcfg) as He.
  destruct Hs as [WP WC WA WL WCL ND1 ND2 WI]. split; simpl; try done.
  - intros q r Hr. rewrite lookup_insert in Hr. case_decide; simplify_eq.
    + split; [by eapply WP|]. by eapply port_typed_extends.
    + split; [by eapply WP|]. eapply port_typed_extends; [done|]. by apply WP.
  - intros c x Hx. split; [by eapply WC|]. eapply chan_typed_extends; [done|]. by eapply WC.
  - intros i. rewrite lookup_insert. case_decide; [|by apply WA]. subst. intros _. apply WA. by eexists.
  - eapply Forall_impl; [exact WL|]. intros q Hq. by apply (extends_port_live _ _ q He).
  - unfold ids_unique in *. simpl.
    assert (port_key (set_port pid p' s) <$> portList (socket s) = port_key s <$> portList (socket s)) as ->; [|done].
    apply list_fmap_ext. intros i q _. unfold port_key. simpl. rewrite lookup_insert.
    case_decide; [|done]. subst. rewrite Hp. simpl. by rewrite Hcfg.
Qed.

Lemma well_typed_set_chan s c x x' :
  well_typed s -> ccs s !! c = Some x -> cc_fd x' = cc_fd x ->
  (is_Some (cc_port x) -> is_Some (cc_port x')) -> chan_typed s x' ->
  well_typed (set_chan c x' s).
Proof.
  intros Hs Hx Hfd Hb Hx'. pose proof (extends_set_chan s c x x' Hx Hfd Hb) as He.
  destruct Hs as [WP WC WA WL WCL ND1 ND2 WI]. split; simpl; try done.
  - intros q r Hr. split; [by eapply WP|]. eapply port_typed_extends; [done|]. by apply WP.
  - intros d y Hy. rewrite lookup_insert in Hy. case_decide; simplify_eq.
    + split; [by eapply WC|]. by eapply chan_typed_extends.
    + split; [by eapply WC|]. eapply chan_typed_extends; [done|]. by eapply WC.
  - intros i Hi. rewrite lookup_insert. case_decide; [|by apply WA]. subst. rewrite WA in Hx; done.
  - eapply Forall_impl; [exact WCL|]. intros d Hd. by apply (extends_chan_live _ _ d He).
Qed.

Lemma Forall_sublist {A} (P : A -> Prop) l l' : l `sublist_of` l' -> Forall P l' -> Forall P l.
Proof.
  intros Hs. induction Hs; [done|..]; intros HP; inversion HP; subst; [constructor|]; auto.
Qed.

Lemma fmap_sublist {A B} (f : A -> B) (l l' : list A) :
  l `sublist_of` l' -> f <$> l `sublist_of` f <$> l'.
Proof. intros Hs. induction Hs; csimpl; [done|by constructor..]. Qed.

(** Changing the socket's own fields, with sublists of its lists. *)
Lemma well_typed_set_socket s k :
  well_typed s -> portList k `sublist_of` portList (socket s) -> ccList k `sublist_of` ccList (socket s) ->
  well_typed (set_socket k s).
Proof.
  intros [WP WC WA WL WCL ND1 ND2 WI] H1 H2. pose proof (extends_set_socket s k) as He.
  split; simpl; try done.
  - intros pid p Hp. split; [by eapply WP|]. eapply port_typed_extends; [done|]. by apply WP.
  - intros c x Hx. split; [by eapply WC|]. eapply chan_typed_extends; [done|]. by eapply WC.
  - exact (Forall_sublist _ _ _ H1 WL).
  - exact (Forall_sublist _ _ _ H2 WCL).
  - exact (sublist_NoDup _ _ ND1 H1).
  - exact (sublist_NoDup _ _ ND2 H2).
  - unfold ids_unique in *. simpl. eapply sublist_NoDup; [exact WI|]. by apply fmap_sublist.
Qed.

Lemma list_remove_sublist x l : list_remove x l `sublist_of` l.
Proof. apply sublist_filter. Qed.
End extends.

(** ** Control-plane functions in a well-typed state

    [typed E m s Q]: from [s], [m] ends in a well-typed state that extends [s]
    and, with its result, satisfies [Q]; or it panics as [E] allows. *)
Definition typed (E : panic -> Prop) {A} (m : M A) (s : state) (Q : A -> state -> Prop) : Prop :=
  every E (m s) (fun '(a, s') => well_typed s' /\ extends s s' /\ Q a s').

(** The rules below leave [NilDereference] to the user of a rule. *)
Section typed.
Context (E : panic -> Prop) (HE : forall e, e <> NilDereference -> E e).
Implicit Types s : state.

Lemma typed_ret {A} (a : A) s (Q : A -> state -> Prop) : well_typed s -> Q a s -> typed E (mret a) s Q.
Proof. intros Hs HQ. split; [done|]. split; [reflexivity|done]. Qed.

Lemma typed_bind {A B} (m : M A) (k : A -> M B) s (R : A -> state -> Prop) (Q : B -> state -> Prop) :
  typed E m s R ->
  (forall a s', well_typed s' -> extends s s' -> R a s' -> typed E (k a) s' Q) ->
  typed E (m ≫= k) s Q.
Proof.
  intros Hm Hk. unfold typed, mbind, M_bind. apply every_bind. eapply every_mono; [exact Hm|].
  intros [a s1] (H1 & He1 & HR). eapply every_mono; [by apply (Hk a s1)|].
  intros [b s2] (H2 & He2 & HQ). split; [done|]. split; [by etrans|done].
Qed.

Lemma typed_mono {A} (m : M A) s (R Q : A -> state -> Prop) :
  typed E m s R -> (forall a s', well_typed s' -> extends s s' -> R a s' -> Q a s') -> typed E m s Q.
Proof. intros Hm HQ. eapply every_mono; [exact Hm|]. intros [a s'] (? & ? & ?). auto. Qed.

Lemma typed_check e w k s (Q : option goerror -> state -> Prop) :
  typed E e s (fun _ _ => True) -> (forall x s', Q (Some x) s') ->
  (forall s', well_typed s' -> extends s s' -> typed E k s' Q) ->
  typed E (check e w k) s Q.
Proof.
  intros He HQ Hk. unfold check. eapply typed_bind; [exact He|].
  intros [x|] s' Hs' Hx _; [by apply typed_ret|by apply Hk].
Qed.

Lemma typed_raise {A} e s (Q : A -> state -> Prop) : E e -> typed E (raise e) s Q.
Proof. done. Qed.

Lemma typed_lift {A} (p : prog A) s (Q : A -> state -> Prop) :
  well_typed s -> every E p (fun a => Q a s) -> typed E (lift p) s Q.
Proof.
  intros Hs Hp. unfold typed, lift. apply every_bind. eapply every_mono; [exact Hp|].
  intros a HQ. split; [done|]. by split.
Qed.

Lemma typed_sys {X} (c : syscall X) s (Q : X -> state -> Prop) :
  well_typed s -> (forall x, Q x s) -> typed E (lift (syscall_ c)) s Q.
Proof. intros Hs HQ. by apply typed_lift, every_sys. Qed.

Lemma typed_get_state s (Q : state -> state -> Prop) : well_typed s -> Q s s -> typed E get_state s Q.
Proof. intros Hs HQ. split; [done|]. by split. Qed.

Lemma typed_modify f s (Q : unit -> state -> Prop) :
  well_typed (f s) -> extends s (f s) -> Q tt (f s) -> typed E (modify f) s Q.
Proof. intros. split; [done|]. by split. Qed.

Lemma typed_get_port pid s :
  well_typed s -> port_live pid s ->
  typed E (get_port pid) s (fun p s' => s' = s /\ ports s !! pid = Some p /\ port_typed s pid p).
Proof.
  intros Hs [p Hp]. unfold typed, get_port. rewrite Hp. split; [done|]. split; [reflexivity|].
  split; [done|]. split; [done|]. by apply wt_ports.
Qed.

Lemma typed_get_chan c s :
  well_typed s -> chan_live c s ->
  typed E (get_chan c) s (fun x s' => s' = s /\ ccs s !! c = Some x /\ chan_typed s x).
Proof.
  intros Hs [x Hx]. unfold typed, get_chan. rewrite Hx. split; [done|]. split; [reflexivity|].
  split; [done|]. split; [done|]. by eapply wt_chans.
Qed.

Lemma typed_put_port pid p p' s :
  well_typed s -> ports s !! pid = Some p -> cfg p' = cfg p -> port_typed s pid p' ->
  typed E (put_port pid p') s (fun _ s' => s' = set_port pid p' s).
Proof.
  intros. apply typed_modify; [by eapply well_typed_set_port|by eapply extends_set_port|done].
Qed.

Lemma typed_mod_port pid f s :
  well_typed s -> port_live pid s ->
  (forall p, ports s !! pid = Some p -> port_typed s pid p -> cfg (f p) = cfg p /\ port_typed s pid (f p)) ->
  typed E (mod_port pid f) s (fun _ _ => True).
Proof.
  intros Hs Hp Hf. eapply typed_bind; [by apply typed_get_port|].
  intros p s' _ _ (-> & Hl & Ht). destruct (Hf p Hl Ht).
  eapply typed_mono; [by eapply typed_put_port|done].
Qed.

Lemma typed_put_chan c x x' s :
  well_typed s -> ccs s !! c = Some x -> cc_fd x' = cc_fd x ->
  (is_Some (cc_port x) -> is_Some (cc_port x')) -> chan_typed s x' ->
  typed E (put_chan c x') s (fun _ s' => s' = set_chan c x' s).
Proof.
  intros. apply typed_modify; [by eapply well_typed_set_chan|by eapply extends_set_chan|done].
Qed.

Lemma typed_mod_chan c f s :
  well_typed s -> chan_live c s ->
  (forall x, chan_typed s x ->
     cc_fd (f x) = cc_fd x /\ (is_Some (cc_port x) -> is_Some (cc_port (f x))) /\ chan_typed s (f x)) ->
  typed E (mod_chan c f) s (fun _ _ => True).
Proof.
  intros Hs Hx Hf. eapply typed_bind; [by apply typed_get_chan|].
  intros x s' _ _ (-> & Hl & Ht). destruct (Hf x Ht) as (? & ? & ?).
  eapply typed_mono; [by eapply typed_put_chan|done].
Qed.

(** [cc.port] may be dereferenced, or its nil is an allowed panic. *)
Definition may_deref (c : nat) s : Prop := E NilDereference \/ bound c s.

Lemma may_deref_extends s s' c : extends s s' -> may_deref c s -> may_deref c s'.
Proof. intros He [?|?]; [by left|right]. by eapply extends_bound. Qed.

Lemma typed_chan_port c s :
  well_typed s -> chan_live c s -> may_deref c s ->
  typed E (chan_port c) s (fun pid s' => s' = s /\ port_live pid s).
Proof.
  intros Hs Hc Hb. unfold chan_port. eapply typed_bind; [by apply typed_get_chan|].
  intros x s' _ _ (-> & Hx & Ht). destruct (cc_port x) as [pid|] eqn:Hp.
  - apply typed_ret; [done|]. split; [done|]. by eapply xt_port.
  - apply typed_raise. destruct Hb as [Hb|(x' & Hx' & [pid Hpid])]; [done|congruence].
Qed.
End typed.

Create HintDb typing.
#[export] Hint Resolve extends_port_live extends_chan_live may_deref_extends : typing.

Lemma typed_weaken (E F : panic -> Prop) {A} (m : M A) s (Q : A -> state -> Prop) :
  typed E m s Q -> (forall e, E e -> F e) -> typed F m s Q.
Proof. apply every_weaken. Qed.

(** Callbacks that keep the driver's state well typed. *)
Class TypedCallbacks (cb : Callbacks) := {
  user_func_typed : forall E n pid s, (forall e, e <> NilDereference -> E e) ->
    well_typed s -> port_live pid s -> typed E (user_func n pid) s (fun _ _ => True)
}.
#[export] Instance quiet_typed (cb : Callbacks) `{!QuietCallbacks cb} : TypedCallbacks cb.
Proof.
  split. intros E n pid s _ Hs _. unfold typed. rewrite user_func_quiet.
  split; [done|]. by split.
Qed.
