(* ===== verification/Typed.v ===== *)
(** * Every operation of the control plane is well typed

    One lemma per function of [Region.v], [Endpoint.v], [Control.v] and
    [Socket.v]; then the process as a transition system (API calls and events, in
    any order, with any kernel): every state it reaches is well typed. *)
From stdpp Require Import base tactics list gmap strings pretty.
From coqutil Require Import Byte.
From Stdlib Require Import ZArith Lia.
From S2P Require Import Prelude.
From S2P Require Import GoInt.
From S2P Require Import Shm.
From S2P Require Import Descriptor.
From S2P Require Import State.
From S2P Require Import Ring.
From S2P Require Import Queue.
From S2P Require Import Region.
From S2P Require Import Wire.
From S2P Require Import Heap.
From S2P Require Import Endpoint.
From S2P Require Import Control.
From S2P Require Import Socket.
From S2P Require Import Demo.
From S2P Require Import Protocol.
From S2P Require Import Lifecycle.
From S2P Require Import Sessions.
From S2P Require Import Typing.

(** ** Shared memory and queue setup *)

Section progs.
Context (E : panic -> Prop) (HE : forall e, e <> NilDereference -> E e).

Lemma every_region_data p r (Q : slice -> Prop) : (forall d, Q d) -> every E (region_data p r) Q.
Proof using HE.
  intros HQ. unfold region_data. destruct (r <? 0); [by apply HE|].
  destruct (regions p !! _); [apply HQ|by apply HE].
Qed.

Lemma every_reslice s lo hi (Q : slice -> Prop) : (forall d, Q d) -> every E (reslice s lo hi) Q.
Proof using HE. intros HQ. unfold reslice. case_bool; [apply HQ|by apply HE]. Qed.

Lemma every_ring_data_from p q k (Q : slice -> Prop) :
  (forall d, Q d) -> every E (ring_data_from p q k) Q.
Proof using HE. intros HQ. apply every_bind, every_region_data. intros d. by apply every_reslice. Qed.

Lemma every_copy_from dst s (Q : list byte -> Prop) :
  (forall b, zlen b = zlen dst -> Q b) -> every E (copy_from dst s) Q.
Proof using.
  intros HQ. unfold copy_from. case_bool; [by apply HQ|]. intros bs _. apply HQ, zlen_go_copy.
Qed.

Lemma every_copy_to s src (Q : Z -> Prop) : (forall n, Q n) -> every E (copy_to s src) Q.
Proof using. intros HQ. unfold copy_to. case_bool; apply HQ. Qed.

Lemma every_updateRing p q (Q : Queue -> Prop) :
  (forall b, zlen b = zlen (rb (q_ring q)) -> Q (set_ring (set_rb b (q_ring q)) q)) ->
  every E (updateRing p q) Q.
Proof using HE.
  intros HQ. apply every_bind, every_ring_data_from. intros d.
  apply every_bind, every_copy_from. intros b Hb. by apply HQ.
Qed.

Lemma queue_typed_set_rb pid q b :
  queue_typed pid q -> zlen b = zlen (rb (q_ring q)) -> queue_typed pid (set_ring (set_rb b (q_ring q)) q).
Proof using. intros [[Hh ? ? ?] ? ? ?] Hb. split; [split|..]; try done. unfold ringBuf_wf. simpl. by rewrite Hb. Qed.

Lemma every_putDescBuf p q k db (Q : unit -> Prop) : Q tt -> every E (putDescBuf p q k db) Q.
Proof using HE.
  intros HQ. apply every_bind, every_ring_data_from. intros d. apply every_bind, every_copy_to. by intros n.
Qed.

Lemma every_putRing p q (Q : unit -> Prop) : Q tt -> every E (putRing p q) Q.
Proof using HE.
  intros HQ. apply every_bind, every_ring_data_from. intros d. apply every_bind, every_copy_to. by intros n.
Qed.

Lemma every_init_descs p q qid k : forall j (Q : unit -> Prop), Q tt -> every E (init_descs p q qid k j) Q.
Proof using HE.
  induction k as [|k IH]; intros j Q HQ; cbn [init_descs]; [done|].
  destruct (regions p); [by apply HE|]. apply every_bind, every_putDescBuf. by apply IH.
Qed.

Lemma every_eventFd (Q : Z * option goerror -> Prop) : (forall r, Q r) -> every E eventFd Q.
Proof using. intros HQ. apply every_bind. intros [efd|e]; apply HQ. Qed.
End progs.

Section setup.
Context (E : panic -> Prop) (HE : forall e, e <> NilDereference -> E e).
Context (s : state) (pid : nat).

(** What initialising a port keeps. *)
Definition port_keeps (p p' : Port) : Prop :=
  cfg p' = cfg p /\ run_ p' = run_ p /\ port_typed s pid p'.

Lemma port_keeps_refl p : port_typed s pid p -> port_keeps p p.
Proof using. by split. Qed.

Lemma region_typed_new d mc f b :
  region_typed (mkRegion d (if b : bool then region_size (ring_area mc) mc else u64 (ring_area mc)) f (ring_area mc)).
Proof using.
  split; simpl; [|apply u32_range].
  destruct b; unfold region_size; apply u64_range.
Qed.

Lemma every_addRegion p :
  port_typed s pid p -> every E (addRegion p true true) (fun r => port_keeps p r.1).
Proof using.
  intros Hp. pose proof (port_keeps_refl p Hp) as Hsame.
  unfold addRegion. apply every_bind, every_bind. intros [mfd|e]; [|exact Hsame]. cbn [every mret prog_ret].
  intros [e|]; [exact (fun _ => Hsame)|]. intros [e|]; [exact (fun _ => Hsame)|].
  apply every_bind. unfold Mmap.
  assert (Hnew : forall d, port_keeps p (set_regions (regions p ++
    [mkRegion (Some d) (region_size (ring_area (run_ p)) (run_ p)) mfd (ring_area (run_ p))]) p)).
  { intros d. destruct Hp. split; [done|]. split; [done|]. split; try done. simpl.
    apply Forall_app. split; [done|]. constructor; [|done]. apply (region_typed_new _ _ _ true). }
  case_bool; [exact Hsame|]. intros [d|e]; [apply Hnew|exact Hsame].
Qed.

Lemma every_initializeRegions p :
  port_typed s pid p -> every E (initializeRegions p) (fun r => port_keeps p r.1).
Proof using.
  intros Hp. apply every_bind. eapply every_mono; [by apply every_addRegion|].
  by intros [p' [e|]].
Qed.

Lemma queue_typed_new p t qid efd :
  port_typed s pid p ->
  queue_typed pid (mkQueue (RingBuf.setFlags 1 (RingBuf.setCookie cookie (Port_newRing p 0 t qid))) pid 0 0 efd).
Proof using.
  intros Hp. destruct (pt_run _ _ _ Hp) as [? ? ?].
  split; [by split|done|by split..].
Qed.

Lemma every_init_queue p t qid :
  port_typed s pid p -> every E (init_queue pid p t qid) (fun r => port_keeps p r.1).
Proof using HE.
  intros Hp. unfold init_queue. apply every_bind, every_eventFd. intros [efd [e|]]; [by apply port_keeps_refl|].
  apply every_bind, every_putRing; [done|]. apply every_bind, every_init_descs; [done|].
  pose proof (queue_typed_new p t qid efd Hp) as Hq. destruct Hp.
  split; [by destruct t|]. split; [by destruct t|].
  destruct t; split; try done; simpl; apply Forall_app; split; try done; by constructor.
Qed.

Lemma every_init_queues t k : forall p qid,
  port_typed s pid p -> every E (init_queues pid p t k qid) (fun r => port_keeps p r.1).
Proof using HE.
  induction k as [|k IH]; intros p qid Hp; cbn [init_queues]; [by apply port_keeps_refl|].
  apply every_bind. eapply every_mono; [by apply every_init_queue|].
  intros [p' [e|]] (Hc & Hr & Hp'); [done|]. eapply every_mono; [by apply IH|].
  intros [p'' err] (Hc' & Hr' & Hp''). split; simpl in *; [congruence|]. split; [congruence|done].
Qed.

Lemma every_initializeQueues p :
  port_typed s pid p -> every E (initializeQueues pid p) (fun r => port_keeps p r.1).
Proof using HE.
  intros Hp. apply every_bind. eapply every_mono; [by apply every_init_queues|].
  intros [p' [e|]] (Hc & Hr & Hp'); [done|]. eapply every_mono; [by apply every_init_queues|].
  intros [p'' err] (Hc' & Hr' & Hp''). split; simpl in *; [congruence|]. split; [congruence|done].
Qed.
End setup.

(** ** Control functions *)

Section control.
Context (E : panic -> Prop) (HE : forall e, e <> NilDereference -> E e).
Implicit Types s : state.

(** [safe m s]: [m] is typed in [s], with nothing said of its result. *)
Definition safe {A} (m : M A) s : Prop := typed E m s (fun _ _ => True).

Lemma safe_mret {A} (a : A) s : well_typed s -> safe (mret a) s.
Proof using. intros. by apply typed_ret. Qed.

Lemma safe_bind {A B} (m : M A) (k : A -> M B) s :
  safe m s -> (forall a s', well_typed s' -> extends s s' -> safe (k a) s') -> safe (m ≫= k) s.
Proof using. intros Hm Hk. eapply typed_bind; [exact Hm|]. intros. by apply Hk. Qed.

Lemma safe_check e w k s :
  safe e s -> (forall s', well_typed s' -> extends s s' -> safe k s') -> safe (check e w k) s.
Proof using. intros He Hk. by apply typed_check. Qed.

Lemma safe_sys {X B} (c : syscall X) (k : X -> M B) s :
  well_typed s -> (forall x, safe (k x) s) -> safe (lift (syscall_ c) ≫= k) s.
Proof using.
  intros Hs Hk. eapply typed_bind; [by apply (typed_sys E c s (fun _ s' => s' = s))|].
  intros x s' _ _ ->. apply Hk.
Qed.

Lemma safe_get_state {B} (k : state -> M B) s : well_typed s -> safe (k s) s -> safe (get_state ≫= k) s.
Proof using. done. Qed.

Lemma safe_get_port {B} pid (k : Port -> M B) s :
  well_typed s -> port_live pid s ->
  (forall p, ports s !! pid = Some p -> port_typed s pid p -> safe (k p) s) ->
  safe (get_port pid ≫= k) s.
Proof using.
  intros Hs Hp Hk. eapply typed_bind; [by apply typed_get_port|]. intros p s' _ _ (-> & ? & ?). by apply Hk.
Qed.

Lemma safe_get_chan {B} c (k : controlChannel -> M B) s :
  well_typed s -> chan_live c s ->
  (forall x, ccs s !! c = Some x -> chan_typed s x -> safe (k x) s) ->
  safe (get_chan c ≫= k) s.
Proof using.
  intros Hs Hp Hk. eapply typed_bind; [by apply typed_get_chan|]. intros x s' _ _ (-> & ? & ?). by apply Hk.
Qed.

Lemma safe_chan_port {B} c (k : nat -> M B) s :
  well_typed s -> chan_live c s -> may_deref E c s ->
  (forall pid, port_live pid s -> safe (k pid) s) -> safe (chan_port c ≫= k) s.
Proof using.
  intros Hs Hc Hd Hk. eapply typed_bind; [by apply typed_chan_port|]. intros pid s' _ _ (-> & ?). by apply Hk.
Qed.

(** A port update that keeps configuration and typing. *)
Lemma safe_mod_port pid f s :
  well_typed s -> port_live pid s ->
  (forall p, port_typed s pid p -> cfg (f p) = cfg p /\ port_typed s pid (f p)) ->
  safe (mod_port pid f) s.
Proof using. intros Hs Hp Hf. apply typed_mod_port; [done..|]. intros p _. apply Hf. Qed.

Lemma msg_typed_write N `{Message N} (x : N) f : msg_ok x -> msg_typed (mkControlMsg (write_msg x) f).
Proof using.
  intros Hx. unfold msg_typed. cbn [Buffer]. rewrite zlen_write_msg by done.
  pose proof (law_size_nonneg _ _ msg_lawful). pose proof msg_fits. unfold msgTypeSize in *. lia.
Qed.

Lemma msg_typed_ack : msg_typed (mkControlMsg (put uint16 msgTypeAck) (-1)).
Proof using. by split. Qed.

Lemma safe_enqueue c buf f s :
  well_typed s -> chan_live c s -> msg_typed (mkControlMsg buf f) -> safe (enqueue c buf f) s.
Proof using.
  intros Hs Hc Hm. apply typed_mod_chan; [done..|]. intros x [? ? ? ?].
  split; [done|]. split; [done|]. split; try done. simpl. apply Forall_app. split; [done|by constructor].
Qed.

(** Enqueue and report success: how every [msgEnq] function ends. *)
Lemma safe_enqueued c buf f s :
  well_typed s -> chan_live c s -> msg_typed (mkControlMsg buf f) ->
  safe (enqueue c buf f ;; mret (@None goerror)) s.
Proof using. intros. apply safe_bind; [by apply safe_enqueue|]. intros. by apply safe_mret. Qed.

Lemma safe_sendMsg c s : well_typed s -> chan_live c s -> safe (sendMsg c) s.
Proof using HE.
  intros Hs Hc. apply safe_get_chan; [done..|]. intros x Hx Ht.
  destruct (msgQueue x) as [|m rest] eqn:Hq; [by apply safe_mret|].
  pose proof (xt_queue _ _ Ht) as Hall. rewrite Hq in Hall. apply Forall_cons in Hall as [Hm Hrest].
  eapply typed_bind; [eapply typed_put_chan; try done; by destruct Ht|].
  intros _ s1 Hs1 _ _. unfold msg_typed in Hm. rewrite (proj2 (Z.eqb_neq _ _)) by lia.
  apply safe_sys; [done|]. intros r. by apply safe_mret.
Qed.

Lemma safe_msgEnqAck c s : well_typed s -> chan_live c s -> safe (msgEnqAck c) s.
Proof using. intros. apply safe_enqueued; [done..|]. apply msg_typed_ack. Qed.

Lemma safe_msgEnqHello c s : well_typed s -> chan_live c s -> safe (msgEnqHello c) s.
Proof using.
  intros. apply safe_get_state; [done|]. apply safe_enqueued; [done..|]. apply (msg_typed_write MsgHello).
  split; [by apply zlen_copy_array|]. unfold in_width. vm_compute. intuition congruence.
Qed.

Lemma safe_msgEnqInit c s : well_typed s -> chan_live c s -> may_deref E c s -> safe (msgEnqInit c) s.
Proof using.
  intros Hs Hc Hd. apply safe_get_state; [done|]. apply safe_chan_port; [done..|]. intros pid Hp.
  apply safe_get_port; [done..|]. intros p _ Ht. apply safe_enqueued; [done..|]. apply (msg_typed_write MsgInit).
  pose proof (cf_id _ (cc_typed _ (pt_cfg _ _ _ Ht))). split; [done|]. split; [done|]. split; [done|].
  split; [done|]. by apply zlen_copy_array.
Qed.

Lemma safe_msgEnqAddRegion c i s :
  well_typed s -> chan_live c s -> may_deref E c s -> in_width 16 i -> safe (msgEnqAddRegion c i) s.
Proof using.
  intros Hs Hc Hd Hi. apply safe_chan_port; [done..|]. intros pid Hp.
  apply safe_get_port; [done..|]. intros p _ Ht. destruct (regions p !! _) as [r|] eqn:Hr; [|by apply safe_mret].
  apply safe_enqueued; [done..|]. apply (msg_typed_write MsgAddRegion).
  pose proof (pt_regions _ _ _ Ht) as Hall. rewrite Forall_lookup in Hall. destruct (Hall _ _ Hr). by split.
Qed.

Lemma safe_msgEnqAddRing c t i s :
  well_typed s -> chan_live c s -> may_deref E c s -> in_width 16 i -> safe (msgEnqAddRing c t i) s.
Proof using HE.
  intros Hs Hc Hd Hi. apply safe_chan_port; [done..|]. intros pid Hp.
  apply safe_get_port; [done..|]. intros p _ Ht.
  assert (forall (qs : list Queue) fl, in_width 16 fl -> safe (match qs !! Z.to_nat i with
    | None => raise IndexOutOfRange
    | Some q => enqueue c (write_msg (mkMsgAddRing fl i (u16 (rg_region (q_ring q)))
                   (u32 (rg_offset (q_ring q))) (u8 (rg_log2Size (q_ring q))) 0)) (interruptFd q) ;;
                mret (@None goerror) end) s) as Hring.
  { intros qs fl Hfl. destruct (qs !! _) as [q|]; [|by apply HE].
    apply safe_enqueued; [done..|]. apply (msg_typed_write MsgAddRing).
    split; [done|]. split; [done|]. split; [apply u16_range|]. split; [apply u32_range|].
    split; [apply u8_range|done]. }
  destruct t; by apply Hring.
Qed.

Lemma safe_msgEnqConnect c s : well_typed s -> chan_live c s -> may_deref E c s -> safe (msgEnqConnect c) s.
Proof using.
  intros Hs Hc Hd. apply safe_chan_port; [done..|]. intros pid Hp. apply safe_get_port; [done..|].
  intros p _ _. apply safe_enqueued; [done..|]. apply (msg_typed_write MsgConnect). apply zlen_copy_array. done.
Qed.

Lemma safe_msgEnqConnected c s : well_typed s -> chan_live c s -> may_deref E c s -> safe (msgEnqConnected c) s.
Proof using.
  intros Hs Hc Hd. apply safe_chan_port; [done..|]. intros pid Hp. apply safe_get_port; [done..|].
  intros p _ _. apply safe_enqueued; [done..|]. apply (msg_typed_write MsgConnected). apply zlen_copy_array. done.
Qed.

Lemma safe_msgEnqDisconnect c str s : well_typed s -> chan_live c s -> safe (msgEnqDisconnect c str) s.
Proof using.
  intros. apply safe_enqueued; [done..|]. apply (msg_typed_write MsgDisconnect). split; [done|]. by apply zlen_copy_array.
Qed.
End control.

(** ** Handlers, connect and disconnect *)

Section handlers.
Context (E : panic -> Prop) (HE : forall e, e <> NilDereference -> E e).
Context {cb : Callbacks} {HT : TypedCallbacks cb}.
Implicit Types s : state.

(** A received message is whole, and its fields have their widths. *)
Lemma safe_with_msg N `{Message N} c (k : N -> M (option goerror)) s :
  well_typed s -> chan_live c s -> (forall m, msg_ok m -> safe E (k m) s) -> safe E (with_msg N c k) s.
Proof using.
  intros Hs Hc Hk. apply safe_get_chan; [done..|]. intros x _ Ht.
  destruct (read_msg_full (M := N) (cc_data x) (xt_data _ _ Ht)) as (m & -> & Hm & _). by apply Hk.
Qed.

(** Port updates that touch no typed field but [run]. *)
Lemma port_typed_set_run s pid p v : config_typed v -> port_typed s pid p -> port_typed s pid (set_run v p).
Proof using. by intros ? []. Qed.
Lemma port_typed_set_names s pid p n v : port_typed s pid p -> port_typed s pid (set_remoteName n (set_peerName v p)).
Proof using. by intros []. Qed.

Lemma config_typed_negotiate mc h : config_typed mc -> hello_ok h -> config_typed (negotiate mc h).
Proof using.
  intros [? ? ?] (_ & _ & _ & _ & ? & _ & ?). unfold negotiate, min16, min8.
  split; simpl; try done; by case_bool.
Qed.

Lemma safe_parseHello c s : well_typed s -> chan_live c s -> may_deref E c s -> safe E (parseHello c) s.
Proof using.
  intros Hs Hc Hd. apply safe_with_msg; [done..|]. intros h Hh. case_bool; [by apply safe_mret|].
  apply safe_chan_port; [done..|]. intros pid Hp. apply safe_bind; [|intros; by apply safe_mret].
  apply safe_mod_port; [done..|]. intros p Ht. split; [done|].
  pose proof (config_typed_negotiate _ h (cf_memory _ (cc_typed _ (pt_cfg _ _ _ Ht))) Hh). by destruct Ht.
Qed.

Lemma safe_find_port c init l : forall s,
  well_typed s -> chan_live c s -> Forall (fun pid => port_live pid s) l -> safe E (find_port c init l) s.
Proof using.
  intros s Hs Hc Hl. induction Hl as [|pid l Hp Hl IH]; cbn [find_port]; [by apply safe_mret|].
  apply safe_get_port; [done..|]. intros p _ Ht. case_bool; [|exact IH]. case_bool; [|by apply safe_mret].
  apply safe_bind.
  { apply safe_mod_port; [done..|]. intros q []. split; [done|]. split; try done.
    simpl. intros c' [= <-]. exact Hc. }
  intros _ s1 Hs1 H1. apply safe_bind.
  { apply typed_mod_chan; [done|by eapply extends_chan_live|]. intros x []. split; [done|].
    split; [by eexists|]. split; try done. simpl. intros q [= <-]. by eapply extends_port_live. }
  intros _ s2 Hs2 H2. apply safe_bind; [|intros; by apply safe_mret].
  apply safe_mod_port; [done| |].
  { eapply extends_port_live; [|done]. by etrans. }
  intros q Hq. split; [done|]. pose proof (cf_memory _ (cc_typed _ (pt_cfg _ _ _ Hq))). by destruct Hq.
Qed.

Lemma safe_parseInit c s : well_typed s -> chan_live c s -> safe E (parseInit c) s.
Proof using.
  intros Hs Hc. apply safe_with_msg; [done..|]. intros init _. case_bool; [by apply safe_mret|].
  apply safe_get_state; [done|]. apply safe_find_port; [done..|]. by apply wt_portList.
Qed.

Lemma safe_parseControlMsg {B} c (k : Z + goerror -> M B) s :
  well_typed s -> chan_live c s -> (forall r, safe E (k r) s) -> safe E (parseControlMsg c ≫= k) s.
Proof using.
  intros Hs Hc Hk. eapply (typed_bind _ _ _ _ (fun _ s' => s' = s)); [|intros r s' _ _ ->; apply Hk].
  unfold parseControlMsg. eapply typed_bind; [by apply typed_get_chan|]. intros x s' _ _ (-> & _ & _).
  destruct (cc_control x) as [[|m ms]|e]; try by apply typed_ret.
  destruct (parse_rights _ _) as [f|e]; [|by apply typed_ret]. by case_bool; apply typed_ret.
Qed.

Lemma safe_parseAddRegion c s : well_typed s -> chan_live c s -> may_deref E c s -> safe E (parseAddRegion c) s.
Proof using.
  intros Hs Hc Hd. apply safe_with_msg; [done..|]. intros m [_ Hm]. apply safe_parseControlMsg; [done..|].
  intros [f|e]; [|by apply safe_mret]. case_bool; [by apply safe_mret|].
  apply safe_chan_port; [done..|]. intros pid Hp. apply safe_bind; [|intros; by apply safe_mret].
  apply safe_mod_port; [done..|]. intros p []. split; [done|]. split; try done. simpl.
  apply Forall_app. split; [done|]. constructor; [|done]. by split.
Qed.

Lemma safe_parseAddRing c s : well_typed s -> chan_live c s -> may_deref E c s -> safe E (parseAddRing c) s.
Proof using.
  intros Hs Hc Hd. apply safe_with_msg; [done..|]. intros m (_ & _ & _ & _ & Hm & _).
  apply safe_parseControlMsg; [done..|]. intros [f|e]; [|by apply safe_mret].
  apply safe_chan_port; [done..|]. intros pid Hp. apply safe_get_port; [done..|]. intros p Hl Ht.
  assert (Hq : forall t o, queue_typed pid (mkQueue (newRing (ring_Region m) t o (RingSizeLog2 m)) pid 0 0 f)).
  { intros t o. split; [by split|done|by split..]. }
  case_bool; [by apply safe_mret|].
  assert (Hput : forall p', cfg p' = cfg p -> port_typed s pid p' ->
    safe E (put_port pid p' ;; mret (@None goerror)) s).
  { intros p' Hcfg Hp'. apply safe_bind; [|intros; by apply safe_mret].
    eapply typed_mono; [by eapply typed_put_port|done]. }
  case_bool; apply Hput; try done; destruct Ht; split; try done; simpl; apply Forall_app;
    split; try done; constructor; done || apply Hq.
Qed.

(** [connect] *)

Lemma safe_defaultDisconnectedFunc pid s :
  well_typed s -> port_live pid s -> safe E (defaultDisconnectedFunc pid) s.
Proof using HE.
  intros Hs Hp. apply safe_get_port; [done..|]. intros p Hl Ht.
  destruct (QuitChan_closed p); [by apply HE|].
  assert (forall s' a b, port_typed s' pid p -> port_typed s' pid (set_chans_closed a b p)) as Hset by by intros ??? [].
  eapply typed_bind; [eapply typed_put_port; try done; by apply Hset|].
  intros _ s1 Hs1 H1 ->. destruct (ErrChan_closed p); [by apply HE|].
  apply safe_bind.
  - eapply typed_mono; [|done]. eapply typed_put_port; [done|apply lookup_set_port|done|].
    apply Hset. by eapply port_typed_extends.
  - intros _ s2 Hs2 _ []; [by apply (safe_mret E (None : option goerror))|done].
Qed.

Lemma safe_call f pid s : well_typed s -> port_live pid s -> f <> NilFunc -> safe E (call f pid) s.
Proof using HE HT.
  intros Hs Hp Hf. destruct f as [|n|]; [done|by apply user_func_typed|by apply safe_defaultDisconnectedFunc].
Qed.

Lemma port_typed_set_region_data s pid p rid d :
  port_typed s pid p -> port_typed s pid (set_region_data rid d p).
Proof using.
  intros []. split; try done. simpl. apply Forall_alter; [done|]. intros r _ []. by split.
Qed.

Lemma safe_map_regions pid k : forall rid s, well_typed s -> port_live pid s -> safe E (map_regions pid k rid) s.
Proof using HE.
  induction k as [|k IH]; intros rid s Hs Hp; cbn [map_regions]; [by apply safe_mret|].
  apply safe_get_port; [done..|]. intros p _ Ht. destruct (regions p !! rid) as [r|]; [|by apply HE].
  destruct (data r); [by apply IH|].
  eapply (typed_bind _ _ _ _ (fun _ s' => s' = s)).
  { apply typed_lift; [done|]. unfold Mmap. by case_bool. }
  intros [d|e] s' _ _ ->; [|by apply safe_mret].
  apply safe_bind; [apply safe_mod_port; [done..|]; intros q Hq; by split; [|apply port_typed_set_region_data]|].
  intros _ s1 Hs1 H1. apply IH; [done|]. by eapply extends_port_live.
Qed.

Lemma Forall_queue_insert pid qs i q :
  Forall (queue_typed pid) qs -> queue_typed pid q -> Forall (queue_typed pid) (<[i := q]> qs).
Proof using. intros. by apply Forall_insert. Qed.

(** One turn of either loop of [connect]: refresh a header, store the port. *)
Lemma safe_refresh pid p q (set : Queue -> Port) (k : Queue -> M (option goerror)) s :
  well_typed s -> ports s !! pid = Some p -> queue_typed pid q ->
  (forall q', queue_typed pid q' -> cfg (set q') = cfg p /\ port_typed s pid (set q')) ->
  (forall q' s', well_typed s' -> port_live pid s' -> safe E (k q') s') ->
  safe E (q ← lift (updateRing p q); put_port pid (set q) ;; k q) s.
Proof using HE.
  intros Hs Hp Hq Hset Hk. eapply (typed_bind _ _ _ _ (fun q' s' => queue_typed pid q' /\ s' = s)).
  { apply typed_lift; [done|]. apply every_updateRing; [done|]. intros b Hb.
    split; [by apply queue_typed_set_rb|done]. }
  intros q' s' _ _ [Hq' ->]. destruct (Hset q' Hq').
  eapply typed_bind; [by eapply typed_put_port|]. intros _ s1 Hs1 H1 _. apply Hk; [done|].
  eapply extends_port_live; [done|by eexists].
Qed.

Lemma safe_check_tx pid k : forall qid s, well_typed s -> port_live pid s -> safe E (check_tx pid k qid) s.
Proof using HE.
  induction k as [|k IH]; intros qid s Hs Hp; cbn [check_tx]; [by apply safe_mret|].
  apply safe_get_port; [done..|]. intros p Hl Ht. destruct (txQueues p !! qid) as [q|] eqn:Hq; [|by apply HE].
  pose proof (pt_tx _ _ _ Ht) as Hall. pose proof Hall as Hall'. rewrite Forall_lookup in Hall'.
  apply (safe_refresh pid p q (fun q' => set_txQueues (<[qid := q']> (txQueues p)) p)); [done|done|by eapply Hall'|..].
  - intros q' Hq'. split; [done|]. destruct Ht. split; try done. by apply Forall_queue_insert.
  - intros q' s' Hs' Hp'. case_bool; [by apply IH|by apply safe_mret].
Qed.

Lemma safe_check_rx pid k : forall qid s, well_typed s -> port_live pid s -> safe E (check_rx pid k qid) s.
Proof using HE.
  induction k as [|k IH]; intros qid s Hs Hp; cbn [check_rx]; [by apply safe_mret|].
  apply safe_get_port; [done..|]. intros p Hl Ht. destruct (rxQueues p !! qid) as [q|] eqn:Hq; [|by apply HE].
  pose proof (pt_rx _ _ _ Ht) as Hall. pose proof Hall as Hall'. rewrite Forall_lookup in Hall'.
  apply (safe_refresh pid p q (fun q' => set_rxQueues (<[qid := q']> (rxQueues p)) p)); [done|done|by eapply Hall'|..].
  - intros q' Hq'. split; [done|]. destruct Ht. split; try done. by apply Forall_queue_insert.
  - intros q' s' Hs' Hp'. case_bool; [by apply IH|by apply safe_mret].
Qed.

Lemma safe_connect pid s : well_typed s -> port_live pid s -> safe E (connect pid) s.
Proof using HE HT.
  intros Hs Hp. apply safe_get_port; [done..|]. intros p _ _.
  apply safe_check; [by apply safe_map_regions|]. intros s1 Hs1 H1.
  pose proof (extends_port_live _ _ _ H1 Hp). apply safe_get_port; [done..|]. intros p1 _ _.
  apply safe_check; [by apply safe_check_tx|]. intros s2 Hs2 H2.
  pose proof (extends_port_live _ _ pid H2 ltac:(done)). apply safe_get_port; [done..|]. intros p2 _ _.
  apply safe_check; [by apply safe_check_rx|]. intros s3 Hs3 H3.
  pose proof (extends_port_live _ _ pid H3 ltac:(done)). apply safe_get_port; [done..|]. intros p3 _ Ht.
  apply safe_call; [done..|]. apply (cf_connected _ (cc_typed _ (pt_cfg _ _ _ Ht))).
Qed.
End handlers.

(** ** Closing, the dispatcher, events *)

Section events.
Context (E : panic -> Prop) (HE : forall e, e <> NilDereference -> E e).
Context {cb : Callbacks} {HT : TypedCallbacks cb} `{ErrnoText}.
Implicit Types s : state.

Lemma every_close_queues qs (Q : unit -> Prop) : Q tt -> every E (close_queues qs) Q.
Proof using. intros HQ. induction qs as [|q qs IH]; [done|]. by intros e. Qed.

Lemma every_unmap_regions rs (Q : option goerror -> Prop) : (forall r, Q r) -> every E (unmap_regions rs) Q.
Proof using.
  intros HQ. induction rs as [|r rs IH]; [apply HQ|]. cbn [unmap_regions]. apply every_bind.
  assert (forall e, every E (match e with
    | Some e => mret (Some (ErrErrno e))
    | None => e0 ← syscall_ (SysClose (fd r));
              match e0 with Some e1 => mret (Some (ErrErrno e1)) | None => unmap_regions rs end end) Q) as Hk.
  { intros [e|]; [apply HQ|]. intros [e|]; [apply HQ|exact IH]. }
  unfold Munmap. destruct (data r) as [d|]; [|apply Hk]. case_bool; [apply Hk|]. intros e. apply Hk.
Qed.

(** The updates of [disconnect], each of a live port. *)
Lemma safe_then pid f (k : M (option goerror)) s :
  well_typed s -> port_live pid s ->
  (forall s p, port_typed s pid p -> cfg (f p) = cfg p /\ port_typed s pid (f p)) ->
  (forall s', well_typed s' -> port_live pid s' -> safe E k s') -> safe E (mod_port pid f ;; k) s.
Proof using.
  intros Hs Hp Hf Hk. apply safe_bind; [apply safe_mod_port; [done..|]; apply Hf|].
  intros _ s1 Hs1 H1. apply Hk; [done|]. by eapply extends_port_live.
Qed.

Lemma safe_disconnect pid s : well_typed s -> port_live pid s -> safe E (disconnect pid) s.
Proof using HE HT.
  intros Hs Hp. apply safe_get_port; [done..|]. intros p _ Ht. destruct (p_cc p) as [c|]; [|by apply safe_mret].
  apply safe_check; [apply safe_call; [done..|]; apply (cc_disconnected _ (pt_cfg _ _ _ Ht))|].
  intros s1 Hs1 H1. pose proof (extends_port_live _ _ _ H1 Hp) as Hp1.
  apply safe_get_port; [done..|]. intros p1 _ _.
  assert (Hclose : forall {B} qs (k : unit -> M B) s, well_typed s -> safe E (k tt) s ->
    safe E (lift (close_queues qs) ≫= k) s).
  { intros B qs k s0 Hs0 Hk. eapply (typed_bind _ _ _ _ (fun _ s' => s' = s0)).
    - by apply typed_lift, every_close_queues.
    - by intros [] s' _ _ ->. }
  apply Hclose; [done|]. apply safe_then; [done..|intros ?? []; by split|]. intros s2 Hs2 Hp2.
  apply safe_get_port; [done..|]. intros p2 _ _.
  apply Hclose; [done|]. apply safe_then; [done..|intros ?? []; by split|]. intros s3 Hs3 Hp3.
  apply safe_get_port; [done..|]. intros p3 _ _.
  apply safe_check; [apply typed_lift; [done|]; by apply every_unmap_regions|].
  intros s4 Hs4 H4. pose proof (extends_port_live _ _ _ H4 Hp3).
  do 4 (apply safe_then; [done..|intros ?? []; by split|]; intros ???). by apply safe_mret.
Qed.

Lemma safe_delEvent f s : well_typed s -> safe E (delEvent f) s.
Proof using. intros Hs. apply safe_get_state, safe_sys; [done..|]. intros r. by apply safe_mret. Qed.

Lemma safe_addEvent f s : well_typed s -> safe E (addEvent f) s.
Proof using. intros Hs. apply safe_get_state, safe_sys; [done..|]. intros r. by apply safe_mret. Qed.

Lemma safe_close c send str s : well_typed s -> chan_live c s -> safe E (close c send str) s.
Proof using HE HT.
  intros Hs Hc. apply safe_check.
  { destruct send; [|by apply safe_mret]. apply safe_bind.
    - apply typed_mod_chan; [done..|]. intros x []. split; [done|]. split; [done|]. by split.
    - intros _ s1 Hs1 H1. pose proof (extends_chan_live _ _ _ H1 Hc).
      apply safe_bind; [by apply safe_msgEnqDisconnect|]. intros _ s2 Hs2 H2.
      apply safe_sendMsg; [done..|]. by eapply extends_chan_live. }
  intros s1 Hs1 H1. pose proof (extends_chan_live _ _ _ H1 Hc) as Hc1.
  apply safe_get_chan; [done..|]. intros x _ _. apply safe_check; [by apply safe_delEvent|].
  intros s2 Hs2 H2. pose proof (extends_chan_live _ _ _ H2 Hc1) as Hc2. apply safe_bind.
  { apply typed_modify; [|apply extends_set_socket|done].
    apply well_typed_set_socket; [done|done|]. apply list_remove_sublist. }
  intros _ s3 Hs3 H3. pose proof (extends_chan_live _ _ _ H3 Hc2).
  apply safe_get_chan; [done..|]. intros y _ Ht. destruct (cc_port y) as [pid|] eqn:Hp; [|by apply safe_mret].
  apply safe_check; [|intros; by apply safe_mret]. apply safe_disconnect; [done|]. by eapply xt_port.
Qed.

Lemma safe_for_each k f (P : state -> Prop) : forall from s,
  well_typed s -> P s -> (forall s s', extends s s' -> P s -> P s') ->
  (forall i s, well_typed s -> P s -> in_width 16 i -> safe E (f i) s) -> safe E (for_each k from f) s.
Proof using.
  induction k as [|k IH]; intros from s Hs HP Hmono Hf; cbn [for_each]; [by apply safe_mret|].
  apply safe_check; [apply Hf; [done..|]; apply u16_range|].
  intros s' Hs' He. apply IH; [done|by eapply Hmono|done|done].
Qed.

(** A live channel whose port may be used. *)
Definition usable c s : Prop := chan_live c s /\ may_deref E c s.

Lemma usable_extends c s s' : extends s s' -> usable c s -> usable c s'.
Proof using. intros He []. split; [by eapply extends_chan_live|by eapply may_deref_extends]. Qed.

Lemma safe_announce c p s : well_typed s -> usable c s -> safe E (announce c p) s.
Proof using HE.
  intros Hs Hc. unfold announce. pose proof (usable_extends c) as Hmono.
  apply safe_check; [destruct Hc; by apply safe_msgEnqInit|]. intros s1 Hs1 H1.
  pose proof (Hmono _ _ H1 Hc) as Hc1. apply safe_check.
  { apply (safe_for_each _ _ (usable c)); [done..|]. intros i s' Hs' [] Hi. by apply safe_msgEnqAddRegion. }
  intros s2 Hs2 H2. pose proof (Hmono _ _ H2 Hc1) as Hc2. apply safe_check.
  { apply (safe_for_each _ _ (usable c)); [done..|]. intros i s' Hs' [] Hi. by apply safe_msgEnqAddRing. }
  intros s3 Hs3 H3. pose proof (Hmono _ _ H3 Hc2) as Hc3. apply safe_check.
  { apply (safe_for_each _ _ (usable c)); [done..|]. intros i s' Hs' [] Hi. by apply safe_msgEnqAddRing. }
  intros s4 Hs4 H4. pose proof (Hmono _ _ H4 Hc3) as []. by apply safe_msgEnqConnect.
Qed.

(** Storing what an initialiser made of the port. *)
Lemma safe_initialise {B} pid p (m : prog (Port * option goerror)) (k : Port * option goerror -> M B) s :
  well_typed s -> ports s !! pid = Some p -> every E m (fun r => port_keeps s pid p r.1) ->
  (forall p' err s', well_typed s' -> extends s s' -> ports s' !! pid = Some p' -> port_typed s' pid p' ->
     safe E (k (p', err)) s') ->
  safe E ('(p', err) ← lift m; put_port pid p' ;; k (p', err)) s.
Proof using.
  intros Hs Hp Hm Hk. eapply (typed_bind _ _ _ _ (fun r s' => port_keeps s pid p r.1 /\ s' = s)).
  { apply typed_lift; [done|]. eapply every_mono; [exact Hm|]. by split. }
  intros [p' err] s' _ _ [(Hcfg & _ & Ht) ->]. simpl in *.
  eapply typed_bind; [by eapply typed_put_port|]. intros _ s1 Hs1 H1 ->.
  apply Hk; [done..|apply lookup_set_port|by eapply port_typed_extends].
Qed.

Lemma safe_check_now err k s : well_typed s -> safe E k s -> safe E (check (mret err) id k) s.
Proof using. intros Hs Hk. destruct err as [e|]; [by apply (safe_mret E (Some e))|exact Hk]. Qed.

Lemma safe_on_hello c s : well_typed s -> usable c s -> safe E (on_hello c) s.
Proof using HE.
  intros Hs Hc. pose proof (usable_extends c) as Hmono.
  apply safe_check; [destruct Hc; by apply safe_parseHello|]. intros s1 Hs1 H1.
  pose proof (Hmono _ _ H1 Hc) as Hc1. apply safe_chan_port; [done|apply Hc1..|]. intros pid Hp.
  apply safe_get_port; [done..|]. intros p Hl Ht.
  apply (safe_initialise pid p _ (fun '(p, err) => check (mret err) id ('(p, err) ← lift (initializeQueues pid p);
    put_port pid p ;; check (mret err) id (announce c p)))); [done..|by apply every_initializeRegions|].
  intros p2 err2 s2 Hs2 H2 Hl2 Ht2. pose proof (Hmono _ _ H2 Hc1) as Hc2.
  apply safe_check_now; [done|]. apply (safe_initialise pid p2 _ (fun '(p, err) => check (mret err) id (announce c p)));
    [done..|by apply every_initializeQueues|].
  intros p3 err3 s3 Hs3 H3 _ _. apply safe_check_now; [done|]. apply safe_announce; [done|]. by eapply Hmono.
Qed.

(** [peerName], [connect], [isConnected]: what both connect messages do. *)
Lemma safe_connected c pid n s :
  well_typed s -> chan_live c s -> port_live pid s ->
  safe E (mod_port pid (set_peerName n) ;; try connect pid ;; mod_chan c (set_isConnected true) ;; mret None) s.
Proof using HE HT.
  intros Hs Hc Hp. apply safe_bind; [apply safe_mod_port; [done..|]; intros ? []; by split|].
  intros _ s1 Hs1 H1. apply safe_check; [apply safe_connect; [done..|]; by eapply extends_port_live|].
  intros s2 Hs2 H2. apply safe_bind; [|intros; by apply safe_mret].
  apply typed_mod_chan; [done|eapply extends_chan_live; [|done]; by etrans|].
  intros x []. split; [done|]. split; [done|]. by split.
Qed.

Lemma safe_parseConnect c s : well_typed s -> usable c s -> safe E (parseConnect c) s.
Proof using HE HT.
  intros Hs [Hc Hd]. apply safe_with_msg; [done..|]. intros m _. apply safe_chan_port; [done..|].
  intros pid Hp. by apply safe_connected.
Qed.

Lemma safe_parseConnected c s : well_typed s -> usable c s -> safe E (parseConnected c) s.
Proof using HE HT.
  intros Hs [Hc Hd]. apply safe_with_msg; [done..|]. intros m _. apply safe_chan_port; [done..|].
  intros pid Hp. by apply safe_connected.
Qed.

Lemma safe_parseDisconnect c s : well_typed s -> usable c s -> safe E (parseDisconnect c) s.
Proof using HE HT.
  intros Hs [Hc Hd]. apply safe_with_msg; [done..|]. intros m _.
  apply safe_check; [by apply safe_close|]. intros. by apply safe_mret.
Qed.

Lemma safe_dispatch c t s : well_typed s -> usable c s -> safe E (dispatch c t) s.
Proof using HE HT.
  intros Hs Hc. pose proof (usable_extends c) as Hmono. unfold dispatch. destruct Hc as [Hl Hd].
  repeat case_bool; try by apply safe_mret.
  - by apply safe_on_hello.
  - apply safe_check; [by apply safe_parseInit|]. intros s1 Hs1 H1. apply safe_msgEnqAck; [done|].
    by eapply extends_chan_live.
  - apply safe_check; [by apply safe_parseAddRegion|]. intros s1 Hs1 H1. apply safe_msgEnqAck; [done|].
    by eapply extends_chan_live.
  - apply safe_check; [by apply safe_parseAddRing|]. intros s1 Hs1 H1. apply safe_msgEnqAck; [done|].
    by eapply extends_chan_live.
  - apply safe_check; [by apply safe_parseConnect|]. intros s1 Hs1 H1.
    destruct (Hmono _ _ H1 (conj Hl Hd)). by apply safe_msgEnqConnected.
  - by apply safe_parseConnected.
  - by apply safe_parseDisconnect.
Qed.

Lemma safe_parseMsg c s : well_typed s -> usable c s -> safe E (parseMsg c) s.
Proof using HE HT.
  intros Hs Hc. apply safe_get_chan; [done|apply Hc|]. intros x _ _.
  apply safe_bind; [by apply safe_dispatch|]. intros [e|] s1 Hs1 H1; [|by apply safe_mret].
  apply safe_bind; [apply safe_close; [done|]; by eapply extends_chan_live, Hc|].
  intros [e1|] s2 Hs2 H2; by apply safe_mret.
Qed.

Lemma safe_port_name {B} c (k : string -> M B) s :
  well_typed s -> usable c s -> (forall n, safe E (k n) s) -> safe E (port_name c ≫= k) s.
Proof using.
  intros Hs [Hc Hd] Hk. eapply (typed_bind _ _ _ _ (fun _ s' => s' = s)); [|intros n s' _ _ ->; apply Hk].
  unfold port_name. eapply typed_bind; [by apply typed_chan_port|]. intros pid s' _ _ [-> Hp].
  eapply typed_bind; [by apply typed_get_port|]. intros p s' _ _ (-> & _ & _). by apply typed_ret.
Qed.

Lemma safe_on_datagram c r s : well_typed s -> usable c s -> safe E (on_datagram c r) s.
Proof using HE HT.
  intros Hs [Hc Hd]. apply safe_bind.
  { apply typed_mod_chan; [done..|]. intros x []. split; [done|]. split; [done|]. split; try done.
    simpl. by rewrite zlen_go_copy. }
  intros _ s1 Hs1 H1. case_bool; [by apply safe_mret|].
  pose proof (usable_extends c _ _ H1 (conj Hc Hd)) as Hc1. apply safe_check; [by apply safe_parseMsg|].
  intros s2 Hs2 H2. apply safe_sendMsg; [done..|]. by eapply extends_chan_live, Hc1.
Qed.

Lemma safe_handleEvent c ev s : well_typed s -> usable c s -> safe E (handleEvent c ev) s.
Proof using HE HT.
  intros Hs Hc. pose proof (usable_extends c) as Hmono. unfold handleEvent.
  assert (forall str w k, (forall n s, well_typed s -> safe E (k n) s) ->
    safe E (check (close c false str) w (n ← port_name c; k n)) s) as Hclose.
  { intros str w k Hk. apply safe_check; [by apply safe_close, Hc|]. intros s1 Hs1 H1.
    apply safe_port_name; [done|by eapply Hmono|]. intros n. by apply Hk. }
  case_bool; [apply Hclose; intros; by apply safe_mret|].
  case_bool; [apply Hclose; intros; by apply safe_mret|].
  case_bool; [|by apply safe_mret].
  apply safe_get_chan; [done|apply Hc|]. intros x _ _. apply safe_sys; [done|].
  intros [r|e]; [by apply safe_on_datagram|]. apply safe_bind; [|intros; by apply safe_mret].
  apply typed_mod_chan; [done|apply Hc|]. intros y []. split; [done|]. split; [done|]. by split.
Qed.

(** ** Listener and sockets *)

Lemma extends_new_chan s k x :
  well_typed s -> extends s (mkState k (ports s) (<[next s := x]> (ccs s)) (S (next s))).
Proof using.
  intros Hs. split; simpl; [eauto| |lia]. intros c y Hy. rewrite lookup_insert.
  case_decide; [|eauto]. subst. apply (wt_chans _ Hs) in Hy. lia.
Qed.

Lemma well_typed_new_chan s x :
  well_typed s -> chan_typed s x -> well_typed (mkState (socket s) (ports s) (<[next s := x]> (ccs s)) (S (next s))).
Proof using.
  intros Hs Hx. pose proof (extends_new_chan s (socket s) x Hs) as He.
  destruct Hs as [WP WC WA WL WCL ND1 ND2 WI]. split; simpl; try done.
  - intros pid p Hp. destruct (WP _ _ Hp). split; [lia|]. by eapply port_typed_extends.
  - intros c y Hy. rewrite lookup_insert in Hy. case_decide; simplify_eq.
    + split; [lia|]. by eapply chan_typed_extends.
    + destruct (WC _ _ Hy). split; [lia|]. by eapply chan_typed_extends.
  - intros i Hi. rewrite lookup_insert. case_decide; [|by apply WA]. subst.
    destruct Hi as [p Hp]. apply WP in Hp. lia.
  - eapply Forall_impl; [exact WCL|]. intros d Hd. by apply (extends_chan_live _ _ d He).
Qed.

Lemma typed_addEvent f s : well_typed s -> typed E (addEvent f) s (fun _ s' => s' = s).
Proof using.
  intros Hs. eapply typed_bind; [by apply (typed_get_state _ s (fun _ s' => s' = s))|].
  intros s0 s' _ _ ->. eapply typed_bind; [by apply (typed_sys _ _ s (fun _ s' => s' = s))|].
  intros r s1 _ _ ->. by apply typed_ret.
Qed.

Lemma well_typed_list_chan s c :
  well_typed s -> chan_live c s -> c ∉ ccList (socket s) ->
  well_typed (set_socket (set_ccList (ccList (socket s) ++ [c]) (socket s)) s).
Proof using.
  intros [WP WC WA WL WCL ND1 ND2 WI] Hc Hn.
  pose proof (extends_set_socket s (set_ccList (ccList (socket s) ++ [c]) (socket s))) as He.
  split; simpl; try done.
  - intros pid p Hp. split; [by eapply WP|]. eapply port_typed_extends; [done|]. by apply WP.
  - intros d x Hx. split; [by eapply WC|]. eapply chan_typed_extends; [done|]. by eapply WC.
  - apply Forall_app. split; [done|]. by constructor.
  - apply NoDup_app. split; [done|]. split; [|apply NoDup_singleton].
    intros d Hd ->%list_elem_of_singleton. by apply Hn.
Qed.

(** The new channel is live. *)
Lemma typed_addControlChannel f pid s :
  well_typed s -> (forall p, pid = Some p -> port_live p s) ->
  typed E (addControlChannel f pid) s (fun r s' => forall c, r = inl c -> chan_live c s').
Proof using.
  intros Hs Hp. unfold addControlChannel.
  eapply typed_bind; [by apply (typed_get_state _ s (fun s0 s' => s0 = s /\ s' = s))|].
  intros s0 s' _ _ [-> ->]. set (x := mkControlChannel (int32 f) pid (zeros msgSize) (inl []) [] false).
  set (s1 := mkState (socket s) (ports s) (<[next s := x]> (ccs s)) (S (next s))).
  eapply (typed_bind _ _ _ _ (fun _ s' => s' = s1)).
  { apply typed_modify; [apply well_typed_new_chan|apply extends_new_chan|]; try done.
    split; simpl; [done|by constructor|apply int32_range|done]. }
  intros _ s' Hs1 H1 ->. eapply typed_bind; [by apply typed_addEvent|]. intros [e|] s' _ _ ->.
  { by apply typed_ret. }
  assert (chan_live (next s) s1) as Hc by (eexists; apply lookup_insert_eq).
  eapply (typed_bind _ _ _ _ (fun _ s' => chan_live (next s) s')).
  { apply typed_modify; [|apply extends_set_socket|exact Hc]. apply well_typed_list_chan; [done..|].
    intros Hin. simpl in Hin. pose proof (wt_ccList _ Hs) as Hall. rewrite Forall_forall in Hall.
    destruct (Hall _ Hin) as [y Hy]. apply (wt_chans _ Hs) in Hy. lia. }
  intros _ s2 Hs2 _ Hc2. apply typed_ret; [done|]. by intros c [= <-].
Qed.

Lemma safe_listener_close l s : well_typed s -> safe E (listener_close l) s.
Proof using.
  intros Hs. apply safe_check; [by apply safe_delEvent|]. intros s1 Hs1 _.
  apply safe_sys; [done|]. intros r. by apply safe_mret.
Qed.

Lemma safe_listener_handleEvent l ev s : well_typed s -> safe E (listener_handleEvent l ev) s.
Proof using HE.
  intros Hs. unfold listener_handleEvent. apply safe_get_state; [done|].
  case_bool; [apply safe_check; [by apply safe_listener_close|]; intros; by apply safe_mret|].
  case_bool; [apply safe_check; [by apply safe_listener_close|]; intros; by apply safe_mret|].
  case_bool; [|by apply safe_mret]. apply safe_sys; [done|]. intros [f|e]; [|by apply safe_mret].
  eapply typed_bind; [by apply typed_addControlChannel|].
  intros [c|e] s1 Hs1 _ Hc; [|by apply safe_mret]. specialize (Hc c eq_refl).
  apply safe_check; [by apply safe_msgEnqHello|]. intros s2 Hs2 H2. apply safe_sendMsg; [done..|].
  by eapply extends_chan_live.
Qed.

Lemma safe_set_listener fd s :
  well_typed s -> safe E (modify (fun s => set_socket (set_listener fd (socket s)) s)) s.
Proof using.
  intros Hs. apply typed_modify; [by apply well_typed_set_socket|apply extends_set_socket|done].
Qed.

Lemma safe_addListener s : well_typed s -> safe E addListener s.
Proof using.
  intros Hs. unfold addListener. apply safe_get_state; [done|].
  apply safe_sys; [done|]. intros [f|e]; [|by apply safe_mret].
  do 3 (apply safe_sys; [done|]; intros [e|]; [by apply safe_mret|]).
  apply safe_check; [by apply safe_addEvent|]. intros s1 Hs1 _.
  apply safe_bind; [by apply safe_set_listener|]. intros. by apply safe_mret.
Qed.

Lemma safe_Disconnect pid s : well_typed s -> port_live pid s -> safe E (Disconnect pid) s.
Proof using HE HT.
  intros Hs Hp. apply safe_get_port; [done..|]. intros p _ Ht.
  destruct (p_cc p) as [c|] eqn:Hc; [|by apply safe_mret]. apply safe_close; [done|]. by apply (pt_chan _ _ _ Ht).
Qed.

Lemma safe_Delete pid s : well_typed s -> port_live pid s -> safe E (Delete pid) s.
Proof using HE HT.
  intros Hs Hp. apply safe_bind; [by apply safe_Disconnect|]. intros _ s1 Hs1 _.
  apply safe_bind; [|intros; by apply safe_mret].
  apply typed_modify; [|apply extends_set_socket|done].
  apply well_typed_set_socket; [done| |done]. apply list_remove_sublist.
Qed.

Lemma safe_RequestConnection pid s : well_typed s -> port_live pid s -> safe E (RequestConnection pid) s.
Proof using HE.
  intros Hs Hp. apply safe_get_port; [done..|]. intros p _ _. case_bool; [by apply safe_mret|].
  apply safe_sys; [done|]. intros [f|e]; [|by apply safe_mret]. apply safe_get_state; [done|].
  apply safe_sys; [done|]. intros [e|]; [by apply safe_mret|].
  eapply typed_bind; [apply typed_addControlChannel; [done|]; by intros q [= <-]|].
  intros r s1 Hs1 H1 Hc. pose proof (extends_port_live _ _ _ H1 Hp).
  destruct r as [c|e]; (apply safe_bind; [apply safe_mod_port; [done..|]|intros; by apply safe_mret]);
    intros q []; (split; [done|]); split; try done; simpl; intros d [= <-]. by apply Hc.
Qed.

(** *** New ports *)

Lemma cfg_complete_defaults c : cfg_typed c -> cfg_complete (with_defaults c).
Proof using.
  intros [Hid Hsec [Hp Hl Hb] Hcf]. destruct (fresh_port_defaults c) as (? & ? & ? & ?).
  assert (forall w v d, in_width w v -> in_width w d -> in_width w (or_default v d)) as Hd.
  { intros w v d ??. unfold or_default. by case_bool. }
  split; [|done..]. split; try done. split; apply Hd; done.
Qed.

Lemma extends_with_port s c : well_typed s -> extends s (with_port s c).
Proof using.
  intros Hs. split; simpl; [|eauto|lia]. intros pid p Hp. rewrite lookup_insert.
  case_decide; [|eauto]. subst. apply (wt_ports _ Hs) in Hp. lia.
Qed.

Lemma well_typed_fresh_ids s : well_typed s -> fresh_ids s.
Proof using. intros Hs pid [p Hp]. by apply (wt_ports _ Hs) in Hp as [? _]. Qed.

Lemma well_typed_with_port s c :
  well_typed s -> cfg_typed c -> existsb (has_key s c) (portList (socket s)) = false ->
  well_typed (with_port s c).
Proof using.
  intros Hs Hc Hex. pose proof (extends_with_port s c Hs) as He.
  pose proof (well_typed_fresh_ids s Hs) as Hf.
  destruct Hs as [WP WC WA WL WCL ND1 ND2 WI].
  assert (next s ∉ portList (socket s)) as Hn.
  { intros Hin. rewrite Forall_forall in WL. specialize (Hf _ (WL _ Hin)). lia. }
  split; simpl.
  - intros pid p Hp. rewrite lookup_insert in Hp. case_decide; simplify_eq.
    + split; [lia|]. split; simpl; [by apply cfg_complete_defaults|by split|by constructor..|done].
    + destruct (WP _ _ Hp). split; [lia|]. by eapply port_typed_extends.
  - intros d x Hx. destruct (WC _ _ Hx). split; [lia|]. by eapply chan_typed_extends.
  - intros i. rewrite lookup_insert. case_decide; [|by apply WA]. subst. intros _.
    destruct (ccs s !! next s) as [x|] eqn:Hx; [|done]. apply WC in Hx. lia.
  - by apply (with_port_live s c).
  - done.
  - apply NoDup_app. split; [done|]. split; [|apply NoDup_singleton].
    intros q Hq ->%list_elem_of_singleton. by apply Hn.
  - done.
  - by apply with_port_unique.
Qed.

Lemma typed_step {A B} (m : M A) (k : A -> M B) s a (Q : B -> state -> Prop) :
  m s = mret (a, s) -> typed E (k a) s Q -> typed E (m ≫= k) s Q.
Proof using. intros Hm Hk. unfold typed. by rewrite (M_bind_ret _ _ _ _ _ Hm). Qed.

Lemma typed_Socket_NewPort c s :
  well_typed s -> cfg_typed c ->
  typed E (Socket_NewPort c) s (fun r s' => forall pid, r = inl pid -> port_live pid s').
Proof using.
  intros Hs Hc. unfold Socket_NewPort. eapply typed_step; [apply get_state_eq|].
  eapply typed_step; [apply port_exists_eq, Hs|].
  destruct (existsb _ _) eqn:Hex; [by apply typed_ret|]. fold (with_port s c).
  eapply (typed_bind _ _ _ _ (fun _ s' => s' = with_port s c)).
  { apply typed_modify; [by apply well_typed_with_port|by apply extends_with_port|done]. }
  intros _ s' Hs1 H1 ->. assert (port_live (next s) (with_port s c)) as Hp.
  { eexists. apply lookup_insert_eq. }
  assert (forall s', extends (with_port s c) s' -> well_typed s' ->
    typed E (mret (inl (next s) : nat + goerror)) s' (fun r s'' => forall pid, r = inl pid -> port_live pid s'')) as Hret.
  { intros s' He Hs'. apply typed_ret; [done|]. intros pid [= <-]. by eapply extends_port_live. }
  destruct (IsServer c); [|by apply Hret]. eapply typed_step; [apply get_state_eq|].
  destruct (listener _); [by apply Hret|].
  eapply typed_bind; [by apply safe_addListener|]. intros [e|] s2 Hs2 H2 _; [by apply typed_ret|by apply Hret].
Qed.

Lemma typed_IsConnecting {B} pid (k : bool -> M B) s :
  well_typed s -> port_live pid s -> (forall b, safe E (k b) s) -> safe E (IsConnecting pid ≫= k) s.
Proof using.
  intros Hs [p Hp] Hk. eapply typed_step; [|apply Hk]. unfold IsConnecting. by mstep.
Qed.

Lemma safe_connect_loop fuel pid : forall s, well_typed s -> port_live pid s -> safe E (connect_loop fuel pid) s.
Proof using HE.
  induction fuel as [|fuel IH]; intros s Hs Hp; cbn [connect_loop]; [by apply safe_mret|].
  apply typed_IsConnecting; [done..|]. intros [|]; [by apply safe_mret|].
  apply safe_bind; [by apply safe_RequestConnection|]. intros [e|] s1 Hs1 H1; [by apply safe_mret|].
  apply IH; [done|]. by eapply extends_port_live.
Qed.

Lemma safe_NewPort c s : well_typed s -> cfg_typed c -> safe E (NewPort c) s.
Proof using HE.
  intros Hs Hc. apply safe_get_state; [done|]. eapply typed_bind; [by apply typed_Socket_NewPort|].
  intros [pid|e] s1 Hs1 H1 Hp; [|by apply safe_mret]. specialize (Hp pid eq_refl).
  apply safe_get_port; [done..|]. intros p _ _. case_bool; [by apply safe_mret|].
  apply safe_bind; [by apply safe_connect_loop|]. by intros [[e|]|] s2 Hs2 H2; apply safe_mret.
Qed.

(** *** Socket.Delete *)

Lemma list_next_in x l y : list_next x l = Some y -> y ∈ l.
Proof using.
  induction l as [|z l IH]; simpl; [done|]. case_decide.
  - destruct l; simpl; [done|]. intros [= ->]. right. left.
  - intros Hy. right. by apply IH.
Qed.

Lemma next_live s (P : nat -> state -> Prop) l x :
  Forall (fun y => P y s) l -> forall y, list_next x l = Some y -> P y s.
Proof using. intros Hl y Hy. rewrite Forall_forall in Hl. by eapply Hl, list_next_in. Qed.

Lemma safe_delete_ccs fuel : forall elt s,
  well_typed s -> (forall c, elt = Some c -> chan_live c s) -> safe E (delete_ccs fuel elt) s.
Proof using HE HT.
  induction fuel as [|fuel IH]; intros [c|] s Hs Hc; cbn [delete_ccs]; try by apply safe_mret.
  apply safe_bind; [by apply safe_close, Hc|]. intros [e|] s1 Hs1 H1; [by apply safe_mret|].
  apply safe_get_state; [done|]. apply IH; [done|]. eapply (next_live s1 chan_live), wt_ccList. done.
Qed.

Lemma safe_delete_ports fuel : forall elt s,
  well_typed s -> (forall pid, elt = Some pid -> port_live pid s) -> safe E (delete_ports fuel elt) s.
Proof using HE HT.
  induction fuel as [|fuel IH]; intros [pid|] s Hs Hp; cbn [delete_ports]; try by apply safe_mret.
  apply safe_bind; [by apply safe_Delete, Hp|]. intros [e|] s1 Hs1 H1; [by apply safe_mret|].
  apply safe_get_state; [done|]. apply IH; [done|]. eapply (next_live s1 port_live), wt_portList. done.
Qed.

Lemma head_live s (P : nat -> state -> Prop) l :
  Forall (fun y => P y s) l -> forall y, head l = Some y -> P y s.
Proof using. intros Hl y. destruct Hl; [done|]. by intros [= <-]. Qed.

Lemma safe_Socket_Delete s : well_typed s -> safe E Socket_Delete s.
Proof using HE HT.
  intros Hs. apply safe_get_state; [done|]. apply safe_bind.
  { apply safe_delete_ccs; [done|]. eapply (head_live s chan_live), wt_ccList. done. }
  intros [[e|]|] s1 Hs1 _; try by apply safe_mret. apply safe_get_state; [done|]. apply safe_bind.
  { apply safe_delete_ports; [done|]. eapply (head_live s1 port_live), wt_portList. done. }
  intros [[e|]|] s2 Hs2 _; try by apply safe_mret. apply safe_get_state; [done|]. cbv zeta.
  set (rest := s ← get_state; check (delEvent _) _ _).
  assert (forall s, well_typed s -> safe E (err ← rest; mret (Some err)) s) as Hrest.
  { intros s' Hs'. apply safe_bind; [|intros; by apply safe_mret]. apply safe_get_state; [done|].
    apply safe_check; [by apply safe_delEvent|]. intros s3 Hs3 _. apply safe_sys; [done|].
    intros x. by apply safe_mret. }
  destruct (listener (socket s2)) as [l|]; [|by apply Hrest].
  apply safe_bind; [by apply safe_listener_close|]. intros [e|] s3 Hs3 _; [by apply safe_mret|].
  apply safe_sys; [done|]. intros [e|]; [by apply safe_mret|by apply Hrest].
Qed.

(** *** Events *)

(** The panic on a channel's nil port is allowed if channel [c] has no port. *)
Definition unbound_chan (fd : Z) s : Prop :=
  exists c x, c ∈ ccList (socket s) /\ ccs s !! c = Some x /\ cc_fd x = fd /\ cc_port x = None.

Lemma typed_find_cc fd l : forall s,
  well_typed s -> Forall (fun c => chan_live c s) l ->
  typed E (find_cc fd l) s (fun r s' => s' = s /\ forall c, r = Some c ->
    c ∈ l /\ exists x, ccs s !! c = Some x /\ cc_fd x = fd).
Proof using.
  intros s Hs Hl. induction Hl as [|c l [x Hx] Hl IH]; cbn [find_cc]; [by apply typed_ret|].
  eapply typed_step; [by apply get_chan_eq|]. case_bool.
  - zbool. apply typed_ret; [done|]. split; [done|]. intros d [= <-]. split; [by left|]. by exists x.
  - eapply typed_mono; [exact IH|]. intros r s' _ _ [-> Hr]. split; [done|].
    intros d Hd. destruct (Hr d Hd) as [? ?]. split; [by right|done].
Qed.

Lemma safe_Socket_handleEvent fd ev s :
  well_typed s -> (unbound_chan fd s -> E NilDereference) -> safe E (Socket_handleEvent fd ev) s.
Proof using HE HT.
  intros Hs Hd. unfold Socket_handleEvent. apply safe_get_state; [done|]. cbv zeta.
  set (in_ccs := find_cc _ _ ≫= _). assert (safe E in_ccs s) as Hccs.
  { eapply typed_bind; [by apply typed_find_cc, wt_ccList|]. intros [c|] s' _ _ [-> Hc]; [|by apply safe_mret].
    destruct (Hc c eq_refl) as (Hin & x & Hx & Hfd). apply safe_handleEvent; [done|].
    split; [by eexists|]. destruct (cc_port x) as [pid|] eqn:Hp.
    - right. exists x. split; [done|]. rewrite Hp. by eexists.
    - left. apply Hd. by exists c, x. }
  destruct (listener (socket s)) as [l|]; [|done]. case_bool; [by apply safe_listener_handleEvent|done].
Qed.

Lemma safe_poll_event fd ev s :
  well_typed s -> (unbound_chan fd s -> E NilDereference) -> safe E (poll_event fd ev) s.
Proof using HE HT.
  intros Hs Hd. apply safe_get_state; [done|]. case_bool; [by apply safe_mret|].
  apply safe_check; [by apply safe_Socket_handleEvent|]. intros. by apply safe_mret.
Qed.
End events.

(** ** The process

    Its entry points: the methods an application calls on sockets and ports, and
    the body of the polling goroutine, in any order. *)
Inductive entry :=
| CallNewPort (c : PortCfg)
| CallRequestConnection (pid : nat)
| CallDisconnect (pid : nat)
| CallDelete (pid : nat)
| CallSocketDelete
| PollEvent (fd events : Z).

Section process.
Context {os : OS} {cb : Callbacks} {HT : TypedCallbacks cb} `{ErrnoText}.
Implicit Types s : state.

Definition perform (e : entry) : M unit :=
  match e with
  | CallNewPort c => NewPort c ;; mret tt
  | CallRequestConnection pid => RequestConnection pid ;; mret tt
  | CallDisconnect pid => Disconnect pid ;; mret tt
  | CallDelete pid => Delete pid ;; mret tt
  | CallSocketDelete => Socket_Delete ;; mret tt
  | PollEvent fd events => poll_event fd events ;; mret tt
  end.

(** Go's typing of the call: a configuration has its field widths, and a
    [*Port] was returned by this socket. *)
Definition well_called (e : entry) s : Prop :=
  match e with
  | CallNewPort c => cfg_typed c
  | CallRequestConnection pid | CallDisconnect pid | CallDelete pid => port_live pid s
  | CallSocketDelete | PollEvent _ _ => True
  end.

(** Between two entries the world (files and kernel) may change arbitrarily. *)
Inductive reached : state -> Prop :=
| reached_new app file w s w' :
    run (NewSocket app file) w = Done (inl s) w' -> reached s
| reached_entry s e w s' w' :
    reached s -> well_called e s -> run (perform e s) w = Done (tt, s') w' -> reached s'.

(** The only nil pointer an entry may follow. *)
Definition nil_deref (e : entry) s : Prop :=
  match e with PollEvent fd _ => unbound_chan fd s | _ => False end.

Lemma safe_perform e s :
  well_typed s -> well_called e s ->
  safe (fun x => x = NilDereference -> nil_deref e s) (perform e) s.
Proof using HT.
  intros Hs He. assert (forall x, x <> NilDereference -> x = NilDereference -> nil_deref e s) as HE by done.
  destruct e; (apply safe_bind; [|intros; by apply safe_mret]).
  - by apply safe_NewPort.
  - by apply safe_RequestConnection.
  - by apply safe_Disconnect.
  - by apply safe_Delete.
  - by apply safe_Socket_Delete.
  - apply safe_poll_event; [done..|]. by intros ? _.
Qed.

Lemma well_typed_NewSocket app file :
  every (fun _ => False) (NewSocket app file) (fun r => forall s, r = inl s -> well_typed s).
Proof using.
  unfold NewSocket. apply every_bind, every_sys. intros ep. apply every_bind, every_eventFd.
  intros [efd e1]. cbv zeta. apply every_bind.
  cbn. intros [e|]; [done|]. intros s [= <-]. by split; simpl; try constructor; try set_solver.
Qed.

Lemma reached_well_typed s : reached s -> well_typed s.
Proof using HT.
  induction 1 as [app file w s w' Hr|s e w s' w' _ IH Hc Hr].
  - pose proof (every_run _ _ _ w (well_typed_NewSocket app file)) as Hw. rewrite Hr in Hw. by apply Hw.
  - pose proof (every_run _ _ _ w (safe_perform e s IH Hc)) as Hw. rewrite Hr in Hw. apply Hw.
Qed.
End process.

(** C11: type safety of the control plane: in every state that a process reaches
    from NewSocket by API calls and events, in any order and whatever the kernel
    answers, integers fit their Go types, arrays have their lengths, pointers
    designate live objects, queues point back to their port, queued messages fit
    the datagram and no two ports share role and id.  Every further entry, with
    any bytes received, keeps this and takes no object, configuration or binding
    away; it follows a nil pointer only when it handles an event of a channel
    that has no port yet.  The application's part: configurations have integers of
    their types and a ConnectedFunc that is not nil, and its functions keep the
    state well typed. *)
Theorem process_well_typed {os cb} `{!TypedCallbacks cb} `{ErrnoText} s e w :
  reached (os := os) s -> well_called e s ->
  well_typed s /\
  match run (perform e s) w with
  | Done (_, s') _ => well_typed s' /\ extends s s'
  | Panicked NilDereference => exists fd events, e = PollEvent fd events /\ unbound_chan fd s
  | _ => True
  end.
Proof.
  intros Hr He. pose proof (reached_well_typed s Hr) as Hs. split; [done|].
  pose proof (every_run _ _ _ w (safe_perform e s Hs He)) as Hw.
  destruct (run (perform e s) w) as [[? s'] w'|[]| |]; try done.
  - by destruct Hw as (? & ? & _).
  - destruct e; try by specialize (Hw eq_refl). eexists _, _. split; [done|]. by apply Hw.
Qed.

(** A client that has requested a connection, as the demonstration kernel answers. *)
Definition demo_world : @world demo_os := mkWorld ∅ (mkDemo 10 [] []).
Definition opened : state :=
  mkState (mkSocket (bytes_of "app") (bytes_of "/s") None [] [] 10 11) ∅ ∅ 0.
Definition requested : state :=
  match run (perform (CallNewPort (small_cfg false (zeros 24))) opened) demo_world with
  | Done (_, s) _ => s
  | _ => opened
  end.

Lemma reached_opened : reached (os := demo_os) opened.
Proof. by eapply (reached_new (bytes_of "app") (bytes_of "/s") demo_world). Qed.

Lemma small_cfg_typed server : cfg_typed (small_cfg server (zeros 24)).
Proof. by repeat split. Qed.

Lemma reached_requested : reached (os := demo_os) requested.
Proof.
  eapply (reached_entry opened (CallNewPort (small_cfg false (zeros 24))) demo_world);
    [exact reached_opened|apply small_cfg_typed|vm_compute; reflexivity].
Qed.

(** The server hangs up: the channel's port is released. *)
Lemma process_well_typed_witness :
  well_typed requested /\
  match run (perform (PollEvent 10 EPOLLHUP) requested) demo_world with
  | Done (_, s') _ => well_typed s' /\ extends requested s'
  | Panicked NilDereference => exists fd events, PollEvent 10 EPOLLHUP = PollEvent fd events /\ unbound_chan fd requested
  | _ => True
  end.
Proof.
  apply (process_well_typed requested (PollEvent 10 EPOLLHUP) demo_world reached_requested). exact I.
Defined.
