(* ===== verification/Poll.v ===== *)
(** * The polling goroutine (socket.go: StartPolling, StopPolling)

    One goroutine waits for epoll events and handles them; errors go to the
    application through [ErrChan], a channel with room for one; [StopPolling]
    closes [stopPollChan], wakes the goroutine and waits for it.  The goroutine is
    a transition system, [poll_step]; what the application's side does is
    [app_step].  Handlers run against an arbitrary kernel.  [EpollWait] has no
    timeout: it returns only with an event or an error.  The event of the wake
    descriptor is the kernel's, possible when the class [EpollOS] says that the
    descriptor is readable; the other answers come from outside (peers, signals)
    and are inputs of the step. *)
From stdpp Require Import base tactics list gmap strings relations.
From coqutil Require Import Byte.
From Stdlib Require Import ZArith Lia.
From S2P Require Import Prelude.
From S2P Require Import GoInt.
From S2P Require Import Shm.
From S2P Require Import State.
From S2P Require Import Queue.
From S2P Require Import Heap.
From S2P Require Import Endpoint.
From S2P Require Import Control.
From S2P Require Import Socket.
From S2P Require Import Demo.
From S2P Require Import Protocol.

(** Where the goroutine is: at the [select], in [EpollWait], at
    [socket.ErrChan <- e] (after which it returns if [final]), or done. *)
Inductive poll_pc :=
| AtSelect
| InWait
| SendingErr (e : goerror) (final : bool)
| Returned.

(** [stopPollChan] is nil, or open ([Some false]) or closed ([Some true]);
    [in_stop]: the application is in [socket.wg.Wait()]. *)
Record polling := mkPolling {
  pl_state : state;
  pl_pc : poll_pc;
  stopPollChan : option bool;
  ErrChan : list goerror;
  in_stop : bool
}.

(** [make(chan error, 1)] *)
Definition errChan_cap : nat := 1.

Definition set_pc (pc : poll_pc) (p : polling) : polling :=
  mkPolling (pl_state p) pc (stopPollChan p) (ErrChan p) (in_stop p).

(** Handling one event: the new state, and what the goroutine does next. *)
Definition after_event (err : option goerror) (s : state) (p : polling) : polling :=
  mkPolling s (match err with Some e => SendingErr e false | None => AtSelect end)
    (stopPollChan p) (ErrChan p) (in_stop p).

(** The kernel's side of [epoll]: [watches ep fd k] when [fd] is in the interest
    list of [ep], and [reports ep fd k] when an [epoll_wait] on [ep] has an
    [EPOLLIN] event of [fd] to return. *)
Class EpollOS (os : OS) := {
  watches : Z -> Z -> @os_state os -> bool;
  reports : Z -> Z -> @os_state os -> bool
}.

(** epoll_ctl(2): an added descriptor is watched.  eventfd(2): after a write that
    adds to the counter the descriptor is readable, and epoll reports it. *)
Class EpollLaws (os : OS) `{!EpollOS os} := {
  add_watches : forall ep fd m k m' k',
    @sys os _ (SysEpollCtl ep EPOLL_CTL_ADD fd) m k = (None, m', k') -> watches ep fd k' = true;
  write_reports : forall ep fd buf m k m' k',
    watches ep fd k = true -> zlen buf = 8 -> 0 < unle buf ->
    @sys os _ (SysWrite fd buf) m k = (inl 8, m', k') -> reports ep fd k' = true
}.

(** The interest lists and the readable eventfds of a kernel [os], kept beside
    its state.  Nothing in the driver reads an eventfd, so none is cleared. *)
Record epoll_sets := mkEpollSets { interest : gset (Z * Z); signalled : gset Z }.

Definition epoll_update {X} (c : syscall X) : X -> epoll_sets -> epoll_sets :=
  match c in syscall X return X -> epoll_sets -> epoll_sets with
  | SysWrite fd buf => fun r e =>
      if bool_decide (r = inl 8) && (0 <? unle buf) then mkEpollSets (interest e) ({[fd]} ∪ signalled e) else e
  | SysEpollCtl ep op fd => fun r e =>
      match r, op with
      | None, EPOLL_CTL_ADD => mkEpollSets ({[(ep, fd)]} ∪ interest e) (signalled e)
      | None, EPOLL_CTL_DEL => mkEpollSets (interest e ∖ {[(ep, fd)]}) (signalled e)
      | Some _, _ => e
      end
  | _ => fun _ e => e
  end.

Definition with_epoll (os : OS) : OS :=
  {| os_state := epoll_sets * @os_state os;
     sys := fun X c m s => let '(x, m', s') := @sys os X c m s.2 in (x, m', (epoll_update c x s.1, s')) |}.

#[export] Instance with_epoll_epoll os : EpollOS (with_epoll os) :=
  Build_EpollOS (with_epoll os)
    (fun ep fd (s : epoll_sets * @os_state os) => bool_decide ((ep, fd) ∈ interest s.1))
    (fun ep fd (s : epoll_sets * @os_state os) =>
       bool_decide ((ep, fd) ∈ interest s.1 /\ fd ∈ signalled s.1)).

#[export] Instance with_epoll_laws os : EpollLaws (with_epoll os).
Proof.
  split.
  - intros ep fd m k m' k' Hs. cbn in Hs. destruct (@sys os _ _ _ _) as [[x m1] k1].
    injection Hs as -> _ <-. apply bool_decide_eq_true_2. cbn. set_solver.
  - intros ep fd buf m k m' k' Hw _ Hb Hs. apply bool_decide_eq_true_1 in Hw.
    cbn in Hs. destruct (@sys os _ _ _ _) as [[x m1] k1]. injection Hs as -> _ <-.
    apply bool_decide_eq_true_2. cbn. rewrite (proj2 (Z.ltb_lt _ _)) by done. cbn. set_solver.
Qed.

Section poll.
Context {os : OS} {ep : EpollOS os} `{Callbacks} `{ErrnoText}.

(** The goroutine's own steps. *)
Inductive self_step : polling * world -> polling * world -> Prop :=
| poll_stop p w :
    pl_pc p = AtSelect -> stopPollChan p = Some true ->
    self_step (p, w) (set_pc Returned p, w)
| poll_default p w :
    pl_pc p = AtSelect -> stopPollChan p <> Some true ->
    self_step (p, w) (set_pc InWait p, w)
| poll_wait_wake p w err s' w' :
    pl_pc p = InWait ->
    reports (epfd (socket (pl_state p))) (wakeEvent (socket (pl_state p))) (kernel w) = true ->
    run (poll_event (wakeEvent (socket (pl_state p))) EPOLLIN (pl_state p)) w = Done (err, s') w' ->
    self_step (p, w) (after_event err s' p, w')
| poll_send p w e final :
    pl_pc p = SendingErr e final -> (length (ErrChan p) < errChan_cap)%nat ->
    self_step (p, w)
      (mkPolling (pl_state p) (if final : bool then Returned else AtSelect) (stopPollChan p)
         (ErrChan p ++ [e]) (in_stop p), w).

(** The steps that need an input: an error of [EpollWait], or an event of another
    descriptor, whose handler returns. *)
Inductive input_step : polling * world -> polling * world -> Prop :=
| poll_wait_error p w (e : errno) :
    pl_pc p = InWait ->
    input_step (p, w) (set_pc (SendingErr (Wrap "epollWait" (ErrErrno e)) true) p, w)
| poll_wait_event p w fd events err s' w' :
    pl_pc p = InWait -> fd <> wakeEvent (socket (pl_state p)) ->
    run (poll_event fd events (pl_state p)) w = Done (err, s') w' ->
    input_step (p, w) (after_event err s' p, w').

Definition poll_step (a b : polling * world) : Prop := self_step a b \/ input_step a b.

(** [StartPolling]; the model has one goroutine, so it is only called when none
    runs. *)
Definition StartPolling (p : polling) : polling :=
  mkPolling (pl_state p) AtSelect (Some false) (ErrChan p) (in_stop p).

(** [StopPolling] up to [socket.wg.Wait()]: an error returns at once. *)
Definition StopPolling (p : polling) : prog (option goerror * polling) :=
  match stopPollChan p with
  | None => mret (None, p)
  | Some true => Panic CloseOfClosedChannel
  | Some false =>
      '(err, s) ← wake_poll (pl_state p);
      mret (err, mkPolling s (pl_pc p) (Some true) (ErrChan p) (bool_decide (err = None)))
  end.

(** What the application does: start a poller, receive an error, [StopPolling]
    and its return. *)
Inductive app_step : polling * world -> polling * world -> Prop :=
| app_start p w :
    pl_pc p = Returned -> in_stop p = false -> app_step (p, w) (StartPolling p, w)
| app_recv p w e es :
    ErrChan p = e :: es -> in_stop p = false ->
    app_step (p, w) (mkPolling (pl_state p) (pl_pc p) (stopPollChan p) es false, w)
| app_stop p w err p' w' :
    in_stop p = false -> run (StopPolling p) w = Done (err, p') w' -> app_step (p, w) (p', w')
| app_stop_returns p w :
    in_stop p = true -> pl_pc p = Returned ->
    app_step (p, w) (mkPolling (pl_state p) Returned (stopPollChan p) (ErrChan p) false, w).

Definition any_step (a b : polling * world) : Prop := poll_step a b \/ app_step a b.

(** ** Stopping *)

(** Steps the goroutine can still make once [stopPollChan] is closed. *)
Definition steps_left (pc : poll_pc) : nat :=
  match pc with
  | Returned => 0
  | AtSelect => 1
  | SendingErr _ true => 1
  | SendingErr _ false => 2
  | InWait => 3
  end.

Lemma stop_measure p w p' w' :
  stopPollChan p = Some true -> poll_step (p, w) (p', w') ->
  stopPollChan p' = Some true /\ pl_pc p' <> InWait /\ (steps_left (pl_pc p') < steps_left (pl_pc p))%nat.
Proof using.
  intros Hc [Hs|Hs].
  - inversion Hs as [? ? Hpc|? ? Hpc Hn|? ? err ? ? Hpc|? ? ? f Hpc]; subst;
      cbn [pl_pc set_pc after_event stopPollChan]; rewrite Hpc; try done.
    + cbn. repeat split; done || lia.
    + destruct err; cbn; repeat split; done || lia.
    + destruct f; cbn; repeat split; done || lia.
  - inversion Hs as [? ? ? Hpc|? ? ? ? err ? ? Hpc]; subst;
      cbn [pl_pc set_pc after_event stopPollChan]; rewrite Hpc; (split; [done|]); cbn; [split; [done|lia]|].
    destruct err; cbn; split; done || lia.
Qed.

Lemma stop_bound k p w b :
  stopPollChan p = Some true -> nsteps poll_step k (p, w) b ->
  stopPollChan b.1 = Some true /\ (k + steps_left (pl_pc b.1) <= steps_left (pl_pc p))%nat /\
  (pl_pc b.1 = InWait -> b = (p, w)).
Proof using.
  revert p w. induction k as [|k IH]; intros p w Hc Hn; inversion Hn as [|? ? [p1 w1] ? Hs1 Hs2]; subst.
  - split; [done|]. split; [cbn; lia|done].
  - destruct (stop_measure _ _ _ _ Hc Hs1) as (Hc1 & Hw & Hm). destruct (IH _ _ Hc1 Hs2) as (? & ? & Hb).
    split; [done|]. split; [lia|]. intros Hi. specialize (Hb Hi). by subst.
Qed.

(** The goroutine can move by itself unless it has returned, [ErrChan] is full or
    it waits for an event and is not woken. *)
Lemma self_progress p w :
  let sk := socket (pl_state p) in
  pl_pc p <> Returned -> (length (ErrChan p) < errChan_cap)%nat ->
  (pl_pc p = InWait -> reports (epfd sk) (wakeEvent sk) (kernel w) = true) ->
  exists b, self_step (p, w) b.
Proof using.
  intros sk Hr Hl Hw. destruct (pl_pc p) as [| |e final|] eqn:Hpc; [| | |done].
  - destruct (decide (stopPollChan p = Some true)); eexists; [by apply poll_stop|by apply poll_default].
  - eexists. eapply poll_wait_wake; [done|by apply Hw|]. unfold poll_event. mstep. by rewrite Z.eqb_refl.
  - eexists. by eapply poll_send.
Qed.

(** Nothing but the wake event or an input ends the wait. *)
Lemma wait_needs_event p w b :
  pl_pc p = InWait -> self_step (p, w) b ->
  let sk := socket (pl_state p) in reports (epfd sk) (wakeEvent sk) (kernel w) = true.
Proof using. intros Hpc Hs. by inversion Hs; subst; first [congruence|assumption]. Qed.

Lemma returned_no_step p w b : pl_pc p = Returned -> ~ poll_step (p, w) b.
Proof using. intros Hr [Hs|Hs]; inversion Hs; subst; congruence. Qed.

(** One event whose handling fails, up to the send. *)
Lemma failing_event p w fd events e s1 w1 :
  pl_pc p = AtSelect -> stopPollChan p <> Some true ->
  run (poll_event fd events (pl_state p)) w = Done (Some e, s1) w1 ->
  rtc any_step (p, w) (mkPolling s1 (SendingErr e false) (stopPollChan p) (ErrChan p) (in_stop p), w1).
Proof using.
  intros Hpc Hc Hr. eapply rtc_l; [left; left; by apply poll_default|].
  eapply rtc_l; [left; right; eapply poll_wait_event; [done| |done]|apply rtc_refl].
  intros ->. unfold poll_event in Hr. by rewrite (M_bind_ret _ _ _ _ _ (get_state_eq _)), Z.eqb_refl in Hr.
Qed.

(** [StopPolling] up to its wait: the write that wakes the goroutine. *)
Definition stopping (p : polling) (waiting : bool) : polling :=
  mkPolling (pl_state p) (pl_pc p) (Some true) (ErrChan p) waiting.

Lemma stop_waits k a b : in_stop a.1 = true -> nsteps poll_step k a b -> in_stop b.1 = true.
Proof using. intros Ha Hn. induction Hn as [a|k a a1 b [Hs|Hs] _ IH]; [done|apply IH; by destruct Hs..]. Qed.

Lemma StopPolling_outcome p w :
  stopPollChan p = Some false ->
  ask (SysWrite (wakeEvent (socket (pl_state p))) one_buf) w (fun r w' =>
    run (StopPolling p) w = match r with
    | inr e => Done (Some (ErrErrno e), stopping p false) w'
    | inl n => if n =? 8 then Done (None, stopping p true) w'
               else Done (Some (Err "faild to write to eventfd"), stopping p false) w'
    end).
Proof using.
  intros Hc. unfold ask, StopPolling. rewrite Hc.
  destruct (sys (SysWrite _ _) _ _) as [[r m] k] eqn:Hs. rewrite run_bind. unfold wake_poll. mstep.
  rewrite (run_sys _ _ _ _ _ _ _ Hs). by destruct r as [n|e]; [destruct (n =? 8)|].
Qed.
End poll.

Lemma obind_done `{OS} {A B} (r : outcome A) (k : A -> world -> outcome B) b w :
  obind r k = Done b w -> exists a w', r = Done a w' /\ k a w' = Done b w.
Proof. destruct r as [a w'| | |]; [|done..]. by exists a, w'. Qed.

(** [NewSocket] adds the wake descriptor to the epoll set. *)
Lemma NewSocket_watches {os} {ep : EpollOS os} `{!EpollLaws os} app file w s w' :
  run (NewSocket app file) w = Done (inl s) w' ->
  watches (epfd (socket s)) (wakeEvent (socket s)) (kernel w') = true.
Proof.
  intros Hr. unfold NewSocket in Hr. rewrite run_bind in Hr. apply obind_done in Hr as (r1 & w1 & _ & Hr).
  rewrite run_bind in Hr. apply obind_done in Hr as ([efd e] & w2 & _ & Hr).
  rewrite run_bind in Hr. unfold addEvent in Hr.
  erewrite M_bind_ret in Hr by apply get_state_eq. cbn [socket epfd] in Hr.
  destruct (sys (SysEpollCtl (match r1 with inl fd => fd | inr _ => -1 end) EPOLL_CTL_ADD (int32 efd))
    (shm w2) (kernel w2)) as [[r m] k] eqn:Hs.
  rewrite (run_sys _ _ _ _ _ _ _ Hs) in Hr. destruct r as [n|]; [done|].
  injection Hr as <- <-. cbn. by eapply add_watches.
Qed.

(** ** Theorems *)

(** C28: StopPolling on a running poller whose wake descriptor is in its epoll set.
    It closes the channel and writes to the eventfd; when the kernel refuses the
    write, or writes less, it returns that error without waiting.  Otherwise it
    waits, and the goroutine is done in at most three more steps, whatever the
    kernel and the peers do: at the select it returns without looking at another
    event, and from epoll_wait, which has no timeout, the eventfd just written
    brings it back.  It can always take its next step by itself, as long as
    ErrChan has room, and when it has returned, so does StopPolling.  (Handling an
    event is one step here, and one whose handler returns; a handler that waits for
    ever is C30.) *)
Theorem StopPolling_returns {os} {ep : EpollOS os} `{!EpollLaws os} `{Callbacks} `{ErrnoText} p w :
  let sk := socket (pl_state p) in
  stopPollChan p = Some false -> watches (epfd sk) (wakeEvent sk) (kernel w) = true ->
  ask (SysWrite (wakeEvent sk) one_buf) w (fun r w' =>
    let stops (err : option goerror) (waiting : bool) :=
      run (StopPolling p) w = Done (err, stopping p waiting) w' in
    match r with
    | inr e => stops (Some (ErrErrno e)) false
    | inl n =>
        if n =? 8 then
          stops None true /\
          (pl_pc p = AtSelect -> forall b, poll_step (stopping p true, w') b ->
             b = (set_pc Returned (stopping p true), w')) /\
          forall k b, nsteps poll_step k (stopping p true, w') b ->
            (k <= 3)%nat /\
            (pl_pc b.1 <> Returned -> (length (ErrChan b.1) < errChan_cap)%nat -> exists b', self_step b b') /\
            (pl_pc b.1 = Returned ->
               exists b', app_step b b' /\ in_stop b'.1 = false /\ pl_state b'.1 = pl_state b.1)
        else stops (Some (Err "faild to write to eventfd")) false
    end).
Proof.
  intros sk Hc Hw. pose proof (StopPolling_outcome p w Hc) as Hout. fold sk in Hout. unfold ask in *.
  destruct (sys (SysWrite _ _) _ _) as [[r m] k1] eqn:Hs. destruct r as [n|e]; [|exact Hout].
  destruct (Z.eqb_spec n 8) as [->|Hn]; [|exact Hout]. split; [exact Hout|]. split.
  { intros Hpc b [Hb|Hb]; inversion Hb; subst; cbn in *; congruence. }
  intros k b Hb. apply stop_bound in Hb as Hk; [|done]. destruct Hk as (_ & Hk & Hi). split; [|split].
  - cbn in Hk. destruct (pl_pc p) as [| |? []|]; cbn in Hk; lia.
  - intros Hr Hl. destruct b as [p' w']. apply self_progress; [done..|]. intros Hpc.
    injection (Hi Hpc) as -> ->. eapply (write_reports _ _ one_buf); [exact Hw|done|by vm_compute|exact Hs].
  - assert (in_stop b.1 = true) as Hin by by exact (stop_waits _ (stopping p true, _) _ eq_refl Hb).
    intros Hpc. destruct b as [p' w']. eexists. split; [by apply app_stop_returns|done].
Qed.

(** A poller at its select, for a process that knows no descriptor. *)
Definition lone_state : state := mkState (mkSocket [] (bytes_of "/s") None [] [] 3 4) ∅ ∅ 0.
Definition lone_poller (pc : poll_pc) (c : option bool) (stopping : bool) : polling :=
  mkPolling lone_state pc c [] stopping.
Definition lone_world : world := mkWorld ∅ (mkDemo 10 [] []).

(** The same on the instrumented kernel, as [NewSocket] leaves it. *)
Definition lone_woken : @world (with_epoll demo_os) :=
  @mkWorld (with_epoll demo_os) ∅ (mkEpollSets {[(3, 4)]} ∅, mkDemo 10 [] []).

Lemma StopPolling_returns_witness :
  let p := lone_poller InWait (Some false) false in
  exists w', @run (with_epoll demo_os) _ _ (StopPolling p) lone_woken = Done (None, stopping p true) w' /\
    forall k b, nsteps (poll_step (os := with_epoll demo_os)) k (stopping p true, w') b ->
      (k <= 3)%nat /\
      (pl_pc b.1 <> Returned -> (length (ErrChan b.1) < errChan_cap)%nat ->
         exists b', self_step (os := with_epoll demo_os) b b') /\
      (pl_pc b.1 = Returned -> exists b', app_step b b' /\ in_stop b'.1 = false /\ pl_state b'.1 = pl_state b.1).
Proof.
  intros p. destruct (StopPolling_returns (os := with_epoll demo_os) p lone_woken) as (Hr & _ & Hk);
    [done|by vm_compute|]. by eexists.
Defined.

(** C29: if the application does not receive from ErrChan, two events whose
    handling fails block the goroutine, and StopPolling, called then, waits for
    it for ever: no step of either is possible.  (A peer that hangs up is such an
    event.) *)
Theorem undrained_errors_deadlock {os} {ep : EpollOS os} `{Callbacks} `{ErrnoText}
    p w fd1 ev1 e1 s1 w1 fd2 ev2 e2 s2 w2 s3 w3 :
  pl_pc p = AtSelect -> stopPollChan p = Some false -> ErrChan p = [] -> in_stop p = false ->
  run (poll_event fd1 ev1 (pl_state p)) w = Done (Some e1, s1) w1 ->
  run (poll_event fd2 ev2 s1) w1 = Done (Some e2, s2) w2 ->
  run (wake_poll s2) w2 = Done (None, s3) w3 ->
  exists b, rtc any_step (p, w) b /\ in_stop b.1 = true /\ ErrChan b.1 = [e1] /\
    forall b', ~ any_step b b'.
Proof.
  intros Hpc Hc He Hin Hr1 Hr2 Hr3.
  exists (mkPolling s3 (SendingErr e2 false) (Some true) [e1] true, w3). split; [|split; [done|split; [done|]]].
  - etrans; [by eapply failing_event; [|rewrite Hc|]|].
    eapply rtc_l; [left; left; eapply poll_send; [done|rewrite He; apply le_n]|]. rewrite He, Hc, Hin. cbn.
    etrans; [by eapply failing_event|]. cbn.
    eapply rtc_l; [right; eapply app_stop; [done|]|apply rtc_refl].
    unfold StopPolling. cbn. by rewrite run_bind, Hr3.
  - intros b' [[Hs|Hs]|Hs]; inversion Hs; subst; cbn in *; try congruence. simplify_eq. cbn in *. unfold errChan_cap in *. lia.
Qed.

(** Even with the wake event always there to report. *)
#[local] Instance demo_epoll : EpollOS demo_os := {|
  watches := fun _ _ _ => true;
  reports := fun _ _ _ => true
|}.

Lemma undrained_errors_deadlock_witness :
  exists b, rtc any_step (lone_poller AtSelect (Some false) false, lone_world) b /\
    in_stop b.1 = true /\ ErrChan b.1 = [Wrap "handleEvent" (Err errorFdNotFound)] /\
    forall b', ~ any_step b b'.
Proof.
  eapply (undrained_errors_deadlock (lone_poller AtSelect (Some false) false) lone_world
    9 EPOLLIN _ lone_state lone_world 9 EPOLLIN); reflexivity.
Defined.

(** An error of epoll_wait, an interrupted call included, ends the goroutine:
    after reporting it on ErrChan it returns although nobody called StopPolling,
    and no event of the socket is handled any more. *)
Theorem epoll_error_ends_polling {os} {ep : EpollOS os} `{Callbacks} `{ErrnoText} p w e :
  pl_pc p = InWait -> ErrChan p = [] ->
  exists p', nsteps poll_step 2 (p, w) (p', w) /\
    pl_pc p' = Returned /\ stopPollChan p' = stopPollChan p /\ pl_state p' = pl_state p /\
    ErrChan p' = [Wrap "epollWait" (ErrErrno e)] /\ forall b, ~ poll_step (p', w) b.
Proof.
  intros Hpc He. eexists. split.
  { eapply nsteps_l; [right; by apply (poll_wait_error p w e)|]. eapply nsteps_l; [|apply nsteps_O].
    left. eapply poll_send; [done|]. cbn. rewrite He. apply le_n. }
  cbn. rewrite He. repeat (split; [done|]). intros b. by apply returned_no_step.
Qed.

(** [EINTR] *)
Lemma epoll_error_ends_polling_witness :
  let p := lone_poller InWait (Some false) false in
  exists p', nsteps poll_step 2 (p, lone_world) (p', lone_world) /\
    pl_pc p' = Returned /\ stopPollChan p' = stopPollChan p /\ pl_state p' = pl_state p /\
    ErrChan p' = [Wrap "epollWait" (ErrErrno 4)] /\ forall b, ~ poll_step (p', lone_world) b.
Proof. intros p. by apply (epoll_error_ends_polling p lone_world 4). Defined.
