(* ===== verification/EndToEnd.v ===== *)
(** * A whole session

    Two processes, each with its own state and kernel, on one shared memory:
    sockets and ports are created, the connection protocol runs message by
    message until nothing is in flight, and a packet crosses.  Everything is
    the modelled code, evaluated. *)
From stdpp Require Import base tactics list gmap strings pretty.
From coqutil Require Import Byte.
From Stdlib Require Import ZArith Lia.
From S2P Require Import Prelude.
From S2P Require Import GoInt.
From S2P Require Import Shm.
From S2P Require Import State.
From S2P Require Import Queue.
From S2P Require Import Packet.
From S2P Require Import Wire.
From S2P Require Import Heap.
From S2P Require Import Endpoint.
From S2P Require Import Control.
From S2P Require Import Socket.
From S2P Require Import Demo.
From S2P Require Import Protocol.

(** A process, between two events. *)
Record process := mkProcess { pr_state : state; pr_kernel : demo_kernel }.

(** Runs a control-plane function in a process; [None] when it panics. *)
Definition step {A} (m : M A) (mm : mem) (p : process) : option (A * mem * process) :=
  match run (m (pr_state p)) (mkWorld mm (pr_kernel p)) with
  | Done (a, s) w => Some (a, shm w, mkProcess s (kernel w))
  | _ => None
  end.

(** Takes the datagram a process has sent, as its peer's kernel delivers it:
    padded to the length of the send, with the passed descriptor. *)
Definition take_sent (p : process) : option (received * process) :=
  match sent (pr_kernel p) with
  | (_, buf, rfd) :: rest =>
      Some (mkReceived msgSize (datagram buf)
              (inl (match rfd with Some fd => [right_to fd] | None => [] end)),
            mkProcess (pr_state p) (mkDemo (next_fd (pr_kernel p)) rest (inbox (pr_kernel p))))
  | [] => None
  end.

Definition put_inbox (r : received) (p : process) : process :=
  mkProcess (pr_state p)
    (mkDemo (next_fd (pr_kernel p)) (sent (pr_kernel p)) (inbox (pr_kernel p) ++ [r])).

(** The descriptor of the process's first channel. *)
Definition chan_fd (p : process) : option Z :=
  match ccList (socket (pr_state p)) with
  | c :: _ => cc_fd <$> ccs (pr_state p) !! c
  | [] => None
  end.

(** Delivers what [a] sent to [b], whose poller handles the event. *)
Definition deliver (mm : mem) (a b : process) : option (option goerror * mem * process * process) :=
  match take_sent a, chan_fd b with
  | Some (r, a), Some fd =>
      match step (Socket_handleEvent fd EPOLLIN) mm (put_inbox r b) with
      | Some (err, mm, b) => Some (err, mm, a, b)
      | None => None
      end
  | _, _ => None
  end.

(** Alternates until nothing is in flight: the number of messages exchanged and
    the two processes; [None] on a panic, an error, or out of fuel. *)
Fixpoint exchange (fuel : nat) (mm : mem) (a b : process) : option (nat * mem * process * process) :=
  match fuel with
  | O => None
  | S fuel =>
      match sent (pr_kernel a) with
      | [] => Some (0%nat, mm, a, b)
      | _ =>
          match deliver mm a b with
          | Some (None, mm, a, b) =>
              match exchange fuel mm b a with
              | Some (n, mm, b, a) => Some (S n, mm, a, b)
              | None => None
              end
          | _ => None
          end
      end
  end.

Definition start (mm : mem) (name : gostring) (fds : Z) (c : PortCfg) : option (nat * mem * process) :=
  match run (NewSocket name (bytes_of "/s")) (mkWorld mm (mkDemo fds [] [])) with
  | Done (inl s) w =>
      match step (NewPort c) (shm w) (mkProcess s (kernel w)) with
      | Some (Some (inl pid), mm, p) => Some (pid, mm, p)
      | _ => None
      end
  | _ => None
  end.

(** Server first, then the client; the server's listener (the descriptor after
    the epoll and wake ones) sees the connection. *)
Definition session (c : MemoryConfig) (secret : list byte)
    : option (nat * mem * (nat * process) * (nat * process)) :=
  let cfg_of server := mkPortCfg 7 server (bytes_of "p") secret c (UserFunc 0) (UserFunc 1) None in
  match start ∅ (bytes_of "srv") 100 (cfg_of true) with
  | Some (spid, mm, srv) =>
      match start mm (bytes_of "cli") 200 (cfg_of false) with
      | Some (cpid, mm, cli) =>
          match listener (socket (pr_state srv)) with
          | Some l =>
              match step (Socket_handleEvent l EPOLLIN) mm srv with
              | Some (None, mm, srv) =>
                  match exchange 64 mm srv cli with
                  | Some (n, mm, srv, cli) => Some (n, mm, (spid, srv), (cpid, cli))
                  | None => None
                  end
              | _ => None
              end
          | None => None
          end
      | None => None
      end
  | None => None
  end.

(** What each end sees of the link, and the fate of a packet sent by the client:
    both link states, the server's view of the peer's names and configuration,
    the number of queues and the packet as read. *)
Record report := mkReport {
  messages : nat;
  client_up : bool;
  server_up : bool;
  server_remote : gostring;
  server_queues : nat * nat;
  same_rings : bool;
  echo : option (Z * list byte)
}.

Definition ring_view (q : Queue) : Z * Z * Z := (rg_size (q_ring q), rg_offset (q_ring q), rg_region (q_ring q)).

Definition inspect (c : MemoryConfig) (pkt buf : list byte) : option report :=
  match session c (zeros 24) with
  | Some (n, mm, (spid, srv), (cpid, cli)) =>
      match step (IsConnected cpid) mm cli, step (IsConnected spid) mm srv,
            ports (pr_state cli) !! cpid, ports (pr_state srv) !! spid with
      | Some (cu, _, _), Some (su, _, _), Some cp, Some sp =>
          let echo :=
            match txQueues cp, rxQueues sp with
            | tq :: _, rq :: _ =>
                match run (WritePacket cp tq pkt ;; ReadPacket sp rq buf) (mkWorld mm (pr_kernel cli)) with
                | Done r _ => Some (rd_n r, rd_pkt r)
                | _ => None
                end
            | _, _ => None
            end in
          Some (mkReport n cu su (remoteName sp) (length (rxQueues sp), length (txQueues sp))
                  (bool_decide (ring_view <$> txQueues cp = ring_view <$> rxQueues sp) &&
                   bool_decide (ring_view <$> rxQueues cp = ring_view <$> txQueues sp))
                  echo)
      | _, _, _, _ => None
      end
  | None => None
  end.

(** ** Theorems *)

(** A whole session: a server and a client with matching ids connect by
    exchanging eleven messages (hello; then init, one region, two rings and
    connect, each answered, the last answer being connected), after which nothing
    is in flight, both ports report an established link, the server knows the
    client's name, its rings are the client's with the roles exchanged, and a
    packet the client writes is the packet the server reads. *)
Theorem session_establishes_link :
  inspect (mkMemoryConfig 1 1 4) [Byte.x61; Byte.x62; Byte.x63] (zeros 4) =
  Some (mkReport 11 true true (copy_array 32 (bytes_of "cli")) (1%nat, 1%nat) true
          (Some (3, [Byte.x61; Byte.x62; Byte.x63; Byte.x00]))).
Proof. vm_compute. reflexivity. Qed.
