(* ===== verification/Handshake.v ===== *)
(** * The handshake, for every configuration

    A client that has prepared its regions and queues announces them to the
    server, one message at a time: each is sent when the previous one was
    acknowledged.  The two processes and the datagrams in flight form a
    transition system, [net_step], in which every handler runs in its own process
    against an arbitrary kernel; [dup] relates a descriptor sent to the one its
    receiver gets.  The invariant [phase] is proved by induction on the steps: the
    ends stay in lockstep and the server's port mirrors what was announced so far. *)
From stdpp Require Import base tactics list gmap strings pretty relations.
From coqutil Require Import Byte.
From Stdlib Require Import ZArith Lia.
From S2P Require Import Prelude.
From S2P Require Import GoInt.
From S2P Require Import Shm.
From S2P Require Import State.
From S2P Require Import Ring.
From S2P Require Import Region.
From S2P Require Import Wire.
From S2P Require Import Heap.
From S2P Require Import Endpoint.
From S2P Require Import Control.
From S2P Require Import Demo.
From S2P Require Import Protocol.
From S2P Require Import Trace.
From S2P Require Import Lifecycle.
From S2P Require Import Sessions.

(** ** Announcements *)

Inductive ann :=
| AInit
| ARegion (i : nat) (r : memoryRegion)
| ARing (t : ringType) (i : nat) (q : Queue)
| AConnect.

Definition region_anns (p : Port) : list ann := imap ARegion (regions p).

(** The queues a client announces for a direction. *)
Definition client_queues (t : ringType) (p : Port) : list Queue :=
  take (Z.to_nat (NumQueuePairs (run_ p)))
    match t with ringTypeS2M => txQueues p | ringTypeM2S => rxQueues p end.

Definition ring_anns (t : ringType) (p : Port) : list ann := imap (ARing t) (client_queues t p).

Definition setup_anns (p : Port) : list ann :=
  AInit :: region_anns p ++ ring_anns ringTypeS2M p ++ ring_anns ringTypeM2S p.

Definition connect_msg (p : Port) : MsgConnect := mkMsgConnect (copy_array 32 (Name (cfg p))).

Definition ann_msg (s : state) (p : Port) (a : ann) : controlMsg :=
  match a with
  | AInit => mkControlMsg (write_msg (init_msg s p)) (-1)
  | ARegion i r => mkControlMsg (write_msg (region_msg (Z.of_nat i) r)) (fd r)
  | ARing t i q => mkControlMsg (write_msg (ring_msg t (Z.of_nat i) q)) (interruptFd q)
  | AConnect => mkControlMsg (write_msg (connect_msg p)) (-1)
  end.

(** A client port as [initializeRegions] and [initializeQueues] leave it. *)
Record client_ready (p : Port) : Prop := {
  cr_id : 0 <= Id (cfg p) < 2 ^ 32;
  cr_regions : zlen (regions p) <= 256;
  cr_region : forall r, r ∈ regions p -> 0 <= rsize r < 2 ^ 64 /\ 0 < fd r;
  cr_pairs : 0 <= NumQueuePairs (run_ p) < 65536;
  cr_count : forall t, length (client_queues t p) = Z.to_nat (NumQueuePairs (run_ p));
  cr_queue : forall t q, q ∈ client_queues t p ->
    0 <= rg_offset (q_ring q) < 2 ^ 32 /\ 0 <= rg_log2Size (q_ring q) < 256 /\ 0 < interruptFd q
}.

(** ** What the client enqueues *)

Definition enqueued (c : nat) (ms : list controlMsg) (s : state) : state :=
  foldl (fun s m => queued c m s) s ms.

Section announce.
Context (c pid : nat) (p : Port).
Implicit Types s : state.

Lemma queued_chan_of s m : chan_of s c pid p -> chan_of (queued c m s) c pid p.
Proof using.
  intros (x & Hx & Hp & Hport). rewrite (queued_chan _ _ _ _ Hx).
  eexists. split; [apply lookup_set_chan|]. by split.
Qed.

Lemma queued_socket s m : socket (queued c m s) = socket s.
Proof using. unfold queued. by destruct (ccs s !! c). Qed.

Lemma enqueued_facts ms s :
  chan_of s c pid p -> chan_of (enqueued c ms s) c pid p /\ socket (enqueued c ms s) = socket s.
Proof using.
  revert s. induction ms as [|m ms IH]; intros s Hc; [done|]. cbn [enqueued foldl].
  destruct (IH (queued c m s)) as [H1 H2]; [by apply queued_chan_of|].
  split; [done|]. unfold enqueued in H2. rewrite H2. apply queued_socket.
Qed.

Lemma enqueued_app ms ms' s : enqueued c (ms ++ ms') s = enqueued c ms' (enqueued c ms s).
Proof using. apply foldl_app. Qed.

Lemma enqueued_chan s x ms :
  ccs s !! c = Some x -> enqueued c ms s = set_chan c (set_msgQueue (msgQueue x ++ ms) x) s.
Proof using.
  revert s x. induction ms as [|m ms IH]; intros s x Hx; cbn [enqueued foldl].
  - rewrite app_nil_r. destruct x. by rewrite set_chan_same.
  - rewrite (queued_chan _ _ _ _ Hx). fold (enqueued c ms (set_chan c (set_msgQueue (msgQueue x ++ [m]) x) s)).
    rewrite (IH _ (set_msgQueue (msgQueue x ++ [m]) x)) by apply lookup_set_chan.
    rewrite set_chan_set_chan. cbn [msgQueue set_msgQueue]. by rewrite <- app_assoc.
Qed.

(** A loop that enqueues one message per iteration. *)
Lemma for_each_enqueues (f : Z -> M (option goerror)) ms k s :
  (forall j m s', ms !! j = Some m -> chan_of s' c pid p ->
     f (Z.of_nat (k + j)) s' = mret (None, queued c m s')) ->
  Z.of_nat (k + length ms) <= 65536 -> chan_of s c pid p ->
  for_each (length ms) (Z.of_nat k) f s = mret (None, enqueued c ms s).
Proof using.
  revert k s. induction ms as [|m ms IH]; intros k s Hf Hk Hc; [done|]. cbn [length for_each] in *.
  rewrite u16_small by lia.
  erewrite check_None; [|specialize (Hf 0%nat m s); rewrite Nat.add_0_r in Hf; by apply Hf].
  replace (Z.of_nat k + 1) with (Z.of_nat (S k)) by lia. apply IH; [|lia|by apply queued_chan_of].
  intros j m' s' Hj. replace (S k + j)%nat with (k + S j)%nat by lia. by apply Hf.
Qed.
Lemma announce_loop (f : Z -> M (option goerror)) (s0 : state) (l : list ann) n s :
  (forall j a s', l !! j = Some a -> chan_of s' c pid p ->
     f (Z.of_nat j) s' = mret (None, queued c (ann_msg s0 p a) s')) ->
  n = length l -> zlen l <= 65536 -> chan_of s c pid p ->
  for_each n 0 f s = mret (None, enqueued c (ann_msg s0 p <$> l) s).
Proof using.
  intros Hf -> Hl Hc. replace (length l) with (length (ann_msg s0 p <$> l)) by apply length_fmap.
  apply (for_each_enqueues f _ 0); [|rewrite length_fmap; unfold zlen in Hl; lia|done].
  intros j m s' Hj. apply list_lookup_fmap_Some in Hj as (a & -> & Ha). by apply Hf.
Qed.

Lemma announce_rings s0 t s :
  client_ready p -> chan_of s c pid p ->
  for_each (Z.to_nat (NumQueuePairs (run_ p))) 0 (msgEnqAddRing c t) s =
  mret (None, enqueued c (ann_msg s0 p <$> ring_anns t p) s).
Proof using.
  intros Hp Hc. pose proof (cr_count _ Hp t). pose proof (cr_pairs _ Hp). unfold ring_anns.
  apply announce_loop; [|by rewrite length_imap|unfold zlen; rewrite length_imap; lia|done].
  intros j a s' Ha Hc'. apply list_lookup_imap_Some in Ha as (q & Hq & ->).
  apply lookup_take_Some in Hq as [Hq _]. cbn [ann_msg].
  apply (msgEnqAddRing_eq s' c pid p t (Z.of_nat j) q Hc').
  unfold announced_queue. by rewrite Nat2Z.id.
Qed.

(** [announce] enqueues the announcements of the port, in this order. *)
Lemma announce_eq s :
  client_ready p -> chan_of s c pid p ->
  announce c p s = mret (None, enqueued c (ann_msg s p <$> (setup_anns p ++ [AConnect])) s).
Proof using.
  intros Hp Hc. unfold announce. pose proof (cr_regions _ Hp).
  assert (length (region_anns p) = length (regions p)) as Hlen by apply length_imap.
  assert (forall s1 ms, chan_of s1 c pid p -> chan_of (enqueued c ms s1) c pid p) as Hkeep
    by (intros; by apply enqueued_facts).
  erewrite check_None by by eapply msgEnqInit_eq.
  erewrite check_None.
  2: { apply (announce_loop _ s (region_anns p)); [|done|unfold zlen in *; lia|].
       - intros j a s' Ha Hc'. apply list_lookup_imap_Some in Ha as (r & Hr & ->). cbn [ann_msg].
         apply (msgEnqAddRegion_eq s' c pid p _ r Hc'). by rewrite Nat2Z.id.
       - by apply queued_chan_of. }
  do 2 (erewrite check_None; [|apply (announce_rings s); [done|by repeat first [apply Hkeep | apply queued_chan_of]]]).
  unfold msgEnqConnect. do 2 (erewrite M_bind_ret;
    [|first [eapply chan_of_port | eapply chan_of_get]; by repeat first [apply Hkeep | apply queued_chan_of]]).
  erewrite M_bind_ret.
  2: { apply enqueue_eq, (chan_of_is_Some _ _ pid p).
       by repeat first [apply Hkeep | apply queued_chan_of]. }
  change (setup_anns p) with ([AInit] ++ region_anns p ++ ring_anns ringTypeS2M p ++ ring_anns ringTypeM2S p).
  by rewrite !fmap_app, !enqueued_app.
Qed.
End announce.

(** ** Datagrams in flight *)

(** What [sendMsg] hands to the kernel: the bytes, and the descriptor to pass. *)
Definition packet : Type := list byte * option Z.

Definition packet_of (m : controlMsg) : packet :=
  (Buffer m, if 0 <? Fd m then Some (Fd m) else None).

Definition sent_by (f : Z) (x : scall) : list packet :=
  match x with
  | SC c =>
      match c with
      | SysSendmsg g buf _ rfd => if g =? f then [(buf, rfd)] else []
      | _ => []
      end
  end.

(** What a sequence of calls sent on descriptor [f]. *)
Definition sent_on (f : Z) (l : list scall) : list packet := concat (sent_by f <$> l).

Definition ack : packet := (put uint16 msgTypeAck, None).

Section net.
Context {cb : Callbacks} {et : ErrnoText} (dup : Z -> Z -> Prop).

(** [r] is how the receiver's kernel delivers packet [k]: a full datagram that
    begins with the message, and a right to the descriptor passed. *)
Record carries (k : packet) (r : received) : Prop := {
  ca_size : rcv_size r = msgSize;
  ca_len : zlen (rcv_data r) = msgSize;
  ca_data : exists tail, rcv_data r = k.1 ++ tail;
  ca_right : forall n, k.2 = Some n ->
    exists ms n', rcv_control r = inl ms /\ ms <> [] /\ parse_rights ms (-1) = inl n' /\
    n' <> -1 /\ dup n n'
}.

(** Channel [c]'s descriptor is readable and [recvmsg] answers [r]: the handler
    returns [err] in state [s'], having sent [out]. *)
Definition receives (c : nat) (s : state) (r : received) (err : option goerror) (s' : state)
    (out : list packet) : Prop :=
  exists (os : OS) (w w' : @world (traced os)) x l,
    ccs s !! c = Some x /\
    (@sys os _ (SysRecvmsg (cc_fd x)) (@shm (traced os) w) (@kernel (traced os) w).2).1.1 = inl r /\
    @run (traced os) _ _ (handleEvent c EPOLLIN s) w = Done (err, s') w' /\
    trace w' = trace w ++ l /\ out = sent_on (cc_fd x) l.

(** The kernel sends what it is given. *)
Definition net_up (os : OS) : Prop :=
  forall f bs n rfd m k, (@sys os _ (SysSendmsg f bs n rfd) m k).1.1 = None.

(** The only way a step of the handshake may fail: the kernel refuses to send. *)
Definition send_result (os : OS) (err : option goerror) : Prop :=
  (err = None \/ exists e, err = Some (Wrap "SYS_SENDMSG" (ErrErrno e))) /\
  (net_up os -> err = None).

Lemma handleEvent_recv (os : OS) c x s r (w : @world (traced os)) Q :
  ccs s !! c = Some x ->
  (@sys os _ (SysRecvmsg (cc_fd x)) (@shm (traced os) w) (@kernel (traced os) w).2).1.1 = inl r ->
  (forall w, callsM (os := os) (on_datagram c r) s w Q) ->
  exists err s' w' l, @run (traced os) _ _ (handleEvent c EPOLLIN s) w = Done (err, s') w' /\
    trace w' = trace w ++ SC (SysRecvmsg (cc_fd x)) :: l /\ Q err s' l.
Proof using.
  intros Hx Hr Hq. unfold handleEvent.
  change (has_event EPOLLIN EPOLLHUP) with false. change (has_event EPOLLIN EPOLLERR) with false.
  change (has_event EPOLLIN EPOLLIN) with true. cbv iota. mstep.
  destruct (@sys os _ (SysRecvmsg (cc_fd x)) (@shm (traced os) w) (@kernel (traced os) w).2)
    as [[a m] k] eqn:E. simpl in Hr. subst a.
  set (k' := (trace w ++ [SC (SysRecvmsg (cc_fd x))], k)).
  assert (@sys (traced os) _ (SysRecvmsg (cc_fd x)) (@shm (traced os) w) (@kernel (traced os) w) =
          (inl r, m, k')) as Hs.
  { transitivity (let '(a, m', s') := @sys os _ (SysRecvmsg (cc_fd x)) (@shm (traced os) w)
                    (@kernel (traced os) w).2 in (a, m', (trace w ++ [SC (SysRecvmsg (cc_fd x))], s')));
      [reflexivity|by rewrite E]. }
  erewrite (run_sys (H := traced os)) by exact Hs. cbv iota.
  destruct (callsM_run _ _ _ _ (Hq (@mkWorld (traced os) m k'))) as (err & s' & w' & l & Hrun & Ht & HQ).
  exists err, s', w', l. split; [exact Hrun|]. split; [|done]. rewrite Ht. symmetry. apply (app_assoc (trace w) [_] l).
Qed.

(** One round: the datagram is dispatched without error, and the message that is
    then at the head of the queue is sent. *)
Lemma on_datagram_round (os : OS) c x r s s1 x1 m rest (w : @world (traced os)) :
  ccs s !! c = Some x -> zlen (cc_data x) = msgSize ->
  rcv_size r = msgSize -> zlen (rcv_data r) = msgSize ->
  dispatch c (read_type (rcv_data r))
    (set_chan c (set_received (rcv_data r) (rcv_control r) x) s) = mret (None, s1) ->
  ccs s1 !! c = Some x1 -> msgQueue x1 = m :: rest -> zlen (Buffer m) <> 0 ->
  callsM (os := os) (on_datagram c r) s w (fun err s' l =>
    send_result os err /\ s' = set_chan c (set_msgQueue rest x1) s1 /\
    sent_on (cc_fd x1) l = [packet_of m]).
Proof using.
  intros Hx Hd Hs Hl Hdis Hx1 Hq Hne. unfold on_datagram.
  eapply callsM_step; [by apply (mod_chan_eq c _ x)|]. cbv beta iota.
  rewrite go_copy_same by lia. rewrite Hs. change (negb (msgSize =? msgSize)) with false. cbv iota.
  eapply callsM_check_step.
  { unfold parseMsg. erewrite M_bind_ret by apply get_chan_eq, lookup_set_chan.
    cbn [cc_data set_received]. by rewrite (M_bind_ret _ _ _ _ _ Hdis). }
  unfold sendMsg. cstep. rewrite Hq. cstep. rewrite (proj2 (Z.eqb_neq _ _)) by done.
  apply callsM_bind, callsM_lift, calls_sys_answer. intros mm kk w1. apply callsM_ret.
  split.
  { split; [destruct (_.1.1); [right; by eexists|by left]|]. intros Hup. by rewrite Hup. }
  split; [done|].
  unfold sent_on. cbn. by rewrite Z.eqb_refl.
Qed.
(** ** The server's mirror *)

Definition ann_region (a : ann) : option memoryRegion :=
  match a with ARegion _ r => Some r | _ => None end.

Definition ann_queue (t : ringType) (a : ann) : option Queue :=
  match t, a with
  | ringTypeS2M, ARing ringTypeS2M _ q | ringTypeM2S, ARing ringTypeM2S _ q => Some q
  | _, _ => None
  end.

(** The server's copy of a region and of a queue. *)
Definition region_peer (r r' : memoryRegion) : Prop :=
  data r' = None /\ rsize r' = rsize r /\ dup (fd r) (fd r').

Definition peer_ring (t : ringType) (r : ring) : ring :=
  mkRing t (int_shl1 (rg_log2Size r)) (rg_log2Size r) 0 (zeros ringSize) (rg_offset r).

Definition queue_peer (pid : nat) (t : ringType) (q q' : Queue) : Prop :=
  exists n, dup (interruptFd q) n /\ q' = mkQueue (peer_ring t (q_ring q)) pid 0 0 n.

(** Port [p], which was [p0] when it was bound, mirrors the announcements [l]. *)
Record mirrors (pid : nat) (p0 p : Port) (l : list ann) : Prop := {
  mi_regions : Forall2 region_peer (omap ann_region l) (regions p);
  mi_rx : Forall2 (queue_peer pid ringTypeS2M) (omap (ann_queue ringTypeS2M) l) (rxQueues p);
  mi_tx : Forall2 (queue_peer pid ringTypeM2S) (omap (ann_queue ringTypeM2S) l) (txQueues p);
  mi_rest : set_regions [] (set_rxQueues [] (set_txQueues [] p)) = p0
}.

Lemma mirrors_region pid p0 p l i r n :
  mirrors pid p0 p l -> dup (fd r) n ->
  mirrors pid p0 (set_regions (regions p ++ [mkRegion None (rsize r) n 0]) p) (l ++ [ARegion i r]).
Proof using.
  intros [H1 H2 H3 H4] Hn. split; [| | |by destruct p]; rewrite omap_app; cbn.
  - apply Forall2_app; [done|]. by repeat constructor.
  - by rewrite app_nil_r.
  - by rewrite app_nil_r.
Qed.

Lemma mirrors_ring pid p0 p l t i q n :
  mirrors pid p0 p l -> dup (interruptFd q) n ->
  mirrors pid p0 (join_queue (mkQueue (peer_ring t (q_ring q)) pid 0 0 n) p) (l ++ [ARing t i q]).
Proof using.
  intros [H1 H2 H3 H4] Hn. split; [| | |by destruct t, p]; rewrite omap_app;
    destruct t; cbn; rewrite ?app_nil_r; try done; (apply Forall2_app; [done|]; constructor; [|done];
    by exists n).
Qed.

(** ** The two ends *)

(** Channel [c] of [s], bound to [po], waits for a message and has none to send. *)
Definition chan_idle (s : state) (c : nat) (po : option nat) : Prop :=
  exists x, ccs s !! c = Some x /\ cc_port x = po /\ msgQueue x = [] /\ zlen (cc_data x) = msgSize.

Section ends.
Context (cs ss : state) (cc cpid sc spid : nat) (cp sp : Port).

(** The client is about to answer hello; the server listens with a port that
    takes this client and has room for its queue pairs. *)
Record can_shake : Prop := {
  hs_client : client_ready cp;
  hs_cport : ports cs !! cpid = Some cp;
  hs_cchan : chan_idle cs cc (Some cpid);
  hs_schan : chan_idle ss sc None;
  hs_live : ports_live ss;
  hs_sel : init_port ss (init_msg cs cp) = Some spid;
  hs_sport : ports ss !! spid = Some sp;
  hs_secret : Secret (cfg sp) = zeros 24;
  hs_empty : regions sp = [] /\ rxQueues sp = [] /\ txQueues sp = [];
  hs_pairs : NumQueuePairs (run_ cp) <= NumQueuePairs (cfg_MemoryConfig (cfg sp))
}.

Definition bound_server : Port := accepted sc (init_msg cs cp) sp.

(** The server after the announcements [done]. *)
Definition server_at (done : list ann) (s : state) : Prop :=
  match done with
  | [] => s = ss
  | _ => chan_idle s sc (Some spid) /\
      exists p, ports s !! spid = Some p /\ mirrors spid bound_server p done
  end.

(** The client with the announcements [todo] still in its queue. *)
Definition client_at (todo : list ann) (s : state) : Prop :=
  exists x, ccs s !! cc = Some x /\ cc_port x = Some cpid /\
    msgQueue x = (ann_msg cs cp <$> todo) /\ zlen (cc_data x) = msgSize /\ ports s !! cpid = Some cp.

Context (Hcan : can_shake).

(** Where an announcement stands in the list. *)
Lemma setup_inv done a todo :
  setup_anns cp = done ++ a :: todo ->
  match a with
  | AInit => done = []
  | ARegion i r => done <> [] /\ regions cp !! i = Some r
  | ARing t i q => done <> [] /\ client_queues t cp !! i = Some q
  | AConnect => False
  end.
Proof using.
  unfold setup_anns. destruct done as [|b done]; cbn; [by intros [= <- _]|]. intros [= <- E].
  assert (Ha : a ∈ region_anns cp ++ ring_anns ringTypeS2M cp ++ ring_anns ringTypeM2S cp)
    by (rewrite E; apply elem_of_app; right; left).
  apply elem_of_app in Ha as [Ha|[Ha|Ha]%elem_of_app];
    apply list_elem_of_lookup in Ha as (j & (x & Hx & ->)%list_lookup_imap_Some); by split.
Qed.

Definition ack_msg : controlMsg := mkControlMsg (put uint16 msgTypeAck) (-1).

(** A handler that succeeds is answered by an acknowledgement, sent at once. *)
Lemma answered (h : M (option goerror)) s0 s1 x1 :
  h s0 = mret (None, s1) -> ccs s1 !! sc = Some x1 -> msgQueue x1 = [] ->
  (try h ;; msgEnqAck sc) s0 = mret (None, set_chan sc (set_msgQueue [ack_msg] x1) s1).
Proof using.
  intros Hh Hx Hq. erewrite check_None by exact Hh. unfold msgEnqAck.
  erewrite M_bind_ret by (apply enqueue_eq; by eexists). rewrite (queued_chan _ _ _ _ Hx). by rewrite Hq.
Qed.

(** How the server takes one announcement. *)
Definition takes (l : list ann) (x : controlChannel) (r : received) (s : state) : Prop :=
  exists s1 x1,
    dispatch sc (read_type (rcv_data r))
      (set_chan sc (set_received (rcv_data r) (rcv_control r) x) s) = mret (None, s1) /\
    ccs s1 !! sc = Some x1 /\ msgQueue x1 = [ack_msg] /\ cc_fd x1 = cc_fd x /\
    server_at l (set_chan sc (set_msgQueue [] x1) s1).

Lemma takes_reply (h : M (option goerror)) l x r s s1 x1 p :
  dispatch sc (read_type (rcv_data r)) = (try h ;; msgEnqAck sc) ->
  h (set_chan sc (set_received (rcv_data r) (rcv_control r) x) s) = mret (None, s1) ->
  ccs s1 !! sc = Some x1 -> cc_port x1 = Some spid -> msgQueue x1 = [] -> cc_fd x1 = cc_fd x ->
  zlen (cc_data x1) = msgSize -> ports s1 !! spid = Some p -> mirrors spid bound_server p l ->
  l <> [] -> takes l x r s.
Proof using.
  intros Hd Hh Hx Hp Hq Hf Hl Hport Hm Hne. exists (set_chan sc (set_msgQueue [ack_msg] x1) s1), (set_msgQueue [ack_msg] x1).
  split; [rewrite Hd; by apply answered|]. split; [apply lookup_set_chan|]. split; [done|]. split; [done|].
  rewrite set_chan_set_chan. unfold server_at. destruct l; [done|]. split; [|by exists p].
  eexists. split; [apply lookup_set_chan|]. done.
Qed.

(** The datagram stored in the channel. *)
Abbreviation arrived s x r := (set_chan sc (set_received (rcv_data r) (rcv_control r) x) s).

Lemma arrived_msg {N} `{Message N} s x r (m : N) n :
  carries (write_msg m, n) r -> received_msg (arrived s x r) sc m.
Proof using. intros [_ _ [tail Ht] _]. eexists _, tail. split; [apply lookup_set_chan|]. done. Qed.

Lemma arrived_type {N} `{Message N} r (m : N) n :
  carries (write_msg m, n) r -> read_type (rcv_data r) = msg_type.
Proof using. intros [_ _ [tail ->] _]. apply read_type_write. Qed.

Lemma arrived_fd s x r bs n :
  carries (bs, Some n) r -> exists n', received_fd (arrived s x r) sc n' /\ dup n n'.
Proof using.
  intros [_ _ _ Hr]. destruct (Hr n eq_refl) as (ms & n' & ? & ? & ? & ? & ?). exists n'.
  split; [|done]. eexists _, ms. split; [apply lookup_set_chan|]. done.
Qed.

Lemma takes_init x r :
  ccs ss !! sc = Some x -> cc_port x = None -> msgQueue x = [] ->
  carries (packet_of (ann_msg cs cp AInit)) r -> takes [AInit] x r ss.
Proof using Hcan.
  intros Hx Hp Hq Hr. pose proof (hs_client Hcan) as Hcl.
  destruct (parseInit_eq (arrived ss x r) sc (init_msg cs cp)) as (x' & Hx' & Hpi);
    [exact (hs_live Hcan)|by eapply arrived_msg|apply init_msg_ok, Hcl|].
  rewrite lookup_set_chan in Hx'. injection Hx' as <-. unfold init_outcome in Hpi.
  change (init_port (arrived ss x r)) with (init_port ss) in Hpi.
  change (ports (arrived ss x r)) with (ports ss) in Hpi. rewrite (hs_sel Hcan), (hs_sport Hcan) in Hpi.
  rewrite (bool_decide_eq_true_2 _ (hs_secret Hcan)) in Hpi.
  change (negb (init_Version (init_msg cs cp) =? Version)) with false in Hpi. cbv iota in Hpi.
  eapply (takes_reply (parseInit sc));
    [by rewrite (arrived_type r _ _ Hr)|exact Hpi|apply lookup_set_chan|done..|apply Hr|apply lookup_set_port| |done].
  destruct (hs_empty Hcan) as (H1 & H2 & H3). unfold bound_server, accepted.
  split; cbn; rewrite ?H1, ?H2, ?H3; [constructor..|]. destruct sp; cbn in *; by subst.
Qed.

Section bound.
Context (x : controlChannel) (p : Port) (s : state) (r : received) (l : list ann).
Context (Hx : ccs s !! sc = Some x) (Hp : cc_port x = Some spid) (Hq : msgQueue x = []).
Context (Hport : ports s !! spid = Some p) (Hm : mirrors spid bound_server p l).

Lemma arrived_chan : chan_of (arrived s x r) sc spid p.
Proof using Hx Hp Hport. eexists. split; [apply lookup_set_chan|]. done. Qed.

Lemma takes_region i rg :
  regions cp !! i = Some rg -> carries (packet_of (ann_msg cs cp (ARegion i rg))) r ->
  takes (l ++ [ARegion i rg]) x r s.
Proof using Hx Hp Hq Hport Hm Hcan.
  intros Hrg Hr. pose proof (hs_client Hcan) as Hcl. pose proof (cr_regions _ Hcl).
  apply lookup_lt_Some in Hrg as Hi.
  destruct (cr_region _ Hcl rg) as [Hsz Hfd]; [by eapply list_elem_of_lookup_2|].
  unfold packet_of in Hr. cbn [ann_msg Fd Buffer] in Hr. rewrite (proj2 (Z.ltb_lt _ _) Hfd) in Hr.
  destruct (arrived_fd s x r _ _ Hr) as (n & Hn & Hdup).
  pose proof (parseAddRegion_eq _ sc spid p (region_msg (Z.of_nat i) rg) n
    (arrived_msg s x r _ _ Hr)) as Heq. unfold zlen in *. cbn [region_Index region_msg] in Heq.
  rewrite (proj2 (Z.ltb_ge _ _)) in Heq by lia.
  eapply (takes_reply (parseAddRegion sc));
    [by rewrite (arrived_type r _ _ Hr)|apply Heq; [|done|apply arrived_chan]|apply lookup_chan_set_port, lookup_set_chan
    |done|done|done|apply Hr|apply lookup_set_port|by apply mirrors_region|by destruct l].
  split; cbn; unfold in_width; lia.
Qed.

Lemma takes_ring t i q :
  client_queues t cp !! i = Some q -> carries (packet_of (ann_msg cs cp (ARing t i q))) r ->
  takes (l ++ [ARing t i q]) x r s.
Proof using Hx Hp Hq Hport Hm Hcan.
  intros Hqi Hr. pose proof (hs_client Hcan) as Hcl. pose proof (cr_pairs _ Hcl). pose proof (cr_count _ Hcl t).
  pose proof (hs_pairs Hcan). apply lookup_lt_Some in Hqi as Hi.
  destruct (cr_queue _ Hcl t q) as (Ho & Hlog & Hfd); [by eapply list_elem_of_lookup_2|].
  unfold packet_of in Hr. cbn [ann_msg Fd Buffer] in Hr. rewrite (proj2 (Z.ltb_lt _ _) Hfd) in Hr.
  destruct (arrived_fd s x r _ _ Hr) as (n & Hn & Hdup).
  pose proof (parseAddRing_eq _ sc spid p (ring_msg t (Z.of_nat i) q) n (arrived_msg s x r _ _ Hr)) as Heq.
  assert (run_ p = cfg_MemoryConfig (cfg sp)) as Hrun.
  { pose proof (mi_rest _ _ _ _ Hm) as Hrest. apply (f_equal run_) in Hrest. exact Hrest. }
  cbn [ring_Index ring_msg] in Heq. rewrite Hrun, (proj2 (Z.leb_gt _ _)) in Heq by lia.
  assert (ring_queue (ring_msg t (Z.of_nat i) q) spid n = mkQueue (peer_ring t (q_ring q)) spid 0 0 n) as Hrq.
  { unfold ring_queue, newRing, ring_msg, peer_ring. cbn. rewrite u32_small, u8_small by done. by destruct t. }
  rewrite Hrq in Heq.
  eapply (takes_reply (parseAddRing sc));
    [by rewrite (arrived_type r _ _ Hr)|apply Heq; [|done|apply arrived_chan]|apply lookup_chan_set_port, lookup_set_chan
    |done|done|done|apply Hr|apply lookup_set_port|by apply mirrors_ring|by destruct l].
  apply ring_msg_ok. lia.
Qed.
End bound.

Lemma server_round done a todo s r :
  setup_anns cp = done ++ a :: todo -> server_at done s -> carries (packet_of (ann_msg cs cp a)) r ->
  exists x, ccs s !! sc = Some x /\ zlen (cc_data x) = msgSize /\ takes (done ++ [a]) x r s.
Proof using Hcan.
  intros E Hs Hr. pose proof (setup_inv done a todo E) as Ha. destruct done as [|b done].
  - destruct a; [|by destruct Ha..|done]. cbn in Hs. subst s. destruct (hs_schan Hcan) as (x & Hx & Hp & Hq & Hl).
    exists x. split; [done|]. split; [done|]. by apply takes_init.
  - destruct Hs as [(x & Hx & Hp & Hq & Hl) (p & Hport & Hm)]. exists x. split; [done|]. split; [done|].
    destruct a; [done| | |done]; destruct Ha as [_ Ha]; [by eapply takes_region|by eapply takes_ring].
Qed.

(** ** One delivery *)

(** Whatever the kernel, delivering [r] leads to state [s'] and sends [out]; an
    error can only come from the kernel refusing to send. *)
Definition handled (c : nat) (s : state) (r : received) (s' : state) (out : list packet) : Prop :=
  forall (os : OS) (w : @world (traced os)) x, ccs s !! c = Some x ->
    (@sys os _ (SysRecvmsg (cc_fd x)) (@shm (traced os) w) (@kernel (traced os) w).2).1.1 = inl r ->
    exists err w' l, @run (traced os) _ _ (handleEvent c EPOLLIN s) w = Done (err, s') w' /\
      trace w' = trace w ++ l /\ sent_on (cc_fd x) l = out /\ send_result os err.

Lemma handled_receives c s r s' out err s'' out' :
  handled c s r s' out -> receives c s r err s'' out' -> s'' = s' /\ out' = out.
Proof using.
  intros Hh (os & w & w' & x & l & Hx & Hr & Hrun & Ht & ->).
  destruct (Hh os w x Hx Hr) as (err' & w'' & l' & Hrun' & Ht' & <- & He).
  rewrite Hrun in Hrun'. injection Hrun' as -> -> ->. rewrite Ht in Ht'.
  apply app_inv_head in Ht' as ->. done.
Qed.

Lemma handled_round c x r s s1 x1 m rest :
  ccs s !! c = Some x -> zlen (cc_data x) = msgSize -> rcv_size r = msgSize -> zlen (rcv_data r) = msgSize ->
  dispatch c (read_type (rcv_data r))
    (set_chan c (set_received (rcv_data r) (rcv_control r) x) s) = mret (None, s1) ->
  ccs s1 !! c = Some x1 -> cc_fd x1 = cc_fd x -> msgQueue x1 = m :: rest -> zlen (Buffer m) <> 0 ->
  handled c s r (set_chan c (set_msgQueue rest x1) s1) [packet_of m].
Proof using.
  intros Hx Hd Hs Hl Hdis Hx1 Hf Hq Hne os w x' Hx' Hr. simplify_eq.
  destruct (handleEvent_recv os c x s r w (fun err s' l =>
    send_result os err /\ s' = set_chan c (set_msgQueue rest x1) s1 /\
    sent_on (cc_fd x1) l = [packet_of m])) as (err & s' & w' & l & Hrun & Ht & He & -> & Hout); [done..| |].
  { intros w1. by eapply on_datagram_round. }
  exists err, w', (SC (SysRecvmsg (cc_fd x)) :: l).
  split; [done|]. split; [done|]. split; [|done]. rewrite <- Hf. exact Hout.
Qed.

Lemma server_handled done a todo s r :
  setup_anns cp = done ++ a :: todo -> server_at done s -> carries (packet_of (ann_msg cs cp a)) r ->
  exists s', handled sc s r s' [ack] /\ server_at (done ++ [a]) s'.
Proof using Hcan.
  intros E Hs Hr. destruct (server_round done a todo s r E Hs Hr) as (x & Hx & Hl & s1 & x1 & Hd & Hx1 & Hq & Hf & Hat).
  eexists. split; [|exact Hat]. change [ack] with [packet_of ack_msg].
  eapply handled_round; try done; apply Hr.
Qed.

Lemma ann_msg_nonempty a : zlen (Buffer (ann_msg cs cp a)) <> 0.
Proof using.
  destruct a; cbn [ann_msg Buffer]; unfold write_msg; rewrite zlen_app;
    match goal with |- zlen (put uint16 ?t) + zlen ?l <> 0 =>
      pose proof (zlen_le16 t); pose proof (zlen_nonneg l); change (put uint16 t) with (le16 t); lia end.
Qed.

Lemma read_type_ack tail : read_type (put uint16 msgTypeAck ++ tail) = msgTypeAck.
Proof using.
  unfold read_type, binary_read. rewrite (proj2 (Z.ltb_ge _ _)); [done|].
  rewrite zlen_app. change (zlen (put uint16 msgTypeAck)) with 2. pose proof (zlen_nonneg tail). cbn. lia.
Qed.

Lemma client_handled a todo s r :
  client_at (a :: todo) s -> carries ack r ->
  exists s', handled cc s r s' [packet_of (ann_msg cs cp a)] /\ client_at todo s'.
Proof using.
  intros (x & Hx & Hp & Hq & Hl & Hport) [Hs Hrl [tail Hd] _]. eexists. split.
  - set (x1 := set_received (rcv_data r) (rcv_control r) x).
    apply (handled_round cc x r s (set_chan cc x1 s) x1 _ (ann_msg cs cp <$> todo)); try done.
    + rewrite Hd at 1. cbn [ack fst]. by rewrite read_type_ack.
    + apply lookup_set_chan.
    + apply ann_msg_nonempty.
  - eexists. split; [apply lookup_set_chan|]. done.
Qed.

(** ** The two processes together *)

(** The states of client and server, and the datagrams in flight. *)
Record net := mkNet {
  cli : state;
  srv : state;
  to_srv : list packet;
  to_cli : list packet
}.

(** A datagram is delivered and handled without error.  The connect message,
    which ends the announcements, is not delivered here. *)
Inductive net_step : net -> net -> Prop :=
| srv_step n k rest r s' out :
    to_srv n = k :: rest -> read_type k.1 <> msgTypeConnect -> carries k r ->
    receives sc (srv n) r None s' out ->
    net_step n (mkNet (cli n) s' rest (to_cli n ++ out))
| cli_step n k rest r s' out :
    to_cli n = k :: rest -> carries k r -> receives cc (cli n) r None s' out ->
    net_step n (mkNet s' (srv n) (to_srv n ++ out) rest).

(** The client has answered hello: it enqueued its announcements and sent what
    [sendMsg] takes from the queue. *)
Definition initial (n : net) : Prop :=
  exists (os : OS) (w w' : @world (traced os)) x l,
    ccs cs !! cc = Some x /\
    @run (traced os) _ _ ((try announce cc cp ;; sendMsg cc) cs) w = Done (None, cli n) w' /\
    trace w' = trace w ++ l /\ to_srv n = sent_on (cc_fd x) l /\ srv n = ss /\ to_cli n = [].

Definition last_announcement : packet := packet_of (ann_msg cs cp AConnect).

(** After [k] deliveries: the announcements [done] were taken by the server;
    either [a] is on its way to the server, or the acknowledgement to the
    client, which will then send [a]. *)
Inductive phase (k : nat) (n : net) : Prop :=
| phase_sent done a todo :
    setup_anns cp ++ [AConnect] = done ++ a :: todo -> k = (2 * length done)%nat ->
    server_at done (srv n) -> client_at todo (cli n) ->
    to_srv n = [packet_of (ann_msg cs cp a)] -> to_cli n = [] -> phase k n
| phase_acked done a todo :
    setup_anns cp ++ [AConnect] = done ++ a :: todo -> S k = (2 * length done)%nat ->
    server_at done (srv n) -> client_at (a :: todo) (cli n) ->
    to_srv n = [] -> to_cli n = [ack] -> phase k n.

Lemma initial_phase n : initial n -> phase 0 n.
Proof using Hcan.
  intros (os & w & w' & x & l & Hx & Hrun & Ht & Hto & Hs & Hc).
  pose proof (hs_client Hcan) as Hcl. destruct (hs_cchan Hcan) as (x' & Hx' & Hp & Hq & Hl). simplify_eq.
  assert (chan_of cs cc cpid cp) as Hch by (exists x; split; [done|split; [done|exact (hs_cport Hcan)]]).
  rewrite (check_None _ _ _ _ _ (announce_eq cc cpid cp cs Hcl Hch)) in Hrun.
  rewrite (enqueued_chan _ _ x) in Hrun by done. rewrite Hq in Hrun. cbn [app] in Hrun.
  change (setup_anns cp ++ [AConnect]) with (AInit :: (tail (setup_anns cp) ++ [AConnect])) in Hrun.
  set (todo := tail (setup_anns cp) ++ [AConnect]) in *. rewrite fmap_cons in Hrun.
  set (x1 := set_msgQueue (ann_msg cs cp AInit :: (ann_msg cs cp <$> todo)) x) in *.
  pose proof (sendMsg_calls (os := os) cc x1 (ann_msg cs cp AInit) (ann_msg cs cp <$> todo) _ w
    (lookup_set_chan cc _ cs) eq_refl (ann_msg_nonempty AInit)) as Hcalls.
  destruct (callsM_run _ _ _ _ Hcalls) as (err & s' & w'' & l' & Hrun' & Ht' & Hs' & Hl').
  rewrite Hrun in Hrun'. injection Hrun' as <- <- <-. rewrite Ht in Ht'. apply app_inv_head in Ht' as <-.
  apply (phase_sent _ _ [] AInit todo); try done.
  - rewrite Hs', set_chan_set_chan. eexists. split; [apply lookup_set_chan|].
    repeat (split; [done|]). exact (hs_cport Hcan).
  - rewrite Hto, Hl'. unfold sent_on. cbn. by rewrite Z.eqb_refl.
Qed.

Lemma connect_type : read_type last_announcement.1 = msgTypeConnect.
Proof using. unfold last_announcement. cbn [packet_of fst ann_msg Buffer]. 
  rewrite <- (app_nil_r (write_msg _)). by rewrite read_type_write. Qed.

(** An announcement that another one follows is part of the setup. *)
Lemma not_last done a b todo :
  setup_anns cp ++ [AConnect] = done ++ a :: b :: todo -> exists t0, setup_anns cp = done ++ a :: t0.
Proof using.
  intros E. destruct (exists_last (l := b :: todo)) as (t0 & z & Hz); [done|].
  rewrite Hz, app_comm_cons, app_assoc in E. apply app_inj_tail in E as [E _]. by exists t0.
Qed.

(** Every announcement fits in a datagram. *)
Lemma ann_msg_fits done a t0 :
  setup_anns cp = done ++ a :: t0 -> zlen (Buffer (ann_msg cs cp a)) <= msgSize.
Proof using Hcan.
  intros E. pose proof (setup_inv done a t0 E) as Ha. pose proof (hs_client Hcan) as Hcl.
  pose proof (cr_regions _ Hcl). pose proof (cr_pairs _ Hcl).
  destruct a as [|i rg|t i q|]; [| | |done]; cbn [ann_msg Buffer]; rewrite zlen_write_msg; try apply msg_fits.
  - apply init_msg_ok, Hcl.
  - destruct Ha as [_ Hi]. apply lookup_lt_Some in Hi as Hlt.
    destruct (cr_region _ Hcl rg); [by eapply list_elem_of_lookup_2|]. unfold zlen in *.
    split; cbn; unfold in_width; lia.
  - destruct Ha as [_ Hi]. apply lookup_lt_Some in Hi. pose proof (cr_count _ Hcl t).
    apply ring_msg_ok. lia.
Qed.

Lemma server_at_chan done s : server_at done s -> is_Some (ccs s !! sc).
Proof using Hcan.
  destruct done; cbn [server_at]; [intros ->; destruct (hs_schan Hcan) as (x & Hx & _); by exists x|].
  intros [(x & Hx & _) _]. by exists x.
Qed.

(** In every phase but the last, the datagram in flight is handled, and leads to
    the next phase. *)
Lemma phase_deliver k n :
  phase k n ->
  (to_srv n = [last_announcement] /\ to_cli n = [] /\ k = (2 * length (setup_anns cp))%nat /\
     server_at (setup_anns cp) (srv n)) \/
  (exists pk, to_srv n = [pk] /\ to_cli n = [] /\ (k < 2 * length (setup_anns cp))%nat /\
     read_type pk.1 <> msgTypeConnect /\ zlen pk.1 <= msgSize /\ is_Some (ccs (srv n) !! sc) /\
     forall r, carries pk r -> exists s' out, handled sc (srv n) r s' out /\
       phase (S k) (mkNet (cli n) s' [] out)) \/
  (exists pk, to_srv n = [] /\ to_cli n = [pk] /\ (k < 2 * length (setup_anns cp))%nat /\
     zlen pk.1 <= msgSize /\ is_Some (ccs (cli n) !! cc) /\
     forall r, carries pk r -> exists s' out, handled cc (cli n) r s' out /\
       phase (S k) (mkNet s' (srv n) out [])).
Proof using Hcan.
  intros [done a todo E -> Hs Hc Ht Hf|done a todo E Hk Hs Hc Ht Hf].
  - destruct todo as [|b todo].
    + left. apply app_inj_tail in E as [<- <-]. by rewrite Ht.
    + right. left. eexists. split; [done|]. split; [done|].
      destruct (not_last _ _ _ _ E) as (t0 & E0). pose proof (setup_inv done a t0 E0) as Hi.
      split; [rewrite E0, length_app; cbn [length]; lia|]. split.
      { cbn [packet_of fst]. rewrite <- (app_nil_r (Buffer _)).
        destruct a; [| | |done]; cbn [ann_msg Buffer]; by rewrite read_type_write. }
      split; [by eapply ann_msg_fits|]. split; [by eapply server_at_chan|].
      intros r Hr. destruct (server_handled done a t0 (srv n) r E0 Hs Hr) as (s' & Hh & Hat).
      exists s', [ack]. split; [done|]. eapply (phase_acked _ _ (done ++ [a]) b todo); try done.
      * by rewrite E, <- app_assoc.
      * rewrite length_app. cbn [length]. lia.
  - right. right. exists ack. split; [done|]. split; [done|]. split.
    { apply (f_equal length) in E. rewrite !length_app in E. cbn [length] in E. lia. }
    split; [done|]. split; [destruct Hc as (x & Hx & _); by exists x|].
    intros r Hr. destruct (client_handled a todo (cli n) r Hc Hr) as (s' & Hh & Hat).
    exists s', [packet_of (ann_msg cs cp a)]. split; [done|]. by eapply (phase_sent _ _ done a todo).
Qed.

Lemma phase_step k n n' : phase k n -> net_step n n' -> phase (S k) n'.
Proof using Hcan.
  intros Hp Hstep. destruct (phase_deliver k n Hp) as
    [(Ht & Hf & _)|[(pk & Ht & Hf & _ & _ & _ & _ & Hd)|(pk & Ht & Hf & _ & _ & _ & Hd)]];
    destruct Hstep as [n k0 rest r s' out E Hty Hr Hrcv|n k0 rest r s' out E Hr Hrcv]; rewrite ?Ht, ?Hf in *; try done;
    injection E as <- <-.
  - destruct Hty. apply connect_type.
  - destruct (Hd r Hr) as (s1 & out1 & Hh & Hph). by destruct (handled_receives _ _ _ _ _ _ _ _ Hh Hrcv) as (-> & ->).
  - destruct (Hd r Hr) as (s1 & out1 & Hh & Hph). by destruct (handled_receives _ _ _ _ _ _ _ _ Hh Hrcv) as (-> & ->).
Qed.

Lemma phase_steps j k n n' : nsteps net_step k n n' -> phase j n -> phase (k + j) n'.
Proof using Hcan.
  intros Hs. revert j. induction Hs as [n|k n n1 n' Hstep _ IH]; intros j Hp; [done|].
  replace (S k + j)%nat with (k + S j)%nat by lia. by eapply IH, phase_step.
Qed.

Lemma reachable_phase k n0 n : initial n0 -> nsteps net_step k n0 n -> phase k n.
Proof using Hcan.
  intros H0 Hs. rewrite <- (Nat.add_0_r k). by eapply phase_steps, initial_phase.
Qed.

(** Every descriptor can be passed. *)
Definition dup_total : Prop := forall n, exists n', n' <> -1 /\ dup n n'.

Lemma carried pk : dup_total -> zlen pk.1 <= msgSize -> exists r, carries pk r.
Proof using.
  intros Hdup Hl.
  assert (exists ms, forall n, pk.2 = Some n -> exists n', ms = [right_to n'] /\ n' <> -1 /\ dup n n') as [ms Hms].
  { destruct pk.2 as [n|]; [|by exists []]. destruct (Hdup n) as (n' & Hn & Hd).
    exists [right_to n']. intros ? [= <-]. by exists n'. }
  exists (mkReceived msgSize (datagram pk.1) (inl ms)). split; cbn [rcv_size rcv_data rcv_control].
  - done.
  - unfold datagram. by rewrite zlen_go_copy, zlen_zeros.
  - eexists. unfold datagram. by rewrite (go_copy_short (zeros msgSize)).
  - intros n Hn. destruct (Hms n Hn) as (n' & -> & Hne & Hd). by exists [right_to n'], n'.
Qed.

(** A kernel that delivers [r] and sends everything. *)
Lemma handled_runs c s r s' out :
  handled c s r s' out -> is_Some (ccs s !! c) -> receives c s r None s' out.
Proof using.
  intros Hh [x Hx]. set (w := @mkWorld (traced demo_os) ∅ ([], mkDemo 0 [] [r])).
  destruct (Hh demo_os w x Hx eq_refl) as (err & w' & l & Hrun & Ht & <- & _ & Hup).
  rewrite Hup in Hrun by done. exists demo_os, w, w', x, l. done.
Qed.

Lemma phase_next k n :
  dup_total -> phase k n -> (k < 2 * length (setup_anns cp))%nat -> exists n', net_step n n'.
Proof using Hcan.
  intros Hdup Hp Hk. destruct (phase_deliver k n Hp) as
    [(_ & _ & -> & _)|[(pk & Ht & Hf & _ & Hty & Hl & Hc & Hd)|(pk & Ht & Hf & _ & Hl & Hc & Hd)]]; [lia|..];
    destruct (carried pk Hdup Hl) as (r & Hr); destruct (Hd r Hr) as (s' & out & Hh & _).
  - eexists. eapply srv_step; [done|done|done|]. by apply handled_runs.
  - eexists. eapply cli_step; [done|done|]. by apply handled_runs.
Qed.

Lemma reaches k n0 :
  dup_total -> initial n0 -> (k <= 2 * length (setup_anns cp))%nat -> exists n, nsteps net_step k n0 n.
Proof using Hcan.
  intros Hdup Hinit. induction k as [|k IH]; intros Hk; [exists n0; constructor|].
  destruct IH as [n Hn]; [lia|]. destruct (phase_next k n Hdup) as [n' Hn']; [by eapply reachable_phase|lia|].
  exists n'. replace (S k) with (k + 1)%nat by lia. eapply nsteps_trans; [done|]. by apply nsteps_once.
Qed.
End ends.
End net.

(** ** What is announced in all *)

Lemma omap_imap_Some {A} (f : ann -> option A) (g : nat -> A -> ann) l :
  (forall i x, f (g i x) = Some x) -> omap f (imap g l) = l.
Proof.
  revert g. induction l as [|x l IH]; intros g Hg; [done|]. cbn. rewrite Hg. f_equal.
  apply IH. intros. apply Hg.
Qed.

Lemma omap_imap_None {A B} (f : ann -> option A) (g : nat -> B -> ann) l :
  (forall i x, f (g i x) = None) -> omap f (imap g l) = [].
Proof.
  revert g. induction l as [|x l IH]; intros g Hg; [done|]. cbn. rewrite Hg.
  apply IH. intros. apply Hg.
Qed.

Lemma setup_regions p : omap ann_region (setup_anns p) = regions p.
Proof.
  unfold setup_anns, region_anns, ring_anns. cbn. rewrite !omap_app.
  rewrite (omap_imap_None _ (ARing ringTypeS2M)), (omap_imap_None _ (ARing ringTypeM2S)) by done.
  rewrite !app_nil_r. by apply omap_imap_Some.
Qed.

Lemma setup_queues t p : omap (ann_queue t) (setup_anns p) = client_queues t p.
Proof.
  unfold setup_anns, region_anns, ring_anns. cbn. destruct t; rewrite !omap_app;
    rewrite (omap_imap_None _ ARegion) by done; cbn.
  - rewrite (omap_imap_None _ (ARing ringTypeM2S)), app_nil_r by done. by apply omap_imap_Some.
  - rewrite (omap_imap_None _ (ARing ringTypeS2M)) by done. by apply omap_imap_Some.
Qed.

Lemma length_setup p :
  client_ready p ->
  length (setup_anns p) = (1 + length (regions p) + 2 * Z.to_nat (NumQueuePairs (run_ p)))%nat.
Proof.
  intros Hp. unfold setup_anns, region_anns, ring_anns. cbn [length]. rewrite !length_app, !length_imap.
  rewrite !(cr_count _ Hp). lia.
Qed.

(** ** Theorems *)

(** C9: the announcements run in lockstep, for every number of regions and queue
    pairs and whatever the kernels do: after each delivery exactly one datagram is
    in flight; whoever is to receive it, and however its kernel pads it and
    numbers the descriptor in it, the handler returns, and its only possible error
    is that the kernel refuses to send the answer; after two deliveries per
    announcement only the connect message is in flight. *)
Theorem handshake_lockstep `{Callbacks} `{ErrnoText} dup cs ss cc cpid sc spid cp sp k n0 n :
  can_shake cs ss cc cpid sc spid cp sp -> initial cs ss cc cp n0 ->
  nsteps (net_step dup cc sc) k n0 n ->
  let last := (2 * (1 + length (regions cp) + 2 * Z.to_nat (NumQueuePairs (run_ cp))))%nat in
  (k <= last)%nat /\
  ((k = last /\ to_srv n = [last_announcement cs cp] /\ to_cli n = []) \/
   (exists pk, (k < last)%nat /\ to_srv n = [pk] /\ to_cli n = [] /\
      forall r, carries dup pk r -> exists s' out, handled sc (srv n) r s' out) \/
   (exists pk, (k < last)%nat /\ to_srv n = [] /\ to_cli n = [pk] /\
      forall r, carries dup pk r -> exists s' out, handled cc (cli n) r s' out)).
Proof.
  intros Hcan Hinit Hs. cbv zeta. rewrite <- (length_setup cp) by apply Hcan.
  pose proof (reachable_phase dup cs ss cc cpid sc spid cp sp Hcan k n0 n Hinit Hs) as Hp.
  destruct (phase_deliver _ _ _ _ _ _ _ _ _ Hcan k n Hp) as
    [(Ht & Hf & -> & _)|[(pk & Ht & Hf & Hk & _ & _ & _ & Hd)|(pk & Ht & Hf & Hk & _ & _ & Hd)]].
  - split; [done|]. by left.
  - split; [lia|]. right; left. exists pk. repeat (split; [done|]). intros r Hr.
    destruct (Hd r Hr) as (s' & out & Hh & _). eauto.
  - split; [lia|]. right; right. exists pk. repeat (split; [done|]). intros r Hr.
    destruct (Hd r Hr) as (s' & out & Hh & _). eauto.
Qed.

(** C7: when only the connect message is left, the server's port mirrors the
    client's: it has the client's regions, in order, with their sizes and with
    descriptors the kernel made from the client's, not mapped yet; a receive queue
    per client-to-server ring and a transmit queue per server-to-client ring,
    each with the ring's size and offset, the peer's eventfd and counters at zero;
    everything else in the port is as it was bound to the channel. *)
Theorem handshake_mirrors `{Callbacks} `{ErrnoText} dup cs ss cc cpid sc spid cp sp k n0 n :
  can_shake cs ss cc cpid sc spid cp sp -> initial cs ss cc cp n0 ->
  nsteps (net_step dup cc sc) k n0 n -> to_srv n = [last_announcement cs cp] ->
  chan_idle (srv n) sc (Some spid) /\
  exists p, ports (srv n) !! spid = Some p /\
    Forall2 (region_peer dup) (regions cp) (regions p) /\
    Forall2 (queue_peer dup spid ringTypeS2M) (client_queues ringTypeS2M cp) (rxQueues p) /\
    Forall2 (queue_peer dup spid ringTypeM2S) (client_queues ringTypeM2S cp) (txQueues p) /\
    set_regions [] (set_rxQueues [] (set_txQueues [] p)) = accepted sc (init_msg cs cp) sp.
Proof.
  intros Hcan Hinit Hs Hlast.
  pose proof (reachable_phase dup cs ss cc cpid sc spid cp sp Hcan k n0 n Hinit Hs) as Hp.
  destruct (phase_deliver _ _ _ _ _ _ _ _ _ Hcan k n Hp) as
    [(_ & _ & _ & Hat)|[(pk & Ht & _ & _ & Hty & _)|(pk & Ht & _ & _ & _)]].
  - destruct Hat as (Hi & p & Hport & [H1 H2 H3 H4]). split; [done|]. exists p.
    by rewrite setup_regions in H1; rewrite setup_queues in H2, H3.
  - rewrite Hlast in Ht. injection Ht as <-. destruct Hty. apply connect_type.
  - by rewrite Hlast in Ht.
Qed.

(** C10: the handshake can complete: when every descriptor can be passed, there is
    an exchange without error that ends with only the connect message left, after
    two deliveries for init, for each region and for each ring. *)
Theorem handshake_completes `{Callbacks} `{ErrnoText} dup cs ss cc cpid sc spid cp sp n0 :
  can_shake cs ss cc cpid sc spid cp sp -> initial cs ss cc cp n0 -> dup_total dup ->
  exists n,
    nsteps (net_step dup cc sc)
      (2 * (1 + length (regions cp) + 2 * Z.to_nat (NumQueuePairs (run_ cp)))) n0 n /\
    to_srv n = [last_announcement cs cp] /\ to_cli n = [].
Proof.
  intros Hcan Hinit Hdup. rewrite <- (length_setup cp) by apply Hcan.
  destruct (reaches dup cs ss cc cpid sc spid cp sp Hcan _ n0 Hdup Hinit (le_n _)) as [n Hn].
  exists n. split; [done|].
  pose proof (reachable_phase dup cs ss cc cpid sc spid cp sp Hcan _ n0 n Hinit Hn) as Hp.
  destruct (phase_deliver _ _ _ _ _ _ _ _ _ Hcan _ n Hp) as
    [(Ht & Hf & _)|[(pk & _ & _ & Hk & _)|(pk & _ & _ & Hk & _)]]; [done|lia..].
Qed.

(** A client with one region and one queue pair; descriptors are renumbered by
    adding 100. *)
Definition shake_m2s : Queue := mkQueue (mkRing ringTypeM2S 2 1 0 (zeros 128) 160) 0 0 0 10.
Definition shake_s2m : Queue := mkQueue (mkRing ringTypeS2M 2 1 0 (zeros 128) 0) 0 0 0 9.
Definition shake_client : Port :=
  set_run (mkMemoryConfig 1 1 4) (set_regions [mkRegion (Some (mkSlice 3 0 336)) 336 3 320]
    (set_txQueues [shake_s2m] (set_rxQueues [shake_m2s] (idle_port false (zeros 24))))).
Definition shake_server : Port := idle_port true (zeros 24).
Definition shake_cs : state := small_state shake_client (small_chan (Some 0%nat) (zeros 128) []).
Definition shake_ss : state := small_state shake_server (small_chan None (zeros 128) []).
Definition shift_fd (n n' : Z) : Prop := n' = Z.abs n + 100.

Lemma shift_total : dup_total shift_fd.
Proof. intros n. exists (Z.abs n + 100). split; [lia|done]. Qed.

Lemma shake_ready : client_ready shake_client.
Proof.
  split; try done.
  - intros r [->|Hr]%elem_of_cons; [done|by apply elem_of_nil in Hr].
  - by intros [].
  - intros [] q [->|Hq]%elem_of_cons; try done; by apply elem_of_nil in Hq.
Qed.

Lemma shake_can : can_shake shake_cs shake_ss 1 0 1 0 shake_client shake_server.
Proof.
  split; try done; [exact shake_ready|by eexists|by eexists|by repeat constructor].
Qed.

(** The client has sent init. *)
Definition shake_net : net :=
  let queue := ann_msg shake_cs shake_client <$> (setup_anns shake_client ++ [AConnect]) in
  mkNet (set_chan 1 (set_msgQueue (tail queue) (small_chan (Some 0%nat) (zeros 128) [])) shake_cs) shake_ss
    (packet_of <$> take 1 queue) [].

Lemma shake_initial : initial shake_cs shake_ss 1 shake_client shake_net.
Proof.
  exists demo_os, (@mkWorld (traced demo_os) ∅ ([], mkDemo 0 [] [])).
  eexists _, (small_chan (Some 0%nat) (zeros 128) []), _. split; [reflexivity|].
  split; [vm_compute; reflexivity|]. split; [reflexivity|]. by vm_compute.
Qed.

Lemma handshake_lockstep_witness :
  initial shake_cs shake_ss 1 shake_client shake_net /\
  ((0 <= 8)%nat /\
   ((0%nat = 8%nat /\ to_srv shake_net = [last_announcement shake_cs shake_client] /\ to_cli shake_net = []) \/
    (exists pk, (0 < 8)%nat /\ to_srv shake_net = [pk] /\ to_cli shake_net = [] /\
       forall r, carries shift_fd pk r -> exists s' out, handled 1 (srv shake_net) r s' out) \/
    (exists pk, (0 < 8)%nat /\ to_srv shake_net = [] /\ to_cli shake_net = [pk] /\
       forall r, carries shift_fd pk r -> exists s' out, handled 1 (cli shake_net) r s' out))).
Proof.
  split; [exact shake_initial|].
  exact (handshake_lockstep shift_fd shake_cs shake_ss 1 0 1 0 shake_client shake_server 0 shake_net shake_net
           shake_can shake_initial (nsteps_O _ _)).
Defined.

Lemma handshake_mirrors_witness :
  exists n, nsteps (net_step shift_fd 1 1) 8 shake_net n /\ chan_idle (srv n) 1 (Some 0%nat) /\
  exists p, ports (srv n) !! 0%nat = Some p /\
    Forall2 (region_peer shift_fd) (regions shake_client) (regions p) /\
    Forall2 (queue_peer shift_fd 0 ringTypeS2M) [shake_s2m] (rxQueues p) /\
    Forall2 (queue_peer shift_fd 0 ringTypeM2S) [shake_m2s] (txQueues p) /\
    set_regions [] (set_rxQueues [] (set_txQueues [] p)) =
      accepted 1 (init_msg shake_cs shake_client) shake_server.
Proof.
  destruct (reaches shift_fd shake_cs shake_ss 1 0 1 0 shake_client shake_server shake_can 8 shake_net
              shift_total shake_initial) as [n Hn]; [done|].
  exists n. split; [exact Hn|].
  apply (handshake_mirrors shift_fd shake_cs shake_ss 1 0 1 0 shake_client shake_server 8 shake_net n
           shake_can shake_initial Hn).
  pose proof (reachable_phase shift_fd _ _ _ _ _ _ _ _ shake_can 8 _ _ shake_initial Hn) as Hp.
  by destruct (phase_deliver _ _ _ _ _ _ _ _ _ shake_can 8 n Hp) as
    [(Ht & _)|[(pk & _ & _ & Hk & _)|(pk & _ & _ & Hk & _)]];
    [|apply Nat.lt_irrefl in Hk|apply Nat.lt_irrefl in Hk].
Defined.

Lemma handshake_completes_witness :
  exists n, nsteps (net_step shift_fd 1 1) 8 shake_net n /\
    to_srv n = [last_announcement shake_cs shake_client] /\ to_cli n = [].
Proof.
  exact (handshake_completes shift_fd shake_cs shake_ss 1 0 1 0 shake_client shake_server shake_net
           shake_can shake_initial shift_total).
Defined.
