(* ===== verification/Connect.v ===== *)
(** * Connecting: from announcements to a working link

    [connect] maps the regions a port was told of, reads every ring's header and
    checks its cookie, then calls the application.  Its specification, for any
    kernel and any application, and what it gives the two ends of a handshake:
    rings that are linked and empty, on which the data path's theorems hold. *)
From stdpp Require Import base tactics list gmap strings.
From coqutil Require Import Byte.
From Stdlib Require Import ZArith Lia.
From S2P Require Import Prelude.
From S2P Require Import GoInt.
From S2P Require Import Shm.
From S2P Require Import Descriptor.
From S2P Require Import State.
From S2P Require Import Ring.
From S2P Require Import Queue.
From S2P Require Import Layout.
From S2P Require Import Link.
From S2P Require Import Fifo.
From S2P Require Import Region.
From S2P Require Import Demo.
From S2P Require Import Setup.
From S2P Require Import Heap.
From S2P Require Import Endpoint.
From S2P Require Import Protocol.
From S2P Require Import Lifecycle.
From S2P Require Import Handshake.

(** ** Mapping *)

Definition map_region (view : memoryRegion -> slice) (r : memoryRegion) : memoryRegion :=
  match data r with
  | Some _ => r
  | None => mkRegion (Some (view r)) (rsize r) (fd r) (packetBufferOffset r)
  end.

(** Mapping the regions of [rs] that are not mapped yet, one call each, whatever
    the kernel answers: [Q] holds of the regions then, and of the error that
    stopped it.  An empty region is refused without a call. *)
Definition mmap_error (e : errno) : goerror := Wrap "mmap" (ErrErrno e).

Fixpoint mapping `{OS} (rs : list memoryRegion) (w : world)
    (Q : list memoryRegion -> option goerror -> world -> Prop) : Prop :=
  match rs with
  | [] => Q [] None w
  | r :: rs =>
      match data r with
      | Some _ => mapping rs w (fun l => Q (r :: l))
      | None =>
          if int64 (rsize r) <=? 0 then Q (r :: rs) (Some (mmap_error EINVAL)) w
          else ask (SysMmap (fd r) (int64 (rsize r))) w (fun a w1 =>
            match a with
            | inr e => Q (r :: rs) (Some (mmap_error e)) w1
            | inl d => mapping rs w1 (fun l => Q (mkRegion (Some d) (rsize r) (fd r) (packetBufferOffset r) :: l))
            end)
      end
  end.

Lemma mapping_mono `{OS} rs w (Q R : list memoryRegion -> option goerror -> world -> Prop) :
  mapping rs w Q -> (forall l err w', Q l err w' -> R l err w') -> mapping rs w R.
Proof.
  revert w Q R. induction rs as [|r rs IH]; intros w Q R Hm HR; cbn in *; [by apply HR|].
  destruct (data r); [eapply IH; [exact Hm|]; cbn; eauto|].
  destruct (_ <=? _); [by apply HR|]. unfold ask in *.
  destruct (sys _ _ _) as [[[d|e] m] k]; [|by apply HR]. eapply IH; [exact Hm|]. cbn. eauto.
Qed.

(** The kernel maps every region of [rs] that is not mapped yet, as [view]. *)
Definition maps `{OS} (view : memoryRegion -> slice) (rs : list memoryRegion) : Prop :=
  forall r, r ∈ rs -> data r = None ->
    0 < int64 (rsize r) /\
    forall m k, exists k', sys (SysMmap (fd r) (int64 (rsize r))) m k = (inl (view r), m, k').

Lemma maps_mapping `{OS} view rs w (Q : list memoryRegion -> option goerror -> world -> Prop) :
  maps view rs -> mapping rs w Q -> exists w', shm w' = shm w /\ Q (map_region view <$> rs) None w'.
Proof.
  revert w Q. induction rs as [|r rs IH]; intros w Q Hv Hm; [by exists w|].
  assert (Hrest : maps view rs) by (intros r' Hin; apply Hv; by right).
  cbn in *. unfold map_region at 1. destruct (data r) as [d|] eqn:Hd; [by apply (IH w (fun l => Q (r :: l)))|].
  destruct (Hv r) as [Hsz Hsys]; [by left|done|]. rewrite (proj2 (Z.leb_gt _ _)) in Hm by lia.
  unfold ask in Hm. destruct (Hsys (shm w) (kernel w)) as [k' Hk]. rewrite Hk in Hm.
  by apply (IH (mkWorld (shm w) k') (fun l => Q (_ :: l))).
Qed.

(** ** Reading the headers *)

(** The header of [q]'s ring, in the memory as [p] maps it. *)
Definition header_of (m : mem) (p : Port) (q : Queue) : list byte :=
  match regions p !! Z.to_nat (rg_region (q_ring q)) with
  | Some reg => match data reg with
                | Some d => default [] (ld m (s_file d) (hdr q d) ringSize)
                | None => []
                end
  | None => []
  end.

Definition refreshed (m : mem) (p : Port) (q : Queue) : Queue :=
  set_ring (set_rb (header_of m p q) (q_ring q)) q.

Definition cookie_ok (m : mem) (p : Port) (q : Queue) : bool :=
  get32 ringCookieOffset (header_of m p q) =? cookie.

(** Its header lies in a mapped region. *)
Definition readable (m : mem) (p : Port) (q : Queue) : Prop :=
  exists d, ring_at p q d 0 /\ is_Some (ld m (s_file d) (hdr q d) ringSize) /\ ringBuf_wf (q_ring q).

(** The port with its regions mapped, and after a successful [connect]. *)
Definition with_views (view : memoryRegion -> slice) (p : Port) : Port :=
  set_regions (map_region view <$> regions p) p.

Definition refresh_queues (m : mem) (p : Port) : Port :=
  set_rxQueues (refreshed m p <$> rxQueues p) (set_txQueues (refreshed m p <$> txQueues p) p).

Definition connected (view : memoryRegion -> slice) (m : mem) (p : Port) : Port :=
  refresh_queues m (with_views view p).

Section connect.
Context {os : OS} {cb : Callbacks} (pid : nat).
Implicit Types (w : world) (s : state) (p : Port).

Lemma map_regions_outcome done rest p s w :
  ports s !! pid = Some p -> regions p = done ++ rest ->
  mapping rest w (fun rs err w' =>
    run (map_regions pid (length rest) (length done) s) w =
      Done (err, set_port pid (set_regions (done ++ rs) p) s) w').
Proof using.
  revert done p s w. induction rest as [|r rest IH]; intros done p s w Hp Hr.
  - cbn. rewrite <- Hr. rewrite <- (set_port_same pid p s) at 1 by done. do 3 f_equal. by destruct p.
  - cbn [length map_regions mapping].
    erewrite M_bind_ret by (by apply get_port_eq). rewrite Hr, list_lookup_middle by done.
    replace (S (length done)) with (length (done ++ [r])) by (rewrite length_app; simpl; lia).
    assert (Hp0 : set_port pid (set_regions (done ++ r :: rest) p) s = s).
    { rewrite <- Hr. rewrite <- (set_port_same pid p s) at 2 by done. f_equal. by destruct p. }
    destruct (data r) as [d|] eqn:Hd.
    + eapply mapping_mono; [apply (IH (done ++ [r]) p); [done|by rewrite <- app_assoc]|].
      intros l err w' Hrun. by rewrite Hrun, <- app_assoc.
    + unfold Mmap. destruct (_ <=? _); [by rewrite Hp0|].
      unfold ask. destruct (sys _ _ _) as [[a m] k] eqn:Hs. erewrite run_sys by exact Hs.
      destruct a as [d|e]; [|by rewrite Hp0].
      set (r' := mkRegion (Some d) (rsize r) (fd r) (packetBufferOffset r)).
      set (p2 := set_region_data (length done) (Some d) p).
      assert (regions p2 = (done ++ [r']) ++ rest) as Hr2.
      { unfold p2, set_region_data. cbn. rewrite Hr, <- app_assoc.
        rewrite <- (Nat.add_0_r (length done)), alter_app_r. done. }
      erewrite M_bind_ret by (by apply mod_port_eq). fold p2.
      replace (length (done ++ [r])) with (length (done ++ [r'])) by (by rewrite !length_app).
      eapply mapping_mono; [apply (IH (done ++ [r']) p2); [apply lookup_set_port|done]|].
      intros l err w' Hrun. by rewrite Hrun, set_port_set_port, <- app_assoc.
Qed.

(** *** The headers *)

Lemma wp_updateRing p q w (Q : Queue -> world -> Prop) :
  readable (shm w) p q -> Q (refreshed (shm w) p q) w -> wp (updateRing p q) w Q.
Proof using.
  intros (d & Hat & [bs Hbs] & Hwf) HQ'. unfold updateRing. pose proof (ra_len _ _ _ _ Hat) as Hlen.
  pose proof (ra_off _ _ _ _ Hat). unfold ringBuf_wf in Hwf.
  assert (header_of (shm w) p q = bs) as Hh.
  { destruct (ra_data _ _ _ _ Hat) as (reg & Hl & Hd). unfold header_of. rewrite Hl, Hd. by rewrite Hbs. }
  unfold refreshed in HQ'. rewrite Hh in HQ'. unfold ringSize in *.
  apply wp_bind, (wp_ring_data_from p q d 0 Hat); [lay|]. apply wp_bind.
  eapply wp_copy_from; simpl.
  - rewrite Hwf, Z.min_l by lay. rewrite Z.add_0_r. exact Hbs.
  - rewrite go_copy_same by (rewrite Hwf; by apply ld_zlen in Hbs). exact HQ'.
Qed.

Lemma cookie_refreshed m p q : RingBuf.getCookie (q_ring (refreshed m p q)) = get32 ringCookieOffset (header_of m p q).
Proof using. done. Qed.

(** [check_tx] and [check_rx] are one loop, on either list of the port. *)
Record queue_loop (get : Port -> list Queue) (set : list Queue -> Port -> Port)
    (loop : nat -> nat -> M (option goerror)) : Prop := {
  ql_get : forall l p, get (set l p) = l;
  ql_regions : forall l p, regions (set l p) = regions p;
  ql_set : forall l l' p, set l (set l' p) = set l p;
  ql_same : forall p, set (get p) p = p;
  ql_done : forall qid, loop O qid = mret None;
  ql_next : forall k qid, loop (S k) qid =
    (p ← get_port pid;
     match get p !! qid with
     | None => raise IndexOutOfRange
     | Some q =>
         q ← lift (updateRing p q);
         put_port pid (set (<[qid := q]> (get p)) p) ;;
         if RingBuf.getCookie (q_ring q) =? cookie then loop k (S qid)
         else mret (Some (Err "wrong cookie"))
     end)
}.

Lemma tx_loop : queue_loop txQueues set_txQueues (check_tx pid).
Proof using. split; try done. by intros []. Qed.

Lemma rx_loop : queue_loop rxQueues set_rxQueues (check_rx pid).
Proof using. split; try done. by intros []. Qed.

Lemma readable_regions m p p' q : regions p = regions p' -> readable m p q -> readable m p' q.
Proof using.
  intros Hr (d & Hat & Hx). exists d. split; [|done]. destruct Hat; split; try done. by rewrite <- Hr.
Qed.

Lemma wp_check_queues get set loop p0 done rest p s w :
  queue_loop get set loop ->
  ports s !! pid = Some p -> get p = done ++ rest -> regions p = regions p0 ->
  (forall q, q ∈ rest -> readable (shm w) p0 q) ->
  wpM (loop (length rest) (length done)) s w (fun err s' w' =>
    w' = w /\
    if forallb (cookie_ok (shm w) p0) rest
    then err = None /\ s' = set_port pid (set (done ++ (refreshed (shm w) p0 <$> rest)) p) s
    else err = Some (Err "wrong cookie") /\ exists l, s' = set_port pid (set l p) s).
Proof using.
  intros Hf. revert done p s. induction rest as [|q rest IH]; intros done p s Hp Hq Hreg Hread.
  - cbn [length]. rewrite (ql_done _ _ _ Hf). apply wpM_ret. split; [done|]. split; [done|].
    cbn [fmap list_fmap]. rewrite <- Hq. by rewrite (ql_same _ _ _ Hf), set_port_same.
  - cbn [length forallb fmap list_fmap]. rewrite (ql_next _ _ _ Hf). apply wpM_bind. eapply wpM_get_port; [done|].
    rewrite Hq, list_lookup_middle by done. apply wpM_bind, wpM_lift.
    apply wp_updateRing; [eapply readable_regions; [symmetry; exact Hreg|apply Hread; by left]|].
    replace (refreshed (shm w) p q) with (refreshed (shm w) p0 q) by (unfold refreshed, header_of; by rewrite Hreg).
    apply wpM_bind, wpM_modify. rewrite cookie_refreshed. unfold cookie_ok at 1.
    destruct (_ =? _); [|split; [done|split; [done|by eexists]]]. cbn [andb]. set (q1 := refreshed (shm w) p0 q).
    replace (S (length done)) with (length (done ++ [q1])) by (rewrite length_app; simpl; lia).
    eapply wpM_mono; [eapply IH; [apply lookup_set_port| | |intros; apply Hread; by right]|].
    { rewrite (ql_get _ _ _ Hf), <- app_assoc, insert_app_r_alt, Nat.sub_diag by done. done. }
    { by rewrite (ql_regions _ _ _ Hf). }
    intros err s' w' [Hw Hpost]. split; [done|]. destruct (forallb _ _).
    + destruct Hpost as [-> ->]. split; [done|].
      by rewrite set_port_set_port, (ql_set _ _ _ Hf), <- app_assoc.
    + destruct Hpost as (-> & l & ->). split; [done|]. exists l. by rewrite set_port_set_port, (ql_set _ _ _ Hf).
Qed.

(** The same as an outcome, from the first queue. *)
Lemma check_queues_outcome get set loop p s w :
  queue_loop get set loop -> ports s !! pid = Some p ->
  (forall q, q ∈ get p -> readable (shm w) p q) ->
  if forallb (cookie_ok (shm w) p) (get p)
  then run (loop (length (get p)) 0%nat s) w = Done (None, set_port pid (set (refreshed (shm w) p <$> get p) p) s) w
  else exists l, run (loop (length (get p)) 0%nat s) w = Done (Some (Err "wrong cookie"), set_port pid (set l p) s) w.
Proof using.
  intros Hf Hp Hread. pose proof (wp_check_queues get set loop p [] (get p) p s w Hf Hp eq_refl eq_refl Hread) as Hwp.
  unfold wpM in Hwp. apply wp_done in Hwp as ([err s'] & w' & Hrun & -> & Hpost). cbn [length app] in *.
  destruct (forallb _ _); [by destruct Hpost as [-> ->]|]. destruct Hpost as (-> & l & ->). by exists l.
Qed.

(** Once the regions are mapped: [connect] from the check of the first ring on. *)
Lemma connect_mapped p s w :
  ports s !! pid = Some p -> (forall q, q ∈ txQueues p ++ rxQueues p -> readable (shm w) p q) ->
  let rest : M (option goerror) :=
    p ← get_port pid;
    try check_tx pid (length (txQueues p)) 0 ;;
    p ← get_port pid;
    try check_rx pid (length (rxQueues p)) 0 ;;
    p ← get_port pid;
    call (ConnectedFunc (cfg p)) pid in
  if forallb (cookie_ok (shm w) p) (txQueues p ++ rxQueues p)
  then run (rest s) w = run (call (ConnectedFunc (cfg p)) pid (set_port pid (refresh_queues (shm w) p) s)) w
  else exists tx rx, run (rest s) w =
         Done (Some (Err "wrong cookie"), set_port pid (set_rxQueues rx (set_txQueues tx p)) s) w.
Proof using.
  intros Hp Hread rest. unfold rest. erewrite M_bind_ret by (by apply get_port_eq).
  rewrite run_check, forallb_app.
  pose proof (check_queues_outcome _ _ _ p s w tx_loop Hp) as Htx.
  destruct (forallb _ (txQueues p)); cbn [andb].
  2: { destruct Htx as [l ->]; [intros; apply Hread, elem_of_app; by left|]. exists l, (rxQueues p). by destruct p. }
  rewrite Htx by (intros; apply Hread, elem_of_app; by left). cbn [obind].
  set (p2 := set_txQueues _ p). erewrite M_bind_ret by apply get_port_eq, lookup_set_port. rewrite run_check.
  pose proof (check_queues_outcome _ _ _ p2 (set_port pid p2 s) w rx_loop (lookup_set_port _ _ _)) as Hrx.
  change (cookie_ok (shm w) p2) with (cookie_ok (shm w) p) in Hrx.
  change (refreshed (shm w) p2) with (refreshed (shm w) p) in Hrx.
  change (rxQueues p2) with (rxQueues p) in *.
  assert (Hr2 : forall q, q ∈ rxQueues p -> readable (shm w) p2 q).
  { intros q Hq. apply (readable_regions _ p); [done|]. apply Hread, elem_of_app. by right. }
  destruct (forallb _ (rxQueues p)).
  - rewrite (Hrx Hr2). cbn [obind]. erewrite M_bind_ret by apply get_port_eq, lookup_set_port.
    by rewrite set_port_set_port.
  - destruct (Hrx Hr2) as [l ->]. eexists _, l. by rewrite set_port_set_port.
Qed.
End connect.

(** ** The two ends of a one-pair link *)

Section ends.
Context (mc : MemoryConfig) (Hmc : one_pair mc) (d : slice).
Context (Hd : s_len d = rings_bytes mc + buffers_bytes mc).
Implicit Types (p : Port) (q : Queue) (m : mem).

(** [q] is an end of direction [t]: the client's ring, whatever the private
    header. *)
Definition end_of (t : ringType) (q : Queue) : Prop :=
  exists b, q_ring q = set_rb b (client_ring mc t) /\ zlen b = ringSize.

Lemma end_readable m p t q p0 :
  sees_region d p -> end_of t q ->
  fresh_ring m p0 d (ring_offset mc t 0) (2 ^ Log2RingSize mc) (rings_bytes mc) ->
  readable m p q /\ header_of m p q = fresh_header.
Proof using Hmc Hd.
  intros Hp (b & Hq & Hb) [Hh _]. pose proof (ring_end_at mc Hmc d Hd p q t b Hp Hq) as Hat.
  assert (ld m (s_file d) (hdr q d) ringSize = Some fresh_header) as Hld.
  { rewrite <- Hh. unfold hdr. by rewrite Hq. }
  split.
  - exists d. split; [|split; [by rewrite Hld|unfold ringBuf_wf; by rewrite Hq]].
    pose proof (op_slots mc Hmc). destruct Hat as [? ? ? Hlen ?]. split; try done. unfold descSize in *. lia.
  - destruct Hp as (reg & Hg & Hdata). unfold header_of. rewrite Hq. cbn [rg_region set_rb client_ring].
    change (Z.to_nat 0) with 0%nat. by rewrite Hg, Hdata, Hld.
Qed.

Lemma end_refreshed m p t q p0 :
  sees_region d p -> end_of t q ->
  fresh_ring m p0 d (ring_offset mc t 0) (2 ^ Log2RingSize mc) (rings_bytes mc) ->
  end_of t (refreshed m p q).
Proof using Hmc Hd.
  intros Hp Hq Hf. destruct (end_readable m p t q p0 Hp Hq Hf) as [_ Hh]. destruct Hq as (b & Hq & _).
  exists fresh_header. unfold refreshed. rewrite Hh. cbn. by rewrite Hq.
Qed.

(** The server's copy of a client's ring is an end of it. *)
Lemma peer_end dup pid t q q' :
  q_ring q = client_ring mc t -> queue_peer dup pid t q q' ->
  end_of t q' /\ lastHead q' = 0 /\ lastTail q' = 0.
Proof using Hmc.
  intros Hq (n & _ & ->). split; [|done]. exists (zeros ringSize). split; [|done].
  unfold peer_ring. rewrite Hq. pose proof (op_log mc Hmc).
  unfold client_ring, set_rb. cbn. f_equal. apply int_shl1_small. lia.
Qed.
(** A client port as [initializeQueues] leaves it, in memory [m]. *)
Record prepared (p : Port) (m : mem) : Prop := {
  pr_run : run_ p = mc;
  pr_client : IsServer (cfg p) = false;
  pr_region : exists sz f, regions p = [mkRegion (Some d) sz f (rings_bytes mc)];
  pr_tx : exists q, txQueues p = [q] /\ q_ring q = client_ring mc ringTypeS2M /\ lastHead q = 0;
  pr_rx : exists q, rxQueues p = [q] /\ q_ring q = client_ring mc ringTypeM2S /\ lastTail q = 0;
  pr_backed : backed m d;
  pr_fresh : forall t, fresh_ring m p d (ring_offset mc t 0) (2 ^ Log2RingSize mc) (rings_bytes mc)
}.

Lemma ready_prepared p0 p m :
  has_region mc d p0 -> IsServer (cfg p0) = false -> txQueues p0 = [] -> rxQueues p0 = [] ->
  queues_ready mc d p0 p m -> prepared p m.
Proof using.
  intros Hp0 Hs Htx Hrx (tq & rq & Ht & Hx & Hrg & Hcf & Hrn & H1 & H2 & H3 & H4 & Hq1 & Hq2 & Hb & _ & _ & F1 & F2).
  rewrite Htx in Ht. rewrite Hrx in Hx. pose proof (hr_run _ _ _ Hp0). pose proof (hr_reg _ _ _ Hp0) as (f & sz & Hg).
  assert (forall pbo i, slot_desc p pbo i = slot_desc p0 pbo i) as Hsd by (intros; unfold slot_desc; by rewrite Hrn).
  split.
  - congruence.
  - by rewrite Hcf.
  - exists sz, f. by rewrite Hrg.
  - by exists tq.
  - by exists rq.
  - done.
  - intros []; split; try apply F1; try apply F2; intros i Hi; rewrite Hsd; [by apply F1|by apply F2].
Qed.

(** Two ports on the region, each with an end of direction [t]. *)
Lemma ends_linked t pp pq cp cq :
  sees_region d pp -> sees_region d cp -> end_of t pq -> end_of t cq ->
  IsServer (cfg pp) = producer_is_server t -> IsServer (cfg cp) = negb (producer_is_server t) ->
  run_ (match t with ringTypeS2M => pp | ringTypeM2S => cp end) = mc -> PacketBufferSize mc < 65536 ->
  linked t (client_layout mc d t) pp pq cp (q_ring cq).
Proof using Hmc Hd.
  intros Hp Hc (b & Hpq & _) (b' & Hcq & _) Hps Hcs Hrun Hsz. split; try done.
  - by apply client_layout_wf.
  - exists d. by eapply ring_end_side.
  - exists d. intros q Hq. eapply ring_end_side; [done..|]. by rewrite Hq.
  - destruct t; rewrite Hrun; done.
Qed.
End ends.

(** The server's mirror of a client, as the handshake leaves it. *)
Definition mirrored (dup : Z -> Z -> Prop) (spid : nat) (cp sp : Port) : Prop :=
  Forall2 (region_peer dup) (regions cp) (regions sp) /\
  Forall2 (queue_peer dup spid ringTypeS2M) (txQueues cp) (rxQueues sp) /\
  Forall2 (queue_peer dup spid ringTypeM2S) (rxQueues cp) (txQueues sp).

(** ** Theorems *)

(** C15: connect, whatever the kernel answers and whatever the application's
    function does.  It maps the regions that are not mapped yet, in order; at the
    first mmap that fails it stops with that error, and the regions mapped so far
    stay mapped.  Then, if a ring has another cookie, it returns the cookie error
    without calling the application.  Otherwise every ring has its header
    refreshed from shared memory, and connect is the call of ConnectedFunc in that
    state: its result is connect's.  Shared memory is only read. *)
Theorem connect_spec `{OS} `{Callbacks} pid p s w :
  ports s !! pid = Some p ->
  mapping (regions p) w (fun rs failed w1 =>
    let p1 := set_regions rs p in
    match failed with
    | Some e => run (connect pid s) w = Done (Some e, set_port pid p1 s) w1
    | None =>
        (forall q, q ∈ txQueues p ++ rxQueues p -> readable (shm w1) p1 q) ->
        if forallb (cookie_ok (shm w1) p1) (txQueues p ++ rxQueues p)
        then run (connect pid s) w =
             run (call (ConnectedFunc (cfg p)) pid (set_port pid (refresh_queues (shm w1) p1) s)) w1
        else exists tx rx, run (connect pid s) w =
             Done (Some (Err "wrong cookie"), set_port pid (set_rxQueues rx (set_txQueues tx p1)) s) w1
    end).
Proof.
  intros Hp. eapply mapping_mono; [by apply (map_regions_outcome pid [] (regions p) p)|].
  intros rs failed w1 Hmap. cbn [app length] in Hmap. set (p1 := set_regions rs p) in *. cbv zeta.
  unfold connect. erewrite M_bind_ret by (by apply get_port_eq). rewrite run_check, Hmap. cbn [obind].
  destruct failed as [e|]; [done|]. intros Hread.
  pose proof (connect_mapped pid p1 (set_port pid p1 s) w1 (lookup_set_port _ _ _) Hread) as Hc. cbv zeta in Hc.
  change (txQueues p1 ++ rxQueues p1) with (txQueues p ++ rxQueues p) in Hc.
  destruct (forallb _ _).
  - rewrite Hc. by rewrite set_port_set_port.
  - destruct Hc as (tx & rx & Hc). exists tx, rx. by rewrite Hc, set_port_set_port.
Qed.

(** When every mmap succeeds and the application's function is quiet. *)
Lemma connect_quiet `{OS} `{!QuietCallbacks cb} view pid p s w n :
  ports s !! pid = Some p -> maps view (regions p) -> ConnectedFunc (cfg p) = UserFunc n ->
  (forall q, q ∈ txQueues p ++ rxQueues p -> readable (shm w) (with_views view p) q) ->
  forallb (cookie_ok (shm w) (with_views view p)) (txQueues p ++ rxQueues p) = true ->
  exists w', run (connect pid s) w = Done (None, set_port pid (connected view (shm w) p) s) w' /\ shm w' = shm w.
Proof.
  intros Hp Hm Hcb Hread Hck.
  pose proof (map_regions_outcome pid [] (regions p) p s w Hp eq_refl) as Hmap.
  apply (maps_mapping view) in Hmap as (w1 & Hw1 & Hmap); [|done]. cbn [app length] in Hmap.
  fold (with_views view p) in Hmap. unfold connect. erewrite M_bind_ret by (by apply get_port_eq).
  rewrite run_check, Hmap. cbn [obind]. rewrite <- Hw1 in *.
  pose proof (connect_mapped pid (with_views view p) (set_port pid (with_views view p) s) w1
    (lookup_set_port _ _ _) Hread) as Hc. cbv zeta in Hc.
  change (txQueues (with_views view p) ++ rxQueues (with_views view p)) with (txQueues p ++ rxQueues p) in Hc.
  rewrite Hck in Hc. rewrite Hc. cbn [cfg with_views set_regions]. rewrite Hcb. cbn [call].
  exists w1. split; [|done]. rewrite user_func_quiet. by rewrite set_port_set_port.
Qed.

(** A port with one region and one ring of each direction connects. *)
Lemma connect_pair `{OS} `{!QuietCallbacks cb} mc d pid p s w n m p0 t1 t2 q1 q2 :
  one_pair mc -> s_len d = rings_bytes mc + buffers_bytes mc ->
  ports s !! pid = Some p -> maps (fun _ => d) (regions p) -> ConnectedFunc (cfg p) = UserFunc n ->
  shm w = m -> sees_region d (with_views (fun _ => d) p) ->
  (forall t, fresh_ring m p0 d (ring_offset mc t 0) (2 ^ Log2RingSize mc) (rings_bytes mc)) ->
  txQueues p = [q1] -> rxQueues p = [q2] -> end_of mc t1 q1 -> end_of mc t2 q2 ->
  exists s' w' p', run (connect pid s) w = Done (None, s') w' /\ shm w' = m /\
    ports s' !! pid = Some p' /\ sees_region d p' /\ cfg p' = cfg p /\ run_ p' = run_ p /\
    exists q1' q2', txQueues p' = [q1'] /\ rxQueues p' = [q2'] /\ end_of mc t1 q1' /\ end_of mc t2 q2' /\
      lastHead q1' = lastHead q1 /\ lastTail q1' = lastTail q1 /\
      lastHead q2' = lastHead q2 /\ lastTail q2' = lastTail q2.
Proof.
  intros Hmc Hd Hp Hm Hcb Hw Hsees Hf Htx Hrx H1 H2. set (p1 := with_views (fun _ => d) p) in *.
  assert (Hq : forall t q, end_of mc t q -> readable m p1 q /\ cookie_ok m p1 q = true).
  { intros t q He. destruct (end_readable mc Hmc d Hd m p1 t q p0) as [Hr Hh]; [done..|].
    split; [done|]. unfold cookie_ok. by rewrite Hh. }
  destruct (connect_quiet (fun _ => d) pid p s w n Hp Hm Hcb) as (w' & Hrun & Hw').
  { rewrite Htx, Hrx, Hw. fold p1.
    intros q [->|[->|Hin]%elem_of_cons]%elem_of_cons; [by eapply Hq|by eapply Hq|by apply elem_of_nil in Hin]. }
  { rewrite Htx, Hrx, Hw. fold p1. cbn [app forallb]. by rewrite (proj2 (Hq _ _ H1)), (proj2 (Hq _ _ H2)). }
  rewrite Hw in Hrun, Hw'. set (s' := set_port pid _ s) in Hrun.
  assert (s' = set_port pid (connected (fun _ => d) m p) s) as Hs' by done.
  exists s', w', (connected (fun _ => d) m p). split; [done|]. split; [done|].
  split; [rewrite Hs'; apply lookup_set_port|]. split; [exact Hsees|]. split; [done|]. split; [done|].
  exists (refreshed m p1 q1), (refreshed m p1 q2). split.
  { unfold connected. fold p1. cbn. change (txQueues p1) with (txQueues p). by rewrite Htx. }
  split.
  { unfold connected. fold p1. cbn. change (rxQueues p1) with (rxQueues p). by rewrite Hrx. }
  split; [by eapply end_refreshed|]. by split; [eapply end_refreshed|].
Qed.

Lemma Forall2_singleton {A B} (R : A -> B -> Prop) x l : Forall2 R [x] l -> exists y, l = [y] /\ R x y.
Proof. intros H. inversion H as [|? y ? l' Hr Hn]; subst. inversion Hn; subst. by exists y. Qed.

(** C8: after the handshake of a one-pair configuration, connecting both ends
    gives a working link in each direction: the rings are linked through one
    layout of the client's region, and represent the empty FIFO, with a full lap
    of credit from client to server and none from server to client.  These are
    the hypotheses of the data path's theorems. *)
Theorem connect_links `{OS} `{!QuietCallbacks cb} mc d dup cpid cp cs wc spid sp ss ws m a b :
  one_pair mc -> PacketBufferSize mc < 65536 -> s_len d = rings_bytes mc + buffers_bytes mc ->
  prepared mc d cp m -> mirrored dup spid cp sp -> IsServer (cfg sp) = true ->
  ports cs !! cpid = Some cp -> ConnectedFunc (cfg cp) = UserFunc a -> shm wc = m ->
  ports ss !! spid = Some sp -> ConnectedFunc (cfg sp) = UserFunc b -> shm ws = m ->
  maps (fun _ => d) (regions sp) ->
  exists cs' wc' cp' ss' ws' sp',
    run (connect cpid cs) wc = Done (None, cs') wc' /\ shm wc' = m /\ ports cs' !! cpid = Some cp' /\
    run (connect spid ss) ws = Done (None, ss') ws' /\ shm ws' = m /\ ports ss' !! spid = Some sp' /\
    exists ctx crx stx srx,
      txQueues cp' = [ctx] /\ rxQueues cp' = [crx] /\ txQueues sp' = [stx] /\ rxQueues sp' = [srx] /\
      linked ringTypeS2M (client_layout mc d ringTypeS2M) cp' ctx sp' (q_ring srx) /\
      represents ringTypeS2M (client_layout mc d ringTypeS2M) cp' (q_ring srx)
        (mkFifo [] (2 ^ Log2RingSize mc)) m srx /\
      linked ringTypeM2S (client_layout mc d ringTypeM2S) sp' stx cp' (q_ring crx) /\
      represents ringTypeM2S (client_layout mc d ringTypeM2S) sp' (q_ring crx) (mkFifo [] 0) m crx.
Proof.
  intros Hmc Hsz Hd Hpr (Hmr & Hmx & Hmt) Hsv Hcp Hca Hwc Hsp Hcb' Hws Hmaps.
  destruct (pr_region _ _ _ _ Hpr) as (sz & f & Hreg). destruct (pr_tx _ _ _ _ Hpr) as (tq & Ht & Hqt & Htl).
  destruct (pr_rx _ _ _ _ Hpr) as (rq & Hx & Hqr & Hrl). rewrite Hreg in Hmr. rewrite Ht in Hmx. rewrite Hx in Hmt.
  apply Forall2_singleton in Hmr as (reg & Hsreg & Hdata & _), Hmx as (srq & Hsrx & Hsrq), Hmt as (stq & Hstx & Hstq).
  destruct (peer_end mc Hmc dup spid _ _ _ Hqt Hsrq) as (Hse1 & Hs1 & Hs2).
  destruct (peer_end mc Hmc dup spid _ _ _ Hqr Hstq) as (Hse2 & _ & _).
  assert (end_of mc ringTypeS2M tq /\ end_of mc ringTypeM2S rq) as [Hce1 Hce2] by (by split; exists fresh_header).
  destruct (connect_pair mc d cpid cp cs wc a m cp ringTypeS2M ringTypeM2S tq rq) as
    (cs' & wc' & cp' & Hrunc & Hwc' & Hcp' & Hcsee & Hccfg & Hcrun & ctx & crx & Hc1 & Hc2 & Hc3 & Hc4 & _ & _ & _ & Hcl);
    try done; try apply Hpr.
  { intros r Hr Hn. rewrite Hreg in Hr. apply elem_of_cons in Hr as [->|Hr]; [done|by apply elem_of_nil in Hr]. }
  { unfold sees_region, with_views. rewrite Hreg. by eexists. }
  destruct (connect_pair mc d spid sp ss ws b m cp ringTypeM2S ringTypeS2M stq srq) as
    (ss' & ws' & sp' & Hruns & Hws' & Hsp' & Hssee & Hscfg & Hsrun & stx & srx & Hs3 & Hs4 & Hs5 & Hs6 & _ & _ & Hsl & _);
    try done; try apply Hpr.
  { unfold sees_region, with_views. cbn. rewrite Hsreg. eexists. split; [done|]. unfold map_region. by rewrite Hdata. }
  pose proof (pr_run _ _ _ _ Hpr) as Hrun. pose proof (pr_client _ _ _ _ Hpr) as Hcl'.
  exists cs', wc', cp', ss', ws', sp'. repeat (split; [done|]). exists ctx, crx, stx, srx. repeat (split; [done|]).
  split; [apply ends_linked; try done; cbn; congruence|]. split.
  { split; [done|]. exists 0, 0. eapply (fresh_ring_inv mc Hmc ringTypeS2M m cp d); try apply Hpr; try done.
    - unfold last_of. congruence.
    - by rewrite Hcrun, Hccfg, Hrun. }
  split; [apply ends_linked; try done; cbn; congruence|].
  split; [done|]. exists 0, 0. eapply (fresh_ring_inv mc Hmc ringTypeM2S m cp d); try apply Hpr; try done.
  unfold last_of. congruence.
Qed.

(** A client after [initializeQueues], with the server port that mirrors it; the
    kernel renumbers descriptor 3, of memory file 0, as 0. *)
Definition demo_dup (n n' : Z) : Prop := n' = if n =? 3 then 0 else Z.abs n + 100.

Definition demo_mirror : Port :=
  set_regions [mkRegion None 336 0 0]
    (set_rxQueues [mkQueue (peer_ring ringTypeS2M (client_ring small_mc ringTypeS2M)) 0 0 0 110]
      (set_txQueues [mkQueue (peer_ring ringTypeM2S (client_ring small_mc ringTypeM2S)) 0 0 0 111] demo_server)).

Definition demo_at (m : mem) : world := mkWorld m (mkDemo 50 [] []).

Definition demo_ss : state := small_state demo_mirror (small_chan (Some 0%nat) [] []).

Lemma demo_prepared :
  exists p w, prepared small_mc small_data p (shm w) /\ mirrored demo_dup 0 p demo_mirror /\
    ConnectedFunc (cfg p) = UserFunc 0.
Proof.
  assert (Hreg : has_region small_mc small_data small_port) by (split; [done|by exists 3, 336]).
  assert (Hb : backed (shm small_world) small_data) by by exists (zeros 336).
  destruct (proj1 (wp_done _ _ _) (wp_initializeQueues small_mc small_one_pair small_data 0 eq_refl
    small_port small_world Hreg Hb)) as ([p err] & w & Hrun & Hready).
  vm_compute in Hrun. injection Hrun as Hp He Hw.
  exists p, w. split; [|split].
  - apply (ready_prepared small_mc small_data small_port); try done. by apply Hready.
  - subst p. split; [|split]; repeat constructor; by eexists.
  - by subst p.
Qed.

Lemma connect_links_witness :
  exists p w, prepared small_mc small_data p (shm w) /\
    exists cs' wc' cp' ss' ws' sp',
      run (connect 0 (small_state p (small_chan (Some 0%nat) [] []))) (demo_at (shm w)) =
        Done (None, cs') wc' /\ shm wc' = shm w /\ ports cs' !! 0%nat = Some cp' /\
      run (connect 0 demo_ss) (demo_at (shm w)) = Done (None, ss') ws' /\
      shm ws' = shm w /\ ports ss' !! 0%nat = Some sp' /\
      exists ctx crx stx srx,
        txQueues cp' = [ctx] /\ rxQueues cp' = [crx] /\ txQueues sp' = [stx] /\ rxQueues sp' = [srx] /\
        linked ringTypeS2M (client_layout small_mc small_data ringTypeS2M) cp' ctx sp' (q_ring srx) /\
        represents ringTypeS2M (client_layout small_mc small_data ringTypeS2M) cp' (q_ring srx)
          (mkFifo [] 2) (shm w) srx /\
        linked ringTypeM2S (client_layout small_mc small_data ringTypeM2S) sp' stx cp' (q_ring crx) /\
        represents ringTypeM2S (client_layout small_mc small_data ringTypeM2S) sp' (q_ring crx)
          (mkFifo [] 0) (shm w) crx.
Proof.
  destruct demo_prepared as (p & w & Hp & Hm & Hf). exists p, w. split; [exact Hp|].
  apply (connect_links small_mc small_data demo_dup 0 p (small_state p (small_chan (Some 0%nat) [] []))
    (demo_at (shm w)) 0 demo_mirror demo_ss (demo_at (shm w)) (shm w) 0 0);
    try done; try exact small_one_pair.
  intros r Hr _. apply elem_of_cons in Hr as [->|Hr]; [|by apply elem_of_nil in Hr].
  split; [done|]. intros m k. by exists k.
Defined.

(** One unmapped region; first with the ring's cookie in place, then without. *)
Lemma connect_spec_witness :
  let p := set_txQueues [] demo_mirror in
  let s := small_state p (small_chan (Some 0%nat) [] []) in
  let p1 := set_regions [mkRegion (Some small_data) 336 0 0] p in
  (let w := demo_at {[ 0%nat := fresh_header ++ zeros 208 ]} in
   run (connect 0 s) w = run (call (UserFunc 0) 0 (set_port 0 (refresh_queues (shm w) p1) s)) w) /\
  (let w := demo_at {[ 0%nat := zeros 336 ]} in
   exists tx rx, run (connect 0 s) w =
     Done (Some (Err "wrong cookie"), set_port 0 (set_rxQueues rx (set_txQueues tx p1)) s) w).
Proof.
  intros p s p1.
  assert (Hread : forall w, is_Some (ld (shm w) 0 0 ringSize) ->
    forall q, q ∈ txQueues p ++ rxQueues p -> readable (shm w) p1 q).
  { intros w Hw q Hq. apply elem_of_cons in Hq as [->|Hq]; [|by apply elem_of_nil in Hq].
    exists small_data. split; [|split; [exact Hw|done]]. split; try done. by eexists. }
  split; intros w; pose proof (connect_spec 0 p s w eq_refl) as Hc;
    change (regions p) with [mkRegion None 336 0 0] in Hc; cbn [mapping data rsize fd packetBufferOffset] in Hc;
    change (int64 336 <=? 0) with false in Hc; unfold ask in Hc;
    change (sys (SysMmap 0 (int64 336)) (shm w) (kernel w)) with
      (@inl slice errno small_data, shm w, kernel w) in Hc;
    change (mkWorld (shm w) (kernel w)) with w in Hc; specialize (Hc (Hread w ltac:(by eexists))).
  - replace (forallb _ _) with true in Hc by (by vm_compute). exact Hc.
  - replace (forallb _ _) with false in Hc by (by vm_compute). exact Hc.
Defined.
