(* ===== verification/Duplex.v ===== *)
(** * Both directions of a queue pair at once (mem_region.go)

    [initializeQueues] numbers the slots of the receive ring from 0, as those of
    the transmit ring, so the two rings' descriptors designate the same packet
    buffers.  Each direction alone is a FIFO ([Fifo.v]); here is what happens when
    both are used: the two rings of one queue pair, their shared buffers, and four
    calls after which the server reads its own bytes. *)
From stdpp Require Import base tactics list gmap.
From coqutil Require Import Byte.
From Stdlib Require Import ZArith Lia.
From S2P Require Import Prelude.
From S2P Require Import GoInt.
From S2P Require Import Shm.
From S2P Require Import Descriptor.
From S2P Require Import State.
From S2P Require Import Ring.
From S2P Require Import Queue.
From S2P Require Import Packet.
From S2P Require Import Layout.
From S2P Require Import Transfer.
From S2P Require Import Link.
From S2P Require Import Demo.
From S2P Require Import Fifo.
From S2P Require Import Region.
From S2P Require Import Setup.
From S2P Require Import Connect.

(** ** A ring whose buffers another ring may write *)

(** The header and the descriptors of [L] are the same in [m] and [m']. *)
Definition ring_kept (L : layout) (m m' : mem) : Prop :=
  forall o z, 0 <= o -> 0 <= z -> o + z <= ringSize + l_size L * descSize ->
    ld m' (l_file L) (l_hdr L + o) z = ld m (l_file L) (l_hdr L + o) z.

(** Cells of the same shape: as many, with the same flags and lengths. *)
Definition same_shape (cs cs' : list cell) : Prop :=
  Forall2 (fun c c' => c'.1 = c.1 /\ zlen c'.2 = zlen c.2) cs cs'.

Section kept.
Context (L : layout) (Hwf : layout_wf L) (m m' : mem) (Hk : ring_kept L m m').

Lemma kept_has_desc i fl len : 0 <= i < l_size L -> has_desc L m i fl len -> has_desc L m' i fl len.
Proof using Hk.
  intros Hi (db & Hld & Hdb). exists db. split; [|done]. rewrite <- Hld. unfold daddr.
  rewrite <- Z.add_assoc. apply Hk; unfold ringSize, descSize in *; lia.
Qed.

Lemma kept_field o : 0 <= o -> o + 2 <= ringSize -> ld m' (l_file L) (l_hdr L + o) 2 = ld m (l_file L) (l_hdr L + o) 2.
Proof using Hwf Hk. intros. pose proof (l_size_pos L Hwf). apply Hk; unfold descSize in *; lia. Qed.

(** The invariant with what the buffers hold now. *)
Lemma ring_inv_kept t pp cq C P credit cells cells' :
  ring_inv t L pp m cq C P credit cells ->
  (forall i, 0 <= i < l_size L -> buf_valid L m' i) -> same_shape cells cells' ->
  (forall j c, cells' !! j = Some c -> has_chunk L m' (sl L (C + Z.of_nat j)) c.2) ->
  ring_inv t L pp m' cq C P credit cells'.
Proof using Hwf Hk.
  intros [[H1 H2 H3 H4 H5] Hcr Hp Hc Hl Hfr Hfu] Hv Hs Hch.
  pose proof (Forall2_length _ _ _ Hs) as Hlen. unfold zlen in H1.
  split; try done.
  - split; try done.
    + unfold zlen. lia.
    + intros i Hi. destruct (H3 i Hi) as [(fl & len & Hd) _]. split; [|by apply Hv].
      exists fl, len. by apply kept_has_desc.
    + intros j c Hj. split; [|by apply Hch].
      destruct (Forall2_lookup_r _ _ _ _ _ Hs Hj) as (c0 & Hj0 & Hfl & Hzl). rewrite Hfl, Hzl.
      apply kept_has_desc; [by apply sl_range|]. by apply H4.
    + by rewrite kept_field.
  - rewrite kept_field by by destruct t. done.
  - rewrite kept_field by by destruct t. done.
  - intros x Hx. pose proof (sl_range L Hwf x). destruct (Hfr x Hx) as [(fl & len & Hd & Hcap) _].
    split; [|by apply Hv]. exists fl, len. split; [by apply kept_has_desc|done].
  - destruct t; [done|]. intros i Hi. destruct (Hfu i Hi) as (fl & len & Hd & ?).
    exists fl, len. split; [by apply kept_has_desc|done].
Qed.
End kept.

(** ** The two rings of a queue pair *)

Section pair.
Context (mc : MemoryConfig) (Hmc : one_pair mc) (d : slice).

(** They lie apart from each other and from the buffers ... *)
Lemma rings_apart t t' m m' :
  t <> t' ->
  (forall f o z, off_ring (client_layout mc d t') f o z -> ld m' f o z = ld m f o z) ->
  ring_kept (client_layout mc d t) m m'.
Proof using Hmc.
  intros Hne Hfr o z Ho Hz Hoz. pose proof (op_slots mc Hmc). pose proof (op_rings_eq mc Hmc).
  pose proof (op_ring_bytes mc). pose proof (op_offset mc Hmc t) as Ho1. pose proof (op_offset mc Hmc t') as Ho2.
  pose proof (op_size _ Hmc). unfold l_size, ringSize, descSize in Hoz. cbn [client_layout l_log] in Hoz.
  apply Hfr. split.
  - right. unfold l_size, ringSize, descSize. cbn [client_layout l_log l_hdr]. destruct t, t'; done || lia.
  - intros i Hi. right. right. unfold l_size in Hi. cbn [client_layout l_log l_hdr l_boff l_cap] in *.
    destruct t, t'; done || nia.
Qed.

(** ... but slot [i] of both has the same buffer. *)
Lemma same_buffers t t' m i bs :
  (buf_valid (client_layout mc d t) m i <-> buf_valid (client_layout mc d t') m i) /\
  (has_chunk (client_layout mc d t) m i bs <-> has_chunk (client_layout mc d t') m i bs).
Proof using. done. Qed.
End pair.

(** ** Four calls *)

(** The client posts its receive buffers and sends [a]; the server sends [b]
    before it reads.  The result is what the calls return, and the server's
    buffer. *)
Definition both_ways (cp : Port) (ctx crx : Queue) (sp : Port) (stx srx : Queue) (a b cbuf sbuf : list byte)
    : prog (Z * Z * Z * (Z * list byte * option goerror)) :=
  r0 ← ReadPacket cp crx cbuf;
  n ← WritePacket cp ctx a;
  k ← WritePacket sp stx b;
  r ← ReadPacket sp srx sbuf;
  mret (rd_n r0, n, k, (rd_n r, rd_pkt r, rd_err r)).

Lemma encode_short cap pkt : 0 < cap -> zlen pkt <= cap -> encode cap pkt = [(false, pkt)].
Proof.
  intros Hcap Hle. unfold encode. by rewrite more_slots_fits, chunk_fits.
Qed.

Section calls.
Context `{OS} `{!OSWrite _} (mc : MemoryConfig) (Hmc : one_pair mc) (d : slice).
Context (cp sp : Port) (ctx crx stx srx : Queue).
Abbreviation L1 := (client_layout mc d ringTypeS2M).
Abbreviation L2 := (client_layout mc d ringTypeM2S).
Context (Hl1 : linked ringTypeS2M L1 cp ctx sp (q_ring srx))
  (Hl2 : linked ringTypeM2S L2 sp stx cp (q_ring crx)).

Lemma wp_both_ways w a b cbuf sbuf :
  ring_inv ringTypeS2M L1 cp (shm w) srx 0 0 (2 ^ Log2RingSize mc) [] ->
  ring_inv ringTypeM2S L2 sp (shm w) crx 0 0 0 [] ->
  zlen b = zlen a -> zlen a <= PacketBufferSize mc -> zlen a <= zlen sbuf ->
  wp (both_ways cp ctx crx sp stx srx a b cbuf sbuf) w (fun r _ =>
    r = (0, zlen a, zlen b, (zlen b, splice 0 b sbuf, None))).
Proof using All.
  intros Hi1 Hi2 Hab Hsz Hbuf. pose proof (op_slots mc Hmc). pose proof (op_size _ Hmc).
  pose proof (client_layout_wf mc Hmc d) as Hwf. pose proof (zlen_nonneg a). pose proof (zlen_nonneg cbuf).
  assert (Hne : ringTypeS2M <> ringTypeM2S) by done.
  assert (Henc : forall t p, zlen p = zlen a -> encode (l_cap (client_layout mc d t)) p = [(false, p)] /\
    slots (l_cap (client_layout mc d t)) p = 1 /\ written (l_cap (client_layout mc d t)) p = zlen p).
  { intros t p Hp. cbn [client_layout l_cap]. unfold slots, written.
    rewrite encode_short, more_slots_fits by lia. split; [done|]. lia. }
  destruct (Henc ringTypeS2M a eq_refl) as (Ea & Sa & Wa). destruct (Henc ringTypeM2S b Hab) as (Eb & Sb & Wb).
  unfold both_ways. apply wp_bind. eapply wp_mono; [by eapply (wp_ReadPacket ringTypeM2S L2 sp stx cp _ Hl2)|].
  intros r0 w2 (_ & -> & _ & _ & Hi2' & Hf2). cbn [drop] in Hi2'.
  apply (rings_apart mc Hmc d _ _ _ _ Hne) in Hf2 as Hk.
  apply (ring_inv_kept L1 (Hwf _) _ _ Hk _ _ _ _ _ _ _ []) in Hi1; [| |constructor|done].
  2: { intros i Hi. by apply (rc_slots _ _ _ _ _ (ri_core _ _ _ _ _ _ _ _ _ Hi2')). }
  apply wp_bind. eapply wp_mono; [by eapply (wp_WritePacket ringTypeS2M L1 cp ctx sp _ Hl1)|].
  intros n w3 [Hpost Hf3]. rewrite Sa, Wa, Ea in Hpost. rewrite (proj2 (Z.leb_le _ _)) in Hpost by lia.
  destruct Hpost as [-> Hi1']. cbn [app] in Hi1'.
  apply (rings_apart mc Hmc d _ _ _ _ (not_eq_sym Hne)) in Hf3 as Hk3.
  apply (ring_inv_kept L2 (Hwf _) _ _ Hk3 _ _ _ _ _ _ _ []) in Hi2'; [| |constructor|done].
  2: { intros i Hi. by apply (rc_slots _ _ _ _ _ (ri_core _ _ _ _ _ _ _ _ _ Hi1')). }
  apply wp_bind. eapply wp_mono; [by eapply (wp_WritePacket ringTypeM2S L2 sp stx cp _ Hl2)|].
  intros k w4 [Hpost Hf4]. rewrite Sb, Wb, Eb in Hpost.
  rewrite (proj2 (Z.leb_le _ _)) in Hpost by (unfold l_size; cbn [client_layout l_log]; lia).
  destruct Hpost as [-> Hi2'']. cbn [app] in Hi2''.
  apply (rings_apart mc Hmc d _ _ _ _ Hne) in Hf4 as Hk4.
  apply (ring_inv_kept L1 (Hwf _) _ _ Hk4 _ _ _ _ _ _ _ [(false, b)]) in Hi1'.
  2: { intros i Hi. by apply (rc_slots _ _ _ _ _ (ri_core _ _ _ _ _ _ _ _ _ Hi2'')). }
  2: { constructor; [done|constructor]. }
  2: { intros j c Hj. by apply (rc_cells _ _ _ _ _ (ri_core _ _ _ _ _ _ _ _ _ Hi2'') j c). }
  apply wp_bind. eapply wp_mono; [eapply (wp_ReadPacket ringTypeS2M L1 cp ctx sp _ Hl1); [done|exact Hi1'|]|].
  { cbn. rewrite app_nil_r. lia. }
  intros r w5. cbn [read_post chain_of]. rewrite app_nil_r. intros (-> & -> & -> & _). by apply wp_ret.
Qed.
End calls.

(** ** Theorems *)

(** The server's end of the pair, once both ends are connected. *)
Record peer_end_of (mc : MemoryConfig) (d : slice) (sp : Port) (stx srx : Queue) : Prop := {
  pe_region : sees_region d sp;
  pe_server : IsServer (cfg sp) = true;
  pe_tx : end_of mc ringTypeM2S stx;
  pe_rx : end_of mc ringTypeS2M srx;
  pe_fresh : lastHead srx = 0
}.

(** C36: after a successful initializeQueues of a one-pair configuration, the
    descriptors of slot [i] of the transmit and of the receive ring are the same
    bytes, hence designate the same packet buffer.  So, for any two packets [a] and
    [b] of the same length that fit a buffer: the client posts its receive buffers
    (a read that finds nothing) and sends [a], the server sends [b] and then reads.
    Every call returns as if nothing was wrong, and the server reads [b], its own
    packet, instead of [a]. *)
Theorem duplex_corrupts `{OS} `{!OSWrite _} `{!OSEventfd _} mc d pid p w p' w1 :
  one_pair mc -> PacketBufferSize mc < 65536 -> s_len d = rings_bytes mc + buffers_bytes mc ->
  run_ p = mc -> IsServer (cfg p) = false -> txQueues p = [] -> rxQueues p = [] ->
  (exists f sz, regions p = [mkRegion (Some d) sz f (rings_bytes mc)]) -> backed (shm w) d ->
  run (initializeQueues pid p) w = Done (p', None) w1 ->
  exists tq rq, txQueues p' = [tq] /\ rxQueues p' = [rq] /\
    (forall i, 0 <= i < 2 ^ Log2RingSize mc -> exists db,
       ld (shm w1) (s_file d) (desc_addr tq d i) descSize = Some db /\
       ld (shm w1) (s_file d) (desc_addr rq d i) descSize = Some db) /\
    forall sp stx srx a b cbuf sbuf, peer_end_of mc d sp stx srx ->
      zlen b = zlen a -> zlen a <= PacketBufferSize mc -> zlen a <= zlen sbuf ->
      exists w2, run (both_ways p' tq rq sp stx srx a b cbuf sbuf) w1 =
        Done (0, zlen a, zlen b, (zlen b, splice 0 b sbuf, None)) w2.
Proof.
  intros Hmc Hsz Hd Hr Hs Htx Hrx Hreg Hb Hrun.
  pose proof (wp_initializeQueues mc Hmc d pid Hd p w) as Hwp.
  apply wp_done in Hwp as ([p2 err] & w2 & Hrun2 & Hq); [|by split|done].
  rewrite Hrun in Hrun2. injection Hrun2 as <- <- <-. destruct (Hq eq_refl) as
    (tq & rq & Ht & Hx & Hrg & Hcf & Hrn & H1 & H2 & H3 & H4 & Hq1 & Hq2 & Hb' & S1 & S2 & F1 & F2).
  cbn in Ht, Hx, Hrg, Hcf, Hrn. rewrite Htx in Ht. rewrite Hrx in Hx.
  exists tq, rq. split; [done|]. split; [done|]. split.
  { intros i Hi. exists (slot_desc p (rings_bytes mc) i). unfold desc_addr, hdr. rewrite Hq1, Hq2.
    split; [by apply F1|by apply F2]. }
  intros sp stx srx a b cbuf sbuf [Hsee Hsrv Hstx Hsrx Hl] Hab Ha Hbuf.
  assert (Hsee' : sees_region d p') by (destruct Hreg as (f & sz & Hreg); unfold sees_region; rewrite Hrg, Hreg; by eexists).
  assert (Hrun' : run_ p' = mc) by congruence. assert (Hcl : IsServer (cfg p') = false) by by rewrite Hcf.
  assert (Hl1 : linked ringTypeS2M (client_layout mc d ringTypeS2M) p' tq sp (q_ring srx)).
  { apply ends_linked; try done. by exists fresh_header. }
  assert (Hl2 : linked ringTypeM2S (client_layout mc d ringTypeM2S) sp stx p' (q_ring rq)).
  { apply ends_linked; try done. by exists fresh_header. }
  assert (ring_inv ringTypeS2M (client_layout mc d ringTypeS2M) p' (shm w1) srx 0 0 (2 ^ Log2RingSize mc) []) as Hi1.
  { eapply (fresh_ring_inv mc Hmc ringTypeS2M _ p d); try done. by rewrite Hrun'. }
  assert (ring_inv ringTypeM2S (client_layout mc d ringTypeM2S) sp (shm w1) rq 0 0 0 []) as Hi2.
  { by eapply (fresh_ring_inv mc Hmc ringTypeM2S _ p d). }
  pose proof (wp_both_ways mc Hmc d p' sp tq rq stx srx Hl1 Hl2 w1 a b cbuf sbuf Hi1 Hi2 Hab Ha Hbuf) as Hwp.
  apply wp_done in Hwp as (r & w2 & Hrun3 & ->). by exists w2.
Qed.

(** A server port that mapped the client's region and has its two rings. *)
Definition server_of (mc : MemoryConfig) (d : slice) : Port :=
  mkPort (mkPortCfg 0 true [] (zeros 24) mc (UserFunc 0) (UserFunc 1) None) mc None None [] []
    [mkRegion (Some d) (s_len d) 3 0] [mkQueue (client_ring mc ringTypeM2S) 1 0 0 21]
    [mkQueue (client_ring mc ringTypeS2M) 1 0 0 20] false false.

Lemma server_of_end mc d :
  peer_end_of mc d (server_of mc d) (mkQueue (client_ring mc ringTypeM2S) 1 0 0 21)
    (mkQueue (client_ring mc ringTypeS2M) 1 0 0 20).
Proof. split; try done; [by eexists|by exists fresh_header|by exists fresh_header]. Qed.

(** Of the packet [abc] the server reads the bytes [xyz] that it sent itself. *)
Lemma duplex_corrupts_witness :
  exists p' w1 tq rq w2, run (initializeQueues 0 small_port) small_world = Done (p', None) w1 /\
    run (both_ways p' tq rq (server_of small_mc small_data)
           (mkQueue (client_ring small_mc ringTypeM2S) 1 0 0 21)
           (mkQueue (client_ring small_mc ringTypeS2M) 1 0 0 20)
           [Byte.x61; Byte.x62; Byte.x63] [Byte.x78; Byte.x79; Byte.x7a] [] (zeros 3)) w1 =
      Done (0, 3, 3, (3, [Byte.x78; Byte.x79; Byte.x7a], None)) w2.
Proof.
  assert (match run (initializeQueues 0 small_port) small_world with Done (_, None) _ => true | _ => false end = true)
    as Hok by (vm_compute; reflexivity).
  destruct (run (initializeQueues 0 small_port) small_world) as [[p' [err|]] w1| | |] eqn:Hrun; [discriminate Hok| |discriminate Hok..].
  destruct (duplex_corrupts small_mc small_data 0 small_port small_world p' w1 small_one_pair) as
    (tq & rq & _ & _ & _ & Hboth);
    [reflexivity..|by exists 3, 336|by exists (zeros 336)|exact Hrun|].
  destruct (Hboth (server_of small_mc small_data)
      (mkQueue (client_ring small_mc ringTypeM2S) 1 0 0 21) (mkQueue (client_ring small_mc ringTypeS2M) 1 0 0 20)
      [Byte.x61; Byte.x62; Byte.x63] [Byte.x78; Byte.x79; Byte.x7a] [] (zeros 3)) as [w2 Hw2];
    [|reflexivity|discriminate|discriminate|exists p', w1, tq, rq, w2; split; [reflexivity|exact Hw2]].
  apply server_of_end.
Defined.
