(* ===== verification/Apps.v ===== *)
(** * The example applications (src/example)

    Three pairs of programs: [simple_echo] (a client that sends time stamps, a
    server that sends every packet back), and [bw_test] and [dpdk_co_worker],
    which differ only in the number of queues and in which side serves.  Their
    [main] sets up ports and waits for an error; their [Connected] callback starts
    worker goroutines.  [logrus.Fatal] ends the process without running deferred
    calls; the clock and the log are not part of the model, except that the time
    stamp is an argument. *)
From stdpp Require Import base tactics list gmap strings pretty.
From coqutil Require Import Byte.
From Stdlib Require Import ZArith Lia.
From S2P Require Import Prelude.
From S2P Require Import GoInt.
From S2P Require Import Shm.
From S2P Require Import State.
From S2P Require Import Queue.
From S2P Require Import Packet.
From S2P Require Import Heap.
From S2P Require Import Endpoint.
From S2P Require Import Control.
From S2P Require Import Socket.
From S2P Require Import Poll.

(** ** Go *)

(** [logrus.Fatal(msg)]: the process exits. *)
Inductive exit (A : Type) :=
| Continue (a : A)
| Fatal (msg : string).
Arguments Continue {A} a.
Arguments Fatal {A} msg.

(** [b[:n]] on a slice whose capacity is its length ([make([]byte, k)]). *)
Definition slice_to (b : list byte) (n : Z) : prog (list byte) :=
  if (0 <=? n) && (n <=? zlen b) then mret (take (Z.to_nat n) b) else Panic SliceOutOfRange.

(** [binary.BigEndian.PutUint64(b, v)] and [Uint64(b)]: both panic on a slice of
    fewer than 8 bytes. *)
Definition be64 (v : Z) : list byte := rev (le64 (u64 v)).
Definition PutUint64 (b : list byte) (v : Z) : prog (list byte) :=
  if 8 <=? zlen b then mret (splice 0 (be64 v) b) else Panic IndexOutOfRange.
Definition Uint64 (b : list byte) : prog Z :=
  if 8 <=? zlen b then mret (unle (rev (sub 0 8 b))) else Panic IndexOutOfRange.

(** A queue pointer is an index into the port's slice: the array is not replaced
    while workers run (see [Workers.v]). *)
Definition queue_ptr (qs : list Queue) (qid : nat) : prog Queue :=
  match qs !! qid with Some q => mret q | None => Panic NilDereference end.

(** [rxq.ReadPacket(pkt)] and [txq.WritePacket(pkt)] through such pointers. *)
Definition read_rx (p : Port) (qid : nat) (pkt : list byte) : prog (Port * read_result) :=
  q ← queue_ptr (rxQueues p) qid;
  r ← ReadPacket p q pkt;
  mret (set_rxQueues (<[qid := rd_queue r]> (rxQueues p)) p, r).
Definition write_tx (p : Port) (qid : nat) (pkt : list byte) : prog Z :=
  q ← queue_ptr (txQueues p) qid;
  WritePacket p q pkt.

(** [p.GetRxQueue(qid)] with its error turned into an exit. *)
Definition must_rx (p : Port) (qid : Z) : prog (exit nat) :=
  r ← GetRxQueue p qid;
  match r with inl q => mret (Continue q) | inr _ => mret (Fatal "Get RX-Queue failed.") end.
Definition must_tx (p : Port) (qid : Z) : prog (exit nat) :=
  r ← GetTxQueue p qid;
  match r with inl q => mret (Continue q) | inr _ => mret (Fatal "Get TX-Queue failed.") end.

(** ** Workers

    What a goroutine does before its loop ([start]) and in one iteration of it
    ([turn]); between iterations it holds the queues it looked up and its packet
    buffer.  A turn that finds [QuitChan] closed returns [None]. *)

(** simple_echo/server *)
Module EchoServer.
Record worker := mk { rxq0 : nat; txq0 : nat; pkt : list byte }.

Definition start (p : Port) : prog (exit worker) :=
  rx ← must_rx p 0;
  match rx with
  | Fatal m => mret (Fatal m)
  | Continue rx =>
      tx ← must_tx p 0;
      match tx with
      | Fatal m => mret (Fatal m)
      | Continue tx => mret (Continue (mk rx tx (zeros 2048)))
      end
  end.

(** Receive; on an error log it and go on; send back what was received. *)
Definition packetprocessing (p : Port) (w : worker) : prog (Port * worker) :=
  '(p, r) ← read_rx p (rxq0 w) (pkt w);
  let w := mk (rxq0 w) (txq0 w) (rd_pkt r) in
  match rd_err r with
  | Some _ => mret (p, w)
  | None =>
      if 0 <? rd_n r then
        b ← slice_to (rd_pkt r) (rd_n r);
        write_tx p (txq0 w) b ;;
        mret (p, w)
      else mret (p, w)
  end.

Definition cfg : PortCfg :=
  mkPortCfg 0 true (bytes_of "memif0") (zeros 24) (mkMemoryConfig 1 0 0) (UserFunc 0) NilFunc None.
End EchoServer.

(** simple_echo/client *)
Module EchoClient.
Record sender := mkSender { txq0 : nat; out : list byte }.
Record receiver := mkReceiver { rxq0 : nat; pkt : list byte }.

Definition start_send (p : Port) : prog (exit sender) :=
  tx ← must_tx p 0;
  match tx with
  | Fatal m => mret (Fatal m)
  | Continue tx => mret (Continue (mkSender tx (zeros 800)))
  end.

(** [ts] is [time.Now().UnixNano()]. *)
Definition sendpkt (p : Port) (ts : Z) (w : sender) : prog (option sender) :=
  if QuitChan_closed p then mret None
  else
    b ← PutUint64 (out w) ts;
    write_tx p (txq0 w) b ;;
    mret (Some (mkSender (txq0 w) b)).

Definition start_recv (p : Port) : prog (exit receiver) :=
  rx ← must_rx p 0;
  match rx with
  | Fatal m => mret (Fatal m)
  | Continue rx => mret (Continue (mkReceiver rx (zeros 2048)))
  end.

(** The time stamp of the packet received, from which the round trip is logged. *)
Definition recvpkt (p : Port) (w : receiver) : prog (Port * receiver * option Z) :=
  '(p, r) ← read_rx p (rxq0 w) (pkt w);
  let w := mkReceiver (rxq0 w) (rd_pkt r) in
  if 0 <? rd_n r then
    recvts ← Uint64 (rd_pkt r);
    mret (p, w, Some recvts)
  else mret (p, w, None).

Definition cfg : PortCfg :=
  mkPortCfg 0 false (bytes_of "memif_c0") (zeros 24) (mkMemoryConfig 1 0 0) (UserFunc 0) NilFunc None.
End EchoClient.

(** bw_test/sender: [n] is the shared counter [*data.PacketCnt]. *)
Module BwSender.
Record worker := mk { txq : nat }.

(** [p.ExtendData] holds the example's [*PortStats] or nothing. *)
Definition start (p : Port) (qid : Z) : prog (exit worker) :=
  match ExtendData p with
  | None => Panic NilDereference
  | Some _ =>
      tx ← must_tx p qid;
      match tx with Fatal m => mret (Fatal m) | Continue tx => mret (Continue (mk tx)) end
  end.

Definition sendpkt (p : Port) (n : Z) (w : worker) : prog (option worker * Z) :=
  if QuitChan_closed p then mret (None, n)
  else
    s ← write_tx p (txq w) (zeros 64);
    mret (Some w, if 0 <? s then u64 (n + 1) else n).
End BwSender.

(** bw_test/reciever *)
Module BwReceiver.
Record worker := mk { rxq : nat; pkt : list byte }.

Definition start (p : Port) (qid : Z) : prog (exit worker) :=
  match ExtendData p with
  | None => Panic NilDereference
  | Some _ =>
      rx ← must_rx p qid;
      match rx with Fatal m => mret (Fatal m) | Continue rx => mret (Continue (mk rx (zeros 2048))) end
  end.

Definition recvpkt (p : Port) (n : Z) (w : worker) : prog (Port * worker * Z) :=
  '(p, r) ← read_rx p (rxq w) (pkt w);
  mret (p, mk (rxq w) (rd_pkt r), if 0 <? rd_n r then u64 (n + 1) else n).
End BwReceiver.

(** ** Connected

    Which goroutines the callback starts, in order. *)
Inductive code := ServeEcho | SendStamps | ReceiveStamps | SendPackets (qid : Z) | ReceivePackets (qid : Z).

Definition EchoServer_Connected : list code := [ServeEcho].
Definition EchoClient_Connected : list code := [SendStamps; ReceiveStamps].
(** [go sendpkt(p, i)] *)
Definition BwSender_Connected (queueNum : Z) : list code :=
  (fun i => SendPackets (Z.of_nat i)) <$> seq 0 (Z.to_nat queueNum).
(** [go recvpkt(p, 0)]: every worker gets queue 0. *)
Definition BwReceiver_Connected (queueNum : Z) : list code :=
  (fun _ => ReceivePackets 0) <$> seq 0 (Z.to_nat queueNum).

(** The workers of [dpdk_co_worker] are the same code, on one queue. *)
Definition DpdkSender_start := BwSender.start.
Definition DpdkSender_sendpkt := BwSender.sendpkt.
Definition DpdkSender_Connected : list code := BwSender_Connected 1.
Definition DpdkReceiver_start := BwReceiver.start.
Definition DpdkReceiver_recvpkt := BwReceiver.recvpkt.
Definition DpdkReceiver_Connected : list code := BwReceiver_Connected 1.

(** ** main *)

Section main.
Context `{Callbacks} `{ErrnoText}.

(** [logrus.Fatal("create socket failed: %v", err)] does not format. *)
Definition must_socket (file : gostring) : prog (exit state) :=
  r ← NewSocket (bytes_of "foo") file;
  match r with
  | inl s => mret (Continue s)
  | inr e => mret (Fatal ("create socket failed: %v" +:+ Error e))
  end.

(** [NewPort] returns (see [NewPort_spec]); an exit of the model without a result
    is [None]. *)
Definition must_port (c : PortCfg) : M (option (exit nat)) :=
  r ← NewPort c;
  mret ((fun r => match r with inl pid => Continue pid | inr e => Fatal (Error e) end) <$> r).

(** simple_echo: one port; up to [StartPolling]. *)
Definition echo_main (c : PortCfg) (file : gostring) : prog (option (exit (nat * state))) :=
  r ← must_socket file;
  match r with
  | Fatal m => mret (Some (Fatal m))
  | Continue s =>
      '(r, s) ← must_port c s;
      mret ((fun r => match r with Continue pid => Continue (pid, s) | Fatal m => Fatal m end) <$> r)
  end.
Definition EchoServer_main := echo_main EchoServer.cfg.
Definition EchoClient_main := echo_main EchoClient.cfg.

(** bw_test and dpdk_co_worker *)
Definition bw_cfg (serverMode : bool) (queueNum ifindex : Z) : PortCfg :=
  mkPortCfg ifindex serverMode (bytes_of ("memif_s" +:+ pretty ifindex)) (zeros 24)
    (mkMemoryConfig queueNum 0 0) (UserFunc 0) NilFunc (Some O).

(** [for ifindex := uint32(0); ifindex < portNum; ifindex++], [k] ports to go. *)
Fixpoint bw_ports (serverMode : bool) (queueNum : Z) (k : nat) (ifindex : Z) : M (option (exit unit)) :=
  match k with
  | O => mret (Some (Continue tt))
  | S k =>
      r ← must_port (bw_cfg serverMode queueNum ifindex);
      match r with
      | Some (Continue pid) => Port_String pid ;; bw_ports serverMode queueNum k (u32 (ifindex + 1))
      | Some (Fatal m) => mret (Some (Fatal m))
      | None => mret None
      end
  end.

Definition bw_main (serverMode : bool) (queueNum portNum : Z) (file : gostring)
    : prog (option (exit state)) :=
  r ← must_socket file;
  match r with
  | Fatal m => mret (Some (Fatal m))
  | Continue s =>
      '(r, s) ← bw_ports serverMode queueNum (Z.to_nat portNum) 0 s;
      mret ((fun r => match r with Continue _ => Continue s | Fatal m => Fatal m end) <$> r)
  end.
Definition BwReceiver_main := bw_main true 2 16.
Definition BwSender_main := bw_main false 2 16.
(** dpdk_co_worker: both sides are clients of the DPDK program, with one queue. *)
Definition DpdkReceiver_main := bw_main false 1 16.
Definition DpdkSender_main := bw_main false 1 16.

(** The [select] of the final loops: an error on [ErrChan] is fatal; without one
    the default branch sleeps. *)
Definition main_select (p : polling) : exit polling :=
  match ErrChan p with
  | e :: _ => Fatal (Error e)
  | [] => Continue p
  end.

(** bw_test prints and resets the packet counter [n]; it returns what it prints. *)
Definition bw_select (p : polling) (n : Z) : exit (polling * Z * Z) :=
  match ErrChan p with
  | e :: _ => Fatal (Error e)
  | [] => Continue (p, 0, n)
  end.
End main.
