(* ===== verification/Echo.v ===== *)
(** * simple_echo on two rings

    A client port and a server port with one ring in each direction, on separate
    memory: what the example's workers do to the two FIFOs.  [duplex] is the
    invariant of the pair; the lemmas of [Fifo.v] and a frame argument (a call on
    one ring does not touch the other) give one rule per call.  The rings that
    this library's own [initializeQueues] lays out share their buffers
    ([Duplex.duplex_corrupts]); here the client is any peer that separates them. *)
From stdpp Require Import base tactics list gmap strings.
From coqutil Require Import Byte.
From Stdlib Require Import ZArith Lia.
From S2P Require Import Prelude.
From S2P Require Import GoInt.
From S2P Require Import Shm.
From S2P Require Import Descriptor.
From S2P Require Import State.
From S2P Require Import Ring.
From S2P Require Import Queue.
From S2P Require Import Packet.
From S2P Require Import Layout.
From S2P Require Import Transfer.
From S2P Require Import Link.
From S2P Require Import Demo.
From S2P Require Import Fifo.
From S2P Require Import Overrun.
From S2P Require Import Apps.

(** ** Frames *)

(** No byte of the ring [L2] or its buffers belongs to the ring [L1]. *)
Definition separate (L1 L2 : layout) : Prop :=
  off_ring L1 (l_file L2) (l_hdr L2) (ringSize + l_size L2 * descSize) /\
  forall i, 0 <= i < l_size L2 -> off_ring L1 (l_bfile L2 i) (l_boff L2 i) (l_cap L2).

(** The ring [L] reads the same in both memories. *)
Record undisturbed (L : layout) (m m' : mem) : Prop := {
  un_hdr : forall o k, l_hdr L <= o -> o + k <= l_hdr L + (ringSize + l_size L * descSize) ->
    ld m' (l_file L) o k = ld m (l_file L) o k;
  un_buf : forall i k, 0 <= i < l_size L -> k <= l_cap L ->
    ld m' (l_bfile L i) (l_boff L i) k = ld m (l_bfile L i) (l_boff L i) k
}.

Section frame.
Implicit Types m : mem.

Lemma disj_sub f o n f' o' n' a k :
  disj f o n f' o' n' -> o' <= a -> a + k <= o' + n' -> disj f o n f' a k.
Proof. unfold disj. intros [?|[?|?]] ??; [by left|right; lia|right; lia]. Qed.

Lemma disj_sym f o n f' o' n' : disj f o n f' o' n' -> disj f' o' n' f o n.
Proof. unfold disj. intros [?|[?|?]]; [by left|right; lia|right; lia]. Qed.

Lemma off_ring_sub L f o n a k : off_ring L f o n -> o <= a -> a + k <= o + n -> off_ring L f a k.
Proof.
  intros [Hh Hb] ??. split; [by eapply disj_sub|]. intros i Hi. eapply disj_sub; [by apply Hb|done..].
Qed.

Lemma separate_sym L1 L2 : separate L1 L2 -> separate L2 L1.
Proof.
  intros [[Hh Hhb] Hb]. split.
  - split; [by apply disj_sym|]. intros i Hi. apply disj_sym. apply (Hb i Hi).
  - intros i Hi. split; [apply disj_sym; by apply Hhb|].
    intros j Hj. apply disj_sym. apply (Hb j Hj). done.
Qed.

Lemma separate_undisturbed L1 L2 m m' :
  separate L1 L2 -> (forall f o k, off_ring L1 f o k -> ld m' f o k = ld m f o k) -> undisturbed L2 m m'.
Proof.
  intros [Hh Hb] Hfr. split.
  - intros o k ??. apply Hfr. eapply off_ring_sub; [exact Hh|lia..].
  - intros i k Hi Hk. apply Hfr. eapply off_ring_sub; [by apply Hb|lia..].
Qed.

Lemma undisturbed_slot L m m' i :
  undisturbed L m m' -> 0 <= i < l_size L -> same_slot L m m' i.
Proof.
  intros [Hh Hb] Hi. split; [|intros; by apply Hb].
  apply Hh; unfold daddr, ringSize, descSize in *; nia.
Qed.

Lemma ring_inv_frame t L pp m m' cq C P credit cells :
  layout_wf L -> undisturbed L m m' ->
  ring_inv t L pp m cq C P credit cells -> ring_inv t L pp m' cq C P credit cells.
Proof.
  intros Hwf Hun [Hcore Hcr Hp Hc Hl Hfr Hfu].
  pose proof (fun i => undisturbed_slot L m m' i Hun) as Hss. pose proof (l_size_pos L Hwf).
  assert (forall o, 0 <= o -> o + 2 <= ringSize ->
    ld m' (l_file L) (l_hdr L + o) 2 = ld m (l_file L) (l_hdr L + o) 2) as Hhdr.
  { intros o ??. apply (un_hdr _ _ _ Hun); unfold descSize; lia. }
  split; try done.
  - eapply ring_core_same; [done|..].
    + intros i Hi. eapply same_slot_ok; [by apply Hss|by apply Hcore].
    + intros x Hx. by apply Hss, sl_range.
    + rewrite Hhdr by done. apply Hcore.
  - by rewrite Hhdr by by destruct t.
  - by rewrite Hhdr by by destruct t.
  - intros x Hx. eapply same_writable; [by apply Hss, sl_range|by apply Hfr].
  - destruct t; [done|]. intros i Hi. destruct (Hfu i Hi) as (fl & len & Hd & ?).
    exists fl, len. split; [|done]. eapply same_has_desc; [by apply Hss|done].
Qed.

Lemma represents_frame t L pp cr s m m' cq :
  layout_wf L -> undisturbed L m m' -> represents t L pp cr s m cq -> represents t L pp cr s m' cq.
Proof. intros Hwf Hun (Hr & C & P & Hi). split; [done|]. exists C, P. by eapply ring_inv_frame. Qed.
End frame.

(** ** Ports whose receive queues change *)

Definition set_rx (i : nat) (q : Queue) (p : Port) : Port := set_rxQueues (<[i := q]> (rxQueues p)) p.

Section view.
Context (t : ringType) (L : layout).

Lemma side_set_rx i r p q d : side L (set_rx i r p) q d <-> side L p q d.
Proof. split; intros [Hat ? ? ? ?]; (split; [by destruct Hat|done..]). Qed.

Lemma linked_set_rx_prod i r pp pq cp cr : linked t L pp pq cp cr -> linked t L (set_rx i r pp) pq cp cr.
Proof.
  intros [Hwf [d Hp] Hc Hps Hcs Hsz]. split; try done. exists d. by apply side_set_rx.
Qed.

Lemma linked_set_rx_cons i r pp pq cp cr : linked t L pp pq cp cr -> linked t L pp pq (set_rx i r cp) cr.
Proof.
  intros [Hwf Hp [d Hc] Hps Hcs Hsz]. split; try done. exists d. intros q Hq. by apply side_set_rx, Hc.
Qed.

Lemma represents_set_rx i r pp cr s m cq :
  represents t L pp cr s m cq -> represents t L (set_rx i r pp) cr s m cq.
Proof.
  intros (Hr & C & P & [H1 H2 H3 H4 H5 H6 H7]). split; [done|]. exists C, P. by split.
Qed.
End view.

(** ** A client and a server with a ring each way *)

(** Queue 0 of each port; [f1] is what is under way to the server, [f2] what is
    under way to the client. *)
Record duplex (L1 L2 : layout) (pc ps : Port) (f1 f2 : fifo) (m : mem) : Prop := {
  dx_separate : separate L1 L2;
  dx_up : exists ctq srq, txQueues pc !! 0%nat = Some ctq /\ rxQueues ps !! 0%nat = Some srq /\
    linked ringTypeS2M L1 pc ctq ps (q_ring srq) /\ represents ringTypeS2M L1 pc (q_ring srq) f1 m srq;
  dx_down : exists stq crq, txQueues ps !! 0%nat = Some stq /\ rxQueues pc !! 0%nat = Some crq /\
    linked ringTypeM2S L2 ps stq pc (q_ring crq) /\ represents ringTypeM2S L2 ps (q_ring crq) f2 m crq
}.

Lemma wp_queue_ptr `{OS} qs qid q w (Q : Queue -> world -> Prop) :
  qs !! qid = Some q -> Q q w -> wp (queue_ptr qs qid) w Q.
Proof. intros Hq HQ. unfold queue_ptr. by rewrite Hq. Qed.

Section rules.
Context `{OS} `{!OSWrite _} (L1 L2 : layout).
Implicit Types w : world.

(** A send and a receive through a worker's queue pointer, as [exec1] does them. *)
Lemma wp_write_tx t L pp pq cp cr cq pkt n s s' w :
  linked t L pp pq cp cr -> txQueues pp !! 0%nat = Some pq -> represents t L pp cr s (shm w) cq ->
  fifo_step (l_size L) (l_cap L) s (OWrite pkt) = Some (OutWrite n, s') ->
  wp (write_tx pp 0 pkt) w (fun n' w' => n' = n /\ represents t L pp cr s' (shm w') cq /\
    (forall f o k, off_ring L f o k -> ld (shm w') f o k = ld (shm w) f o k)).
Proof using All.
  intros Hlk Hq Hrep Hstep. eapply wp_bind, wp_queue_ptr; [done|].
  pose proof (exec1_refines_frame t L pp pq cp cr Hlk s (OWrite pkt) _ s' w cq Hrep Hstep) as Hwp.
  unfold exec1, wp in *. rewrite run_bind in Hwp. destruct (run (WritePacket pp pq pkt) w) as [n' w'|e| |]; [|done..].
  cbn in Hwp. destruct Hwp as ([= ->] & ? & ?). done.
Qed.

Lemma wp_read_rx t L pp pq cp cr cq buf n b e s s' w :
  linked t L pp pq cp cr -> rxQueues cp !! 0%nat = Some cq -> represents t L pp cr s (shm w) cq ->
  fifo_step (l_size L) (l_cap L) s (ORead buf) = Some (OutRead n b e, s') ->
  wp (read_rx cp 0 buf) w (fun '(cp', r) w' => rd_n r = n /\ rd_pkt r = b /\ rd_err r = e /\
    cp' = set_rx 0 (rd_queue r) cp /\ represents t L pp cr s' (shm w') (rd_queue r) /\
    (forall f o k, off_ring L f o k -> ld (shm w') f o k = ld (shm w) f o k)).
Proof using All.
  intros Hlk Hq Hrep Hstep. eapply wp_bind, wp_queue_ptr; [done|].
  pose proof (exec1_refines_frame t L pp pq cp cr Hlk s (ORead buf) _ s' w cq Hrep Hstep) as Hwp.
  unfold exec1, wp in *. rewrite run_bind. rewrite run_bind in Hwp.
  destruct (run (ReadPacket cp cq buf) w) as [r w'|e'| |]; cbn in *; [|done..].
  by destruct Hwp as ([= -> -> ->] & ? & ?).
Qed.

(** The four calls on the pair. *)
Lemma client_sends pc ps f1 f2 f1' pkt n w :
  duplex L1 L2 pc ps f1 f2 (shm w) ->
  fifo_step (l_size L1) (l_cap L1) f1 (OWrite pkt) = Some (OutWrite n, f1') ->
  wp (write_tx pc 0 pkt) w (fun n' w' => n' = n /\ duplex L1 L2 pc ps f1' f2 (shm w')).
Proof using All.
  intros [Hsep (ctq & srq & Hct & Hsr & Hlk1 & Hr1) (stq & crq & Hst & Hcr & Hlk2 & Hr2)] Hstep.
  eapply wp_mono; [by eapply wp_write_tx|]. intros n' w' (-> & Hr & Hfr). split; [done|]. split; [done|..].
  - by exists ctq, srq.
  - exists stq, crq. repeat (split; [done|]).
    eapply represents_frame; [apply Hlk2|by eapply separate_undisturbed|done].
Qed.

Lemma server_sends pc ps f1 f2 f2' pkt n w :
  duplex L1 L2 pc ps f1 f2 (shm w) ->
  fifo_step (l_size L2) (l_cap L2) f2 (OWrite pkt) = Some (OutWrite n, f2') ->
  wp (write_tx ps 0 pkt) w (fun n' w' => n' = n /\ duplex L1 L2 pc ps f1 f2' (shm w')).
Proof using All.
  intros [Hsep (ctq & srq & Hct & Hsr & Hlk1 & Hr1) (stq & crq & Hst & Hcr & Hlk2 & Hr2)] Hstep.
  eapply wp_mono; [by eapply wp_write_tx|]. intros n' w' (-> & Hr & Hfr). split; [done|]. split; [done|..].
  - exists ctq, srq. repeat (split; [done|]).
    eapply represents_frame; [apply Hlk1|by eapply separate_undisturbed; [apply separate_sym|]|done].
  - by exists stq, crq.
Qed.

Lemma lookup_set_rx i q p : is_Some (rxQueues p !! i) -> rxQueues (set_rx i q p) !! i = Some q.
Proof using. intros [x Hx]. apply list_lookup_insert_eq. by eapply lookup_lt_Some. Qed.

Lemma server_receives pc ps f1 f2 f1' buf n b e w :
  duplex L1 L2 pc ps f1 f2 (shm w) ->
  fifo_step (l_size L1) (l_cap L1) f1 (ORead buf) = Some (OutRead n b e, f1') ->
  wp (read_rx ps 0 buf) w (fun '(ps', r) w' => rd_n r = n /\ rd_pkt r = b /\ rd_err r = e /\
    duplex L1 L2 pc ps' f1' f2 (shm w')).
Proof using All.
  intros [Hsep (ctq & srq & Hct & Hsr & Hlk1 & Hr1) (stq & crq & Hst & Hcr & Hlk2 & Hr2)] Hstep.
  eapply wp_mono; [by eapply wp_read_rx|]. intros [ps' r] w' (Hn & Hb & He & -> & Hr & Hfr).
  repeat (split; [done|]). split; [done|..].
  - exists ctq, (rd_queue r). split; [done|]. split; [apply lookup_set_rx; by eexists|].
    rewrite (proj1 Hr). split; [by apply linked_set_rx_cons|done].
  - exists stq, crq. split; [done|]. split; [done|]. split; [by apply linked_set_rx_prod|].
    apply represents_set_rx. eapply represents_frame; [apply Hlk2|by eapply separate_undisturbed|done].
Qed.

Lemma client_receives pc ps f1 f2 f2' buf n b e w :
  duplex L1 L2 pc ps f1 f2 (shm w) ->
  fifo_step (l_size L2) (l_cap L2) f2 (ORead buf) = Some (OutRead n b e, f2') ->
  wp (read_rx pc 0 buf) w (fun '(pc', r) w' => rd_n r = n /\ rd_pkt r = b /\ rd_err r = e /\
    duplex L1 L2 pc' ps f1 f2' (shm w')).
Proof using All.
  intros [Hsep (ctq & srq & Hct & Hsr & Hlk1 & Hr1) (stq & crq & Hst & Hcr & Hlk2 & Hr2)] Hstep.
  eapply wp_mono; [by eapply wp_read_rx|]. intros [pc' r] w' (Hn & Hb & He & -> & Hr & Hfr).
  repeat (split; [done|]). split; [done|..].
  - exists ctq, srq. split; [done|]. split; [done|]. split; [by apply linked_set_rx_prod|].
    apply represents_set_rx. eapply represents_frame;
      [apply Hlk1|by eapply separate_undisturbed; [apply separate_sym|]|done].
  - exists stq, (rd_queue r). split; [done|]. split; [apply lookup_set_rx; by eexists|].
    rewrite (proj1 Hr). split; [by apply linked_set_rx_cons|done].
Qed.
End rules.

(** ** Packets that fit one buffer *)

Section fits.
Context (cap : Z) (Hcap : 0 < cap).

Lemma slots_fit p : zlen p <= cap -> slots cap p = 1.
Proof using Hcap. intros Hp. unfold slots. by rewrite more_slots_fits. Qed.

Lemma delivered_fit p : zlen p <= cap -> delivered cap p = p.
Proof using Hcap.
  intros Hp. rewrite delivered_concat, more_slots_fits, chunk_fits by done. simpl. apply app_nil_r.
Qed.

(** A packet never shrinks. *)
Lemma delivered_longer p : zlen p <= zlen (delivered cap p).
Proof using Hcap.
  destruct (Z.le_gt_cases (zlen p) cap) as [Hp|Hp]; [by rewrite delivered_fit|].
  rewrite delivered_concat, chunk_long by lia.
  pose proof (slots_long cap Hcap p Hp) as Hs. unfold slots in Hs.
  assert (0 <= more_slots cap p) as Hm by (unfold more_slots; apply extra_nonneg; lia).
  unfold zlen. rewrite length_concat, fmap_replicate, sum_list_replicate, length_take. unfold zlen in Hp, Hs.
  rewrite Nat.min_l by lia.
  assert (cap * ((Z.of_nat (length p) + cap - 1) / cap) >= Z.of_nat (length p)) as Hd.
  { pose proof (Z.div_mod (Z.of_nat (length p) + cap - 1) cap ltac:(lia)).
    pose proof (Z.mod_pos_bound (Z.of_nat (length p) + cap - 1) cap Hcap). lia. }
  rewrite <- Hs in Hd. lia.
Qed.

Lemma step_write_fit n f p :
  zlen p <= cap ->
  fifo_step n cap f (OWrite p) =
    Some (if 1 <=? f_credit f then (OutWrite (zlen p), mkFifo (packets f ++ [p]) (f_credit f - 1)) else (OutWrite 0, f)).
Proof using Hcap.
  intros Hp. simpl. rewrite slots_fit by done. assert (written cap p = zlen p) as ->.
  { unfold written. rewrite more_slots_fits by done. lia. }
  by destruct (1 <=? f_credit f).
Qed.

Lemma step_read_fit n f p rest buf :
  packets f = p :: rest -> zlen p <= cap -> zlen p <= zlen buf ->
  fifo_step n cap f (ORead buf) = Some (OutRead (zlen p) (splice 0 p buf) None, mkFifo rest (n - used cap rest)).
Proof using Hcap. intros Hf Hp Hb. simpl. rewrite Hf, delivered_fit, (proj2 (Z.leb_le _ _)) by done. done. Qed.
End fits.

Lemma take_splice (p buf : list byte) : zlen p <= zlen buf -> take (Z.to_nat (zlen p)) (splice 0 p buf) = p.
Proof.
  intros Hp. pose proof (sub_splice_same 0 p buf ltac:(lia) ltac:(lia)) as Hs.
  unfold sub in Hs. by rewrite drop_0 in Hs.
Qed.

(** What the echo server makes of the FIFO towards the client when it receives
    [p]: empty packets are not sent back, others are dropped when it is full. *)
Definition echo (f : fifo) (p : list byte) : fifo :=
  if (0 <? zlen p) && (1 <=? f_credit f) then mkFifo (packets f ++ [p]) (f_credit f - 1) else f.

(** All at once: the nonempty packets, as many as there is room for. *)
Lemma foldl_echo ps f :
  let kept := take (Z.to_nat (f_credit f)) (filter (fun p => p <> []) ps) in
  packets (foldl echo f ps) = packets f ++ kept.
Proof.
  cbv zeta. revert f. induction ps as [|p ps IH]; intros f.
  { change (filter _ []) with (@nil (list byte)). by rewrite take_nil, app_nil_r. }
  cbn [foldl]. rewrite IH. unfold echo. rewrite filter_cons. destruct p as [|b p].
  { done. }
  rewrite (proj2 (Z.ltb_lt _ _)) by (unfold zlen; simpl; lia). rewrite decide_True by done. cbn [andb].
  destruct (Z.leb_spec 1 (f_credit f)); simpl.
  - rewrite <- app_assoc. f_equal.
    replace (Z.to_nat (f_credit f)) with (S (Z.to_nat (f_credit f - 1))) by lia. done.
  - replace (Z.to_nat (f_credit f)) with 0%nat by lia. done.
Qed.

(** ** The workers *)

Section workers.
Context `{OS} `{!OSWrite _} (L1 L2 : layout).
Implicit Types w : world.

Lemma duplex_caps pc ps f1 f2 m : duplex L1 L2 pc ps f1 f2 m -> 0 < l_cap L1 /\ 0 < l_cap L2.
Proof using.
  intros [_ (? & ? & _ & _ & Hl1 & _) (? & ? & _ & _ & Hl2 & _)].
  pose proof (lw_cap _ (lk_wf _ _ _ _ _ _ Hl1)). pose proof (lw_cap _ (lk_wf _ _ _ _ _ _ Hl2)). lia.
Qed.

Lemma wp_slice_to b n w (Q : list byte -> world -> Prop) :
  0 <= n <= zlen b -> Q (take (Z.to_nat n) b) w -> wp (slice_to b n) w Q.
Proof using.
  intros ? HQ. unfold slice_to. by rewrite (proj2 (Z.leb_le 0 n)), (proj2 (Z.leb_le n _)) by lia.
Qed.

(** One turn of the server. *)
Lemma echo_turn pc ps f1 f2 p rest b w :
  duplex L1 L2 pc ps f1 f2 (shm w) -> packets f1 = p :: rest ->
  zlen p <= l_cap L1 -> zlen p <= l_cap L2 -> zlen p <= zlen b ->
  wp (EchoServer.packetprocessing ps (EchoServer.mk 0 0 b)) w (fun '(ps', we) w' =>
    exists b' : list byte, we = EchoServer.mk 0 0 b' /\ take (length p) b' = p /\ zlen b' = zlen b /\
      duplex L1 L2 pc ps' (mkFifo rest (l_size L1 - used (l_cap L1) rest)) (echo f2 p) (shm w')).
Proof using All.
  intros Hdx Hf H1 H2 Hb. destruct (duplex_caps _ _ _ _ _ Hdx) as [Hc1 Hc2]. pose proof (zlen_nonneg p).
  assert (zlen (splice 0 p b) = zlen b) as Hz by (apply zlen_splice; lia).
  pose proof (take_splice p b Hb) as Htake. unfold zlen in Htake. rewrite Nat2Z.id in Htake.
  unfold EchoServer.packetprocessing. apply wp_bind. eapply wp_mono.
  { eapply server_receives; [exact Hdx|by apply step_read_fit]. }
  intros [ps1 r] w1 (Hn & Hpk & He & Hdx1). cbn [EchoServer.rxq0 EchoServer.txq0]. rewrite He, Hn, Hpk.
  unfold echo. destruct (Z.ltb_spec 0 (zlen p)); cbn [andb].
  2: { apply wp_ret. exists (splice 0 p b); by split_and!. }
  rewrite ?Hn, ?Hpk. apply wp_bind, wp_slice_to; [cbn [EchoServer.pkt]; lia|].
  cbn [EchoServer.pkt]. rewrite take_splice by done. apply wp_bind.
  pose proof (step_write_fit (l_cap L2) Hc2 (l_size L2) f2 p H2) as Hstep.
  destruct (1 <=? f_credit f2); (eapply wp_mono; [by eapply server_sends|]);
    intros n w2 [_ Hdx2]; apply wp_ret; exists (splice 0 p b); by split_and!.
Qed.

(** [n] turns. *)
Fixpoint echo_turns (n : nat) (p : Port) (e : EchoServer.worker) : prog (Port * EchoServer.worker) :=
  match n with
  | O => mret (p, e)
  | S n => '(p, e) ← EchoServer.packetprocessing p e; echo_turns n p e
  end.

Lemma echo_many pc packs : forall ps f1 f2 b w,
  duplex L1 L2 pc ps f1 f2 (shm w) -> packets f1 = packs ->
  Forall (fun p => zlen p <= l_cap L1 /\ zlen p <= l_cap L2 /\ zlen p <= zlen b) packs ->
  wp (echo_turns (length packs) ps (EchoServer.mk 0 0 b)) w (fun '(ps', we) w' =>
    exists f1' b', we = EchoServer.mk 0 0 b' /\ packets f1' = [] /\
      duplex L1 L2 pc ps' f1' (foldl echo f2 packs) (shm w')).
Proof using All.
  induction packs as [|p packs IH]; intros ps f1 f2 b w Hdx Hf Hfit; cbn [length echo_turns].
  { apply wp_ret. by exists f1, b. }
  inversion Hfit as [|? ? (H1 & H2 & Hb) Hrest]; subst. apply wp_bind.
  eapply wp_mono; [by eapply echo_turn|]. intros [ps1 we] w1 (b' & -> & _ & Hz & Hdx1).
  eapply IH; [exact Hdx1|done|]. by rewrite Hz.
Qed.
End workers.

(** ** Time stamps *)

Lemma zlen_be64 v : zlen (be64 v) = 8.
Proof. unfold be64, zlen. rewrite length_rev. apply zlen_le64. Qed.

Lemma wp_Uint64 `{OS} v b w (Q : Z -> world -> Prop) :
  8 <= zlen b -> sub 0 8 b = be64 v -> Q (u64 v) w -> wp (Uint64 b) w Q.
Proof.
  intros Hb Hs HQ. unfold Uint64. rewrite (proj2 (Z.leb_le _ _)), Hs by lia. unfold be64.
  rewrite rev_involutive, unle_le64. apply wp_ret. by rewrite (u64_small (u64 v)) by apply u64_range.
Qed.

Section ping.
Context `{OS} `{!OSWrite _} (L1 L2 : layout).
Implicit Types w : world.

(** The client sends a time stamp, the server echoes, the client receives. *)
Definition ping (pc ps : Port) (ts : Z) (s : EchoClient.sender) (e : EchoServer.worker)
    (r : EchoClient.receiver) : prog (option Z) :=
  EchoClient.sendpkt pc ts s ;;
  '(ps, e) ← EchoServer.packetprocessing ps e;
  '(pc, r, stamp) ← EchoClient.recvpkt pc r;
  mret stamp.

Lemma wp_ping pc ps c1 c2 ts o b rb w :
  duplex L1 L2 pc ps (mkFifo [] c1) (mkFifo [] c2) (shm w) -> QuitChan_closed pc = false ->
  1 <= c1 -> 1 <= c2 -> 8 <= zlen o <= Z.min (l_cap L1) (l_cap L2) -> zlen o <= Z.min (zlen b) (zlen rb) ->
  wp (ping pc ps ts (EchoClient.mkSender 0 o) (EchoServer.mk 0 0 b) (EchoClient.mkReceiver 0 rb)) w
    (fun r _ => r = Some (u64 ts)).
Proof using All.
  intros Hdx Hq Hc1 Hc2 Ho Hb. destruct (duplex_caps L1 L2 _ _ _ _ _ Hdx) as [Hcap1 Hcap2].
  pose proof (zlen_be64 ts) as H8. set (o' := splice 0 (be64 ts) o).
  assert (zlen o' = zlen o) as Hz by (apply zlen_splice; lia).
  unfold ping, EchoClient.sendpkt. cbn [EchoClient.out EchoClient.txq0]. rewrite Hq.
  apply wp_bind, wp_bind. unfold PutUint64. rewrite (proj2 (Z.leb_le _ _)) by lia. apply wp_ret, wp_bind.
  eapply wp_mono; [eapply client_sends; [exact Hdx|]|].
  { rewrite step_write_fit by (fold o'; lia). simpl. rewrite (proj2 (Z.leb_le 1 c1)) by lia. done. }
  fold o'. intros n w1 [_ Hdx1]. apply wp_ret, wp_bind.
  eapply wp_mono; [eapply (echo_turn L1 L2 pc ps _ _ o' []); [exact Hdx1|done|lia..]|].
  intros [ps2 e2] w2 (b2 & _ & _ & _ & Hdx2). unfold echo in Hdx2. cbn [f_credit packets app] in Hdx2.
  rewrite (proj2 (Z.ltb_lt _ _)), (proj2 (Z.leb_le 1 c2)) in Hdx2 by lia. cbn [andb] in Hdx2.
  apply wp_bind. unfold EchoClient.recvpkt. apply wp_bind.
  eapply wp_mono; [eapply client_receives; [exact Hdx2|]|].
  { apply (step_read_fit _ Hcap2 _ _ o' []); [done|cbn [EchoClient.pkt]; lia..]. }
  intros [pc3 r] w3 (Hn & Hpk & _ & _). rewrite Hn, Hpk. cbn [EchoClient.pkt].
  rewrite (proj2 (Z.ltb_lt _ _)) by lia. apply wp_bind. eapply (wp_Uint64 ts).
  - rewrite zlen_splice by lia. lia.
  - rewrite sub_splice_inside by lia. rewrite Z.sub_diag. unfold o'. rewrite <- H8. apply sub_splice_same; lia.
  - by apply wp_ret, wp_ret.
Qed.
End ping.

(** ** Packets longer than the server's buffer *)

Lemma wpe_oversized `{OS} L1 L2 pc ps f1 f2 p rest b w :
  duplex L1 L2 pc ps f1 f2 (shm w) -> packets f1 = p :: rest -> zlen b < zlen p ->
  wpe (eq SliceOutOfRange) (EchoServer.packetprocessing ps (EchoServer.mk 0 0 b)) w (fun _ _ => False).
Proof.
  intros Hdx Hf Hlong. destruct (duplex_caps _ _ _ _ _ _ _ Hdx) as [Hc1 _].
  destruct (dx_up _ _ _ _ _ _ _ Hdx) as (ctq & srq & _ & Hsr & Hlk & _ & C & P & Hi).
  pose proof (delivered_longer _ Hc1 p) as Hdel.
  rewrite Hf in Hi. cbn [fmap list_fmap concat] in Hi.
  destruct (encode_head ringTypeS2M L1 pc ctq ps (q_ring srq) Hlk p (concat (encode (l_cap L1) <$> rest)))
    as (c & bs & cs & He & Hch).
  change (concat (encode (l_cap L1) p :: (encode (l_cap L1) <$> rest))) with
    (encode (l_cap L1) p ++ concat (encode (l_cap L1) <$> rest)) in Hi.
  rewrite He in Hi. unfold EchoServer.packetprocessing. apply wpe_bind, wpe_step, wp_queue_ptr with srq; [done|].
  apply wpe_bind. cbn [EchoServer.pkt EchoServer.rxq0 EchoServer.txq0].
  eapply (wpe_ReadPacket _ ringTypeS2M L1 pc ctq ps (q_ring srq) Hlk); [done|exact Hi| |].
  { destruct (chain_of c cs) as [[? ?] ?]. tauto. }
  destruct (overruns _ _ _ _); [done|]. intros r w1 Hn Her Hz _.
  assert (rd_n r = zlen (delivered (l_cap L1) p)) as Hn'.
  { rewrite Hn. cbn [next_frame]. destruct (chain_of c cs) as [[ds k] ok]. by destruct Hch as (<- & _). }
  unfold wpe at 1. cbn [run mret prog_ret]. rewrite Her, Hn'.
  pose proof (zlen_nonneg b). rewrite (proj2 (Z.ltb_lt _ _)) by lia. apply wpe_bind.
  unfold slice_to. rewrite (proj2 (Z.leb_gt _ (zlen (rd_pkt r)))) by lia. rewrite andb_false_r. by apply wpe_panic.
Qed.

(** ** A pair of rings in one file

    Two slots of eight bytes per direction: headers and descriptors at 0 and 160,
    buffers at 320 and 336; both rings empty, all buffers free. *)
Definition pair_hdr (t : ringType) : Z := match t with ringTypeS2M => 0 | ringTypeM2S => 160 end.
Definition pair_buf (t : ringType) : Z := match t with ringTypeS2M => 320 | ringTypeM2S => 336 end.
Definition pair_layout (t : ringType) : layout :=
  mkLayout 0 (pair_hdr t) 1 8 (fun _ => 0) (fun i => pair_buf t + 8 * i) (fun _ => O) (fun i => pair_buf t + 8 * i).
Definition pair_mc : MemoryConfig := mkMemoryConfig 1 1 8.
Definition pair_ring (t : ringType) : ring := mkRing t 2 1 0 (zeros 128) (pair_hdr t).
Definition pair_queue (t : ringType) : Queue := mkQueue (pair_ring t) 0 0 0 9.
Definition pair_data : slice := mkSlice 0 0 352.
Definition pair_port (server : bool) : Port :=
  mkPort (mkPortCfg 0 server [] (zeros 24) pair_mc (UserFunc 0) (UserFunc 1) None) pair_mc None None [] []
    [mkRegion (Some pair_data) 352 3 320]
    [pair_queue (if server then ringTypeM2S else ringTypeS2M)]
    [pair_queue (if server then ringTypeS2M else ringTypeM2S)] false false.

Definition pair_bytes : list byte :=
  le32 65216288 ++ le16 1 ++ zeros 122 ++
  encode_desc (mkDesc 0 0 8 320 0) ++ encode_desc (mkDesc 0 0 8 328 0) ++
  le32 65216288 ++ le16 1 ++ le16 2 ++ zeros 120 ++
  encode_desc (mkDesc 0 0 8 336 0) ++ encode_desc (mkDesc 0 0 8 344 0) ++ zeros 32.
Definition pair_world : @world demo_os := mkWorld {[ O := pair_bytes ]} (mkDemo 10 [] []).

Lemma pair_layout_wf t : layout_wf (pair_layout t).
Proof.
  split; unfold pair_layout, l_size; simpl; try lia.
  - intros i Hi. right. unfold ringSize, descSize. change (2 ^ 1) with 2 in *. destruct t; simpl; lia.
  - intros i j Hi Hj ?. right. change (2 ^ 1) with 2 in *. lia.
Qed.

Lemma pair_side t server q : q_ring q = pair_ring t -> side (pair_layout t) (pair_port server) q pair_data.
Proof.
  intros Hq. split; unfold hdr; rewrite ?Hq; try done.
  - split; rewrite ?Hq; try (by destruct t). by eexists.
  - intros i Hi. change (l_size (pair_layout t)) with 2 in Hi. split; [done|].
    eexists _, pair_data. repeat split; destruct t; simpl; lia.
Qed.

Lemma pair_linked t :
  linked t (pair_layout t) (pair_port (producer_is_server t)) (pair_queue t)
    (pair_port (negb (producer_is_server t))) (pair_ring t).
Proof.
  split; try done.
  - apply pair_layout_wf.
  - exists pair_data. by apply pair_side.
  - exists pair_data. intros q Hq. by apply pair_side.
  - by destruct t.
Qed.

Lemma pair_slot t i : 0 <= i < 2 ->
  has_desc (pair_layout t) (shm pair_world) i 0 8 /\ buf_valid (pair_layout t) (shm pair_world) i.
Proof.
  intros Hi. assert (i = 0 \/ i = 1) as [->| ->] by lia.
  - split; [exists (encode_desc (mkDesc 0 0 8 (pair_buf t) 0)); by destruct t; vm_compute|by destruct t; eexists].
  - split; [exists (encode_desc (mkDesc 0 0 8 (pair_buf t + 8) 0)); by destruct t; vm_compute|by destruct t; eexists].
Qed.

Lemma pair_inv t :
  ring_inv t (pair_layout t) (pair_port (producer_is_server t)) (shm pair_world) (pair_queue t) 0 0 2 [].
Proof.
  split; try (by destruct t).
  - split; try (by destruct t). intros i Hi. destruct (pair_slot t i Hi). split; eauto.
  - intros x Hx. pose proof (sl_range (pair_layout t) (pair_layout_wf t) x) as Hr.
    destruct (pair_slot t (sl (pair_layout t) x) Hr) as [Hd Hv]. split; [|done].
    eexists _, _. split; [exact Hd|]. by destruct t.
  - destruct t; [done|]. intros i Hi. destruct (pair_slot ringTypeM2S i Hi) as [Hd _].
    eexists _, _. split; [done|lia].
Qed.

Lemma pair_separate : separate (pair_layout ringTypeS2M) (pair_layout ringTypeM2S).
Proof.
  split; [split|intros i Hi; split]; [|intros j Hj| |intros j Hj]; right; simpl;
    change (l_size (pair_layout ringTypeS2M)) with 2 in *; change (l_size (pair_layout ringTypeM2S)) with 2 in *;
    unfold ringSize, descSize; lia.
Qed.

Lemma pair_duplex :
  duplex (pair_layout ringTypeS2M) (pair_layout ringTypeM2S) (pair_port false) (pair_port true)
    (mkFifo [] 2) (mkFifo [] 2) (shm pair_world).
Proof.
  split; [exact pair_separate|..].
  - exists (pair_queue ringTypeS2M), (pair_queue ringTypeS2M). split; [done|]. split; [done|].
    split; [exact (pair_linked ringTypeS2M)|]. split; [done|]. exists 0, 0. exact (pair_inv ringTypeS2M).
  - exists (pair_queue ringTypeM2S), (pair_queue ringTypeM2S). split; [done|]. split; [done|].
    split; [exact (pair_linked ringTypeM2S)|]. split; [done|]. exists 0, 0. exact (pair_inv ringTypeM2S).
Qed.

(** The world after the client has sent [pkt]. *)
Definition pair_sent (pkt : list byte) : @world demo_os :=
  match run (write_tx (pair_port false) 0 pkt) pair_world with Done _ w => w | _ => pair_world end.

Lemma pair_sent_duplex pkt n f :
  fifo_step 2 8 (mkFifo [] 2) (OWrite pkt) = Some (OutWrite n, f) ->
  duplex (pair_layout ringTypeS2M) (pair_layout ringTypeM2S) (pair_port false) (pair_port true)
    f (mkFifo [] 2) (shm (pair_sent pkt)).
Proof.
  intros Hstep. pose proof (client_sends _ _ _ _ _ _ f pkt n pair_world pair_duplex Hstep) as Hwp.
  unfold pair_sent, wp in *. destruct (run _ pair_world); [|done..]. by destruct Hwp.
Qed.

(** ** Theorems *)

(** C16: the echo server, reading a ring of packets that fit its buffer and both
    rings' buffers, turn by turn: after as many turns as there are packets it has
    received all of them and sent back, in order and byte for byte, the nonempty
    ones, as many as the ring to the client had room for; the others are dropped. *)
Theorem echo_forwards `{OS} `{!OSWrite _} L1 L2 pc ps f1 f2 b w :
  duplex L1 L2 pc ps f1 f2 (shm w) ->
  Forall (fun p => zlen p <= l_cap L1 /\ zlen p <= l_cap L2 /\ zlen p <= zlen b) (packets f1) ->
  exists ps' b' f1' f2' w',
    run (echo_turns (length (packets f1)) ps (EchoServer.mk 0 0 b)) w = Done (ps', EchoServer.mk 0 0 b') w' /\
    duplex L1 L2 pc ps' f1' f2' (shm w') /\ packets f1' = [] /\
    packets f2' = packets f2 ++ take (Z.to_nat (f_credit f2)) (filter (fun p => p <> []) (packets f1)).
Proof.
  intros Hdx Hfit. pose proof (echo_many L1 L2 pc (packets f1) ps f1 f2 b w Hdx eq_refl Hfit) as Hwp.
  apply wp_done in Hwp as ([ps' we] & w' & Hr & f1' & b' & -> & Hf1 & Hdx').
  exists ps', b', f1', (foldl echo f2 (packets f1)), w'. split; [done|]. split; [done|]. split; [done|].
  apply foldl_echo.
Qed.

Lemma echo_forwards_witness :
  exists ps' b' f1' f2' w',
    run (echo_turns 1 (pair_port true) (EchoServer.mk 0 0 (zeros 8))) (pair_sent demo_pkt1)
      = Done (ps', EchoServer.mk 0 0 b') w' /\
    duplex (pair_layout ringTypeS2M) (pair_layout ringTypeM2S) (pair_port false) ps' f1' f2' (shm w') /\
    packets f1' = [] /\ packets f2' = [demo_pkt1].
Proof.
  apply (echo_forwards (pair_layout ringTypeS2M) (pair_layout ringTypeM2S) (pair_port false) (pair_port true)
           (mkFifo [demo_pkt1] 1) (mkFifo [] 2) (zeros 8) (pair_sent demo_pkt1)).
  - apply (pair_sent_duplex demo_pkt1 3). reflexivity.
  - repeat constructor; vm_compute; discriminate.
Defined.

(** C17: the time stamp that simple_echo's client sends comes back: the receiver
    reads, from the packet the server echoed over the other ring, the 64-bit value
    the sender wrote, so what it logs is the time since that very packet was sent. *)
Theorem ping_round_trip `{OS} `{!OSWrite _} L1 L2 pc ps c1 c2 ts o b rb w :
  duplex L1 L2 pc ps (mkFifo [] c1) (mkFifo [] c2) (shm w) -> QuitChan_closed pc = false ->
  1 <= c1 -> 1 <= c2 -> 8 <= zlen o <= Z.min (l_cap L1) (l_cap L2) -> zlen o <= Z.min (zlen b) (zlen rb) ->
  exists w', run (ping pc ps ts (EchoClient.mkSender 0 o) (EchoServer.mk 0 0 b) (EchoClient.mkReceiver 0 rb)) w
               = Done (Some (u64 ts)) w'.
Proof.
  intros Hdx Hq H1 H2 Ho Hb. pose proof (wp_ping L1 L2 pc ps c1 c2 ts o b rb w Hdx Hq H1 H2 Ho Hb) as Hwp.
  apply wp_done in Hwp as (r & w' & Hr & ->). by exists w'.
Qed.

Lemma ping_round_trip_witness :
  exists w', run (ping (pair_port false) (pair_port true) 1700000000000000000
                    (EchoClient.mkSender 0 (zeros 8)) (EchoServer.mk 0 0 (zeros 8)) (EchoClient.mkReceiver 0 (zeros 8)))
               pair_world = Done (Some 1700000000000000000) w'.
Proof.
  apply (ping_round_trip (pair_layout ringTypeS2M) (pair_layout ringTypeM2S) (pair_port false) (pair_port true) 2 2
           1700000000000000000 (zeros 8) (zeros 8) (zeros 8) pair_world pair_duplex);
    [reflexivity|lia|lia|vm_compute; split; discriminate|vm_compute; discriminate].
Defined.

(** C34: a packet longer than the echo server's 2048-byte buffer kills it, whether
    ReadPacket itself slices its buffer beyond the end (a chain with a descriptor
    that starts there) or returns a length that [pkt[:pktLen]] exceeds. *)
Theorem oversized_packet_crashes_echo `{OS} L1 L2 pc ps f1 f2 p rest b w :
  duplex L1 L2 pc ps f1 f2 (shm w) -> packets f1 = p :: rest -> zlen b < zlen p ->
  run (EchoServer.packetprocessing ps (EchoServer.mk 0 0 b)) w = Panicked SliceOutOfRange.
Proof. intros Hdx Hf Hlong. apply wpe_panicked. by eapply wpe_oversized. Qed.

(** Nine bytes over eight-byte slots, read into an eight-byte buffer. *)
Lemma oversized_packet_crashes_echo_witness :
  run (EchoServer.packetprocessing (pair_port true) (EchoServer.mk 0 0 (zeros 8))) (pair_sent (zeros 9))
    = Panicked SliceOutOfRange.
Proof.
  apply (oversized_packet_crashes_echo (pair_layout ringTypeS2M) (pair_layout ringTypeM2S) (pair_port false)
           (pair_port true) (mkFifo [zeros 9] 0) (mkFifo [] 2) (zeros 9) [] (zeros 8)).
  - apply (pair_sent_duplex (zeros 9) 16). reflexivity.
  - reflexivity.
  - reflexivity.
Defined.
