(* ===== verification/Workers.v ===== *)
(** * Workers and the disconnect of their port

    Each goroutine that [Connected] starts adds itself to the port's wait group;
    [defaultDisconnectedFunc], in the polling goroutine, closes [QuitChan] and
    waits for the group.  The goroutines of one port are a transition system, from
    [Connected] to the return of [Wg.Wait]: in between the port's queue slices are
    not replaced.  Shared memory and kernel may change arbitrarily between steps. *)
From stdpp Require Import base tactics list gmap strings relations.
From coqutil Require Import Byte.
From Stdlib Require Import ZArith Lia.
From S2P Require Import Prelude.
From S2P Require Import GoInt.
From S2P Require Import Shm.
From S2P Require Import State.
From S2P Require Import Queue.
From S2P Require Import Packet.
From S2P Require Import Heap.
From S2P Require Import Endpoint.
From S2P Require Import Demo.
From S2P Require Import Apps.

(** ** Goroutines *)

Inductive wstate :=
| Echoing (w : EchoServer.worker)
| Stamping (w : EchoClient.sender)
| Timing (w : EchoClient.receiver)
| Sending (w : BwSender.worker)
| Receiving (w : BwReceiver.worker).

Definition exit_map {A B} (f : A -> B) (e : exit A) : exit B :=
  match e with Continue a => Continue (f a) | Fatal m => Fatal m end.

Definition start (c : code) (p : Port) : prog (exit wstate) :=
  match c with
  | ServeEcho => e ← EchoServer.start p; mret (exit_map Echoing e)
  | SendStamps => e ← EchoClient.start_send p; mret (exit_map Stamping e)
  | ReceiveStamps => e ← EchoClient.start_recv p; mret (exit_map Timing e)
  | SendPackets qid => e ← BwSender.start p qid; mret (exit_map Sending e)
  | ReceivePackets qid => e ← BwReceiver.start p qid; mret (exit_map Receiving e)
  end.

(** One iteration at time [ts] with packet counter [n]; [None]: the goroutine
    returns. *)
Definition turn (p : Port) (ts n : Z) (s : wstate) : prog (Port * Z * option wstate) :=
  match s with
  | Echoing w => '(p, w) ← EchoServer.packetprocessing p w; mret (p, n, Some (Echoing w))
  | Stamping w => w ← EchoClient.sendpkt p ts w; mret (p, n, option_map Stamping w)
  | Timing w => '(p, w, _) ← EchoClient.recvpkt p w; mret (p, n, Some (Timing w))
  | Sending w => '(w, n) ← BwSender.sendpkt p n w; mret (p, n, option_map Sending w)
  | Receiving w => '(p, w, n) ← BwReceiver.recvpkt p n w; mret (p, n, Some (Receiving w))
  end.

(** A goroutine: not yet run, in its loop, past it ([defer p.Wg.Done()] to come),
    gone. *)
Inductive routine := Starting (c : code) | Looping (s : wstate) | Leaving | Gone.

(** [defaultDisconnectedFunc]: not called, in [Wg.Wait], returned. *)
Inductive disc_pc := Up | Waiting | Down.
#[export] Instance disc_pc_eq_dec : EqDecision disc_pc.
Proof. solve_decision. Defined.

Record app := mkApp {
  a_port : Port;
  a_wg : Z;
  a_count : Z;
  a_routines : list routine;
  a_disc : disc_pc
}.

(** The port once [Connected] has returned. *)
Definition connected_app (p : Port) (cs : list code) : app := mkApp p 0 0 (Starting <$> cs) Up.

Section steps.
Context `{OS}.

Inductive app_step : app -> app -> Prop :=
| step_start a i c s (w w' : world) :
    a_routines a !! i = Some (Starting c) -> run (start c (a_port a)) w = Done (Continue s) w' ->
    app_step a (mkApp (a_port a) (a_wg a + 1) (a_count a) (<[i := Looping s]> (a_routines a)) (a_disc a))
| step_turn a i s ts p n s' (w w' : world) :
    a_routines a !! i = Some (Looping s) ->
    run (turn (a_port a) ts (a_count a) s) w = Done (p, n, Some s') w' ->
    app_step a (mkApp p (a_wg a) n (<[i := Looping s']> (a_routines a)) (a_disc a))
| step_quit a i s ts p n (w w' : world) :
    a_routines a !! i = Some (Looping s) ->
    run (turn (a_port a) ts (a_count a) s) w = Done (p, n, None) w' ->
    app_step a (mkApp p (a_wg a) n (<[i := Leaving]> (a_routines a)) (a_disc a))
| step_done a i :
    a_routines a !! i = Some Leaving ->
    app_step a (mkApp (a_port a) (a_wg a - 1) (a_count a) (<[i := Gone]> (a_routines a)) (a_disc a))
| step_close a :
    a_disc a = Up -> QuitChan_closed (a_port a) = false -> ErrChan_closed (a_port a) = false ->
    app_step a (mkApp (set_chans_closed true true (a_port a)) (a_wg a) (a_count a) (a_routines a) Waiting)
| step_wait a :
    a_disc a = Waiting -> a_wg a = 0 ->
    app_step a (mkApp (a_port a) (a_wg a) (a_count a) (a_routines a) Down).

(** ** The wait group *)

Definition member (r : routine) : Z := match r with Looping _ | Leaving => 1 | _ => 0 end.
Definition members (rs : list routine) : Z := foldr (fun r n => member r + n) 0 rs.

Definition counted (a : app) : Prop := a_wg a = members (a_routines a).

Lemma members_insert i r r' rs :
  rs !! i = Some r -> members (<[i := r']> rs) = members rs - member r + member r'.
Proof using.
  revert i. induction rs as [|x rs IH]; intros [|i] Hi; simpl in *; simplify_eq; [lia|].
  unfold members in *. simpl. specialize (IH i Hi). lia.
Qed.

Lemma members_nonneg rs : 0 <= members rs.
Proof using. induction rs as [|[] rs IH]; simpl; lia. Qed.

Lemma members_pos i r rs : rs !! i = Some r -> member r <= members rs.
Proof using.
  revert i. induction rs as [|x rs IH]; intros [|i] Hi; simpl in *; simplify_eq.
  - pose proof (members_nonneg rs). unfold members in *. lia.
  - specialize (IH i Hi). destruct x; simpl; unfold members in *; lia.
Qed.

Lemma counted_step a b : counted a -> app_step a b -> counted b.
Proof using.
  unfold counted. intros Ha Hs. inversion Hs; subst; simpl in *; try done;
    erewrite members_insert by eassumption; simpl; lia.
Qed.

(** ** Receiving workers *)

(** Workers whose loop has no exit. *)
Definition endless (s : wstate) : bool :=
  match s with Echoing _ | Timing _ | Receiving _ => true | _ => false end.

Definition has_endless (a : app) : Prop :=
  exists i s, a_routines a !! i = Some (Looping s) /\ endless s = true.

Lemma endless_turn p ts n s w p' n' r w' :
  endless s = true -> run (turn p ts n s) w = Done (p', n', r) w' ->
  exists s', r = Some s' /\ endless s' = true.
Proof using.
  intros He Hr. destruct s; try done; simpl in Hr; rewrite run_bind in Hr.
  - destruct (run (EchoServer.packetprocessing p w0) w) as [[p1 w1] ?|e| |]; simpl in Hr; simplify_eq. eauto.
  - destruct (run (EchoClient.recvpkt p w0) w) as [[[p1 w1] ?] ?|e| |]; simpl in Hr; simplify_eq. eauto.
  - destruct (run (BwReceiver.recvpkt p n w0) w) as [[[p1 w1] ?] ?|e| |]; simpl in Hr; simplify_eq. eauto.
Qed.

Lemma has_endless_step a b : has_endless a -> app_step a b -> has_endless b.
Proof using.
  intros (i & s & Hi & He) Hs.
  assert (Hother : forall j r rs, a_routines a !! j <> Some (Looping s) \/ j <> i ->
    rs = <[j := r]> (a_routines a) -> rs !! i = Some (Looping s)).
  { intros j r rs Hj ->. rewrite list_lookup_insert_ne; [done|]. intros ->. destruct Hj as [Hj|]; [by apply Hj|done]. }
  inversion Hs as [? j c s1 w w' Hj Hr|? j s1 ts p n s2 w w' Hj Hr|? j s1 ts p n w w' Hj Hr|? j Hj| |]; subst; simpl.
  - exists i, s. split; [|done]. eapply Hother; [|done]. left. by rewrite Hj.
  - destruct (decide (j = i)) as [->|Hne].
    + rewrite Hi in Hj. injection Hj as <-. destruct (endless_turn _ _ _ _ _ _ _ _ _ He Hr) as (s' & [= <-] & He').
      exists i, s2. split; [|done]. apply list_lookup_insert_eq. by eapply lookup_lt_Some.
    + exists i, s. split; [|done]. eapply Hother; [by right|done].
  - destruct (decide (j = i)) as [->|Hne].
    + rewrite Hi in Hj. injection Hj as <-. by destruct (endless_turn _ _ _ _ _ _ _ _ _ He Hr) as (s' & ? & _).
    + exists i, s. split; [|done]. eapply Hother; [by right|done].
  - exists i, s. split; [|done]. eapply Hother; [|done]. left. by rewrite Hj.
  - by exists i, s.
  - by exists i, s.
Qed.

Lemma blocked_step a b :
  counted a -> has_endless a -> a_disc a <> Down -> app_step a b ->
  counted b /\ has_endless b /\ a_disc b <> Down.
Proof using.
  intros Hc He Hd Hs. pose proof (counted_step _ _ Hc Hs). pose proof (has_endless_step _ _ He Hs).
  split; [done|]. split; [done|]. destruct He as (i & s & Hi & _).
  pose proof (members_pos _ _ _ Hi) as Hp. unfold counted in Hc.
  inversion Hs; subst; simpl in *; try done. lia.
Qed.

(** ** Sending workers *)

(** All goroutines run and can leave their loop. *)
Definition leavers (rs : list routine) : Prop :=
  Forall (fun r => match r with Starting _ => False | Looping s => endless s = false | _ => True end) rs.

(** Steps a goroutine still makes once [QuitChan] is closed. *)
Definition to_go (r : routine) : nat := match r with Looping _ => 2 | Leaving => 1 | _ => 0 end.
Definition left (a : app) : nat :=
  sum_list_with to_go (a_routines a) + match a_disc a with Down => 0 | _ => 1 end.

Lemma sum_insert (f : routine -> nat) i r r' rs :
  rs !! i = Some r -> (sum_list_with f (<[i := r']> rs) + f r = sum_list_with f rs + f r')%nat.
Proof using.
  revert i. induction rs as [|x rs IH]; intros [|i] Hi; simpl in *; simplify_eq; [lia|].
  specialize (IH i Hi). lia.
Qed.

Lemma quit_turn p ts n s w :
  QuitChan_closed p = true -> endless s = false -> run (turn p ts n s) w = Done (p, n, None) w.
Proof using.
  intros Hq He. destruct s; try done; simpl; unfold EchoClient.sendpkt, BwSender.sendpkt; by rewrite Hq.
Qed.

(** What closing leaves to do. *)
Record quitting (a : app) : Prop := {
  qu_closed : QuitChan_closed (a_port a) = true;
  qu_disc : a_disc a <> Up;
  qu_leavers : leavers (a_routines a);
  qu_counted : counted a
}.

Lemma quitting_step a b : quitting a -> app_step a b -> quitting b /\ (left b < left a)%nat.
Proof using.
  intros [Hq Hd Hl Hc] Hs. pose proof (counted_step _ _ Hc Hs) as Hcb. unfold leavers in Hl.
  pose proof Hl as Hlk. rewrite Forall_lookup in Hlk.
  inversion Hs as [? j c s1 w w' Hj Hr|? j s1 ts p n s2 w w' Hj Hr|? j s1 ts p n w w' Hj Hr|? j Hj|? Hu|? Hw Hz];
    subst; simpl in *; unfold left; simpl; try (specialize (Hlk _ _ Hj); simpl in Hlk).
  - done.
  - rewrite (quit_turn _ _ _ _ _ Hq Hlk) in Hr. discriminate.
  - rewrite (quit_turn _ _ _ _ _ Hq Hlk) in Hr. injection Hr as <- <- _. split.
    + split; try done. by apply Forall_insert.
    + pose proof (sum_insert to_go _ _ Leaving _ Hj) as Hsum. simpl in Hsum. lia.
  - split; [split; try done; by apply Forall_insert|].
    pose proof (sum_insert to_go _ _ Gone _ Hj) as Hsum. simpl in Hsum. lia.
  - done.
  - split; [by split|]. rewrite Hw. lia.
Qed.

Lemma quitting_progress a (w : world) : quitting a -> a_disc a <> Down -> exists b, app_step a b.
Proof using.
  intros [Hq Hd Hl Hc] Hn. unfold leavers in Hl. rewrite Forall_lookup in Hl.
  destruct (decide (members (a_routines a) = 0)) as [Hz|Hz].
  { eexists. apply step_wait; [by destruct (a_disc a)|by rewrite Hc]. }
  assert (exists i r, a_routines a !! i = Some r /\ member r <> 0) as (i & r & Hi & Hr).
  { clear -Hz. revert Hz. induction (a_routines a) as [|r rs IH]; simpl; [done|]. intros Hz.
    destruct (decide (member r = 0)) as [Hr|Hr]; [|by exists 0%nat, r].
    destruct IH as (i & x & ? & ?); [unfold members in *; lia|]. by exists (S i), x. }
  specialize (Hl _ _ Hi). destruct r as [c|s| |]; try done; [|eexists; by eapply step_done].
  eexists. eapply (step_quit a i s 0); [done|]. by apply (quit_turn _ _ _ _ w).
Qed.
End steps.

(** ** Theorems *)

(** C30: a worker that receives in an endless loop (the echo server's, and the
    receivers of all examples) blocks the disconnect of its port for ever: once
    it has joined the wait group, in every later state it is still there,
    whatever the peer and the kernel do, so [defaultDisconnectedFunc] never
    returns; the polling goroutine that called it handles no further event. *)
Theorem receivers_block_disconnect `{OS} a b :
  counted a -> has_endless a -> a_disc a <> Down -> rtc app_step a b ->
  has_endless b /\ 0 < a_wg b /\ a_disc b <> Down.
Proof.
  intros Hc He Hd Hs. induction Hs as [a|a a1 b Hs1 _ IH].
  - split; [done|]. split; [|done]. destruct He as (i & s & Hi & _).
    pose proof (members_pos _ _ _ Hi) as Hp. unfold counted in Hc. simpl in Hp. lia.
  - destruct (blocked_step _ _ Hc He Hd Hs1) as (? & ? & ?). by apply IH.
Qed.

(** The echo server's worker runs, and the port is being disconnected. *)
Definition echoing : app :=
  mkApp (demo_port true) 1 0 [Looping (Echoing (EchoServer.mk 0 0 (zeros 2048)))] Up.

Lemma receivers_block_disconnect_witness :
  let b := mkApp (set_chans_closed true true (demo_port true)) 1 0 (a_routines echoing) Waiting in
  has_endless b /\ 0 < a_wg b /\ a_disc b <> Down.
Proof.
  intros b. apply (receivers_block_disconnect (H := demo_os) echoing).
  - reflexivity.
  - exists 0%nat, (Echoing (EchoServer.mk 0 0 (zeros 2048))). split; reflexivity.
  - discriminate.
  - apply rtc_once. exact (step_close echoing eq_refl eq_refl eq_refl).
Defined.

(** C31: workers that look at [QuitChan] (the senders of all examples) let the
    disconnect finish: once it is closed and all of them run, only boundedly many
    steps are left, and as long as [Wg.Wait] has not returned one of them is
    possible: every run that is not cut short ends with its return. *)
Theorem senders_release_disconnect `{OS} a (w : world) :
  quitting a ->
  (forall k b, nsteps app_step k a b -> (k <= left a)%nat) /\
  (forall b, rtc app_step a b -> a_disc b = Down \/ exists c, app_step b c).
Proof.
  intros Ha. split.
  - intros k. revert a Ha. induction k as [|k IH]; intros a Ha b Hn; [lia|].
    inversion Hn as [|? ? a1 ? Hs1 Hs2]; subst. destruct (quitting_step _ _ Ha Hs1) as [Ha1 Hl].
    specialize (IH a1 Ha1 b Hs2). lia.
  - intros b Hs. assert (quitting b) as Hb.
    { clear w. induction Hs as [a|a a1 b Hs1 _ IH]; [done|]. apply IH. by eapply quitting_step. }
    destruct (decide (a_disc b = Down)); [by left|right]. by apply quitting_progress.
Qed.

(** Two bw_test senders, told to quit. *)
Definition quitting_senders : app :=
  mkApp (set_chans_closed true true (demo_port false)) 2 0
    [Looping (Sending (BwSender.mk 0)); Looping (Sending (BwSender.mk 1))] Waiting.

Lemma senders_release_disconnect_witness :
  (forall k b, nsteps app_step k quitting_senders b -> (k <= 5)%nat) /\
  (forall b, rtc app_step quitting_senders b -> a_disc b = Down \/ exists c, app_step b c).
Proof.
  apply (senders_release_disconnect (H := demo_os) quitting_senders (@mkWorld demo_os ∅ (mkDemo 10 [] []))).
  split; [reflexivity|discriminate| |reflexivity]. repeat constructor.
Defined.
