(* ===== verification/Startup.v ===== *)
(** * Start-up of the example applications

    What [main] of bw_test's receiver has set up when it starts polling. *)
From stdpp Require Import base tactics list gmap strings pretty.
From coqutil Require Import Byte.
From Stdlib Require Import ZArith Lia.
From S2P Require Import Prelude.
From S2P Require Import GoInt.
From S2P Require Import Shm.
From S2P Require Import State.
From S2P Require Import Region.
From S2P Require Import Heap.
From S2P Require Import Endpoint.
From S2P Require Import Control.
From S2P Require Import Socket.
From S2P Require Import Trace.
From S2P Require Import Protocol.
From S2P Require Import Lifecycle.
From S2P Require Import Sessions.
From S2P Require Import Apps.

Section startup.
Context {os : OS} `{ErrnoText}.

(** A server port of main.go: appended and idle. *)
Lemma NewPort_server_calls c s w :
  ports_live s -> IsServer c = true -> existsb (has_key s c) (portList (socket s)) = false ->
  callsM (os := os) (NewPort c) s w (fun r s' _ => exists r', r = Some r' /\
    forall pid, r' = inl pid -> pid = next s /\ exists ls, s' = with_listener ls (with_port s c)).
Proof using.
  intros Hl Hs Hex. unfold NewPort. cstep. apply callsM_bind.
  eapply callsM_mono; [by apply Socket_NewPort_calls|]. rewrite Hex. intros [pid|e] s1 l1 Hpost w1.
  - destruct Hpost as (-> & ls & ->). eapply callsM_step; [apply get_port_eq; apply lookup_insert_eq|].
    unfold Port_IsServer. cbn [cfg fresh_port IsServer with_defaults]. rewrite Hs. apply callsM_ret.
    eexists. split; [done|]. intros pid [= <-]. split; [done|]. by exists ls.
  - apply callsM_ret. eexists. by split.
Qed.

(** Printing a port that is not connected changes nothing. *)
Lemma Port_String_idle pid p s :
  ports s !! pid = Some p -> p_cc p = None -> exists t, Port_String pid s = mret (t, s).
Proof using.
  intros Hp Hc. unfold Port_String. mstep.
  assert (IsConnected pid s = mret (false, s)) as Hcon by (unfold IsConnected; mstep; by rewrite Hc).
  rewrite (M_bind_ret _ _ _ _ _ Hcon). by eexists.
Qed.

(** The ports that are listed before index [i]: their ids are smaller. *)
Definition ids_below (i : Z) (s : state) : Prop :=
  ports_live s /\ fresh_ids s /\
  Forall (fun pid => forall p, ports s !! pid = Some p -> Id (cfg p) < i) (portList (socket s)).

Lemma ids_below_new i c s :
  ids_below i s -> Id c = i -> existsb (has_key s c) (portList (socket s)) = false.
Proof using.
  intros (Hl & _ & Hi) Hc. apply not_true_iff_false. intros Hex. apply existsb_exists in Hex as (pid & Hin & Hk).
  apply list_elem_of_In in Hin. unfold ports_live in Hl. rewrite Forall_forall in Hl, Hi.
  destruct (Hl _ Hin) as [p Hp]. specialize (Hi _ Hin _ Hp).
  apply bool_decide_eq_true in Hk. unfold port_key in Hk. rewrite Hp in Hk. simpl in Hk. injection Hk as Hid _. lia.
Qed.

Lemma ids_below_with_port i c s ls :
  ids_below i s -> Id c = i -> ids_below (i + 1) (with_listener ls (with_port s c)).
Proof using.
  intros (Hl & Hf & Hi) Hc. split; [exact (with_port_live s c Hl)|]. split; [exact (with_port_fresh s c Hf)|].
  simpl. apply Forall_app. split.
  - unfold ports_live in Hl. rewrite Forall_forall in *. intros pid Hin p. rewrite lookup_insert_ne.
    + intros Hp. specialize (Hi _ Hin _ Hp). lia.
    + intros <-. specialize (Hf _ (Hl _ Hin)). lia.
  - constructor; [|done]. intros p. rewrite lookup_insert_eq. intros [= <-]. simpl. lia.
Qed.

(** What the loop adds to [s]: [k] server ports with consecutive ids. *)
Record bw_listed (queueNum : Z) (k : nat) (i : Z) (s s' : state) : Prop := {
  bl_list : portList (socket s') = portList (socket s) ++ seq (next s) k;
  bl_new : forall j, (j < k)%nat ->
    ports s' !! (next s + j)%nat = Some (fresh_port (bw_cfg true queueNum (i + Z.of_nat j)));
  bl_old : forall pid, (pid < next s)%nat -> ports s' !! pid = ports s !! pid
}.

Lemma bw_listed_step queueNum k i s ls s' :
  bw_listed queueNum k (i + 1) (with_listener ls (with_port s (bw_cfg true queueNum i))) s' ->
  bw_listed queueNum (S k) i s s'.
Proof using.
  intros [Hl Hn Ho]. simpl in Hl, Hn, Ho. split.
  - rewrite Hl, <- app_assoc. done.
  - intros [|j] Hj.
    + rewrite Nat.add_0_r, Z.add_0_r, Ho by lia. apply lookup_insert_eq.
    + replace (next s + S j)%nat with (S (next s + j)) by lia. rewrite Hn by lia. do 3 f_equal. lia.
  - intros pid Hpid. rewrite Ho by lia. by rewrite lookup_insert_ne by lia.
Qed.

Lemma bw_ports_calls queueNum k : forall i s w,
  ids_below i s -> 0 <= i -> i + Z.of_nat k < 2 ^ 32 ->
  callsM (os := os) (bw_ports true queueNum k i) s w (fun r s' _ => exists r', r = Some r' /\
    (r' = Continue tt -> bw_listed queueNum k i s s')).
Proof using.
  induction k as [|k IH]; intros i s w Hs Hi Hk; cbn [bw_ports].
  { apply callsM_ret. eexists. split; [done|]. intros _. split; [by rewrite app_nil_r|lia|done]. }
  set (c := bw_cfg true queueNum i).
  apply callsM_bind. unfold must_port. apply callsM_bind. pose proof Hs as [Hlive _].
  eapply callsM_mono; [apply NewPort_server_calls; [done|done|by apply (ids_below_new i)]|].
  intros r s1 l1 (r' & -> & Hpost) w1. apply callsM_ret. intros w2. cbn [fmap option_fmap option_map].
  destruct r' as [pid|e]; [|apply callsM_ret; by eexists].
  destruct (Hpost pid eq_refl) as (-> & ls & ->).
  destruct (Port_String_idle (next s) (fresh_port c) (with_listener ls (with_port s c))) as [txt Htxt];
    [apply lookup_insert_eq|done|].
  eapply callsM_step; [exact Htxt|]. rewrite u32_small by lia.
  eapply callsM_mono; [apply IH; [by apply ids_below_with_port|lia|lia]|].
  intros r s2 l2 (r' & -> & Hr). exists r'. split; [done|]. intros Hc. by apply (bw_listed_step _ _ _ _ ls), Hr.
Qed.

Lemma calls_eventFd w (Q : Z * option goerror -> list scall -> Prop) :
  (forall r l, Q r l) -> calls (os := os) eventFd w Q.
Proof using. intros HQ. apply calls_bind, calls_sys. intros [efd|e] w1; by apply calls_ret. Qed.

Lemma addEvent_calls efd s w :
  callsM (os := os) (addEvent efd) s w (fun _ s' _ => s' = s).
Proof using. unfold addEvent. cstep. apply callsM_bind, callsM_lift, calls_sys. intros r w1. by apply callsM_ret. Qed.

(** A new socket has no ports. *)
Lemma calls_NewSocket app file w :
  calls (os := os) (NewSocket app file) w (fun r _ =>
    forall s, r = inl s -> portList (socket s) = [] /\ ports s = ∅ /\ next s = 0%nat).
Proof using.
  unfold NewSocket. apply calls_bind, calls_sys. intros ep w1. apply calls_bind, calls_eventFd.
  intros [efd e] l1 w2. cbv zeta. apply calls_bind.
  eapply calls_mono; [apply addEvent_calls|]. intros [[x|] s'] l2 -> w3; apply calls_ret; [done|].
  by intros s [= <-].
Qed.

Lemma calls_must_socket file w :
  calls (os := os) (must_socket file) w (fun r _ =>
    forall s, r = Continue s -> portList (socket s) = [] /\ ports s = ∅ /\ next s = 0%nat).
Proof using.
  unfold must_socket. apply calls_bind. eapply calls_mono; [apply calls_NewSocket|].
  intros [s|e] l Hs w1; apply calls_ret; [|done]. intros s' [= <-]. by apply Hs.
Qed.

Lemma bw_main_calls queueNum portNum file w :
  0 <= portNum < 2 ^ 32 ->
  calls (os := os) (bw_main true queueNum portNum file) w (fun r _ => exists r', r = Some r' /\
    forall s, r' = Continue s -> portList (socket s) = seq 0 (Z.to_nat portNum) /\
      forall j, (j < Z.to_nat portNum)%nat ->
        ports s !! j = Some (fresh_port (bw_cfg true queueNum (Z.of_nat j)))).
Proof using.
  intros Hn. unfold bw_main. apply calls_bind. eapply calls_mono; [apply calls_must_socket|].
  intros [s|m] l Hs w1; [|apply calls_ret; by eexists]. destruct (Hs s eq_refl) as (Hl & Hp & Hx).
  apply calls_bind. eapply calls_mono; [apply bw_ports_calls; [|lia|lia]|].
  { split; [|split].
    - unfold ports_live. by rewrite Hl.
    - intros pid. rewrite Hp. by intros [? ?].
    - by rewrite Hl. }
  intros [r s'] l1 (r' & -> & Hr) w2. apply calls_ret. cbn [fmap option_fmap option_map].
  destruct r' as [[]|m]; (eexists; split; [done|]); [|done]. intros s2 [= <-].
  destruct (Hr eq_refl) as [H1 H2 _]. rewrite Hl, Hx in H1. rewrite Hx in H2. split; [done|].
  intros j Hj. exact (H2 j Hj).
Qed.
End startup.

(** C27: bw_test's receiver, started on any kernel: [main] reaches the polling loop
    with exactly sixteen server ports on its socket, in order, with ids 0 to 15,
    names memif_s0 to memif_s15, two queue pairs and the default sizes, all waiting
    for a client; or it exits. *)
Theorem BwReceiver_starts {os} `{ErrnoText} file w :
  exists r w', @run (traced os) _ _ (BwReceiver_main file) w = Done (Some r) w' /\
    forall s, r = Continue s ->
      portList (socket s) = seq 0 16 /\
      forall j, (j < 16)%nat -> exists p, ports s !! j = Some p /\
        cfg p = mkPortCfg (Z.of_nat j) true (bytes_of ("memif_s" +:+ pretty (Z.of_nat j))) (zeros 24)
                  (mkMemoryConfig 2 10 2048) (UserFunc 0) DefaultDisconnectedFunc (Some O) /\
        p_cc p = None /\ regions p = [] /\ txQueues p = [] /\ rxQueues p = [].
Proof.
  pose proof (bw_main_calls (os := os) 2 16 file w ltac:(lia)) as Hc.
  apply wp_done in Hc as (r & w' & Hr & _ & _ & r' & -> & Hs). exists r', w'. split; [exact Hr|].
  intros s Hc. destruct (Hs s Hc) as [Hl Hp]. split; [exact Hl|]. intros j Hj.
  eexists. split; [by apply Hp|]. by repeat split.
Qed.
