(* ===== verification/Fields.v ===== *)
(** * Shared-memory fields

    The byte-level contracts the data path and its peer rely on: descriptors and
    ring headers as records, the partial update of a descriptor's length, and the
    interrupt. *)
From stdpp Require Import base tactics list gmap strings.
From coqutil Require Import Byte.
From Stdlib Require Import ZArith Lia.
From S2P Require Import Prelude.
From S2P Require Import GoInt.
From S2P Require Import Shm.
From S2P Require Import Descriptor.
From S2P Require Import State.
From S2P Require Import Ring.
From S2P Require Import Queue.
From S2P Require Import Demo.
From S2P Require Import Heap.
From S2P Require Import Trace.

(** ** Theorems *)

(** A descriptor buffer is a record of five fields and nothing else: reading
    what the setters write gives the values back, and writing back what the
    getters read gives the same sixteen bytes. *)
Theorem descriptor_codec :
  (forall d, desc_in_range d -> descBuf_wf (encode_desc d) /\ decode_desc (encode_desc d) = d) /\
  (forall db, descBuf_wf db -> desc_in_range (decode_desc db) /\ encode_desc (decode_desc db) = db).
Proof.
  split.
  - intros d Hd. split; [by rewrite encode_desc_bytes|by apply decode_encode_desc].
  - intros db Hdb. split; [by apply decode_desc_in_range|by apply encode_decode_desc].
Qed.

(** A setter of a ring header and the field it writes. *)
Inductive header_update :=
| UCookie (v : Z) | UFlags (v : Z) | UHead (v : Z) | UTail (v : Z).

Definition update_ring (u : header_update) : ring -> ring :=
  match u with
  | UCookie v => RingBuf.setCookie v
  | UFlags v => RingBuf.setFlags v
  | UHead v => RingBuf.setHead v
  | UTail v => RingBuf.setTail v
  end.

Definition update_header (u : header_update) (h : ringHeader) : ringHeader :=
  match u with
  | UCookie v => mkHeader (u32 v) (h_flags h) (h_head h) (h_tail h)
  | UFlags v => mkHeader (h_cookie h) (u16 v) (h_head h) (h_tail h)
  | UHead v => mkHeader (h_cookie h) (h_flags h) (u16 v) (h_tail h)
  | UTail v => mkHeader (h_cookie h) (h_flags h) (h_head h) (u16 v)
  end.

Lemma update_ring_step u r :
  ringBuf_wf r -> ringBuf_wf (update_ring u r) /\
  decode_header (update_ring u r) = update_header u (decode_header r).
Proof.
  intros Hwf. destruct u; simpl; (split; [auto with desc|]).
  - by apply decode_setCookie.
  - by apply decode_ring_setFlags.
  - by apply decode_setHead.
  - by apply decode_setTail.
Qed.

(** The setters of a ring header, in any order and number, act on the four
    fields as on a record: each field holds the last value set at its own width,
    no setter disturbs another field, and the buffer keeps its 128 bytes. *)
Theorem ring_header_updates us r :
  ringBuf_wf r ->
  let r' := fold_left (fun r u => update_ring u r) us r in
  ringBuf_wf r' /\
  decode_header r' = fold_left (fun h u => update_header u h) us (decode_header r).
Proof.
  revert r. induction us as [|u us IH]; intros r Hwf; [done|]. simpl.
  destruct (update_ring_step u r Hwf) as [Hw Hd]. rewrite <- Hd. by apply IH.
Qed.

Lemma ring_header_updates_witness :
  let r' := fold_left (fun r u => update_ring u r) [UCookie 65216288; UHead 70000; UFlags 1]
              (newRing 0 ringTypeS2M 0 1) in
  ringBuf_wf r' /\ decode_header r' = mkHeader 65216288 1 4464 0.
Proof.
  apply (ring_header_updates [UCookie 65216288; UHead 70000; UFlags 1] (newRing 0 ringTypeS2M 0 1)).
  reflexivity.
Defined.

Section length_field.
Context (db : descBuf) (Hwf : descBuf_wf db).

(** Writing two bytes at the length's offset. *)
Definition low_length (v : Z) : descBuf := put16 descLengthOffset v db.

Lemma low_length_decode v :
  let D := decode_desc db in
  decode_desc (low_length v) =
  mkDesc (d_flags D) (d_region D) (u16 v + 65536 * (d_length D / 65536)) (d_offset D) (d_metadata D).
Proof using Hwf.
  unfold low_length, decode_desc. desc_unfold. simpl.
  f_equal; unfold get16, get32 in *.
  - by rewrite sub_put16 by lia.
  - by rewrite sub_put16 by lia.
  - change (unle (sub 4 4 ?b)) with (get32 4 b). rewrite get32_put16_low by lia.
    change (unle (sub 4 4 db)) with (get32 4 db). by rewrite <- get16_high by lia.
  - by rewrite sub_put16 by lia.
  - by rewrite sub_put16 by lia.
Qed.
End length_field.

(** SetDescLength stores two of the length field's four bytes: the low half
    becomes the new length modulo 65536, the high half keeps its old value, and
    every other field and every other byte of memory is unchanged.  So the call
    sets the length it is given only if that is below 65536 and the old length's
    high half was zero. *)
Theorem setDescLength_low_half `{OS} p q d n i db v w :
  ring_at p q d n -> 0 <= i < n -> 0 <= v ->
  ld (shm w) (s_file d) (desc_addr q d i) descSize = Some db ->
  exists db' w', run (setDescLength p q i v) w = Done tt w' /\
    ld (shm w') (s_file d) (desc_addr q d i) descSize = Some db' /\
    (let D := decode_desc db in
     decode_desc db' = mkDesc (d_flags D) (d_region D) (v mod 65536 + 65536 * (d_length D / 65536))
                         (d_offset D) (d_metadata D)) /\
    (d_length (decode_desc db') = v <-> v / 65536 = d_length (decode_desc db) / 65536) /\
    (forall f o k, disj (s_file d) (desc_addr q d i + 4) 2 f o k -> ld (shm w') f o k = ld (shm w) f o k).
Proof.
  intros Hat Hi Hv Hl. pose proof (ld_zlen _ _ _ _ _ Hl) as Hdb.
  assert (exists m, st (shm w) (s_file d) (desc_addr q d i + descLengthOffset) (le16 v) = Some m) as [m Hm].
  { apply st_is_Some. eexists. rewrite zlen_le16. by eapply ld_sub; [exact Hl|..]. }
  assert (wp (setDescLength p q i v) w (fun _ w' => w' = mkWorld m (kernel w))) as Hwp.
  { by eapply (wp_setDescLength p q d n Hat); [..|exact Hm|]. }
  apply wp_done in Hwp as ([] & w' & Hrun & ->).
  exists (low_length db v), (mkWorld m (kernel w)). split; [done|]. cbn [shm].
  pose proof (low_length_decode db Hdb v) as Hdec. cbv zeta in Hdec. split; [|split; [exact Hdec|split]].
  - unfold low_length, put16. eapply ld_st_window; [exact Hm|exact Hl|done|].
    by rewrite zlen_le16.
  - rewrite Hdec. cbn [d_length]. unfold u16. change (2 ^ 16) with 65536.
    pose proof (Z.div_mod v 65536). lia.
  - intros f o k Hdj. eapply ld_st_disj; [exact Hm|]. by rewrite zlen_le16.
Qed.

(** A buffer size of 64 KiB set on a descriptor of length 3: length 0. *)
Lemma setDescLength_low_half_witness :
  let q := demo_queue ringTypeS2M in
  let w := mkWorld {[ O := zeros 128 ++ encode_desc (mkDesc 0 0 3 160 0) ++ zeros 24 ]} (mkDemo 10 [] []) in
  exists db' w', run (setDescLength (demo_port false) q 0 65536) w = Done tt w' /\
    ld (shm w') 0 128 16 = Some db' /\
    decode_desc db' = mkDesc 0 0 0 160 0 /\
    (d_length (decode_desc db') = 65536 <-> 1 = 0) /\
    (forall f o k, disj 0 (128 + 4) 2 f o k -> ld (shm w') f o k = ld (shm w) f o k).
Proof.
  intros q w.
  refine (setDescLength_low_half (demo_port false) q demo_data 2 0 (encode_desc (mkDesc 0 0 3 160 0)) 65536 w _ _ _ _).
  - split; try done. by eexists.
  - done.
  - done.
  - by vm_compute.
Defined.

(** Interrupt signals the peer on every call: whatever the flags of the ring
    (the mask it tests them with is zero, so a peer that asked for polling is
    interrupted all the same), one write of eight bytes to the queue's eventfd
    is made, and nothing else; an error is returned exactly when the kernel
    reports one or writes another number of bytes. *)
Theorem interrupt_always_signals {os} p q d n flags w :
  ring_at p q d n ->
  ld (@shm (traced os) w) (s_file d) (hdr q d + ringFlagsOffset) 2 = Some flags ->
  exists err w', @run (traced os) _ _ (interrupt p q) w = Done err w' /\
    trace w' = trace w ++ [SC (SysWrite (interruptFd q) (Byte.x01 :: zeros 7))] /\
    exists r : result Z, err = match r with
      | inl n => if n =? 8 then None else Some (Err "faild to write to eventfd")
      | inr e => Some (ErrErrno e)
      end.
Proof.
  intros Hat Hl.
  assert (@wp (traced os) _ _ (isInterrupt p q) w (fun b w' => b = true /\ w' = w)) as Hi.
  { unfold isInterrupt. apply wp_bind. eapply (wp_hdr_load p q d n Hat); [done|done|exact Hl|].
    apply wp_ret. by rewrite isInterrupt_masks_nothing. }
  assert (@wp (traced os) _ _ (interrupt p q) w (fun err w' =>
    trace w' = trace w ++ [SC (SysWrite (interruptFd q) one_buf)] /\
    exists r : result Z, err = match r with
      | inl n => if n =? 8 then None else Some (Err "faild to write to eventfd")
      | inr e => Some (ErrErrno e)
      end)) as Hwp.
  { unfold interrupt. apply wp_bind. eapply wp_mono; [exact Hi|]. intros b w' [-> ->].
    apply wp_bind. eapply wp_mono.
    { apply (calls_sys (os := os) _ w (fun _ l => l = [SC (SysWrite (interruptFd q) one_buf)])). done. }
    intros r w' (l & Hl' & ->). destruct r as [k|e].
    - destruct (k =? 8) eqn:E; apply wp_ret; (split; [done|]); exists (inl k); by rewrite E.
    - apply wp_ret. split; [done|]. by exists (inr e). }
  apply wp_done in Hwp as (err & w' & Hr & Ht & He). by exists err, w'.
Qed.

Lemma interrupt_always_signals_witness :
  let w := @mkWorld (traced demo_os) demo_mem ([], mkDemo 10 [] []) in
  exists err w', @run (traced demo_os) _ _ (interrupt (demo_port false) (demo_queue ringTypeS2M)) w = Done err w' /\
    trace w' = [] ++ [SC (SysWrite 9 (Byte.x01 :: zeros 7))] /\
    exists r : result Z, err = match r with
      | inl n => if n =? 8 then None else Some (Err "faild to write to eventfd")
      | inr e => Some (ErrErrno e)
      end.
Proof.
  intros w.
  refine (interrupt_always_signals (os := demo_os) (demo_port false) (demo_queue ringTypeS2M) demo_data 2 (le16 1) w _ _).
  - split; try done. by eexists.
  - by vm_compute.
Defined.
